(* ===== verification/_CoqProject ===== *)
-Q . S2P
Prelude.v
Mulch.v
Memory.v
FrameAllocator.v
Buddy.v
Pmm.v
Bytes.v
Crates.v
Bitmap.v
PageTable.v
Mapper.v
Translation.v
TableMemory.v
RiscvPaging.v
RiscvCorrect.v
AddressSpace.v
KernelMemory.v
X86Paging.v
Effects.v
Kernel.v
KernelCorrect.v
MemoryCalls.v
Ipc.v
Abi.v
Scheduler.v
Ptah.v
PtahCorrect.v
BTree.v
Input.v
UserChannel.v
UsbDescriptor.v
HidReport.v
HidCorrect.v
HidItems.v
HidDriver.v
HidDriverCorrect.v
GinkgoLex.v
GinkgoVm.v
GinkgoParse.v
GinkgoLexCorrect.v
GinkgoParseTotal.v
GinkgoSpec.v
GinkgoParseCorrect.v
GinkgoVmCorrect.v
GinkgoRun.v
GinkgoCorrect.v
BipQueue.v
SeedRegions.v
SeedMemory.v
PlatformBus.v
PlatformBusWire.v
UsbHid.v
