(* ===== verification/Prelude.v ===== *)
(** * A verification of the core of Poplar

    Poplar is a microkernel operating system written in Rust.  The boot loader
    ([seed/]) hands the kernel ([kernel/]) a memory map; the kernel manages
    physical memory, page tables, address spaces, tasks and kernel objects, and
    offers system calls; user-space services ([user/]) reach it through
    [lib/poplar] and talk to each other over channels whose messages are encoded
    with [lib/ptah].  The hardware abstraction layers are [lib/hal],
    [lib/hal_riscv] and [lib/hal_x86_64].  This development models the parts that
    carry the system's own logic and proves them correct.

    ** The parts and the files that model them

    Shared vocabulary
    - [Prelude]: outcomes (a value or a panic), machine integers with checked
      arithmetic, the tactics and the lemmas on lists, sets and integers.
    - [Mulch]: [lib/mulch/src/math.rs], [ranges.rs].
    - [Bytes]: bytes and little-endian integers.
    - [Crates]: the third-party crates [bit_field] and [bitflags] as classes of
      operations with their documented laws, and instances that meet them.
    - [BipQueue]: [lib/mulch/src/bipqueue.rs], a lock-free queue of bytes.
    - [Effects]: the monad of a Rust function on a mutable state that returns a
      [Result].

    Memory
    - [Memory]: [lib/hal/src/memory/]: addresses, frames, pages, flags.
    - [FrameAllocator]: the trait of [lib/hal/src/memory/mod.rs] as an interface
      ([FrameAllocator], [FrameAllocatorSpec]).
    - [Buddy]: [kernel/src/pmm/buddy.rs].  [Pmm]: [kernel/src/pmm/mod.rs] and the
      early allocator of [kernel/src/bootinfo.rs]; both discharge the interface.
    - [SeedRegions], [SeedMemory]: [seed/seed_riscv/src/memory.rs] and the boot
      information of [main.rs]; the loader's memory from the device tree to the
      map from which [Pmm] starts.
    - [PageTable], [Translation]: tables, walks and the translation a set of
      tables denotes, for any entry format.  [Mapper]: the trait of
      [lib/hal/src/memory/paging.rs] as an interface, and [map_area].
    - [RiscvPaging], [RiscvCorrect]: [lib/hal_riscv/src/paging.rs], Sv48 and Sv39.
      [X86Paging]: [lib/hal_x86_64/src/paging.rs].
    - [Bitmap]: [lib/mulch/src/bitmap.rs].
    - [AddressSpace]: [kernel/src/object/address_space.rs], [memory_object.rs] and
      [kernel/src/vmm/mod.rs], against the interfaces of page tables and of the
      memory manager.  [TableMemory]: what mapping takes from the free memory and
      where tables lie.  [KernelMemory]: Sv48 with [Pmm] discharges them.
    - [MemoryCalls]: the system calls on memory objects of
      [kernel/src/syscall/mod.rs].

    Kernel objects, system calls, scheduling
    - [Kernel]: [kernel/src/object/mod.rs], [channel.rs], [task.rs] (handles) and
      the calls on channels of [kernel/src/syscall/mod.rs].  The objects live in
      one store, an [Arc] is an id, and an object leaves the store when nothing
      refers to it.  [KernelCorrect], [Ipc]: its invariant and what the calls
      promise.
    - [Abi]: the encoding of results in one register, on the kernel's side
      ([handle_syscall]) and on the library's ([lib/poplar/src/syscall/]).
    - [Scheduler]: [kernel/src/scheduler.rs] and the states of
      [kernel/src/object/task.rs] and [address_space.rs].

    Messages and services
    - [Ptah], [PtahCorrect]: [lib/ptah] and the code [ptah_derive] generates.
    - [BTree]: the standard library's ordered maps.
    - [Input]: [user/platform_bus/src/input.rs].  [PlatformBus], [PlatformBusWire]:
      the rest of [user/platform_bus], the service that brings devices and drivers
      together, and its messages.
    - [UserChannel]: [lib/poplar/src/channel.rs], on top of [Kernel] and [Ptah].
    - [HidReport], [HidCorrect], [HidItems]: [lib/usb/src/hid/report.rs].
    - [UsbDescriptor]: [lib/usb/src/descriptor.rs], the walk over a configuration.
    - [UsbHid]: how [user/usb_hid/src/main.rs] starts a device.  [HidDriver],
      [HidDriverCorrect]: its report loop.

    The scripting language ([ginkgo/src/])
    - [GinkgoLex]: [lex.rs].  [GinkgoParse]: [parse.rs], a one-pass compiler.
      [GinkgoVm]: [vm.rs] and [object.rs], the bytecode and its virtual machine.
    - [GinkgoLexCorrect], [GinkgoParseTotal]: what holds for every source.
    - [GinkgoSpec]: programs as trees, their reference semantics, and the code a
      structured compiler gives them.  [GinkgoParseCorrect]: the parser emits this
      code.  [GinkgoVmCorrect], [GinkgoRun]: the machine running it simulates the
      semantics.  [GinkgoCorrect]: scripts from their text to their effects, as
      [main.rs] runs them, and the scripts that go wrong.

    ** What the theorems show

    - Memory: the buddy allocator finds a block exactly when an aligned run of
      free frames exists, keeps its blocks disjoint and fully coalesced, and
      freeing undoes allocating; [Pmm] starts from exactly the usable memory of
      the map.  The loader's region map says of every address what was declared of
      it last, with touching pieces merged (for regions that repeat or extend each
      other), and the kernel never gets a frame that the loader allocated.  Every operation of the
      page tables changes exactly the translations it should, whichever page sizes
      [map_area] chooses, and on errors a mapped prefix remains.  Mapping and
      growing a memory object, allocating a task slot and a kernel stack are
      correct for the composition of these, and whatever calls on memory objects
      are made, what they map is bytes of objects, which share no memory with each
      other, with page tables or with the allocator.
    - Kernel: in every state that a sequence of channel system calls reaches the
      kernel's invariant holds, and a call panics only if it names memory that is not
      mapped in its task, which the kernel does not check; a message arrives once
      with its bytes and objects; the register encoding loses nothing.  In every state the
      scheduler reaches exactly one task runs, in its own address space; a ready
      task waits for a bounded number of switches.
    - Queue: however the accesses of a producer and a consumer interleave, the
      lock-free queue delivers the committed bytes in order, the two never hold
      overlapping buffers and nothing panics.
    - Messages: a type is Ptah's if [ptah] derives its implementations from those
      of the crate and of the derive macros; values of every such type round-trip,
      through a buffer or a channel, and deserialising one without handles panics
      on no bytes, unless the allocator refuses a vector of the length a message
      gives.  A typed channel refines a FIFO queue of values.
    - Platform Bus: it panics only if a message cannot be sent or a driver names an
      unknown device; otherwise every device is handed off at most once and none is
      lost as long as names differ, and a driver is asked about exactly the
      unclaimed devices that have all properties of one of its filters.
    - HID: parsing terminates and inverts the specification's encoding of items and
      of whole descriptors; the interpreter equals a reference reader on the report
      as one integer, its quirks included, and a plain decoder on the descriptors
      that avoid them; the driver sends exactly the events its reports stand for,
      and they describe a consistent keyboard.  The walk over a
      configuration shows exactly the descriptors a conformant device sends, and
      ends on any bytes without a descriptor of length 0.
    - Ginkgo: lexing inverts writing tokens out and is total; parsing ends on every
      text; a supported script has the outcome and the effects its semantics gives
      it.  [supported] leaves out assignments to locals, locals declared after a
      loop in the same frame and nested functions, and the semantics gives no
      meaning to calls from inside functions and to functions that do not return:
      there the implementation goes wrong, as the examples show.
    - Defects: the theorems whose names say what goes wrong ([..._panics],
      [..._loses_handles], [..._blocks], ...) prove what the code does where it
      does not do what it means to.

    ** Conventions, bounds and fuel

    - A w-bit integer is a [Z] within its bounds.  Arithmetic that overflows, a
      failed assertion, an out-of-range index and an [unwrap] of [None] are
      [Panic], as in the default profile; where a theorem says that a result is
      returned, the same holds in a profile without overflow checks.
    - A loop that is not structural has fuel, and running out of it is [Panic]:
      a theorem that a result is returned includes termination.  Fuel is the
      number of bytes plus one for the HID parser (each iteration consumes a
      byte), pages plus one for [map_area] (each iteration maps at least one), the
      size of the store for dropping objects (each round drops at least one), the
      total length plus one for a USB configuration, whose walk may also run for
      ever ([None]), the nodes in memory plus one for the loader's free list,
      the characters left plus one for Ginkgo's lexer, and small multiples of them
      for the mutual recursions of its parser, whose exhaustion is a value of its
      own ([OutOfFuel]) that is proved not to occur.  A script may run forever, so
      [run] has fuel: the theorems say that some fuel gives the result.
    - The threads on a [BipQueue] interleave at every atomic access; the orderings
      [Acquire] and [Release] are read as such an interleaving.
    - A spinlock makes the operation it protects atomic; a system call is one
      step, and concurrency between tasks is the order of these steps.
    - The kernel reaches physical memory through the direct map, so page tables
      live in a memory of 64-bit words by physical address.
    - A user task's memory is a map from its mapped addresses to bytes.  The kernel
      reads and writes it without a check, so a pointer to any other address is a
      page fault in the kernel, a [Panic].
    - Reading a byte that is no value of a Rust enumeration, as a packed USB
      descriptor allows, is undefined in Rust and [Panic] here.
    - The loader's boot information area has the size the loader gives it
      ([BOOT_INFO_MAX_SIZE]); writing past it is a [Panic].
    - Third-party code is a parameter with its documented laws: [bit_field],
      [bitflags], [mycelium_bitfield], [unicode_xid], [arrayvec], [maitake]'s
      tick in the scheduler, and the global allocator, which may refuse a vector
      ([Alloc]; other allocations are not followed).  System calls outside the modelled ones are a
      parameter of the dispatch, Ginkgo's native functions one of its virtual
      machine.

    ** Not modelled

    Code that programs hardware (interrupt controllers, timers, serial ports, the
    entry to the kernel in assembly, the USB controllers, virtio), the boot
    loaders and their use of firmware (but for the RISC-V loader's memory
    management), formatting and logging, the tasklets run by
    [maitake], the token manipulation of [ptah_derive], and the host tools.
    The system calls on tasks, events, interrupts and PCI devices and
    [lib/picotoml] are candidates for further work. *)

From stdpp Require Import base tactics option list numbers gmap sets.

Set Default Goal Selector "!".

Declare Scope poplar_scope.
Delimit Scope poplar_scope with poplar.
#[global] Open Scope Z_scope.

(** ** Outcomes: a Rust expression either yields a value or panics *)

Inductive outcome (A : Type) : Type :=
  | Val (a : A)
  | Panic.
Arguments Val {A} a.
Arguments Panic {A}.

#[global] Instance outcome_ret : MRet outcome := fun A a => Val a.
#[global] Instance outcome_bind : MBind outcome := fun A B f m =>
  match m with Val a => f a | Panic => Panic end.

(** [core::result::Result]. *)
Inductive result (A E : Type) : Type :=
  | Ok (a : A)
  | Err (e : E).
Arguments Ok {A E} a.
Arguments Err {A E} e.

(** [assert!(b)]. *)
Definition rassert (b : bool) : outcome unit := if b then Val tt else Panic.

(** [Option::unwrap] and [Option::expect]. *)
Definition unwrap {A} (o : option A) : outcome A :=
  match o with Some a => Val a | None => Panic end.

(** [returns m P]: [m] does not panic and its value satisfies [P]; the total
    correctness triple of a Rust expression. *)
Definition returns {A} (m : outcome A) (P : A -> Prop) : Prop :=
  match m with Val a => P a | Panic => False end.

Notation "m '⇓' P" := (returns m P) (at level 70, no associativity) : poplar_scope.
#[global] Open Scope poplar_scope.

Lemma returns_bind {A B} (m : outcome A) (f : A -> outcome B) P Q :
  m ⇓ P -> (forall a, P a -> f a ⇓ Q) -> (m ≫= f) ⇓ Q.
Proof. destruct m as [a|]; simpl; [auto|done]. Qed.

Lemma returns_ret {A} (a : A) (P : A -> Prop) : P a -> (mret a : outcome A) ⇓ P.
Proof. done. Qed.

Lemma returns_weaken {A} (m : outcome A) (P Q : A -> Prop) :
  m ⇓ P -> (forall a, P a -> Q a) -> m ⇓ Q.
Proof. destruct m; simpl; auto. Qed.

Lemma returns_Val {A} (m : outcome A) P : m ⇓ P <-> exists a, m = Val a /\ P a.
Proof. destruct m as [a|]; simpl; naive_solver. Qed.

Lemma returns_eq {A} (m : outcome A) a : (m ⇓ fun x => x = a) <-> m = Val a.
Proof. destruct m as [b|]; simpl; naive_solver. Qed.

(** [m] may panic, but only if [Q]; a value satisfies [P]. *)
Definition returns_unless {A} (Q : Prop) (m : outcome A) (P : A -> Prop) : Prop :=
  match m with Val a => P a | Panic => Q end.

Notation "m '⇓{' Q '}' P" := (returns_unless Q m P)
  (at level 70, Q at level 99, no associativity) : poplar_scope.

Lemma returns_unless_bind {A B} (Q1 Q : Prop) (m : outcome A) (f : A -> outcome B) P R :
  m ⇓{Q1} P -> (Q1 -> Q) -> (forall a, P a -> f a ⇓{Q} R) -> (m ≫= f) ⇓{Q} R.
Proof. destruct m as [a|]; simpl; auto. Qed.

Lemma returns_unless_weaken {A} (Q1 Q : Prop) (m : outcome A) (P R : A -> Prop) :
  m ⇓{Q1} P -> (Q1 -> Q) -> (forall a, P a -> R a) -> m ⇓{Q} R.
Proof. destruct m; simpl; auto. Qed.

Lemma returns_unless_returns {A} (Q : Prop) (m : outcome A) (P : A -> Prop) :
  m ⇓{~ Q} P -> Q -> m ⇓ P.
Proof. destruct m; simpl; auto. Qed.

Lemma bind_Val {A B} (m : outcome A) (f : A -> outcome B) b :
  (m ≫= f) = Val b <-> exists a, m = Val a /\ f a = Val b.
Proof. destruct m as [a|]; simpl; naive_solver. Qed.

Lemma bind_assert {B} (b : bool) (f : unit -> outcome B) :
  b = true -> (rassert b ≫= f) = f tt.
Proof. by intros ->. Qed.

Lemma Val_inj {A} (a b : A) : Val a = Val b -> a = b.
Proof. by intros [= ->]. Qed.

Lemma rassert_Val b u : rassert b = Val u <-> b = true.
Proof. destruct b, u; simpl; naive_solver. Qed.

Lemma unwrap_Val {A} (o : option A) a : unwrap o = Val a <-> o = Some a.
Proof. destruct o; simpl; naive_solver. Qed.

(** A [for] loop: the fold of a body that may panic over the values of an
    iterator. *)
Fixpoint ofold {S A} (body : S -> A -> outcome S) (s : S) (l : list A) : outcome S :=
  match l with
  | [] => Val s
  | a :: l => s' ← body s a; ofold body s' l
  end.

Lemma ofold_app {S A} (body : S -> A -> outcome S) s l1 l2 :
  ofold body s (l1 ++ l2) = (s' ← ofold body s l1; ofold body s' l2).
Proof.
  revert s. induction l1 as [|a l1 IH]; intros s; simpl; [done|].
  destruct (body s a); simpl; [apply IH|done].
Qed.

(** The invariant rule, indexed by the values already visited. *)
Lemma ofold_invariant {S A} (body : S -> A -> outcome S) (P : list A -> S -> Prop) s l :
  P [] s ->
  (forall done_ a rest s, l = done_ ++ a :: rest -> P done_ s ->
     body s a ⇓ fun s' => P (done_ ++ [a]) s') ->
  ofold body s l ⇓ P l.
Proof.
  intros H0 Hstep.
  cut (forall rest done_ s, l = done_ ++ rest -> P done_ s -> ofold body s rest ⇓ P l).
  { intros H. by apply (H l []). }
  induction rest as [|a rest IH]; intros done_ s' -> Hs; simpl.
  - by rewrite app_nil_r.
  - eapply returns_bind; [by apply (Hstep done_ a rest)|]. intros s'' Hs''.
    apply (IH (done_ ++ [a])); [by rewrite <- app_assoc|done].
Qed.

(** The same for a body that panics only if [Q]. *)
Lemma ofold_invariant_unless {S A} (Q : Prop) (body : S -> A -> outcome S) (P : list A -> S -> Prop) s l :
  P [] s ->
  (forall done_ a rest s, l = done_ ++ a :: rest -> P done_ s ->
     body s a ⇓{Q} fun s' => P (done_ ++ [a]) s') ->
  ofold body s l ⇓{Q} P l.
Proof.
  intros H0 Hstep.
  cut (forall rest done_ s, l = done_ ++ rest -> P done_ s -> ofold body s rest ⇓{Q} P l).
  { intros H. by apply (H l []). }
  induction rest as [|a rest IH]; intros done_ s' -> Hs; simpl.
  - by rewrite app_nil_r.
  - eapply returns_unless_bind; [by apply (Hstep done_ a rest)|done|]. intros s'' Hs''.
    apply (IH (done_ ++ [a])); [by rewrite <- app_assoc|done].
Qed.

Lemma ofold_bind {S A B} (f : S -> B -> outcome S) (g : S -> A -> outcome S) (h : A -> list B) l : forall s,
  (forall s a, a ∈ l -> g s a = ofold f s (h a)) -> ofold g s l = ofold f s (l ≫= h).
Proof.
  induction l as [|a l IH]; intros s Hg; [done|]. rewrite bind_cons, ofold_app. simpl. rewrite Hg by set_solver.
  destruct (ofold f s (h a)); [|done]. simpl. apply IH. set_solver.
Qed.

(** ** Machine arithmetic on [usize] and [u64] (64-bit targets) *)

(** The range of [usize] and of the other unsigned types. *)
Definition is_unsigned (w x : Z) : Prop := 0 <= x < 2 ^ w.
Abbreviation is_usize := (is_unsigned 64).

Definition unsigned_fits (w x : Z) : bool := (0 <=? x) && (x <? 2 ^ w).

(** [+], [-], [*] with overflow checks: out of range is a panic. *)
Definition checked (w x : Z) : option Z := if unsigned_fits w x then Some x else None.
Definition wadd (w x y : Z) : outcome Z := unwrap (checked w (x + y)).
Definition wsub (w x y : Z) : outcome Z := unwrap (checked w (x - y)).
Definition wmul (w x y : Z) : outcome Z := unwrap (checked w (x * y)).
Abbreviation uadd := (wadd 64).
Abbreviation usub := (wsub 64).
Abbreviation umul := (wmul 64).

(** [checked_add], [checked_sub], [checked_mul]. *)
Definition checked_add (x y : Z) : option Z := checked 64 (x + y).
Definition checked_sub (x y : Z) : option Z := checked 64 (x - y).
Definition checked_mul (x y : Z) : option Z := checked 64 (x * y).

(** [/] and [%]: division by zero is a panic. *)
Definition udiv (x y : Z) : outcome Z := if y =? 0 then Panic else Val (x / y).
Definition urem (x y : Z) : outcome Z := if y =? 0 then Panic else Val (x mod y).

(** Bitwise negation of a [w]-bit unsigned integer. *)
Definition unot (w x : Z) : Z := Z.lxor x (Z.ones w).

(** [is_power_of_two], [next_power_of_two], [trailing_zeros]. *)
Definition is_power_of_two (x : Z) : bool := (0 <? x) && (2 ^ Z.log2 x =? x).
Definition next_power_of_two (x : Z) : outcome Z := unwrap (checked 64 (2 ^ Z.log2_up x)).
Definition trailing_zeros (w x : Z) : Z :=
  if x =? 0 then w else Z.log2 (Z.land x (- x)).

Lemma unsigned_fits_spec w x : unsigned_fits w x = true <-> is_unsigned w x.
Proof. unfold unsigned_fits, is_unsigned. lia. Qed.

Lemma checked_Some w x y : checked w x = Some y <-> is_unsigned w x /\ y = x.
Proof.
  unfold checked. destruct (unsigned_fits w x) eqn:E.
  - apply unsigned_fits_spec in E. naive_solver.
  - rewrite <- unsigned_fits_spec, E. naive_solver.
Qed.

Lemma checked_in w x : is_unsigned w x -> checked w x = Some x.
Proof. intros. by apply checked_Some. Qed.

Lemma checked_None w x : checked w x = None <-> ~ is_unsigned w x.
Proof.
  unfold checked. rewrite <- unsigned_fits_spec.
  destruct (unsigned_fits w x); naive_solver.
Qed.

Lemma wadd_Val w x y z : wadd w x y = Val z <-> is_unsigned w (x + y) /\ z = x + y.
Proof. unfold wadd. by rewrite unwrap_Val, checked_Some. Qed.
Lemma wsub_Val w x y z : wsub w x y = Val z <-> is_unsigned w (x - y) /\ z = x - y.
Proof. unfold wsub. by rewrite unwrap_Val, checked_Some. Qed.
Lemma wmul_Val w x y z : wmul w x y = Val z <-> is_unsigned w (x * y) /\ z = x * y.
Proof. unfold wmul. by rewrite unwrap_Val, checked_Some. Qed.

Lemma wadd_in w x y : is_unsigned w (x + y) -> wadd w x y = Val (x + y).
Proof. intros. by apply wadd_Val. Qed.
Lemma wsub_in w x y : is_unsigned w (x - y) -> wsub w x y = Val (x - y).
Proof. intros. by apply wsub_Val. Qed.
Lemma wmul_in w x y : is_unsigned w (x * y) -> wmul w x y = Val (x * y).
Proof. intros. by apply wmul_Val. Qed.

(** Run the monadic prefix of an expression without touching anything else. *)
Ltac obind :=
  cbn [mbind outcome_bind mret outcome_ret rassert unwrap returns returns_unless].

(** Decompose hypotheses [(m ≫= f) = Val b], [rassert b = Val tt] and the
    successful machine operations, which yield their range conditions. *)
Ltac outcome_inv :=
  repeat match goal with
  | H : (_ ≫= _) = Val _ |- _ =>
      let a := fresh "a" in let Ha := fresh "Ha" in
      apply bind_Val in H as (a & Ha & H)
  | H : mret _ = Val _ |- _ => apply Val_inj in H
  | H : Val _ = Val _ |- _ => apply Val_inj in H
  | H : Panic = Val _ |- _ => discriminate H
  | H : rassert _ = Val _ |- _ => apply rassert_Val in H
  | H : unwrap _ = Val _ |- _ => apply unwrap_Val in H
  | H : wadd _ _ _ = Val _ |- _ => apply wadd_Val in H as [H ->]
  | H : wsub _ _ _ = Val _ |- _ => apply wsub_Val in H as [H ->]
  | H : wmul _ _ _ = Val _ |- _ => apply wmul_Val in H as [H ->]
  end.

(** ** Powers of two, masks and alignment *)

Lemma is_power_of_two_spec x : is_power_of_two x = true <-> exists k, 0 <= k /\ x = 2 ^ k.
Proof.
  unfold is_power_of_two. rewrite andb_true_iff, Z.ltb_lt, Z.eqb_eq. split.
  - intros [? <-]. exists (Z.log2 x). split; [apply Z.log2_nonneg|done].
  - intros (k & ? & ->). rewrite Z.log2_pow2 by done.
    split; [apply Z.pow_pos_nonneg; lia|done].
Qed.

Lemma is_power_of_two_pow2 k : 0 <= k -> is_power_of_two (2 ^ k) = true.
Proof. intros. apply is_power_of_two_spec; eauto. Qed.

Lemma testbit_out w x i : is_unsigned w x -> w <= i -> Z.testbit x i = false.
Proof.
  intros [??] ?. destruct (decide (x = 0)) as [->|]; [apply Z.bits_0|].
  apply Z.bits_above_log2; [done|]. apply Z.log2_lt_pow2; [lia|].
  eapply Z.lt_le_trans; [done|]. apply Z.pow_le_mono_r; lia.
Qed.

(** [x & !(2^k - 1)] clears the low [k] bits. *)
Lemma land_unot_ones w x k :
  is_unsigned w x -> 0 <= k <= w ->
  Z.land x (unot w (2 ^ k - 1)) = x - x mod 2 ^ k.
Proof.
  intros Hx Hk. unfold unot.
  replace (x - x mod 2 ^ k) with ((x ≫ k) ≪ k).
  2:{ rewrite Z.shiftl_mul_pow2, Z.shiftr_div_pow2 by lia.
      rewrite (Z.div_mod x (2 ^ k)) at 2 by (apply Z.pow_nonzero; lia). ring. }
  apply Z.bits_inj'. intros i Hi.
  replace (2 ^ k - 1) with (Z.ones k) by (rewrite Z.ones_equiv; lia).
  rewrite Z.land_spec, Z.lxor_spec, Z.shiftl_spec by done.
  rewrite !Z.testbit_ones by lia.
  destruct (decide (i < k)) as [|].
  - rewrite (Z.testbit_neg_r _ (i - k)) by lia.
    replace (i <? k) with true by lia. replace (i <? w) with true by lia.
    replace (0 <=? i) with true by lia. by rewrite andb_false_r.
  - rewrite Z.shiftr_spec by lia. replace (i - k + k) with i by lia.
    replace (i <? k) with false by lia.
    destruct (decide (i < w)) as [|].
    + replace (0 <=? i) with true by lia. replace (i <? w) with true by lia.
      by rewrite andb_true_r.
    + rewrite (testbit_out w) by (done || lia). done.
Qed.

(** Joining a high part and a low part that do not overlap. *)
Lemma lor_shifted a k m : 0 <= k -> 0 <= m < 2 ^ k -> Z.lor (a * 2 ^ k) m = a * 2 ^ k + m.
Proof.
  intros Hk Hm.
  assert (Z.land (a * 2 ^ k) m = 0) as Hl.
  { apply Z.bits_inj'. intros i Hi. rewrite Z.land_spec, Z.bits_0.
    destruct (decide (i < k)) as [|].
    - rewrite Z.mul_pow2_bits_low by lia. done.
    - rewrite (testbit_out k m) by (done || lia). apply andb_false_r. }
  by rewrite Z.add_nocarry_lxor, Z.lxor_lor.
Qed.

Lemma land_low x k : 0 <= k -> Z.land x (2 ^ k - 1) = x mod 2 ^ k.
Proof.
  intros. rewrite <- Z.land_ones by done. f_equal. rewrite Z.ones_equiv. lia.
Qed.

Lemma land_1 x : Z.land x 1 = x mod 2.
Proof. apply (land_low x 1). lia. Qed.

Lemma trailing_zeros_pow2 w k : 0 <= k -> trailing_zeros w (2 ^ k) = k.
Proof.
  intros Hk. unfold trailing_zeros.
  destruct (Z.eqb_spec (2 ^ k) 0) as [E|_]; [pose proof (Z.pow_pos_nonneg 2 k); lia|].
  replace (Z.land (2 ^ k) (- 2 ^ k)) with (2 ^ k); [by apply Z.log2_pow2|].
  replace (- 2 ^ k) with (Z.lnot (Z.ones k)) by (rewrite Z.ones_equiv; unfold Z.lnot; lia).
  apply Z.bits_inj'. intros i Hi.
  rewrite Z.land_spec, Z.lnot_spec, Z.pow2_bits_eqb, Z.testbit_ones by lia.
  destruct (Z.eqb_spec k i); simpl; [|done]. lia.
Qed.

(** Division-with-remainder facts used for alignment. *)
Lemma mod_aligned_sub x m : 0 < m -> (x - x mod m) mod m = 0.
Proof. intros. rewrite Zminus_mod_idemp_r, Z.sub_diag. apply Z.mod_0_l. lia. Qed.

Lemma pow2_pos k : 0 <= k -> 0 < 2 ^ k.
Proof. intros. apply Z.pow_pos_nonneg; lia. Qed.

Lemma mod_divide_trans x a b : 0 < a -> (a | b) -> x mod b = 0 -> x mod a = 0.
Proof.
  intros Ha [q ->] Hx. destruct (decide (q = 0)) as [->|Hq].
  - rewrite Z.mul_0_l, Z.mod_0_r in Hx. subst. apply Z.mod_0_l; lia.
  - apply Z.mod_divide in Hx; [|nia]. apply Z.mod_divide; [lia|].
    etrans; [|exact Hx]. apply Z.divide_factor_r.
Qed.

Lemma pow2_divide j k : 0 <= j <= k -> (2 ^ j | 2 ^ k).
Proof.
  intros. exists (2 ^ (k - j)). rewrite <- Z.pow_add_r by lia. f_equal; lia.
Qed.

Create HintDb poplar discriminated.
#[export] Hint Resolve pow2_pos is_power_of_two_pow2 : poplar.

(** ** Lists whose elements are related pairwise *)

Fixpoint pairwise {A} (R : A -> A -> Prop) (l : list A) : Prop :=
  match l with
  | [] => True
  | a :: l => (forall b, b ∈ l -> R a b) /\ pairwise R l
  end.

Lemma pairwise_app {A} (R : A -> A -> Prop) l1 l2 :
  pairwise R (l1 ++ l2) <-> pairwise R l1 /\ pairwise R l2 /\ (forall a b, a ∈ l1 -> b ∈ l2 -> R a b).
Proof. induction l1 as [|a l1 IH]; simpl.
  - split; [intros Hl; split_and!; [done..|set_solver]|tauto].
  - rewrite IH. setoid_rewrite elem_of_app. setoid_rewrite elem_of_cons. naive_solver.
Qed.

Lemma pairwise_singleton {A} (R : A -> A -> Prop) a : pairwise R [a].
Proof. split; [set_solver|done]. Qed.

Lemma pairwise_impl {A} (R R' : A -> A -> Prop) l :
  (forall a b, a ∈ l -> b ∈ l -> R a b -> R' a b) -> pairwise R l -> pairwise R' l.
Proof. induction l as [|a l IH]; simpl; [done|]. intros HR [H1 H2]. split; set_solver. Qed.

Lemma pairwise_and {A} (R R' : A -> A -> Prop) l :
  pairwise R l -> pairwise R' l -> pairwise (fun a b => R a b /\ R' a b) l.
Proof. induction l as [|a l IH]; simpl; [done|]. intros [? ?] [? ?]. split; [|by apply IH]. auto. Qed.

Lemma pairwise_bind {A B} (R : B -> B -> Prop) (f : A -> list B) l :
  (forall a, a ∈ l -> pairwise R (f a)) ->
  pairwise (fun a b => forall x y, x ∈ f a -> y ∈ f b -> R x y) l ->
  pairwise R (l ≫= f).
Proof.
  induction l as [|a l IH]; simpl; [done|]. intros Hf [Ha Hl]. apply pairwise_app. split_and!.
  - apply Hf. set_solver.
  - apply IH; [set_solver|done].
  - intros x y Hx (b & Hy & Hb)%list_elem_of_bind. by apply (Ha b).
Qed.

Lemma bind_length_one {A B} (f : A -> list B) l :
  (forall a, a ∈ l -> length (f a) = 1%nat) -> length (l ≫= f) = length l.
Proof.
  induction l as [|a l IH]; intros Hf; [done|]. rewrite bind_cons, length_app. cbn [length].
  rewrite IH, Hf by set_solver. done.
Qed.

Lemma pairwise_filter {A} (R : A -> A -> Prop) P `{!forall x, Decision (P x)} l :
  pairwise R l -> pairwise R (filter P l).
Proof.
  induction l as [|a l IH]; [done|]. intros [Ha Hl]. rewrite filter_cons.
  destruct (decide (P a)); [|by apply IH]. split; [|by apply IH]. intros b [_ Hb]%list_elem_of_filter. auto.
Qed.

Lemma pairwise_omap {A B} (R : B -> B -> Prop) (f : A -> option B) l :
  pairwise (fun a b => forall x y, f a = Some x -> f b = Some y -> R x y) l -> pairwise R (omap f l).
Proof.
  induction l as [|a l IH]; [done|]. intros [Ha Hl]. simpl. destruct (f a) as [x|] eqn:E; [|by apply IH].
  split; [|by apply IH]. intros y (b & Hb & Hy)%list_elem_of_omap. by apply (Ha b).
Qed.

Lemma pairwise_fmap {A B} (R : B -> B -> Prop) (f : A -> B) l :
  pairwise (fun a b => R (f a) (f b)) l -> pairwise R (f <$> l).
Proof.
  induction l as [|a l IH]; [done|]. intros [Ha Hl]. split; [|by apply IH].
  intros y (b & -> & Hb)%list_elem_of_fmap. by apply Ha.
Qed.

Lemma omap_length {A B} (f : A -> option B) l : (length (omap f l) <= length l)%nat.
Proof. induction l as [|a l IH]; cbn; [done|]. destruct (f a); cbn; lia. Qed.
