(* ===== verification/Mulch.v ===== *)
(** * [lib/mulch]: integer helpers and range arithmetic

    [Math] models [lib/mulch/src/math.rs], [Ranges] models
    [lib/mulch/src/ranges.rs].  The functions are generic over the unsigned
    integer type, here its width [w]. *)

From stdpp Require Import base tactics option list numbers.
From S2P Require Import Prelude.

Module Math.

Definition align_down (w value align : Z) : outcome Z :=
  rassert ((align =? 0) || is_power_of_two align) ;;
  if align =? 0 then mret value
  else mret (Z.land value (unot w (align - 1))).

Definition align_up (w value align : Z) : outcome Z :=
  if align =? 0 then mret value
  else
    t ← wadd w value align;
    v ← wsub w t 1;
    align_down w v align.

(** Division by zero panics, as [/] and [%] do. *)
Definition ceiling_integer_divide (x divide_by : Z) : outcome Z :=
  q ← udiv x divide_by;
  r ← urem x divide_by;
  uadd q (if negb (r =? 0) then 1 else 0).

Definition abs_difference (w a b : Z) : outcome Z :=
  if a >? b then wsub w a b else wsub w b a.

Lemma align_down_pow2 w value k :
  is_unsigned w value -> 0 <= k <= w ->
  align_down w value (2 ^ k) = Val (value - value mod 2 ^ k).
Proof.
  intros Hv Hk. unfold align_down.
  rewrite is_power_of_two_pow2, orb_true_r by lia. simpl.
  destruct (Z.eqb_spec (2 ^ k) 0) as [E|_]; [pose proof (pow2_pos k); lia|].
  by rewrite land_unot_ones.
Qed.

Lemma align_up_pow2 w value k :
  is_unsigned w value -> 0 <= k <= w -> value + 2 ^ k < 2 ^ w ->
  align_up w value (2 ^ k) =
    Val ((value + 2 ^ k - 1) - (value + 2 ^ k - 1) mod 2 ^ k).
Proof.
  intros [Hv1 Hv2] Hk Hb. pose proof (pow2_pos k ltac:(lia)).
  unfold align_up.
  destruct (Z.eqb_spec (2 ^ k) 0) as [E|_]; [lia|].
  rewrite wadd_in by (unfold is_unsigned; lia). simpl.
  rewrite wsub_in by (unfold is_unsigned; lia). simpl.
  apply align_down_pow2; unfold is_unsigned; lia.
Qed.

(** [align_up] is the least multiple of the alignment that is not below the
    value, and neither panics nor overflows when that multiple plus one
    alignment step fits the type. *)
Lemma align_up_least w value k :
  is_unsigned w value -> 0 <= k <= w -> value + 2 ^ k < 2 ^ w ->
  align_up w value (2 ^ k) ⇓ fun r =>
    (2 ^ k | r) /\ value <= r < value + 2 ^ k /\
    (forall m, (2 ^ k | m) -> value <= m -> r <= m).
Proof.
  intros Hv Hk Hb. rewrite align_up_pow2 by done. simpl.
  pose proof (pow2_pos k ltac:(lia)) as Hp.
  pose proof (Z.mod_pos_bound (value + 2 ^ k - 1) (2 ^ k) Hp).
  assert ((2 ^ k | value + 2 ^ k - 1 - (value + 2 ^ k - 1) mod 2 ^ k)) as Hd.
  { apply Z.mod_divide; [lia|]. by apply mod_aligned_sub. }
  set (r := value + 2 ^ k - 1 - (value + 2 ^ k - 1) mod 2 ^ k) in *.
  assert (value <= r < value + 2 ^ k) as Hr by lia. clearbody r.
  split; [done|]. split; [lia|]. intros m [q ->] Hm. destruct Hd as [q' ->].
  assert (q' < q + 1) by nia. nia.
Qed.

Lemma ceiling_integer_divide_spec x d :
  is_usize x -> 0 < d ->
  ceiling_integer_divide x d ⇓ fun q => x <= q * d < x + d.
Proof.
  intros [Hx1 Hx2] Hd. unfold ceiling_integer_divide, udiv, urem.
  destruct (Z.eqb_spec d 0) as [|_]; [lia|]. simpl.
  pose proof (Z.mod_pos_bound x d Hd). pose proof (Z.div_mod x d ltac:(lia)).
  assert (0 <= x / d <= x) as [??].
  { split; [apply Z.div_pos; lia|]. apply Z.div_le_upper_bound; nia. }
  destruct (Z.eqb_spec (x mod d) 0); simpl.
  - rewrite wadd_in by (unfold is_unsigned; lia). simpl. nia.
  - rewrite wadd_in; simpl; [nia|]. unfold is_unsigned.
    destruct (decide (d = 1)) as [->|]; [rewrite Z.mod_1_r in *; lia|].
    assert (x / d <= x / 2) by (apply Z.div_le_compat_l; lia).
    assert (x / 2 <= 2 ^ 63) by (apply Z.div_le_upper_bound; lia). lia.
Qed.

Lemma abs_difference_spec w a b :
  is_unsigned w a -> is_unsigned w b -> abs_difference w a b = Val (Z.abs (a - b)).
Proof.
  intros [??] [??]. unfold abs_difference.
  destruct (Z.gtb_spec a b); rewrite wsub_in by (unfold is_unsigned; lia); f_equal; lia.
Qed.

End Math.

Module Ranges.

(** [core::ops::Range<usize>]. *)
Record Range := mkRange { start : Z; end_ : Z }.

Definition encompasses (self other : Range) : bool :=
  (start other >=? start self) && (end_ other <=? end_ self).

Definition intersects (self other : Range) : bool :=
  (start self <? end_ other) && (end_ self >? start other).

Definition intersection (self other : Range) : option Range :=
  if intersects self other then
    Some (mkRange (Z.max (start self) (start other)) (Z.min (end_ self) (end_ other)))
  else None.

Definition split (self other : Range) : option Range * option Range * option Range :=
  let before := if start self >=? start other then None
                else Some (mkRange (start self) (start other)) in
  let middle := intersection self other in
  let after := if end_ self <=? end_ other then None
               else Some (mkRange (end_ other) (end_ self)) in
  (before, middle, after).

Definition mem (x : Z) (r : Range) : Prop := start r <= x < end_ r.
Definition mem_opt (x : Z) (r : option Range) : Prop :=
  match r with Some r => mem x r | None => False end.

Lemma intersection_mem self other x :
  mem_opt x (intersection self other) <-> mem x self /\ mem x other.
Proof.
  unfold intersection, intersects, mem_opt, mem.
  destruct (Z.ltb_spec (start self) (end_ other));
    destruct (Z.gtb_spec (end_ self) (start other)); simpl; lia.
Qed.

(** Splitting by an intersecting range partitions [self] into what lies before
    [other], what lies in it and what lies after it. *)
Lemma split_partition self other x :
  intersects self other = true ->
  let '(before, middle, after) := split self other in
  (mem_opt x before <-> mem x self /\ x < start other) /\
  (mem_opt x middle <-> mem x self /\ mem x other) /\
  (mem_opt x after <-> mem x self /\ end_ other <= x).
Proof.
  intros Hi. unfold split. split_and!; [| apply intersection_mem |].
  all: unfold intersects, mem_opt, mem in *.
  - destruct (Z.geb_spec (start self) (start other)); simpl; lia.
  - destruct (Z.leb_spec (end_ self) (end_ other)); simpl; lia.
Qed.

(** Without an intersection the outer parts reach past [self]: splitting
    [0..4] by [10..20] yields [0..10] as the part before. *)
Lemma split_disjoint_overreach :
  split (mkRange 0 4) (mkRange 10 20) = (Some (mkRange 0 10), None, None).
Proof. done. Qed.

End Ranges.
