(* ===== verification/Memory.v ===== *)
(** * [lib/hal/src/memory]: addresses, frames, pages and mapping flags

    The architecture-independent vocabulary of the memory subsystem:
    [physical_address.rs], [virtual_address.rs], [frame.rs], [page.rs],
    [mod.rs] and the data of [paging.rs].  A [PAddr] or a [VAddr] is a
    transparent [usize], so both are integers here; the validity conditions the
    constructors enforce are the predicates [paddr_valid] and [vaddr_canonical]. *)

From stdpp Require Import base tactics option list numbers.
From S2P Require Import Prelude.

(** The [cfg] alternatives of the two address modules. *)
Inductive target := X86_64 | Rv64Virt | MqPro | OtherTarget.

#[global] Instance target_eq_dec : EqDecision target.
Proof. solve_decision. Defined.

(** ** Sizes *)

Definition kibibytes (k : Z) : outcome Z := umul k 1024.
Definition mebibytes (m : Z) : outcome Z := t ← umul m 1024; kibibytes t.
Definition gibibytes (g : Z) : outcome Z := t ← umul g 1024; mebibytes t.

Inductive FrameSize := Size4KiB | Size2MiB | Size1GiB.

#[global] Instance FrameSize_eq_dec : EqDecision FrameSize.
Proof. solve_decision. Defined.

Definition SIZE (s : FrameSize) : Z :=
  match s with
  | Size4KiB => 4096
  | Size2MiB => 2097152
  | Size1GiB => 1073741824
  end.

Definition size_bits (s : FrameSize) : Z :=
  match s with Size4KiB => 12 | Size2MiB => 21 | Size1GiB => 30 end.

Lemma SIZE_consts :
  kibibytes 4 = Val (SIZE Size4KiB) /\ mebibytes 2 = Val (SIZE Size2MiB) /\
  gibibytes 1 = Val (SIZE Size1GiB).
Proof. done. Qed.

Lemma SIZE_pow2 s : SIZE s = 2 ^ size_bits s.
Proof. by destruct s. Qed.

Lemma SIZE_pos s : 0 < SIZE s.
Proof. by destruct s. Qed.

Lemma SIZE_4KiB_divides s : (4096 | SIZE s).
Proof. destruct s; [exists 1|exists 512|exists 262144]; done. Qed.

#[export] Hint Resolve SIZE_pos : poplar.

Definition frames_needed (s : FrameSize) (bytes : Z) : outcome Z :=
  q ← udiv bytes (SIZE s);
  r ← urem bytes (SIZE s);
  uadd q (if r >? 0 then 1 else 0).

(** ** Physical addresses *)

Module PAddr.

Definition MAX_PHYSICAL_ADDRESS : Z := 2 ^ 52 - 1.

Definition new (tgt : target) (address : Z) : option Z :=
  match tgt with
  | X86_64 => if (0 <=? address) && (address <=? MAX_PHYSICAL_ADDRESS)
              then Some address else None
  | _ => Some address
  end.

Definition align_down (self align : Z) : outcome Z :=
  if is_power_of_two align then mret (Z.land self (unot 64 (align - 1)))
  else rassert (align =? 0) ;; mret self.

Definition align_up (self align : Z) : outcome Z :=
  t ← uadd self align;
  v ← usub t 1;
  align_down v align.

Definition is_aligned (self align : Z) : outcome bool :=
  r ← urem self align; mret (r =? 0).

Definition checked_add (tgt : target) (self rhs : Z) : option Z :=
  Prelude.checked_add self rhs ≫= new tgt.

Definition checked_sub (tgt : target) (self rhs : Z) : option Z :=
  Prelude.checked_sub self rhs ≫= new tgt.

(** [impl Add<usize>] and [impl Sub<usize>]; the [_assign] forms go through them. *)
Definition add (tgt : target) (self rhs : Z) : outcome Z :=
  t ← uadd self rhs; unwrap (new tgt t).

Definition sub (tgt : target) (self rhs : Z) : outcome Z :=
  t ← usub self rhs; unwrap (new tgt t).

End PAddr.

(** The addresses [PAddr::new] can produce. *)
Definition paddr_limit (tgt : target) : Z :=
  match tgt with X86_64 => 2 ^ 52 | _ => 2 ^ 64 end.
Definition paddr_valid (tgt : target) (p : Z) : Prop := 0 <= p < paddr_limit tgt.

(** ** Virtual addresses *)

Module VAddr.

Definition SIGN_EXTENSION_48 : Z := 0xffff000000000000.
Definition SIGN_EXTENSION_39 : Z := 0xffffff8000000000.

Definition canonicalise (tgt : target) (self : Z) : Z :=
  match tgt with
  | X86_64 | Rv64Virt =>
      Z.lor (SIGN_EXTENSION_48 * Z.land (self ≫ 47) 1) (Z.land self (1 ≪ 48 - 1))
  | MqPro =>
      Z.lor (SIGN_EXTENSION_39 * Z.land (self ≫ 38) 1) (Z.land self (1 ≪ 39 - 1))
  | OtherTarget => self
  end.

Definition new (tgt : target) (address : Z) : Z := canonicalise tgt address.

Definition align_down (self align : Z) : outcome Z :=
  if is_power_of_two align then mret (Z.land self (unot 64 (align - 1)))
  else rassert (align =? 0) ;; mret self.

Definition align_up (self align : Z) : outcome Z :=
  t ← uadd self align;
  v ← usub t 1;
  align_down v align.

Definition is_aligned (self align : Z) : outcome bool :=
  r ← urem self align; mret (r =? 0).

Definition checked_add (tgt : target) (self rhs : Z) : option Z :=
  t ← Prelude.checked_add self rhs; Some (new tgt t).

Definition checked_sub (tgt : target) (self rhs : Z) : option Z :=
  t ← Prelude.checked_sub self rhs; Some (new tgt t).

Definition add (tgt : target) (self rhs : Z) : outcome Z :=
  t ← uadd self rhs; mret (new tgt t).

Definition sub (tgt : target) (self rhs : Z) : outcome Z :=
  t ← usub self rhs; mret (new tgt t).

End VAddr.

(** The number of significant bits of a virtual address. *)
Definition va_bits (tgt : target) : Z :=
  match tgt with X86_64 | Rv64Virt => 48 | MqPro => 39 | OtherTarget => 64 end.

(** Sign-extended from bit [va_bits - 1]: the lower or the upper half. *)
Definition vaddr_canonical (tgt : target) (v : Z) : Prop :=
  match tgt with
  | OtherTarget => is_usize v
  | _ => 0 <= v < 2 ^ (va_bits tgt - 1) \/ 2 ^ 64 - 2 ^ (va_bits tgt - 1) <= v < 2 ^ 64
  end.

(** ** Frames and pages *)

Record Frame (s : FrameSize) := mkFrame { frame_start : Z }.
Record Page (s : FrameSize) := mkPage { page_start : Z }.
Arguments mkFrame {s} frame_start.
Arguments mkPage {s} page_start.
Arguments frame_start {s} f.
Arguments page_start {s} p.

Module Frame.
Section with_size.
Context {s : FrameSize}.
Implicit Types f : Frame s.

Definition starts_with (address : Z) : outcome (Frame s) :=
  b ← PAddr.is_aligned address (SIZE s);
  rassert b ;; mret (mkFrame address).

Definition contains (address : Z) : outcome (Frame s) :=
  a ← PAddr.align_down address (SIZE s); mret (mkFrame a).

Definition add (tgt : target) (self : Frame s) (num_frames : Z) : outcome (Frame s) :=
  m ← umul num_frames (SIZE s);
  t ← uadd (frame_start self) m;
  rassert (bool_decide (is_Some (PAddr.new tgt t))) ;;
  a ← PAddr.add tgt (frame_start self) m;
  mret (mkFrame a).

Definition steps_between (start end_ : Frame s) : outcome (Z * option Z) :=
  match checked_sub (frame_start end_) (frame_start start) with
  | None => mret (0, None)
  | Some address_difference =>
      r ← urem address_difference (SIZE s);
      rassert (r =? 0) ;;
      q ← udiv address_difference (SIZE s);
      mret (q, Some q)
  end.

Definition forward_checked (tgt : target) (start : Frame s) (count : Z) : option (Frame s) :=
  m ← checked_mul (SIZE s) count;
  a ← PAddr.checked_add tgt (frame_start start) m;
  Some (mkFrame a).

Definition backward_checked (tgt : target) (start : Frame s) (count : Z) : option (Frame s) :=
  m ← checked_mul (SIZE s) count;
  a ← PAddr.checked_sub tgt (frame_start start) m;
  Some (mkFrame a).

End with_size.
End Frame.

Module Page.
Section with_size.
Context {s : FrameSize}.

Definition starts_with (address : Z) : outcome (Page s) :=
  r ← urem address (SIZE s);
  rassert (r =? 0) ;; mret (mkPage address).

Definition contains (address : Z) : outcome (Page s) :=
  a ← VAddr.align_down address (SIZE s); mret (mkPage a).

Definition add (tgt : target) (self : Page s) (num_pages : Z) : outcome (Page s) :=
  m ← umul num_pages (SIZE s);
  a ← VAddr.add tgt (page_start self) m;
  contains a.

Definition steps_between (start end_ : Page s) : outcome (Z * option Z) :=
  match checked_sub (page_start end_) (page_start start) with
  | None => mret (0, None)
  | Some address_difference =>
      r ← urem address_difference (SIZE s);
      rassert (r =? 0) ;;
      q ← udiv address_difference (SIZE s);
      mret (q, Some q)
  end.

Definition forward_checked (tgt : target) (start : Page s) (count : Z) : option (Page s) :=
  m ← checked_mul (SIZE s) count;
  a ← VAddr.checked_add tgt (page_start start) m;
  Some (mkPage a).

Definition backward_checked (tgt : target) (start : Page s) (count : Z) : option (Page s) :=
  m ← checked_mul (SIZE s) count;
  a ← VAddr.checked_sub tgt (page_start start) m;
  Some (mkPage a).

End with_size.
End Page.

(** [Iterator::next] of [Range<Frame<S>>] and [Range<Page<S>>]: the standard
    library's implementation over [Step]. The result is the item and the
    advanced start, or [None] at the end of the range. *)
Definition frame_range_next {s} (tgt : target) (start end_ : Frame s) :
    outcome (option (Frame s * Frame s)) :=
  if frame_start start <? frame_start end_ then
    n ← unwrap (Frame.forward_checked tgt start 1); mret (Some (start, n))
  else mret None.

Definition page_range_next {s} (tgt : target) (start end_ : Page s) :
    outcome (option (Page s * Page s)) :=
  if page_start start <? page_start end_ then
    n ← unwrap (Page.forward_checked tgt start 1); mret (Some (start, n))
  else mret None.

(** ** Flags *)

Record Flags := mkFlags {
  writable : bool;
  executable : bool;
  user_accessible : bool;
  cached : bool;
}.

#[global] Instance Flags_eq_dec : EqDecision Flags.
Proof. solve_decision. Defined.

Definition Flags_default : Flags := mkFlags false false false true.

Definition Flags_add (self other : Flags) : Flags :=
  {| writable := writable self || writable other;
     executable := executable self || executable other;
     user_accessible := user_accessible self || user_accessible other;
     cached := cached self && cached other |}.

Inductive PagingError := AlreadyMapped.

(** ** Lemmas *)

Lemma paddr_new_Some tgt a p :
  is_usize a -> PAddr.new tgt a = Some p <-> paddr_valid tgt a /\ p = a.
Proof.
  intros Ha. unfold PAddr.new, paddr_valid, paddr_limit, PAddr.MAX_PHYSICAL_ADDRESS, is_unsigned in *.
  destruct tgt; try naive_solver.
  destruct (Z.leb_spec 0 a), (Z.leb_spec a (2 ^ 52 - 1)); simpl; naive_solver lia.
Qed.

Lemma paddr_new_valid tgt a : paddr_valid tgt a -> PAddr.new tgt a = Some a.
Proof.
  intros Ha. apply paddr_new_Some; [|done].
  unfold paddr_valid, paddr_limit, is_unsigned in *. destruct tgt; lia.
Qed.

Lemma paddr_valid_usize tgt a : paddr_valid tgt a -> is_usize a.
Proof. unfold paddr_valid, paddr_limit, is_unsigned. destruct tgt; lia. Qed.

Lemma paddr_add_in tgt a n :
  0 <= n -> 0 <= a -> paddr_valid tgt (a + n) -> PAddr.add tgt a n = Val (a + n).
Proof.
  intros. unfold PAddr.add. rewrite wadd_in by (by eapply paddr_valid_usize).
  simpl. by rewrite paddr_new_valid.
Qed.

(** Canonicalisation keeps the significant bits and sign-extends the top one. *)
Definition sign_extend (b x : Z) : Z :=
  if x mod 2 ^ b <? 2 ^ (b - 1) then x mod 2 ^ b else x mod 2 ^ b + (2 ^ 64 - 2 ^ b).

Lemma canonicalise_aux b x :
  0 < b <= 64 ->
  Z.lor ((2 ^ 64 - 2 ^ b) * Z.land (x ≫ (b - 1)) 1) (Z.land x (2 ^ b - 1)) = sign_extend b x.
Proof.
  intros Hb. unfold sign_extend. rewrite land_low by lia.
  rewrite land_1, Z.shiftr_div_pow2 by lia.
  pose proof (pow2_pos (b - 1) ltac:(lia)) as Hp.
  assert (2 ^ b = 2 * 2 ^ (b - 1)) as Eb.
  { rewrite <- Z.pow_succ_r by lia. f_equal; lia. }
  assert (x mod 2 ^ b = x mod 2 ^ (b - 1) + 2 ^ (b - 1) * ((x / 2 ^ (b - 1)) mod 2)) as Em.
  { rewrite Eb, Z.mul_comm, Z.rem_mul_r by lia. done. }
  pose proof (Z.mod_pos_bound x (2 ^ (b - 1)) Hp).
  pose proof (Z.mod_pos_bound (x / 2 ^ (b - 1)) 2 ltac:(lia)).
  pose proof (Z.mod_pos_bound x (2 ^ b) ltac:(lia)).
  assert ((x / 2 ^ (b - 1)) mod 2 = 0 \/ (x / 2 ^ (b - 1)) mod 2 = 1) as [E|E] by lia;
    rewrite E in *.
  - rewrite Z.mul_0_r. destruct (Z.ltb_spec (x mod 2 ^ b) (2 ^ (b - 1))); [|lia].
    by rewrite Z.lor_0_l.
  - rewrite Z.mul_1_r. destruct (Z.ltb_spec (x mod 2 ^ b) (2 ^ (b - 1))); [lia|].
    replace (2 ^ 64 - 2 ^ b) with ((2 ^ (64 - b) - 1) * 2 ^ b).
    2:{ rewrite Z.mul_sub_distr_r, <- Z.pow_add_r by lia. f_equal; [f_equal|]; lia. }
    rewrite lor_shifted by lia. lia.
Qed.

Lemma canonicalise_sign_extend tgt x :
  tgt <> OtherTarget -> VAddr.canonicalise tgt x = sign_extend (va_bits tgt) x.
Proof.
  intros Ht. destruct tgt; [| | |done]; simpl.
  - apply (canonicalise_aux 48); lia.
  - apply (canonicalise_aux 48); lia.
  - apply (canonicalise_aux 39); lia.
Qed.

Lemma sign_extend_canonical b x :
  0 < b < 64 ->
  0 <= sign_extend b x < 2 ^ (b - 1) \/ 2 ^ 64 - 2 ^ (b - 1) <= sign_extend b x < 2 ^ 64.
Proof.
  intros Hb. unfold sign_extend. pose proof (pow2_pos (b - 1) ltac:(lia)).
  assert (2 ^ b = 2 * 2 ^ (b - 1)) by (rewrite <- Z.pow_succ_r by lia; f_equal; lia).
  assert (2 ^ b <= 2 ^ 64) by (apply Z.pow_le_mono_r; lia).
  pose proof (Z.mod_pos_bound x (2 ^ b) ltac:(lia)).
  destruct (Z.ltb_spec (x mod 2 ^ b) (2 ^ (b - 1))); lia.
Qed.

Lemma canonicalise_canonical tgt x :
  is_usize x -> vaddr_canonical tgt (VAddr.canonicalise tgt x).
Proof.
  intros Hx. destruct tgt; [| | |done];
    rewrite canonicalise_sign_extend by done; by apply (sign_extend_canonical).
Qed.

Lemma sign_extend_id b x :
  0 < b < 64 -> 0 <= x < 2 ^ (b - 1) \/ 2 ^ 64 - 2 ^ (b - 1) <= x < 2 ^ 64 ->
  sign_extend b x = x.
Proof.
  intros Hb Hx. unfold sign_extend. pose proof (pow2_pos (b - 1) ltac:(lia)).
  assert (2 ^ b = 2 * 2 ^ (b - 1)) as E by (rewrite <- Z.pow_succ_r by lia; f_equal; lia).
  destruct Hx as [Hx|Hx].
  - rewrite Z.mod_small by lia. destruct (Z.ltb_spec x (2 ^ (b - 1))); lia.
  - assert (x mod 2 ^ b = x - (2 ^ 64 - 2 ^ b)) as ->.
    { symmetry. apply (Z.mod_unique _ _ (2 ^ (64 - b) - 1)); [lia|].
      rewrite Z.mul_sub_distr_l, <- Z.pow_add_r by lia.
      replace (b + (64 - b)) with 64 by lia. lia. }
    destruct (Z.ltb_spec (x - (2 ^ 64 - 2 ^ b)) (2 ^ (b - 1))); lia.
Qed.

Lemma canonicalise_id tgt x : vaddr_canonical tgt x -> VAddr.canonicalise tgt x = x.
Proof.
  intros Hx. destruct tgt; [| | |done];
    rewrite canonicalise_sign_extend by done; by apply sign_extend_id.
Qed.

Lemma vaddr_canonical_usize tgt v : vaddr_canonical tgt v -> is_usize v.
Proof. unfold vaddr_canonical, va_bits, is_unsigned. destruct tgt; lia. Qed.

Lemma vaddr_add_in tgt v n :
  vaddr_canonical tgt (v + n) -> VAddr.add tgt v n = Val (v + n).
Proof.
  intros Hc. unfold VAddr.add. rewrite wadd_in by (by eapply vaddr_canonical_usize).
  simpl. unfold VAddr.new. by rewrite canonicalise_id.
Qed.

Lemma paddr_align_down_pow2 x k :
  is_usize x -> 0 <= k <= 64 -> PAddr.align_down x (2 ^ k) = Val (x - x mod 2 ^ k).
Proof.
  intros. unfold PAddr.align_down. rewrite is_power_of_two_pow2 by lia.
  simpl. by rewrite land_unot_ones.
Qed.

Lemma vaddr_align_down_pow2 x k :
  is_usize x -> 0 <= k <= 64 -> VAddr.align_down x (2 ^ k) = Val (x - x mod 2 ^ k).
Proof. apply paddr_align_down_pow2. Qed.

Lemma vaddr_align_up_pow2 x k :
  is_usize x -> 0 <= k <= 64 -> x + 2 ^ k < 2 ^ 64 ->
  VAddr.align_up x (2 ^ k) = Val ((x + 2 ^ k - 1) - (x + 2 ^ k - 1) mod 2 ^ k).
Proof.
  intros [??] ??. pose proof (pow2_pos k ltac:(lia)). unfold VAddr.align_up.
  rewrite wadd_in by (unfold is_unsigned; lia). simpl.
  rewrite wsub_in by (unfold is_unsigned; lia). simpl.
  apply vaddr_align_down_pow2; unfold is_unsigned; lia.
Qed.

Lemma urem_size x s : urem x (SIZE s) = Val (x mod SIZE s).
Proof. by destruct s. Qed.

Lemma udiv_size x s : udiv x (SIZE s) = Val (x / SIZE s).
Proof. by destruct s. Qed.

Lemma is_aligned_Val x s : PAddr.is_aligned x (SIZE s) = Val (x mod SIZE s =? 0).
Proof.
  unfold PAddr.is_aligned, urem. pose proof (SIZE_pos s).
  by destruct (Z.eqb_spec (SIZE s) 0); [lia|].
Qed.

Lemma vis_aligned_Val x s : VAddr.is_aligned x (SIZE s) = Val (x mod SIZE s =? 0).
Proof. apply is_aligned_Val. Qed.

Lemma frame_starts_with_in s a :
  a mod SIZE s = 0 -> (Frame.starts_with a : outcome (Frame s)) = Val (mkFrame a).
Proof. intros E. unfold Frame.starts_with. rewrite is_aligned_Val, E. done. Qed.

Lemma page_starts_with_in s a :
  a mod SIZE s = 0 -> (Page.starts_with a : outcome (Page s)) = Val (mkPage a).
Proof.
  intros E. unfold Page.starts_with, urem. pose proof (SIZE_pos s).
  destruct (Z.eqb_spec (SIZE s) 0); [lia|]. simpl. by rewrite E.
Qed.

Lemma frame_forward_in s tgt (f : Frame s) n :
  0 <= n -> 0 <= frame_start f -> paddr_valid tgt (frame_start f + SIZE s * n) ->
  Frame.forward_checked tgt f n = Some (mkFrame (frame_start f + SIZE s * n)).
Proof.
  intros Hn Hf Hv. pose proof (paddr_valid_usize _ _ Hv) as [??].
  pose proof (SIZE_pos s).
  unfold Frame.forward_checked, checked_mul, PAddr.checked_add, checked_add.
  rewrite checked_in by (unfold is_unsigned; nia). simpl.
  rewrite checked_in by done. simpl. by rewrite paddr_new_valid.
Qed.

Lemma page_forward_in s tgt (p : Page s) n :
  0 <= n -> 0 <= page_start p -> vaddr_canonical tgt (page_start p + SIZE s * n) ->
  Page.forward_checked tgt p n = Some (mkPage (page_start p + SIZE s * n)).
Proof.
  intros Hn Hf Hv. pose proof (vaddr_canonical_usize _ _ Hv) as [??].
  pose proof (SIZE_pos s).
  unfold Page.forward_checked, checked_mul, VAddr.checked_add, checked_add.
  rewrite checked_in by (unfold is_unsigned; nia). simpl.
  rewrite checked_in by done. simpl. unfold VAddr.new. by rewrite canonicalise_id.
Qed.

Lemma frame_starts_with_Val s a (f : Frame s) :
  Frame.starts_with a = Val f <-> f = mkFrame a /\ (SIZE s | a).
Proof.
  pose proof (SIZE_pos s). unfold Frame.starts_with. rewrite is_aligned_Val. simpl.
  rewrite <- Z.mod_divide by lia.
  destruct (Z.eqb_spec (a mod SIZE s) 0) as [E|E]; simpl; split.
  - by intros [= <-].
  - by intros [-> _].
  - done.
  - by intros [_ ?].
Qed.

Lemma frame_add_Val s tgt (f e : Frame s) n :
  Frame.add tgt f n = Val e ->
  frame_start e = frame_start f + n * SIZE s /\ paddr_valid tgt (frame_start e).
Proof.
  intros He. unfold Frame.add, PAddr.add in He. outcome_inv.
  match goal with H : PAddr.new _ _ = Some _ |- _ =>
    apply paddr_new_Some in H as [? ->]; [|done] end. by subst e.
Qed.

(** [outcome_inv] extended with the constructors of this file. *)
Ltac memory_inv :=
  outcome_inv; simplify_eq/=;
  repeat match goal with
  | H : PAddr.new _ _ = Some _ |- _ => apply paddr_new_Some in H as [H ->]; [|assumption]
  | H : Frame.starts_with _ = Val _ |- _ => apply frame_starts_with_Val in H as [-> H]
  | H : Frame.add _ _ _ = Val _ |- _ =>
      let E := fresh "Eadd" in apply frame_add_Val in H as [E H]
  end; simpl in *.
