(* ===== verification/FrameAllocator.v ===== *)
(** * The [FrameAllocator] trait of [lib/hal/src/memory/mod.rs]

    The interface between whoever hands out physical frames (the physical
    memory manager, the early boot allocator) and its clients (the page
    tables).  [FrameAllocator] has the trait's methods; [FrameAllocatorSpec]
    is what an implementation promises: the frames it returns were its own,
    are aligned and valid, and are no longer its own afterwards. *)

From stdpp Require Import base tactics option list numbers.
From S2P Require Import Prelude Memory.

(** [allocate_n] returns the range of frames and the allocator's new state. *)
Class FrameAllocator (A : Type) := {
  allocate_n : forall s : FrameSize, A -> Z -> outcome (Frame s * Frame s * A);
  free_n : forall s : FrameSize, A -> Frame s -> Z -> outcome A;
}.

(** The provided method [allocate]: [self.allocate_n(1).start]. *)
Definition allocate {A} `{FrameAllocator A} (s : FrameSize) (a : A) : outcome (Frame s * A) :=
  '(start, _, a') ← allocate_n s a 1; mret (start, a').

Class FrameAllocatorSpec (tgt : target) (A : Type) `{FrameAllocator A} := {
  fa_inv : A -> Prop;
  (** The byte address belongs to the allocator's free memory. *)
  fa_owns : A -> Z -> Prop;
  fa_allocate : forall a f e a',
    fa_inv a -> allocate_n Size4KiB a 1 = Val (f, e, a') ->
    fa_inv a' /\ (4096 | frame_start f) /\
    0 <= frame_start f /\ frame_start f + 4096 <= paddr_limit tgt /\
    (forall x, frame_start f <= x < frame_start f + 4096 -> fa_owns a x /\ ~ fa_owns a' x) /\
    (forall x, fa_owns a' x -> fa_owns a x);
}.

(** ** Exhaustion

    [allocate] has no error result: an allocator with nothing left panics.
    [supplies n a]: [n] frames can be allocated from [a], one after another. *)

Section supplies.
Context {A : Type} `{FrameAllocator A}.

Fixpoint supplies (n : nat) (a : A) : Prop :=
  match n with
  | O => True
  | S n => match allocate Size4KiB a with Val (_, a') => supplies n a' | Panic => False end
  end.

(** At most [k] frames were taken between [a] and [a']. *)
Definition spends (k : nat) (a a' : A) : Prop := forall n, supplies (k + n) a -> supplies n a'.

Lemma supplies_le n : forall a m, (m <= n)%nat -> supplies n a -> supplies m a.
Proof.
  induction n as [|n IH]; intros a [|m] Hm Hs; try done; [lia|].
  simpl in *. destruct (allocate _ a) as [[f a']|]; [|done]. apply IH; [lia|done].
Qed.

Lemma spends_refl k a : spends k a a.
Proof. intros n. apply supplies_le. lia. Qed.

Lemma spends_trans j k a b c : spends j a b -> spends k b c -> spends (j + k) a c.
Proof. intros H1 H2 n Hn. apply H2, H1. by rewrite Nat.add_assoc. Qed.

Lemma spends_le j k a b : (j <= k)%nat -> spends j a b -> spends k a b.
Proof. intros Hle Hs n Hn. apply Hs. eapply supplies_le; [|exact Hn]. lia. Qed.

Lemma spends_supplies j n a b : spends j a b -> supplies (j + n) a -> supplies n b.
Proof. auto. Qed.

Lemma allocate_spends a f a' : allocate Size4KiB a = Val (f, a') -> spends 1 a a'.
Proof. intros Ha n. change (1 + n)%nat with (S n). cbn [supplies]. by rewrite Ha. Qed.

Lemma allocate_exhausted a : allocate Size4KiB a = Panic -> ~ supplies 1 a.
Proof. intros Ha Hs. cbn [supplies] in Hs. by rewrite Ha in Hs. Qed.

End supplies.

(** [FakeFrameAllocator]: every method is [unimplemented!()]. *)
Inductive FakeFrameAllocator := Fake.

#[global] Instance fake_allocator : FrameAllocator FakeFrameAllocator := {
  allocate_n := fun _ _ _ => Panic;
  free_n := fun _ _ _ _ => Panic;
}.

#[global] Program Instance fake_allocator_spec tgt :
    FrameAllocatorSpec tgt FakeFrameAllocator := {
  fa_inv := fun _ => True;
  fa_owns := fun _ _ => False;
}.
Next Obligation. done. Qed.

Lemma allocate_Val {A} `{FrameAllocatorSpec tgt A} a f a' :
  fa_inv a -> allocate Size4KiB a = Val (f, a') ->
  fa_inv a' /\ (4096 | frame_start f) /\
  0 <= frame_start f /\ frame_start f + 4096 <= paddr_limit tgt /\
  (forall x, frame_start f <= x < frame_start f + 4096 -> fa_owns a x /\ ~ fa_owns a' x) /\
  (forall x, fa_owns a' x -> fa_owns a x).
Proof.
  intros Hi Ha. unfold allocate in Ha. outcome_inv. destruct a0 as [[f0 e] a0].
  outcome_inv. simplify_eq. by eapply fa_allocate.
Qed.
