(* ===== verification/Buddy.v ===== *)
(** * [kernel/src/pmm/buddy.rs]: the buddy allocator of physical memory

    The allocator's state is its thirteen bins; bin [i] holds the start
    addresses of the free blocks of [2^i] base frames.  A [BTreeSet<PAddr>] is a
    finite set of addresses whose iteration starts at the least element.

    The invariant [wf] says that the blocks are aligned, inside the physical
    address space, pairwise disjoint and fully coalesced; the abstraction
    [is_free] is the set of free byte addresses.  The theorems give every
    operation's effect on that set. *)

From stdpp Require Import base tactics option list numbers gmap sets.
From S2P Require Import Prelude Memory.

Definition MAX_ORDER : nat := 12.
Definition NUM_BINS : nat := MAX_ORDER + 1.
Definition BASE_SIZE : Z := SIZE Size4KiB.

Record BuddyAllocator := mkBuddy { bins : list (gset Z) }.

(** [BTreeSet::iter().next()]: the least element. *)
Definition btree_first (s : gset Z) : option Z :=
  match elements s with
  | [] => None
  | x :: l => Some (foldr Z.min x l)
  end.

(** [self.bins[i]] panics out of bounds. *)
Definition bin_get (b : BuddyAllocator) (i : nat) : outcome (gset Z) := unwrap (bins b !! i).
Definition bin_set (b : BuddyAllocator) (i : nat) (s : gset Z) : BuddyAllocator :=
  mkBuddy (<[i := s]> (bins b)).

Definition new : BuddyAllocator := mkBuddy (replicate NUM_BINS ∅).

(** [(1 << order) * BASE_SIZE]. *)
Definition block_bytes (order : nat) : Z := (1 ≪ Z.of_nat order) * BASE_SIZE.

Definition buddy_of (tgt : target) (block_start : Z) (order : nat) : outcome Z :=
  unwrap (PAddr.new tgt (Z.lxor block_start (block_bytes order))).

(** The recursion climbs one order per call, so [S MAX_ORDER] calls suffice
    from any order that has a bin; running out of fuel is a panic, hence every
    total-correctness theorem below also shows termination. *)
Fixpoint free_block_fuel (fuel : nat) (tgt : target) (b : BuddyAllocator)
    (start : Z) (order : nat) : outcome BuddyAllocator :=
  match fuel with
  | O => Panic
  | S fuel =>
      if Nat.eqb order MAX_ORDER then
        bin ← bin_get b order;
        rassert (negb (bool_decide (start ∈ bin))) ;;
        mret (bin_set b order ({[start]} ∪ bin))
      else
        buddy ← buddy_of tgt start order;
        bin ← bin_get b order;
        if bool_decide (buddy ∈ bin) then
          free_block_fuel fuel tgt (bin_set b order (bin ∖ {[buddy]}))
            (Z.min start buddy) (S order)
        else
          rassert (negb (bool_decide (start ∈ bin))) ;;
          mret (bin_set b order ({[start]} ∪ bin))
  end.

Definition free_block (tgt : target) (b : BuddyAllocator) (start : Z) (order : nat) :
    outcome BuddyAllocator :=
  free_block_fuel (S MAX_ORDER) tgt b start order.

Fixpoint allocate_block_fuel (fuel : nat) (tgt : target) (b : BuddyAllocator)
    (order : nat) : outcome (option Z * BuddyAllocator) :=
  match fuel with
  | O => Panic
  | S fuel =>
      if Nat.ltb MAX_ORDER order then mret (None, b)
      else
        bin ← bin_get b order;
        match btree_first bin with
        | Some block => mret (Some block, bin_set b order (bin ∖ {[block]}))
        | None =>
            '(r, b') ← allocate_block_fuel fuel tgt b (S order);
            match r with
            | Some block =>
                second_half ← buddy_of tgt block order;
                b'' ← free_block tgt b' second_half order;
                mret (Some block, b'')
            | None => mret (None, b')
            end
        end
  end.

Definition allocate_block (tgt : target) (b : BuddyAllocator) (order : nat) :
    outcome (option Z * BuddyAllocator) :=
  allocate_block_fuel (S NUM_BINS) tgt b order.

Definition alloc (tgt : target) (b : BuddyAllocator) (count : Z) :
    outcome (option Z * BuddyAllocator) :=
  count ← next_power_of_two count;
  let order := Z.to_nat (trailing_zeros 64 count) in
  allocate_block tgt b order.

Definition free (tgt : target) (b : BuddyAllocator) (base count : Z) : outcome BuddyAllocator :=
  rassert (is_power_of_two count) ;;
  let order := Z.to_nat (trailing_zeros 64 count) in
  free_block tgt b base order.

(** [for frame in range { self.free_block(frame.start, 0) }]. *)
Fixpoint free_range_loop (fuel : nat) (tgt : target) (b : BuddyAllocator)
    (cur end_ : Frame Size4KiB) : outcome BuddyAllocator :=
  match fuel with
  | O => Panic
  | S fuel =>
      item ← frame_range_next tgt cur end_;
      match item with
      | None => mret b
      | Some (frame, next) =>
          b' ← free_block tgt b (frame_start frame) 0;
          free_range_loop fuel tgt b' next end_
      end
  end.

(** One step per frame of the range and one to see its end. *)
Definition free_range (tgt : target) (b : BuddyAllocator) (first last : Frame Size4KiB) :
    outcome BuddyAllocator :=
  free_range_loop (S (Z.to_nat ((frame_start last - frame_start first) / BASE_SIZE)))
    tgt b first last.

Fixpoint available_bytes_loop (b : BuddyAllocator) (idx : list nat) (bytes : Z) : outcome Z :=
  match idx with
  | [] => mret bytes
  | i :: idx =>
      bin ← bin_get b i;
      sz ← umul (1 ≪ Z.of_nat i) BASE_SIZE;
      t ← umul (Z.of_nat (size bin)) sz;
      bytes' ← uadd bytes t;
      available_bytes_loop b idx bytes'
  end.

Definition available_bytes (b : BuddyAllocator) : outcome Z :=
  available_bytes_loop b (seq 0 NUM_BINS) 0.

(** ** Specification vocabulary *)

Definition block_in (b : BuddyAllocator) (k : nat) (s : Z) : Prop :=
  exists B, bins b !! k = Some B /\ s ∈ B.

Definition covers (s : Z) (k : nat) (a : Z) : Prop := s <= a < s + block_bytes k.

Definition is_free (b : BuddyAllocator) (a : Z) : Prop :=
  exists k s, block_in b k s /\ covers s k a.

(** A block the allocator may hold: aligned to its size, inside the address space. *)
Definition block_ok (tgt : target) (k : nat) (s : Z) : Prop :=
  (block_bytes k | s) /\ 0 <= s /\ s + block_bytes k <= paddr_limit tgt.

Definition buddy (s : Z) (k : nat) : Z := Z.lxor s (block_bytes k).

Record wf (tgt : target) (b : BuddyAllocator) : Prop := {
  wf_len : length (bins b) = NUM_BINS;
  wf_blocks : forall k s, block_in b k s -> block_ok tgt k s;
  wf_disjoint : forall k1 s1 k2 s2 a,
    block_in b k1 s1 -> block_in b k2 s2 -> covers s1 k1 a -> covers s2 k2 a ->
    k1 = k2 /\ s1 = s2;
  wf_coalesced : forall k s, (k < MAX_ORDER)%nat -> block_in b k s ->
    ~ block_in b k (buddy s k);
}.

(** ** Block arithmetic *)

Lemma block_bytes_pow2 k : block_bytes k = 2 ^ (Z.of_nat k + 12).
Proof.
  unfold block_bytes, BASE_SIZE. rewrite Z.shiftl_mul_pow2, Z.pow_add_r by lia. simpl; lia.
Qed.

Lemma block_bytes_pos k : 0 < block_bytes k.
Proof. rewrite block_bytes_pow2. apply pow2_pos. lia. Qed.

Lemma block_bytes_S k : block_bytes (S k) = 2 * block_bytes k.
Proof.
  rewrite !block_bytes_pow2, <- Z.pow_succ_r by lia. f_equal. lia.
Qed.

Lemma block_bytes_divide j k : (j <= k)%nat -> (block_bytes j | block_bytes k).
Proof. intros. rewrite !block_bytes_pow2. apply pow2_divide. lia. Qed.

Lemma block_bytes_limit tgt k : (k <= MAX_ORDER)%nat -> (block_bytes k | paddr_limit tgt).
Proof.
  intros. rewrite block_bytes_pow2. unfold paddr_limit, MAX_ORDER in *.
  destruct tgt; apply pow2_divide; lia.
Qed.

#[export] Hint Resolve block_bytes_pos : poplar.

(** The buddy of the [q]-th block of its size is the other block of its pair. *)
Lemma buddy_mul q k :
  buddy (q * block_bytes k) k = Z.lxor q 1 * block_bytes k.
Proof.
  unfold buddy. rewrite block_bytes_pow2.
  rewrite <- (Z.mul_1_l (2 ^ _)) at 2.
  rewrite <- !Z.shiftl_mul_pow2, <- Z.shiftl_lxor by lia. done.
Qed.

Lemma lxor_1 q : Z.lxor q 1 = q + 1 - 2 * (q mod 2).
Proof.
  destruct (Z.eq_dec (q mod 2) 0) as [E|E].
  - assert (Z.land q 1 = 0) as Hl by (by rewrite land_1).
    rewrite <- Z.add_nocarry_lxor by done. lia.
  - assert (q mod 2 = 1) as E1 by (pose proof (Z.mod_pos_bound q 2); lia).
    rewrite E1. assert (Z.land (q - 1) 1 = 0) as Hl.
    { rewrite land_1, Zminus_mod, E1. done. }
    replace q with (Z.lxor (q - 1) 1) at 1.
    + rewrite Z.lxor_assoc, Z.lxor_nilpotent, Z.lxor_0_r. lia.
    + rewrite <- Z.add_nocarry_lxor by done. lia.
Qed.

Lemma buddy_cases s k :
  (block_bytes k | s) ->
  ((block_bytes (S k) | s) /\ buddy s k = s + block_bytes k) \/
  ((block_bytes (S k) | s - block_bytes k) /\ buddy s k = s - block_bytes k).
Proof.
  intros [q ->]. rewrite buddy_mul, lxor_1, block_bytes_S.
  pose proof (Z.mod_pos_bound q 2 ltac:(lia)). pose proof (Z.div_mod q 2 ltac:(lia)).
  assert (q mod 2 = 0 \/ q mod 2 = 1) as [E|E] by lia; rewrite E in *.
  - left. split; [exists (q / 2); nia|]. lia.
  - right. split; [exists (q / 2); nia|]. lia.
Qed.

Lemma buddy_involutive s k : buddy (buddy s k) k = s.
Proof. unfold buddy. by rewrite Z.lxor_assoc, Z.lxor_nilpotent, Z.lxor_0_r. Qed.

(** Aligned blocks are nested or disjoint. *)
Lemma covers_nested s k t j a :
  (block_bytes k | s) -> (block_bytes j | t) -> (k <= j)%nat ->
  covers s k a -> covers t j a -> t <= s /\ s + block_bytes k <= t + block_bytes j.
Proof.
  intros [q ->] [r ->] Hkj. unfold covers.
  destruct (block_bytes_divide k j Hkj) as [m Hm].
  pose proof (block_bytes_pos k). pose proof (block_bytes_pos j). rewrite Hm in *.
  assert (0 < m) by nia. intros Ha Hb.
  assert (q < (r + 1) * m) by nia. assert (r * m < q + 1) by nia. nia.
Qed.

Lemma covers_eq s t k a :
  (block_bytes k | s) -> (block_bytes k | t) -> covers s k a -> covers t k a -> s = t.
Proof.
  intros Hs Ht H1 H2.
  destruct (covers_nested s k t k a), (covers_nested t k s k a); auto; lia.
Qed.

(** A block and its buddy make up the block of the next order at the lower of the two. *)
Lemma buddy_merge s k a :
  (block_bytes k | s) ->
  covers (Z.min s (buddy s k)) (S k) a <-> covers s k a \/ covers (buddy s k) k a.
Proof.
  intros Hs. unfold covers. rewrite block_bytes_S. pose proof (block_bytes_pos k).
  destruct (buddy_cases s k Hs) as [[_ ->]|[_ ->]]; lia.
Qed.

Lemma block_ok_buddy tgt k s :
  (k < MAX_ORDER)%nat -> block_ok tgt k s ->
  block_ok tgt k (buddy s k) /\ block_ok tgt (S k) (Z.min s (buddy s k)).
Proof.
  intros Hk (Hd & H0 & Hl). unfold block_ok. rewrite block_bytes_S.
  pose proof (block_bytes_pos k) as Hp.
  destruct (block_bytes_limit tgt (S k)) as [m Hm]; [unfold MAX_ORDER in *; lia|].
  rewrite block_bytes_S in Hm.
  destruct (buddy_cases s k Hd) as [[Hd' ->]|[Hd' ->]];
    rewrite block_bytes_S in Hd'; destruct Hd as [q Hq], Hd' as [r Hr].
  - replace (Z.min s (s + block_bytes k)) with s by lia.
    assert (r < m) by nia.
    split_and!; try nia; [exists (q + 1); lia|exists r; lia].
  - replace (Z.min s (s - block_bytes k)) with (s - block_bytes k) by lia.
    assert (0 <= r) by nia.
    split_and!; try nia; [exists (q - 1); lia|exists r; lia].
Qed.

Lemma buddy_of_ok tgt k s :
  (k < MAX_ORDER)%nat -> block_ok tgt k s -> buddy_of tgt s k = Val (buddy s k).
Proof.
  intros Hk Hs. destruct (block_ok_buddy tgt k s Hk Hs) as [(?&?&?) _].
  pose proof (block_bytes_pos k).
  unfold buddy_of. rewrite paddr_new_valid; [done|].
  unfold paddr_valid. fold (buddy s k). lia.
Qed.

(** ** Inserting and removing a block *)

Section bin_updates.
Context (tgt : target).
Implicit Types (b : BuddyAllocator) (B : gset Z).

Lemma block_in_set b k B j s :
  (k < length (bins b))%nat ->
  block_in (bin_set b k B) j s <-> (j = k /\ s ∈ B) \/ (j <> k /\ block_in b j s).
Proof.
  intros Hk. unfold block_in, bin_set. simpl.
  destruct (decide (j = k)) as [->|Hne].
  - rewrite list_lookup_insert_eq by done. naive_solver.
  - rewrite list_lookup_insert_ne by done. naive_solver.
Qed.

Lemma bin_get_block b k B : bins b !! k = Some B -> forall s, s ∈ B <-> block_in b k s.
Proof. intros H s. unfold block_in. rewrite H. naive_solver. Qed.

Lemma bin_get_in b k :
  wf tgt b -> (k <= MAX_ORDER)%nat -> exists B, bins b !! k = Some B /\ bin_get b k = Val B.
Proof.
  intros Hw Hk. destruct (lookup_lt_is_Some_2 (bins b) k) as [B HB].
  { rewrite (wf_len _ _ Hw). unfold NUM_BINS. lia. }
  exists B. split; [done|]. unfold bin_get. by rewrite HB.
Qed.

Lemma remove_block_in b k B s j t :
  bins b !! k = Some B ->
  block_in (bin_set b k (B ∖ {[s]})) j t <-> block_in b j t /\ ~ (j = k /\ t = s).
Proof.
  intros HB. rewrite block_in_set by (by eapply lookup_lt_Some).
  rewrite elem_of_difference, elem_of_singleton, (bin_get_block _ _ _ HB).
  destruct (decide (j = k)) as [->|]; naive_solver.
Qed.

Lemma insert_block_in b k B s j t :
  bins b !! k = Some B ->
  block_in (bin_set b k ({[s]} ∪ B)) j t <-> block_in b j t \/ (j = k /\ t = s).
Proof.
  intros HB. rewrite block_in_set by (by eapply lookup_lt_Some).
  rewrite elem_of_union, elem_of_singleton, (bin_get_block _ _ _ HB).
  destruct (decide (j = k)) as [->|]; naive_solver.
Qed.

Lemma wf_remove b k B s :
  wf tgt b -> bins b !! k = Some B -> wf tgt (bin_set b k (B ∖ {[s]})).
Proof.
  intros Hw HB. split.
  - simpl. by rewrite length_insert, (wf_len _ _ Hw).
  - intros j t [Ht _]%remove_block_in; [|done]. by apply (wf_blocks _ _ Hw).
  - intros j1 t1 j2 t2 a [H1 _]%remove_block_in [H2 _]%remove_block_in; [|done..].
    by apply (wf_disjoint _ _ Hw).
  - intros j t Hj [H1 _]%remove_block_in [H2 _]%remove_block_in; [|done..].
    by apply (wf_coalesced _ _ Hw j t).
Qed.

Lemma is_free_remove b k B s a :
  wf tgt b -> bins b !! k = Some B -> s ∈ B ->
  is_free (bin_set b k (B ∖ {[s]})) a <-> is_free b a /\ ~ covers s k a.
Proof.
  intros Hw HB Hs. apply (bin_get_block _ _ _ HB) in Hs. unfold is_free. split.
  - intros (j & t & [Ht Hne]%remove_block_in & Hc); [|done].
    split; [eauto|]. intros Hc'.
    destruct (wf_disjoint _ _ Hw j t k s a); auto.
  - intros ((j & t & Ht & Hc) & Hn). exists j, t. split; [|done].
    apply remove_block_in; [done|]. split; [done|]. intros [-> ->]. done.
Qed.

Lemma wf_insert b k B s :
  wf tgt b -> bins b !! k = Some B -> block_ok tgt k s ->
  (forall a, covers s k a -> ~ is_free b a) ->
  ((k < MAX_ORDER)%nat -> ~ block_in b k (buddy s k)) ->
  wf tgt (bin_set b k ({[s]} ∪ B)).
Proof.
  intros Hw HB Hok Hfree Hbud. split.
  - simpl. by rewrite length_insert, (wf_len _ _ Hw).
  - intros j t [Ht|[-> ->]]%insert_block_in; [|done..]. by apply (wf_blocks _ _ Hw).
  - intros j1 t1 j2 t2 a H1 H2 Hc1 Hc2.
    apply insert_block_in in H1, H2; [|done..].
    destruct H1 as [H1|[-> ->]], H2 as [H2|[-> ->]]; [by eapply wf_disjoint| | |done].
    + destruct (Hfree a Hc2). exists j1, t1; auto.
    + destruct (Hfree a Hc1). exists j2, t2; auto.
  - intros j t Hj H1 H2. apply insert_block_in in H1, H2; [|done..].
    destruct H1 as [H1|[-> ->]], H2 as [H2|[Ej E]].
    + by apply (wf_coalesced _ _ Hw j t).
    + subst j. apply Hbud; [done|]. by rewrite <- E, buddy_involutive.
    + by apply Hbud.
    + pose proof (block_bytes_pos k). pose proof (buddy_cases s k (proj1 Hok)). lia.
Qed.

Lemma is_free_insert b k B s a :
  bins b !! k = Some B ->
  is_free (bin_set b k ({[s]} ∪ B)) a <-> is_free b a \/ covers s k a.
Proof.
  intros HB. unfold is_free. split.
  - intros (j & t & [Ht|[-> ->]]%insert_block_in & Hc); [left; eauto|by right|done].
  - intros [(j & t & Ht & Hc)|Hc].
    + exists j, t. split; [|done]. apply insert_block_in; auto.
    + exists k, s. split; [|done]. apply insert_block_in; auto.
Qed.

End bin_updates.

(** ** Freeing *)

(** Freeing a block that is not free adds exactly its bytes, whatever
    coalescing happens on the way up. *)
Lemma free_block_fuel_spec tgt fuel : forall b s k,
  wf tgt b -> block_ok tgt k s -> (k <= MAX_ORDER)%nat -> (MAX_ORDER < fuel + k)%nat ->
  (forall a, covers s k a -> ~ is_free b a) ->
  free_block_fuel fuel tgt b s k ⇓ fun b' =>
    wf tgt b' /\ forall a, is_free b' a <-> is_free b a \/ covers s k a.
Proof.
  induction fuel as [|fuel IH]; intros b s k Hw Hok Hk Hf Hfree; [lia|].
  simpl. destruct (bin_get_in tgt b k Hw Hk) as (B & HB & ->). simpl.
  assert (s ∉ B) as Hni.
  { rewrite (bin_get_block _ _ _ HB). intros Hin.
    apply (Hfree s); [|exists k, s; split; [done|]];
      unfold covers; pose proof (block_bytes_pos k); lia. }
  rewrite (bool_decide_eq_false_2 _ Hni). simpl.
  destruct (Nat.eqb_spec k MAX_ORDER) as [->|Hne].
  { split; [|intros a; by apply is_free_insert].
    apply wf_insert; auto. lia. }
  assert (k < MAX_ORDER)%nat as Hlt by lia.
  rewrite buddy_of_ok by done. simpl.
  case_bool_decide as Hb.
  - destruct (block_ok_buddy tgt k s Hlt Hok) as [_ Hok'].
    eapply returns_weaken.
    + apply IH; [by apply wf_remove|done|lia|lia|].
      intros a Ha. rewrite is_free_remove by done.
      apply buddy_merge in Ha as [Ha|Ha]; [|tauto|apply Hok].
      specialize (Hfree a Ha). tauto.
    + intros b' [Hw' Hfr]. split; [done|]. intros a.
      rewrite Hfr, is_free_remove, buddy_merge by (done || apply Hok).
      assert (covers (buddy s k) k a -> is_free b a).
      { intros Hc. exists k, (buddy s k). split; [|done]. by eapply bin_get_block. }
      unfold covers in *.
      destruct (decide (buddy s k <= a < buddy s k + block_bytes k)); tauto.
  - split; [|intros a; by apply is_free_insert].
    apply wf_insert; auto. intros _. by rewrite <- (bin_get_block _ _ _ HB).
Qed.

Lemma free_block_spec tgt b s k :
  wf tgt b -> block_ok tgt k s -> (k <= MAX_ORDER)%nat ->
  (forall a, covers s k a -> ~ is_free b a) ->
  free_block tgt b s k ⇓ fun b' =>
    wf tgt b' /\ forall a, is_free b' a <-> is_free b a \/ covers s k a.
Proof. intros. apply free_block_fuel_spec; auto. lia. Qed.

(** ** Allocating *)

Lemma foldr_min_spec x (l : list Z) :
  let m := foldr Z.min x l in m ∈ x :: l /\ forall y, y ∈ x :: l -> m <= y.
Proof.
  induction l as [|z l [IHin IHle]]; simpl.
  - split; [set_solver|]. intros y. rewrite list_elem_of_singleton. lia.
  - split.
    + destruct (Z.min_spec z (foldr Z.min x l)) as [[_ ->]|[_ ->]]; set_solver.
    + intros y Hy. assert (y = z \/ y ∈ x :: l) as [->|Hy'] by set_solver; [lia|].
      specialize (IHle y Hy'). lia.
Qed.

Lemma btree_first_Some s x : btree_first s = Some x -> x ∈ s /\ forall y, y ∈ s -> x <= y.
Proof.
  unfold btree_first. destruct (elements s) as [|z l] eqn:E; [done|]. intros [= <-].
  destruct (foldr_min_spec z l) as [Hin Hle]. rewrite <- E in Hin, Hle.
  setoid_rewrite elem_of_elements in Hle. by rewrite elem_of_elements in Hin.
Qed.

Lemma btree_first_None s : btree_first s = None -> s = ∅.
Proof.
  unfold btree_first. destruct (elements s) eqn:E; [|done]. intros _.
  by apply leibniz_equiv, elements_empty_inv.
Qed.

(** The block an allocation of order [k] comes from: the lowest block of the
    smallest order, from [k] up, that has any. *)
Definition first_fit (b : BuddyAllocator) (k : nat) (t : Z) : Prop :=
  exists j, (k <= j)%nat /\ block_in b j t /\ (forall s, block_in b j s -> t <= s) /\
    forall i s, (k <= i < j)%nat -> ~ block_in b i s.

Definition allocate_post (tgt : target) (b : BuddyAllocator) (k : nat)
    (res : option Z * BuddyAllocator) : Prop :=
  match res with
  | (None, b') => b' = b /\ forall j s, (k <= j)%nat -> ~ block_in b j s
  | (Some t, b') =>
      block_ok tgt k t /\ first_fit b k t /\ wf tgt b' /\
      (forall a, covers t k a -> is_free b a) /\
      forall a, is_free b' a <-> is_free b a /\ ~ covers t k a
  end.

Lemma no_blocks_above tgt b k s : wf tgt b -> (MAX_ORDER < k)%nat -> ~ block_in b k s.
Proof.
  intros Hw Hk (B & HB & _). apply lookup_lt_Some in HB.
  rewrite (wf_len _ _ Hw) in HB. unfold NUM_BINS in HB. lia.
Qed.

(** Splitting an allocated block of order [S k]: its upper half is its buddy
    of order [k]. *)
Lemma buddy_split tgt k t :
  block_ok tgt (S k) t ->
  buddy t k = t + block_bytes k /\ block_ok tgt k t.
Proof.
  intros (Hd & H0 & Hl). pose proof (block_bytes_pos k) as Hp.
  rewrite block_bytes_S in Hd, Hl.
  assert ((block_bytes k | t)) as Hd1 by (etrans; [|exact Hd]; apply Z.divide_factor_r).
  split; [|unfold block_ok; split_and!; auto; lia].
  destruct (buddy_cases t k Hd1) as [[_ ->]|[Hd2 _]]; [done|].
  rewrite block_bytes_S in Hd2. destruct Hd as [q Hq], Hd2 as [r Hr].
  assert (block_bytes k * (2 * (q - r) - 1) = 0) as [?|?]%Z.mul_eq_0 by lia; lia.
Qed.

(** One level of splitting: a block of order [S k] taken from the allocator
    becomes a block of order [k], its upper half going back to bin [k]. *)
Lemma allocate_split tgt b k t b' :
  wf tgt b -> (forall s, ~ block_in b k s) ->
  allocate_post tgt b (S k) (Some t, b') ->
  (second_half ← buddy_of tgt t k;
   b'' ← free_block tgt b' second_half k;
   mret (Some t, b'')) ⇓ allocate_post tgt b k.
Proof.
  intros Hw Hempty (Hok & (j & Hkj & Hj & Hmin & Hlow) & Hw' & Hcov & Hfree).
  assert (k < MAX_ORDER)%nat as Hlt.
  { destruct (decide (j <= MAX_ORDER)%nat); [lia|].
    destruct (no_blocks_above tgt b j t Hw); auto. lia. }
  destruct (buddy_split tgt k t Hok) as [Ebud Hok1].
  rewrite buddy_of_ok by done. simpl.
  destruct (block_ok_buddy tgt k t Hlt Hok1) as [Hokb _].
  assert (Z.min t (buddy t k) = t) as Emin by (pose proof (block_bytes_pos k); lia).
  pose proof (fun a => buddy_merge t k a (proj1 Hok1)) as Hmerge.
  setoid_rewrite Emin in Hmerge.
  eapply returns_bind.
  { apply free_block_spec; [done|done|lia|]. intros a Ha [_ Hn]%Hfree. apply Hn, Hmerge. auto. }
  intros b'' [Hw'' Hfree'']. simpl.
  split; [done|]. split.
  { exists j. split; [lia|]. split; [done|]. split; [done|]. intros i s Hi.
    destruct (decide (i = k)) as [->|]; [apply Hempty|apply Hlow; lia]. }
  split; [done|]. split; [intros a Ha; apply Hcov, Hmerge; auto|].
  intros a. rewrite Hfree'', Hfree, Hmerge.
  assert (covers (buddy t k) k a -> is_free b a) as Hb by (intros Ha; apply Hcov, Hmerge; auto).
  rewrite Ebud in *. unfold covers in *.
  destruct (decide (t <= a < t + block_bytes k)); [lia|].
  destruct (decide (t + block_bytes k <= a < t + block_bytes k + block_bytes k)); tauto.
Qed.

Lemma allocate_block_fuel_spec tgt fuel : forall b k,
  wf tgt b -> (0 < fuel)%nat -> (S MAX_ORDER < fuel + k)%nat ->
  allocate_block_fuel fuel tgt b k ⇓ allocate_post tgt b k.
Proof.
  induction fuel as [|fuel IH]; intros b k Hw Hf0 Hf; [lia|]. simpl.
  destruct (Nat.ltb_spec MAX_ORDER k) as [Hk|Hk].
  { simpl. split; [done|]. intros j s Hj. eapply no_blocks_above; [done|lia]. }
  destruct (bin_get_in tgt b k Hw Hk) as (B & HB & ->). simpl.
  destruct (btree_first B) as [t|] eqn:Et.
  - apply btree_first_Some in Et as [Hin Hle]. simpl.
    assert (block_in b k t) as Hbt by (by eapply bin_get_block).
    split; [by apply (wf_blocks _ _ Hw)|]. split.
    { exists k. split; [lia|]. split; [done|]. split; [|intros i s Hi; lia].
      intros s Hs. apply Hle. by eapply bin_get_block. }
    split; [by apply wf_remove|]. split; [intros a Ha; exists k, t; auto|].
    intros a. by eapply is_free_remove.
  - apply btree_first_None in Et as ->.
    assert (forall s, ~ block_in b k s) as Hempty.
    { intros s. rewrite <- (bin_get_block _ _ _ HB). set_solver. }
    eapply returns_bind; [apply IH; [done|lia..]|].
    intros [[t|] b'] Hpost; [by apply allocate_split|].
    destruct Hpost as [-> Hno]. simpl. split; [done|]. intros j s Hj.
    destruct (decide (j = k)) as [->|]; [apply Hempty|apply Hno; lia].
Qed.

Lemma allocate_block_spec tgt b k :
  wf tgt b -> allocate_block tgt b k ⇓ allocate_post tgt b k.
Proof. intros. apply allocate_block_fuel_spec; unfold NUM_BINS; auto; lia. Qed.

(** ** Completeness: coalescing loses no block *)

(** A fully free aligned block lies inside a free block of at least its order. *)
Lemma free_block_contained tgt b k : forall s,
  wf tgt b -> (k <= MAX_ORDER)%nat -> (block_bytes k | s) ->
  (forall a, covers s k a -> is_free b a) ->
  exists j t, (k <= j)%nat /\ block_in b j t /\ t <= s /\ s + block_bytes k <= t + block_bytes j.
Proof.
  induction k as [|k IH]; intros s Hw Hk Hd Hall.
  - pose proof (block_bytes_pos 0).
    assert (covers s 0 s) as Hs by (unfold covers; lia).
    destruct (Hall s Hs) as (j & t & Hj & Hc). exists j, t. split; [lia|]. split; [done|].
    apply (covers_nested s 0 t j s); auto; [by apply (wf_blocks _ _ Hw)|lia].
  - assert (block_bytes k | s) as Hdk.
    { etrans; [|exact Hd]. apply block_bytes_divide. lia. }
    pose proof (block_bytes_pos k) as Hp. pose proof (block_bytes_S k) as ES.
    assert (buddy s k = s + block_bytes k) as Ebud.
    { destruct (buddy_cases s k Hdk) as [[_ ->]|[Hd' _]]; [done|].
      destruct Hd as [q Hq], Hd' as [r Hr]. rewrite ES in *.
      assert (block_bytes k * (2 * (q - r) - 1) = 0) as [?|?]%Z.mul_eq_0 by lia; lia. }
    destruct (IH s) as (j1 & t1 & Hj1 & Hb1 & Hr1); [done|lia|done| |].
    { intros a Ha. apply Hall. unfold covers in *. lia. }
    destruct (IH (buddy s k)) as (j2 & t2 & Hj2 & Hb2 & Hr2); [done|lia| | |].
    { rewrite Ebud. apply Z.divide_add_r; [done|apply Z.divide_refl]. }
    { intros a Ha. apply Hall. unfold covers in *. lia. }
    assert (forall j t, (S k <= j)%nat -> block_in b j t ->
              (exists a, covers s (S k) a /\ covers t j a) ->
              t <= s /\ s + block_bytes (S k) <= t + block_bytes j) as Hbig.
    { intros j t Hj Ht (a & Ha1 & Ha2). apply (covers_nested s (S k) t j a); auto.
      by apply (wf_blocks _ _ Hw). }
    destruct (decide (j1 = k)) as [->|]; [destruct (decide (j2 = k)) as [->|]|].
    + exfalso. apply (wf_coalesced _ _ Hw k t1); [lia|done|].
      replace t1 with s by lia. by replace (buddy s k) with t2 by lia.
    + exists j2, t2. split; [lia|]. split; [done|]. apply Hbig; auto; [lia|].
      exists (buddy s k). unfold covers. lia.
    + exists j1, t1. split; [lia|]. split; [done|]. apply Hbig; auto; [lia|].
      exists s. unfold covers. lia.
Qed.

(** ** The bins are determined by the set of free bytes *)

Definition all_free (b : BuddyAllocator) (k : nat) (s : Z) : Prop :=
  forall a, covers s k a -> is_free b a.

Lemma covers_start s k : covers s k s.
Proof. unfold covers. pose proof (block_bytes_pos k). lia. Qed.

Lemma block_in_maximal tgt b k s :
  wf tgt b -> (k <= MAX_ORDER)%nat ->
  block_in b k s <->
  (block_bytes k | s) /\ all_free b k s /\
  (k = MAX_ORDER \/ ~ all_free b (S k) (Z.min s (buddy s k))).
Proof.
  intros Hw Hk. split.
  - intros Hin. pose proof (wf_blocks _ _ Hw _ _ Hin) as Hok.
    split; [apply Hok|]. split; [intros a Ha; exists k, s; auto|].
    destruct (decide (k = MAX_ORDER)) as [|Hne]; [by left|right]. intros Hall.
    destruct (block_ok_buddy tgt k s) as [_ Hok']; [lia|done|].
    destruct (free_block_contained tgt b (S k) _ Hw ltac:(lia) (proj1 Hok') Hall)
      as (j & t & Hj & Hbt & Hle1 & Hle2).
    assert (covers (Z.min s (buddy s k)) (S k) s) as Hc.
    { apply buddy_merge; [apply Hok|left; apply covers_start]. }
    destruct (wf_disjoint _ _ Hw k s j t s) as [-> _]; auto; [apply covers_start| |lia].
    unfold covers in *. lia.
  - intros (Hd & Hall & Hmax).
    destruct (free_block_contained tgt b k s Hw Hk Hd Hall) as (j & t & Hj & Hbt & Hle1 & Hle2).
    destruct (decide (j = k)) as [->|Hne]; [by replace s with t by lia|].
    destruct Hmax as [->|Hmax].
    { destruct (no_blocks_above tgt b j t Hw); auto. lia. }
    exfalso. apply Hmax. intros a Ha. exists j, t. split; [done|].
    pose proof (wf_blocks _ _ Hw _ _ Hbt) as [Hdt _].
    assert ((block_bytes (S k) | Z.min s (buddy s k))) as Hdp.
    { pose proof (block_bytes_pos k).
      destruct (buddy_cases s k Hd) as [[Hx ->]|[Hx ->]];
        [by replace (Z.min _ _) with s by lia|by replace (Z.min _ _) with (s - block_bytes k) by lia]. }
    destruct (covers_nested (Z.min s (buddy s k)) (S k) t j s); auto; [lia| | |].
    + apply buddy_merge; [done|left; apply covers_start].
    + unfold covers. pose proof (block_bytes_pos k). lia.
    + unfold covers in *. lia.
Qed.

Lemma wf_unique tgt b1 b2 :
  wf tgt b1 -> wf tgt b2 -> (forall a, is_free b1 a <-> is_free b2 a) -> b1 = b2.
Proof.
  intros Hw1 Hw2 Hfree.
  assert (forall k s, all_free b1 k s <-> all_free b2 k s) as Hall.
  { intros k s. unfold all_free. by setoid_rewrite Hfree. }
  assert (forall k s, (k <= MAX_ORDER)%nat -> block_in b1 k s <-> block_in b2 k s) as Hin.
  { intros k s Hk. rewrite (block_in_maximal tgt b1 k s), (block_in_maximal tgt b2 k s) by done.
    by rewrite !Hall. }
  destruct b1 as [l1], b2 as [l2]. f_equal. simpl in *.
  pose proof (wf_len _ _ Hw1) as L1. pose proof (wf_len _ _ Hw2) as L2. simpl in *.
  apply list_eq_same_length with NUM_BINS; [done|congruence|].
  intros k B1 B2 Hk H1 H2. apply leibniz_equiv. intros s.
  rewrite (bin_get_block (mkBuddy l1) k B1 H1 s), (bin_get_block (mkBuddy l2) k B2 H2 s).
  apply Hin. unfold NUM_BINS in *. lia.
Qed.

(** ** Requests in frames *)

(** The order [alloc] and [free] use for [count] frames. *)
Definition order_of (count : Z) : nat := Z.to_nat (Z.log2_up count).

Lemma pow2_order count : 0 <= count -> 2 ^ Z.of_nat (order_of count) = 2 ^ Z.log2_up count.
Proof. intros. unfold order_of. rewrite Z2Nat.id; [done|apply Z.log2_up_nonneg]. Qed.

Lemma order_of_bytes count : 0 <= count -> count * BASE_SIZE <= block_bytes (order_of count).
Proof.
  intros Hc. unfold block_bytes. rewrite Z.shiftl_mul_pow2, pow2_order by lia.
  unfold BASE_SIZE, SIZE. assert (count <= 2 ^ Z.log2_up count); [|lia].
  destruct (decide (count <= 1)) as [|].
  - pose proof (pow2_pos (Z.log2_up count) (Z.log2_up_nonneg _)). lia.
  - apply Z.log2_up_spec. lia.
Qed.

Lemma alloc_unfold tgt b count :
  0 <= count <= 2 ^ 63 -> alloc tgt b count = allocate_block tgt b (order_of count).
Proof.
  intros Hc. pose proof (Z.log2_up_nonneg count).
  assert (Z.log2_up count <= 63) by (rewrite <- (Z.log2_up_pow2 63) by lia; apply Z.log2_up_le_mono; lia).
  assert (2 ^ Z.log2_up count <= 2 ^ 63) by (apply Z.pow_le_mono_r; lia).
  pose proof (pow2_pos (Z.log2_up count) ltac:(lia)).
  unfold alloc, next_power_of_two.
  rewrite checked_in by (unfold is_unsigned; lia). simpl.
  by rewrite trailing_zeros_pow2.
Qed.

Lemma free_unfold tgt b base k :
  free tgt b base (2 ^ Z.of_nat k) = free_block tgt b base k.
Proof.
  unfold free. rewrite is_power_of_two_pow2 by lia. simpl.
  rewrite trailing_zeros_pow2 by lia. by rewrite Nat2Z.id.
Qed.

Lemma new_empty k s : ~ block_in new k s.
Proof.
  intros (B & HB & Hs). change (replicate NUM_BINS ∅ !! k = Some B) in HB.
  apply lookup_replicate in HB as [-> _]. set_solver.
Qed.

Lemma new_wf tgt : wf tgt new.
Proof. split; [done| |..]; intros; exfalso; by eapply new_empty. Qed.

Lemma new_free a : ~ is_free new a.
Proof. intros (k & s & Hin & _). by eapply new_empty. Qed.

(** ** Freeing a range of frames *)

Lemma free_range_loop_spec tgt fuel : forall b cur end_,
  wf tgt b -> 0 <= frame_start cur -> (4096 | frame_start cur) -> (4096 | frame_start end_) ->
  paddr_valid tgt (frame_start end_) ->
  frame_start end_ - frame_start cur < 4096 * Z.of_nat fuel -> (0 < fuel)%nat ->
  (forall a, frame_start cur <= a < frame_start end_ -> ~ is_free b a) ->
  free_range_loop fuel tgt b cur end_ ⇓ fun b' =>
    wf tgt b' /\
    forall a, is_free b' a <-> is_free b a \/ frame_start cur <= a < frame_start end_.
Proof.
  induction fuel as [|fuel IH]; intros b [cur] [e] Hw Hc Dc De Hv Hf Hf0 Hfree; [lia|].
  simpl in *. unfold frame_range_next. simpl.
  destruct (Z.ltb_spec cur e) as [Hlt|Hge]; simpl.
  2:{ split; [done|]. intros a. split; [auto|]. intros [?|?]; [done|lia]. }
  destruct Dc as [q ->], De as [r ->]. assert (q < r) by lia.
  assert (block_bytes 0 = 4096) as E0 by done.
  assert (paddr_valid tgt (q * 4096 + 4096)) as Hv' by (unfold paddr_valid in *; lia).
  rewrite frame_forward_in; simpl; [|lia..|done].
  eapply returns_bind.
  { apply (free_block_spec tgt b (q * 4096) 0); [done| |lia|].
    - unfold block_ok. rewrite E0. unfold paddr_valid in *.
      split; [apply Z.divide_factor_r|lia].
    - intros a Ha. apply Hfree. unfold covers in Ha. lia. }
  intros b' [Hw' Hfree']. eapply returns_weaken.
  { apply IH; simpl; [done|lia|exists (q + 1); lia|apply Z.divide_factor_r|done|lia|lia|].
    intros a Ha. rewrite Hfree'. unfold covers. intros [?|?]; [|lia].
    apply (Hfree a); [lia|done]. }
  intros b'' [Hw'' Hfree'']. split; [done|]. intros a. simpl in *.
  rewrite Hfree'', Hfree'. unfold covers. rewrite E0.
  assert (q * 4096 <= a < q * 4096 + 4096 \/ q * 4096 + 4096 <= a < r * 4096 <->
    q * 4096 <= a < r * 4096) by lia. tauto.
Qed.

(** ** A sample allocator holding the sixteen frames from [0x10000] *)

Definition sample : BuddyAllocator := bin_set new 4 {[ 0x10000 ]}.

Lemma sample_wf tgt : wf tgt sample.
Proof.
  assert (free_block tgt new 0x10000 4 ⇓ fun b' => wf tgt b' /\ b' = sample) as H.
  { pose proof (free_block_spec tgt new 0x10000 4 (new_wf _)) as H.
    replace (free_block tgt new 0x10000 4) with (Val sample) in * by (by destruct tgt). simpl in *.
    split; [|done]. apply H.
    - split; [by exists 1|]. by destruct tgt.
    - unfold MAX_ORDER. lia.
    - intros a _. apply new_free. }
  apply returns_Val in H as (b' & _ & H & ->). done.
Qed.

Lemma sample_block_in k s : block_in sample k s <-> k = 4%nat /\ s = 0x10000.
Proof.
  unfold sample. rewrite block_in_set by (simpl; lia).
  pose proof (new_empty k s). set_solver.
Qed.

Lemma sample_free a : is_free sample a <-> 0x10000 <= a < 0x20000.
Proof.
  unfold is_free. setoid_rewrite sample_block_in. unfold covers.
  split; [intros (k & s & [-> ->] & H); exact H|]. intros H. by exists 4%nat, 0x10000.
Qed.

(** ** The allocator's contract *)

(** C2: An allocation of [count] frames succeeds exactly when some aligned run of
    the rounded-up size is entirely free; the block it returns is aligned to its
    size, large enough, was free, and is exactly what leaves the free memory;
    the invariant is kept. A failed allocation changes nothing. *)
Theorem buddy_alloc_correct tgt b count :
  wf tgt b -> 0 <= count <= 2 ^ 63 ->
  alloc tgt b count ⇓ fun '(r, b') =>
    let k := order_of count in
    match r with
    | Some t =>
        count * BASE_SIZE <= block_bytes k /\ block_ok tgt k t /\ first_fit b k t /\
        wf tgt b' /\ all_free b k t /\
        (forall a, is_free b' a <-> is_free b a /\ ~ covers t k a)
    | None =>
        b' = b /\
        ((k <= MAX_ORDER)%nat -> forall s, (block_bytes k | s) -> ~ all_free b k s)
    end.
Proof.
  intros Hw Hc. rewrite alloc_unfold by done.
  eapply returns_weaken; [by apply allocate_block_spec|]. intros [[t|] b'] Hpost.
  - destruct Hpost as (?&?&?&?&?). split; [apply order_of_bytes; lia|auto].
  - destruct Hpost as [-> Hno]. split; [done|]. intros Hk s Hd Hall.
    destruct (free_block_contained tgt b _ s Hw Hk Hd Hall) as (j & t & Hj & Hin & _).
    by apply (Hno j t).
Qed.

Lemma buddy_alloc_correct_witness :
  exists b', alloc X86_64 sample 3 = Val (Some 0x10000, b') /\
    forall a, is_free b' a <-> is_free sample a /\ ~ covers 0x10000 2 a.
Proof.
  pose proof (buddy_alloc_correct X86_64 sample 3 (sample_wf _) ltac:(lia)) as H.
  destruct (proj1 (returns_Val _ _) H) as ([r b'] & E & H'). clear H. rename H' into H. exists b'.
  assert (r = Some 0x10000) as ->.
  { assert (fst <$> (match alloc X86_64 sample 3 with Val x => Some x | Panic => None end)
      = Some (Some 0x10000)) as H1 by (vm_compute; reflexivity).
    rewrite E in H1. by injection H1. }
  split; [done|]. apply H.
Defined.

(** C11: Freeing a block of [2^k] frames none of which is free neither panics nor
    loops: whatever coalescing takes place, exactly the block's bytes become
    free and the invariant is kept. *)
Theorem buddy_free_correct tgt b base k :
  wf tgt b -> (k <= MAX_ORDER)%nat -> block_ok tgt k base ->
  (forall a, covers base k a -> ~ is_free b a) ->
  free tgt b base (2 ^ Z.of_nat k) ⇓ fun b' =>
    wf tgt b' /\ forall a, is_free b' a <-> is_free b a \/ covers base k a.
Proof. intros. rewrite free_unfold. by apply free_block_spec. Qed.

Lemma buddy_free_correct_witness :
  exists b', free X86_64 sample 0x20000 16 = Val b' /\ wf X86_64 b' /\
    forall a, is_free b' a <-> is_free sample a \/ covers 0x20000 4 a.
Proof.
  apply returns_Val. apply (buddy_free_correct X86_64 sample 0x20000 4).
  - apply sample_wf.
  - unfold MAX_ORDER. lia.
  - split; [by exists 2|done].
  - intros a Ha. rewrite sample_free. unfold covers in Ha. lia.
Defined.

(** C24: Giving an allocated block back restores the allocator's bins exactly:
    the splits of the allocation are undone by the coalescing of the free. *)
Theorem buddy_alloc_free_roundtrip tgt b count t b' :
  wf tgt b -> 0 <= count <= 2 ^ 63 -> alloc tgt b count = Val (Some t, b') ->
  free tgt b' t (2 ^ Z.of_nat (order_of count)) = Val b.
Proof.
  intros Hw Hc Ha. rewrite alloc_unfold in Ha by done.
  pose proof (allocate_block_spec tgt b (order_of count) Hw) as Hpost.
  rewrite Ha in Hpost. destruct Hpost as (Hok & (j & Hkj & Hin & _) & Hw' & Hall & Hfree).
  assert (order_of count <= MAX_ORDER)%nat as Hk.
  { destruct (decide (j <= MAX_ORDER)%nat); [lia|].
    destruct (no_blocks_above tgt b j t Hw); auto. lia. }
  rewrite free_unfold.
  pose proof (free_block_spec tgt b' t (order_of count) Hw' Hok Hk) as Hfb.
  apply returns_Val in Hfb as (b'' & -> & Hw'' & Hfree'').
  - f_equal. apply (wf_unique tgt); [done..|]. intros a. rewrite Hfree'', Hfree.
    specialize (Hall a). unfold covers in *.
    destruct (decide (t <= a < t + block_bytes (order_of count))); tauto.
  - intros a Hc' [_ Hn]%Hfree. done.
Qed.

Lemma buddy_alloc_free_roundtrip_witness :
  exists b', alloc X86_64 sample 3 = Val (Some 0x10000, b') /\
    free X86_64 b' 0x10000 4 = Val sample.
Proof.
  destruct (alloc X86_64 sample 3) as [[r b']|] eqn:E; [|vm_compute in E; discriminate].
  assert (r = Some 0x10000) as -> by (vm_compute in E; by injection E as <-).
  exists b'. split; [done|].
  apply (buddy_alloc_free_roundtrip X86_64 sample 3 0x10000 b'); [apply sample_wf|lia|done].
Defined.

(** The bins are a function of the set of free bytes, so freeing two disjoint
    blocks in either order ends in the same state. *)
Lemma buddy_free_commute tgt b s k t j :
  wf tgt b -> (k <= MAX_ORDER)%nat -> (j <= MAX_ORDER)%nat ->
  block_ok tgt k s -> block_ok tgt j t ->
  (forall a, covers s k a \/ covers t j a -> ~ is_free b a) ->
  (forall a, ~ (covers s k a /\ covers t j a)) ->
  (b1 ← free_block tgt b s k; free_block tgt b1 t j) =
  (b2 ← free_block tgt b t j; free_block tgt b2 s k).
Proof.
  intros Hw Hk Hj Hs Ht Hfree Hdis.
  assert (forall s k t j, (k <= MAX_ORDER)%nat -> (j <= MAX_ORDER)%nat ->
    block_ok tgt k s -> block_ok tgt j t ->
    (forall a, covers s k a \/ covers t j a -> ~ is_free b a) ->
    (forall a, ~ (covers s k a /\ covers t j a)) ->
    (b1 ← free_block tgt b s k; free_block tgt b1 t j) ⇓ fun b' =>
      wf tgt b' /\ forall a, is_free b' a <-> is_free b a \/ covers s k a \/ covers t j a) as Haux.
  { clear -Hw. intros s k t j Hk Hj Hs Ht Hfree Hdis.
    eapply returns_bind; [apply free_block_spec; auto|]. intros b1 [Hw1 Hf1].
    eapply returns_weaken; [apply free_block_spec; auto|].
    - intros a Ha [Hb|Hb]%Hf1; [by eapply Hfree; [right|]|by eapply Hdis].
    - intros b2 [Hw2 Hf2]. split; [done|]. intros a. rewrite Hf2, Hf1. tauto. }
  pose proof (Haux s k t j Hk Hj Hs Ht Hfree Hdis) as (b1 & -> & Hw1 & Hf1)%returns_Val.
  pose proof (Haux t j s k) as (b2 & -> & Hw2 & Hf2)%returns_Val; auto.
  - f_equal. apply (wf_unique tgt); [done..|]. intros a. rewrite Hf1, Hf2. tauto.
  - intros a Ha. apply Hfree. tauto.
  - intros a [? ?]. by apply (Hdis a).
Qed.

(** Freeing a range of frames none of which is free makes exactly the
    range's bytes free, coalesced into maximal blocks. *)
Lemma buddy_free_range_correct tgt b (first last : Frame Size4KiB) :
  wf tgt b -> 0 <= frame_start first ->
  (4096 | frame_start first) -> (4096 | frame_start last) ->
  paddr_valid tgt (frame_start last) ->
  (forall a, frame_start first <= a < frame_start last -> ~ is_free b a) ->
  free_range tgt b first last ⇓ fun b' =>
    wf tgt b' /\
    forall a, is_free b' a <-> is_free b a \/ frame_start first <= a < frame_start last.
Proof.
  intros Hw Hf Hd1 Hd2 Hv Hfree. apply free_range_loop_spec; auto; [|lia].
  change BASE_SIZE with 4096. destruct Hd1 as [q E1], Hd2 as [r E2]. rewrite E1, E2.
  rewrite <- Z.mul_sub_distr_r, Z.div_mul by lia. lia.
Qed.

