(* ===== verification/Pmm.v ===== *)
(** * [kernel/src/pmm/mod.rs] and the early allocator of [kernel/src/bootinfo.rs]

    The physical memory manager wraps the buddy allocator; before it exists the
    kernel takes frames off the end of the boot loader's memory map.  Both
    implement the [FrameAllocator] interface.  The spinlock serialises the
    manager's operations, so its state here is the allocator it protects. *)

From stdpp Require Import base tactics option list numbers gmap sets.
From S2P Require Import Prelude Memory FrameAllocator Buddy.

(** ** The boot memory map ([seed/seed_bootinfo/src/lib.rs]) *)

Inductive MemoryType :=
  | Usable | Reserved | AcpiReclaimable | AcpiNvs | UefiRuntimeServices
  | DeviceTree | Kernel | LoadedImage | Framebuffer | Scratch.

#[global] Instance MemoryType_eq_dec : EqDecision MemoryType.
Proof. solve_decision. Defined.

Record MemoryEntry := mkMemoryEntry {
  entry_base : Z;
  entry_length : Z;
  entry_typ : MemoryType;
}.

Definition entry_end (e : MemoryEntry) : Z := entry_base e + entry_length e.

(** ** The physical memory manager *)

Module Pmm.

(** [buddy: Spinlock<BuddyAllocator>]. *)
Record Pmm := mkPmm { pmm_target : target; pmm_buddy : BuddyAllocator }.

(** The body of the loop of [Pmm::new]. *)
Definition add_entry (tgt : target) (b : BuddyAllocator) (entry : MemoryEntry) :
    outcome BuddyAllocator :=
  if decide (entry_typ entry = Usable) then
    first_addr ← unwrap (PAddr.new tgt (entry_base entry));
    first ← Frame.starts_with first_addr;
    last_raw ← uadd (entry_base entry) (entry_length entry);
    last_addr ← unwrap (PAddr.new tgt last_raw);
    last ← Frame.starts_with last_addr;
    free_range tgt b first last
  else mret b.

Fixpoint add_entries (tgt : target) (b : BuddyAllocator) (memory_map : list MemoryEntry) :
    outcome BuddyAllocator :=
  match memory_map with
  | [] => mret b
  | entry :: rest => b' ← add_entry tgt b entry; add_entries tgt b' rest
  end.

Definition new (tgt : target) (memory_map : list MemoryEntry) : outcome Pmm :=
  b ← add_entries tgt Buddy.new memory_map; mret (mkPmm tgt b).

Definition alloc (p : Pmm) (count : Z) : outcome (Z * Pmm) :=
  '(r, b') ← Buddy.alloc (pmm_target p) (pmm_buddy p) count;
  a ← unwrap r;
  mret (a, mkPmm (pmm_target p) b').

Definition free (p : Pmm) (addr count : Z) : outcome Pmm :=
  b' ← Buddy.free (pmm_target p) (pmm_buddy p) addr count;
  mret (mkPmm (pmm_target p) b').

Definition pmm_allocate_n (s : FrameSize) (p : Pmm) (n : Z) : outcome (Frame s * Frame s * Pmm) :=
  bytes ← umul n (SIZE s);
  count ← udiv bytes (SIZE Size4KiB);
  '(r, b') ← Buddy.alloc (pmm_target p) (pmm_buddy p) count;
  start ← unwrap r;
  first ← Frame.starts_with start;
  first' ← Frame.starts_with start;
  last ← Frame.add (pmm_target p) first' n;
  mret (first, last, mkPmm (pmm_target p) b').

Definition pmm_free_n (s : FrameSize) (p : Pmm) (start : Frame s) (num_frames : Z) : outcome Pmm :=
  bytes ← umul num_frames (SIZE s);
  count ← udiv bytes (SIZE Size4KiB);
  b' ← Buddy.free (pmm_target p) (pmm_buddy p) (frame_start start) count;
  mret (mkPmm (pmm_target p) b').

#[global] Instance pmm_allocator : FrameAllocator Pmm := {
  allocate_n := pmm_allocate_n;
  free_n := pmm_free_n;
}.

Definition pmm_wf (p : Pmm) : Prop := wf (pmm_target p) (pmm_buddy p).
Definition pmm_free (p : Pmm) (a : Z) : Prop := is_free (pmm_buddy p) a.

End Pmm.

(** ** The early frame allocator: the memory map itself is the state *)

Module Early.

Record EarlyFrameAllocator := mkEarly { early_target : target; memory_map : list MemoryEntry }.

(** The scan of [allocate_n]; [before] are the entries already passed over. *)
Fixpoint early_scan (tgt : target) (n : Z) (before rest : list MemoryEntry) :
    outcome (Frame Size4KiB * Frame Size4KiB * list MemoryEntry) :=
  match rest with
  | [] => Panic
  | e :: rest =>
      if decide (entry_typ e = Usable) then
        bytes ← umul n (SIZE Size4KiB);
        if entry_length e >=? bytes then
          t ← uadd (entry_base e) (entry_length e);
          t ← usub t bytes;
          addr ← unwrap (PAddr.new tgt t);
          len' ← wsub 64 (entry_length e) bytes;
          first ← Frame.starts_with addr;
          first' ← Frame.starts_with addr;
          last ← Frame.add tgt first' n;
          mret (first, last, before ++ mkMemoryEntry (entry_base e) len' (entry_typ e) :: rest)
        else early_scan tgt n (before ++ [e]) rest
      else early_scan tgt n (before ++ [e]) rest
  end.

Definition early_allocate_n (a : EarlyFrameAllocator) (n : Z) :
    outcome (Frame Size4KiB * Frame Size4KiB * EarlyFrameAllocator) :=
  '(first, last, m) ← early_scan (early_target a) n [] (memory_map a);
  mret (first, last, mkEarly (early_target a) m).

(** Freed frames are leaked. *)
Definition early_free_n (a : EarlyFrameAllocator) (start : Frame Size4KiB) (n : Z) :
    outcome EarlyFrameAllocator := mret a.

(** The trait is implemented for [Size4KiB] only. *)
#[global] Instance early_allocator : FrameAllocator EarlyFrameAllocator := {
  allocate_n := fun s => match s with Size4KiB => early_allocate_n | _ => fun _ _ => Panic end;
  free_n := fun s => match s with Size4KiB => early_free_n | _ => fun _ _ _ => Panic end;
}.

Definition early_owns (m : list MemoryEntry) (x : Z) : Prop :=
  exists e, e ∈ m /\ entry_typ e = Usable /\ entry_base e <= x < entry_end e.

End Early.

(** ** The manager implements the allocator interface *)

Section pmm.
Import Pmm.

Lemma frames_bytes s n :
  0 <= n -> n * SIZE s / SIZE Size4KiB * BASE_SIZE = n * SIZE s.
Proof.
  intros. unfold BASE_SIZE. destruct (SIZE_4KiB_divides s) as [q ->]. simpl.
  rewrite Z.mul_assoc, Z.div_mul by lia. done.
Qed.

Lemma size_divides_block s n :
  1 <= n -> (SIZE s | block_bytes (order_of (n * SIZE s / SIZE Size4KiB))).
Proof.
  intros Hn. pose proof (SIZE_pos s).
  assert (0 <= n * SIZE s / SIZE Size4KiB) as H0 by (apply Z.div_pos; simpl; nia).
  pose proof (order_of_bytes _ H0) as Hb. rewrite frames_bytes in Hb by lia.
  rewrite block_bytes_pow2, SIZE_pow2 in *. apply pow2_divide.
  assert (0 <= size_bits s) by (by destruct s). split; [done|].
  apply (Z.pow_le_mono_r_iff 2); [lia..|]. nia.
Qed.

(** What a successful [allocate_n] hands out. *)
Lemma pmm_allocate_n_spec s p n f e p' :
  pmm_wf p -> 1 <= n -> n * SIZE s <= 2 ^ 63 -> pmm_allocate_n s p n = Val (f, e, p') ->
  pmm_wf p' /\ pmm_target p' = pmm_target p /\
  (SIZE s | frame_start f) /\ 0 <= frame_start f /\
  frame_start e = frame_start f + n * SIZE s /\ frame_start e <= paddr_limit (pmm_target p) /\
  let k := order_of (n * SIZE s / SIZE Size4KiB) in
  n * SIZE s <= block_bytes k /\ all_free (pmm_buddy p) k (frame_start f) /\
  (forall x, pmm_free p' x <-> pmm_free p x /\ ~ covers (frame_start f) k x).
Proof.
  intros Hw Hn Hb H. unfold pmm_allocate_n in H. outcome_inv.
  destruct a1 as [r b']. outcome_inv. simplify_eq/=.
  injection Ha0 as <-.
  set (count := n * SIZE s / 4096) in *.
  assert (0 <= count <= 2 ^ 63) as Hc.
  { subst count. pose proof (SIZE_pos s). split; [apply Z.div_pos; nia|].
    apply Z.div_le_upper_bound; lia. }
  rewrite alloc_unfold in Ha1 by done.
  pose proof (allocate_block_spec (pmm_target p) (pmm_buddy p) (order_of count) Hw) as Hpost.
  rewrite Ha1 in Hpost. destruct Hpost as (Hok & _ & Hw' & Hall & Hfree).
  apply frame_starts_with_Val in Ha3 as [-> Hdiv], Ha4 as [-> _].
  apply frame_add_Val in Ha5 as [Ee _]. simpl in *. rewrite Ee.
  pose proof (frames_bytes s n ltac:(lia)) as Hbytes. change (SIZE Size4KiB) with 4096 in Hbytes.
  fold count in Hbytes. pose proof (order_of_bytes count ltac:(lia)) as Hle.
  destruct Hok as (_ & ? & ?). unfold pmm_free, pmm_wf. simpl.
  split_and!; try done; try lia.
Qed.

(** The frames handed out are no longer free. *)
Lemma block_taken p p' n k (f : Z) x :
  n <= block_bytes k -> all_free (pmm_buddy p) k f ->
  (forall x, pmm_free p' x <-> pmm_free p x /\ ~ covers f k x) ->
  f <= x < f + n -> pmm_free p x /\ ~ pmm_free p' x.
Proof.
  intros Hn Hall Hf Hx. assert (covers f k x) as Hcov by (unfold covers; lia).
  split; [by apply Hall|]. rewrite Hf. tauto.
Qed.

#[global] Program Instance pmm_allocator_spec tgt : FrameAllocatorSpec tgt Pmm := {
  fa_inv := fun p => pmm_target p = tgt /\ pmm_wf p;
  fa_owns := pmm_free;
}.
Next Obligation.
  simpl. intros tgt p f e p' [<- Hw] H.
  apply pmm_allocate_n_spec in H as (?&?&?&?&He&?&Hle&Hall&Hf); [|done|lia|simpl; lia].
  rewrite He in *. change (1 * SIZE Size4KiB) with 4096 in *.
  pose proof (fun x => block_taken p p' 4096 _ (frame_start f) x Hle Hall Hf). naive_solver.
Qed.

End pmm.

(** ** The early allocator implements it too *)

Section early.
Import Early.

Record early_wf (tgt : target) (m : list MemoryEntry) : Prop := {
  early_ranges : forall e, e ∈ m -> entry_typ e = Usable ->
    0 <= entry_base e /\ 0 <= entry_length e /\ entry_end e <= paddr_limit tgt;
  early_disjoint : forall i j e1 e2 x,
    m !! i = Some e1 -> m !! j = Some e2 -> entry_typ e1 = Usable -> entry_typ e2 = Usable ->
    entry_base e1 <= x < entry_end e1 -> entry_base e2 <= x < entry_end e2 -> i = j;
}.

(** The scan takes the frames off the end of the first usable entry that is
    long enough. *)
Lemma early_scan_Val tgt n rest : forall before f e m,
  early_scan tgt n before rest = Val (f, e, m) ->
  exists pre en post,
    before ++ rest = pre ++ en :: post /\ entry_typ en = Usable /\
    n * 4096 <= entry_length en /\ 0 <= n * 4096 /\
    frame_start f = entry_end en - n * 4096 /\ (4096 | frame_start f) /\
    frame_start e = entry_end en /\ paddr_valid tgt (frame_start f) /\
    m = pre ++ mkMemoryEntry (entry_base en) (entry_length en - n * 4096) Usable :: post.
Proof.
  induction rest as [|en rest IH]; intros before f e m H; simpl in H; [done|].
  destruct (decide (entry_typ en = Usable)) as [Hu|].
  2:{ apply IH in H. by rewrite <- app_assoc in H. }
  outcome_inv. simpl in *.
  destruct (Z.geb_spec (entry_length en) (n * 4096)).
  2:{ apply IH in H. by rewrite <- app_assoc in H. }
  memory_inv.
  exists before, en, rest. unfold entry_end, is_unsigned in *.
  split_and!; try done; try lia. by rewrite Hu.
Qed.

Definition shrink (e : MemoryEntry) (bytes : Z) : MemoryEntry :=
  mkMemoryEntry (entry_base e) (entry_length e - bytes) Usable.

Lemma shrink_lookup pre en post bytes i e :
  (pre ++ shrink en bytes :: post) !! i = Some e -> entry_typ en = Usable -> 0 <= bytes ->
  exists e0, (pre ++ en :: post) !! i = Some e0 /\ entry_typ e0 = entry_typ e /\
    entry_base e0 = entry_base e /\ entry_end e <= entry_end e0 /\
    (i = Datatypes.length pre -> e0 = en /\ e = shrink en bytes).
Proof.
  intros Hi Hu Hb. destruct (decide (i = Datatypes.length pre)) as [->|Hne].
  - rewrite list_lookup_middle in Hi by done. injection Hi as <-.
    exists en. rewrite list_lookup_middle by done. unfold entry_end. simpl.
    split_and!; auto; lia.
  - exists e. rewrite <- Hi. split; [|split_and!; done || lia].
    rewrite !lookup_app. destruct (pre !! i) eqn:E; [done|].
    apply lookup_ge_None in E. destruct (i - Datatypes.length pre)%nat eqn:Ei; [lia|done].
Qed.

Lemma early_wf_shrink tgt pre en post bytes :
  entry_typ en = Usable -> 0 <= bytes <= entry_length en ->
  early_wf tgt (pre ++ en :: post) -> early_wf tgt (pre ++ shrink en bytes :: post).
Proof.
  intros Hu Hb Hw. split.
  - intros e [i Hi]%list_elem_of_lookup Hue.
    destruct (shrink_lookup _ _ _ _ _ _ Hi Hu ltac:(lia)) as (e0 & H0 & Ht & Hba & Hen & Hmid).
    destruct (early_ranges _ _ Hw e0) as (?&?&?);
      [apply list_elem_of_lookup; eauto|congruence|].
    destruct (decide (i = Datatypes.length pre)) as [Ei|Hne].
    + destruct (Hmid Ei) as [-> ->]. unfold shrink, entry_end in *. simpl in *. lia.
    + rewrite !lookup_app in *. destruct (pre !! i) eqn:E; simplify_eq; [done|].
      apply lookup_ge_None in E. destruct (i - Datatypes.length pre)%nat eqn:Ei; [lia|].
      simpl in *. simplify_eq. done.
  - intros i j e1 e2 x Hi Hj Hu1 Hu2 Hx1 Hx2.
    destruct (shrink_lookup _ _ _ _ _ _ Hi Hu ltac:(lia)) as (d1 & ? & ? & ? & ? & _).
    destruct (shrink_lookup _ _ _ _ _ _ Hj Hu ltac:(lia)) as (d2 & ? & ? & ? & ? & _).
    eapply (early_disjoint _ _ Hw i j d1 d2 x); try done; try congruence; lia.
Qed.

#[global] Program Instance early_allocator_spec tgt : FrameAllocatorSpec tgt EarlyFrameAllocator := {
  fa_inv := fun a => early_target a = tgt /\ early_wf tgt (memory_map a);
  fa_owns := fun a => early_owns (memory_map a);
}.
Next Obligation.
  simpl. intros tgt a f e a' [<- Hw] H. unfold early_allocate_n in H. outcome_inv.
  destruct a0 as [[f0 e0] m]. outcome_inv. simplify_eq/=.
  apply early_scan_Val in Ha as (pre & en & post & Em & Hu & Hl & H0 & Hf & Hd & He & Hv & ->).
  change (1 * 4096) with 4096 in *. simpl in Em. rewrite Em in *.
  destruct (early_ranges _ _ Hw en) as (?&?&?); [set_solver|done|].
  fold (shrink en 4096). split_and!; try done.
  - by apply early_wf_shrink.
  - unfold entry_end in *. lia.
  - lia.
  - intros x Hx. split.
    + exists en. split; [set_solver|]. split; [done|]. unfold entry_end in *. lia.
    + intros (e' & [i Hi]%list_elem_of_lookup & Hu' & Hx').
      destruct (shrink_lookup _ _ _ _ _ _ Hi Hu ltac:(lia)) as (d & Hid & ? & ? & ? & Hmid).
      assert (i = Datatypes.length pre) as Ei.
      { eapply (early_disjoint _ _ Hw _ _ d en x); try done; try congruence; try lia.
        + by rewrite list_lookup_middle.
        + unfold entry_end in *. lia. }
      destruct (Hmid Ei) as [-> ->]. unfold shrink, entry_end in *. simpl in *. lia.
  - intros x (e' & [i Hi]%list_elem_of_lookup & Hu' & Hx').
    destruct (shrink_lookup _ _ _ _ _ _ Hi Hu ltac:(lia)) as (d & Hid & ? & ? & ? & _).
    exists d. split; [apply list_elem_of_lookup; eauto|]. split; [congruence|lia].
Qed.

End early.

(** ** Building the manager from the memory map *)

Section pmm_new.
Import Pmm Early.

(** A usable region the loader reports: page-aligned and inside the address space. *)
Definition entry_ok (tgt : target) (e : MemoryEntry) : Prop :=
  entry_typ e = Usable ->
  0 <= entry_base e /\ 0 <= entry_length e /\ (4096 | entry_base e) /\ (4096 | entry_length e) /\
  entry_end e < paddr_limit tgt.

Definition entries_apart (e1 e2 : MemoryEntry) : Prop :=
  entry_typ e1 = Usable -> entry_typ e2 = Usable ->
  forall x, entry_base e1 <= x < entry_end e1 -> ~ entry_base e2 <= x < entry_end e2.

Fixpoint map_disjoint (m : list MemoryEntry) : Prop :=
  match m with
  | [] => True
  | e :: m => (forall e', e' ∈ m -> entries_apart e e') /\ map_disjoint m
  end.

Lemma add_entry_spec tgt b e :
  wf tgt b -> entry_ok tgt e ->
  (entry_typ e = Usable -> forall x, entry_base e <= x < entry_end e -> ~ is_free b x) ->
  add_entry tgt b e ⇓ fun b' =>
    wf tgt b' /\
    forall a, is_free b' a <->
      is_free b a \/ (entry_typ e = Usable /\ entry_base e <= a < entry_end e).
Proof.
  intros Hw Hok Hfree. unfold add_entry.
  destruct (decide (entry_typ e = Usable)) as [Hu|Hu].
  2:{ simpl. split; [done|]. tauto. }
  destruct (Hok Hu) as (H0 & Hl & Hd1 & Hd2 & Hlim). unfold entry_end in *.
  rewrite paddr_new_valid by (unfold paddr_valid; lia). simpl.
  rewrite frame_starts_with_in by (apply Z.mod_divide; [done|exact Hd1]). simpl.
  assert (paddr_valid tgt (entry_base e + entry_length e)) as Hv by (unfold paddr_valid; lia).
  rewrite wadd_in by (by eapply paddr_valid_usize). simpl.
  rewrite paddr_new_valid by done. simpl.
  assert ((4096 | entry_base e + entry_length e)) as Hd by (by apply Z.divide_add_r).
  rewrite frame_starts_with_in by (apply Z.mod_divide; [done|exact Hd]). simpl.
  eapply returns_weaken.
  - apply free_range_loop_spec; simpl; [done|done|done|done|done| |lia|by apply Hfree].
    replace (entry_base e + entry_length e - entry_base e) with (entry_length e) by lia.
    change BASE_SIZE with 4096. destruct Hd2 as [q ->]. rewrite Z.div_mul by lia. lia.
  - intros b' [Hw' Hf']. split; [done|]. simpl in Hf'. intros a. rewrite Hf'. tauto.
Qed.

Lemma add_entries_spec tgt m : forall b,
  wf tgt b -> (forall e, e ∈ m -> entry_ok tgt e) -> map_disjoint m ->
  (forall x, early_owns m x -> ~ is_free b x) ->
  add_entries tgt b m ⇓ fun b' =>
    wf tgt b' /\ forall a, is_free b' a <-> is_free b a \/ early_owns m a.
Proof.
  induction m as [|e m IH]; intros b Hw Hok Hdis Hfree; simpl.
  { split; [done|]. intros a. split; [auto|]. intros [?|(e & He & _)]; [done|by apply elem_of_nil in He]. }
  destruct Hdis as [Hapart Hdis].
  eapply returns_bind.
  { apply add_entry_spec; [done|apply Hok; left|]. intros Hu x Hx. apply Hfree. exists e. split; [left|done]. }
  intros b' [Hw' Hf']. eapply returns_weaken; [apply IH; [done|intros; apply Hok; by right|done|]|].
  - intros x (e' & He' & Hu' & Hx'). rewrite Hf'. intros [Hb|[Hu Hx]].
    + revert Hb. apply Hfree. exists e'. split; [by right|done].
    + by apply (Hapart e' He' Hu Hu' x).
  - intros b'' [Hw'' Hf'']. split; [done|]. intros a. rewrite Hf'', Hf'. split.
    + intros [[?|[? ?]]|(e' & He' & ?)]; [by left|right; exists e; split; [left|done]|].
      right. exists e'. split; [by right|done].
    + intros [?|(e' & He' & Hu & Hx)]; [auto|].
      apply elem_of_cons in He' as [->|?]; [left; by right|right; by exists e'].
Qed.

(** The manager built from a well-formed memory map holds exactly the usable
    memory of the map, with the buddy invariant established. *)
Lemma pmm_new_correct tgt m :
  (forall e, e ∈ m -> entry_ok tgt e) -> map_disjoint m ->
  Pmm.new tgt m ⇓ fun p =>
    pmm_target p = tgt /\ pmm_wf p /\ forall a, pmm_free p a <-> early_owns m a.
Proof.
  intros Hok Hdis. unfold Pmm.new. eapply returns_bind.
  { apply add_entries_spec; [apply new_wf|done|done|]. intros x _. apply new_free. }
  intros b [Hw Hf]. simpl. split_and!; [done|done|]. intros a. unfold pmm_free. simpl.
  rewrite Hf. pose proof (new_free a). tauto.
Qed.

(** A request for which an aligned run of free memory exists is met. *)
Lemma pmm_allocate_n_returns s p n t :
  pmm_wf p -> 1 <= n -> n * SIZE s <= 2 ^ 63 ->
  let k := order_of (n * SIZE s / SIZE Size4KiB) in
  (k <= MAX_ORDER)%nat -> (block_bytes k | t) -> all_free (pmm_buddy p) k t ->
  (forall x, pmm_free p x -> x + 1 < paddr_limit (pmm_target p)) ->
  exists r, pmm_allocate_n s p n = Val r.
Proof.
  intros Hw Hn Hb k Hk Hd Hall Htop. pose proof (SIZE_pos s) as Hs.
  pose proof (frames_bytes s n ltac:(lia)) as Hbytes. change (SIZE Size4KiB) with 4096 in *.
  pose proof (size_divides_block s n Hn) as Hsd. change (SIZE Size4KiB) with 4096 in Hsd. fold k in Hsd.
  unfold pmm_allocate_n. rewrite wmul_in by (unfold is_unsigned; nia). obind.
  rewrite udiv_size. obind. change (SIZE Size4KiB) with 4096.
  assert (0 <= n * SIZE s / 4096 <= 2 ^ 63) as Hc.
  { split; [apply Z.div_pos; nia|apply Z.div_le_upper_bound; lia]. }
  rewrite alloc_unfold by done. fold k.
  pose proof (allocate_block_spec (pmm_target p) (pmm_buddy p) k Hw) as Hpost.
  destruct (allocate_block _ _ k) as [[[a|] b']|]; [| |done].
  2:{ destruct Hpost as [_ Hno].
      destruct (free_block_contained _ _ k t Hw Hk Hd Hall) as (j & u & Hj & Hin & _).
      by destruct (Hno j u). }
  destruct Hpost as ((Hda & Ha0 & Ha1) & _ & _ & Hfa & _). obind.
  assert (a mod SIZE s = 0) as Hmod by (apply Z.mod_divide; [lia|]; by etrans).
  rewrite frame_starts_with_in by done. obind.
  pose proof (order_of_bytes (n * SIZE s / 4096) ltac:(lia)) as Hle. fold k in Hle.
  pose proof (block_bytes_pos k) as Hpos.
  assert (a + block_bytes k - 1 + 1 < paddr_limit (pmm_target p)) as Hend
    by (apply Htop, Hfa; unfold covers; lia).
  assert (paddr_limit (pmm_target p) <= 2 ^ 64) as Hpl by (destruct (pmm_target p); simpl; lia).
  unfold Frame.add. rewrite wmul_in by (unfold is_unsigned; nia). obind.
  cbn [frame_start]. rewrite wadd_in by (unfold is_unsigned; lia). obind.
  rewrite paddr_new_valid by (unfold paddr_valid; lia). obind.
  rewrite paddr_add_in by (unfold paddr_valid; lia). eauto.
Qed.



End pmm_new.

(** [allocate_n] rounds a request up to a power of two, [free_n] insists on one:
    three frames can be allocated but not freed as three. *)
Lemma pmm_free_three_panics f :
  exists g e p', allocate_n Size4KiB (Pmm.mkPmm X86_64 sample) 3 = Val (g, e, p') /\
    free_n Size4KiB p' f 3 = Panic.
Proof.
  destruct (allocate_n Size4KiB (Pmm.mkPmm X86_64 sample) 3) as [[[g e] p']|] eqn:E;
    [|vm_compute in E; discriminate].
  exists g, e, p'. split; [reflexivity|]. vm_compute. reflexivity.
Qed.
