(* ===== verification/Bytes.v ===== *)
(** * Bytes and little-endian integers

    A byte is an integer below 256.  The conversions of the integer types
    ([to_le_bytes], [from_le_bytes], [as]), and the facts on the bits of a byte
    string read as one little-endian integer that the wire format, the USB
    descriptors and the bitmaps share. *)

From stdpp Require Import base tactics option list numbers.
From S2P Require Import Prelude.

(** [to_le_bytes] of an [n]-byte integer; for a signed one, of its two's
    complement. *)
Fixpoint to_le_bytes (n : nat) (v : Z) : list Z :=
  match n with
  | O => []
  | S n => v mod 256 :: to_le_bytes n (v / 256)
  end.

Fixpoint from_le_bytes (bs : list Z) : Z :=
  match bs with
  | [] => 0
  | b :: bs => b + 256 * from_le_bytes bs
  end.

(** [x as iN] for an [n]-byte pattern [x]. *)
Definition to_signed (n : nat) (x : Z) : Z :=
  if x <? 2 ^ (8 * Z.of_nat n - 1) then x else x - 2 ^ (8 * Z.of_nat n).

Abbreviation is_byte := (is_unsigned 8).
Abbreviation bytes_ok := (Forall is_byte).

Lemma length_to_le_bytes n : forall v, length (to_le_bytes n v) = n.
Proof. induction n; simpl; auto. Qed.

Lemma from_to_le_bytes n : forall v, from_le_bytes (to_le_bytes n v) = v mod 2 ^ (8 * Z.of_nat n).
Proof.
  induction n as [|n IH]; intros v; cbn [to_le_bytes from_le_bytes]; [by rewrite Z.mod_1_r|].
  rewrite IH. replace (8 * Z.of_nat (S n)) with (8 + 8 * Z.of_nat n) by lia.
  rewrite Z.pow_add_r by lia. change (2 ^ 8) with 256.
  rewrite Z.rem_mul_r by lia. done.
Qed.

Lemma to_signed_mod n v :
  (0 < n)%nat -> - 2 ^ (8 * Z.of_nat n - 1) <= v < 2 ^ (8 * Z.of_nat n - 1) ->
  to_signed n (v mod 2 ^ (8 * Z.of_nat n)) = v.
Proof.
  intros Hn Hv. unfold to_signed.
  assert (2 ^ (8 * Z.of_nat n) = 2 * 2 ^ (8 * Z.of_nat n - 1)) as E
    by (rewrite <- Z.pow_succ_r by lia; f_equal; lia).
  pose proof (pow2_pos (8 * Z.of_nat n - 1) ltac:(lia)). rewrite E.
  destruct (decide (0 <= v)).
  - rewrite Z.mod_small by lia. destruct (Z.ltb_spec v (2 ^ (8 * Z.of_nat n - 1))); lia.
  - replace (v mod (2 * 2 ^ (8 * Z.of_nat n - 1))) with (v + 2 * 2 ^ (8 * Z.of_nat n - 1))
      by (apply (Z.mod_unique _ _ (-1)); lia).
    destruct (Z.ltb_spec (v + 2 * 2 ^ (8 * Z.of_nat n - 1)) (2 ^ (8 * Z.of_nat n - 1))); lia.
Qed.

(** ** The bits of a byte string *)

Lemma from_le_bytes_range bs :
  bytes_ok bs -> is_unsigned (8 * Z.of_nat (length bs)) (from_le_bytes bs).
Proof.
  induction 1 as [|b bs [Hb0 Hb] _ IH]; cbn [from_le_bytes length]; unfold is_unsigned in *; [lia|].
  replace (8 * Z.of_nat (S (length bs))) with (8 + 8 * Z.of_nat (length bs)) by lia.
  rewrite Z.pow_add_r by lia. change (2 ^ 8) with 256 in *. lia.
Qed.

Lemma byte_lor_shift b x : is_byte b -> b + 256 * x = Z.lor (x ≪ 8) b.
Proof.
  intros Hb. rewrite Z.shiftl_mul_pow2 by lia.
  rewrite lor_shifted by (exact Hb || lia). change (2 ^ 8) with 256. lia.
Qed.

(** Bit [8 * k + j] of the integer is bit [j] of byte [k]. *)
Lemma testbit_from_le_bytes bs : forall i,
  bytes_ok bs -> 0 <= i ->
  Z.testbit (from_le_bytes bs) i =
    match bs !! Z.to_nat (i / 8) with Some b => Z.testbit b (i mod 8) | None => false end.
Proof.
  induction bs as [|b bs IH]; intros i Hbs Hi; cbn [from_le_bytes]; [by rewrite Z.bits_0|].
  apply Forall_cons_1 in Hbs as [Hb Hbs].
  rewrite byte_lor_shift, Z.lor_spec, Z.shiftl_spec by done.
  destruct (decide (i < 8)) as [Hlt|Hge].
  - rewrite (Z.testbit_neg_r _ (i - 8)) by lia.
    by rewrite Z.div_small, Z.mod_small by lia.
  - rewrite (testbit_out 8 b) by (done || lia). rewrite orb_false_r, IH by (done || lia).
    replace (Z.to_nat (i / 8)) with (S (Z.to_nat ((i - 8) / 8))).
    + simpl. replace ((i - 8) mod 8) with (i mod 8); [done|].
      replace i with ((i - 8) + 1 * 8) at 1 by lia. apply Z.mod_add. lia.
    + replace i with ((i - 8) + 1 * 8) at 2 by lia. rewrite Z.div_add by lia.
      pose proof (Z.div_pos (i - 8) 8). lia.
Qed.

Lemma from_le_bytes_app bs bs' :
  from_le_bytes (bs ++ bs') = from_le_bytes bs + 2 ^ (8 * Z.of_nat (length bs)) * from_le_bytes bs'.
Proof.
  induction bs as [|b bs IH]; cbn [from_le_bytes app length].
  - change (2 ^ (8 * Z.of_nat 0)) with 1. lia.
  - rewrite IH. replace (8 * Z.of_nat (S (length bs))) with (8 + 8 * Z.of_nat (length bs)) by lia.
    rewrite Z.pow_add_r by lia. change (2 ^ 8) with 256. ring.
Qed.

Lemma from_le_bytes_replicate_0 n : from_le_bytes (replicate n 0) = 0.
Proof. induction n as [|n IH]; simpl; [done|]. by rewrite IH. Qed.

(** Byte strings of one length are equal if the integers are. *)
Lemma from_le_bytes_inj bs bs' :
  length bs = length bs' -> bytes_ok bs -> bytes_ok bs' ->
  from_le_bytes bs = from_le_bytes bs' -> bs = bs'.
Proof.
  revert bs'. induction bs as [|b bs IH]; intros [|b' bs'] Hl Hbs Hbs' E; try done.
  apply Forall_cons_1 in Hbs as [[??] ?]. apply Forall_cons_1 in Hbs' as [[??] ?].
  cbn [from_le_bytes] in E. change (2 ^ 8) with 256 in *.
  assert (b = b') as -> by lia. f_equal. apply IH; [by injection Hl|done|done|lia].
Qed.

(** Setting bits of an integer, for the loops that build one bit by bit. *)
Lemma testbit_mod_pow2 x n i :
  0 <= n -> 0 <= i -> Z.testbit (x mod 2 ^ n) i = (i <? n) && Z.testbit x i.
Proof.
  intros Hn Hi. destruct (Z.ltb_spec i n).
  - by rewrite Z.mod_pow2_bits_low by lia.
  - by rewrite Z.mod_pow2_bits_high by lia.
Qed.

Lemma testbit_div_pow2 x n i : 0 <= n -> 0 <= i -> Z.testbit (x / 2 ^ n) i = Z.testbit x (i + n).
Proof. intros. by rewrite Z.div_pow2_bits by lia. Qed.

(** Replacing byte [j] replaces the bits [8 * j .. 8 * j + 8]. *)
Lemma testbit_insert_byte bs j b k :
  bytes_ok bs -> is_byte b -> (j < length bs)%nat -> 0 <= k ->
  Z.testbit (from_le_bytes (<[j := b]> bs)) k =
    if k / 8 =? Z.of_nat j then Z.testbit b (k mod 8) else Z.testbit (from_le_bytes bs) k.
Proof.
  intros Hbs Hb Hj Hk. pose proof (Z.div_pos k 8 Hk ltac:(lia)).
  rewrite testbit_from_le_bytes by (done || by apply Forall_insert).
  destruct (Z.eqb_spec (k / 8) (Z.of_nat j)) as [E|E].
  - by rewrite E, Nat2Z.id, list_lookup_insert_eq by done.
  - rewrite list_lookup_insert_ne by lia. by rewrite testbit_from_le_bytes by done.
Qed.

Lemma div_mod_8 i j : i / 8 = j / 8 -> i mod 8 = j mod 8 -> i = j.
Proof. intros. pose proof (Z.div_mod i 8). pose proof (Z.div_mod j 8). lia. Qed.

(** The byte of an in-range bit exists. *)
Lemma byte_of_bit (bs : list Z) i :
  bytes_ok bs -> 0 <= i < 8 * Z.of_nat (length bs) ->
  exists b, bs !! Z.to_nat (i / 8) = Some b /\ is_byte b /\ (Z.to_nat (i / 8) < length bs)%nat /\
    Z.of_nat (Z.to_nat (i / 8)) = i / 8.
Proof.
  intros Hbs Hi. pose proof (Z.div_pos i 8 ltac:(lia) ltac:(lia)).
  pose proof (Z.div_lt_upper_bound i 8 (Z.of_nat (length bs))).
  destruct (lookup_lt_is_Some_2 bs (Z.to_nat (i / 8))) as [b Hb]; [lia|].
  exists b. split_and!; [done| |lia|lia]. eapply Forall_lookup_1; eauto.
Qed.

(** A byte is an integer without bits from the eighth on. *)
Lemma unsigned_of_bits w x :
  0 <= w -> 0 <= x -> (forall i, w <= i -> Z.testbit x i = false) -> is_unsigned w x.
Proof.
  intros Hw Hx Hbits. replace x with (x mod 2 ^ w); [apply Z.mod_pos_bound; by apply pow2_pos|].
  apply Z.bits_inj'. intros i Hi. rewrite testbit_mod_pow2 by done.
  destruct (Z.ltb_spec i w); [done|]. by rewrite Hbits.
Qed.
