(* ===== verification/Crates.v ===== *)
(** * Third-party crates the modelled code calls

    [bit_field], [bitflags], [unicode_xid] and [arrayvec] are not part of the repository;
    their operations are parameters of the models that use them.  The [Spec] classes state the
    documented behaviour, and the [reference] instances, which meet it, are used
    by the concrete examples. *)

From stdpp Require Import base tactics option list numbers.
From S2P Require Import Prelude Bytes.

(** ** [bit_field::BitField] on a [w]-bit unsigned integer

    [get_bits w x lo hi] is [x.get_bits(lo..hi)], [set_bits w x lo hi v] is the
    value of [x] after [x.set_bits(lo..hi, v)], [get_bit w x i] is
    [x.get_bit(i)]; they panic outside the bounds, which the laws leave
    unspecified. *)

Class BitField := {
  get_bits : Z -> Z -> Z -> Z -> outcome Z;
  set_bits : Z -> Z -> Z -> Z -> Z -> outcome Z;
  get_bit : Z -> Z -> Z -> outcome bool;
}.

Class BitFieldSpec `{BitField} : Prop := {
  get_bits_in : forall w x lo hi,
    is_unsigned w x -> 0 <= lo < hi -> hi <= w ->
    get_bits w x lo hi = Val ((x / 2 ^ lo) mod 2 ^ (hi - lo));
  set_bits_in : forall w x lo hi v,
    is_unsigned w x -> 0 <= lo < hi -> hi <= w -> is_unsigned (hi - lo) v ->
    set_bits w x lo hi v = Val (x - (x / 2 ^ lo) mod 2 ^ (hi - lo) * 2 ^ lo + v * 2 ^ lo);
  get_bit_in : forall w x i,
    is_unsigned w x -> 0 <= i < w -> get_bit w x i = Val (Z.testbit x i);
}.

(** ** [bit_field::BitArray] on [[u8]]

    Bit [i] of the array is bit [i % 8] of byte [i / 8]. *)

Class BitArray := {
  array_get_bit : list Z -> Z -> outcome bool;
  array_set_bit : list Z -> Z -> bool -> outcome (list Z);
}.

Class BitArraySpec `{BitArray} : Prop := {
  array_get_bit_in : forall bs i,
    bytes_ok bs -> 0 <= i < 8 * Z.of_nat (length bs) ->
    array_get_bit bs i = Val (Z.testbit (from_le_bytes bs) i);
  array_set_bit_in : forall bs i b,
    bytes_ok bs -> 0 <= i < 8 * Z.of_nat (length bs) ->
    exists bs', array_set_bit bs i b = Val bs' /\ length bs' = length bs /\ bytes_ok bs' /\
      from_le_bytes bs' =
        (if b then Z.setbit (from_le_bytes bs) i else Z.clearbit (from_le_bytes bs) i);
}.

(** ** [bitflags]: sets of flags represented by their bits

    [from_bits_truncate all bits] drops the bits outside the declared flags
    [all]. *)

Class BitFlags := {
  from_bits_truncate : Z -> Z -> Z;
  flags_contain : Z -> Z -> bool;
  flags_intersect : Z -> Z -> bool;
  flags_union : Z -> Z -> Z;
}.

Class BitFlagsSpec `{BitFlags} : Prop := {
  from_bits_truncate_eq : forall all bits, from_bits_truncate all bits = Z.land bits all;
  contains_eq : forall f o, flags_contain f o = (Z.land f o =? o);
  intersects_eq : forall f o, flags_intersect f o = negb (Z.land f o =? 0);
  union_eq : forall f o, flags_union f o = Z.lor f o;
}.

(** ** Reference instances *)

Definition reference_bit_field : BitField := {|
  get_bits := fun w x lo hi =>
    rassert ((lo <? hi) && (hi <=? w)) ;; mret (Z.land (x ≫ lo) (Z.ones (hi - lo)));
  set_bits := fun w x lo hi v =>
    rassert ((lo <? hi) && (hi <=? w) && (v <? 2 ^ (hi - lo))) ;;
    mret (x - (x / 2 ^ lo) mod 2 ^ (hi - lo) * 2 ^ lo + v * 2 ^ lo);
  get_bit := fun w x i => rassert (i <? w) ;; mret (Z.testbit x i);
|}.

Lemma reference_bit_field_spec : @BitFieldSpec reference_bit_field.
Proof.
  split; simpl.
  - intros w x lo hi _ Hlo Hhi.
    replace (lo <? hi) with true by lia. replace (hi <=? w) with true by lia. simpl.
    by rewrite Z.land_ones, Z.shiftr_div_pow2 by lia.
  - intros w x lo hi v _ Hlo Hhi [Hv0 Hv].
    replace (lo <? hi) with true by lia. replace (hi <=? w) with true by lia.
    replace (v <? 2 ^ (hi - lo)) with true by lia. done.
  - intros w x i _ Hi. by replace (i <? w) with true by lia.
Qed.

Definition reference_bit_array : BitArray := {|
  array_get_bit := fun bs i =>
    b ← unwrap (bs !! Z.to_nat (i / 8)); mret (Z.testbit b (i mod 8));
  array_set_bit := fun bs i v =>
    b ← unwrap (bs !! Z.to_nat (i / 8));
    mret (<[Z.to_nat (i / 8) := if v then Z.setbit b (i mod 8) else Z.clearbit b (i mod 8)]> bs);
|}.

Lemma testbit_update x i (v : bool) k :
  0 <= i -> 0 <= k ->
  Z.testbit (if v then Z.setbit x i else Z.clearbit x i) k = if i =? k then v else Z.testbit x k.
Proof.
  intros Hi Hk. destruct v.
  - rewrite Z.setbit_eqb by done. by destruct (i =? k).
  - rewrite Z.clearbit_eqb by done.
    destruct (i =? k); simpl; [apply andb_false_r|apply andb_true_r].
Qed.

Lemma byte_update b j (v : bool) :
  is_byte b -> 0 <= j < 8 -> is_byte (if v then Z.setbit b j else Z.clearbit b j).
Proof.
  intros Hb Hj. apply unsigned_of_bits; [lia| |].
  - destruct Hb. pose proof (pow2_pos j ltac:(lia)). destruct v.
    + rewrite Z.setbit_spec'. apply Z.lor_nonneg. lia.
    + rewrite Z.clearbit_spec'. apply Z.ldiff_nonneg. lia.
  - intros i Hi. rewrite testbit_update by lia. replace (j =? i) with false by lia.
    by apply (testbit_out 8).
Qed.

Lemma reference_bit_array_spec : @BitArraySpec reference_bit_array.
Proof.
  split; simpl; intros bs i.
  - intros Hbs Hi. destruct (byte_of_bit bs i) as (b & Hb & _); [done..|].
    by rewrite testbit_from_le_bytes, Hb by (done || lia).
  - intros v Hbs Hi. destruct (byte_of_bit bs i) as (b & Hb & Hbb & Hlt & Hi8); [done..|].
    rewrite Hb. simpl. eexists. split; [done|]. rewrite length_insert.
    pose proof (Z.mod_pos_bound i 8 ltac:(lia)) as Him.
    pose proof (byte_update b (i mod 8) v Hbb Him) as Hnew.
    split_and!; [done|by apply Forall_insert|]. apply Z.bits_inj'. intros k Hk.
    pose proof (Z.mod_pos_bound k 8 ltac:(lia)).
    rewrite testbit_insert_byte, Hi8 by done. rewrite (testbit_update (from_le_bytes bs)) by lia.
    destruct (Z.eqb_spec (k / 8) (i / 8)) as [E|E].
    + rewrite testbit_update by lia. rewrite (testbit_from_le_bytes bs), E, Hb by done.
      destruct (Z.eqb_spec i k) as [->|Hne]; [by rewrite Z.eqb_refl|].
      destruct (Z.eqb_spec (i mod 8) (k mod 8)); [|done]. exfalso. by apply Hne, div_mod_8.
    + destruct (Z.eqb_spec i k) as [<-|]; done.
Qed.

Definition reference_bit_flags : BitFlags := {|
  from_bits_truncate := fun all bits => Z.land bits all;
  flags_contain := fun f o => Z.land f o =? o;
  flags_intersect := fun f o => negb (Z.land f o =? 0);
  flags_union := Z.lor;
|}.

Lemma reference_bit_flags_spec : @BitFlagsSpec reference_bit_flags.
Proof. by split. Qed.

(** ** [unicode_xid]: the characters of identifiers (Unicode annex 31)

    Characters are code points.  The laws give the classes of the ASCII
    characters and that every start character continues an identifier. *)

Class UnicodeXID := {
  is_xid_start : Z -> bool;
  is_xid_continue : Z -> bool;
}.

Definition ascii_letter (c : Z) : bool :=
  ((65 <=? c) && (c <=? 90)) || ((97 <=? c) && (c <=? 122)).
Definition ascii_digit (c : Z) : bool := (48 <=? c) && (c <=? 57).

Class UnicodeXIDSpec `{UnicodeXID} : Prop := {
  xid_start_ascii : forall c, 0 <= c < 128 -> is_xid_start c = ascii_letter c;
  xid_continue_ascii : forall c, 0 <= c < 128 ->
    is_xid_continue c = ascii_letter c || ascii_digit c || (c =? 95);
  xid_start_continue : forall c, is_xid_start c = true -> is_xid_continue c = true;
}.

Definition reference_xid : UnicodeXID := {|
  is_xid_start := ascii_letter;
  is_xid_continue := fun c => ascii_letter c || ascii_digit c || (c =? 95);
|}.

Lemma reference_xid_spec : @UnicodeXIDSpec reference_xid.
Proof. split; simpl; [done..|]. by intros c ->. Qed.

(** ** [arrayvec::ArrayVec]: a vector in an array of [cap] elements

    The vector is the list of its elements.  Adding to a full vector and
    collecting more elements than fit panic. *)

Class ArrayVec := {
  array_push : forall {A : Type}, nat -> list A -> A -> outcome (list A);
  array_collect : forall {A : Type}, nat -> list A -> outcome (list A);
}.

Class ArrayVecSpec `{ArrayVec} : Prop := {
  array_push_in : forall A cap (l : list A) x,
    (length l < cap)%nat -> array_push cap l x = Val (l ++ [x]);
  array_push_full : forall A cap (l : list A) x, (cap <= length l)%nat -> array_push cap l x = Panic;
  array_collect_in : forall A cap (l : list A), (length l <= cap)%nat -> array_collect cap l = Val l;
  array_collect_full : forall A cap (l : list A), (cap < length l)%nat -> array_collect cap l = Panic;
}.

Definition reference_array_vec : ArrayVec := {|
  array_push := fun A cap l x => if (length l <? cap)%nat then Val (l ++ [x]) else Panic;
  array_collect := fun A cap l => if (length l <=? cap)%nat then Val l else Panic;
|}.

Lemma reference_array_vec_spec : @ArrayVecSpec reference_array_vec.
Proof.
  split; simpl; intros A cap l.
  - intros x Hl. by destruct (Nat.ltb_spec (length l) cap); [|lia].
  - intros x Hl. by destruct (Nat.ltb_spec (length l) cap); [lia|].
  - intros Hl. by destruct (Nat.leb_spec (length l) cap); [|lia].
  - intros Hl. by destruct (Nat.leb_spec (length l) cap); [lia|].
Qed.

(** ** [mycelium_bitfield]: fields of an integer, from the least significant bit up

    [get_field lo n x] is the field of [n] bits behind [lo] bits of other fields;
    [set_field] ([with]) replaces it and panics if the value does not fit. *)

Class Bitfield := {
  get_field : Z -> Z -> Z -> Z;
  set_field : Z -> Z -> Z -> Z -> outcome Z;
}.

Class BitfieldSpec `{Bitfield} : Prop := {
  get_field_eq : forall lo n x, 0 <= lo -> 0 <= n -> 0 <= x -> get_field lo n x = (x ≫ lo) mod 2 ^ n;
  set_field_eq : forall lo n x v, 0 <= lo -> 0 <= n -> 0 <= x ->
    set_field lo n x v = if (0 <=? v) && (v <? 2 ^ n) then Val (x + (v - (x ≫ lo) mod 2 ^ n) * 2 ^ lo) else Panic;
}.

Definition reference_bitfield : Bitfield := {|
  get_field := fun lo n x => (x ≫ lo) mod 2 ^ n;
  set_field := fun lo n x v =>
    rassert ((0 <=? v) && (v <? 2 ^ n)) ;; mret (x + (v - (x ≫ lo) mod 2 ^ n) * 2 ^ lo);
|}.

Lemma reference_bitfield_spec : @BitfieldSpec reference_bitfield.
Proof. split; [done|]. intros lo n x v _ _ _. simpl. by destruct (_ && _). Qed.

Section fields.
Context `{BitfieldSpec}.

(** A field that was set, and the fields beside it. *)
Lemma field_split lo n x :
  0 <= lo -> 0 <= n -> 0 <= x ->
  x = x mod 2 ^ lo + (x ≫ lo) mod 2 ^ n * 2 ^ lo + x ≫ (lo + n) * 2 ^ (lo + n).
Proof.
  intros Hlo Hn Hx. rewrite !Z.shiftr_div_pow2 by lia. rewrite Z.pow_add_r by lia.
  pose proof (pow2_pos lo ltac:(lia)). pose proof (pow2_pos n ltac:(lia)).
  rewrite <- Z.div_div by lia.
  rewrite (Z.div_mod x (2 ^ lo)) at 1 by lia. rewrite (Z.div_mod (x / 2 ^ lo) (2 ^ n)) at 1 by lia. lia.
Qed.

Lemma set_field_Val lo n x v y :
  0 <= lo -> 0 <= n -> 0 <= x -> set_field lo n x v = Val y ->
  0 <= v < 2 ^ n /\ 0 <= y /\ y = x mod 2 ^ lo + (v + x ≫ (lo + n) * 2 ^ n) * 2 ^ lo.
Proof.
  intros Hlo Hn Hx E. rewrite set_field_eq in E by done. destruct (_ && _) eqn:Hv; [|done]. injection E as <-.
  pose proof (field_split lo n x Hlo Hn Hx) as Hsplit. pose proof (pow2_pos lo Hlo). pose proof (pow2_pos n Hn).
  pose proof (Z.mod_pos_bound x (2 ^ lo) ltac:(lia)).
  assert (0 <= x ≫ (lo + n)) by (by apply Z.shiftr_nonneg).
  rewrite Z.pow_add_r in Hsplit by lia. split; [lia|]. split; nia.
Qed.

Lemma get_set_same lo n x v y :
  0 <= lo -> 0 <= n -> 0 <= x -> set_field lo n x v = Val y -> get_field lo n y = v.
Proof.
  intros Hlo Hn Hx E. destruct (set_field_Val lo n x v y Hlo Hn Hx E) as (Hv & Hy & Ey).
  pose proof (pow2_pos lo Hlo). pose proof (pow2_pos n Hn). pose proof (Z.mod_pos_bound x (2 ^ lo) ltac:(lia)).
  rewrite get_field_eq, Z.shiftr_div_pow2 by done. rewrite Ey, Z.div_add, Z.div_small by lia.
  rewrite Z.add_0_l, Z.mod_add by lia. by apply Z.mod_small.
Qed.

Lemma get_set_other lo n x v y lo' n' :
  0 <= lo -> 0 <= n -> 0 <= x -> 0 <= lo' -> 0 <= n' -> lo' + n' <= lo \/ lo + n <= lo' ->
  set_field lo n x v = Val y -> get_field lo' n' y = get_field lo' n' x.
Proof.
  intros Hlo Hn Hx Hlo' Hn' Hdis E. destruct (set_field_Val lo n x v y Hlo Hn Hx E) as (Hv & Hy & Ey).
  pose proof (pow2_pos lo Hlo). pose proof (pow2_pos n Hn). pose proof (Z.mod_pos_bound x (2 ^ lo) ltac:(lia)).
  rewrite !get_field_eq by done. destruct Hdis as [Hle|Hle].
  - apply Z.bits_inj'. intros k Hk. destruct (Z_lt_le_dec k n') as [Hlt|Hge].
    + rewrite !Z.mod_pow2_bits_low, !Z.shiftr_spec by lia. rewrite Ey.
      rewrite <- (Z.mod_pow2_bits_low (_ + _) lo) by lia. rewrite Z.mod_add by lia. rewrite Z.mod_mod by lia.
      rewrite Z.mod_pow2_bits_low by lia. done.
    + rewrite !Z.mod_pow2_bits_high by lia. done.
  - f_equal. replace lo' with ((lo + n) + (lo' - (lo + n))) by lia.
    rewrite <- (Z.shiftr_shiftr y (lo + n)), <- (Z.shiftr_shiftr x (lo + n)) by lia. f_equal.
    assert (y / 2 ^ lo = v + x ≫ (lo + n) * 2 ^ n) as Hd.
    { rewrite Ey, Z.div_add, Z.div_small by lia. lia. }
    rewrite (Z.shiftr_div_pow2 y), Z.pow_add_r, <- Z.div_div by lia. rewrite Hd, Z.div_add, Z.div_small by lia. lia.
Qed.

End fields.
