(* ===== verification/Bitmap.v ===== *)
(** * [lib/mulch/src/bitmap.rs]: an integer as a set of allocated slots

    [Bitmap] for the unsigned integers: [w] is the width of the type.  The bits
    are accessed with the third-party [bit_field] crate. *)

From stdpp Require Import base tactics option list numbers.
From S2P Require Import Prelude Bytes Crates.

Section code.
Context `{BitField}.

(** [<<] panics when the shift is not below the width. *)
Definition shl (w x n : Z) : outcome Z :=
  rassert ((0 <=? n) && (n <? w)) ;; mret ((x ≪ n) mod 2 ^ w).

(** [(Self::one() << n) - Self::one()]. *)
Definition mask (w n : Z) : outcome Z := t ← shl w 1 n; wsub w t 1.

(** The loop of [alloc] over the indices left. *)
Fixpoint find_run (w x n msk : Z) (idx : list Z) : outcome (option Z * Z) :=
  match idx with
  | [] => mret (None, x)
  | i :: idx =>
      e ← uadd i n;
      bits ← get_bits w x i e;
      if Z.land bits msk =? 0 then
        x' ← set_bits w x i e msk;
        mret (Some i, x')
      else find_run w x n msk idx
  end.

Definition alloc (w x n : Z) : outcome (option Z * Z) :=
  msk ← mask w n;
  limit ← usub w n;
  find_run w x n msk (seqZ 0 limit).

Definition free (w x index n : Z) : outcome Z :=
  e ← uadd index n;
  bits ← get_bits w x index e;
  msk ← mask w n;
  rassert (bits =? msk) ;;
  set_bits w x index e 0.

End code.

(** ** Correctness *)

(** The run of [n] bits from [i] is clear. *)
Definition clear (x i n : Z) : Prop := forall j, i <= j < i + n -> Z.testbit x j = false.

(** The integer with exactly these bits set as well. *)
Definition with_run (x i n : Z) : Z := Z.lor x (Z.ones n ≪ i).

Section correctness.
Context `{BitFieldSpec} (w n : Z) (Hw : 0 < w <= 128) (Hn : 0 < n < w).

Lemma mask_eq : mask w n = Val (Z.ones n).
Proof.
  unfold mask, shl. replace ((0 <=? n) && (n <? w)) with true by lia. obind.
  assert (2 ^ n < 2 ^ w) by (apply Z.pow_lt_mono_r; lia). pose proof (pow2_pos n ltac:(lia)).
  rewrite Z.shiftl_1_l, Z.mod_small by lia. rewrite wsub_in by (unfold is_unsigned; lia).
  by rewrite Z.ones_equiv.
Qed.

Lemma field_bits x i : 0 <= i -> (x / 2 ^ i) mod 2 ^ n = Z.land (x ≫ i) (Z.ones n).
Proof. intros Hi. by rewrite Z.land_ones, Z.shiftr_div_pow2 by lia. Qed.

Lemma field_clear x i : 0 <= i -> Z.land ((x / 2 ^ i) mod 2 ^ n) (Z.ones n) = 0 <-> clear x i n.
Proof.
  intros Hi. rewrite field_bits by done. rewrite <- Z.land_assoc, Z.land_diag. split.
  - intros E j Hj. assert (Z.testbit (Z.land (x ≫ i) (Z.ones n)) (j - i) = false) as Hb by (by rewrite E, Z.bits_0).
    rewrite Z.land_spec, Z.shiftr_spec, Z.ones_spec_low, andb_true_r in Hb by lia.
    by replace (j - i + i) with j in Hb by lia.
  - intros Hc. apply Z.bits_inj'. intros j Hj. rewrite Z.bits_0, Z.land_spec, Z.shiftr_spec by done.
    destruct (decide (j < n)); [rewrite Hc by lia; done|]. by rewrite Z.ones_spec_high, andb_false_r by lia.
Qed.

Lemma testbit_run i j : 0 <= i -> 0 <= j -> Z.testbit (Z.ones n ≪ i) j = (i <=? j) && (j <? i + n).
Proof.
  intros Hi Hj. rewrite Z.shiftl_spec by done. destruct (Z.leb_spec i j).
  - destruct (Z.ltb_spec j (i + n)); [by rewrite Z.ones_spec_low by lia|by rewrite Z.ones_spec_high by lia].
  - by rewrite Z.testbit_neg_r by lia.
Qed.

Lemma with_run_add x i : 0 <= i -> clear x i n -> with_run x i n = x + Z.ones n * 2 ^ i.
Proof.
  intros Hi Hc. assert (Z.land x (Z.ones n ≪ i) = 0) as Hdisj.
  { apply Z.bits_inj'. intros j Hj. rewrite Z.land_spec, testbit_run, Z.bits_0 by done.
    destruct (decide (i <= j < i + n)); [by rewrite Hc|].
    replace ((i <=? j) && (j <? i + n)) with false by lia. apply andb_false_r. }
  unfold with_run. rewrite <- Z.lxor_lor, <- Z.add_nocarry_lxor by done. by rewrite Z.shiftl_mul_pow2.
Qed.

(** Setting a clear run adds its bits. *)
Lemma set_clear x i :
  is_unsigned w x -> 0 <= i -> i + n <= w -> clear x i n ->
  set_bits w x i (i + n) (Z.ones n) = Val (with_run x i n) /\ is_unsigned w (with_run x i n).
Proof.
  intros Hx Hi Hin Hc. assert ((x / 2 ^ i) mod 2 ^ n = 0) as Hz.
  { rewrite field_bits by done. apply (field_clear x i) in Hc; [|done]. rewrite field_bits in Hc by done.
    by rewrite <- Z.land_assoc, Z.land_diag in Hc. }
  pose proof (pow2_pos n ltac:(lia)). split.
  - rewrite set_bits_in; [|done|lia|lia|].
    + replace (i + n - i) with n by lia. rewrite Hz. f_equal. rewrite with_run_add by done. lia.
    + replace (i + n - i) with n by lia. unfold is_unsigned. rewrite Z.ones_equiv. lia.
  - apply unsigned_of_bits; [lia| |].
    + apply Z.lor_nonneg. destruct Hx. split; [lia|]. apply Z.shiftl_nonneg. rewrite Z.ones_equiv. lia.
    + intros j Hj. unfold with_run. rewrite Z.lor_spec, testbit_run by lia.
      rewrite (testbit_out w x) by (done || lia). lia.
Qed.

(** The run [alloc] takes: the first clear one, except that the run ending at the
    top bit is never tried. *)
Definition alloc_post (x : Z) (res : option Z * Z) : Prop :=
  match res with
  | (Some i, x') => 0 <= i < w - n /\ clear x i n /\ (forall k, 0 <= k < i -> ~ clear x k n) /\
      x' = with_run x i n /\ is_unsigned w x'
  | (None, x') => x' = x /\ forall k, 0 <= k < w - n -> ~ clear x k n
  end.

Lemma find_run_spec x m : forall i,
  is_unsigned w x -> 0 <= i -> i + Z.of_nat m = w - n -> (forall k, 0 <= k < i -> ~ clear x k n) ->
  find_run w x n (Z.ones n) (seqZ i (Z.of_nat m)) ⇓ alloc_post x.
Proof.
  induction m as [|m IH]; intros i Hx Hi Hm Hbefore.
  { split; [done|]. intros k Hk. apply Hbefore. lia. }
  rewrite seqZ_cons by lia. cbn [find_run]. rewrite wadd_in by (unfold is_unsigned; lia). obind.
  rewrite get_bits_in by (done || lia). obind. replace (i + n - i) with n by lia.
  destruct (Z.eqb_spec (Z.land ((x / 2 ^ i) mod 2 ^ n) (Z.ones n)) 0) as [Hz|Hz].
  - apply field_clear in Hz; [|done]. destruct (set_clear x i Hx Hi ltac:(lia) Hz) as [-> Hu]. obind.
    split_and!; (done || lia).
  - replace (Z.pred (Z.of_nat (S m))) with (Z.of_nat m) by lia. apply IH; [done|lia|lia|].
    intros k Hk. destruct (decide (k = i)) as [->|]; [|apply Hbefore; lia]. by rewrite <- field_clear.
Qed.

Lemma alloc_spec x : is_unsigned w x -> alloc w x n ⇓ alloc_post x.
Proof.
  intros Hx. unfold alloc. rewrite mask_eq. obind. rewrite wsub_in by (unfold is_unsigned; lia). obind.
  replace (w - n) with (Z.of_nat (Z.to_nat (w - n))) by lia. apply find_run_spec; [done|lia|lia|lia].
Qed.

(** Freeing a run that was allocated from a clear one restores the bitmap. *)
Lemma free_with_run x i :
  is_unsigned w x -> 0 <= i -> i + n <= w -> clear x i n -> free w (with_run x i n) i n = Val x.
Proof.
  intros Hx Hi Hin Hc. destruct (set_clear x i Hx Hi Hin Hc) as [_ Hu]. unfold free.
  rewrite wadd_in by (unfold is_unsigned; lia). obind.
  assert ((with_run x i n / 2 ^ i) mod 2 ^ (i + n - i) = Z.ones n) as Hf.
  { replace (i + n - i) with n by lia. rewrite field_bits by done. apply Z.bits_inj'. intros j Hj.
    rewrite Z.land_spec, Z.shiftr_spec by done. unfold with_run. rewrite Z.lor_spec, testbit_run by lia.
    destruct (Z.ltb_spec j n).
    - rewrite Z.ones_spec_low by lia. replace ((i <=? j + i) && (j + i <? i + n)) with true by lia.
      by rewrite orb_true_r.
    - by rewrite Z.ones_spec_high, andb_false_r by lia. }
  rewrite get_bits_in, Hf by (done || lia). obind. rewrite mask_eq. obind. rewrite Z.eqb_refl. obind.
  rewrite set_bits_in, Hf by (done || (unfold is_unsigned; lia)). f_equal. rewrite with_run_add by done. lia.
Qed.

End correctness.
