(* ===== verification/PageTable.v ===== *)
(** * Page tables, independent of the entry format

    The three page-table implementations of the repository (RISC-V Sv48 and
    Sv39, x86_64) share their structure: tables of 512 entries linked by
    physical addresses, reached through the direct map at [physical_base].
    [EntryFormat] is what the code asks of an architecture's [Entry];
    [EntryFormatSpec] are its laws, which [RiscvPaging] and [X86Paging]
    discharge.  This file has the shared operations ([next_table],
    [next_table_create] and the walk they make), the meaning of a set of tables
    ([leaf_of], the walk the hardware makes) and the effect of the operations on
    that meaning. *)

From stdpp Require Import base tactics option list numbers gmap sets.
From S2P Require Import Prelude Memory FrameAllocator.

Definition ENTRY_COUNT : Z := 512.

(** ** Machine state: the 64-bit words of memory, by virtual address, and the
    pages whose translations have been invalidated, latest first *)

Record Machine := mkMachine { words : gmap Z Z; flushed : list Z }.

Definition word (m : Machine) (t i : Z) : Z := default 0 (words m !! (t + 8 * i)).

Definition put_word (m : Machine) (t i w : Z) : Machine :=
  mkMachine (<[t + 8 * i := w]> (words m)) (flushed m).

(** [sfence_vma(None, Some(addr))] and [tlb::invalidate_page(addr)]. *)
Definition flush_page (m : Machine) (addr : Z) : Machine :=
  mkMachine (words m) (addr :: flushed m).

(** [&self.entries[index]], [self.entries[index] = e]: bounds-checked. *)
Definition table_index (m : Machine) (t i : Z) : outcome Z :=
  rassert (i <? ENTRY_COUNT) ;; mret (word m t i).
Definition table_index_set (m : Machine) (t i e : Z) : outcome Machine :=
  rassert (i <? ENTRY_COUNT) ;; mret (put_word m t i e).

(** ** What the walk needs of an architecture's [Entry] *)

Class EntryFormat := {
  (** [Entry::address]. *)
  entry_address : Z -> outcome (option Z);
  (** The test for a huge page mapped where a table is expected. *)
  entry_is_leaf : Z -> bool;
  (** The test for an entry that cannot be mapped over. *)
  entry_in_use : Z -> bool;
  (** [Entry::set(None)]. *)
  entry_empty : Z;
  (** [Entry::set] for the next table, and for a mapping of the given size. *)
  entry_for_table : Z -> Z;
  entry_for_frame : FrameSize -> Z -> Flags -> Z;
}.

Section operations.
Context `{EntryFormat} {A : Type} `{FrameAllocator A} (tgt : target) (physical_base : Z).

(** [Table::zero]. *)
Definition zero (m : Machine) (t : Z) : Machine :=
  foldl (fun m i => put_word m t i entry_empty) m (seqZ 0 ENTRY_COUNT).

(** [Table::next_table] and [Table::next_table_mut]. *)
Definition next_table (m : Machine) (t index : Z) : outcome (option Z) :=
  e ← table_index m t index;
  address ← entry_address e;
  match address with
  | None => mret None
  | Some physical_address =>
      v ← VAddr.add tgt physical_base physical_address; mret (Some v)
  end.

Definition next_table_create (ma : Machine * A) (t index : Z) :
    outcome (result Z PagingError * (Machine * A)) :=
  let '(m, a) := ma in
  nt ← next_table m t index;
  match nt with
  | None =>
      '(frame, a') ← allocate Size4KiB a;
      m1 ← table_index_set m t index (entry_for_table (frame_start frame));
      nt' ← next_table m1 t index;
      table ← unwrap nt';
      mret (Ok table, (zero m1 table, a'))
  | Some _ =>
      e ← table_index m t index;
      if entry_is_leaf e then mret (Err AlreadyMapped, (m, a))
      else
        nt' ← next_table m t index;
        table ← unwrap nt';
        mret (Ok table, (m, a))
  end.

(** [t.next_table_create(i)?.next_table_create(j)?...] along the indices. *)
Fixpoint create_path (ma : Machine * A) (t : Z) (path : list Z) :
    outcome (result Z PagingError * (Machine * A)) :=
  match path with
  | [] => mret (Ok t, ma)
  | i :: rest =>
      '(r, ma') ← next_table_create ma t i;
      match r with
      | Ok t' => create_path ma' t' rest
      | Err e => mret (Err e, ma')
      end
  end.

(** The body of each branch of [map]: walk, refuse a used entry, write it. *)
Definition map_path (ma : Machine * A) (t : Z) (path : list Z) (last : Z) (entry : Z) :
    outcome (result unit PagingError * (Machine * A)) :=
  '(r, (m, a)) ← create_path ma t path;
  match r with
  | Err e => mret (Err e, (m, a))
  | Ok table =>
      e ← table_index m table last;
      if entry_in_use e then mret (Err AlreadyMapped, (m, a))
      else
        m' ← table_index_set m table last entry;
        mret (Ok tt, (m', a))
  end.

(** [t.next_table_mut(i)?.next_table_mut(j)?...]. *)
Fixpoint next_path (m : Machine) (t : Z) (path : list Z) : outcome (option Z) :=
  match path with
  | [] => mret (Some t)
  | i :: rest =>
      nt ← next_table m t i;
      match nt with
      | Some t' => next_path m t' rest
      | None => mret None
      end
  end.

(** [translate]: the walk down [path] to a P2, a 2MiB leaf there, or a P1. *)
Definition translate_path (m : Machine) (t : Z) (path : list Z) (i2 i1 v : Z) :
    outcome (option Z) :=
  p2 ← next_path m t path;
  match p2 with
  | None => mret None
  | Some p2 =>
      p2_entry ← table_index m p2 i2;
      if entry_is_leaf p2_entry then
        address ← entry_address p2_entry;
        match address with
        | None => mret None
        | Some a => o ← urem v (SIZE Size2MiB); r ← PAddr.add tgt a o; mret (Some r)
        end
      else
        p1 ← next_table m p2 i2;
        match p1 with
        | None => mret None
        | Some p1 =>
            p1_entry ← table_index m p1 i1;
            address ← entry_address p1_entry;
            match address with
            | None => mret None
            | Some a => o ← urem v (SIZE Size4KiB); r ← PAddr.add tgt a o; mret (Some r)
            end
        end
  end.

(** The body of [unmap] for a 4KiB page. *)
Definition unmap_path (m : Machine) (t : Z) (path : list Z) (last page : Z) :
    outcome (option (Frame Size4KiB) * Machine) :=
  p1 ← next_path m t path;
  match p1 with
  | None => mret (None, m)
  | Some p1 =>
      e ← table_index m p1 last;
      address ← entry_address e;
      match address with
      | None => mret (None, m)
      | Some a =>
          frame ← Frame.starts_with a;
          m' ← table_index_set m p1 last entry_empty;
          mret (Some frame, flush_page m' page)
      end
  end.

End operations.

(** ** The laws of an entry format

    [elim] bounds the physical addresses an entry can hold. *)

Class EntryFormatSpec `{EntryFormat} (elim : Z) : Prop := {
  ef_total e : is_unsigned 64 e -> exists o, entry_address e = Val o;
  ef_addr e pa : is_unsigned 64 e -> entry_address e = Val (Some pa) ->
    (4096 | pa) /\ 0 <= pa < elim;
  ef_empty : entry_address entry_empty = Val None /\ is_unsigned 64 entry_empty;
  ef_unused e : is_unsigned 64 e -> entry_in_use e = false -> entry_address e = Val None;
  ef_table pa : 0 <= pa < elim -> (4096 | pa) ->
    entry_address (entry_for_table pa) = Val (Some pa) /\
    entry_is_leaf (entry_for_table pa) = false /\ is_unsigned 64 (entry_for_table pa);
  ef_frame s pa fl : 0 <= pa < elim -> (4096 | pa) ->
    entry_address (entry_for_frame s pa fl) = Val (Some pa) /\
    (s <> Size4KiB -> entry_is_leaf (entry_for_frame s pa fl) = true) /\
    is_unsigned 64 (entry_for_frame s pa fl);
}.

(** ** Words and tables *)

Lemma word_put m t i w t' j :
  word (put_word m t i w) t' j = if decide (t + 8 * i = t' + 8 * j) then w else word m t' j.
Proof. unfold word, put_word. simpl. rewrite lookup_insert. by case_decide. Qed.

Lemma word_flush m p t i : word (flush_page m p) t i = word m t i.
Proof. done. Qed.

Definition words_ok (m : Machine) : Prop := forall t i, is_unsigned 64 (word m t i).

Lemma words_ok_put m t i w : words_ok m -> is_unsigned 64 w -> words_ok (put_word m t i w).
Proof. intros Hm Hw t' j. rewrite word_put. by case_decide. Qed.

Section zero.
Context `{EntryFormat}.

Lemma word_foldl_zero t l : forall m t' j,
  let m' := foldl (fun m i => put_word m t i entry_empty) m l in
  ((exists i, i ∈ l /\ t + 8 * i = t' + 8 * j) /\ word m' t' j = entry_empty) \/
  ((forall i, i ∈ l -> t + 8 * i <> t' + 8 * j) /\ word m' t' j = word m t' j).
Proof.
  induction l as [|i l IH]; intros m t' j; simpl.
  - right. set_solver.
  - destruct (IH (put_word m t i entry_empty) t' j) as [[(k & Hk & E) ->]|[Hn ->]].
    + left. split; [exists k; set_solver|done].
    + rewrite word_put. case_decide; [left; set_solver|right; set_solver].
Qed.

Lemma word_zero m t t' j :
  ((exists i, 0 <= i < 512 /\ t + 8 * i = t' + 8 * j) /\ word (zero m t) t' j = entry_empty) \/
  ((forall i, 0 <= i < 512 -> t + 8 * i <> t' + 8 * j) /\ word (zero m t) t' j = word m t' j).
Proof.
  destruct (word_foldl_zero t (seqZ 0 ENTRY_COUNT) m t' j) as [[(i & Hi & E) Hw]|[Hn Hw]].
  - apply elem_of_seqZ in Hi. left. split; [|exact Hw]. exists i. unfold ENTRY_COUNT in Hi. lia.
  - right. split; [|exact Hw]. intros i Hi. apply Hn, elem_of_seqZ. unfold ENTRY_COUNT. lia.
Qed.

Lemma words_ok_zero m t : words_ok m -> is_unsigned 64 entry_empty -> words_ok (zero m t).
Proof. intros Hm He t' j. by destruct (word_zero m t t' j) as [[_ ->]|[_ ->]]. Qed.

End zero.

(** ** The tree of tables and its meaning *)

Section meaning.
Context `{EntryFormat} (physical_base : Z).

(** The table that entry [i] of table [t] links to. *)
Definition child (m : Machine) (t i : Z) : option Z :=
  match entry_address (word m t i) with
  | Val (Some pa) => if entry_is_leaf (word m t i) then None else Some (physical_base + pa)
  | _ => None
  end.

Fixpoint walk (m : Machine) (t : Z) (path : list Z) : option Z :=
  match path with
  | [] => Some t
  | i :: rest => match child m t i with Some t' => walk m t' rest | None => None end
  end.

(** The entry that translates the addresses with these indices, with the number
    of levels below it: the last level's entries and the leaves above it map
    memory, the others link to tables. *)
Fixpoint leaf_of (m : Machine) (t : Z) (idx : list Z) : option (Z * nat) :=
  match idx with
  | [] => None
  | i :: rest =>
      match entry_address (word m t i) with
      | Val (Some pa) =>
          if (match rest with [] => true | _ => entry_is_leaf (word m t i) end)
          then Some (word m t i, length rest)
          else leaf_of m (physical_base + pa) rest
      | _ => None
      end
  end.

Definition index_ok (i : Z) : Prop := 0 <= i < 512.

Lemma walk_app m p : forall t q,
  walk m t (p ++ q) = t' ← walk m t p; walk m t' q.
Proof.
  induction p as [|i p IH]; intros t q; simpl; [done|]. by destruct (child m t i).
Qed.

Lemma walk_snoc m t p i : walk m t (p ++ [i]) = t' ← walk m t p; child m t' i.
Proof. rewrite walk_app. destruct (walk m t p); simpl; [|done]. by destruct (child _ _ _). Qed.

Lemma child_leaf_of m t i rest t' :
  child m t i = Some t' -> rest <> [] -> leaf_of m t (i :: rest) = leaf_of m t' rest.
Proof.
  unfold child. simpl. intros Hc Hr.
  destruct (entry_address _) as [[pa|]|]; try done.
  destruct (entry_is_leaf _); [done|]. injection Hc as <-. by destruct rest.
Qed.

Lemma leaf_of_app m p : forall t t' q,
  walk m t p = Some t' -> q <> [] -> leaf_of m t (p ++ q) = leaf_of m t' q.
Proof.
  induction p as [|i p IH]; intros t t' q Hw Hq; simpl app.
  - by injection Hw as ->.
  - simpl in Hw. destruct (child m t i) as [c|] eqn:Hc; [|done].
    rewrite (child_leaf_of _ _ _ _ _ Hc) by (destruct p; done). by apply IH.
Qed.

(** A translation through the last level passes through a table. *)
Lemma leaf_of_walk m path : forall t last e,
  leaf_of m t (path ++ [last]) = Some (e, O) ->
  exists T pa, walk m t path = Some T /\ e = word m T last /\ entry_address e = Val (Some pa).
Proof.
  induction path as [|i path IH]; intros t last e Hl; simpl in Hl.
  - destruct (entry_address (word m t last)) as [[pa|]|] eqn:Ha; try done.
    injection Hl as <-. exists t, pa. done.
  - destruct (entry_address (word m t i)) as [[pa|]|] eqn:Ha; try done.
    simpl. unfold child. rewrite Ha. destruct (path ++ [last]) as [|j r] eqn:Ep; [by destruct path|].
    destruct (entry_is_leaf (word m t i)) eqn:El; [by injection Hl|].
    rewrite <- Ep in Hl. by apply IH.
Qed.

(** The entry a translation ends at is a word of memory that holds an address. *)
Lemma leaf_of_entry m idx : forall t e n,
  leaf_of m t idx = Some (e, n) ->
  exists T i pa, e = word m T i /\ entry_address e = Val (Some pa).
Proof.
  induction idx as [|i idx IH]; intros t e n Hl; simpl in Hl; [done|].
  destruct (entry_address (word m t i)) as [[pa|]|] eqn:Ha; try done.
  destruct (match idx with [] => true | _ => entry_is_leaf (word m t i) end); [|by eapply IH].
  injection Hl as <- <-. by exists t, i, pa.
Qed.

(** Invalidating a translation leaves the tables as they are. *)
Lemma walk_flush m addr path : forall t, walk (flush_page m addr) t path = walk m t path.
Proof.
  induction path as [|i path IH]; intros t; simpl; [done|].
  unfold child. rewrite word_flush. destruct (entry_address _) as [[pa|]|]; try done.
  by destruct (entry_is_leaf _).
Qed.

Lemma leaf_of_flush m addr idx : forall t, leaf_of (flush_page m addr) t idx = leaf_of m t idx.
Proof.
  induction idx as [|i idx IH]; intros t; simpl; [done|].
  rewrite word_flush. destruct (entry_address _) as [[pa|]|]; try done. by rewrite IH.
Qed.

(** Two machines that agree on the words along a path have the same walk. *)
Lemma walk_agree m m' L root (X : list Z -> Prop) :
  (forall path t j, Forall index_ok path -> (length path < L)%nat ->
     walk m root path = Some t -> index_ok j -> ~ X (path ++ [j]) ->
     word m' t j = word m t j) ->
  forall idx q t, Forall index_ok q -> Forall index_ok idx ->
    walk m root q = Some t -> (length q + length idx <= L)%nat ->
    (forall pr, pr <> [] -> pr `prefix_of` idx -> ~ X (q ++ pr)) ->
    walk m' t idx = walk m t idx /\ leaf_of m' t idx = leaf_of m t idx.
Proof.
  intros Hag. induction idx as [|j idx IH]; intros q t Hq Hidx Hw HL HX; [done|].
  apply Forall_cons in Hidx as [Hj Hidx]. simpl in HL.
  assert (word m' t j = word m t j) as Ew.
  { apply (Hag q t j Hq); [lia|done|done|].
    apply HX; [done|]. apply prefix_cons, prefix_nil. }
  assert (child m' t j = child m t j) as Ec by (unfold child; by rewrite Ew).
  assert (forall c, child m t j = Some c ->
    walk m' c idx = walk m c idx /\ leaf_of m' c idx = leaf_of m c idx) as Hrec.
  { intros c Hc. apply (IH (q ++ [j]) c).
    - by apply Forall_app_2; [|apply Forall_singleton].
    - done.
    - by rewrite walk_snoc, Hw.
    - rewrite length_app. simpl. lia.
    - intros pr Hpr Hpre. rewrite <- app_assoc. apply HX; [done|]. by apply prefix_cons. }
  simpl. rewrite Ec. split.
  - destruct (child m t j) as [c|] eqn:Hc; [|done]. by apply Hrec.
  - rewrite Ew. unfold child in Hrec.
    destruct (entry_address (word m t j)) as [[pa|]|]; try done.
    destruct idx as [|k idx]; [done|].
    destruct (entry_is_leaf (word m t j)); [done|]. by apply Hrec.
Qed.

End meaning.

(** ** Correctness of the operations *)

Section correctness.
Context `{EF : EntryFormat} {elim : Z} `{!EntryFormatSpec elim}.
Context (tgt : target) {A : Type} `{FA : FrameAllocator A} `{!FrameAllocatorSpec tgt A}.

(** Physical memory up to [lim] is visible at [physical_base]; a set of tables
    has [L] levels below the root. *)
Context (physical_base lim : Z) (L : nat).
Context (Hdirect : forall pa, 0 <= pa < lim -> vaddr_canonical tgt (physical_base + pa)).
Context (Hlim : lim <= elim).

Abbreviation walk := (walk physical_base).
Abbreviation child := (child physical_base).
Abbreviation leaf_of := (leaf_of physical_base).

(** A frame used as a table: inside the direct map, and not the allocator's. *)
Definition table_ok (a : A) (t : Z) : Prop :=
  exists pa, t = physical_base + pa /\ 0 <= pa /\ pa + 4096 <= lim /\ (4096 | pa) /\
    forall x, pa <= x < pa + 4096 -> ~ fa_owns a x.

(** The tables form a tree of distinct frames, none of them free. *)
Record pt_wf (m : Machine) (a : A) (root : Z) : Prop := {
  pt_words : words_ok m;
  pt_alloc : fa_inv a;
  pt_alloc_lim : forall x, fa_owns a x -> x < lim;
  pt_tables : forall path t, Forall index_ok path -> (length path < L)%nat ->
    walk m root path = Some t -> table_ok a t;
  pt_tree : forall p1 p2 t, Forall index_ok p1 -> Forall index_ok p2 ->
    (length p1 < L)%nat -> (length p2 < L)%nat ->
    walk m root p1 = Some t -> walk m root p2 = Some t -> p1 = p2;
  (** Adding [physical_base] to an address held by an entry does not overflow. *)
  pt_addrs : forall path t j pa, Forall index_ok path -> (length path < L)%nat ->
    walk m root path = Some t -> index_ok j -> entry_address (word m t j) = Val (Some pa) ->
    is_usize (physical_base + pa);
}.

Lemma pt_wf_flush m a root addr : pt_wf m a root -> pt_wf (flush_page m addr) a root.
Proof.
  intros [Hwo Hal Hall Hta Htr Had]. split; [done..| | |]; intros *; rewrite ?walk_flush, ?word_flush.
  - apply Hta.
  - apply Htr.
  - apply Had.
Qed.

Lemma slots_inj a a' t t' i j :
  table_ok a t -> table_ok a' t' -> index_ok i -> index_ok j ->
  t + 8 * i = t' + 8 * j -> t = t' /\ i = j.
Proof.
  intros (p & -> & _ & _ & [q ->] & _) (p' & -> & _ & _ & [q' ->] & _). unfold index_ok.
  intros ???. assert (q = q') by lia. subst. lia.
Qed.

(** Writing one slot of one table changes no other slot of the tree. *)
Lemma put_agree m a root p0 T i w :
  pt_wf m a root -> Forall index_ok p0 -> (length p0 < L)%nat -> walk m root p0 = Some T ->
  index_ok i ->
  forall path t j, Forall index_ok path -> (length path < L)%nat ->
    walk m root path = Some t -> index_ok j -> ~ (path ++ [j] = p0 ++ [i]) ->
    word (put_word m T i w) t j = word m t j.
Proof.
  intros Hwf Hp0 HL0 HT Hi path t j Hp HL Ht Hj Hne. rewrite word_put.
  case_decide as E; [|done]. exfalso. apply Hne.
  destruct (slots_inj a a T t i j) as [-> ->];
    [eapply (pt_tables m a root Hwf p0)|eapply (pt_tables m a root Hwf path)|..]; auto.
  f_equal. by eapply pt_tree.
Qed.

(** [m'] agrees with [m] on every slot of the tree but one. *)
Definition agree_but (m m' : Machine) (root : Z) (slot : list Z) : Prop :=
  forall path t j, Forall index_ok path -> (length path < L)%nat ->
    walk m root path = Some t -> index_ok j -> ~ (path ++ [j] = slot) ->
    word m' t j = word m t j.

Lemma outside_slot m m' root slot idx :
  agree_but m m' root slot -> Forall index_ok idx -> (length idx <= L)%nat ->
  ~ slot `prefix_of` idx ->
  walk m' root idx = walk m root idx /\ leaf_of m' root idx = leaf_of m root idx.
Proof.
  intros Hag Hidx Hl Hnp.
  apply (walk_agree physical_base m m' L root (fun s => s = slot) Hag idx [] root); auto.
  intros pr _ Hpr. simpl. naive_solver.
Qed.

Lemma slot_parent m m' root p0 i :
  agree_but m m' root (p0 ++ [i]) -> Forall index_ok p0 -> (length p0 < L)%nat ->
  walk m' root p0 = walk m root p0.
Proof.
  intros Hag Hp0 Hl. apply (outside_slot m m' root (p0 ++ [i])); auto; [lia|].
  intros Hpre%prefix_length. rewrite length_app in Hpre. simpl in Hpre. lia.
Qed.

(** Updating a slot so that it links to no table adds no tables. *)
Lemma set_slot_back m a root p0 T i w path t :
  pt_wf m a root -> Forall index_ok p0 -> (length p0 < L)%nat -> walk m root p0 = Some T ->
  index_ok i -> (S (length p0) < L -> child (put_word m T i w) T i = None)%nat ->
  Forall index_ok path -> (length path < L)%nat ->
  walk (put_word m T i w) root path = Some t -> walk m root path = Some t.
Proof.
  intros Hwf Hp0 HL0 HT Hi Hch Hp Hl Ht. set (m' := put_word m T i w) in *.
  assert (agree_but m m' root (p0 ++ [i])) as Hag
    by exact (put_agree m a root p0 T i w Hwf Hp0 HL0 HT Hi).
  destruct (decide ((p0 ++ [i]) `prefix_of` path)) as [[r ->]|Hnp].
  - exfalso. rewrite !length_app in Hl. simpl in Hl.
    rewrite walk_app, walk_snoc, (slot_parent m m' root p0 i), HT in Ht by done. simpl in Ht.
    by rewrite Hch in Ht by lia.
  - destruct (outside_slot m m' root _ path Hag) as [E _]; [done|lia|done|]. by rewrite <- E.
Qed.

(** Updating a slot that links to no table, before and after. *)
Lemma set_slot_spec m a root p0 T i w :
  pt_wf m a root -> Forall index_ok p0 -> (length p0 < L)%nat -> walk m root p0 = Some T ->
  index_ok i -> is_unsigned 64 w ->
  (S (length p0) < L -> child (put_word m T i w) T i = None)%nat ->
  (forall pa, entry_address w = Val (Some pa) -> is_usize (physical_base + pa)) ->
  let m' := put_word m T i w in
  pt_wf m' a root /\ walk m' root p0 = Some T /\
  (forall idx, Forall index_ok idx -> length idx = L -> ~ (p0 ++ [i]) `prefix_of` idx ->
     leaf_of m' root idx = leaf_of m root idx).
Proof.
  intros Hwf Hp0 HL0 HT Hi Hw Hch Haddr m'.
  assert (agree_but m m' root (p0 ++ [i])) as Hag
    by exact (put_agree m a root p0 T i w Hwf Hp0 HL0 HT Hi).
  assert (walk m' root p0 = Some T) as HT' by (by rewrite (slot_parent m m' root p0 i)).
  pose proof (fun path t => set_slot_back m a root p0 T i w path t Hwf Hp0 HL0 HT Hi Hch) as Hback.
  split; [|split; [done|]].
  - split; [apply words_ok_put; [apply Hwf|done]|apply Hwf|apply Hwf| | |].
    + intros path t Hp Hl Ht. apply (pt_tables m a root Hwf path); auto.
    + intros p1 p2 t Hp1 Hp2 Hl1 Hl2 Ht1 Ht2. apply (pt_tree m a root Hwf p1 p2 t); auto.
    + intros path t j pa Hp Hl Ht Hj Hpa. pose proof (Hback path t Hp Hl Ht) as Ht0.
      destruct (decide (path ++ [j] = p0 ++ [i])) as [[-> ->]%app_inj_tail|Hne].
      * apply Haddr. rewrite HT in Ht0. injection Ht0 as ->. unfold m' in Hpa.
        by rewrite word_put, decide_True in Hpa.
      * rewrite (Hag path t j) in Hpa by done. by apply (pt_addrs _ _ _ Hwf path t j).
  - intros idx Hidx Hl Hnp. apply (outside_slot m m' root _ idx Hag); auto. lia.
Qed.

(** ** Linking a freshly zeroed table *)

Section link_table.
Context (m : Machine) (a a' : A) (root : Z) (p0 : list Z) (T i : Z) (f : Frame Size4KiB).
Context (Hwf : pt_wf m a root) (Hp0 : Forall index_ok p0) (HL0 : (S (length p0) < L)%nat).
Context (HT : walk m root p0 = Some T) (Hi : index_ok i).
Context (Hnone : entry_address (word m T i) = Val None).
Context (Hal : allocate Size4KiB a = Val (f, a')).

Let pa := frame_start f.
Let t' := physical_base + pa.
Let m1 := put_word m T i (entry_for_table pa).
Let m' := zero m1 t'.

Lemma new_table_range : 0 <= pa /\ pa + 4096 <= lim /\ (4096 | pa).
Proof.
  destruct (allocate_Val a f a' (pt_alloc _ _ _ Hwf) Hal) as (_ & ? & ? & _ & Hown & _).
  split_and!; try done.
  destruct (Hown (pa + 4095)) as [Ho%(pt_alloc_lim _ _ _ Hwf) _]; subst pa; lia.
Qed.

Lemma new_table_ok : table_ok a' t'.
Proof.
  destruct new_table_range as (? & ? & ?).
  destruct (allocate_Val a f a' (pt_alloc _ _ _ Hwf) Hal) as (_ & _ & _ & _ & Hown & _).
  exists pa. split_and!; try done. intros x Hx. by apply Hown.
Qed.

Lemma new_table_fresh t : table_ok a t -> t <> t'.
Proof.
  destruct (allocate_Val a f a' (pt_alloc _ _ _ Hwf) Hal) as (_ & _ & _ & _ & Hown & _).
  intros (p & -> & _ & _ & _ & Hno) E. assert (p = pa) as -> by (unfold t' in E; lia).
  apply (Hno pa); [lia|]. apply Hown. subst pa. lia.
Qed.

Lemma new_table_words t j :
  table_ok a t -> index_ok j -> word m' t j = word m1 t j.
Proof.
  intros Ht Hj. unfold m'. destruct (word_zero m1 t' t j) as [[(k & Hk & E) _]|[_ ->]]; [|done].
  destruct (slots_inj a' a t' t k j new_table_ok Ht) as [E' _]; auto.
  by destruct (new_table_fresh t Ht).
Qed.

Lemma new_table_empty j : index_ok j -> word m' t' j = entry_empty.
Proof.
  intros Hj. unfold m'. destruct (word_zero m1 t' t' j) as [[_ ->]|[Hn _]]; [done|].
  by destruct (Hn j).
Qed.

Lemma new_table_no_child r :
  Forall index_ok r -> r <> [] -> walk m' t' r = None /\ leaf_of m' t' r = None.
Proof.
  intros Hr Hne. destruct r as [|j r]; [done|]. apply Forall_cons in Hr as [Hj _].
  simpl. unfold PageTable.child. rewrite (new_table_empty j Hj).
  by rewrite (proj1 ef_empty).
Qed.

Lemma link_agree : agree_but m m' root (p0 ++ [i]).
Proof.
  intros path t j Hp Hl Ht Hj Hne.
  assert (table_ok a t) as Htok by (by eapply (pt_tables _ _ _ Hwf path)).
  rewrite (new_table_words t j Htok Hj).
  eapply (put_agree m a root p0 T i); eauto; lia.
Qed.

Lemma link_walk : walk m' root (p0 ++ [i]) = Some t'.
Proof.
  assert (table_ok a T) as HTok by (apply (pt_tables _ _ _ Hwf p0); auto; lia).
  destruct new_table_range as (? & ? & ?). destruct (ef_table pa) as (Ead & Elf & _); [lia|done|].
  rewrite walk_snoc, (slot_parent m m' root p0 i) by (apply link_agree || auto || lia).
  rewrite HT. simpl. unfold PageTable.child. rewrite (new_table_words T i HTok Hi).
  unfold m1. rewrite word_put, decide_True by done. by rewrite Ead, Elf.
Qed.

Lemma link_back path t :
  Forall index_ok path -> (length path < L)%nat -> walk m' root path = Some t ->
  (path = p0 ++ [i] /\ t = t') \/ walk m root path = Some t.
Proof.
  intros Hp Hl Ht. destruct (decide ((p0 ++ [i]) `prefix_of` path)) as [[r ->]|Hnp].
  - left. rewrite walk_app, link_walk in Ht. simpl in Ht. apply Forall_app in Hp as [_ Hr].
    destruct r as [|j r]; [rewrite app_nil_r; split; [done|by injection Ht]|].
    by destruct (new_table_no_child (j :: r)) as [E _]; [..|rewrite E in Ht].
  - right. destruct (outside_slot m m' root _ path link_agree) as [E _]; [done|lia|done|].
    by rewrite <- E.
Qed.

Lemma link_wf : pt_wf m' a' root.
Proof.
  destruct (allocate_Val a f a' (pt_alloc _ _ _ Hwf) Hal) as (Hia & _ & _ & _ & _ & Hsub).
  destruct new_table_range as (? & ? & ?). destruct (ef_table pa) as (_ & _ & Eu); [lia|done|].
  split.
  - apply words_ok_zero; [apply words_ok_put; [apply Hwf|done]|apply ef_empty].
  - done.
  - intros x Hx. by apply (pt_alloc_lim _ _ _ Hwf), Hsub.
  - intros path t Hp Hl Ht. destruct (link_back path t Hp Hl Ht) as [[_ ->]|Ht0];
      [apply new_table_ok|].
    destruct (pt_tables _ _ _ Hwf path t Hp Hl Ht0) as (p & ? & ? & ? & ? & Hno).
    exists p. split_and!; auto. intros x Hx Ho. by eapply Hno, Hsub.
  - intros p1 p2 t Hp1 Hp2 Hl1 Hl2 Ht1 Ht2.
    destruct (link_back p1 t Hp1 Hl1 Ht1) as [[-> E1]|Hw1], (link_back p2 t Hp2 Hl2 Ht2) as [[-> E2]|Hw2];
      [done| | |by eapply pt_tree].
    + destruct (new_table_fresh t); [|done]. by eapply (pt_tables _ _ _ Hwf p2).
    + destruct (new_table_fresh t); [|done]. by eapply (pt_tables _ _ _ Hwf p1).
  - intros path t j p Hp Hl Ht Hj Hpa. destruct (link_back path t Hp Hl Ht) as [[_ ->]|Ht0].
    { rewrite (new_table_empty j Hj), (proj1 ef_empty) in Hpa. done. }
    destruct (decide (path ++ [j] = p0 ++ [i])) as [[-> ->]%app_inj_tail|Hne].
    + rewrite HT in Ht0. injection Ht0 as <-.
      rewrite new_table_words in Hpa; [|apply (pt_tables _ _ _ Hwf p0); auto; lia|done].
      unfold m1 in Hpa. rewrite word_put, decide_True in Hpa by done.
      destruct (ef_table pa) as (Ead & _); [lia|done|]. rewrite Ead in Hpa. injection Hpa as <-.
      eapply vaddr_canonical_usize, Hdirect. lia.
    + rewrite (link_agree path t j) in Hpa by done. by apply (pt_addrs _ _ _ Hwf path t j).
Qed.

Lemma link_leaf idx :
  Forall index_ok idx -> length idx = L -> leaf_of m' root idx = leaf_of m root idx.
Proof.
  intros Hidx Hl. destruct (decide ((p0 ++ [i]) `prefix_of` idx)) as [[r ->]|Hnp].
  2:{ apply (outside_slot m m' root _ idx link_agree); auto. lia. }
  rewrite !length_app in Hl. simpl in Hl.
  assert (r <> []) as Hr by (intros ->; simpl in Hl; lia).
  apply Forall_app in Hidx as [_ Hr'].
  rewrite (leaf_of_app _ _ _ _ _ _ link_walk Hr). destruct (new_table_no_child r Hr' Hr) as [_ ->].
  rewrite <- app_assoc. simpl. rewrite (leaf_of_app _ _ _ _ _ _ HT) by done.
  simpl. by rewrite Hnone.
Qed.

End link_table.

(** ** The code's steps *)

Section steps.
Context (m : Machine) (a : A) (root : Z) (Hwf : pt_wf m a root).

Lemma entry_address_total t i : exists o, entry_address (word m t i) = Val o.
Proof. apply ef_total, Hwf. Qed.

Lemma table_index_in t i : index_ok i -> table_index m t i = Val (word m t i).
Proof. intros [??]. unfold table_index, ENTRY_COUNT. by replace (i <? 512) with true by lia. Qed.

Lemma table_index_set_in t i e : index_ok i -> table_index_set m t i e = Val (put_word m t i e).
Proof.
  intros [??]. unfold table_index_set, ENTRY_COUNT. by replace (i <? 512) with true by lia.
Qed.

Lemma next_table_in p0 T i :
  Forall index_ok p0 -> (length p0 < L)%nat -> walk m root p0 = Some T -> index_ok i ->
  exists o, entry_address (word m T i) = Val o /\
    next_table tgt physical_base m T i =
      Val ((fun pa => VAddr.canonicalise tgt (physical_base + pa)) <$> o).
Proof.
  intros Hp0 HL HT Hi. destruct (entry_address_total T i) as [o Ho]. exists o. split; [done|].
  unfold next_table. rewrite table_index_in by done. simpl. rewrite Ho. simpl.
  destruct o as [pa|]; [|done]. simpl.
  unfold VAddr.add. rewrite wadd_in by (by eapply (pt_addrs _ _ _ Hwf p0 T i pa)). done.
Qed.

(** An entry that links to a table leads to it, at an address the direct map
    leaves as it is. *)
Lemma child_linked p0 T i pa :
  Forall index_ok p0 -> (S (length p0) < L)%nat -> walk m root p0 = Some T -> index_ok i ->
  entry_address (word m T i) = Val (Some pa) -> entry_is_leaf (word m T i) = false ->
  walk m root (p0 ++ [i]) = Some (physical_base + pa) /\
  VAddr.canonicalise tgt (physical_base + pa) = physical_base + pa.
Proof.
  intros Hp0 HL HT Hi Ha Hl.
  assert (walk m root (p0 ++ [i]) = Some (physical_base + pa)) as Hc.
  { rewrite walk_snoc, HT. simpl. unfold PageTable.child. by rewrite Ha, Hl. }
  split; [done|]. apply canonicalise_id.
  destruct (pt_tables _ _ _ Hwf (p0 ++ [i]) (physical_base + pa)) as (p & E & ? & ? & _);
    [|rewrite length_app; simpl; lia|done|].
  - by apply Forall_app_2; [|apply Forall_singleton].
  - replace pa with p by lia. apply Hdirect. lia.
Qed.

End steps.

Definition same_leaves (m m' : Machine) (root : Z) : Prop :=
  forall idx, Forall index_ok idx -> length idx = L -> leaf_of m' root idx = leaf_of m root idx.

(** A leaf above the last level blocks everything below it. *)
Definition covered (m : Machine) (root : Z) (p : list Z) : Prop :=
  forall idx, Forall index_ok idx -> length idx = L -> p `prefix_of` idx ->
    is_Some (leaf_of m root idx).

Lemma next_table_create_spec m a root p0 T i :
  pt_wf m a root -> Forall index_ok p0 -> (S (length p0) < L)%nat -> walk m root p0 = Some T ->
  index_ok i ->
  next_table_create tgt physical_base (m, a) T i ⇓{~ supplies 1 a} fun '(r, (m', a')) =>
    pt_wf m' a' root /\ spends 1 a a' /\ same_leaves m m' root /\
    match r with
    | Ok t' => walk m' root (p0 ++ [i]) = Some t'
    | Err _ => covered m root (p0 ++ [i])
    end.
Proof.
  intros Hwf Hp0 HL HT Hi. unfold next_table_create.
  destruct (next_table_in m a root Hwf p0 T i) as (o & Ho & ->); [done|lia|done..|]. simpl.
  destruct o as [pa|]; simpl.
  - rewrite table_index_in by done. simpl.
    destruct (entry_is_leaf (word m T i)) eqn:Hl; simpl.
    + split; [done|]. split; [apply spends_refl|]. split; [by intros idx|].
      intros idx Hidx Hlen [r ->].
      rewrite !length_app in Hlen. simpl in Hlen. rewrite <- app_assoc. simpl.
      rewrite (leaf_of_app _ _ _ _ _ _ HT) by done. simpl. rewrite Ho, Hl.
      destruct r; eauto.
    + split; [done|]. split; [apply spends_refl|]. split; [by intros idx|].
      destruct (child_linked m a root Hwf p0 T i pa) as [? ->]; done || lia.
  - destruct (allocate Size4KiB a) as [[f a']|] eqn:Hal.
    2:{ simpl. tauto. }
    simpl. rewrite table_index_set_in by done. simpl.
    assert (0 <= frame_start f /\ frame_start f + 4096 <= lim /\ (4096 | frame_start f))
      as (H0 & H1 & H2) by (by apply (new_table_range m a a' root p0 f)).
    destruct (ef_table (frame_start f)) as (Ead & Elf & _); [lia|done|].
    unfold next_table at 1. rewrite table_index_in by done. simpl.
    rewrite word_put, decide_True by done. rewrite Ead. simpl.
    rewrite vaddr_add_in by (apply Hdirect; lia). simpl.
    split; [by apply (link_wf m a a' root p0 T i f)|].
    split; [by eapply allocate_spends|].
    split; [intros idx ??; by apply (link_leaf m a a' root p0 T i f)|].
    by apply (link_walk m a a' root p0 T i f).
Qed.

Lemma same_leaves_trans m1 m2 m3 root :
  same_leaves m1 m2 root -> same_leaves m2 m3 root -> same_leaves m1 m3 root.
Proof. intros H12 H23 idx Hidx Hl. by rewrite H23, H12. Qed.

Lemma covered_same m m' root p p' :
  same_leaves m m' root -> covered m' root p' -> p' `prefix_of` p -> covered m root p.
Proof.
  intros Hs Hc Hp idx Hidx Hl Hpre. rewrite <- Hs by done. apply Hc; auto. by etrans.
Qed.

Lemma create_path_spec root path : forall m a p0 T,
  pt_wf m a root -> Forall index_ok p0 -> Forall index_ok path ->
  (length p0 + length path < L)%nat -> walk m root p0 = Some T ->
  create_path tgt physical_base (m, a) T path ⇓{~ supplies (length path) a} fun '(r, (m', a')) =>
    pt_wf m' a' root /\ spends (length path) a a' /\ same_leaves m m' root /\
    match r with
    | Ok t' => walk m' root (p0 ++ path) = Some t'
    | Err _ => covered m root (p0 ++ path)
    end.
Proof.
  induction path as [|i path IH]; intros m a p0 T Hwf Hp0 Hpath HL HT; simpl.
  { rewrite app_nil_r. split; [done|]. split; [apply spends_refl|]. split; [by intros idx|done]. }
  apply Forall_cons in Hpath as [Hi Hpath]. simpl in HL.
  eapply returns_unless_bind.
  { apply (next_table_create_spec m a root p0 T i); auto. lia. }
  { intros Hn Hs. by apply Hn, (supplies_le (S (length path))); [lia|]. }
  intros [r [m1 a1]] (Hwf1 & Hsp1 & Hs1 & Hr). destruct r as [t1|e].
  - eapply returns_unless_weaken.
    { apply (IH m1 a1 (p0 ++ [i]) t1); auto.
      - by apply Forall_app_2; [|apply Forall_singleton].
      - rewrite length_app. simpl. lia. }
    { intros Hn Hs. by apply Hn, Hsp1. }
    intros [r2 [m2 a2]] (Hwf2 & Hsp2 & Hs2 & Hr2). rewrite <- app_assoc in Hr2.
    split; [done|]. split; [by eapply (spends_trans 1)|]. split; [by eapply same_leaves_trans|].
    destruct r2; [done|]. by eapply covered_same.
  - simpl. split; [done|]. split; [apply (spends_le 1); [lia|done]|]. split; [done|].
    eapply (covered_same m m); [by intros idx|done|].
    apply prefix_app, prefix_cons, prefix_nil.
Qed.

(** What a successful mapping of the slot [path ++ [last]] does: the addresses
    below the slot were unmapped and are now translated by the entry; the
    others keep their translation. *)
Definition maps_slot (m m' : Machine) (root : Z) (slot : list Z) (entry : Z) : Prop :=
  (forall idx, Forall index_ok idx -> length idx = L -> ~ slot `prefix_of` idx ->
     leaf_of m' root idx = leaf_of m root idx) /\
  (forall rest, Forall index_ok rest -> (length slot + length rest = L)%nat ->
     leaf_of m root (slot ++ rest) = None /\
     leaf_of m' root (slot ++ rest) = Some (entry, length rest)).

(** Why mapping a 4KiB page fails: the page is mapped already, or its entry is
    in use all the same. *)
Definition blocked (m m' : Machine) (root : Z) (slot : list Z) : Prop :=
  is_Some (leaf_of m root slot) \/
  exists path last T, slot = path ++ [last] /\ walk m' root path = Some T /\
    entry_in_use (word m' T last) = true.

Lemma map_path_spec m a root path last entry pa :
  pt_wf m a root -> Forall index_ok path -> index_ok last -> (length path < L)%nat ->
  is_unsigned 64 entry -> entry_address entry = Val (Some pa) ->
  (S (length path) < L -> entry_is_leaf entry = true)%nat ->
  is_usize (physical_base + pa) ->
  map_path tgt physical_base (m, a) root path last entry
    ⇓{~ supplies (length path) a} fun '(r, (m', a')) =>
    pt_wf m' a' root /\ spends (length path) a a' /\
    match r with
    | Ok _ => maps_slot m m' root (path ++ [last]) entry
    | Err _ => same_leaves m m' root /\
        (S (length path) = L -> blocked m m' root (path ++ [last]))
    end.
Proof.
  intros Hwf Hpath Hlast HL Hu Hpa Hleaf Hover. unfold map_path.
  eapply returns_unless_bind.
  { by apply (create_path_spec root path m a [] root). }
  { done. }
  intros [r [m1 a1]] (Hwf1 & Hsp & Hs1 & Hr). destruct r as [T|e]; simpl in Hr.
  2:{ split; [done|]. split; [done|]. split; [done|]. intros Hl. left.
      apply Hr; [|by rewrite length_app; simpl; lia|by apply prefix_app_r].
      by apply Forall_app_2; [|apply Forall_singleton]. }
  rewrite table_index_in by done. simpl.
  destruct (entry_in_use (word m1 T last)) eqn:Huse.
  { split; [done|]. split; [done|]. split; [done|]. intros _. right. by exists path, last, T. }
  apply ef_unused in Huse; [|apply Hwf1].
  rewrite table_index_set_in by done. simpl.
  assert (word (put_word m1 T last entry) T last = entry) as Hword
    by (by rewrite word_put, decide_True).
  destruct (set_slot_spec m1 a1 root path T last entry) as (Hwf2 & HT2 & Hout); auto.
  { intros HL'. unfold PageTable.child. rewrite Hword, Hpa. by rewrite Hleaf. }
  { rewrite Hpa. by intros p [= <-]. }
  split; [done|]. split; [done|]. split.
  - intros idx Hidx Hl Hnp. by rewrite Hout, Hs1.
  - intros rest Hrest Hlen. rewrite length_app in Hlen. simpl in Hlen.
    assert (Forall index_ok ((path ++ [last]) ++ rest)) as Hall
      by (repeat apply Forall_app_2; auto; by apply Forall_singleton).
    assert (length ((path ++ [last]) ++ rest) = L) as Hlen' by (rewrite !length_app; simpl; lia).
    rewrite <- Hs1 by done. rewrite <- app_assoc. simpl.
    rewrite (leaf_of_app _ _ _ _ _ _ Hr), (leaf_of_app _ _ _ _ _ _ HT2) by done.
    simpl. rewrite Huse, Hword, Hpa. split; [done|].
    destruct rest as [|j rest]; [done|]. rewrite Hleaf; [done|]. simpl in Hlen. lia.
Qed.

(** [next_path] follows the tree when no leaf lies on the way. *)
Lemma next_path_walk m a root path : forall p0 T,
  pt_wf m a root -> Forall index_ok p0 -> Forall index_ok path ->
  (length p0 + length path < L)%nat -> walk m root p0 = Some T ->
  is_Some (walk m root (p0 ++ path)) ->
  next_path tgt physical_base m T path = Val (walk m root (p0 ++ path)).
Proof.
  induction path as [|i path IH]; intros p0 T Hwf Hp0 Hpath HL HT Hsome; simpl.
  { by rewrite app_nil_r, HT. }
  apply Forall_cons in Hpath as [Hi Hpath]. simpl in HL.
  change (i :: path) with ([i] ++ path) in *. rewrite app_assoc in *.
  destruct (next_table_in m a root Hwf p0 T i) as (o & Ho & ->); [done|lia|done..|]. simpl.
  destruct (walk m root (p0 ++ [i])) as [c|] eqn:Hc.
  2:{ rewrite walk_app, Hc in Hsome. by destruct Hsome. }
  pose proof Hc as Hc'. rewrite walk_snoc, HT in Hc'. simpl in Hc'. unfold PageTable.child in Hc'.
  rewrite Ho in Hc'. destruct o as [pa|]; [|done].
  destruct (entry_is_leaf (word m T i)) eqn:Hl; [done|]. simpl.
  destruct (child_linked m a root Hwf p0 T i pa) as [Hlink Hcan]; [done|lia|done..|].
  rewrite Hcan. rewrite Hlink in Hc. injection Hc as <-.
  apply IH; auto; [|rewrite length_app; simpl; lia].
  by apply Forall_app_2; [|apply Forall_singleton].
Qed.

(** [next_path] reads the same entries as the hardware walk as long as that
    finds no leaf on the way. *)
Lemma next_path_leaf_of m a root rest path : forall p0 T,
  pt_wf m a root -> Forall index_ok p0 -> Forall index_ok path ->
  (length p0 + length path < L)%nat -> walk m root p0 = Some T -> rest <> [] ->
  (forall e n, leaf_of m T (path ++ rest) = Some (e, n) -> n < length rest)%nat ->
  exists o, next_path tgt physical_base m T path = Val o /\
    match o with
    | Some T' => walk m root (p0 ++ path) = Some T' /\ leaf_of m T (path ++ rest) = leaf_of m T' rest
    | None => leaf_of m T (path ++ rest) = None
    end.
Proof.
  induction path as [|i path IH]; intros p0 T Hwf Hp0 Hpath HL HT Hne Hdeep; simpl next_path.
  { exists (Some T). rewrite app_nil_r. done. }
  apply Forall_cons in Hpath as [Hi Hpath]. simpl in HL.
  destruct (next_table_in m a root Hwf p0 T i) as (o & Ho & ->); [done|lia|done..|]. obind.
  cbn [app] in *.
  destruct o as [pa|]; cbn [fmap option_fmap option_map];
    [|exists None; split; [done|by simpl; rewrite Ho]].
  assert (path ++ rest <> []) as Hne' by (destruct path; done).
  destruct (entry_is_leaf (word m T i)) eqn:Hl.
  { exfalso. assert (leaf_of m T (i :: path ++ rest) = Some (word m T i, length (path ++ rest))) as E.
    { simpl. rewrite Ho, Hl. by destruct (path ++ rest). }
    apply Hdeep in E. rewrite length_app in E. lia. }
  destruct (child_linked m a root Hwf p0 T i pa Hp0 ltac:(lia) HT Hi Ho Hl) as [Hc Ecan].
  rewrite Ecan.
  assert (leaf_of m T (i :: path ++ rest) = leaf_of m (physical_base + pa) (path ++ rest)) as Estep.
  { apply child_leaf_of; [|done]. unfold PageTable.child. by rewrite Ho, Hl. }
  rewrite Estep in *.
  destruct (IH (p0 ++ [i]) (physical_base + pa) Hwf) as (o & Hnp & Hpost); auto.
  - by apply Forall_app_2; [|apply Forall_singleton].
  - rewrite length_app. simpl. lia.
  - exists o. split; [done|]. by rewrite <- app_assoc in Hpost.
Qed.

Lemma translate_path_spec m a root path i2 i1 v :
  pt_wf m a root -> Forall index_ok path -> index_ok i2 -> index_ok i1 ->
  (length path + 2 = L)%nat ->
  (forall e n, leaf_of m root (path ++ [i2; i1]) = Some (e, n) -> n <= 1)%nat ->
  (forall e n pa o, leaf_of m root (path ++ [i2; i1]) = Some (e, n) ->
     entry_address e = Val (Some pa) -> 0 <= o < SIZE Size2MiB -> (n = 0%nat -> o < SIZE Size4KiB) ->
     0 <= pa /\ paddr_valid tgt (pa + o)) ->
  translate_path tgt physical_base m root path i2 i1 v =
    Val (match leaf_of m root (path ++ [i2; i1]) with
         | Some (e, n) =>
             match entry_address e with
             | Val (Some pa) =>
                 Some (pa + v mod SIZE (match n with O => Size4KiB | _ => Size2MiB end))
             | _ => None
             end
         | None => None
         end).
Proof.
  intros Hwf Hpath Hi2 Hi1 HL Hdeep Hval. unfold translate_path.
  destruct (next_path_leaf_of m a root [i2; i1] path [] root) as (o & -> & Ho);
    [done|done|done|simpl; lia|done|done| |].
  { intros e n He. apply Hdeep in He. simpl. lia. }
  obind. destruct o as [T|]; [|by rewrite Ho]. destruct Ho as [HT El]. simpl in HT.
  rewrite El in *. rewrite table_index_in by done. obind.
  destruct (next_table_in m a root Hwf path T i2) as (o & Ho & Hnt); [done|lia|done..|].
  rewrite Hnt. cbn [leaf_of]. cbn [leaf_of] in Hval. rewrite Ho in *.
  destruct (entry_is_leaf (word m T i2)) eqn:Hl.
  { destruct o as [pa|]; obind; [|done]. rewrite Ho, urem_size. obind.
    destruct (Hval (word m T i2) 1%nat pa (v mod SIZE Size2MiB)) as [??]; auto; try done.
    { apply Z.mod_pos_bound. done. }
    rewrite paddr_add_in; [done| |done..]. apply Z.mod_pos_bound. done. }
  destruct o as [pa|]; [|done]. cbn [fmap option_fmap option_map]. obind.
  destruct (child_linked m a root Hwf path T i2 pa Hpath ltac:(lia) HT Hi2 Ho Hl) as [_ Ecan].
  rewrite Ecan, table_index_in by done. obind.
  destruct (entry_address_total m a root Hwf (physical_base + pa) i1) as [o Ho1].
  rewrite Ho1 in *. obind. destruct o as [pa1|]; [|done]. rewrite Ho1, urem_size. obind.
  destruct (Hval (word m (physical_base + pa) i1) 0%nat pa1 (v mod SIZE Size4KiB)) as [??]; auto.
  { split; [by apply Z.mod_pos_bound|].
    pose proof (Z.mod_pos_bound v (SIZE Size4KiB) ltac:(done)). simpl in *. lia. }
  { intros _. by apply Z.mod_pos_bound. }
  rewrite paddr_add_in; [done| |done..]. by apply Z.mod_pos_bound.
Qed.

(** Unmapping a mapped 4KiB page returns its frame and removes that
    translation only. *)
Lemma unmap_path_spec m a root path last page T pa :
  pt_wf m a root -> Forall index_ok path -> index_ok last -> S (length path) = L ->
  walk m root path = Some T -> entry_address (word m T last) = Val (Some pa) -> (4096 | pa) ->
  unmap_path tgt physical_base m root path last page ⇓ fun '(r, m') =>
    r = Some (mkFrame pa) /\ pt_wf m' a root /\ flushed m' = page :: flushed m /\
    leaf_of m' root (path ++ [last]) = None /\
    (forall idx, Forall index_ok idx -> length idx = L -> idx <> path ++ [last] ->
       leaf_of m' root idx = leaf_of m root idx).
Proof.
  intros Hwf Hpath Hlast HL HT Hpa Hd. unfold unmap_path.
  rewrite (next_path_walk m a root path [] root) by (done || (simpl; lia) || eauto).
  simpl. rewrite HT. simpl. rewrite table_index_in by done. simpl. rewrite Hpa. simpl.
  rewrite frame_starts_with_in by (apply Z.mod_divide; [done|exact Hd]). simpl.
  rewrite table_index_set_in by done. simpl.
  destruct (set_slot_spec m a root path T last entry_empty) as (Hwf2 & HT2 & Hout); auto.
  { lia. }
  { apply ef_empty. }
  { lia. }
  { by rewrite (proj1 ef_empty). }
  split; [done|]. split; [by apply pt_wf_flush|]. split; [done|]. split.
  - rewrite leaf_of_flush, (leaf_of_app _ _ _ _ _ _ HT2) by done. simpl.
    by rewrite word_put, decide_True, (proj1 ef_empty).
  - intros idx Hidx Hl Hne. rewrite leaf_of_flush. apply Hout; [done..|]. intros Hpre. apply Hne.
    destruct Hpre as [r ->]. rewrite !length_app in Hl. simpl in Hl.
    destruct r; [by rewrite app_nil_r|simpl in Hl; lia].
Qed.

(** A zeroed table that is not the allocator's is a set of tables that maps
    nothing. *)
Lemma new_tables_wf m a root :
  words_ok m -> fa_inv a -> (forall x, fa_owns a x -> x < lim) -> table_ok a root ->
  pt_wf (zero m root) a root /\
  (forall idx, Forall index_ok idx -> leaf_of (zero m root) root idx = None).
Proof.
  intros Hm Ha Hal Hroot.
  assert (forall j, index_ok j -> entry_address (word (zero m root) root j) = Val None) as Hempty.
  { intros j Hj. destruct (word_zero m root root j) as [[_ ->]|[Hn _]]; [apply ef_empty|].
    by destruct (Hn j). }
  assert (forall path t, Forall index_ok path -> walk (zero m root) root path = Some t ->
    path = [] /\ t = root) as Hwalk.
  { intros [|j path] t Hp Hw; [by injection Hw as <-|]. apply Forall_cons in Hp as [Hj _].
    simpl in Hw. unfold PageTable.child in Hw. by rewrite Hempty in Hw. }
  split; [split|].
  - apply words_ok_zero; [done|apply ef_empty].
  - done.
  - done.
  - intros path t Hp _ Hw. by destruct (Hwalk path t Hp Hw) as [_ ->].
  - intros p1 p2 t H1 H2 _ _ Hw1 Hw2. by destruct (Hwalk p1 t H1 Hw1), (Hwalk p2 t H2 Hw2); subst.
  - intros path t j pa Hp _ Hw Hj He. destruct (Hwalk path t Hp Hw) as [-> ->].
    by rewrite Hempty in He.
  - intros [|j idx] Hidx; [done|]. apply Forall_cons in Hidx as [Hj _]. simpl. by rewrite Hempty.
Qed.

End correctness.
