(* ===== verification/Mapper.v ===== *)
(** * The [PageTable] trait of [lib/hal/src/memory/paging.rs] and area mapping

    [PageTable] has the trait's required method [map]; [map_range] is its
    provided method and [map_area] the algorithm that all three implementations
    of the trait repeat word for word ([lib/hal_riscv/src/paging.rs] for Sv48
    and Sv39, [lib/hal_x86_64/src/paging.rs]).  [PageTableSpec] is what [map]
    promises in terms of the translation a set of tables denotes; the theorems
    about ranges and areas are proved against it. *)

From stdpp Require Import base tactics option list numbers.
From S2P Require Import Prelude Mulch Memory.

Class PageTable (St : Type) := {
  pt_map : forall s : FrameSize, St -> Page s -> Frame s -> Flags ->
    outcome (result unit PagingError * St);
}.

Section code.
Context {St : Type} `{PageTable St} (tgt : target).

(** [for (page, frame) in pages.zip(frames) { self.map(page, frame, ..)?; }] *)
Fixpoint map_range_loop (s : FrameSize) (fuel : nat) (st : St)
    (page page_end : Page s) (frame frame_end : Frame s) (flags : Flags) :
    outcome (result unit PagingError * St) :=
  match fuel with
  | O => Panic
  | S fuel =>
      next_page ← page_range_next tgt page page_end;
      match next_page with
      | None => mret (Ok tt, st)
      | Some (p, page') =>
          next_frame ← frame_range_next tgt frame frame_end;
          match next_frame with
          | None => mret (Ok tt, st)
          | Some (f, frame') =>
              '(r, st') ← pt_map s st p f flags;
              match r with
              | Err e => mret (Err e, st')
              | Ok _ => map_range_loop s fuel st' page' page_end frame' frame_end flags
              end
          end
      end
  end.

(** One step per page and one to see the end of the range. *)
Definition map_range (s : FrameSize) (st : St) (page page_end : Page s)
    (frame frame_end : Frame s) (flags : Flags) : outcome (result unit PagingError * St) :=
  map_range_loop s (S (Z.to_nat ((page_start page_end - page_start page) / SIZE s)))
    st page page_end frame frame_end flags.

(** [Page::starts_with(v)..Page::starts_with(v + n)], the frames alike, mapped. *)
Definition map_bytes (s : FrameSize) (st : St) (virt phys bytes : Z) (flags : Flags) :
    outcome (result unit PagingError * St) :=
  page ← Page.starts_with virt;
  v_end ← VAddr.add tgt virt bytes;
  page_end ← Page.starts_with v_end;
  frame ← Frame.starts_with phys;
  p_end ← PAddr.add tgt phys bytes;
  frame_end ← Frame.starts_with p_end;
  map_range s st page page_end frame frame_end flags.

(** The choice one iteration of the loop makes: the page size and how many bytes. *)
Definition area_step (virtual_end cursor cursor_physical : Z) : outcome (FrameSize * Z) :=
  bytes_left ← usub virtual_end cursor;
  v1g ← VAddr.is_aligned cursor (SIZE Size1GiB);
  p1g ← PAddr.is_aligned cursor_physical (SIZE Size1GiB);
  if v1g && p1g && (bytes_left >=? SIZE Size1GiB) then
    bytes_to_map ← Math.align_down 64 bytes_left (SIZE Size1GiB);
    mret (Size1GiB, bytes_to_map)
  else
    v2m ← VAddr.is_aligned cursor (SIZE Size2MiB);
    p2m ← PAddr.is_aligned cursor_physical (SIZE Size2MiB);
    if v2m && p2m && (bytes_left >=? SIZE Size2MiB) then
      bytes_to_map ← Math.align_down 64 bytes_left (SIZE Size2MiB);
      mret (Size2MiB, bytes_to_map)
    else
      next ← VAddr.add tgt cursor 1;
      next_boundary ← VAddr.align_up next (SIZE Size2MiB);
      to_boundary ← usub next_boundary cursor;
      to_end ← usub virtual_end cursor;
      mret (Size4KiB, Z.min to_boundary to_end).

(** The [while cursor < virtual_end] loop. *)
Fixpoint map_area_loop (fuel : nat) (st : St) (virtual_start physical_start virtual_end : Z)
    (flags : Flags) (cursor : Z) : outcome (result unit PagingError * St) :=
  match fuel with
  | O => Panic
  | S fuel =>
      if cursor <? virtual_end then
        t ← uadd physical_start cursor;
        t ← usub t virtual_start;
        cursor_physical ← unwrap (PAddr.new tgt t);
        '(s, bytes_to_map) ← area_step virtual_end cursor cursor_physical;
        '(r, st') ← map_bytes s st cursor cursor_physical bytes_to_map flags;
        match r with
        | Err e => mret (Err e, st')
        | Ok _ =>
            cursor' ← VAddr.add tgt cursor bytes_to_map;
            map_area_loop fuel st' virtual_start physical_start virtual_end flags cursor'
        end
      else
        rassert (cursor =? virtual_end) ;; mret (Ok tt, st)
  end.

(** Every iteration maps at least one 4KiB page, which bounds the loop. *)
Definition map_area (st : St) (virtual_start physical_start size : Z) (flags : Flags) :
    outcome (result unit PagingError * St) :=
  va ← VAddr.is_aligned virtual_start (SIZE Size4KiB);
  rassert va ;;
  pa ← PAddr.is_aligned physical_start (SIZE Size4KiB);
  rassert pa ;;
  sr ← urem size (SIZE Size4KiB);
  rassert (sr =? 0) ;;
  diff ← Math.abs_difference 64 physical_start virtual_start;
  mismatch ← urem diff (SIZE Size2MiB);
  if (size <? SIZE Size2MiB) || negb (mismatch =? 0) then
    map_bytes Size4KiB st virtual_start physical_start size flags
  else
    virtual_end ← VAddr.add tgt virtual_start size;
    map_area_loop (S (Z.to_nat (size / SIZE Size4KiB))) st virtual_start physical_start
      virtual_end flags virtual_start.

End code.

(** ** The contract of [map] *)

(** [v] lies in the [n] bytes from [start]. *)
Definition within (start n v : Z) : Prop := start <= v < start + n.

Class PageTableSpec (tgt : target) (St : Type) `{PageTable St} := {
  pts_inv : St -> Prop;
  (** The physical byte a virtual address is translated to. *)
  pts_tr : St -> Z -> option Z;
  (** The physical addresses that can be mapped. *)
  pts_limit : Z;
  (** The frame allocator has enough left to map this many pages. *)
  pts_supplies : nat -> St -> Prop;
  pts_supplies_le : forall n m st, (m <= n)%nat -> pts_supplies n st -> pts_supplies m st;
  pts_limit_ok : 0 <= pts_limit <= paddr_limit tgt;
  pts_map : forall s st (page : Page s) (frame : Frame s) flags,
    pts_inv st ->
    (SIZE s | page_start page) -> (SIZE s | frame_start frame) ->
    (forall v, within (page_start page) (SIZE s) v -> vaddr_canonical tgt v) ->
    0 <= frame_start frame -> frame_start frame + SIZE s <= pts_limit ->
    pt_map s st page frame flags ⇓{~ pts_supplies 1 st} fun '(r, st') =>
      pts_inv st' /\ (forall n, pts_supplies (1 + n) st -> pts_supplies n st') /\
      match r with
      | Ok _ => forall v, vaddr_canonical tgt v ->
          (within (page_start page) (SIZE s) v ->
             pts_tr st v = None /\
             pts_tr st' v = Some (frame_start frame + (v - page_start page))) /\
          (~ within (page_start page) (SIZE s) v -> pts_tr st' v = pts_tr st v)
      | Err _ => forall v, vaddr_canonical tgt v -> pts_tr st' v = pts_tr st v
      end;
}.

(** ** Ranges and areas *)

Section correctness.
Context (tgt : target) {St : Type} `{PT : PageTable St} `{!PageTableSpec tgt St}.

(** Exactly the [n] bytes from [virt] became mapped, to the bytes from [phys]. *)
Definition maps_bytes (st st' : St) (virt phys n : Z) : Prop :=
  forall v, vaddr_canonical tgt v ->
    (within virt n v -> pts_tr st v = None /\ pts_tr st' v = Some (phys + (v - virt))) /\
    (~ within virt n v -> pts_tr st' v = pts_tr st v).

(** Success maps the whole range, for at most [k] pages' worth of tables; an
    error leaves a mapped prefix behind. *)
Definition range_post (k : nat) (st : St) (virt phys n : Z)
    (res : result unit PagingError * St) : Prop :=
  let '(r, st') := res in
  pts_inv st' /\ (forall n, pts_supplies (k + n) st -> pts_supplies n st') /\
  match r with
  | Ok _ => maps_bytes st st' virt phys n
  | Err _ => exists d, 0 <= d < n /\ maps_bytes st st' virt phys d
  end.

(** What the caller of a range or area mapping has to provide. *)
Record area_ok (virt phys n : Z) : Prop := {
  area_canonical : forall v, virt <= v <= virt + n -> vaddr_canonical tgt v;
  area_phys : 0 <= phys /\ phys + n <= pts_limit /\ phys + n < paddr_limit tgt;
  area_size : 0 <= n;
}.

Lemma maps_bytes_nil st virt phys : maps_bytes st st virt phys 0.
Proof. intros v _. unfold within. split; [lia|done]. Qed.

Lemma maps_bytes_app st st1 st2 virt phys n1 n2 :
  0 <= n1 -> 0 <= n2 -> maps_bytes st st1 virt phys n1 ->
  maps_bytes st1 st2 (virt + n1) (phys + n1) n2 -> maps_bytes st st2 virt phys (n1 + n2).
Proof.
  intros Hn1 Hn2 H1 H2 v Hv. destruct (H1 v Hv) as [H1i H1o], (H2 v Hv) as [H2i H2o].
  unfold within in *. split.
  - intros Hin. destruct (decide (v < virt + n1)).
    + rewrite H2o by lia. apply H1i. lia.
    + rewrite <- H1o by lia. destruct H2i as [-> ->]; [lia|]. split; [done|]. f_equal. lia.
  - intros Hout. rewrite H2o by lia. apply H1o. lia.
Qed.

Lemma area_ok_split virt phys n n1 :
  area_ok virt phys n -> 0 <= n1 <= n ->
  area_ok virt phys n1 /\ area_ok (virt + n1) (phys + n1) (n - n1).
Proof.
  intros [Hc (Hp0 & Hp1 & Hp2) Hs] Hn. split; split; try lia; intros v Hv; apply Hc; lia.
Qed.

(** An operation that maps the first [n1] bytes of a range, followed by one that
    maps the rest. *)
Lemma range_post_step k1 k2 st virt phys n n1 st1 (m : outcome (result unit PagingError * St)) :
  0 <= n1 <= n -> maps_bytes st st1 virt phys n1 ->
  (forall n, pts_supplies (k1 + n) st -> pts_supplies n st1) ->
  m ⇓{~ pts_supplies k2 st1} range_post k2 st1 (virt + n1) (phys + n1) (n - n1) ->
  m ⇓{~ pts_supplies (k1 + k2) st} range_post (k1 + k2) st virt phys n.
Proof.
  intros Hn Hm Hsp Hk. eapply returns_unless_weaken; [exact Hk|auto|].
  intros [r st2] (Hi & Hsp2 & Hr). split; [done|].
  split; [intros j Hj; apply Hsp2, Hsp; by rewrite Nat.add_assoc|]. destruct r as [u|e].
  - replace n with (n1 + (n - n1)) by lia. eapply maps_bytes_app; eauto; lia.
  - destruct Hr as (d & Hd & Hmd). exists (n1 + d). split; [lia|].
    eapply maps_bytes_app; eauto; lia.
Qed.

Lemma map_range_loop_spec s fuel : forall st (page page_end : Page s) (frame frame_end : Frame s) flags k,
  pts_inv st -> (SIZE s | page_start page) -> (SIZE s | frame_start frame) ->
  page_start page_end = page_start page + SIZE s * k ->
  frame_start frame_end = frame_start frame + SIZE s * k ->
  0 <= k < Z.of_nat fuel ->
  area_ok (page_start page) (frame_start frame) (SIZE s * k) ->
  map_range_loop tgt s fuel st page page_end frame frame_end flags
    ⇓{~ pts_supplies (Z.to_nat k) st}
    range_post (Z.to_nat k) st (page_start page) (frame_start frame) (SIZE s * k).
Proof.
  induction fuel as [|fuel IH];
    intros st [pv] [pe] [fv] [fe] flags k Hi Hdp Hdf Epe Efe Hk Hok; [lia|].
  simpl in *. subst pe fe. pose proof (SIZE_pos s) as Hs.
  unfold page_range_next, frame_range_next. simpl.
  destruct (decide (k = 0)) as [->|].
  { rewrite Z.mul_0_r. replace (pv <? pv + 0) with false by lia. simpl.
    split; [done|]. split; [done|]. apply maps_bytes_nil. }
  assert (SIZE s <= SIZE s * k) as Hsk by nia.
  destruct (area_ok_split pv fv _ (SIZE s) Hok ltac:(lia)) as [Hok1 Hok2].
  replace (pv <? pv + SIZE s * k) with true by lia. simpl.
  assert (vaddr_canonical tgt pv) as [Hpv0 _]%vaddr_canonical_usize
    by (apply (area_canonical _ _ _ Hok1); lia).
  assert (vaddr_canonical tgt (pv + SIZE s)) as Hpv1 by (apply (area_canonical _ _ _ Hok1); lia).
  destruct (area_phys _ _ _ Hok1) as (Hf0 & Hf1 & Hf2).
  rewrite page_forward_in; simpl; [|lia|lia|by rewrite Z.mul_1_r].
  replace (fv <? fv + SIZE s * k) with true by lia. simpl.
  rewrite frame_forward_in; simpl; [|lia|lia|rewrite Z.mul_1_r; unfold paddr_valid; lia].
  eapply returns_unless_bind.
  { apply (pts_map s st (mkPage pv) (mkFrame fv)); simpl; auto.
    intros v Hv. apply (area_canonical _ _ _ Hok1). unfold within in Hv. lia. }
  { intros Hn Hsp. apply Hn. eapply pts_supplies_le; [|exact Hsp]. lia. }
  intros [r st1] (Hi1 & Hsp1 & Hr). destruct r as [u|e].
  - replace (Z.to_nat k) with (1 + Z.to_nat (k - 1))%nat by lia.
    eapply (range_post_step 1 _ st pv fv (SIZE s * k) (SIZE s) st1); [lia|exact Hr|done|].
    rewrite Z.mul_1_r. replace (SIZE s * k - SIZE s) with (SIZE s * (k - 1)) in * by lia.
    apply (IH st1 (mkPage (pv + SIZE s)) (mkPage _) (mkFrame (fv + SIZE s)) (mkFrame _));
      simpl; auto; try lia; apply Z.divide_add_r; auto using Z.divide_refl.
  - split; [done|].
    split; [intros j Hj; apply Hsp1; eapply pts_supplies_le; [|exact Hj]; lia|].
    exists 0. split; [lia|]. intros v Hv. specialize (Hr v Hv).
    unfold within. split; [lia|done].
Qed.

(** Mapping [bytes] bytes with pages of one size. *)
Lemma map_bytes_spec s st virt phys bytes flags :
  pts_inv st -> (SIZE s | virt) -> (SIZE s | phys) -> (SIZE s | bytes) ->
  area_ok virt phys bytes ->
  map_bytes tgt s st virt phys bytes flags
    ⇓{~ pts_supplies (Z.to_nat (bytes / SIZE s)) st}
    range_post (Z.to_nat (bytes / SIZE s)) st virt phys bytes.
Proof.
  intros Hi Hdv Hdp [k ->] Hok. pose proof (SIZE_pos s) as Hs.
  destruct (area_phys _ _ _ Hok) as (Hp0 & Hp1 & Hp2). pose proof (area_size _ _ _ Hok).
  assert (forall x, (SIZE s | x) -> x mod SIZE s = 0) as Hmod
    by (intros x; rewrite Z.mod_divide by lia; auto).
  unfold map_bytes. rewrite page_starts_with_in by auto. simpl.
  rewrite vaddr_add_in by (apply (area_canonical _ _ _ Hok); lia). simpl.
  rewrite page_starts_with_in by (apply Hmod, Z.divide_add_r; auto using Z.divide_factor_r). simpl.
  rewrite frame_starts_with_in by auto. simpl.
  rewrite paddr_add_in by (unfold paddr_valid; lia). simpl.
  rewrite frame_starts_with_in by (apply Hmod, Z.divide_add_r; auto using Z.divide_factor_r). simpl.
  unfold map_range. cbn [page_start]. replace (virt + k * SIZE s - virt) with (k * SIZE s) by lia.
  rewrite Z.div_mul by lia. rewrite Z.mul_comm in *.
  apply (map_range_loop_spec s _ st (mkPage virt) (mkPage _) (mkFrame phys) (mkFrame _));
    simpl; auto; nia.
Qed.

(** ** The area loop *)

Lemma align_down_size w s x :
  is_unsigned w x -> 30 <= w -> Math.align_down w x (SIZE s) = Val (x - x mod SIZE s).
Proof.
  intros Hx Hw. rewrite SIZE_pow2. apply Math.align_down_pow2; [done|]. destruct s; simpl; lia.
Qed.

(** Rounding the bytes left down to a page size that fits at least once. *)
Lemma align_down_fits s x :
  SIZE s <= x -> 0 < x - x mod SIZE s <= x /\ (SIZE s | x - x mod SIZE s).
Proof.
  intros Hx. pose proof (SIZE_pos s) as Hs. pose proof (Z.mod_pos_bound x (SIZE s) Hs).
  split; [lia|]. apply Z.mod_divide; [lia|]. by apply mod_aligned_sub.
Qed.

Definition step_post (virtual_end cursor cursor_physical : Z) (res : FrameSize * Z) : Prop :=
  let '(s, n) := res in
  0 < n <= virtual_end - cursor /\
  (SIZE s | cursor) /\ (SIZE s | cursor_physical) /\ (SIZE s | n).

Lemma area_step_spec virtual_end cursor cursor_physical :
  cursor < virtual_end -> vaddr_canonical tgt cursor -> vaddr_canonical tgt (cursor + 1) ->
  vaddr_canonical tgt virtual_end -> virtual_end + SIZE Size2MiB < 2 ^ 64 ->
  (4096 | cursor) -> (4096 | cursor_physical) -> (4096 | virtual_end) ->
  area_step tgt virtual_end cursor cursor_physical ⇓ step_post virtual_end cursor cursor_physical.
Proof.
  intros Hlt [Hc0 _]%vaddr_canonical_usize Hc1 [_ He]%vaddr_canonical_usize Htop Hdc Hdp Hde.
  assert (is_usize (virtual_end - cursor)) as Hleft by (unfold is_unsigned; lia).
  unfold area_step. rewrite wsub_in by done. obind.
  rewrite (vis_aligned_Val cursor Size1GiB), (is_aligned_Val cursor_physical Size1GiB). obind.
  assert (forall s x, x mod SIZE s = 0 -> (SIZE s | x)) as Hdiv.
  { intros s x. pose proof (SIZE_pos s). rewrite Z.mod_divide by lia. auto. }
  destruct (((cursor mod SIZE Size1GiB =? 0) && (cursor_physical mod SIZE Size1GiB =? 0)
    && (virtual_end - cursor >=? SIZE Size1GiB))) eqn:E1.
  { rewrite align_down_size by (done || lia). obind. cbv beta iota delta [step_post].
    destruct (align_down_fits Size1GiB (virtual_end - cursor)); [lia|].
    split_and!; auto; try lia; apply Hdiv; lia. }
  rewrite (vis_aligned_Val cursor Size2MiB), (is_aligned_Val cursor_physical Size2MiB). obind.
  destruct (((cursor mod SIZE Size2MiB =? 0) && (cursor_physical mod SIZE Size2MiB =? 0)
    && (virtual_end - cursor >=? SIZE Size2MiB))) eqn:E2.
  { rewrite align_down_size by (done || lia). obind. cbv beta iota delta [step_post].
    destruct (align_down_fits Size2MiB (virtual_end - cursor)); [lia|].
    split_and!; auto; try lia; apply Hdiv; lia. }
  rewrite vaddr_add_in by done. obind.
  rewrite (SIZE_pow2 Size2MiB). cbn [size_bits]. change (SIZE Size2MiB) with (2 ^ 21) in Htop.
  rewrite vaddr_align_up_pow2 by (unfold is_unsigned; lia). obind.
  set (b := cursor + 1 + 2 ^ 21 - 1 - (cursor + 1 + 2 ^ 21 - 1) mod 2 ^ 21).
  assert (cursor < b /\ b <= cursor + 2 ^ 21 /\ (2 ^ 21 | b)) as (Hb1 & Hb2 & Hb3).
  { pose proof (Z.mod_pos_bound (cursor + 1 + 2 ^ 21 - 1) (2 ^ 21) ltac:(lia)).
    unfold b. split; [lia|]. split; [lia|]. apply Z.mod_divide; [lia|].
    apply mod_aligned_sub. lia. }
  rewrite wsub_in by (unfold is_unsigned; lia). obind.
  assert ((4096 | b)) as Hb4 by (etrans; [|exact Hb3]; by exists 512).
  obind. cbv beta iota delta [step_post]. split; [lia|]. split; [done|]. split; [done|]. cbn [SIZE].
  destruct (Z.min_spec (b - cursor) (virtual_end - cursor)) as [[_ ->]|[_ ->]];
    apply Z.divide_sub_r; auto.
Qed.

(** The number of 4KiB pages in [n] bytes. *)
Definition small_pages (n : Z) : nat := Z.to_nat (n / SIZE Size4KiB).

Lemma small_pages_add n m :
  0 <= n -> 0 <= m -> (4096 | n) -> small_pages (n + m) = (small_pages n + small_pages m)%nat.
Proof.
  intros Hn Hm [q ->]. unfold small_pages. change (SIZE Size4KiB) with 4096.
  pose proof (Z.div_pos m 4096 Hm ltac:(lia)).
  rewrite Z.div_add_l, Z.div_mul by lia. lia.
Qed.

Lemma size_pages_le s n : 0 <= n -> (Z.to_nat (n / SIZE s) <= small_pages n)%nat.
Proof.
  intros Hn. apply Z2Nat.inj_le; [apply Z.div_pos; auto with poplar|apply Z.div_pos; auto with poplar; done|].
  destruct (SIZE_4KiB_divides s) as [q Eq]. change (SIZE Size4KiB) with 4096.
  pose proof (SIZE_pos s). apply Z.div_le_compat_l; lia.
Qed.

Lemma map_area_loop_spec fuel : forall st virt phys virtual_end flags cursor,
  pts_inv st -> virt <= cursor <= virtual_end ->
  (4096 | virt) -> (4096 | phys) -> (4096 | virtual_end) -> (4096 | cursor) ->
  virtual_end - cursor < 4096 * Z.of_nat fuel ->
  area_ok cursor (phys + (cursor - virt)) (virtual_end - cursor) ->
  0 <= virt -> 0 <= phys -> phys + virtual_end < 2 ^ 64 -> virtual_end + SIZE Size2MiB < 2 ^ 64 ->
  map_area_loop tgt fuel st virt phys virtual_end flags cursor
    ⇓{~ pts_supplies (small_pages (virtual_end - cursor)) st}
    range_post (small_pages (virtual_end - cursor)) st cursor (phys + (cursor - virt))
      (virtual_end - cursor).
Proof.
  induction fuel as [|fuel IH];
    intros st virt phys virtual_end flags cursor Hi Hc Hdv Hdp Hde Hdc Hf Hok Hv0 Hp0 Hsum Htop; [lia|].
  cbn [map_area_loop]. destruct (Z.ltb_spec cursor virtual_end) as [Hlt|Hge].
  2:{ replace virtual_end with cursor by lia. rewrite Z.eqb_refl, Z.sub_diag. simpl.
      split; [done|]. split; [done|]. apply maps_bytes_nil. }
  destruct (area_phys _ _ _ Hok) as (Hph0 & Hph1 & Hph2).
  rewrite wadd_in by (unfold is_unsigned; lia). obind.
  rewrite wsub_in by (unfold is_unsigned; lia). obind.
  replace (phys + cursor - virt) with (phys + (cursor - virt)) by lia.
  rewrite paddr_new_valid by (unfold paddr_valid; lia). obind.
  set (cp := phys + (cursor - virt)) in *.
  assert ((4096 | cp)) as Hdcp by (apply Z.divide_add_r; [done|by apply Z.divide_sub_r]).
  pose proof (area_step_spec virtual_end cursor cp) as Hstep.
  destruct (area_step tgt virtual_end cursor cp) as [[s n]|]; [|exfalso; apply Hstep];
    try (done || (apply (area_canonical _ _ _ Hok); lia)).
  destruct Hstep as (Hn & Hs1 & Hs2 & Hs3); try (done || (apply (area_canonical _ _ _ Hok); lia)).
  obind. destruct (area_ok_split _ _ _ n Hok) as [Hok1 Hok2]; [lia|].
  assert (small_pages (virtual_end - cursor) =
    small_pages n + small_pages (virtual_end - (cursor + n)))%nat as Epages.
  { rewrite <- small_pages_add; [f_equal; lia|lia|lia|].
    by etrans; [apply (SIZE_4KiB_divides s)|]. }
  pose proof (size_pages_le s n ltac:(lia)) as Hpages.
  eapply returns_unless_bind; [by apply map_bytes_spec| |].
  { intros Hno Hsp. apply Hno. eapply pts_supplies_le; [|exact Hsp]. lia. }
  intros [r st1] (Hi1 & Hsp1 & Hr).
  assert (forall j, pts_supplies (small_pages n + j) st -> pts_supplies j st1) as Hsp2
    by (intros j Hj; apply Hsp1; eapply pts_supplies_le; [|exact Hj]; lia).
  destruct r as [u|e].
  2:{ split; [done|]. split.
      - intros j Hj. apply Hsp2. eapply pts_supplies_le; [|exact Hj]. lia.
      - destruct Hr as (d & Hd & Hm). exists d. split; [lia|done]. }
  rewrite vaddr_add_in by (apply (area_canonical _ _ _ Hok); lia). obind.
  rewrite Epages. eapply (range_post_step _ _ st cursor cp _ n st1); [lia|done|done|].
  assert ((4096 | n)) as Hdn by (etrans; [apply (SIZE_4KiB_divides s)|done]).
  assert (4096 <= n) by (apply Z.divide_pos_le; [lia|done]).
  replace (virtual_end - cursor - n) with (virtual_end - (cursor + n)) in * by lia.
  replace (cp + n) with (phys + (cursor + n - virt)) in * by lia.
  apply IH; auto; try lia. by apply Z.divide_add_r.
Qed.

Lemma map_area_spec st virt phys size flags :
  pts_inv st -> (4096 | virt) -> (4096 | phys) -> (4096 | size) ->
  area_ok virt phys size ->
  phys + virt + size < 2 ^ 64 -> virt + size + SIZE Size2MiB < 2 ^ 64 ->
  map_area tgt st virt phys size flags
    ⇓{~ pts_supplies (small_pages size) st} range_post (small_pages size) st virt phys size.
Proof.
  intros Hi Hdv Hdp Hds Hok Hsum Htop.
  pose proof (area_size _ _ _ Hok) as Hs0. destruct (area_phys _ _ _ Hok) as (Hp0 & Hp1 & Hp2).
  assert (vaddr_canonical tgt virt) as [Hv0 Hv1]%vaddr_canonical_usize
    by (apply (area_canonical _ _ _ Hok); lia).
  assert (forall x, (4096 | x) -> x mod SIZE Size4KiB = 0) as Hmod
    by (intros x Hx; by apply Z.mod_divide).
  unfold map_area. rewrite vis_aligned_Val, Hmod by done. obind.
  rewrite is_aligned_Val, Hmod by done. obind.
  rewrite urem_size, Hmod by done. obind.
  rewrite Math.abs_difference_spec by (unfold is_unsigned; lia). obind. rewrite urem_size. obind.
  destruct ((size <? SIZE Size2MiB) || _).
  { by apply map_bytes_spec. }
  rewrite vaddr_add_in by (apply (area_canonical _ _ _ Hok); lia). obind.
  pose proof (map_area_loop_spec (S (Z.to_nat (size / SIZE Size4KiB))) st virt phys
    (virt + size) flags virt) as Hloop.
  replace (virt + size - virt) with size in Hloop by lia.
  replace (phys + (virt - virt)) with phys in Hloop by lia.
  apply Hloop; auto; try lia.
  - by apply Z.divide_add_r.
  - destruct Hds as [q ->]. change (SIZE Size4KiB) with 4096. rewrite Z.div_mul by lia. lia.
Qed.

End correctness.
