(* ===== verification/Translation.v ===== *)
(** * Virtual addresses as index paths, and the translation of a set of tables

    The walk of a set of tables with [L] levels uses nine bits of the address
    per level above the twelve bits of the page offset.  [translation] is the
    function from virtual to physical addresses that the tables denote: what the
    memory management unit computes, leaves of every level included. *)

From stdpp Require Import base tactics option list numbers gmap.
From S2P Require Import Prelude Memory FrameAllocator PageTable Mapper.

(** The bits of an address below its index at level [k]. *)
Definition level_shift (k : nat) : Z := 12 + 9 * Z.of_nat k.

Fixpoint indices (L : nat) (v : Z) : list Z :=
  match L with
  | O => []
  | S k => (v / 2 ^ level_shift k) mod 512 :: indices k v
  end.

(** Levels below the table a page of this size is mapped in. *)
Definition size_level (s : FrameSize) : nat :=
  match s with Size4KiB => 0 | Size2MiB => 1 | Size1GiB => 2 end.

Definition slot_of (L : nat) (s : FrameSize) (v : Z) : list Z := take (L - size_level s) (indices L v).

Lemma length_indices L v : length (indices L v) = L.
Proof. induction L; simpl; auto. Qed.

Lemma indices_ok L v : Forall index_ok (indices L v).
Proof.
  induction L as [|L IH]; simpl; constructor; auto. apply Z.mod_pos_bound. lia.
Qed.

Lemma size_level_shift s : SIZE s = 2 ^ level_shift (size_level s).
Proof. by destruct s. Qed.

Lemma mod_mul_split x a b :
  0 < a -> 0 < b -> x mod (a * b) = x mod a + a * ((x / a) mod b).
Proof. intros. rewrite Z.rem_mul_r by lia. done. Qed.

(** The first [L - n] indices are the address bits from level [n] up. *)
Lemma take_indices L n v w :
  (n <= L)%nat ->
  take (L - n) (indices L v) = take (L - n) (indices L w) <->
  (v / 2 ^ level_shift n) mod 2 ^ (9 * Z.of_nat (L - n)) =
  (w / 2 ^ level_shift n) mod 2 ^ (9 * Z.of_nat (L - n)).
Proof.
  induction L as [|L IH]; intros Hn.
  { replace n with 0%nat by lia. simpl. by rewrite !Z.mod_1_r. }
  destruct (decide (n = S L)) as [->|].
  { rewrite Nat.sub_diag. simpl. by rewrite !Z.mod_1_r. }
  assert (n <= L)%nat as HnL by lia. specialize (IH HnL).
  replace (S L - n)%nat with (S (L - n)) by lia. simpl take.
  assert (2 ^ (9 * Z.of_nat (S (L - n))) = 2 ^ (9 * Z.of_nat (L - n)) * 512) as ->.
  { replace (9 * Z.of_nat (S (L - n))) with (9 * Z.of_nat (L - n) + 9) by lia.
    by rewrite Z.pow_add_r by lia. }
  pose proof (pow2_pos (9 * Z.of_nat (L - n)) ltac:(lia)) as HQ.
  pose proof (pow2_pos (level_shift n) ltac:(unfold level_shift; lia)) as HP.
  rewrite !mod_mul_split by lia.
  assert (forall x, x / 2 ^ level_shift n / 2 ^ (9 * Z.of_nat (L - n)) = x / 2 ^ level_shift L) as Hdiv.
  { intros x. rewrite Z.div_div, <- Z.pow_add_r by (unfold level_shift; lia).
    do 2 f_equal. unfold level_shift. lia. }
  rewrite !Hdiv.
  pose proof (Z.mod_pos_bound (v / 2 ^ level_shift n) _ HQ).
  pose proof (Z.mod_pos_bound (w / 2 ^ level_shift n) _ HQ).
  split.
  - intros [= Eh Et]. apply IH in Et. by rewrite Eh, Et.
  - intros E. assert ((v / 2 ^ level_shift n) mod 2 ^ (9 * Z.of_nat (L - n)) =
      (w / 2 ^ level_shift n) mod 2 ^ (9 * Z.of_nat (L - n))) as E1.
    { apply (f_equal (fun x => x mod 2 ^ (9 * Z.of_nat (L - n)))) in E.
      rewrite !(Z.mul_comm (2 ^ _) (_ mod 512)), !Z.mod_add, !Z.mod_mod in E by lia. done. }
    f_equal; [|by apply IH]. rewrite E1 in E. nia.
Qed.

Section canonical.
Context (tgt : target) (L : nat).
Context (Htgt : tgt <> OtherTarget) (HL : va_bits tgt = level_shift L).

(** For canonical addresses the significant bits decide. *)
Lemma canonical_quotient n v w :
  vaddr_canonical tgt v -> vaddr_canonical tgt w -> (n < L)%nat ->
  v / 2 ^ level_shift n = w / 2 ^ level_shift n <->
  (v / 2 ^ level_shift n) mod 2 ^ (9 * Z.of_nat (L - n)) =
  (w / 2 ^ level_shift n) mod 2 ^ (9 * Z.of_nat (L - n)).
Proof.
  intros Hv Hw Hn. split; [by intros ->|]. intros E.
  set (c := level_shift n) in *. set (d := 9 * Z.of_nat (L - n)) in *.
  assert (va_bits tgt = c + d) as Hb by (rewrite HL; unfold c, d, level_shift; lia).
  assert (0 <= c) by (unfold c, level_shift; lia). assert (9 <= d) by (unfold d; lia).
  assert (va_bits tgt < 64) as H64 by (destruct tgt; simpl; lia || done).
  pose proof (pow2_pos c ltac:(lia)) as Hc. pose proof (pow2_pos (d - 1) ltac:(lia)) as Hd1.
  assert (2 ^ d = 2 * 2 ^ (d - 1)) as Ed by (rewrite <- Z.pow_succ_r by lia; f_equal; lia).
  assert (2 ^ 64 = 2 ^ (64 - c) * 2 ^ c) as E64 by (rewrite <- Z.pow_add_r by lia; f_equal; lia).
  assert (2 ^ (va_bits tgt - 1) = 2 ^ (d - 1) * 2 ^ c) as Eh
    by (rewrite <- Z.pow_add_r by lia; f_equal; lia).
  assert (exists k, 2 ^ (64 - c) = k * 2 ^ d /\ 1 < k) as (k & Ek & Hk).
  { exists (2 ^ (64 - c - d)). rewrite <- Z.pow_add_r by lia. split; [f_equal; lia|].
    apply (Z.pow_gt_1 2); lia. }
  assert (forall x, vaddr_canonical tgt x ->
    (x / 2 ^ c) mod 2 ^ d = x / 2 ^ c - (if decide (x < 2 ^ (va_bits tgt - 1)) then 0 else (k - 1) * 2 ^ d)
    /\ ((x / 2 ^ c) mod 2 ^ d < 2 ^ (d - 1) <-> x < 2 ^ (va_bits tgt - 1))) as Hq.
  { intros x Hx. assert (0 <= x < 2 ^ (va_bits tgt - 1) \/ 2 ^ 64 - 2 ^ (va_bits tgt - 1) <= x < 2 ^ 64) as Hx'
      by (destruct tgt; done).
    case_decide as Hlow.
    - destruct Hx' as [Hx'|]; [|nia].
      assert (0 <= x / 2 ^ c < 2 ^ (d - 1)) as Hr.
      { split; [apply Z.div_pos; lia|]. apply Z.div_lt_upper_bound; lia. }
      rewrite Z.mod_small by lia. lia.
    - destruct Hx' as [|Hx']; [lia|].
      assert (k * 2 ^ d - 2 ^ (d - 1) <= x / 2 ^ c < k * 2 ^ d) as Hr.
      { split; [apply Z.div_le_lower_bound; nia|apply Z.div_lt_upper_bound; nia]. }
      assert ((x / 2 ^ c) mod 2 ^ d = x / 2 ^ c - (k - 1) * 2 ^ d) as ->.
      { symmetry. apply (Z.mod_unique _ _ (k - 1)); [|nia]. nia. }
      split; [done|]. split; [nia|lia]. }
  destruct (Hq v Hv) as [Ev Lv], (Hq w Hw) as [Ew Lw].
  repeat case_decide; lia.
Qed.

Lemma within_slot s page v :
  (size_level s < L)%nat -> (SIZE s | page) ->
  vaddr_canonical tgt page -> vaddr_canonical tgt v ->
  within page (SIZE s) v <-> slot_of L s page `prefix_of` indices L v.
Proof.
  intros Hs [q Eq] Hp Hv. unfold slot_of.
  assert (take (L - size_level s) (indices L page) `prefix_of` indices L v <->
    take (L - size_level s) (indices L v) = take (L - size_level s) (indices L page)) as ->.
  { split.
    - intros [r ->]. rewrite take_app_le by (rewrite length_take, length_indices; lia).
      rewrite take_ge; [done|]. rewrite length_take, length_indices. lia.
    - intros <-. exists (drop (L - size_level s) (indices L v)). by rewrite take_drop. }
  rewrite take_indices, <- canonical_quotient by (done || lia).
  rewrite <- size_level_shift, Eq, Z.div_mul by (pose proof (SIZE_pos s); lia).
  unfold within. pose proof (SIZE_pos s) as Hpos.
  pose proof (Z.mod_pos_bound v (SIZE s) Hpos). pose proof (Z.div_mod v (SIZE s) ltac:(lia)).
  split; [|nia]. intros Hin. symmetry. apply (Z.div_unique _ _ _ (v - q * SIZE s)); lia.
Qed.

End canonical.

(** ** The translation a set of tables denotes *)

Section translation.
Context `{EF : EntryFormat} {elim : Z} `{!EntryFormatSpec elim}.
Context (tgt : target) {A : Type} `{FA : FrameAllocator A} `{!FrameAllocatorSpec tgt A}.
Context (physical_base lim : Z) (L : nat).

Definition translation (m : Machine) (root v : Z) : option Z :=
  match leaf_of physical_base m root (indices L v) with
  | Some (e, n) =>
      match entry_address e with
      | Val (Some pa) => Some (pa + v mod 2 ^ level_shift n)
      | _ => None
      end
  | None => None
  end.

Lemma translation_flush m addr root v :
  translation (flush_page m addr) root v = translation m root v.
Proof. unfold translation. by rewrite leaf_of_flush. Qed.

Lemma same_leaves_translation m m' root v :
  same_leaves physical_base L m m' root -> translation m' root v = translation m root v.
Proof.
  intros Hs. unfold translation. rewrite Hs; [done|apply indices_ok|apply length_indices].
Qed.

Context (Htgt : tgt <> OtherTarget) (HL : va_bits tgt = level_shift L).

(** What mapping one page does to the translation. *)
Definition maps_page (m m' : Machine) (root page frame size : Z) : Prop :=
  forall v, vaddr_canonical tgt v ->
    (within page size v ->
       translation m root v = None /\ translation m' root v = Some (frame + (v - page))) /\
    (~ within page size v -> translation m' root v = translation m root v).

Lemma maps_slot_translation s m m' root page frame entry :
  (size_level s < L)%nat -> (SIZE s | page) ->
  vaddr_canonical tgt page -> entry_address entry = Val (Some frame) ->
  maps_slot physical_base L m m' root (slot_of L s page) entry ->
  maps_page m m' root page frame (SIZE s).
Proof.
  intros Hs Hd Hp He [Hout Hin] v Hv. unfold translation.
  pose proof (within_slot tgt L Htgt HL s page v Hs Hd Hp Hv) as Hw.
  split.
  - intros Hwi. pose proof Hwi as [r Er]%Hw.
    assert (length (slot_of L s page) = L - size_level s)%nat as Hlen
      by (unfold slot_of; rewrite length_take, length_indices; lia).
    assert (Forall index_ok r) as Hr.
    { pose proof (indices_ok L v) as Hok. rewrite Er in Hok. by apply Forall_app in Hok as [_ ?]. }
    assert (length r = size_level s) as Hlr.
    { apply (f_equal length) in Er. rewrite length_app, length_indices in Er. lia. }
    rewrite Er. destruct (Hin r Hr) as [-> ->]; [lia|]. split; [done|].
    rewrite He, Hlr, <- size_level_shift. do 2 f_equal.
    destruct Hd as [q ->]. unfold within in Hwi. symmetry.
    apply (Z.mod_unique _ _ q); lia.
  - intros Hwo. rewrite Hout; [done|apply indices_ok|apply length_indices|]. by rewrite <- Hw.
Qed.

Context (Hdirect : forall pa, 0 <= pa < lim -> vaddr_canonical tgt (physical_base + pa)).
Context (Hlim : lim <= elim).

(** Mapping one page of any size along its slot. *)
Lemma map_slot_spec s m a root page frame flags path last :
  pt_wf tgt physical_base lim L m a root ->
  slot_of L s page = path ++ [last] -> (size_level s < L)%nat ->
  (SIZE s | page) -> (SIZE s | frame) -> vaddr_canonical tgt page ->
  0 <= frame < elim -> is_usize (physical_base + frame) ->
  map_path tgt physical_base (m, a) root path last (entry_for_frame s frame flags)
    ⇓{~ supplies (L - 1) a} fun '(r, (m', a')) =>
    pt_wf tgt physical_base lim L m' a' root /\ spends (L - 1) a a' /\
    match r with
    | Ok _ => maps_page m m' root page frame (SIZE s)
    | Err _ => same_leaves physical_base L m m' root /\
        (s = Size4KiB -> blocked physical_base m m' root (slot_of L s page))
    end.
Proof.
  intros Hwf Hslot Hs Hdp Hdf Hp Hf Hu.
  destruct (ef_frame s frame flags) as (Ead & Elf & Eu); [done| |].
  { etrans; [apply (SIZE_4KiB_divides s)|done]. }
  assert (Forall index_ok (path ++ [last])) as [Hpath [Hlast _]%Forall_cons]%Forall_app.
  { rewrite <- Hslot. apply Forall_take, indices_ok. }
  assert (length path + 1 = L - size_level s)%nat as Hlen.
  { apply (f_equal length) in Hslot. unfold slot_of in Hslot.
    rewrite length_take, length_indices, length_app in Hslot. simpl in Hslot. lia. }
  eapply returns_unless_weaken.
  { eapply (map_path_spec tgt physical_base lim L Hdirect Hlim m a root path last _ frame);
      eauto; [lia|]. intros HL'. apply Elf. intros ->. simpl in *. lia. }
  { intros Hn Hs'. apply Hn. eapply supplies_le; [|exact Hs']. lia. }
  intros [r [m' a']] (Hwf' & Hsp & Hr). split; [done|].
  split; [eapply spends_le; [|exact Hsp]; lia|]. destruct r.
  - eapply maps_slot_translation; eauto. by rewrite Hslot.
  - destruct Hr as [Hsame Hbl]. split; [done|]. intros ->. rewrite Hslot. apply Hbl. simpl in Hlen. lia.
Qed.

(** ** What the implementations of the trait share

    Each [map] is [map_path] along the page's slot followed by the invalidation
    of the page on success, each [unmap] is [unmap_path]; [map_by_slot] is that
    shape. *)

Definition flush_mapped {s} (page : Page s) (res : result unit PagingError * (Machine * A)) :
    result unit PagingError * (Machine * A) :=
  match res with
  | (Ok _, (m, a)) => (Ok tt, (flush_page m (page_start page), a))
  | (Err e, ma) => (Err e, ma)
  end.

Definition map_by_slot (root : Z)
    (map : forall s, Machine * A -> Page s -> Frame s -> Flags ->
       outcome (result unit PagingError * (Machine * A))) : Prop :=
  forall s ma (page : Page s) (frame : Frame s) flags, is_usize (page_start page) ->
    exists path last, slot_of L s (page_start page) = path ++ [last] /\
      map s ma page frame flags =
        (res ← map_path tgt physical_base ma root path last
                 (entry_for_frame s (frame_start frame) flags);
         mret (flush_mapped page res)).

Context (Hlimit : 0 <= lim <= paddr_limit tgt) (HL3 : (3 <= L)%nat).

Section page_table.
Context (root : Z) (map : forall s, Machine * A -> Page s -> Frame s -> Flags ->
  outcome (result unit PagingError * (Machine * A))) (Hmap : map_by_slot root map).

Lemma map_by_slot_spec s m a (page : Page s) (frame : Frame s) flags :
  pt_wf tgt physical_base lim L m a root ->
  (SIZE s | page_start page) -> (SIZE s | frame_start frame) ->
  vaddr_canonical tgt (page_start page) ->
  0 <= frame_start frame -> frame_start frame + SIZE s <= lim ->
  map s (m, a) page frame flags ⇓{~ supplies (L - 1) a} fun '(r, (m', a')) =>
    pt_wf tgt physical_base lim L m' a' root /\ spends (L - 1) a a' /\
    match r with
    | Ok _ => maps_page m m' root (page_start page) (frame_start frame) (SIZE s) /\
        exists m0, m' = flush_page m0 (page_start page)
    | Err _ => same_leaves physical_base L m m' root /\
        (s = Size4KiB -> blocked physical_base m m' root (slot_of L s (page_start page)))
    end.
Proof.
  intros Hwf Hdp Hdf Hp Hf0 Hf1. pose proof (SIZE_pos s).
  destruct (Hmap s (m, a) page frame flags) as (path & last & Hslot & ->);
    [by apply (vaddr_canonical_usize tgt)|].
  eapply returns_unless_bind.
  { apply (map_slot_spec s m a root (page_start page) (frame_start frame)); auto; try lia.
    - destruct s; simpl; lia.
    - apply (vaddr_canonical_usize tgt), Hdirect. lia. }
  { done. }
  intros [r [m' a']] (Hwf' & Hsp & Hr). destruct r as [u|e]; simpl; [|done].
  split; [by apply pt_wf_flush|]. split; [done|]. split; [|by eexists].
  intros v Hv. rewrite translation_flush. by apply Hr.
Qed.

Program Definition page_table_spec : @PageTableSpec tgt (Machine * A) {| pt_map := map |} :=
  @Build_PageTableSpec tgt (Machine * A) {| pt_map := map |}
    (fun '(m, a) => pt_wf tgt physical_base lim L m a root)
    (fun '(m, _) => translation m root) lim
    (fun n '(_, a) => supplies (n * (L - 1)) a) _ _ _.
Next Obligation. intros n k [m a] Hle. apply supplies_le. nia. Qed.
Next Obligation. done. Qed.
Next Obligation.
  intros s [m a] page frame flags Hwf Hdp Hdf Hp Hf0 Hf1. pose proof (SIZE_pos s).
  eapply returns_unless_weaken.
  { apply (map_by_slot_spec s m a page frame flags); auto. apply Hp. unfold within. lia. }
  { by rewrite Nat.mul_1_l. }
  intros [r [m' a']] (Hwf' & Hsp & Hr). split; [done|].
  split; [intros n; apply Hsp|]. destruct r as [u|e]; [apply Hr|].
  destruct Hr as [Hsame _]. intros v _. by apply same_leaves_translation.
Qed.

End page_table.

Lemma slot_of_4KiB v : slot_of L Size4KiB v = indices L v.
Proof. unfold slot_of. simpl. rewrite Nat.sub_0_r, take_ge; [done|]. by rewrite length_indices. Qed.

(** [unmap] on a page that a last-level entry maps. *)
Lemma unmap_translation m a root path last (page : Page Size4KiB) e :
  pt_wf tgt physical_base lim L m a root ->
  indices L (page_start page) = path ++ [last] ->
  (SIZE Size4KiB | page_start page) -> vaddr_canonical tgt (page_start page) ->
  leaf_of physical_base m root (path ++ [last]) = Some (e, O) ->
  unmap_path tgt physical_base m root path last (page_start page) ⇓ fun '(r, m') =>
    pt_wf tgt physical_base lim L m' a root /\
    (exists f, r = Some f /\ translation m root (page_start page) = Some (frame_start f)) /\
    flushed m' = page_start page :: flushed m /\
    forall v, vaddr_canonical tgt v ->
      (within (page_start page) (SIZE Size4KiB) v -> translation m' root v = None) /\
      (~ within (page_start page) (SIZE Size4KiB) v -> translation m' root v = translation m root v).
Proof.
  intros Hwf Hidx Hd Hp Hleaf.
  destruct (leaf_of_walk _ _ _ _ _ _ Hleaf) as (T & pa & HT & -> & Hpa).
  destruct (ef_addr _ _ (pt_words _ _ _ _ _ _ _ Hwf T last) Hpa) as [Hdpa _].
  assert (Forall index_ok (path ++ [last])) as [Hpath [Hlast _]%Forall_cons]%Forall_app
    by (rewrite <- Hidx; apply indices_ok).
  assert (S (length path) = L) as Hlen.
  { apply (f_equal length) in Hidx. rewrite length_indices, length_app in Hidx. simpl in Hidx. lia. }
  eapply returns_weaken.
  { by apply (unmap_path_spec tgt physical_base lim L Hdirect m a root path last (page_start page) T pa). }
  intros [r m'] (-> & Hwf' & Hfl & Hnone & Hother). split; [done|]. split; [|split; [done|]].
  - exists (mkFrame pa). split; [done|]. unfold translation. rewrite Hidx, Hleaf, Hpa. simpl.
    f_equal. change (2 ^ level_shift 0) with (SIZE Size4KiB).
    apply Z.mod_divide in Hd; [|done]. lia.
  - intros v Hv. pose proof (within_slot tgt L Htgt HL Size4KiB (page_start page) v ltac:(simpl; lia) Hd Hp Hv) as Hw.
    rewrite slot_of_4KiB in Hw. unfold translation. split.
    + intros [r Er]%Hw. assert (r = []) as ->.
      { apply (f_equal length) in Er. rewrite length_app, !length_indices in Er.
        destruct r; [done|simpl in Er; lia]. }
      rewrite app_nil_r in Er. by rewrite Er, Hidx, Hnone.
    + intros Hout. rewrite Hother; [done|apply indices_ok|apply length_indices|].
      intros E. apply Hout, Hw. by rewrite E, Hidx.
Qed.

Lemma leaf_translation m root v e n :
  leaf_of physical_base m root (indices L v) = Some (e, n) -> is_Some (translation m root v).
Proof.
  intros Hl. unfold translation. rewrite Hl.
  destruct (leaf_of_entry _ _ _ _ _ _ Hl) as (_ & _ & pa & _ & ->). eauto.
Qed.

(** Where only entries that hold an address are in use, a refused 4KiB page is
    one that is mapped. *)
Lemma blocked_mapped m m' a' root page :
  (forall e, is_unsigned 64 e -> entry_in_use e = true -> exists pa, entry_address e = Val (Some pa)) ->
  pt_wf tgt physical_base lim L m' a' root -> same_leaves physical_base L m m' root ->
  (SIZE Size4KiB | page) -> vaddr_canonical tgt page ->
  blocked physical_base m m' root (slot_of L Size4KiB page) ->
  forall v, vaddr_canonical tgt v -> within page (SIZE Size4KiB) v -> is_Some (translation m root v).
Proof.
  intros Huse Hwf Hsame Hd Hp Hb v Hv Hin.
  apply (within_slot tgt L Htgt HL Size4KiB page v ltac:(simpl; lia) Hd Hp Hv) in Hin.
  assert (indices L v = indices L page) as Ev.
  { rewrite slot_of_4KiB in Hin. destruct Hin as [r Er]. rewrite Er.
    apply (f_equal length) in Er. rewrite length_app, !length_indices in Er.
    destruct r; [by rewrite app_nil_r|simpl in Er; lia]. }
  rewrite slot_of_4KiB, <- Ev in Hb.
  destruct Hb as [[[e n] Hl]|(path & last & T & Ep & HT & Hin_use)].
  { by eapply leaf_translation. }
  destruct (Huse (word m' T last)) as [pa Hpa]; [apply Hwf|done|].
  eapply leaf_translation. rewrite <- Hsame by (apply indices_ok || apply length_indices).
  rewrite Ep, (leaf_of_app _ _ _ _ _ _ HT) by done. simpl. by rewrite Hpa.
Qed.

(** [translate] computes the translation where no leaf lies above a P2. *)
Lemma translate_translation m a root path i2 i1 v :
  pt_wf tgt physical_base lim L m a root ->
  indices L v = path ++ [i2; i1] ->
  (forall e n, leaf_of physical_base m root (indices L v) = Some (e, n) -> n <= 1)%nat ->
  (forall e n pa, leaf_of physical_base m root (indices L v) = Some (e, n) ->
     entry_address e = Val (Some pa) -> pa + 2 ^ level_shift n <= paddr_limit tgt) ->
  translate_path tgt physical_base m root path i2 i1 v = Val (translation m root v).
Proof.
  intros Hwf Hidx Hdeep Hend.
  assert (Forall index_ok (path ++ [i2; i1]))
    as [Hpath [Hi2 [Hi1 _]%Forall_cons]%Forall_cons]%Forall_app
    by (rewrite <- Hidx; apply indices_ok).
  assert (length path + 2 = L)%nat as Hlen.
  { apply (f_equal length) in Hidx. by rewrite length_indices, length_app in Hidx. }
  unfold translation. rewrite Hidx in *.
  rewrite (translate_path_spec tgt physical_base lim L Hdirect m a root path i2 i1 v); auto.
  - destruct (leaf_of _ _ _ _) as [[e n]|] eqn:Hl; [|done].
    destruct (entry_address e) as [[pa|]|]; try done.
    specialize (Hdeep e n eq_refl). destruct n as [|[|n]]; [done..|lia].
  - intros e n pa o Hl Hpa Ho Ho0. specialize (Hend e n pa Hl Hpa). specialize (Hdeep e n Hl).
    destruct (leaf_of_entry _ _ _ _ _ _ Hl) as (T & i & pa' & -> & Hpa').
    rewrite Hpa in Hpa'. injection Hpa' as <-.
    destruct (ef_addr _ _ (pt_words _ _ _ _ _ _ _ Hwf T i) Hpa) as [_ Hb].
    split; [lia|]. unfold paddr_valid. destruct n as [|[|n]]; [| |lia].
    + change (2 ^ level_shift 0) with (SIZE Size4KiB) in Hend. specialize (Ho0 eq_refl). lia.
    + change (2 ^ level_shift 1) with (SIZE Size2MiB) in Hend. lia.
Qed.

End translation.
