(* ===== verification/TableMemory.v ===== *)
(** * The memory of page tables

    Mapping a page may take frames for new tables.  [grows] is what that does to
    physical memory: the allocator's free memory only shrinks, and every byte of a
    table was in a table before or was free.  [TableMemorySpec] states it for the
    [PageTable] interface, and [Follow] carries it through every operation that is
    verified against the interface: a set of page tables whose invariant also
    says how the memory developed since a given state is again one. *)

From stdpp Require Import base tactics option list numbers gmap.
From S2P Require Import Prelude Memory FrameAllocator PageTable Mapper Translation.

(** ** Walking and creating tables *)

Section tables.
Context `{EF : EntryFormat} {elim : Z} `{!EntryFormatSpec elim}.
Context (tgt : target) {A : Type} `{FA : FrameAllocator A} `{!FrameAllocatorSpec tgt A}.
Context (physical_base lim : Z) (L : nat).
Context (Hdirect : forall pa, 0 <= pa < lim -> vaddr_canonical tgt (physical_base + pa)).
Context (Hlim : lim <= elim).

Abbreviation wf := (pt_wf tgt physical_base lim L).

(** The physical byte [x] is part of a table. *)
Definition table_byte (m : Machine) (root x : Z) : Prop :=
  exists path pa, Forall index_ok path /\ (length path < L)%nat /\
    walk physical_base m root path = Some (physical_base + pa) /\ pa <= x < pa + 4096.

Definition grows (root : Z) (ma ma' : Machine * A) : Prop :=
  (forall x, fa_owns ma'.2 x -> fa_owns ma.2 x) /\
  (forall x, table_byte ma'.1 root x -> table_byte ma.1 root x \/ fa_owns ma.2 x).

Lemma grows_refl root ma : grows root ma ma.
Proof. split; auto. Qed.

Lemma grows_trans root ma1 ma2 ma3 : grows root ma1 ma2 -> grows root ma2 ma3 -> grows root ma1 ma3.
Proof. intros [Hf1 Ht1] [Hf2 Ht2]. split; [auto|]. intros x [Hx%Ht1|Hx%Hf1]%Ht2; auto. Qed.

(** Free memory holds no table. *)
Lemma table_byte_taken m a root x : wf m a root -> table_byte m root x -> ~ fa_owns a x.
Proof.
  intros Hwf (path & pa & Hp & Hl & Hw & Hx).
  destruct (pt_tables _ _ _ _ _ _ _ Hwf path _ Hp Hl Hw) as (pa' & E & _ & _ & _ & Hno).
  apply Hno. lia.
Qed.

Lemma next_table_create_grows m a root p0 T i r ma' :
  wf m a root -> Forall index_ok p0 -> (S (length p0) < L)%nat -> walk physical_base m root p0 = Some T ->
  index_ok i -> next_table_create tgt physical_base (m, a) T i = Val (r, ma') -> grows root (m, a) ma'.
Proof.
  intros Hwf Hp0 HL HT Hi. unfold next_table_create.
  destruct (next_table_in tgt physical_base lim L m a root Hwf p0 T i) as (o & Ho & ->); [done|lia|done..|].
  destruct o as [pa|]; obind.
  { rewrite table_index_in by done. obind. cbn [fmap option_fmap option_map].
    destruct (entry_is_leaf _); intros E; outcome_inv; simplify_eq; apply grows_refl. }
  destruct (allocate Size4KiB a) as [[f a']|] eqn:Hal; [|done]. obind.
  rewrite table_index_set_in by done. obind.
  destruct (new_table_range tgt physical_base lim L m a a' root p0 f Hwf HL Hal) as (H0 & H1 & H2).
  destruct (ef_table (frame_start f)) as (Ead & _); [lia|done|].
  simpl. unfold next_table. rewrite table_index_in by done.
  simpl. rewrite word_put, decide_True by done. rewrite Ead. simpl. rewrite vaddr_add_in by (apply Hdirect; lia). simpl.
  intros E. outcome_inv. simplify_eq.
  destruct (allocate_Val a f a' (pt_alloc _ _ _ _ _ _ _ Hwf) Hal) as (_ & _ & _ & _ & Hown & Hsub).
  split; [done|]. simpl. intros x (path & pa & Hp & Hl & Hw & Hx).
  destruct (link_back tgt physical_base lim L Hlim m a a' root p0 T i f Hwf Hp0 HL HT Hi Hal path _ Hp Hl Hw)
    as [[_ E]|Hw0].
  - right. apply Hown. lia.
  - left. by exists path, pa.
Qed.

Lemma create_path_grows root path : forall m a p0 T r ma',
  wf m a root -> Forall index_ok p0 -> Forall index_ok path ->
  (length p0 + length path < L)%nat -> walk physical_base m root p0 = Some T ->
  create_path tgt physical_base (m, a) T path = Val (r, ma') -> grows root (m, a) ma'.
Proof.
  induction path as [|i path IH]; intros m a p0 T r ma' Hwf Hp0 Hpath HL HT; cbn [create_path].
  { intros E. outcome_inv. simplify_eq. apply grows_refl. }
  apply Forall_cons in Hpath as [Hi Hpath]. simpl in HL.
  pose proof (next_table_create_spec tgt physical_base lim L Hdirect Hlim m a root p0 T i Hwf Hp0 ltac:(lia) HT Hi) as Hs.
  destruct (next_table_create _ _ _ _ _) as [[r1 [m1 a1]]|] eqn:E1; [|done]. obind.
  apply next_table_create_grows with (root := root) (p0 := p0) in E1 as Hg; auto; [|lia].
  destruct Hs as (Hwf1 & _ & _ & Hr). destruct r1 as [t1|e]; intros E; [|outcome_inv; by simplify_eq].
  eapply grows_trans; [exact Hg|]. eapply (IH m1 a1 (p0 ++ [i]) t1); eauto.
  - by apply Forall_app_2; [|apply Forall_singleton].
  - rewrite length_app. simpl. lia.
Qed.

Lemma map_path_grows m a root path last entry pa r ma' :
  wf m a root -> Forall index_ok path -> index_ok last -> (length path < L)%nat ->
  is_unsigned 64 entry -> entry_address entry = Val (Some pa) ->
  (S (length path) < L -> entry_is_leaf entry = true)%nat ->
  map_path tgt physical_base (m, a) root path last entry = Val (r, ma') -> grows root (m, a) ma'.
Proof.
  intros Hwf Hpath Hlast HL Hu Hpa Hleaf. unfold map_path.
  pose proof (create_path_spec tgt physical_base lim L Hdirect Hlim root path m a [] root Hwf ltac:(constructor)
    Hpath HL eq_refl) as Hs.
  destruct (create_path _ _ _ _ _) as [[r1 [m1 a1]]|] eqn:E1; [|done]. obind.
  apply create_path_grows with (root := root) (p0 := []) in E1 as Hg; auto.
  destruct Hs as (Hwf1 & _ & _ & Hr). destruct r1 as [T|e]; [|intros E; outcome_inv; by simplify_eq].
  rewrite table_index_in by done. obind. destruct (entry_in_use _); [intros E; outcome_inv; by simplify_eq|].
  rewrite table_index_set_in by done. obind. intros E. outcome_inv. simplify_eq.
  eapply grows_trans; [exact Hg|]. split; [done|]. simpl. intros x (q & p & Hq & Hl & Hw & Hx). left.
  exists q, p. split; [done|]. split; [done|]. split; [|done].
  eapply (set_slot_back tgt physical_base lim L m1 a1 root path T last entry); eauto.
  intros HL'. unfold child. rewrite word_put, decide_True, Hpa by done. by rewrite Hleaf.
Qed.

(** The implementations of [map]. *)
Lemma map_by_slot_grows (Htgt : tgt <> OtherTarget) (HL : va_bits tgt = level_shift L) (HL3 : (3 <= L)%nat) root map s m a
    (page : Page s) (frame : Frame s) flags r ma' :
  map_by_slot tgt physical_base L root map -> wf m a root ->
  is_usize (page_start page) -> (SIZE s | frame_start frame) -> 0 <= frame_start frame < elim ->
  map s (m, a) page frame flags = Val (r, ma') -> grows root (m, a) ma'.
Proof.
  intros Hmap Hwf Hpage Hdf Hf.
  destruct (Hmap s (m, a) page frame flags Hpage) as (path & last & Hslot & ->).
  destruct (ef_frame s (frame_start frame) flags) as (Ead & Elf & Eu); [done| |].
  { etrans; [apply (SIZE_4KiB_divides s)|done]. }
  assert (Forall index_ok (path ++ [last])) as [Hpath [Hlast _]%Forall_cons]%Forall_app.
  { rewrite <- Hslot. apply Forall_take, indices_ok. }
  assert (length path + 1 = L - size_level s)%nat as Hlen.
  { apply (f_equal length) in Hslot. unfold slot_of in Hslot.
    rewrite length_take, length_indices, length_app in Hslot. simpl in Hslot. lia. }
  assert (size_level s < L)%nat by (destruct s; simpl; lia).
  intros E. outcome_inv. destruct a0 as [r0 [m0 a0]].
  apply map_path_grows with (root := root) (pa := frame_start frame) in Ha as Hg; auto; [|lia|].
  2:{ intros HL'. apply Elf. intros ->. simpl in *. lia. }
  destruct r0; simpl in E; simplify_eq; [|done].
  destruct Hg as [Hf0 Ht]. split; [done|]. intros x (q & p & Hq & Hl & Hw & Hx). apply Ht.
  exists q, p. simpl in Hw. rewrite walk_flush in Hw. by repeat (split; [done|]).
Qed.

End tables.

(** ** The memory of a set of page tables, for its clients *)

Class TableMemorySpec (tgt : target) (St : Type) `{PageTableSpec tgt St} := {
  (** The free physical bytes, and those of the tables. *)
  tm_free : St -> Z -> Prop;
  tm_table : St -> Z -> Prop;
  tm_taken : forall st x, pts_inv st -> tm_table st x -> ~ tm_free st x;
  tm_map : forall s st (page : Page s) (frame : Frame s) flags r st',
    pts_inv st -> (SIZE s | page_start page) -> (SIZE s | frame_start frame) ->
    (forall v, within (page_start page) (SIZE s) v -> vaddr_canonical tgt v) ->
    0 <= frame_start frame -> frame_start frame + SIZE s <= pts_limit ->
    pt_map s st page frame flags = Val (r, st') ->
    (forall x, tm_free st' x -> tm_free st x) /\
    (forall x, tm_table st' x -> tm_table st x \/ tm_free st x);
}.

Section follow.
Context (tgt : target) {St : Type} `{PT : PageTable St} `{PS : !PageTableSpec tgt St} `{!TableMemorySpec tgt St}.

(** How the memory developed from [st] to [st']. *)
Definition developed (st st' : St) : Prop :=
  (forall x, tm_free st' x -> tm_free st x) /\
  (forall x, tm_table st' x -> tm_table st x \/ tm_free st x).

#[export] Instance developed_preorder : PreOrder developed.
Proof.
  split; [split; auto|]. intros st1 st2 st3 [Hf1 Ht1] [Hf2 Ht2]. split; [auto|].
  intros x [Hx%Ht1|Hx%Hf1]%Ht2; auto.
Qed.

(** The same page tables, followed from the state [st0] on. *)
Program Definition followed (st0 : St) : PageTableSpec tgt St := {|
  pts_inv := fun st => pts_inv st /\ developed st0 st;
  pts_tr := pts_tr;
  pts_limit := pts_limit;
  pts_supplies := pts_supplies;
|}.
Next Obligation. intros st0 n m st. apply pts_supplies_le. Qed.
Next Obligation. intros st0. apply pts_limit_ok. Qed.
Next Obligation.
  intros st0 s st page frame flags [Hi Hd] Hdp Hdf Hc Hf0 Hf1.
  pose proof (pts_map s st page frame flags Hi Hdp Hdf Hc Hf0 Hf1) as Hm.
  destruct (pt_map s st page frame flags) as [[r st']|] eqn:E; [|done]. simpl in *.
  destruct Hm as (Hi' & Hsup & Hr). split; [|done]. split; [done|].
  etrans; [exact Hd|]. by eapply tm_map.
Qed.

(** Whatever is proved of areas against the interface also follows the memory. *)
Lemma map_area_developed st virt phys size flags :
  pts_inv st -> (4096 | virt) -> (4096 | phys) -> (4096 | size) ->
  area_ok tgt virt phys size ->
  phys + virt + size < 2 ^ 64 -> virt + size + SIZE Size2MiB < 2 ^ 64 ->
  map_area tgt st virt phys size flags
    ⇓{~ pts_supplies (small_pages size) st} fun res =>
      range_post tgt (small_pages size) st virt phys size res /\ developed st res.2.
Proof.
  intros Hi Hdv Hdp Hds [Hc Hp Hs] Hsum Htop.
  eapply returns_unless_weaken.
  { apply (map_area_spec (PageTableSpec0 := followed st) tgt st virt phys size flags); auto.
    - split; [done|reflexivity].
    - by split. }
  { done. }
  intros [r st'] ([Hi' Hd] & Hsup & Hr). by split_and!.
Qed.

End follow.
