(* ===== verification/RiscvPaging.v ===== *)
(** * [lib/hal_riscv/src/paging.rs]: page tables for Sv48 and Sv39

    The entry format of the RISC-V privileged architecture as the code reads
    and writes it, the discharge of [PageTable.EntryFormatSpec] for it, the two
    implementations of the [PageTable] trait ([Module Sv48], [Module Sv39]) and
    their correctness.  [bit_field] and [bitflags] are the parameters of
    [Crates]. *)

From stdpp Require Import base tactics option list numbers gmap.
From S2P Require Import Prelude Mulch Memory FrameAllocator Crates PageTable Mapper Translation.

(** ** [EntryFlags] *)

Module EntryFlags.

Definition VALID : Z := 1 ≪ 0.
Definition READABLE : Z := 1 ≪ 1.
Definition WRITABLE : Z := 1 ≪ 2.
Definition EXECUTABLE : Z := 1 ≪ 3.
Definition USER_ACCESSIBLE : Z := 1 ≪ 4.
Definition GLOBAL : Z := 1 ≪ 5.
Definition ACCESSED : Z := 1 ≪ 6.
Definition DIRTY : Z := 1 ≪ 7.

(** [EntryFlags::all()] and [EntryFlags::empty()]. *)
Definition all : Z := 255.
Definition empty : Z := 0.

Definition from `{BitFlags} (flags : Flags) : Z :=
  flags_union
    (flags_union
      (flags_union VALID
        (if writable flags then flags_union READABLE WRITABLE else READABLE))
      (if executable flags then EXECUTABLE else empty))
    (if user_accessible flags then USER_ACCESSIBLE else empty).

End EntryFlags.

(** ** [Entry]: a [u64] *)

Module Entry.
Section entry.
Context `{BitField} `{BitFlags} (tgt : target).

Definition unused : Z := 0.

Definition flags (self : Z) : Z := from_bits_truncate EntryFlags.all self.

Definition is_valid (self : Z) : bool := flags_contain (flags self) EntryFlags.VALID.

Definition is_leaf (self : Z) : bool :=
  let fl := flags self in
  flags_contain fl EntryFlags.VALID &&
  flags_intersect fl
    (flags_union (flags_union EntryFlags.READABLE EntryFlags.WRITABLE) EntryFlags.EXECUTABLE).

Definition address (self : Z) : outcome (option Z) :=
  if flags_contain (flags self) EntryFlags.VALID then
    ppn ← get_bits 64 self 10 54;
    a ← unwrap (PAddr.new tgt ((ppn ≪ 12) mod 2 ^ 64));
    mret (Some a)
  else mret None.

Definition set (entry : option (Z * Z)) (is_leaf : bool) : Z :=
  match entry with
  | Some (address, flags) =>
      let flags := flags_union (flags_union flags EntryFlags.VALID)
        (if is_leaf then flags_union EntryFlags.ACCESSED EntryFlags.DIRTY else EntryFlags.empty) in
      Z.lor (address ≫ 2) flags
  | None => 0
  end.

End entry.
End Entry.

#[export] Instance riscv_format `{BitField} `{BitFlags} (tgt : target) : EntryFormat := {
  entry_address := Entry.address tgt;
  entry_is_leaf := Entry.is_leaf;
  entry_in_use := Entry.is_valid;
  entry_empty := Entry.set None false;
  entry_for_table := fun pa => Entry.set (Some (pa, EntryFlags.VALID)) false;
  entry_for_frame := fun _ pa flags => Entry.set (Some (pa, EntryFlags.from flags)) true;
}.

(** ** [VAddrIndices] *)

Section indices.
Context `{BitField}.

Definition p4_index (v : Z) : outcome Z := get_bits 64 v 39 48.
Definition p3_index (v : Z) : outcome Z := get_bits 64 v 30 39.
Definition p2_index (v : Z) : outcome Z := get_bits 64 v 21 30.
Definition p1_index (v : Z) : outcome Z := get_bits 64 v 12 21.

Definition from_indices (tgt : target) (p4 p3 p2 p1 : Z) : outcome Z :=
  address ← set_bits 64 0 12 21 p1;
  address ← set_bits 64 address 21 30 p2;
  address ← set_bits 64 address 30 39 p3;
  address ← set_bits 64 address 39 48 p4;
  mret (VAddr.new tgt address).

End indices.

(** ** [PageTableImpl] *)

Record PageTableImpl := mkPageTableImpl { frame : Frame Size4KiB; physical_base : Z }.

(** The address [top] and [top_mut] make a reference of. *)
Definition top (tgt : target) (self : PageTableImpl) : outcome Z :=
  VAddr.add tgt (physical_base self) (frame_start (frame self)).

Definition PageTableImpl_new `{EntryFormat} (tgt : target) (m : Machine)
    (frame : Frame Size4KiB) (physical_base : Z) : outcome (PageTableImpl * Machine) :=
  let table := mkPageTableImpl frame physical_base in
  t ← top tgt table;
  mret (table, zero m t).

Definition from_frame (frame : Frame Size4KiB) (physical_base : Z) : PageTableImpl :=
  mkPageTableImpl frame physical_base.

(** ** The implementations of the [PageTable] trait

    [map] and [unmap] mutate memory and the allocator only; [self] is the
    root frame and the direct map's base. *)

Module Sv48.
Section code.
Context `{BitField} `{BitFlags} (tgt : target) {A : Type} `{FrameAllocator A}.
Context (self : PageTableImpl).
#[local] Existing Instance riscv_format.

Definition translate (m : Machine) (address : Z) : outcome (option Z) :=
  t ← top tgt self;
  i4 ← p4_index address;
  i3 ← p3_index address;
  i2 ← p2_index address;
  i1 ← p1_index address;
  translate_path (H := riscv_format tgt) tgt (physical_base self) m t [i4; i3] i2 i1 address.

Definition map (s : FrameSize) (ma : Machine * A) (page : Page s) (frame : Frame s)
    (flags : Flags) : outcome (result unit PagingError * (Machine * A)) :=
  t ← top tgt self;
  i4 ← p4_index (page_start page);
  i3 ← p3_index (page_start page);
  i2 ← p2_index (page_start page);
  i1 ← p1_index (page_start page);
  let entry := Entry.set (Some (frame_start frame, EntryFlags.from flags)) true in
  '(r, (m, a)) ←
    (if SIZE s =? SIZE Size4KiB then
       map_path (H := riscv_format tgt) tgt (physical_base self) ma t [i4; i3; i2] i1 entry
     else if SIZE s =? SIZE Size2MiB then
       map_path (H := riscv_format tgt) tgt (physical_base self) ma t [i4; i3] i2 entry
     else
       rassert (SIZE s =? SIZE Size1GiB) ;;
       map_path (H := riscv_format tgt) tgt (physical_base self) ma t [i4] i3 entry);
  match r with
  | Err e => mret (Err e, (m, a))
  | Ok _ => mret (Ok tt, (flush_page m (page_start page), a))
  end.

Definition unmap (s : FrameSize) (m : Machine) (page : Page s) :
    outcome (option (Frame Size4KiB) * Machine) :=
  match s with
  | Size4KiB =>
      t ← top tgt self;
      i4 ← p4_index (page_start page);
      i3 ← p3_index (page_start page);
      i2 ← p2_index (page_start page);
      i1 ← p1_index (page_start page);
      unmap_path (H := riscv_format tgt) tgt (physical_base self) m t [i4; i3; i2] i1 (page_start page)
  | Size2MiB | Size1GiB => Panic
  end.

(** The trait object [map_range] and [map_area] run on. *)
Definition page_table : PageTable (Machine * A) := {| pt_map := map |}.

Definition map_area (ma : Machine * A) (virtual_start physical_start size : Z) (flags : Flags) :
    outcome (result unit PagingError * (Machine * A)) :=
  Mapper.map_area (H := page_table) tgt ma virtual_start physical_start size flags.

End code.
End Sv48.

Module Sv39.
Section code.
Context `{BitField} `{BitFlags} (tgt : target) {A : Type} `{FrameAllocator A}.
Context (self : PageTableImpl).

Definition translate (m : Machine) (address : Z) : outcome (option Z) :=
  t ← top tgt self;
  i3 ← p3_index address;
  i2 ← p2_index address;
  i1 ← p1_index address;
  translate_path (H := riscv_format tgt) tgt (physical_base self) m t [i3] i2 i1 address.

Definition map (s : FrameSize) (ma : Machine * A) (page : Page s) (frame : Frame s)
    (flags : Flags) : outcome (result unit PagingError * (Machine * A)) :=
  t ← top tgt self;
  i3 ← p3_index (page_start page);
  i2 ← p2_index (page_start page);
  i1 ← p1_index (page_start page);
  let entry := Entry.set (Some (frame_start frame, EntryFlags.from flags)) true in
  '(r, (m, a)) ←
    (if SIZE s =? SIZE Size4KiB then
       map_path (H := riscv_format tgt) tgt (physical_base self) ma t [i3; i2] i1 entry
     else if SIZE s =? SIZE Size2MiB then
       map_path (H := riscv_format tgt) tgt (physical_base self) ma t [i3] i2 entry
     else
       rassert (SIZE s =? SIZE Size1GiB) ;;
       map_path (H := riscv_format tgt) tgt (physical_base self) ma t [] i3 entry);
  match r with
  | Err e => mret (Err e, (m, a))
  | Ok _ => mret (Ok tt, (flush_page m (page_start page), a))
  end.

Definition unmap (s : FrameSize) (m : Machine) (page : Page s) :
    outcome (option (Frame Size4KiB) * Machine) :=
  match s with
  | Size4KiB =>
      t ← top tgt self;
      i3 ← p3_index (page_start page);
      i2 ← p2_index (page_start page);
      i1 ← p1_index (page_start page);
      unmap_path (H := riscv_format tgt) tgt (physical_base self) m t [i3; i2] i1 (page_start page)
  | Size2MiB | Size1GiB => Panic
  end.

Definition page_table : PageTable (Machine * A) := {| pt_map := map |}.

Definition map_area (ma : Machine * A) (virtual_start physical_start size : Z) (flags : Flags) :
    outcome (result unit PagingError * (Machine * A)) :=
  Mapper.map_area (H := page_table) tgt ma virtual_start physical_start size flags.

End code.
End Sv39.

(** ** The entry format meets its laws *)

Section entry_lemmas.
Context `{BFl : BitField} `{!BitFieldSpec} `{BFg : BitFlags} `{!BitFlagsSpec}.

Lemma flags_mod e : Entry.flags e = e mod 256.
Proof. unfold Entry.flags. rewrite from_bits_truncate_eq. apply (land_low e 8). lia. Qed.

Lemma is_valid_odd e : Entry.is_valid e = (e mod 2 =? 1).
Proof.
  unfold Entry.is_valid. rewrite contains_eq, flags_mod. change EntryFlags.VALID with 1.
  rewrite land_1, Z.mod_mod_divide; [done|by exists 128].
Qed.

Lemma address_eq tgt e :
  tgt <> X86_64 -> is_unsigned 64 e ->
  Entry.address tgt e =
    Val (if e mod 2 =? 1 then Some ((e / 1024) mod 2 ^ 44 * 4096) else None).
Proof.
  intros Ht He. unfold Entry.address.
  change (flags_contain (Entry.flags e) EntryFlags.VALID) with (Entry.is_valid e).
  rewrite is_valid_odd. destruct (e mod 2 =? 1); [|done].
  rewrite get_bits_in by (done || lia). obind.
  pose proof (Z.mod_pos_bound (e / 2 ^ 10) (2 ^ (54 - 10)) ltac:(lia)) as Hb.
  rewrite Z.shiftl_mul_pow2, Z.mod_small by lia.
  by destruct tgt.
Qed.

(** The word [Entry::set] writes for aligned addresses. *)
Lemma set_eq pa fl leaf :
  (4096 | pa) -> 0 <= fl < 256 ->
  Entry.set (Some (pa, fl)) leaf =
    pa / 4096 * 1024 + Z.lor (Z.lor fl 1) (if leaf then 192 else 0) /\
  0 <= Z.lor (Z.lor fl 1) (if leaf then 192 else 0) < 256.
Proof.
  intros [q ->] Hfl. unfold Entry.set. rewrite !union_eq.
  replace (if leaf then Z.lor EntryFlags.ACCESSED EntryFlags.DIRTY else EntryFlags.empty)
    with (if leaf then 192 else 0) by (by destruct leaf).
  change EntryFlags.VALID with 1.
  set (x := Z.lor (Z.lor fl 1) (if leaf then 192 else 0)).
  assert (0 <= x < 256) as Hx.
  { split; [apply Z.lor_nonneg; split; [apply Z.lor_nonneg; lia|destruct leaf; lia]|].
    apply Z.log2_lt_cancel. unfold x. rewrite !Z.log2_lor by (try apply Z.lor_nonneg; destruct leaf; lia).
    assert (Z.log2 fl <= 7) by (apply (Z.log2_le_mono fl 255); lia).
    change (Z.log2 256) with 8. change (Z.log2 1) with 0. destruct leaf; simpl; lia. }
  split; [|done].
  rewrite Z.shiftr_div_pow2, Z.div_mul by lia. change (2 ^ 2) with 4.
  replace (q * 4096 / 4) with (q * 2 ^ 10)
    by (replace (q * 4096) with (q * 1024 * 4) by lia; rewrite Z.div_mul by lia; lia).
  rewrite lor_shifted by lia. lia.
Qed.

Lemma from_range fl : exists x, EntryFlags.from fl = x /\ 0 <= x < 256 /\ (x mod 4) = 3.
Proof.
  unfold EntryFlags.from. rewrite !union_eq. eexists. split; [done|].
  destruct fl as [[] [] [] []]; vm_compute; split; split; congruence || done.
Qed.

Lemma set_address tgt pa fl leaf :
  tgt <> X86_64 -> 0 <= pa < 2 ^ 56 -> (4096 | pa) -> 0 <= fl < 256 -> fl mod 2 = 1 ->
  Entry.address tgt (Entry.set (Some (pa, fl)) leaf) = Val (Some pa) /\
  is_unsigned 64 (Entry.set (Some (pa, fl)) leaf) /\
  Entry.flags (Entry.set (Some (pa, fl)) leaf) = Z.lor (Z.lor fl 1) (if leaf then 192 else 0).
Proof.
  intros Ht Hpa Hd Hfl Hodd. destruct (set_eq pa fl leaf Hd Hfl) as [-> Hx].
  set (x := Z.lor (Z.lor fl 1) (if leaf then 192 else 0)) in *.
  destruct Hd as [q ->]. rewrite Z.div_mul by lia.
  assert (x mod 2 = 1) as Hx2.
  { rewrite <- land_1. unfold x. rewrite !Z.land_lor_distr_l, land_1, Hodd. by destruct leaf. }
  assert (is_unsigned 64 (q * 1024 + x)) as Hu by (unfold is_unsigned; lia).
  split; [|split; [done|]].
  - rewrite address_eq by done.
    replace (q * 1024 + x) with (x + q * 512 * 2) at 1 by lia. rewrite Z.mod_add, Hx2 by lia.
    rewrite Z.div_add_l, (Z.div_small x), Z.add_0_r, Z.mod_small by lia. done.
  - rewrite flags_mod. replace (q * 1024 + x) with (x + q * 4 * 256) by lia.
    rewrite Z.mod_add, Z.mod_small by lia. done.
Qed.

Lemma riscv_format_spec tgt : tgt <> X86_64 ->
  @EntryFormatSpec (riscv_format tgt) (2 ^ 56).
Proof.
  intros Ht. split; cbn [riscv_format entry_address entry_is_leaf entry_in_use entry_empty
    entry_for_table entry_for_frame].
  - intros e He. rewrite address_eq by done. eauto.
  - intros e pa He. rewrite address_eq by done. destruct (e mod 2 =? 1); [|done].
    intros [= <-]. split; [by apply Z.divide_factor_r|].
    pose proof (Z.mod_pos_bound (e / 1024) (2 ^ 44)). lia.
  - rewrite address_eq by done. split; [done|]. by vm_compute.
  - intros e He. rewrite is_valid_odd, address_eq by done. by intros ->.
  - intros pa Hpa Hd.
    destruct (set_address tgt pa EntryFlags.VALID false) as (? & ? & Hfl); [done..|].
    split_and!; try done. unfold Entry.is_leaf. rewrite Hfl.
    rewrite contains_eq, intersects_eq, !union_eq. done.
  - intros s pa fl Hpa Hd. destruct (from_range fl) as (x & -> & Hx & Hm).
    assert (x mod 2 = 1) as H2.
    { rewrite <- (Z.mod_mod_divide x 4 2) by (by exists 2). by rewrite Hm. }
    destruct (set_address tgt pa x true) as (? & ? & Hfl); [done..|].
    split_and!; try done. intros _. unfold Entry.is_leaf. rewrite Hfl.
    rewrite contains_eq, intersects_eq, !union_eq. simpl.
    apply andb_true_iff. split; [apply Z.eqb_eq|apply negb_true_iff, Z.eqb_neq].
    + rewrite !Z.land_lor_distr_l. change EntryFlags.VALID with 1. rewrite land_1, H2. done.
    + assert (Z.testbit x 1 = true) as Hb.
      { rewrite Z.testbit_true by lia. change (2 ^ 1) with 2.
        pose proof (Z.div_mod x 4). pose proof (Z.div_mod x 2). pose proof (Z.div_mod (x / 2) 2).
        pose proof (Z.mod_pos_bound (x / 2) 2). lia. }
      intros E. apply (f_equal (fun z => Z.testbit z 1)) in E.
      rewrite !Z.land_spec, !Z.lor_spec, Hb in E. by vm_compute in E.
Qed.

End entry_lemmas.

(** ** Correctness *)

Section index_lemmas.
Context `{BFl : BitField} `{!BitFieldSpec}.

Lemma p4_index_in v : is_usize v -> p4_index v = Val ((v / 2 ^ level_shift 3) mod 512).
Proof. intros Hv. unfold p4_index. by rewrite get_bits_in. Qed.
Lemma p3_index_in v : is_usize v -> p3_index v = Val ((v / 2 ^ level_shift 2) mod 512).
Proof. intros Hv. unfold p3_index. by rewrite get_bits_in. Qed.
Lemma p2_index_in v : is_usize v -> p2_index v = Val ((v / 2 ^ level_shift 1) mod 512).
Proof. intros Hv. unfold p2_index. by rewrite get_bits_in. Qed.
Lemma p1_index_in v : is_usize v -> p1_index v = Val ((v / 2 ^ level_shift 0) mod 512).
Proof. intros Hv. unfold p1_index. by rewrite get_bits_in. Qed.

End index_lemmas.

(** What both implementations rely on: physical memory below [lim] is visible
    at [physical_base], and holds the root. *)
Record direct_map (tgt : target) (self : PageTableImpl) (lim : Z) : Prop := {
  dm_canonical : forall pa, 0 <= pa < lim -> vaddr_canonical tgt (physical_base self + pa);
  dm_limit : 0 <= lim <= 2 ^ 56;
  dm_root : 0 <= frame_start (frame self) < lim;
}.

Definition root (self : PageTableImpl) : Z := physical_base self + frame_start (frame self).

Lemma top_in tgt self lim : direct_map tgt self lim -> top tgt self = Val (root self).
Proof. intros [Hc _ Hr]. apply vaddr_add_in. by apply Hc. Qed.

Section sv48.
Context `{BFl : BitField} `{!BitFieldSpec} `{BFg : BitFlags} `{!BitFlagsSpec}.
Context {A : Type} `{FA : FrameAllocator A}.

Lemma sv48_map_by_slot self lim :
  direct_map Rv64Virt self lim ->
  map_by_slot (EF := riscv_format Rv64Virt) Rv64Virt (physical_base self) 4 (root self)
    (Sv48.map Rv64Virt (A := A) self).
Proof.
  intros Hdm s ma page frame flags Hu. unfold Sv48.map.
  rewrite (top_in _ _ lim), p4_index_in, p3_index_in, p2_index_in, p1_index_in by done. obind.
  destruct s; [eexists [_; _; _], _|eexists [_; _], _|eexists [_], _]; (split; [done|]); simpl;
    by destruct (map_path _ _ _ _ _ _ _) as [[[] []]|].
Qed.
End sv48.
