(* ===== verification/RiscvCorrect.v ===== *)
(** * Correctness of the RISC-V page tables

    [sv48_tr] and [sv39_tr] are the translations the hardware makes of the
    tables below the root; the theorems say what [PageTableImpl::new], [map],
    [unmap], [translate] and [map_area] of [lib/hal_riscv/src/paging.rs] do to
    them.  The tables' frames come from any allocator that meets
    [FrameAllocatorSpec]; the witnesses use the physical memory manager of
    [Pmm]. *)

From stdpp Require Import base tactics option list numbers gmap.
From S2P Require Import Prelude Mulch Memory FrameAllocator Buddy Pmm Crates PageTable Mapper Translation.
From S2P Require Import RiscvPaging.

(** ** The state of a set of tables *)

Section state.
Context `{BFl : BitField} `{BFg : BitFlags}.
Context (tgt : target) {A : Type} `{FA : FrameAllocator A} `{!FrameAllocatorSpec tgt A}.

(** [L] levels of tables below [self]'s root, in memory [m], with frames from [a]. *)
Definition riscv_wf (L : nat) (self : PageTableImpl) (lim : Z) (m : Machine) (a : A) : Prop :=
  pt_wf (EF := riscv_format tgt) tgt (physical_base self) lim L m a (root self).

Definition riscv_tr (L : nat) (self : PageTableImpl) (m : Machine) (v : Z) : option Z :=
  translation (EF := riscv_format tgt) (physical_base self) L m (root self) v.

(** The leaf that translates [v], and how many levels lie below it. *)
Definition riscv_leaf (L : nat) (self : PageTableImpl) (m : Machine) (v : Z) : option (Z * nat) :=
  leaf_of (H := riscv_format tgt) (physical_base self) m (root self) (indices L v).

(** The effect of mapping the page at [page] to the frame at [frame]: the page
    was unmapped, its bytes now translate to the frame's, the rest is as before. *)
Definition maps (L : nat) (self : PageTableImpl) (m m' : Machine) (page frame size : Z) : Prop :=
  forall v, vaddr_canonical tgt v ->
    (within page size v ->
       riscv_tr L self m v = None /\ riscv_tr L self m' v = Some (frame + (v - page))) /\
    (~ within page size v -> riscv_tr L self m' v = riscv_tr L self m v).

(** What a page has to be for [map]: aligned, canonical, and its frame in reach. *)
Record page_ok (s : FrameSize) (lim page frame : Z) : Prop := {
  po_page : (SIZE s | page);
  po_canonical : vaddr_canonical tgt page;
  po_frame : (SIZE s | frame);
  po_range : 0 <= frame /\ frame + SIZE s <= lim;
}.

End state.

(** ** Shared by Sv48 and Sv39 *)

Section shared.
Context `{BFl : BitField} `{!BitFieldSpec} `{BFg : BitFlags} `{!BitFlagsSpec}.
Context (tgt : target) (L : nat).
Context {A : Type} `{FA : FrameAllocator A} `{!FrameAllocatorSpec tgt A}.
Context (Ht1 : tgt <> OtherTarget) (Ht2 : tgt <> X86_64).
Context (HL : va_bits tgt = level_shift L) (HL3 : (3 <= L)%nat).

Lemma riscv_paddr_limit : paddr_limit tgt = 2 ^ 64.
Proof. by destruct tgt. Qed.

Lemma riscv_new self lim m (a : A) :
  direct_map tgt self lim -> words_ok m -> fa_inv a -> (forall x, fa_owns a x -> x < lim) ->
  (4096 | frame_start (frame self)) -> frame_start (frame self) + 4096 <= lim ->
  (forall x, frame_start (frame self) <= x < frame_start (frame self) + 4096 -> ~ fa_owns a x) ->
  PageTableImpl_new (H := riscv_format tgt) tgt m (frame self) (physical_base self) ⇓
    fun '(table, m') => table = self /\ riscv_wf tgt L self lim m' a /\
      forall v, riscv_tr tgt L self m' v = None.
Proof.
  intros Hdm Hm Ha Hal Hd Hend Hown. unfold PageTableImpl_new.
  replace (mkPageTableImpl (frame self) (physical_base self)) with self by (by destruct self).
  rewrite (top_in _ _ lim) by done. obind. split; [done|].
  pose proof (riscv_format_spec tgt Ht2).
  destruct (new_tables_wf (EF := riscv_format tgt) tgt (physical_base self) lim L m a (root self))
    as [Hwf Hno]; auto.
  - exists (frame_start (frame self)). split; [done|]. destruct (dm_root _ _ _ Hdm). auto.
  - split; [done|]. intros v. unfold riscv_tr, translation. rewrite Hno; [done|apply indices_ok].
Qed.

Lemma riscv_in_use e :
  is_unsigned 64 e -> Entry.is_valid e = true -> exists pa, Entry.address tgt e = Val (Some pa).
Proof. intros He. rewrite is_valid_odd, address_eq by done. intros ->. eauto. Qed.

Lemma riscv_map self lim map s m (a : A) (page : Page s) (frame : Frame s) flags :
  direct_map tgt self lim ->
  map_by_slot (EF := riscv_format tgt) tgt (physical_base self) L (root self) map ->
  riscv_wf tgt L self lim m a -> page_ok tgt s lim (page_start page) (frame_start frame) ->
  supplies (L - 1) a ->
  map s (m, a) page frame flags ⇓ fun '(r, (m', a')) =>
    riscv_wf tgt L self lim m' a' /\ spends (L - 1) a a' /\
    match r with
    | Ok _ => maps tgt L self m m' (page_start page) (frame_start frame) (SIZE s) /\
        head (flushed m') = Some (page_start page)
    | Err _ => (forall v, riscv_tr tgt L self m' v = riscv_tr tgt L self m v) /\
        (s = Size4KiB -> forall v, vaddr_canonical tgt v ->
           within (page_start page) (SIZE s) v -> is_Some (riscv_tr tgt L self m v))
    end.
Proof.
  intros Hdm Hby Hwf [Hdp Hcan Hdf [Hf0 Hf1]] Hsup.
  pose proof (riscv_format_spec tgt Ht2). destruct (dm_limit _ _ _ Hdm) as [Hl0 Hl1].
  eapply returns_unless_returns; [|exact Hsup].
  eapply returns_unless_weaken.
  { eapply (map_by_slot_spec (EF := riscv_format tgt) tgt (physical_base self) lim L Ht1 HL
      (dm_canonical _ _ _ Hdm) Hl1 HL3 (root self)); eauto. }
  { done. }
  intros [r [m' a']] (Hwf' & Hsp & Hr). split; [done|]. split; [done|]. destruct r as [u|e].
  - destruct Hr as [Hr [m0 ->]]. done.
  - destruct Hr as [Hsame Hbl]. split; [intros v; by apply same_leaves_translation|].
    intros -> v Hv Hin.
    eapply (blocked_mapped (EF := riscv_format tgt) tgt (physical_base self) lim L Ht1 HL HL3 m m');
      eauto using riscv_in_use.
Qed.

Lemma riscv_leaf_range self lim m (a : A) v e n pa :
  riscv_wf tgt L self lim m a -> riscv_leaf tgt L self m v = Some (e, n) -> (n <= 1)%nat ->
  Entry.address tgt e = Val (Some pa) -> pa + 2 ^ level_shift n <= paddr_limit tgt.
Proof.
  intros Hwf Hl Hn Hpa. pose proof (riscv_format_spec tgt Ht2) as Hspec.
  destruct (leaf_of_entry (H := riscv_format tgt) _ _ _ _ _ _ Hl) as (T & i & pa' & -> & _).
  destruct (ef_addr (EntryFormatSpec := Hspec) _ pa (pt_words _ _ _ _ _ _ _ Hwf T i) Hpa) as [_ Hb].
  rewrite riscv_paddr_limit.
  assert (2 ^ level_shift n <= 2 ^ 21) by (apply Z.pow_le_mono_r; unfold level_shift; lia). lia.
Qed.

End shared.

(** ** Entries *)

(** The entry [map] writes for an aligned frame and flags reads back as a
    leaf with that address, and its permission bits are the flags': valid,
    readable, accessed and dirty always, writable, executable and user as asked. *)
Lemma riscv_entry_correct `{BFl : BitField} `{!BitFieldSpec} `{BFg : BitFlags} `{!BitFlagsSpec}
    tgt s pa fl :
  tgt <> X86_64 -> 0 <= pa < 2 ^ 56 -> (4096 | pa) ->
  let e := entry_for_frame (EntryFormat := riscv_format tgt) s pa fl in
  Entry.address tgt e = Val (Some pa) /\ Entry.is_valid e = true /\
  map (Z.testbit e) [0; 1; 2; 3; 4; 5; 6; 7] =
    [true; true; writable fl; executable fl; user_accessible fl; false; true; true].
Proof.
  intros Ht Hpa Hd. cbn [entry_for_frame riscv_format].
  destruct (from_range fl) as (x & Ex & Hx & Hm).
  assert (x mod 2 = 1) as H2.
  { rewrite <- (Z.mod_mod_divide x 4 2) by (by exists 2). by rewrite Hm. }
  destruct (set_address tgt pa x true) as (Ha & Hu & Hfl); [done..|].
  rewrite Ex. split; [done|]. rewrite flags_mod in Hfl.
  set (e := Entry.set _ _) in *. split.
  { rewrite address_eq in Ha by done. rewrite is_valid_odd. by destruct (e mod 2 =? 1). }
  assert (forall i, 0 <= i < 8 -> Z.testbit e i = Z.testbit (Z.lor (Z.lor x 1) 192) i) as Hbit.
  { intros i Hi. rewrite <- Hfl. change 256 with (2 ^ 8). rewrite Z.mod_pow2_bits_low; [done|lia]. }
  cbn [map]. rewrite !Hbit by lia. rewrite <- Ex. unfold EntryFlags.from. rewrite !union_eq.
  by destruct fl as [[] [] [] []].
Qed.

(** ** Sv48 *)

Section sv48_claims.
Context `{BFl : BitField} `{!BitFieldSpec} `{BFg : BitFlags} `{!BitFlagsSpec}.
Context {A : Type} `{FA : FrameAllocator A} `{!FrameAllocatorSpec Rv64Virt A}.

Abbreviation tr := (riscv_tr Rv64Virt 4).
Abbreviation wf := (riscv_wf Rv64Virt 4).

(** [PageTableImpl::new] on a frame inside the direct map that is not the
    allocator's gives a well-formed set of tables that translates nothing. *)
Lemma sv48_new_correct self lim m (a : A) :
  direct_map Rv64Virt self lim -> words_ok m -> fa_inv a -> (forall x, fa_owns a x -> x < lim) ->
  (4096 | frame_start (frame self)) -> frame_start (frame self) + 4096 <= lim ->
  (forall x, frame_start (frame self) <= x < frame_start (frame self) + 4096 -> ~ fa_owns a x) ->
  PageTableImpl_new (H := riscv_format Rv64Virt) Rv64Virt m (frame self) (physical_base self) ⇓
    fun '(table, m') => table = self /\ wf self lim m' a /\ forall v, tr self m' v = None.
Proof. intros. by apply (riscv_new Rv64Virt 4). Qed.

(** [map] of a page of any size, given an allocator with three frames left,
    returns.  On [Ok] the page was unmapped and now translates to the frame, no
    other translation changes and the page's translation was invalidated last; on
    [Err] no translation changes, and a 4KiB page was indeed mapped already.
    Either way the tables stay well formed. *)
Lemma sv48_map_correct self lim s m (a : A) (page : Page s) (frame : Frame s) flags :
  direct_map Rv64Virt self lim -> wf self lim m a ->
  page_ok Rv64Virt s lim (page_start page) (frame_start frame) -> supplies 3 a ->
  Sv48.map Rv64Virt self s (m, a) page frame flags ⇓ fun '(r, (m', a')) =>
    wf self lim m' a' /\ spends 3 a a' /\
    match r with
    | Ok _ => maps Rv64Virt 4 self m m' (page_start page) (frame_start frame) (SIZE s) /\
        head (flushed m') = Some (page_start page)
    | Err _ => (forall v, tr self m' v = tr self m v) /\
        (s = Size4KiB -> forall v, vaddr_canonical Rv64Virt v ->
           within (page_start page) (SIZE s) v -> is_Some (tr self m v))
    end.
Proof.
  intros Hdm. apply (riscv_map Rv64Virt 4); try done; [lia|]. by eapply sv48_map_by_slot.
Qed.

(** C37: [unmap] of a 4KiB page that a last-level entry maps returns the frame it
    was mapped to, removes that page's translation and no other, and invalidates
    it; the tables stay well formed. *)
Theorem sv48_unmap_correct self lim m (a : A) (page : Page Size4KiB) e :
  direct_map Rv64Virt self lim -> wf self lim m a ->
  (SIZE Size4KiB | page_start page) -> vaddr_canonical Rv64Virt (page_start page) ->
  riscv_leaf Rv64Virt 4 self m (page_start page) = Some (e, O) ->
  Sv48.unmap Rv64Virt self Size4KiB m page ⇓ fun '(r, m') =>
    wf self lim m' a /\
    (exists f, r = Some f /\ tr self m (page_start page) = Some (frame_start f)) /\
    flushed m' = page_start page :: flushed m /\
    forall v, vaddr_canonical Rv64Virt v ->
      (within (page_start page) (SIZE Size4KiB) v -> tr self m' v = None) /\
      (~ within (page_start page) (SIZE Size4KiB) v -> tr self m' v = tr self m v).
Proof.
  intros Hdm Hwf Hd Hcan Hleaf. pose proof (vaddr_canonical_usize _ _ Hcan).
  pose proof (riscv_format_spec Rv64Virt ltac:(done)). unfold Sv48.unmap.
  rewrite (top_in _ _ lim), p4_index_in, p3_index_in, p2_index_in, p1_index_in by done. obind.
  eapply (unmap_translation (EF := riscv_format Rv64Virt) Rv64Virt (physical_base self) lim 4);
    try done; [apply Hdm|lia].
Qed.

(** [translate] computes the hardware's translation of every canonical
    address that no leaf above the P2 level maps. *)
Lemma sv48_translate_correct self lim m (a : A) v :
  direct_map Rv64Virt self lim -> wf self lim m a -> vaddr_canonical Rv64Virt v ->
  (forall e n, riscv_leaf Rv64Virt 4 self m v = Some (e, n) -> n <= 1)%nat ->
  Sv48.translate Rv64Virt self m v = Val (tr self m v).
Proof.
  intros Hdm Hwf Hcan Hdeep. pose proof (vaddr_canonical_usize _ _ Hcan).
  pose proof (riscv_format_spec Rv64Virt ltac:(done)). unfold Sv48.translate.
  rewrite (top_in _ _ lim), p4_index_in, p3_index_in, p2_index_in, p1_index_in by done. obind.
  eapply (translate_translation (EF := riscv_format Rv64Virt) Rv64Virt (physical_base self) lim 4);
    try done; [apply Hdm|lia|].
  intros e n pa Hl. eapply (riscv_leaf_range Rv64Virt 4); eauto.
Qed.


End sv48_claims.

(** ** Sv39 *)

Lemma sv39_map_by_slot `{BFl : BitField} `{!BitFieldSpec} `{BFg : BitFlags} {A} `{FA : FrameAllocator A} self lim :
  direct_map MqPro self lim ->
  map_by_slot (EF := riscv_format MqPro) MqPro (physical_base self) 3 (root self)
    (Sv39.map MqPro (A := A) self).
Proof.
  intros Hdm s ma page frame flags Hu. unfold Sv39.map.
  rewrite (top_in _ _ lim), p3_index_in, p2_index_in, p1_index_in by done. obind.
  destruct s; [eexists [_; _], _|eexists [_], _|eexists [], _]; (split; [done|]); cbn -[map_path];
    by destruct (map_path _ _ _ _ _ _ _) as [[[] []]|].
Qed.

Section sv39_claims.
Context `{BFl : BitField} `{!BitFieldSpec} `{BFg : BitFlags} `{!BitFlagsSpec}.
Context {A : Type} `{FA : FrameAllocator A} `{!FrameAllocatorSpec MqPro A}.

Abbreviation tr := (riscv_tr MqPro 3).
Abbreviation wf := (riscv_wf MqPro 3).

(** [PageTableImpl::new] on a frame inside the direct map that is not the
    allocator's gives a well-formed set of tables that translates nothing. *)
Theorem sv39_new_correct self lim m (a : A) :
  direct_map MqPro self lim -> words_ok m -> fa_inv a -> (forall x, fa_owns a x -> x < lim) ->
  (4096 | frame_start (frame self)) -> frame_start (frame self) + 4096 <= lim ->
  (forall x, frame_start (frame self) <= x < frame_start (frame self) + 4096 -> ~ fa_owns a x) ->
  PageTableImpl_new (H := riscv_format MqPro) MqPro m (frame self) (physical_base self) ⇓
    fun '(table, m') => table = self /\ wf self lim m' a /\ forall v, tr self m' v = None.
Proof. intros. by apply (riscv_new MqPro 3). Qed.

(** [map] of a page of any size, given an allocator with two frames left,
    returns.  On [Ok] the page was unmapped and now translates to the frame, no
    other translation changes and the page's translation was invalidated last; on
    [Err] no translation changes, and a 4KiB page was indeed mapped already.
    Either way the tables stay well formed. *)
Lemma sv39_map_correct self lim s m (a : A) (page : Page s) (frame : Frame s) flags :
  direct_map MqPro self lim -> wf self lim m a ->
  page_ok MqPro s lim (page_start page) (frame_start frame) -> supplies 2 a ->
  Sv39.map MqPro self s (m, a) page frame flags ⇓ fun '(r, (m', a')) =>
    wf self lim m' a' /\ spends 2 a a' /\
    match r with
    | Ok _ => maps MqPro 3 self m m' (page_start page) (frame_start frame) (SIZE s) /\
        head (flushed m') = Some (page_start page)
    | Err _ => (forall v, tr self m' v = tr self m v) /\
        (s = Size4KiB -> forall v, vaddr_canonical MqPro v ->
           within (page_start page) (SIZE s) v -> is_Some (tr self m v))
    end.
Proof.
  intros Hdm. apply (riscv_map MqPro 3); try done. by eapply sv39_map_by_slot.
Qed.

(** [unmap] of a 4KiB page that a last-level entry maps returns the frame it
    was mapped to, removes that page's translation and no other, and invalidates
    it; the tables stay well formed. *)
Theorem sv39_unmap_correct self lim m (a : A) (page : Page Size4KiB) e :
  direct_map MqPro self lim -> wf self lim m a ->
  (SIZE Size4KiB | page_start page) -> vaddr_canonical MqPro (page_start page) ->
  riscv_leaf MqPro 3 self m (page_start page) = Some (e, O) ->
  Sv39.unmap MqPro self Size4KiB m page ⇓ fun '(r, m') =>
    wf self lim m' a /\
    (exists f, r = Some f /\ tr self m (page_start page) = Some (frame_start f)) /\
    flushed m' = page_start page :: flushed m /\
    forall v, vaddr_canonical MqPro v ->
      (within (page_start page) (SIZE Size4KiB) v -> tr self m' v = None) /\
      (~ within (page_start page) (SIZE Size4KiB) v -> tr self m' v = tr self m v).
Proof.
  intros Hdm Hwf Hd Hcan Hleaf. pose proof (vaddr_canonical_usize _ _ Hcan).
  pose proof (riscv_format_spec MqPro ltac:(done)). unfold Sv39.unmap.
  rewrite (top_in _ _ lim), p3_index_in, p2_index_in, p1_index_in by done. obind.
  eapply (unmap_translation (EF := riscv_format MqPro) MqPro (physical_base self) lim 3);
    try done; apply Hdm.
Qed.

(** [translate] computes the hardware's translation of every canonical
    address that no leaf above the P2 level maps. *)
Theorem sv39_translate_correct self lim m (a : A) v :
  direct_map MqPro self lim -> wf self lim m a -> vaddr_canonical MqPro v ->
  (forall e n, riscv_leaf MqPro 3 self m v = Some (e, n) -> n <= 1)%nat ->
  Sv39.translate MqPro self m v = Val (tr self m v).
Proof.
  intros Hdm Hwf Hcan Hdeep. pose proof (vaddr_canonical_usize _ _ Hcan).
  pose proof (riscv_format_spec MqPro ltac:(done)). unfold Sv39.translate.
  rewrite (top_in _ _ lim), p3_index_in, p2_index_in, p1_index_in by done. obind.
  eapply (translate_translation (EF := riscv_format MqPro) MqPro (physical_base self) lim 3);
    try done; [apply Hdm|].
  intros e n pa Hl. eapply (riscv_leaf_range MqPro 3); eauto.
Qed.

(** [map_area] on a page-aligned area, with frames enough for a set of tables
    per 4KiB page, returns.  On [Ok] exactly the [size] bytes from [virt] became
    mapped, to the bytes from [phys], whatever mix of page sizes was chosen; on
    [Err] exactly a proper prefix of the area was. *)
Lemma sv39_map_area_correct self lim m (a : A) virt phys size flags :
  direct_map MqPro self lim -> wf self lim m a ->
  (4096 | virt) -> (4096 | phys) -> (4096 | size) -> 0 <= size ->
  (forall v, virt <= v <= virt + size -> vaddr_canonical MqPro v) ->
  0 <= phys -> phys + size <= lim ->
  phys + virt + size < 2 ^ 64 -> virt + size + SIZE Size2MiB < 2 ^ 64 ->
  supplies (small_pages size * 2) a ->
  Sv39.map_area MqPro self (m, a) virt phys size flags ⇓ fun '(r, (m', a')) =>
    wf self lim m' a' /\
    match r with
    | Ok _ => maps MqPro 3 self m m' virt phys size
    | Err _ => exists d, 0 <= d < size /\ maps MqPro 3 self m m' virt phys d
    end.
Proof.
  intros Hdm Hwf Hdv Hdp Hds Hs Hcan Hp0 Hp1 Hsum Htop Hsup.
  pose proof (riscv_format_spec MqPro ltac:(done)). destruct (dm_limit _ _ _ Hdm) as [Hl0 Hl1].
  assert (0 <= lim <= paddr_limit MqPro) as Hpl by (simpl; lia).
  pose (spec := page_table_spec (EF := riscv_format MqPro) MqPro (physical_base self) lim 3
    ltac:(done) eq_refl (dm_canonical _ _ _ Hdm) Hl1 Hpl ltac:(lia) (root self)
    (Sv39.map MqPro (A := A) self) (sv39_map_by_slot self lim Hdm)).
  eapply returns_weaken; [eapply returns_unless_returns|].
  - apply (map_area_spec (PageTableSpec0 := spec) MqPro (m, a) virt phys size flags); auto.
    split; auto. simpl. lia.
  - exact Hsup.
  - intros [r [m' a']] (Hwf' & _ & Hr). by split.
Qed.

End sv39_claims.

(** ** A concrete system

    A root table in the frame at [0x8000], the direct map in the upper half and
    the sixteen frames from [0x10000] free. *)

Module Example.

#[local] Existing Instance reference_bit_field.
#[local] Existing Instance reference_bit_flags.
#[local] Existing Instance reference_bit_field_spec.
#[local] Existing Instance reference_bit_flags_spec.

Definition alloc (tgt : target) : Pmm.Pmm := Pmm.mkPmm tgt sample.
Definition memory : Machine := mkMachine ∅ [].
Definition table (base : Z) : PageTableImpl := mkPageTableImpl (mkFrame 0x8000) base.
Definition limit : Z := 2 ^ 32.

Definition sv48_table := table (2 ^ 64 - 2 ^ 47).
Definition sv39_table := table (2 ^ 64 - 2 ^ 38).

Definition start (tgt : target) (self : PageTableImpl) : Machine :=
  match PageTableImpl_new (H := riscv_format tgt) tgt memory (frame self) (physical_base self) with
  | Val (_, m) => m
  | Panic => memory
  end.

Lemma alloc_inv tgt : fa_inv (tgt := tgt) (alloc tgt).
Proof. split; [done|]. apply sample_wf. Qed.

Lemma alloc_owns tgt x : fa_owns (tgt := tgt) (alloc tgt) x <-> 0x10000 <= x < 0x20000.
Proof. apply sample_free. Qed.

Lemma sv48_direct_map : direct_map Rv64Virt sv48_table limit.
Proof. unfold limit. split; simpl; try lia. Qed.

Lemma sv39_direct_map : direct_map MqPro sv39_table limit.
Proof. unfold limit. split; simpl; try lia. Qed.

Lemma start_wf tgt L self :
  tgt <> X86_64 -> direct_map tgt self limit -> frame self = mkFrame 0x8000 ->
  riscv_wf tgt L self limit (start tgt self) (alloc tgt).
Proof.
  intros Ht Hdm Hf.
  pose proof (riscv_new tgt L Ht self limit memory (alloc tgt) Hdm) as Hn. unfold start.
  destruct (PageTableImpl_new _ _ _ _) as [[t m]|]; simpl in Hn; rewrite Hf in Hn; simpl in Hn.
  - apply Hn; [intros ??; by vm_compute|apply alloc_inv| |by exists 8|done|].
    + intros x Hx%(alloc_owns tgt). unfold limit. lia.
    + intros x Hx Ho%(alloc_owns tgt). lia.
  - exfalso. apply Hn; [intros ??; by vm_compute|apply alloc_inv| |by exists 8|done|].
    + intros x Hx%(alloc_owns tgt). unfold limit. lia.
    + intros x Hx Ho%(alloc_owns tgt). lia.
Qed.

Lemma page_ok_at tgt : tgt <> OtherTarget -> page_ok tgt Size4KiB limit 0x400000 0x30000.
Proof.
  split; [by exists 1024| |by exists 48|done].
  destruct tgt; simpl; lia || done.
Qed.

(** The state after mapping the page at [0x400000] to the frame at [0x30000]. *)
Definition mapped : Machine * Pmm.Pmm :=
  match Sv48.map Rv64Virt (A := Pmm.Pmm) sv48_table Size4KiB (start Rv64Virt sv48_table, alloc Rv64Virt)
    (mkPage 0x400000) (mkFrame 0x30000) Flags_default with
  | Val (_, ma) => ma
  | Panic => (memory, alloc Rv64Virt)
  end.

Lemma supplies_16 : supplies 16 (alloc Rv64Virt) /\ supplies 16 (alloc MqPro).
Proof. vm_compute. done. Qed.

Lemma sv48_start_wf : riscv_wf Rv64Virt 4 sv48_table limit (start Rv64Virt sv48_table) (alloc Rv64Virt).
Proof. apply start_wf; [done|apply sv48_direct_map|done]. Qed.

Lemma sv39_start_wf : riscv_wf MqPro 3 sv39_table limit (start MqPro sv39_table) (alloc MqPro).
Proof. apply start_wf; [done|apply sv39_direct_map|done]. Qed.

Lemma supplies_n n : (n <= 16)%nat -> supplies n (alloc Rv64Virt) /\ supplies n (alloc MqPro).
Proof. intros Hn. split; (apply (supplies_le 16); [done|apply supplies_16]). Qed.

Lemma mapped_wf : riscv_wf Rv64Virt 4 sv48_table limit mapped.1 mapped.2.
Proof.
  pose proof (riscv_map Rv64Virt 4 (A := Pmm.Pmm) ltac:(done) ltac:(done) eq_refl ltac:(lia) sv48_table limit
    (Sv48.map Rv64Virt (A := Pmm.Pmm) sv48_table) Size4KiB (start Rv64Virt sv48_table) (alloc Rv64Virt)
    (mkPage 0x400000) (mkFrame 0x30000) Flags_default sv48_direct_map
    (sv48_map_by_slot _ _ sv48_direct_map) sv48_start_wf (page_ok_at Rv64Virt ltac:(done))
    (proj1 (supplies_n 3 ltac:(lia)))) as H.
  unfold mapped. destruct (Sv48.map _ _ _ _ _ _ _) as [[r [m a]]|]; [apply H|destruct H].
Qed.

Lemma sv48_unmap_correct_witness :
  Sv48.unmap Rv64Virt sv48_table Size4KiB mapped.1 (mkPage 0x400000) ⇓ fun '(r, m') =>
    riscv_wf Rv64Virt 4 sv48_table limit m' mapped.2 /\
    riscv_tr Rv64Virt 4 sv48_table m' 0x400123 = None.
Proof.
  eapply returns_weaken.
  { eapply (sv48_unmap_correct sv48_table limit mapped.1 mapped.2 (mkPage 0x400000)).
    - apply sv48_direct_map.
    - apply mapped_wf.
    - by exists 1024.
    - simpl. lia.
    - vm_compute. reflexivity. }
  intros [r m'] (Hwf & _ & _ & Hv). split; [exact Hwf|]. apply Hv; unfold within; simpl; lia.
Defined.


End Example.
