(* ===== verification/AddressSpace.v ===== *)
(** * [kernel/src/object/address_space.rs], [memory_object.rs], [vmm/mod.rs]:
    the kernel's use of page tables

    Memory objects are mapped into address spaces, tasks get their user stacks
    in slots of an address space, and the kernel its own stacks in the dynamic
    area.  The definitions work on any state [St] that holds the page tables
    (the [PageTable] interface) and the physical memory manager ([FrameSource]);
    the theorems are proved against what these promise, and the real page tables
    with the real memory manager discharge it. *)

From stdpp Require Import base tactics option list numbers gmap.
From S2P Require Import Prelude Bytes Crates Mulch Memory Mapper TableMemory Bitmap.

(** ** [MemoryObject] *)

Record MemoryObject := mkMemoryObject {
  mo_size : Z;
  mo_flags : Flags;
  backing : list (Z * Z);
}.

Definition MemoryObject_new (physical_address size : Z) (flags : Flags) : MemoryObject :=
  mkMemoryObject size flags [(physical_address, size)].

Definition extend (o : MemoryObject) (extend_by new_backing : Z) : outcome MemoryObject :=
  rassert (extend_by >? 0) ;;
  size ← uadd (mo_size o) extend_by;
  mret (mkMemoryObject size (mo_flags o) (backing o ++ [(new_backing, extend_by)])).

(** ** Where physical memory comes from: [Pmm::alloc] *)

Class FrameSource (St : Type) := {
  (** [count] contiguous frames: the physical address of the first. *)
  take_frames : St -> Z -> outcome (Z * St);
}.

(** ** [AddressSpace] *)

Record AddressSpace := mkAddressSpace {
  (** The object mapped at an address, by its id. *)
  mappings : gmap Z Z;
  slot_bitmap : Z;
}.

Definition AddressSpace_new : AddressSpace := mkAddressSpace ∅ 0.

Record Stack := mkStack {
  top : Z;
  slot_bottom : Z;
  stack_bottom : Z;
  stack_physical : Z;
}.

Record TaskSlot := mkTaskSlot { index : Z; user_stack : Stack }.

Inductive MapMemoryObjectError :=
  | InvalidMemoryObjectHandle | InvalidAddressSpaceHandle | RegionAlreadyMapped | AddressPointerInvalid.

Definition USER_STACK_BASE : Z := 0x200000000.
Definition USER_STACK_SLOT_SIZE : Z := 1024 * 1024.
Definition KERNEL_STACK_SLOT_SIZE : Z := 1024 * 1024.

(** ** [Vmm] *)

Record Vmm := mkVmm {
  kernel_dynamic_area_base : Z;
  kernel_dynamic_next_available : Z;
  kernel_end_of_dynamic_area : Z;
}.

(** The dynamic area ends where the kernel image begins. *)
Definition Vmm_new (dynamic_area_base image_base : Z) : Vmm :=
  mkVmm dynamic_area_base dynamic_area_base image_base.

Section code.
Context {St : Type} `{PageTable St} `{FrameSource St} `{BitField} (tgt : target).

(** The loop of [map_memory_object] over the object's backing. *)
Fixpoint map_backing (st : St) (current_virtual : Z) (flags : Flags) (regions : list (Z * Z)) :
    outcome (result unit MapMemoryObjectError * St) :=
  match regions with
  | [] => mret (Ok tt, st)
  | (physical, size) :: regions =>
      '(r, st) ← map_area tgt st current_virtual physical size flags;
      match r with
      | Err AlreadyMapped => mret (Err RegionAlreadyMapped, st)
      | Ok _ =>
          current_virtual ← VAddr.add tgt current_virtual size;
          map_backing st current_virtual flags regions
      end
  end.

Definition map_memory_object (self : AddressSpace) (st : St) (id : Z) (o : MemoryObject) (virtual_address : Z) :
    outcome (result unit MapMemoryObjectError * (AddressSpace * St)) :=
  '(r, st) ← map_backing st virtual_address (mo_flags o) (backing o);
  match r with
  | Err e => mret (Err e, (self, st))
  | Ok _ => mret (Ok tt, (mkAddressSpace (<[virtual_address := id]> (mappings self)) (slot_bitmap self), st))
  end.

Definition user_stack_flags : Flags := mkFlags true false true true.
Definition kernel_stack_flags : Flags := mkFlags true false false true.

Definition alloc_task_slot (self : AddressSpace) (st : St) (initial_stack_size : Z) :
    outcome (option TaskSlot * (AddressSpace * St)) :=
  '(i, bitmap) ← alloc 64 (slot_bitmap self) 1;
  let self := mkAddressSpace (mappings self) bitmap in
  match i with
  | None => mret (None, (self, st))
  | Some i =>
      off ← umul USER_STACK_SLOT_SIZE i;
      slot_bottom ← VAddr.add tgt USER_STACK_BASE off;
      slot_end ← VAddr.add tgt slot_bottom USER_STACK_SLOT_SIZE;
      top ← VAddr.sub tgt slot_end 1;
      stack_end ← VAddr.add tgt top 1;
      stack_bottom ← VAddr.sub tgt stack_end initial_stack_size;
      count ← udiv initial_stack_size (SIZE Size4KiB);
      '(physical_start, st) ← take_frames st count;
      '(r, st) ← map_area tgt st stack_bottom physical_start initial_stack_size user_stack_flags;
      match r with
      | Err _ => Panic
      | Ok _ =>
          mret (Some (mkTaskSlot i (mkStack top slot_bottom stack_bottom physical_start)), (self, st))
      end
  end.

Definition alloc_kernel (self : Vmm) (size : Z) : outcome (option Z * Vmm) :=
  size ← Math.align_up 64 size (SIZE Size4KiB);
  let address := VAddr.new tgt (kernel_dynamic_next_available self) in
  let self := mkVmm (kernel_dynamic_area_base self) ((kernel_dynamic_next_available self + size) mod 2 ^ 64)
    (kernel_end_of_dynamic_area self) in
  e ← VAddr.add tgt address size;
  mret (if e >? kernel_end_of_dynamic_area self then None else Some address, self).

Definition map_kernel (self : Vmm) (st : St) (addr size : Z) (flags : Flags) :
    outcome (option Z * (Vmm * St)) :=
  '(virt, self) ← alloc_kernel self size;
  match virt with
  | None => mret (None, (self, st))
  | Some virt =>
      '(r, st) ← map_area tgt st virt addr size flags;
      match r with
      | Err _ => Panic
      | Ok _ => mret (Some virt, (self, st))
      end
  end.

Definition alloc_kernel_stack (self : Vmm) (st : St) (initial_size : Z) :
    outcome (option Stack * (Vmm * St)) :=
  '(slot_bottom, self) ← alloc_kernel self KERNEL_STACK_SLOT_SIZE;
  slot_bottom ← unwrap slot_bottom;
  slot_end ← VAddr.add tgt slot_bottom KERNEL_STACK_SLOT_SIZE;
  top ← VAddr.sub tgt slot_end 1;
  t ← VAddr.sub tgt top initial_size;
  stack_bottom ← VAddr.add tgt t 1;
  count ← udiv initial_size (SIZE Size4KiB);
  '(physical_start, st) ← take_frames st count;
  '(r, st) ← map_area tgt st stack_bottom physical_start initial_size kernel_stack_flags;
  match r with
  | Err _ => Panic
  | Ok _ => mret (Some (mkStack top slot_bottom stack_bottom physical_start), (self, st))
  end.

End code.

(** ** What the code relies on *)

Class FrameSourceSpec (tgt : target) (St : Type) `{FrameSource St} `{TableMemorySpec tgt St} := {
  (** [count] contiguous frames can be taken, and [n] pages mapped after that. *)
  fs_room : Z -> nat -> St -> Prop;
  fs_enough : forall st count n, pts_inv st -> fs_room count n st ->
    take_frames st count ⇓ fun '(_, st') => pts_supplies n st';
  fs_take : forall st count p st',
    pts_inv st -> 0 <= count <= 2 ^ 52 -> take_frames st count = Val (p, st') ->
    pts_inv st' /\ (forall v, pts_tr st' v = pts_tr st v) /\
    (4096 | p) /\ 0 <= p /\ p + count * 4096 <= pts_limit /\
    (forall x, within p (count * 4096) x -> tm_free st x /\ ~ tm_free st' x) /\
    (forall x, tm_free st' x -> tm_free st x) /\ (forall x, tm_table st' x -> tm_table st x);
}.

(** A 4KiB page is refused only if it is mapped. *)
Class SmallPageSpec (tgt : target) (St : Type) `{PageTableSpec tgt St} : Prop :=
  sp_map : forall st (page : Page Size4KiB) (frame : Frame Size4KiB) flags,
    pts_inv st -> (4096 | page_start page) -> (4096 | frame_start frame) ->
    (forall v, within (page_start page) 4096 v -> vaddr_canonical tgt v) ->
    0 <= frame_start frame -> frame_start frame + 4096 <= pts_limit ->
    pts_tr st (page_start page) = None ->
    pt_map Size4KiB st page frame flags ⇓{~ pts_supplies 1 st} fun '(r, _) => r = Ok tt.

Lemma returns_unless_and {A} (Q : Prop) (m : outcome A) (P R : A -> Prop) :
  m ⇓{Q} P -> m ⇓{Q} R -> m ⇓{Q} fun a => P a /\ R a.
Proof. destruct m; simpl; auto. Qed.

Section small_pages.
Context (tgt : target) {St : Type} `{PT : PageTable St} `{PS : !PageTableSpec tgt St} `{!SmallPageSpec tgt St}.

Lemma map_small_loop fuel : forall st (page page_end frame frame_end : Z) flags k,
  pts_inv st -> (4096 | page) -> (4096 | frame) ->
  page_end = page + 4096 * k -> frame_end = frame + 4096 * k -> 0 <= k < Z.of_nat fuel ->
  area_ok tgt page frame (4096 * k) ->
  (forall v, within page (4096 * k) v -> pts_tr st v = None) ->
  map_range_loop tgt Size4KiB fuel st (mkPage page) (mkPage page_end) (mkFrame frame) (mkFrame frame_end) flags
    ⇓{~ pts_supplies (Z.to_nat k) st} fun '(r, _) => r = Ok tt.
Proof.
  induction fuel as [|fuel IH]; intros st pv pe fv fe flags k Hi Hdp Hdf -> -> Hk Hok Hun; [lia|].
  cbn [map_range_loop]. unfold page_range_next, frame_range_next. simpl.
  destruct (decide (k = 0)) as [->|].
  { rewrite Z.mul_0_r. by replace (pv <? pv + 0) with false by lia. }
  destruct (area_ok_split tgt pv fv _ 4096 Hok ltac:(lia)) as [Hok1 Hok2].
  replace (pv <? pv + 4096 * k) with true by lia. simpl.
  assert (vaddr_canonical tgt pv) as [Hpv0 _]%vaddr_canonical_usize
    by (apply (area_canonical _ _ _ _ Hok1); lia).
  assert (vaddr_canonical tgt (pv + 4096)) as Hpv1 by (apply (area_canonical _ _ _ _ Hok1); lia).
  destruct (area_phys _ _ _ _ Hok1) as (Hf0 & Hf1 & Hf2).
  rewrite page_forward_in; simpl; [|lia|lia|done].
  replace (fv <? fv + 4096 * k) with true by lia. simpl.
  rewrite frame_forward_in; simpl; [|lia|lia|unfold paddr_valid; lia].
  assert (forall v, within pv 4096 v -> vaddr_canonical tgt v) as Hc1
    by (intros v Hv; apply (area_canonical _ _ _ _ Hok1); unfold within in Hv; lia).
  eapply returns_unless_bind.
  { apply returns_unless_and.
    - by apply (pts_map Size4KiB st (mkPage pv) (mkFrame fv)).
    - apply (sp_map st (mkPage pv) (mkFrame fv)); auto. apply Hun. unfold within. simpl. lia. }
  { intros Hn Hsp. apply Hn. eapply pts_supplies_le; [|exact Hsp]. lia. }
  intros [r st1] [(Hi1 & Hsp1 & Hr) ->]. simpl in Hr.
  eapply returns_unless_weaken; [eapply (IH st1 (pv + 4096) _ (fv + 4096) _ flags (k - 1)); auto; try lia| |done].
  - apply Z.divide_add_r; auto using Z.divide_refl.
  - apply Z.divide_add_r; auto using Z.divide_refl.
  - by replace (4096 * (k - 1)) with (4096 * k - 4096) by lia.
  - unfold within in *. intros v Hv.
    assert (vaddr_canonical tgt v) as Hcv by (apply (area_canonical _ _ _ _ Hok); lia).
    rewrite (proj2 (Hr v Hcv)) by lia. apply Hun. lia.
  - intros Hn Hsp. apply Hn, Hsp1. by replace (1 + Z.to_nat (k - 1))%nat with (Z.to_nat k) by lia.
Qed.

(** An area below 2MiB is mapped with 4KiB pages. *)
Lemma map_area_small st virt phys size flags :
  (4096 | virt) -> (4096 | phys) -> (4096 | size) -> size < SIZE Size2MiB -> area_ok tgt virt phys size ->
  map_area tgt st virt phys size flags = map_bytes tgt Size4KiB st virt phys size flags.
Proof.
  intros Hdv Hdp Hds Hlt Hok. pose proof (area_size _ _ _ _ Hok) as Hs0.
  destruct (area_phys _ _ _ _ Hok) as (Hp0 & Hp1 & Hp2). pose proof (paddr_valid_usize tgt phys) as Hpu.
  assert (vaddr_canonical tgt virt) as Hv%vaddr_canonical_usize by (apply (area_canonical _ _ _ _ Hok); lia).
  assert (forall x, (4096 | x) -> x mod SIZE Size4KiB = 0) as Hmod by (intros x Hx; by apply Z.mod_divide).
  unfold map_area. rewrite vis_aligned_Val, Hmod by done. obind. rewrite is_aligned_Val, Hmod by done. obind.
  rewrite urem_size, Hmod by done. obind.
  rewrite Math.abs_difference_spec by (done || (apply Hpu; unfold paddr_valid; lia)). obind.
  rewrite urem_size. obind. by replace (size <? SIZE Size2MiB) with true by lia.
Qed.

(** An area below 2MiB that is not mapped is mapped in full. *)
Lemma map_small_area st virt phys size flags :
  pts_inv st -> (4096 | virt) -> (4096 | phys) -> (4096 | size) -> size < SIZE Size2MiB ->
  area_ok tgt virt phys size ->
  (forall v, within virt size v -> pts_tr st v = None) ->
  pts_supplies (small_pages size) st ->
  map_area tgt st virt phys size flags ⇓ fun '(r, st') =>
    r = Ok tt /\ pts_inv st' /\ maps_bytes tgt st st' virt phys size.
Proof.
  intros Hi Hdv Hdp Hds Hlt Hok Hun Hsup. rewrite map_area_small by done.
  assert (map_bytes tgt Size4KiB st virt phys size flags ⇓{~ pts_supplies (small_pages size) st}
    fun '(r, _) => r = Ok tt) as Hr.
  { pose proof (area_size _ _ _ _ Hok) as Hs0. destruct (area_phys _ _ _ _ Hok) as (Hp0 & Hp1 & Hp2).
    assert (forall x, (4096 | x) -> x mod SIZE Size4KiB = 0) as Hmod by (intros x Hx; by apply Z.mod_divide).
    unfold map_bytes. rewrite page_starts_with_in by auto. obind.
    rewrite vaddr_add_in by (apply (area_canonical _ _ _ _ Hok); lia). obind.
    rewrite page_starts_with_in by (apply Hmod, Z.divide_add_r; auto). obind.
    rewrite frame_starts_with_in by auto. obind. rewrite paddr_add_in by (unfold paddr_valid; lia). obind.
    rewrite frame_starts_with_in by (apply Hmod, Z.divide_add_r; auto). obind.
    destruct Hds as [k ->]. rewrite Z.mul_comm in *. unfold map_range, small_pages. cbn [page_start].
    replace (virt + 4096 * k - virt) with (4096 * k) by lia.
    change (SIZE Size4KiB) with 4096. rewrite Z.mul_comm, Z.div_mul, Z.mul_comm by done.
    apply map_small_loop; auto; lia. }
  eapply returns_weaken; [eapply returns_unless_returns|].
  - eapply returns_unless_and; [exact Hr|by apply map_bytes_spec].
  - done.
  - by intros [r st'] [-> (Hi' & _ & Hm)].
Qed.

End small_pages.

(** ** Mapping memory objects *)

(** The physical address of the byte at an offset of a memory object. *)
Fixpoint object_byte (regions : list (Z * Z)) (off : Z) : option Z :=
  match regions with
  | [] => None
  | (p, n) :: regions => if off <? n then Some (p + off) else object_byte regions (off - n)
  end.

Definition regions_size (regions : list (Z * Z)) : Z := foldr (fun r n => r.2 + n) 0 regions.
Definition regions_pages (regions : list (Z * Z)) : nat := foldr (fun r n => (small_pages r.2 + n)%nat) 0%nat regions.

Section objects.
Context (tgt : target) {St : Type} `{PT : PageTable St} `{PS : !PageTableSpec tgt St}.

Definition region_ok (r : Z * Z) : Prop :=
  (4096 | r.1) /\ (4096 | r.2) /\ 0 <= r.1 /\ 0 <= r.2 /\ r.1 + r.2 <= pts_limit.

(** The invariant of memory objects: page-sized, page-aligned pieces of physical
    memory that add up to the object's size. *)
Definition object_ok (o : MemoryObject) : Prop :=
  Forall region_ok (backing o) /\ mo_size o = regions_size (backing o).

Lemma regions_size_nonneg l : Forall region_ok l -> 0 <= regions_size l.
Proof. induction 1 as [|[q n] l (_ & _ & _ & Hn & _) _ IH]; simpl in *; lia. Qed.

Lemma MemoryObject_new_ok p size flags : region_ok (p, size) -> object_ok (MemoryObject_new p size flags).
Proof. intros Hr. split; [by constructor|]. simpl. lia. Qed.

Lemma extend_ok o extend_by p :
  object_ok o -> region_ok (p, extend_by) -> 0 < extend_by -> mo_size o + extend_by < 2 ^ 64 ->
  extend o extend_by p ⇓ fun o' =>
    object_ok o' /\ mo_size o' = mo_size o + extend_by /\
    forall off, 0 <= off ->
      object_byte (backing o') off = if off <? mo_size o then object_byte (backing o) off
                                     else if off <? mo_size o' then Some (p + (off - mo_size o)) else None.
Proof.
  intros [Hb Hs] Hr Hpos Hlt. unfold extend. replace (extend_by >? 0) with true by lia. obind.
  pose proof (regions_size_nonneg _ Hb). rewrite wadd_in by (unfold is_unsigned; lia). obind. cbn [mo_size backing].
  split_and!; [|done|].
  - split; [apply Forall_app; split; [done|by constructor]|]. cbn [mo_size backing]. rewrite Hs.
    clear. induction (backing o) as [|[q n] l IH]; simpl in *; lia.
  - rewrite Hs. clear Hs Hlt H. induction Hb as [|[q n] l (_ & _ & _ & Hn & _) Hl IH]; intros off Hoff; simpl in *.
    + replace (off <? 0) with false by lia. destruct (Z.ltb_spec off extend_by).
      * replace (off <? 0 + extend_by) with true by lia. f_equal. lia.
      * by replace (off <? 0 + extend_by) with false by lia.
    + pose proof (regions_size_nonneg l Hl). destruct (Z.ltb_spec off n).
      * by replace (off <? n + regions_size l) with true by lia.
      * rewrite IH by lia. destruct (Z.ltb_spec (off - n) (regions_size l)).
        { by replace (off <? n + regions_size l) with true by lia. }
        replace (off <? n + regions_size l) with false by lia.
        replace (off <? n + regions_size l + extend_by) with (off - n <? regions_size l + extend_by) by lia.
        destruct (_ <? _); [|done]. f_equal. lia.
Qed.

(** Exactly the first [d] bytes of the regions became mapped, from [virt] on. *)
Definition maps_prefix (st st' : St) (virt : Z) (regions : list (Z * Z)) (d : Z) : Prop :=
  forall v, vaddr_canonical tgt v ->
    (within virt d v -> pts_tr st v = None /\ pts_tr st' v = object_byte regions (v - virt)) /\
    (~ within virt d v -> pts_tr st' v = pts_tr st v).

Lemma maps_prefix_cons st st1 st2 virt p n regions d :
  0 <= n -> 0 <= d -> maps_bytes tgt st st1 virt p n -> maps_prefix st1 st2 (virt + n) regions d ->
  maps_prefix st st2 virt ((p, n) :: regions) (n + d).
Proof.
  intros Hn Hd H1 H2 v Hv. destruct (H1 v Hv) as [H1i H1o], (H2 v Hv) as [H2i H2o].
  unfold within in *. cbn [object_byte]. split.
  - intros Hin. destruct (Z.ltb_spec (v - virt) n).
    + rewrite H2o by lia. apply H1i. lia.
    + rewrite <- H1o by lia. destruct H2i as [-> ->]; [lia|]. split; [done|]. f_equal. lia.
  - intros Hout. rewrite H2o by lia. apply H1o. lia.
Qed.

Lemma maps_bytes_prefix st st' virt p n regions d :
  0 <= d <= n -> maps_bytes tgt st st' virt p d -> maps_prefix st st' virt ((p, n) :: regions) d.
Proof.
  intros Hd Hm v Hv. destruct (Hm v Hv) as [Hi Ho]. split; [|done]. intros Hin. destruct (Hi Hin) as [? ->].
  split; [done|]. cbn [object_byte]. unfold within in Hin. by replace (v - virt <? n) with true by lia.
Qed.

Context (Hlim : pts_limit < paddr_limit tgt).

(** What the caller of [map_memory_object] has to provide. *)
Record place_ok (virt size : Z) : Prop := {
  place_aligned : (4096 | virt);
  place_canonical : forall v, virt <= v <= virt + size -> vaddr_canonical tgt v;
  place_top : pts_limit + virt + size < 2 ^ 64 /\ virt + size + SIZE Size2MiB < 2 ^ 64;
}.

Lemma region_area virt p n size :
  region_ok (p, n) -> place_ok virt size -> n <= size -> area_ok tgt virt p n.
Proof.
  intros (_ & _ & Hp0 & Hn & Hpl) [Ha Hc Ht] Hns. simpl in *. split; [|lia|done]. intros v Hv. apply Hc. lia.
Qed.

Lemma place_split virt size n :
  place_ok virt size -> (4096 | n) -> 0 <= n -> place_ok (virt + n) (size - n).
Proof.
  intros [Ha Hc Ht] Hd Hn. split; [by apply Z.divide_add_r| |lia]. intros v Hv. apply Hc. lia.
Qed.

Lemma map_backing_spec flags regions : forall st virt,
  pts_inv st -> Forall region_ok regions -> place_ok virt (regions_size regions) ->
  map_backing tgt st virt flags regions ⇓{~ pts_supplies (regions_pages regions) st} fun '(r, st') =>
    pts_inv st' /\
    match r with
    | Ok _ => maps_prefix st st' virt regions (regions_size regions)
    | Err e => e = RegionAlreadyMapped /\
        exists d, 0 <= d < regions_size regions /\ maps_prefix st st' virt regions d
    end.
Proof.
  induction regions as [|[p n] regions IH]; intros st virt Hi Hr Hpl.
  { simpl. split; [done|]. intros v _. unfold within. split; [lia|done]. }
  apply Forall_cons_1 in Hr as [Hrn Hr]. cbn [regions_size foldr snd] in *. fold (regions_size regions) in *.
  pose proof (regions_size_nonneg _ Hr) as Hge.
  pose proof Hrn as (Hdp & Hdn & Hp0 & Hn0 & Hpn). simpl in Hdp, Hdn, Hp0, Hn0, Hpn.
  pose proof (place_top _ _ Hpl) as [Ht1 Ht2].
  cbn [map_backing]. eapply returns_unless_bind.
  { apply (map_area_spec tgt st virt p n flags); auto; [apply (place_aligned _ _ Hpl)| |lia|lia].
    eapply region_area; [done|done|lia]. }
  { intros Hn Hs. apply Hn. eapply pts_supplies_le; [|exact Hs]. unfold regions_pages. simpl. lia. }
  intros [r st1] (Hi1 & Hsp1 & Hm). destruct r as [u|[]].
  - rewrite vaddr_add_in by (apply (place_canonical _ _ Hpl); lia). obind.
    eapply returns_unless_weaken; [apply (IH st1 (virt + n)); auto|intros Hn Hs; by apply Hn, Hsp1|].
    + replace (regions_size regions) with (n + regions_size regions - n) by lia. by apply place_split.
    + intros [r st2] [Hi2 Hm2]. split; [done|]. destruct r as [[]|e].
      * eapply maps_prefix_cons; [lia|lia|done|done].
      * destruct Hm2 as (-> & d & Hd & Hmd). split; [done|]. exists (n + d). split; [lia|].
        eapply maps_prefix_cons; [lia|lia|done|done].
  - simpl. split; [done|]. split; [done|]. destruct Hm as (d & Hd & Hmd). exists d. split; [lia|].
    apply maps_bytes_prefix; [lia|done].
Qed.

Lemma map_memory_object_spec self st id o virt :
  pts_inv st -> object_ok o -> place_ok virt (mo_size o) ->
  map_memory_object tgt self st id o virt ⇓{~ pts_supplies (regions_pages (backing o)) st} fun '(r, (self', st')) =>
    pts_inv st' /\ slot_bitmap self' = slot_bitmap self /\
    match r with
    | Ok _ => mappings self' = <[virt := id]> (mappings self) /\
        maps_prefix st st' virt (backing o) (mo_size o)
    | Err e => e = RegionAlreadyMapped /\ mappings self' = mappings self /\
        exists d, 0 <= d < mo_size o /\ maps_prefix st st' virt (backing o) d
    end.
Proof using Hlim.
  intros Hst [Hb Hs] Hplace. rewrite Hs in *. unfold map_memory_object.
  eapply returns_unless_bind; [by apply map_backing_spec|done|]. intros [[[]|e] st'] [Hi Hm]; simpl; [done|].
  destruct Hm as (-> & d & Hd & Hm). split_and!; eauto.
Qed.


End objects.

(** ** Stacks *)

Lemma vaddr_sub_in tgt v n : vaddr_canonical tgt (v - n) -> VAddr.sub tgt v n = Val (v - n).
Proof.
  intros Hc. unfold VAddr.sub. rewrite wsub_in by (by eapply vaddr_canonical_usize).
  simpl. unfold VAddr.new. by rewrite canonicalise_id.
Qed.

Definition slot_base (i : Z) : Z := USER_STACK_BASE + USER_STACK_SLOT_SIZE * i.

Lemma clear_one x i : clear x i 1 <-> Z.testbit x i = false.
Proof. unfold clear. split; [intros Hc; apply Hc; lia|]. intros Hb j Hj. by replace j with i by lia. Qed.

Lemma testbit_with_one x i j : 0 <= i -> 0 <= j -> Z.testbit (with_run x i 1) j = Z.testbit x j || (j =? i).
Proof.
  intros Hi Hj. unfold with_run. rewrite Z.lor_spec, (testbit_run 2) by lia. f_equal. lia.
Qed.

Lemma slot_canonical tgt i v :
  0 <= i < 64 -> slot_base i <= v <= slot_base i + USER_STACK_SLOT_SIZE -> vaddr_canonical tgt v.
Proof. unfold slot_base, USER_STACK_BASE, USER_STACK_SLOT_SIZE. destruct tgt; simpl; unfold is_unsigned; lia. Qed.

Lemma with_run_one x i : 0 <= i -> with_run x i 1 = Z.setbit x i.
Proof. intros Hi. unfold with_run. rewrite Z.setbit_spec', Z.shiftl_mul_pow2 by done. by rewrite Z.mul_1_l. Qed.

Section stacks.
Context (tgt : target) {St : Type} `{PT : PageTable St} `{PS : !PageTableSpec tgt St} `{!SmallPageSpec tgt St}.
Context `{TM : !TableMemorySpec tgt St} `{FS : FrameSource St} `{!FrameSourceSpec tgt St} `{BitFieldSpec}.
Context (Hlim : pts_limit < paddr_limit tgt).

(** Nothing is mapped in the slots that are free. *)
Definition slots_ok (self : AddressSpace) (st : St) : Prop :=
  is_unsigned 64 (slot_bitmap self) /\
  forall i v, 0 <= i < 64 -> Z.testbit (slot_bitmap self) i = false ->
    within (slot_base i) USER_STACK_SLOT_SIZE v -> pts_tr st v = None.

(** A stack at the end of its slot, mapped to memory that was free. *)
Definition stack_mapped (st st' : St) (s : Stack) (slot_size size : Z) : Prop :=
  top s = slot_bottom s + slot_size - 1 /\ stack_bottom s = top s + 1 - size /\
  maps_bytes tgt st st' (stack_bottom s) (stack_physical s) size /\
  forall x, within (stack_physical s) size x -> tm_free st x.

(** Frames for a stack, mapped where nothing is. *)
Lemma map_stack st virt size flags :
  pts_inv st -> (4096 | virt) -> (4096 | size) -> 0 < size < SIZE Size2MiB ->
  (forall v, virt <= v <= virt + size -> vaddr_canonical tgt v) ->
  (forall v, within virt size v -> pts_tr st v = None) ->
  fs_room (size / 4096) (small_pages size) st ->
  ('(p, st) ← take_frames st (size / 4096); '(r, st) ← map_area tgt st virt p size flags; mret (r, p, st)) ⇓
    fun '(r, p, st') => r = Ok tt /\ pts_inv st' /\ maps_bytes tgt st st' virt p size /\
      forall x, within p size x -> tm_free st x.
Proof using Hlim SmallPageSpec0.
  intros Hi Hdv Hds Hs Hc Hun Hroom. simpl in Hs.
  assert (size / 4096 * 4096 = size) as Hsz by (destruct Hds as [k ->]; by rewrite Z.div_mul).
  pose proof (fs_enough st (size / 4096) (small_pages size) Hi Hroom) as Hsup.
  destruct (take_frames st (size / 4096)) as [[p st1]|] eqn:Et; [|done]. obind. simpl in Hsup.
  apply fs_take in Et as (Hi1 & Htr & Hdp & Hp0 & Hpl & Hfree & _); [|done|].
  2:{ split; [nia|]. apply Z.div_le_upper_bound; lia. }
  rewrite Hsz in *.
  eapply returns_bind; [apply (map_small_area tgt st1 virt p size flags); auto; try (simpl; lia)|].
  - split; [done|lia|lia].
  - intros v Hv. rewrite Htr. auto.
  - intros [r st2] (-> & Hi2 & Hm). simpl. split_and!; [done|done| |intros x Hx; by apply Hfree].
    intros v Hv. specialize (Hm v Hv). by rewrite Htr in Hm.
Qed.

(** Mapping a stack inside the slot just taken leaves the free slots unmapped. *)
Lemma slots_ok_taken self st st' i size p :
  slots_ok self st -> 0 <= i < 63 -> 0 < size <= USER_STACK_SLOT_SIZE ->
  is_unsigned 64 (with_run (slot_bitmap self) i 1) ->
  maps_bytes tgt st st' (slot_base i + USER_STACK_SLOT_SIZE - size) p size ->
  slots_ok (mkAddressSpace (mappings self) (with_run (slot_bitmap self) i 1)) st'.
Proof using Type.
  intros [_ Hun] Hi Hs Hu Hm. split; [done|]. cbn [slot_bitmap]. intros k v Hk.
  rewrite testbit_with_one by lia. intros [Hb Hki]%orb_false_iff Hv.
  assert (vaddr_canonical tgt v) as Hcv by (apply (slot_canonical tgt k); [lia|unfold within in Hv; lia]).
  rewrite (proj2 (Hm v Hcv)); [by apply (Hun k)|]. unfold within, slot_base, USER_STACK_SLOT_SIZE in *. nia.
Qed.

(** C20: [alloc_task_slot] gives a task a stack of its own: it takes the first free
    slot of the address space, maps a stack of the given size, from memory that
    was free, at the end of that slot, changes no other translation and leaves
    the free slots unmapped; it fails only when the first 63 slots are taken
    (the 64th bit of the bitmap is never used). *)
Theorem alloc_task_slot_correct (self : AddressSpace) (st : St) (size : Z)
  (Hst : pts_inv st) (Hslots : slots_ok self st)
  (Hsize : 0 < size <= USER_STACK_SLOT_SIZE) (Haligned : (4096 | size))
  (Hroom : fs_room (size / 4096) (small_pages size) st) :
  alloc_task_slot tgt self st size ⇓ fun '(r, (self', st')) =>
    pts_inv st' /\ slots_ok self' st' /\ mappings self' = mappings self /\
    match r with
    | Some slot =>
        let i := index slot in
        0 <= i < 63 /\ Z.testbit (slot_bitmap self) i = false /\
        (forall k, 0 <= k < i -> Z.testbit (slot_bitmap self) k = true) /\
        slot_bitmap self' = Z.setbit (slot_bitmap self) i /\
        slot_bottom (user_stack slot) = slot_base i /\
        stack_mapped st st' (user_stack slot) USER_STACK_SLOT_SIZE size
    | None => st' = st /\ self' = self /\ forall k, 0 <= k < 63 -> Z.testbit (slot_bitmap self) k = true
    end.
Proof using All.
  destruct Hslots as [Hu Hun]. unfold alloc_task_slot.
  eapply returns_bind; [by apply (alloc_spec 64 1 ltac:(lia) ltac:(lia))|].
  assert (forall k, ~ clear (slot_bitmap self) k 1 -> Z.testbit (slot_bitmap self) k = true) as Hset.
  { intros k. rewrite clear_one. by destruct (Z.testbit _ k). }
  intros [[i|] x']; cbn [alloc_post].
  2:{ intros [-> Hall]. destruct self as [ms bm]. obind. split_and!; [done|by split|done|done|done|].
      intros k Hk. apply Hset, Hall. lia. }
  intros (Hi & Hc & Hfirst & -> & Hu'). pose proof (proj1 (clear_one _ _) Hc) as Hclear.
  assert (0 <= slot_base i /\ slot_base i + USER_STACK_SLOT_SIZE < 2 ^ 35) as Hsb
    by (unfold slot_base, USER_STACK_BASE, USER_STACK_SLOT_SIZE; lia).
  assert (forall v, slot_base i <= v <= slot_base i + USER_STACK_SLOT_SIZE -> vaddr_canonical tgt v) as Hcan
    by (intros v; apply slot_canonical; lia).
  assert ((4096 | slot_base i + USER_STACK_SLOT_SIZE - size)) as Hdv.
  { apply Z.divide_sub_r; [|done]. exists (2 ^ 21 + 256 * i + 256).
    unfold slot_base, USER_STACK_BASE, USER_STACK_SLOT_SIZE. lia. }
  rewrite wmul_in by (unfold is_unsigned, USER_STACK_SLOT_SIZE; lia). obind.
  rewrite vaddr_add_in by (apply Hcan; unfold slot_base, USER_STACK_SLOT_SIZE; lia). obind.
  fold (slot_base i). rewrite vaddr_add_in by (apply Hcan; lia). obind.
  rewrite vaddr_sub_in by (apply Hcan; unfold USER_STACK_SLOT_SIZE in *; lia). obind.
  replace (slot_base i + USER_STACK_SLOT_SIZE - 1) with (slot_base i + (USER_STACK_SLOT_SIZE - 1)) by lia.
  rewrite vaddr_add_in by (apply Hcan; unfold USER_STACK_SLOT_SIZE in *; lia). obind.
  rewrite vaddr_sub_in by (apply Hcan; lia). obind.
  replace (slot_base i + (USER_STACK_SLOT_SIZE - 1) + 1 - size) with (slot_base i + USER_STACK_SLOT_SIZE - size) by lia.
  unfold udiv. simpl (SIZE Size4KiB =? 0). cbv iota. obind. change (SIZE Size4KiB) with 4096.
  pose proof (map_stack st (slot_base i + USER_STACK_SLOT_SIZE - size) size user_stack_flags Hst Hdv Haligned) as Hmap.
  assert (USER_STACK_SLOT_SIZE = 2 ^ 20) as Hss by done. specialize (Hmap ltac:(simpl; lia)).
  specialize (Hmap ltac:(intros v Hv; apply Hcan; lia)).
  assert (forall v, within (slot_base i + USER_STACK_SLOT_SIZE - size) size v -> pts_tr st v = None) as Hun'.
  { intros v Hv. apply (Hun i); [lia|done|]. unfold within, USER_STACK_SLOT_SIZE in *. lia. }
  specialize (Hmap Hun' Hroom).
  destruct (take_frames st (size / 4096)) as [[p st1]|]; [|done]. revert Hmap. obind.
  destruct (map_area _ _ _ _ _ _) as [[r st2]|]; [|done]. obind. intros (-> & Hi2 & Hm & Hfree).
  split; [done|]. split; [by eapply slots_ok_taken; [split| | | |]|]. split; [done|].
  cbn [index user_stack slot_bottom slot_bitmap]. split; [lia|]. split; [done|].
  split; [intros k Hk; apply Hset, Hfirst; lia|]. split; [apply with_run_one; lia|]. split; [done|].
  split; [simpl; lia|]. split; [simpl; lia|]. by split.
Qed.

(** *** Kernel stacks *)

(** The rest of the dynamic area is canonical and not mapped. *)
Record vmm_ok (self : Vmm) (st : St) : Prop := {
  vmm_aligned : (4096 | kernel_dynamic_next_available self);
  vmm_order : kernel_dynamic_area_base self <= kernel_dynamic_next_available self < 2 ^ 64;
  vmm_canonical : forall v, kernel_dynamic_area_base self <= v <= kernel_end_of_dynamic_area self ->
    vaddr_canonical tgt v;
  vmm_unmapped : forall v, kernel_dynamic_next_available self <= v < kernel_end_of_dynamic_area self ->
    pts_tr st v = None;
}.

(** [alloc_kernel] hands out the next pages of the area. *)
Lemma alloc_kernel_spec self st pages :
  vmm_ok self st -> 0 <= pages -> kernel_dynamic_next_available self + pages * 4096 <= kernel_end_of_dynamic_area self ->
  kernel_end_of_dynamic_area self < 2 ^ 64 - 8192 ->
  alloc_kernel tgt self (pages * 4096) = Val (Some (kernel_dynamic_next_available self),
    mkVmm (kernel_dynamic_area_base self) (kernel_dynamic_next_available self + pages * 4096)
      (kernel_end_of_dynamic_area self)).
Proof using Type.
  intros [Ha Ho Hc Hu] Hp Hfit Hend. set (next := kernel_dynamic_next_available self) in *.
  assert (vaddr_canonical tgt next) as Hcn by (apply Hc; lia).
  pose proof (vaddr_canonical_usize tgt next Hcn) as [Hn0 _].
  unfold alloc_kernel. change (SIZE Size4KiB) with (2 ^ 12).
  rewrite Math.align_up_pow2 by (unfold is_unsigned; lia). obind.
  replace ((pages * 4096 + 2 ^ 12 - 1) mod 2 ^ 12) with 4095.
  2:{ replace (pages * 4096 + 2 ^ 12 - 1) with (4095 + pages * 2 ^ 12) by lia. rewrite Z.mod_add by done. done. }
  replace (pages * 4096 + 2 ^ 12 - 1 - 4095) with (pages * 4096) by lia. fold next.
  unfold VAddr.new. rewrite canonicalise_id by done. rewrite vaddr_add_in by (apply Hc; lia). obind.
  cbn [kernel_end_of_dynamic_area]. replace (_ >? _) with false by lia. by rewrite Z.mod_small by lia.
Qed.

(** [alloc_kernel_stack] gives a task a kernel stack of its own: it takes the
    next slot of the kernel's dynamic area, maps a stack of the given size, from
    memory that was free, at the end of that slot, changes no other translation,
    and what is left of the area stays unmapped, so slots never overlap. *)
Lemma alloc_kernel_stack_correct (self : Vmm) (st : St) (size : Z)
  (Hst : pts_inv st) (Hvmm : vmm_ok self st)
  (Hsize : 0 < size < KERNEL_STACK_SLOT_SIZE) (Haligned : (4096 | size))
  (Hleft : kernel_dynamic_next_available self + KERNEL_STACK_SLOT_SIZE <= kernel_end_of_dynamic_area self)
  (Hend : kernel_end_of_dynamic_area self < 2 ^ 64 - 8192)
  (Hroom : fs_room (size / 4096) (small_pages size) st) :
  alloc_kernel_stack tgt self st size ⇓ fun '(r, (self', st')) =>
    pts_inv st' /\ vmm_ok self' st' /\
    kernel_dynamic_next_available self' = kernel_dynamic_next_available self + KERNEL_STACK_SLOT_SIZE /\
    exists s, r = Some s /\ slot_bottom s = kernel_dynamic_next_available self /\
      stack_mapped st st' s KERNEL_STACK_SLOT_SIZE size.
Proof using Hlim SmallPageSpec0.
  pose proof Hvmm as [Ha Ho Hc Hu]. assert (KERNEL_STACK_SLOT_SIZE = 256 * 4096) as Hss by done.
  set (next := kernel_dynamic_next_available self) in *.
  unfold alloc_kernel_stack. rewrite Hss. rewrite (alloc_kernel_spec self st 256) by (done || lia). obind.
  fold next. rewrite vaddr_add_in by (apply Hc; lia). obind. rewrite vaddr_sub_in by (apply Hc; lia). obind.
  rewrite vaddr_sub_in by (apply Hc; lia). obind. rewrite vaddr_add_in by (apply Hc; lia). obind.
  unfold udiv. simpl (SIZE Size4KiB =? 0). cbv iota. obind. change (SIZE Size4KiB) with 4096.
  replace (next + 256 * 4096 - 1 - size + 1) with (next + 256 * 4096 - size) by lia.
  pose proof (map_stack st (next + 256 * 4096 - size) size kernel_stack_flags Hst) as Hmap.
  specialize (Hmap ltac:(apply Z.divide_sub_r; [apply Z.divide_add_r; [done|by exists 256]|done]) Haligned).
  specialize (Hmap ltac:(simpl; lia) ltac:(intros v Hv; apply Hc; lia)).
  specialize (Hmap ltac:(unfold within; intros v Hv; apply Hu; lia) Hroom).
  destruct (take_frames st (size / 4096)) as [[p st1]|]; [|done]. revert Hmap. obind.
  destruct (map_area _ _ _ _ _ _) as [[r st2]|]; [|done]. obind. intros (-> & Hi2 & Hm & Hfree).
  split; [done|]. split; [|split; [done|]].
  - split; cbn [kernel_dynamic_area_base kernel_dynamic_next_available kernel_end_of_dynamic_area].
    + apply Z.divide_add_r; [done|by exists 256].
    + lia.
    + done.
    + intros v Hv. assert (vaddr_canonical tgt v) as Hcv by (apply Hc; lia).
      rewrite (proj2 (Hm v Hcv)) by (unfold within; lia). apply Hu. lia.
  - eexists. split; [done|]. split; [done|]. split; [simpl; lia|]. split; [simpl; lia|]. by split.
Qed.

End stacks.
