(* ===== verification/KernelMemory.v ===== *)
(** * The kernel's memory on RISC-V

    The Sv48 page tables and the physical memory manager together provide what
    [AddressSpace] relies on, and the theorems there hold of them. *)

From stdpp Require Import base tactics option list numbers gmap.
From S2P Require Import Prelude Bytes Crates Mulch Memory FrameAllocator Buddy Pmm PageTable Mapper Translation TableMemory.
From S2P Require Import RiscvPaging RiscvCorrect Bitmap AddressSpace.

(** ** A smaller allocator keeps the tables well formed *)

Lemma pt_wf_alloc `{EntryFormat} {A : Type} `{FrameAllocatorSpec tgt A} physical_base lim L m (a a' : A) root :
  pt_wf tgt physical_base lim L m a root -> fa_inv a' -> (forall x, fa_owns a' x -> fa_owns a x) ->
  pt_wf tgt physical_base lim L m a' root.
Proof.
  intros [Hwo Hal Hall Hta Htr Had] Ha' Hsub. split; [done|done|auto| |done|done].
  intros path t Hp Hl Hw. destruct (Hta path t Hp Hl Hw) as (pa & ? & ? & ? & ? & Hno).
  exists pa. split_and!; auto. intros x Hx Ho. by apply (Hno x Hx), Hsub.
Qed.

(** ** [Pmm::alloc] *)

Lemma pmm_alloc_spec p count addr p' :
  Pmm.pmm_wf p -> 0 <= count <= 2 ^ 52 -> Pmm.alloc p count = Val (addr, p') ->
  Pmm.pmm_wf p' /\ Pmm.pmm_target p' = Pmm.pmm_target p /\ (4096 | addr) /\ 0 <= addr /\
  (forall x, within addr (Z.max 1 count * 4096) x -> Pmm.pmm_free p x /\ ~ Pmm.pmm_free p' x) /\
  (forall x, Pmm.pmm_free p' x -> Pmm.pmm_free p x).
Proof.
  intros Hw Hc E. unfold Pmm.alloc in E. rewrite Buddy.alloc_unfold in E by lia.
  pose proof (allocate_block_spec (Pmm.pmm_target p) (Pmm.pmm_buddy p) (order_of count) Hw) as Hpost.
  destruct (allocate_block _ _ _) as [[[t|] b']|]; try done. simpl in E. injection E as <- <-.
  destruct Hpost as ((Hd & Ht0 & _) & _ & Hw' & Hall & Hfree).
  assert (Z.max 1 count * 4096 <= block_bytes (order_of count)) as Hbytes.
  { destruct (decide (count = 0)) as [->|]; [by vm_compute|]. rewrite Z.max_r by lia. apply order_of_bytes. lia. }
  unfold Pmm.pmm_free, Pmm.pmm_wf. simpl. split_and!; [done|done| |done| |].
  - eapply Z.divide_trans; [|exact Hd]. unfold block_bytes. change BASE_SIZE with 4096. apply Z.divide_factor_r.
  - intros x Hx. unfold within in Hx. assert (covers t (order_of count) x) as Hcov by (unfold covers; lia).
    split; [by apply Hall|]. rewrite Hfree. tauto.
  - intros x Hx%Hfree. tauto.
Qed.

(** ** The interfaces, discharged *)

Section sv48.
Context `{BFl : BitField} `{!BitFieldSpec} `{BFg : BitFlags} `{!BitFlagsSpec}.
Context (self : PageTableImpl) (lim : Z) (Hdm : direct_map Rv64Virt self lim).

Definition sv48_pages : PageTable (Machine * Pmm.Pmm) := {| pt_map := Sv48.map Rv64Virt (A := Pmm.Pmm) self |}.

Definition pmm_source : FrameSource (Machine * Pmm.Pmm) := {|
  take_frames := fun '(m, a) count => '(p, a') ← Pmm.alloc a count; mret (p, (m, a'));
|}.

Lemma sv48_limits : lim <= 2 ^ 56 /\ 0 <= lim <= paddr_limit Rv64Virt.
Proof. pose proof (dm_limit _ _ _ Hdm). simpl. lia. Qed.

Definition sv48_spec : @PageTableSpec Rv64Virt (Machine * Pmm.Pmm) sv48_pages :=
  page_table_spec (A := Pmm.Pmm) (EF := riscv_format Rv64Virt) (EntryFormatSpec0 := riscv_format_spec Rv64Virt ltac:(done))
    Rv64Virt (physical_base self) lim 4
    ltac:(done) eq_refl (dm_canonical _ _ _ Hdm) (proj1 sv48_limits) (proj2 sv48_limits) ltac:(lia) (root self)
    (Sv48.map Rv64Virt (A := Pmm.Pmm) self) (sv48_map_by_slot self lim Hdm).

#[local] Existing Instance sv48_pages.
#[local] Existing Instance pmm_source.
#[local] Existing Instance sv48_spec.

Program Definition sv48_memory : TableMemorySpec Rv64Virt (Machine * Pmm.Pmm) := {|
  tm_free := fun st => Pmm.pmm_free st.2;
  tm_table := fun st => table_byte (EF := riscv_format Rv64Virt) (physical_base self) 4 st.1 (root self);
|}.
Next Obligation.
  intros [m a] x Hwf Hx. 
  exact (table_byte_taken (EF := riscv_format Rv64Virt) Rv64Virt (A := Pmm.Pmm) (physical_base self) lim 4 m a (root self) x Hwf Hx).
Qed.
Next Obligation.
  intros s [m a] page frame flags r [m' a'] Hwf Hdp Hdf Hc Hf0 Hf1 E. destruct sv48_limits as [Hl1 Hl2].
  pose proof (SIZE_pos s). simpl in Hf1.
  apply (map_by_slot_grows (EF := riscv_format Rv64Virt) (EntryFormatSpec0 := riscv_format_spec Rv64Virt ltac:(done))
    Rv64Virt (A := Pmm.Pmm) (physical_base self) lim 4
    (dm_canonical _ _ _ Hdm) Hl1 ltac:(done) eq_refl ltac:(lia) (root self) (Sv48.map Rv64Virt (A := Pmm.Pmm) self) s m a
    page frame flags r (m', a')
    (sv48_map_by_slot self lim Hdm) Hwf); auto; [|lia].
  eapply vaddr_canonical_usize, Hc. unfold within. lia.
Qed.

#[local] Existing Instance sv48_memory.

Program Definition sv48_source_spec : FrameSourceSpec Rv64Virt (Machine * Pmm.Pmm) := {|
  fs_room := fun count n '(_, a) => exists p a', Pmm.alloc a count = Val (p, a') /\ supplies (n * 3) a';
|}.
Next Obligation. intros [m a] count n Hwf (p & a' & E & Hsup). simpl in *. by rewrite E. Qed.
Next Obligation.
  intros [m a] count p [m' a'] Hwf Hc E. simpl in *. outcome_inv. destruct a0 as [p0 a0]. outcome_inv. simplify_eq.
  pose proof (pt_alloc _ _ _ _ _ _ _ Hwf) as [Ht Hw].
  destruct (pmm_alloc_spec a count p a' Hw Hc Ha) as (Hw' & Ht' & Hd & Hp0 & Hfree & Hsub).
  assert (forall x, within p (count * 4096) x -> within p (Z.max 1 count * 4096) x) as Hin
    by (unfold within; lia).
  split_and!; [|done|done|done| |auto|done|done].
  - eapply pt_wf_alloc; [exact Hwf| |exact Hsub]. split; [congruence|done].
  - destruct (Hfree (p + Z.max 1 count * 4096 - 1)) as [Hlast _]; [unfold within; lia|].
    pose proof (pt_alloc_lim _ _ _ _ _ _ _ Hwf _ Hlast). lia.
Qed.

Lemma sv48_small : SmallPageSpec Rv64Virt (Machine * Pmm.Pmm).
Proof.
  intros [m a] page frame flags Hwf Hdp Hdf Hc Hf0 Hf1 Hun. simpl in *.
  pose proof (riscv_format_spec Rv64Virt ltac:(done)). destruct sv48_limits as [Hl1 Hl2].
  eapply returns_unless_weaken.
  { apply (map_by_slot_spec (A := Pmm.Pmm) (EF := riscv_format Rv64Virt) Rv64Virt (physical_base self) lim 4 ltac:(done) eq_refl
      (dm_canonical _ _ _ Hdm) Hl1 ltac:(lia) (root self) _ (sv48_map_by_slot self lim Hdm) Size4KiB m a page frame flags);
      auto. apply Hc. unfold within. lia. }
  { done. }
  intros [[[]|e] [m' a']] (Hwf' & _ & Hr); [done|]. exfalso. destruct Hr as [Hsame Hbl].
  destruct (blocked_mapped (A := Pmm.Pmm) (EF := riscv_format Rv64Virt) Rv64Virt (physical_base self) lim 4 ltac:(done) eq_refl
    ltac:(lia) m m' a' (root self) (page_start page)) with (v := page_start page) as [pa Hpa]; auto.
  - intros e' He'. by apply riscv_in_use.
  - apply Hc. unfold within. lia.
  - apply Hc. unfold within. lia.
  - unfold within. simpl. lia.
  - congruence.
Qed.

End sv48.

(** ** Sixteen frames and empty page tables *)

Module MemoryExample.
Import RiscvCorrect.Example.

#[local] Existing Instance reference_bit_field.
#[local] Existing Instance reference_bit_flags.
#[local] Existing Instance reference_bit_field_spec.
#[local] Existing Instance reference_bit_flags_spec.

#[local] Instance pages : PageTable (Machine * Pmm.Pmm) := sv48_pages sv48_table.
#[local] Instance pages_spec : PageTableSpec Rv64Virt (Machine * Pmm.Pmm) :=
  sv48_spec sv48_table limit sv48_direct_map.
#[local] Instance pages_small : SmallPageSpec Rv64Virt (Machine * Pmm.Pmm) :=
  sv48_small sv48_table limit sv48_direct_map.
#[local] Instance pages_memory : TableMemorySpec Rv64Virt (Machine * Pmm.Pmm) :=
  sv48_memory sv48_table limit sv48_direct_map.
#[local] Instance frames : FrameSource (Machine * Pmm.Pmm) := pmm_source.
#[local] Instance frames_spec : FrameSourceSpec Rv64Virt (Machine * Pmm.Pmm) :=
  sv48_source_spec sv48_table limit sv48_direct_map.

Definition state : Machine * Pmm.Pmm := (start Rv64Virt sv48_table, alloc Rv64Virt).

Lemma state_inv : pts_inv state.
Proof. exact sv48_start_wf. Qed.

Lemma state_unmapped v : pts_tr state v = None.
Proof.
  assert (PageTableImpl_new (H := riscv_format Rv64Virt) Rv64Virt memory (frame sv48_table) (physical_base sv48_table) ⇓
    fun '(_, m) => riscv_tr Rv64Virt 4 sv48_table m v = None) as Hn.
  { eapply returns_weaken.
    - apply (riscv_new Rv64Virt 4 (A := Pmm.Pmm) ltac:(done) sv48_table limit memory (alloc Rv64Virt) sv48_direct_map).
      + intros ??. by vm_compute.
      + apply alloc_inv.
      + intros x Hx%(alloc_owns Rv64Virt). unfold limit. lia.
      + by exists 8.
      + done.
      + intros x Hx Ho%(alloc_owns Rv64Virt). simpl in Hx. lia.
    - intros [t m] (_ & _ & Hv). apply Hv. }
  simpl. unfold start. by destruct (PageTableImpl_new _ _ _ _) as [[t m]|].
Qed.

Lemma limit_small : pts_limit < paddr_limit Rv64Virt.
Proof. done. Qed.

(** Three pages in two pieces of physical memory. *)
Definition object : MemoryObject :=
  mkMemoryObject 0x3000 Flags_default [(0x30000, 0x2000); (0x40000, 0x1000)].


(** The second slot. *)
Lemma alloc_task_slot_correct_witness :
  alloc_task_slot Rv64Virt (mkAddressSpace ∅ 1) state 0x2000 ⇓ fun '(r, (self', st')) =>
    pts_inv st' /\ slots_ok Rv64Virt self' st'.
Proof.
  eapply returns_weaken.
  { apply (alloc_task_slot_correct Rv64Virt limit_small (mkAddressSpace ∅ 1) state 0x2000 state_inv).
    - split; [done|]. intros. apply state_unmapped.
    - by unfold USER_STACK_SLOT_SIZE.
    - by exists 2.
    - eexists _, _. split; [vm_compute; reflexivity|by vm_compute]. }
  intros [r [self' st']] (? & ? & _). by split.
Defined.

End MemoryExample.
