(* ===== verification/X86Paging.v ===== *)
(** * [lib/hal_x86_64/src/paging.rs]: four-level page tables for x86_64

    The entry format, the discharge of [PageTable.EntryFormatSpec] for it, the
    implementation of the [PageTable] trait and its correctness in terms of
    [x86_tr], the translation the processor makes. *)

From stdpp Require Import base tactics option list numbers gmap.
From S2P Require Import Prelude Mulch Memory FrameAllocator Buddy Pmm Crates PageTable Mapper Translation.

Module X86.

(** ** [EntryFlags] *)

Definition PRESENT : Z := 1 ≪ 0.
Definition WRITABLE : Z := 1 ≪ 1.
Definition USER_ACCESSIBLE : Z := 1 ≪ 2.
Definition WRITE_THROUGH : Z := 1 ≪ 3.
Definition NO_CACHE : Z := 1 ≪ 4.
Definition ACCESSED : Z := 1 ≪ 5.
Definition DIRTY : Z := 1 ≪ 6.
Definition HUGE_PAGE : Z := 1 ≪ 7.
Definition GLOBAL : Z := 1 ≪ 8.
Definition NO_EXECUTE : Z := 1 ≪ 63.
Definition NON_TERMINAL_FLAGS : Z := Z.lor (Z.lor PRESENT WRITABLE) USER_ACCESSIBLE.

(** [EntryFlags::all()] and [EntryFlags::empty()]. *)
Definition all_flags : Z := Z.lor NO_EXECUTE (Z.ones 9).
Definition no_flags : Z := 0.

Section entry.
Context `{BitFlags}.

Definition flags_from (flags : Flags) : Z :=
  flags_union
    (flags_union
      (flags_union
        (flags_union PRESENT (if writable flags then WRITABLE else no_flags))
        (if executable flags then no_flags else NO_EXECUTE))
      (if user_accessible flags then USER_ACCESSIBLE else no_flags))
    (if cached flags then no_flags else NO_CACHE).

(** ** [Entry] *)

Definition unused : Z := 0.
Definition is_unused (self : Z) : bool := self =? 0.
Definition entry_flags (self : Z) : Z := from_bits_truncate all_flags self.
Definition is_present (self : Z) : bool := flags_contain (entry_flags self) PRESENT.

Definition ADDRESS_MASK : Z := 0x000ffffffffff000.

Definition address (tgt : target) (self : Z) : outcome (option Z) :=
  if is_present self then
    a ← unwrap (PAddr.new tgt (Z.land self ADDRESS_MASK));
    mret (Some a)
  else mret None.

Definition set (entry : option (Z * Z)) : Z :=
  match entry with
  | Some (address, flags) => Z.lor address (flags_union flags PRESENT)
  | None => 0
  end.

(** A terminal entry above the P1 level carries [HUGE_PAGE]. *)
Definition frame_flags (s : FrameSize) (flags : Flags) : Z :=
  match s with
  | Size4KiB => flags_from flags
  | Size2MiB | Size1GiB => flags_union (flags_from flags) HUGE_PAGE
  end.

Definition format (tgt : target) : EntryFormat := {|
  entry_address := address tgt;
  entry_is_leaf := fun e => flags_contain (entry_flags e) HUGE_PAGE;
  entry_in_use := fun e => negb (is_unused e);
  entry_empty := set None;
  entry_for_table := fun pa => set (Some (pa, NON_TERMINAL_FLAGS));
  entry_for_frame := fun s pa flags => set (Some (pa, frame_flags s flags));
|}.

End entry.

(** ** [VAddrIndices] *)

Section indices.
Context `{BitField}.

Definition p4_index (v : Z) : outcome Z := get_bits 64 v 39 48.
Definition p3_index (v : Z) : outcome Z := get_bits 64 v 30 39.
Definition p2_index (v : Z) : outcome Z := get_bits 64 v 21 30.
Definition p1_index (v : Z) : outcome Z := get_bits 64 v 12 21.

Definition from_indices (tgt : target) (p4 p3 p2 p1 : Z) : outcome Z :=
  address ← set_bits 64 0 12 21 p1;
  address ← set_bits 64 address 21 30 p2;
  address ← set_bits 64 address 30 39 p3;
  address ← set_bits 64 address 39 48 p4;
  mret (VAddr.new tgt address).

End indices.

(** ** [PageTableImpl] *)

Record PageTableImpl := mkPageTableImpl { p4_frame : Frame Size4KiB; physical_base : Z }.

(** The address [p4] and [p4_mut] make a reference of. *)
Definition p4 (tgt : target) (self : PageTableImpl) : outcome Z :=
  VAddr.add tgt (physical_base self) (frame_start (p4_frame self)).

Section code.
Context `{BitField} `{BitFlags} (tgt : target).

Definition new (m : Machine) (p4_frame : Frame Size4KiB) (physical_base : Z) :
    outcome (PageTableImpl * Machine) :=
  let table := mkPageTableImpl p4_frame physical_base in
  t ← p4 tgt table;
  mret (table, zero (H := format tgt) m t).

Definition from_frame (p4_frame : Frame Size4KiB) (physical_base : Z) : PageTableImpl :=
  mkPageTableImpl p4_frame physical_base.

Context {A : Type} `{FrameAllocator A} (self : PageTableImpl).

Definition translate (m : Machine) (address : Z) : outcome (option Z) :=
  t ← p4 tgt self;
  i4 ← p4_index address;
  i3 ← p3_index address;
  i2 ← p2_index address;
  i1 ← p1_index address;
  translate_path (H := format tgt) tgt (physical_base self) m t [i4; i3] i2 i1 address.

Definition map (s : FrameSize) (ma : Machine * A) (page : Page s) (frame : Frame s)
    (flags : Flags) : outcome (result unit PagingError * (Machine * A)) :=
  t ← p4 tgt self;
  i4 ← p4_index (page_start page);
  i3 ← p3_index (page_start page);
  i2 ← p2_index (page_start page);
  i1 ← p1_index (page_start page);
  '(r, (m, a)) ←
    (if SIZE s =? SIZE Size4KiB then
       map_path (H := format tgt) tgt (physical_base self) ma t [i4; i3; i2] i1
         (set (Some (frame_start frame, flags_from flags)))
     else if SIZE s =? SIZE Size2MiB then
       map_path (H := format tgt) tgt (physical_base self) ma t [i4; i3] i2
         (set (Some (frame_start frame, flags_union (flags_from flags) HUGE_PAGE)))
     else
       rassert (SIZE s =? SIZE Size1GiB) ;;
       map_path (H := format tgt) tgt (physical_base self) ma t [i4] i3
         (set (Some (frame_start frame, flags_union (flags_from flags) HUGE_PAGE))));
  match r with
  | Err e => mret (Err e, (m, a))
  | Ok _ => mret (Ok tt, (flush_page m (page_start page), a))
  end.

Definition page_table : PageTable (Machine * A) := {| pt_map := map |}.

Definition map_area (ma : Machine * A) (virtual_start physical_start size : Z) (flags : Flags) :
    outcome (result unit PagingError * (Machine * A)) :=
  Mapper.map_area (H := page_table) tgt ma virtual_start physical_start size flags.

Definition unmap (s : FrameSize) (m : Machine) (page : Page s) :
    outcome (option (Frame Size4KiB) * Machine) :=
  match s with
  | Size4KiB =>
      t ← p4 tgt self;
      i4 ← p4_index (page_start page);
      i3 ← p3_index (page_start page);
      i2 ← p2_index (page_start page);
      i1 ← p1_index (page_start page);
      unmap_path (H := format tgt) tgt (physical_base self) m t [i4; i3; i2] i1 (page_start page)
  | Size2MiB | Size1GiB => Panic
  end.

End code.
End X86.

Import X86.

(** ** The entry format meets its laws *)

Section entry_lemmas.
Context `{BFg : BitFlags} `{!BitFlagsSpec}.

Lemma land_address_mask x :
  0 <= x -> Z.land x ADDRESS_MASK = (x / 4096) mod 2 ^ 40 * 4096.
Proof.
  intros Hx. change ADDRESS_MASK with (Z.ones 40 ≪ 12).
  apply Z.bits_inj'. intros n Hn. rewrite Z.land_spec, Z.shiftl_spec by done.
  change 4096 with (2 ^ 12). destruct (decide (n < 12)).
  - rewrite (Z.testbit_neg_r (Z.ones 40)), andb_false_r, Z.mul_pow2_bits_low by lia. done.
  - rewrite Z.mul_pow2_bits by lia. destruct (decide (n - 12 < 40)).
    + rewrite Z.ones_spec_low, andb_true_r, Z.mod_pow2_bits_low, Z.div_pow2_bits by lia.
      f_equal. lia.
    + rewrite Z.ones_spec_high, andb_false_r, Z.mod_pow2_bits_high by lia. done.
Qed.

Lemma is_present_odd e : is_present e = (e mod 2 =? 1).
Proof.
  unfold is_present, entry_flags. rewrite contains_eq, from_bits_truncate_eq.
  rewrite <- Z.land_assoc. change (Z.land all_flags PRESENT) with 1. by rewrite land_1.
Qed.

Lemma x86_address_eq tgt e :
  is_unsigned 64 e ->
  address tgt e = Val (if e mod 2 =? 1 then Some ((e / 4096) mod 2 ^ 40 * 4096) else None).
Proof.
  intros [He _]. unfold address. rewrite is_present_odd. destruct (e mod 2 =? 1); [|done].
  rewrite land_address_mask by done.
  pose proof (Z.mod_pos_bound (e / 4096) (2 ^ 40) ltac:(lia)).
  rewrite paddr_new_valid; [done|]. split; [lia|]. destruct tgt; simpl; lia.
Qed.

(** The flag words the code combines with an address: low bits and bit 63. *)
Definition flag_word (f : Z) : Prop := exists h l, f = h * 2 ^ 63 + l /\ 0 <= h <= 1 /\ 0 <= l < 4096 /\ l mod 2 = 1.

Lemma frame_flags_word s fl : exists f, flags_union (frame_flags s fl) PRESENT = f /\ flag_word f.
Proof.
  eexists. split; [done|]. unfold flag_word.
  destruct s, fl as [w x u c]; unfold frame_flags, flags_from; simpl; rewrite !union_eq;
    (exists (if x then 0 else 1)); eexists (_ - _);
    (split; [symmetry; apply Zplus_minus|]);
    destruct w, x, u, c; vm_compute; repeat split; congruence.
Qed.

(** An aligned address and a flag word share no bits. *)
Lemma lor_flags pa f :
  (4096 | pa) -> 0 <= pa < 2 ^ 52 -> flag_word f ->
  Z.lor pa f = pa + f /\ is_unsigned 64 (pa + f).
Proof.
  intros [q ->] Hpa (h & l & -> & Hh & Hl & _).
  assert (Z.land (q * 4096) (h * 2 ^ 63 + l) = 0) as Hland.
  { apply Z.bits_inj'. intros n Hn. rewrite Z.land_spec, Z.bits_0. change 4096 with (2 ^ 12).
    rewrite <- (lor_shifted h 63 l) by lia. rewrite Z.lor_spec.
    destruct (decide (n < 12)); [by rewrite Z.mul_pow2_bits_low by lia|].
    destruct (decide (n < 63)).
    - rewrite (Z.mul_pow2_bits_low h 63) by lia. rewrite (testbit_out 12 l) by (unfold is_unsigned; lia).
      by rewrite andb_false_r.
    - rewrite (testbit_out 52 (q * 2 ^ 12)) by (unfold is_unsigned; lia). done. }
  split; [|unfold is_unsigned; lia]. rewrite <- Z.lxor_lor, <- Z.add_nocarry_lxor by done. done.
Qed.

Lemma x86_set_address tgt pa f :
  (4096 | pa) -> 0 <= pa < 2 ^ 52 -> flag_word f ->
  address tgt (Z.lor pa f) = Val (Some pa) /\ is_unsigned 64 (Z.lor pa f).
Proof.
  intros Hd Hpa Hf. destruct (lor_flags pa f Hd Hpa Hf) as [-> Hu]. split; [|done].
  rewrite x86_address_eq by done. destruct Hd as [q ->], Hf as (h & l & -> & Hh & Hl & Hodd).
  replace (q * 4096 + (h * 2 ^ 63 + l)) with (l + (q * 2048 + h * 2 ^ 62) * 2) at 1 by lia.
  rewrite Z.mod_add, Hodd by lia. change (1 =? 1) with true. cbv iota. do 2 f_equal.
  replace (q * 4096 + (h * 2 ^ 63 + l)) with ((q + h * 2 ^ 51) * 4096 + l) by lia.
  rewrite Z.div_add_l, (Z.div_small l), Z.add_0_r by lia.
  replace (h * 2 ^ 51) with (h * 2 ^ 11 * 2 ^ 40) by lia. rewrite Z.mod_add, Z.mod_small by lia. done.
Qed.

Lemma x86_format_spec tgt : @EntryFormatSpec (format tgt) (2 ^ 52).
Proof.
  split; cbn [format entry_address entry_is_leaf entry_in_use entry_empty entry_for_table entry_for_frame].
  - intros e He. rewrite x86_address_eq by done. eauto.
  - intros e pa He. rewrite x86_address_eq by done. destruct (e mod 2 =? 1); [|done].
    intros [= <-]. split; [by apply Z.divide_factor_r|].
    pose proof (Z.mod_pos_bound (e / 4096) (2 ^ 40)). lia.
  - rewrite x86_address_eq by done. by vm_compute.
  - intros e He Hu. unfold is_unused in Hu. rewrite x86_address_eq by done.
    destruct (Z.eqb_spec e 0) as [->|]; done.
  - intros pa Hpa Hd. unfold set. rewrite union_eq.
    change (Z.lor NON_TERMINAL_FLAGS PRESENT) with 7.
    assert (flag_word 7) as Hf by (exists 0, 7; done).
    destruct (x86_set_address tgt pa 7 Hd Hpa Hf) as [-> ?]. split_and!; try done.
    unfold entry_flags. rewrite contains_eq, from_bits_truncate_eq, <- Z.land_assoc.
    change (Z.land all_flags HUGE_PAGE) with 128. rewrite Z.land_lor_distr_l.
    apply Z.eqb_neq. intros E. apply (f_equal (fun z => Z.testbit z 7)) in E. revert E.
    rewrite Z.lor_spec, Z.land_spec. destruct Hd as [q ->]. change 4096 with (2 ^ 12).
    by rewrite Z.mul_pow2_bits_low by lia.
  - intros s pa fl Hpa Hd. unfold set. destruct (frame_flags_word s fl) as (f & Ef & Hf).
    rewrite Ef. destruct (x86_set_address tgt pa f Hd Hpa Hf) as [-> ?]. split_and!; try done.
    intros Hs. unfold entry_flags. rewrite contains_eq, from_bits_truncate_eq, <- Z.land_assoc.
    change (Z.land all_flags HUGE_PAGE) with 128. rewrite Z.land_lor_distr_l.
    assert (Z.land f 128 = 128) as ->.
    { subst f. unfold frame_flags, flags_from. destruct s, fl as [[] [] [] []]; try done;
        rewrite !union_eq; by vm_compute. }
    assert (Z.land pa 128 = 0) as ->; [|done].
    apply Z.bits_inj'. intros n Hn. rewrite Z.land_spec, Z.bits_0. change 128 with (2 ^ 7).
    rewrite Z.pow2_bits_eqb by lia. destruct Hd as [q ->]. change 4096 with (2 ^ 12).
    destruct (Z.eqb_spec 7 n) as [<-|]; [by rewrite Z.mul_pow2_bits_low by lia|by rewrite andb_false_r].
Qed.

End entry_lemmas.

(** ** Correctness *)

(** Physical memory below [lim] is visible at [physical_base], and holds the P4. *)
Record x86_direct_map (self : PageTableImpl) (lim : Z) : Prop := {
  xdm_canonical : forall pa, 0 <= pa < lim -> vaddr_canonical X86_64 (physical_base self + pa);
  xdm_limit : 0 <= lim <= 2 ^ 52;
  xdm_root : 0 <= frame_start (p4_frame self) < lim;
}.

Definition x86_root (self : PageTableImpl) : Z := physical_base self + frame_start (p4_frame self).

Section state.
Context `{BFg : BitFlags} {A : Type} `{FA : FrameAllocator A} `{!FrameAllocatorSpec X86_64 A}.

Definition x86_wf (self : PageTableImpl) (lim : Z) (m : Machine) (a : A) : Prop :=
  pt_wf (EF := format X86_64) X86_64 (physical_base self) lim 4 m a (x86_root self).

Definition x86_tr (self : PageTableImpl) (m : Machine) (v : Z) : option Z :=
  translation (EF := format X86_64) (physical_base self) 4 m (x86_root self) v.

Definition x86_leaf (self : PageTableImpl) (m : Machine) (v : Z) : option (Z * nat) :=
  leaf_of (H := format X86_64) (physical_base self) m (x86_root self) (indices 4 v).

Definition x86_maps (self : PageTableImpl) (m m' : Machine) (page frame size : Z) : Prop :=
  forall v, vaddr_canonical X86_64 v ->
    (within page size v ->
       x86_tr self m v = None /\ x86_tr self m' v = Some (frame + (v - page))) /\
    (~ within page size v -> x86_tr self m' v = x86_tr self m v).

End state.

Section claims.
Context `{BFl : BitField} `{!BitFieldSpec} `{BFg : BitFlags} `{!BitFlagsSpec}.
Context {A : Type} `{FA : FrameAllocator A} `{!FrameAllocatorSpec X86_64 A}.

Lemma x86_p4_in self lim : x86_direct_map self lim -> p4 X86_64 self = Val (x86_root self).
Proof. intros [Hc _ Hr]. apply vaddr_add_in. by apply Hc. Qed.

Lemma x86_indices v :
  is_usize v ->
  p4_index v = Val ((v / 2 ^ level_shift 3) mod 512) /\
  p3_index v = Val ((v / 2 ^ level_shift 2) mod 512) /\
  p2_index v = Val ((v / 2 ^ level_shift 1) mod 512) /\
  p1_index v = Val ((v / 2 ^ level_shift 0) mod 512).
Proof.
  intros Hv. unfold p4_index, p3_index, p2_index, p1_index. by rewrite !get_bits_in.
Qed.

Lemma x86_map_by_slot self lim :
  x86_direct_map self lim ->
  map_by_slot (EF := format X86_64) X86_64 (physical_base self) 4 (x86_root self)
    (X86.map X86_64 (A := A) self).
Proof.
  intros Hdm s ma page frame flags Hu. unfold X86.map.
  destruct (x86_indices (page_start page) Hu) as (-> & -> & -> & ->).
  rewrite (x86_p4_in _ lim) by done. obind.
  destruct s; [eexists [_; _; _], _|eexists [_; _], _|eexists [_], _]; (split; [done|]);
    cbn -[map_path]; by destruct (map_path _ _ _ _ _ _ _) as [[[] []]|].
Qed.

Lemma x86_new_spec self lim m (a : A) :
  x86_direct_map self lim -> words_ok m -> fa_inv a -> (forall x, fa_owns a x -> x < lim) ->
  (4096 | frame_start (p4_frame self)) -> frame_start (p4_frame self) + 4096 <= lim ->
  (forall x, frame_start (p4_frame self) <= x < frame_start (p4_frame self) + 4096 -> ~ fa_owns a x) ->
  X86.new X86_64 m (p4_frame self) (physical_base self) ⇓ fun '(table, m') =>
    table = self /\ x86_wf self lim m' a /\ forall v, x86_tr self m' v = None.
Proof.
  intros Hdm Hm Ha Hal Hd Hend Hown. unfold X86.new.
  replace (mkPageTableImpl (p4_frame self) (physical_base self)) with self by (by destruct self).
  rewrite (x86_p4_in _ lim) by done. obind. split; [done|].
  pose proof (x86_format_spec X86_64).
  destruct (new_tables_wf (EF := format X86_64) X86_64 (physical_base self) lim 4 m a (x86_root self))
    as [Hwf Hno]; auto.
  - exists (frame_start (p4_frame self)). split; [done|]. destruct (xdm_root _ _ Hdm). auto.
  - split; [done|]. intros v. unfold x86_tr, translation. rewrite Hno; [done|apply indices_ok].
Qed.

Lemma x86_map_spec self lim s m (a : A) (page : Page s) (frame : Frame s) flags :
  x86_direct_map self lim -> x86_wf self lim m a ->
  (SIZE s | page_start page) -> (SIZE s | frame_start frame) ->
  vaddr_canonical X86_64 (page_start page) ->
  0 <= frame_start frame -> frame_start frame + SIZE s <= lim -> supplies 3 a ->
  X86.map X86_64 self s (m, a) page frame flags ⇓ fun '(r, (m', a')) =>
    x86_wf self lim m' a' /\ spends 3 a a' /\
    match r with
    | Ok _ => x86_maps self m m' (page_start page) (frame_start frame) (SIZE s) /\
        head (flushed m') = Some (page_start page)
    | Err _ => forall v, x86_tr self m' v = x86_tr self m v
    end.
Proof.
  intros Hdm Hwf Hdp Hdf Hcan Hf0 Hf1 Hsup.
  pose proof (x86_format_spec X86_64). destruct (xdm_limit _ _ Hdm) as [Hl0 Hl1].
  eapply returns_unless_returns; [|exact Hsup]. eapply returns_unless_weaken.
  { eapply (map_by_slot_spec (EF := format X86_64) X86_64 (physical_base self) lim 4
      ltac:(done) eq_refl (xdm_canonical _ _ Hdm) Hl1 ltac:(lia) (x86_root self));
      eauto using x86_map_by_slot. }
  { done. }
  intros [r [m' a']] (Hwf' & Hsp & Hr). split; [done|]. split; [done|]. destruct r as [u|e].
  - destruct Hr as [Hr [m0 ->]]. done.
  - destruct Hr as [Hsame _]. intros v. by apply same_leaves_translation.
Qed.

(** On x86_64 [map] of a page of any size, given an allocator with three
    frames left, returns.  On [Ok] the page was unmapped and now translates to
    the frame, no other translation changes and the page was invalidated last;
    on [Err] no translation changes.  The tables stay well formed. *)
Lemma x86_map_correct self lim s m (a : A) (page : Page s) (frame : Frame s) flags :
  x86_direct_map self lim -> x86_wf self lim m a ->
  (SIZE s | page_start page) -> (SIZE s | frame_start frame) ->
  vaddr_canonical X86_64 (page_start page) ->
  0 <= frame_start frame -> frame_start frame + SIZE s <= lim -> supplies 3 a ->
  X86.map X86_64 self s (m, a) page frame flags ⇓ fun '(r, (m', a')) =>
    x86_wf self lim m' a' /\ spends 3 a a' /\
    match r with
    | Ok _ => x86_maps self m m' (page_start page) (frame_start frame) (SIZE s) /\
        head (flushed m') = Some (page_start page)
    | Err _ => forall v, x86_tr self m' v = x86_tr self m v
    end.
Proof. apply x86_map_spec. Qed.

(** On x86_64 [unmap] of a 4KiB page that a P1 entry maps returns the frame
    it was mapped to, removes that page's translation and no other, and
    invalidates it. *)
Lemma x86_unmap_correct self lim m (a : A) (page : Page Size4KiB) e :
  x86_direct_map self lim -> x86_wf self lim m a ->
  (SIZE Size4KiB | page_start page) -> vaddr_canonical X86_64 (page_start page) ->
  x86_leaf self m (page_start page) = Some (e, O) ->
  X86.unmap X86_64 self Size4KiB m page ⇓ fun '(r, m') =>
    x86_wf self lim m' a /\
    (exists f, r = Some f /\ x86_tr self m (page_start page) = Some (frame_start f)) /\
    flushed m' = page_start page :: flushed m /\
    forall v, vaddr_canonical X86_64 v ->
      (within (page_start page) (SIZE Size4KiB) v -> x86_tr self m' v = None) /\
      (~ within (page_start page) (SIZE Size4KiB) v -> x86_tr self m' v = x86_tr self m v).
Proof.
  intros Hdm Hwf Hd Hcan Hleaf. pose proof (vaddr_canonical_usize _ _ Hcan) as Hu.
  pose proof (x86_format_spec X86_64). unfold X86.unmap.
  destruct (x86_indices (page_start page) Hu) as (-> & -> & -> & ->).
  rewrite (x86_p4_in _ lim) by done. obind.
  eapply (unmap_translation (EF := format X86_64) X86_64 (physical_base self) lim 4);
    try done; [apply Hdm|lia].
Qed.

(** On x86_64 [translate] computes the processor's translation of every
    canonical address that no leaf above the P2 level maps, provided that a 2MiB
    leaf ends inside the physical address space. *)
Lemma x86_translate_correct self lim m (a : A) v :
  x86_direct_map self lim -> x86_wf self lim m a -> vaddr_canonical X86_64 v ->
  (forall e n, x86_leaf self m v = Some (e, n) -> n <= 1)%nat ->
  (forall e pa, x86_leaf self m v = Some (e, 1%nat) -> address X86_64 e = Val (Some pa) ->
     pa + SIZE Size2MiB <= 2 ^ 52) ->
  X86.translate X86_64 self m v = Val (x86_tr self m v).
Proof.
  intros Hdm Hwf Hcan Hdeep Hend. pose proof (vaddr_canonical_usize _ _ Hcan) as Hu.
  pose proof (x86_format_spec X86_64) as Hspec. unfold X86.translate.
  destruct (x86_indices v Hu) as (-> & -> & -> & ->). rewrite (x86_p4_in _ lim) by done. obind.
  eapply (translate_translation (EF := format X86_64) X86_64 (physical_base self) lim 4);
    try done; [apply Hdm|lia|].
  intros e n pa Hl Hpa. pose proof (Hdeep e n Hl) as Hn. destruct n as [|[|n]]; [| |lia].
  - destruct (leaf_of_entry (H := format X86_64) _ _ _ _ _ _ Hl) as (T & i & pa' & -> & _).
    destruct (ef_addr (EntryFormatSpec := Hspec) _ pa (pt_words _ _ _ _ _ _ _ Hwf T i) Hpa)
      as [[q ->] Hb].
    change (2 ^ level_shift 0) with 4096. simpl. lia.
  - by apply (Hend e).
Qed.


End claims.

(** ** A concrete system: a P4 in the frame at [0x8000], the direct map in the
    upper half, the sixteen frames from [0x10000] free *)

Module X86Example.

#[local] Existing Instance reference_bit_field.
#[local] Existing Instance reference_bit_flags.
#[local] Existing Instance reference_bit_field_spec.
#[local] Existing Instance reference_bit_flags_spec.

Definition alloc : Pmm.Pmm := Pmm.mkPmm X86_64 sample.
Definition memory : Machine := mkMachine ∅ [].
Definition table : PageTableImpl := mkPageTableImpl (mkFrame 0x8000) (2 ^ 64 - 2 ^ 47).
Definition limit : Z := 2 ^ 32.

Definition start : Machine :=
  match X86.new X86_64 memory (p4_frame table) (physical_base table) with
  | Val (_, m) => m
  | Panic => memory
  end.

Lemma table_direct_map : x86_direct_map table limit.
Proof. unfold limit. split; simpl; try lia. Qed.

Lemma x86_start_wf : x86_wf table limit start alloc.
Proof.
  assert (X86.new X86_64 memory (p4_frame table) (physical_base table) ⇓ fun '(t, m') =>
    t = table /\ x86_wf table limit m' alloc /\ forall v, x86_tr table m' v = None) as H.
  { apply x86_new_spec; [apply table_direct_map|intros ??; by vm_compute| | |by exists 8|done|].
    - split; [done|]. apply sample_wf.
    - intros x Hx%sample_free. unfold limit. lia.
    - intros x Hx Ho%sample_free. simpl in Hx. lia. }
  unfold start. destruct (X86.new _ _ _ _) as [[t m]|]; [apply H|destruct H].
Qed.

Lemma x86_supplies_16 : supplies 16 alloc.
Proof. vm_compute. done. Qed.

(** The state after mapping the page at [page] to the frame at [frame]. *)
Definition mapped (s : FrameSize) (page frame : Z) : Machine * Pmm.Pmm :=
  match X86.map X86_64 (A := Pmm.Pmm) table s (start, alloc) (mkPage page) (mkFrame frame) Flags_default with
  | Val (_, ma) => ma
  | Panic => (memory, alloc)
  end.

Lemma x86_mapped_wf s page frame :
  (SIZE s | page) -> (SIZE s | frame) -> vaddr_canonical X86_64 page ->
  0 <= frame -> frame + SIZE s <= limit ->
  x86_wf table limit (mapped s page frame).1 (mapped s page frame).2.
Proof.
  intros Hp Hf Hc H0 H1.
  pose proof (x86_map_spec (A := Pmm.Pmm) table limit s start alloc (mkPage page) (mkFrame frame)
    Flags_default table_direct_map x86_start_wf Hp Hf Hc H0 H1) as H.
  unfold mapped. destruct (X86.map _ _ _ _ _ _ _) as [[r [m a]]|].
  - apply H. by apply (supplies_le 16); [lia|apply x86_supplies_16].
  - destruct H. by apply (supplies_le 16); [lia|apply x86_supplies_16].
Qed.


End X86Example.
