(* ===== verification/Effects.v ===== *)
(** * State and errors together: the monad of a Rust function on [&mut self]
    that returns a [Result]

    [M S E A] threads a state [S], may return [Err] of type [E] (the state
    keeps the changes made before, as [?] leaves it) and may panic.  Its bind is
    the [?] operator. *)

From stdpp Require Import base tactics option list numbers.
From S2P Require Import Prelude.

Definition M (S E A : Type) : Type := S -> outcome (result A E * S).

#[global] Instance M_ret S E : MRet (M S E) := fun A a s => Val (Ok a, s).
#[global] Instance M_bind S E : MBind (M S E) := fun A B f m s =>
  match m s with
  | Val (Ok a, s') => f a s'
  | Val (Err e, s') => Val (Err e, s')
  | Panic => Panic
  end.

Section operations.
Context {S E : Type}.

Definition fail {A} (e : E) : M S E A := fun s => Val (Err e, s).
Definition panic {A} : M S E A := fun _ => Panic.
Definition get : M S E S := fun s => Val (Ok s, s).
Definition put (s : S) : M S E unit := fun _ => Val (Ok tt, s).
Definition gets {A} (f : S -> A) : M S E A := fun s => Val (Ok (f s), s).
Definition modify (f : S -> S) : M S E unit := fun s => Val (Ok tt, f s).
(** A computation that may panic but does not touch the state. *)
Definition lift {A} (o : outcome A) : M S E A := fun s =>
  match o with Val a => Val (Ok a, s) | Panic => Panic end.
(** [Option::ok_or(e)?]. *)
Definition ok_or {A} (o : option A) (e : E) : M S E A :=
  match o with Some a => mret a | None => fail e end.

Lemma M_bind_eq {A B} (m : M S E A) (f : A -> M S E B) s :
  (m ≫= f) s =
    match m s with
    | Val (Ok a, s') => f a s'
    | Val (Err e, s') => Val (Err e, s')
    | Panic => Panic
    end.
Proof. done. Qed.

Lemma M_bind_Ok {A B} (m : M S E A) (f : A -> M S E B) s a s' :
  m s = Val (Ok a, s') -> (m ≫= f) s = f a s'.
Proof. rewrite M_bind_eq. by intros ->. Qed.

Lemma M_bind_Err {A B} (m : M S E A) (f : A -> M S E B) s e s' :
  m s = Val (Err e, s') -> (m ≫= f) s = Val (Err e, s').
Proof. rewrite M_bind_eq. by intros ->. Qed.

(** The rule of the monad for total correctness. *)
Lemma M_returns_bind {A B} (m : M S E A) (f : A -> M S E B) s P Q :
  m s ⇓ P ->
  (forall a s', P (Ok a, s') -> f a s' ⇓ Q) ->
  (forall e s', P (Err e, s') -> Q (Err e, s')) ->
  (m ≫= f) s ⇓ Q.
Proof.
  rewrite M_bind_eq. intros Hm Hok Herr.
  destruct (m s) as [[[a|e] s']|]; simpl in *; auto.
Qed.

End operations.

(** Run a computation whose errors the handler turns into others. *)
Definition handle_err {S E1 E2 A} (m : M S E1 A) (handler : E1 -> M S E2 A) : M S E2 A := fun s =>
  match m s with
  | Val (Ok a, s') => Val (Ok a, s')
  | Val (Err e, s') => handler e s'
  | Panic => Panic
  end.
