(* ===== verification/Kernel.v ===== *)
(** * [kernel/src/object], [kernel/src/syscall]: kernel objects and channels

    The objects the kernel shares between tasks, the handle table of a task, the
    ends of a channel, and the system calls on channels.  An [Arc<dyn
    KernelObject>] is the object's id, the objects live in one store, and an
    object leaves the store when nothing refers to it any more ([collect]), which
    is when a [Weak] to it no longer upgrades.  A task's user memory is a map from
    the addresses mapped in its address space to bytes: the kernel dereferences the
    pointers it is passed as they are, and at any other address it faults, which
    is a panic.  Spinlocks make each operation atomic, so a system call is
    one step. *)

From stdpp Require Import base tactics option list numbers gmap.
From S2P Require Import Prelude Bytes Crates Effects.

(** ** Objects *)

Inductive KernelObjectType := TAddressSpace | TTask | TMemoryObject | TChannel | TEvent | TInterrupt.

#[global] Instance KernelObjectType_eq_dec : EqDecision KernelObjectType.
Proof. solve_decision. Defined.

Definition CHANNEL_MAX_NUM_BYTES : Z := 4096.
Definition CHANNEL_MAX_NUM_HANDLES : Z := 4.

Record Message := mkMessage {
  msg_bytes : list Z;
  handle_objects : list (option Z);
}.

Record ChannelEnd := mkChannelEnd {
  owner : Z;
  messages : list Message;
  (** [None]: the messages come from the kernel. *)
  other_end : option Z;
}.

Record Event := mkEvent { signalled : bool }.
Record Interrupt := mkInterrupt { triggered : bool; rearm_irq : option Z }.

(** Of the objects that are not channels, events or interrupts only the type
    matters here. *)
Inductive KernelObject :=
  | Channel (c : ChannelEnd)
  | EventObject (e : Event)
  | InterruptObject (i : Interrupt)
  | OtherObject (t : KernelObjectType).

Definition typ (o : KernelObject) : KernelObjectType :=
  match o with
  | Channel _ => TChannel
  | EventObject _ => TEvent
  | InterruptObject _ => TInterrupt
  | OtherObject t => t
  end.

Definition num_handles (m : Message) : Z :=
  foldl (fun n h => match h with Some _ => n + 1 | None => n end) 0 (handle_objects m).

(** ** Tasks and the kernel *)

Record Task := mkTask {
  (** [Handles]. *)
  handles : gmap Z Z;
  next : Z;
  (** The memory of the task's address space, by the addresses mapped there. *)
  memory : gmap Z Z;
}.

Record Kernel := mkKernel {
  objects : gmap Z KernelObject;
  (** [KERNEL_OBJECT_ID_COUNTER]. *)
  id_counter : Z;
  tasks : gmap Z Task;
  (** Objects other parts of the kernel hold on to. *)
  roots : list Z;
}.

Definition set_objects (k : Kernel) (o : gmap Z KernelObject) : Kernel :=
  mkKernel o (id_counter k) (tasks k) (roots k).
Definition set_task (k : Kernel) (t : Z) (task : Task) : Kernel :=
  mkKernel (objects k) (id_counter k) (<[t := task]> (tasks k)) (roots k).

(** *** Dropping objects *)

(** The objects the messages of a queue carry. *)
Definition carried (o : KernelObject) : list Z :=
  match o with
  | Channel c => m ← messages c; omap (fun h => h) (handle_objects m)
  | _ => []
  end.

Definition task_holds (task : Task) (id : Z) : bool :=
  existsb (fun e => e.2 =? id) (map_to_list (handles task)).

(** A handle or another part of the kernel refers to the object. *)
Definition held (k : Kernel) (id : Z) : bool :=
  existsb (Z.eqb id) (roots k) || existsb (fun e => task_holds e.2 id) (map_to_list (tasks k)).

(** Something refers to the object: its [Arc] has a strong reference. *)
Definition referenced (k : Kernel) (id : Z) : bool :=
  held k id || existsb (fun e => existsb (Z.eqb id) (carried e.2)) (map_to_list (objects k)).

Fixpoint collect_loop (fuel : nat) (k : Kernel) : Kernel :=
  match fuel with
  | O => k
  | S fuel =>
      let live := filter (fun e => referenced k e.1 = true) (objects k) in
      if decide (size live = size (objects k)) then k else collect_loop fuel (set_objects k live)
  end.

(** Drop the objects without references, and what only they refer to. *)
Definition collect (k : Kernel) : Kernel := collect_loop (size (objects k)) k.

(** ** The operations, as computations on the kernel *)

Section operations.
Context {E : Type}.
Abbreviation K := (M Kernel E).

(** The running task exists. *)
Definition get_task (t : Z) : K Task :=
  k ← get; lift (unwrap (tasks k !! t)).

Definition alloc_kernel_object_id : K Z :=
  k ← get;
  put (mkKernel (objects k) ((id_counter k + 1) mod 2 ^ 64) (tasks k) (roots k)) ;;
  mret (id_counter k).

Definition get_object (id : Z) : K (option KernelObject) := gets (fun k => objects k !! id).
Definition put_object (id : Z) (o : KernelObject) : K unit :=
  modify (fun k => set_objects k (<[id := o]> (objects k))).

(** *** [Handles] *)

Definition handles_add (t object : Z) : K Z :=
  task ← get_task t;
  let handle_num := next task in
  modify (fun k => set_task k t (mkTask (<[handle_num := object]> (handles task))
                                         ((handle_num + 1) mod 2 ^ 32) (memory task))) ;;
  mret handle_num.

Definition handles_remove (t handle : Z) : K unit :=
  task ← get_task t;
  modify (fun k => set_task k t (mkTask (delete handle (handles task)) (next task) (memory task))).

Definition handles_get (t handle : Z) : K (option Z) :=
  task ← get_task t; mret (handles task !! handle).

(** *** User memory: [UserPointer], [UserSlice] *)

Definition read_mem (m : gmap Z Z) (addr n : Z) : list Z :=
  (fun i => default 0 (m !! (addr + i))) <$> seqZ 0 n.

Fixpoint write_mem (m : gmap Z Z) (addr : Z) (bs : list Z) : gmap Z Z :=
  match bs with
  | [] => m
  | b :: bs => write_mem (<[addr := b]> m) (addr + 1) bs
  end.

(** All [n] bytes at the address are mapped. *)
Definition user_mapped (m : gmap Z Z) (addr n : Z) : bool :=
  forallb (fun i => bool_decide (is_Some (m !! (addr + i)))) (seqZ 0 n).

(** [validate_read] and [validate_write] check nothing: an access to a byte that is
    not mapped is a page fault in the kernel. *)
Definition user_read (t addr n : Z) : K (list Z) :=
  task ← get_task t;
  lift (rassert (user_mapped (memory task) addr n)) ;;
  mret (read_mem (memory task) addr n).

(** An element of a slice of [Handle]s, each a [u32]. *)
Definition user_read_handle (t addr : Z) : K Z :=
  bs ← user_read t addr 4; mret (from_le_bytes bs).

Definition user_write (t addr : Z) (bs : list Z) : K unit :=
  task ← get_task t;
  lift (rassert (user_mapped (memory task) addr (Z.of_nat (length bs)))) ;;
  modify (fun k => set_task k t (mkTask (handles task) (next task) (write_mem (memory task) addr bs))).

(** *** [ChannelEnd] *)

Definition new_channel (own : Z) : K (Z * Z) :=
  a ← alloc_kernel_object_id;
  b ← alloc_kernel_object_id;
  put_object a (Channel (mkChannelEnd own [] (Some b))) ;;
  put_object b (Channel (mkChannelEnd own [] (Some a))) ;;
  mret (a, b).

Definition new_kernel_channel (own : Z) : K Z :=
  a ← alloc_kernel_object_id;
  put_object a (Channel (mkChannelEnd own [] None)) ;;
  mret a.

Definition add_message (id : Z) (c : ChannelEnd) (m : Message) : K unit :=
  put_object id (Channel (mkChannelEnd (owner c) (messages c ++ [m]) (other_end c))).

End operations.

(** [Handle::try_from(usize)]. *)
Definition handle_try_from (x : Z) : option Z := if unsigned_fits 32 x then Some x else None.

(** ** The errors of the system calls *)

Inductive CreateChannelError := CC_InvalidHandleAddress.

Inductive SendMessageError :=
  | InvalidChannelHandle | NotAChannel | ChannelCannotSend | InvalidTransferredHandle
  | CannotTransferHandle | BytesAddressInvalid | TooManyBytes | HandlesAddressInvalid
  | TooManyHandles | OtherEndDisconnected.

Inductive GetMessageError :=
  | GM_InvalidChannelHandle | GM_NotAChannel | GM_NoMessage | GM_BytesAddressInvalid
  | GM_BytesBufferTooSmall | GM_HandlesAddressInvalid | GM_HandlesBufferTooSmall.

Inductive PollInterestError := PI_InvalidHandle | PI_UnsupportedObjectType.

(** ** Sending and receiving *)

(** [ChannelEnd::send] on the end [c]. *)
Definition channel_send (c : ChannelEnd) (m : Message) : M Kernel SendMessageError unit :=
  match other_end c with
  | Some other =>
      o ← get_object other;
      match o with
      | Some (Channel c') => add_message other c' m
      | _ => fail OtherEndDisconnected
      end
  | None => mret tt
  end.

(** [ChannelEnd::receive] on the end [id]; [f] is the closure, which returns the
    message with its error. *)
Definition channel_receive {R} (id : Z) (c : ChannelEnd)
    (f : Message -> M Kernel (Message * GetMessageError) R) : M Kernel GetMessageError R :=
  match messages c with
  | [] => fail GM_NoMessage
  | m :: queue =>
      put_object id (Channel (mkChannelEnd (owner c) queue (other_end c))) ;;
      handle_err (f m) (fun '(m, err) =>
        put_object id (Channel (mkChannelEnd (owner c) (m :: queue) (other_end c))) ;;
        fail err)
  end.

(** The object of a channel handle. *)
Definition get_channel {E} (t handle : Z) (invalid not_channel : E) : M Kernel E (Z * ChannelEnd) :=
  h ← handles_get t handle;
  id ← ok_or h invalid;
  o ← get_object id;
  match o with
  | Some (Channel c) => mret (id, c)
  | _ => fail not_channel
  end.

(** ** The system calls *)

Definition create_channel (t other_end_address : Z) : M Kernel CreateChannelError Z :=
  '(end_a, end_b) ← new_channel t;
  end_a_handle ← handles_add t end_a;
  end_b_handle ← handles_add t end_b;
  user_write t other_end_address (to_le_bytes 4 end_b_handle) ;;
  mret end_a_handle.

(** The loop over the [n] handles to transfer, from the [i]th on, which reads each
    where it is used; [arr] and [i] are its locals. *)
Fixpoint transfer_handles (t addr : Z) (n i : nat) (arr : list (option Z)) :
    M Kernel SendMessageError (list (option Z)) :=
  match n with
  | O => mret arr
  | S n =>
      handle ← user_read_handle t (addr + 4 * Z.of_nat i);
      o ← handles_get t handle;
      object ← ok_or o InvalidTransferredHandle;
      handles_remove t handle ;;
      transfer_handles t addr n (S i) (<[i := Some object]> arr)
  end.

(** [bytes] and [handles] are slices of user memory: the bytes are copied when the
    channel has been found, by [to_vec]. *)
Definition send_message (t channel_handle byte_address num_bytes handles_address num_handles : Z) :
    M Kernel SendMessageError unit :=
  if num_bytes >? CHANNEL_MAX_NUM_BYTES then fail TooManyBytes
  else if num_handles >? CHANNEL_MAX_NUM_HANDLES then fail TooManyHandles
  else
    channel_handle ← ok_or (handle_try_from channel_handle) InvalidChannelHandle;
    handle_objects ← transfer_handles t handles_address (Z.to_nat num_handles) 0
      (replicate (Z.to_nat CHANNEL_MAX_NUM_HANDLES) None);
    '(_, c) ← get_channel t channel_handle InvalidChannelHandle NotAChannel;
    bytes ← (if num_bytes =? 0 then mret [] else user_read t byte_address num_bytes);
    channel_send c (mkMessage bytes handle_objects).

Section get_message.
Context `{BitField}.

(** The loop that gives the receiver its handles. *)
Fixpoint receive_handles (t addr : Z) (m : Message) (i : nat) (n : nat) :
    M Kernel (Message * GetMessageError) unit :=
  match n with
  | O => mret tt
  | S n =>
      object ← lift (unwrap (handle_objects m !! i ≫= fun o => o));
      handle ← handles_add t object;
      user_write t (addr + 4 * Z.of_nat i) (to_le_bytes 4 handle) ;;
      receive_handles t addr m (S i) n
  end.

(** The closure of [get_message]. *)
Definition take_message (t bytes_address bytes_len handles_address handles_len : Z) (m : Message) :
    M Kernel (Message * GetMessageError) Z :=
  let len := Z.of_nat (length (msg_bytes m)) in
  if len >? bytes_len then fail (m, GM_BytesBufferTooSmall)
  else if num_handles m >? handles_len then fail (m, GM_HandlesBufferTooSmall)
  else
    (if (bytes_len >? 0) && negb (bytes_address =? 0) then user_write t bytes_address (msg_bytes m)
     else mret tt) ;;
    (if (handles_len >? 0) && negb (handles_address =? 0)
     then receive_handles t handles_address m 0 (Z.to_nat (num_handles m))
     else mret tt) ;;
    status ← lift (set_bits 64 0 16 32 len);
    lift (set_bits 64 status 32 48 (num_handles m)).

Definition get_message (t channel_handle bytes_address bytes_len handles_address handles_len : Z) :
    M Kernel GetMessageError Z :=
  channel_handle ← ok_or (handle_try_from channel_handle) GM_InvalidChannelHandle;
  '(id, c) ← get_channel t channel_handle GM_InvalidChannelHandle GM_NotAChannel;
  channel_receive id c (take_message t bytes_address bytes_len handles_address handles_len).

End get_message.

Definition poll_interest (t object_handle : Z) : M Kernel PollInterestError Z :=
  object_handle ← ok_or (handle_try_from object_handle) PI_InvalidHandle;
  h ← handles_get t object_handle;
  id ← ok_or h PI_InvalidHandle;
  o ← get_object id;
  interesting ← match o with
    | Some (Channel c) => mret (negb (length (messages c) =? 0)%nat)
    | Some (EventObject e) => mret (signalled e)
    | Some (InterruptObject i) => mret (triggered i)
    | _ => fail PI_UnsupportedObjectType
    end;
  mret (if interesting : bool then 1 ≪ 16 else 0).

(** A system call drops what it no longer refers to when it returns. *)
Definition syscall {E A} (m : M Kernel E A) : M Kernel E A := fun k =>
  match m k with
  | Val (r, k') => Val (r, collect k')
  | Panic => Panic
  end.
