(* ===== verification/KernelCorrect.v ===== *)
(** * Correctness of the kernel's channels

    The invariant of the object store, the functional behaviour of the system
    calls on channels, and that they panic only at a pointer to memory that is not
    mapped. *)

From stdpp Require Import base tactics option list numbers gmap.
From S2P Require Import Prelude Bytes Crates Effects Kernel.

(** ** Which objects [collect] keeps *)

Lemma existsb_map_to_list {V} (f : Z * V -> bool) (m : gmap Z V) :
  existsb f (map_to_list m) = true <-> exists i x, m !! i = Some x /\ f (i, x) = true.
Proof.
  rewrite existsb_exists. split.
  - intros ([i x] & Hin%list_elem_of_In%elem_of_map_to_list & ?). eauto.
  - intros (i & x & Hm & ?). exists (i, x). split; [|done].
    by apply list_elem_of_In, elem_of_map_to_list.
Qed.

Lemma existsb_eqb (id : Z) l : existsb (Z.eqb id) l = true <-> id ∈ l.
Proof.
  rewrite existsb_exists, list_elem_of_In. split; [intros (x & ? & ->%Z.eqb_eq); done|].
  intros. exists id. by rewrite Z.eqb_refl.
Qed.

Lemma held_spec k id :
  held k id = true <->
    id ∈ roots k \/ exists t task h, tasks k !! t = Some task /\ handles task !! h = Some id.
Proof.
  unfold held, task_holds. rewrite orb_true_iff, existsb_eqb, existsb_map_to_list.
  setoid_rewrite existsb_map_to_list. setoid_rewrite Z.eqb_eq. simpl. naive_solver.
Qed.

Lemma referenced_spec k id :
  referenced k id = true <->
    held k id = true \/ exists i o, objects k !! i = Some o /\ id ∈ carried o.
Proof.
  unfold referenced. rewrite orb_true_iff, existsb_map_to_list. setoid_rewrite existsb_eqb. done.
Qed.

(** Everything but the store is as before, and the store only loses objects. *)
Definition prunes (k k' : Kernel) : Prop :=
  tasks k' = tasks k /\ roots k' = roots k /\ id_counter k' = id_counter k /\
  objects k' ⊆ objects k.

Lemma held_prunes k k' id : prunes k k' -> held k' id = held k id.
Proof. intros (Ht & Hr & _ & _). unfold held. by rewrite Ht, Hr. Qed.

(** A set of objects that are held, or carried by members of the set, stays. *)
Lemma collect_loop_spec fuel : forall k (keep : Z -> Prop),
  (forall id, keep id -> held k id = true \/
     exists i o, keep i /\ objects k !! i = Some o /\ id ∈ carried o) ->
  prunes k (collect_loop fuel k) /\
  (forall id, keep id -> objects (collect_loop fuel k) !! id = objects k !! id) /\
  ((size (objects k) <= fuel)%nat -> forall id, is_Some (objects (collect_loop fuel k) !! id) ->
     referenced (collect_loop fuel k) id = true).
Proof.
  induction fuel as [|fuel IH]; intros k keep Hkeep; cbn [collect_loop].
  { split_and!; [by split_and!|done|]. intros Hs. apply Nat.le_0_r, map_size_empty_inv in Hs.
    rewrite Hs. intros id [? ?]. by rewrite lookup_empty in *. }
  set (live := filter _ (objects k)).
  assert (live ⊆ objects k) as Hsub by apply map_filter_subseteq.
  destruct (decide (size live = size (objects k))) as [Hsize|Hsize].
  { split_and!; [by split_and!|done|]. intros _ id [o Ho].
    assert (live = objects k) as E by (by apply map_subseteq_size_eq; [|lia]).
    rewrite <- E in Ho. by apply map_lookup_filter_Some in Ho as [_ ?]. }
  assert (forall id, keep id -> live !! id = objects k !! id) as Hlive.
  { intros id Hid. destruct (objects k !! id) as [o|] eqn:Ho.
    - apply map_lookup_filter_Some. split; [done|]. apply referenced_spec.
      destruct (Hkeep id Hid) as [?|(i & oi & _ & ? & ?)]; [by left|right; eauto].
    - destruct (live !! id) eqn:E; [|done]. eapply lookup_weaken in E; [|done]. congruence. }
  destruct (IH (set_objects k live) keep) as (Hp & Hk & Hf).
  { intros id Hid. destruct (Hkeep id Hid) as [Hh|(i & o & Hi & Ho & Hc)]; [by left|right].
    exists i, o. split_and!; [done| |done]. simpl. by rewrite Hlive. }
  split_and!.
  - destruct Hp as (? & ? & ? & ?). split_and!; [done..|]. by etrans.
  - intros id Hid. rewrite Hk by done. by apply Hlive.
  - intros Hs. apply Hf. simpl.
    pose proof (map_subseteq_size _ _ Hsub). lia.
Qed.

Lemma collect_prunes k : prunes k (collect k).
Proof. by apply (collect_loop_spec _ k (fun _ => False)). Qed.

Lemma collect_keeps_held k id : held k id = true -> objects (collect k) !! id = objects k !! id.
Proof.
  intros Hh. destruct (collect_loop_spec (size (objects k)) k (fun i => i = id)) as (_ & Hk & _);
    [by intros ? ->; left|]. by apply Hk.
Qed.

(** Nothing unreferenced is left. *)
Lemma collect_complete k id :
  is_Some (objects (collect k) !! id) -> referenced (collect k) id = true.
Proof. by apply (collect_loop_spec _ k (fun _ => False)). Qed.

(** What the surviving objects carry survives. *)
Lemma collect_keeps_carried k i o id :
  held k i = true -> objects k !! i = Some o -> id ∈ carried o ->
  objects (collect k) !! id = objects k !! id.
Proof.
  intros Hh Ho Hid. destruct (collect_loop_spec (size (objects k)) k
    (fun j => held k j = true \/ exists i o, held k i = true /\ objects k !! i = Some o /\ j ∈ carried o))
    as (_ & Hk & _); [|apply Hk; eauto 10].
  intros j [?|(i' & o' & ? & ? & ?)]; [by left|right; eauto 10].
Qed.

(** Objects that stay keep what they carry. *)
Lemma collect_loop_closed fuel : forall k i o id,
  objects (collect_loop fuel k) !! i = Some o -> id ∈ carried o -> is_Some (objects k !! id) ->
  is_Some (objects (collect_loop fuel k) !! id).
Proof.
  induction fuel as [|fuel IH]; intros k i o id Hi Hid Hk; cbn [collect_loop] in *; [done|].
  set (live := filter _ (objects k)) in *. destruct (decide _); [done|].
  apply (IH _ i o id Hi Hid). simpl.
  destruct (collect_loop_spec fuel (set_objects k live) (fun _ => False)) as ((_ & _ & _ & Hsub) & _); [done|].
  eapply lookup_weaken in Hi; [|exact Hsub]. simpl in Hi.
  apply map_lookup_filter_Some in Hi as [Hi _]. destruct Hk as [o' Ho']. exists o'.
  apply map_lookup_filter_Some. split; [done|]. apply referenced_spec. eauto.
Qed.

(** ** The invariant of the kernel *)

(** The handles of a message come first in its array, as [Message] documents. *)
Definition message_ok (m : Message) : Prop :=
  bytes_ok (msg_bytes m) /\ Z.of_nat (length (msg_bytes m)) <= CHANNEL_MAX_NUM_BYTES /\
  exists objs, (length objs <= 4)%nat /\
    handle_objects m = (Some <$> objs) ++ replicate (4 - length objs) None.

Definition object_ok (objs : gmap Z KernelObject) (id : Z) (o : KernelObject) : Prop :=
  (forall j, j ∈ carried o -> is_Some (objs !! j)) /\
  match o with
  | Channel c =>
      Forall message_ok (messages c) /\
      (forall p o', other_end c = Some p -> objs !! p = Some o' ->
        exists c', o' = Channel c' /\ other_end c' = Some id)
  | _ => True
  end.

Definition task_ok (objs : gmap Z KernelObject) (task : Task) : Prop :=
  (forall h id, handles task !! h = Some id -> is_Some (objs !! id)) /\
  is_unsigned 32 (next task) /\ map_Forall (fun _ b => is_byte b) (memory task).

Record kernel_ok (k : Kernel) : Prop := {
  ok_objects : map_Forall (object_ok (objects k)) (objects k);
  ok_tasks : map_Forall (fun _ => task_ok (objects k)) (tasks k);
  ok_roots : forall id, id ∈ roots k -> is_Some (objects k !! id);
  ok_ids : forall id, is_Some (objects k !! id) -> 0 < id < id_counter k;
  (** A weak reference may dangle, but never points to an id still to be given out. *)
  ok_peers : forall id c p, objects k !! id = Some (Channel c) -> other_end c = Some p -> p < id_counter k;
}.

(** Dropping unreferenced objects keeps the invariant: no handle, message or root
    is left dangling. *)
Lemma collect_ok k : kernel_ok k -> kernel_ok (collect k).
Proof.
  intros [Ho Ht Hr Hi Hpeer]. pose proof (collect_prunes k) as (Et & Er & Ei & Hsub).
  assert (forall id, held k id = true -> is_Some (objects k !! id) -> is_Some (objects (collect k) !! id)) as Hheld
    by (intros id Hh; by rewrite collect_keeps_held).
  assert (forall i o id, objects (collect k) !! i = Some o -> id ∈ carried o ->
    is_Some (objects (collect k) !! id)) as Hcarried.
  { intros i o id Hio Hid. eapply collect_loop_closed; [done..|].
    eapply (proj1 (Ho i o (lookup_weaken _ _ _ _ Hio Hsub))). done. }
  split.
  - intros id o Hid. pose proof (lookup_weaken _ _ _ _ Hid Hsub) as Hid'.
    destruct (Ho id o Hid') as [_ Hch]. split; [eauto|]. destruct o as [c| | |]; [|done..].
    destruct Hch as [Hm Hp]. split; [done|]. intros p o' Hpo Ho'. eapply Hp; [done|].
    eapply lookup_weaken; eauto.
  - rewrite Et. intros t task Htask. destruct (Ht t task Htask) as (Hh & ? & ?). split; [|done].
    intros h id Hid. apply Hheld; [|by eapply Hh]. apply held_spec. right. eauto.
  - rewrite Er. intros id Hid. apply Hheld; [|auto]. apply held_spec. by left.
  - rewrite Ei. intros id [o Hid]. apply Hi. eauto using lookup_weaken.
  - rewrite Ei. intros id c p Hid. eapply Hpeer, lookup_weaken; eauto.
Qed.

(** ** Executing the operations *)

Section run.
Context {E : Type}.

Lemma get_task_eq k t task : tasks k !! t = Some task -> get_task (E := E) t k = Val (Ok task, k).
Proof. intros Ht. unfold get_task. rewrite M_bind_eq. simpl. by rewrite Ht. Qed.

Lemma handles_get_eq k t task h :
  tasks k !! t = Some task -> handles_get (E := E) t h k = Val (Ok (handles task !! h), k).
Proof. intros Ht. unfold handles_get. by rewrite (M_bind_Ok _ _ _ _ _ (get_task_eq k t task Ht)). Qed.

Lemma handles_remove_eq k t task h :
  tasks k !! t = Some task ->
  handles_remove (E := E) t h k =
    Val (Ok tt, set_task k t (mkTask (delete h (handles task)) (next task) (memory task))).
Proof. intros Ht. unfold handles_remove. by rewrite (M_bind_Ok _ _ _ _ _ (get_task_eq k t task Ht)). Qed.

Definition add_handle (task : Task) (object : Z) : Task :=
  mkTask (<[next task := object]> (handles task)) ((next task + 1) mod 2 ^ 32) (memory task).

Lemma handles_add_eq k t task object :
  tasks k !! t = Some task ->
  handles_add (E := E) t object k = Val (Ok (next task), set_task k t (add_handle task object)).
Proof. intros Ht. unfold handles_add. by rewrite (M_bind_Ok _ _ _ _ _ (get_task_eq k t task Ht)). Qed.

Definition store (task : Task) (addr : Z) (bs : list Z) : Task :=
  mkTask (handles task) (next task) (write_mem (memory task) addr bs).

Lemma user_write_eq k t task addr bs :
  tasks k !! t = Some task ->
  user_write (E := E) t addr bs k =
    if user_mapped (memory task) addr (Z.of_nat (length bs))
    then Val (Ok tt, set_task k t (store task addr bs)) else Panic.
Proof.
  intros Ht. unfold user_write. rewrite (M_bind_Ok _ _ _ _ _ (get_task_eq k t task Ht)), M_bind_eq.
  unfold lift. by destruct (user_mapped _ _ _).
Qed.

Lemma user_read_eq k t task addr n :
  tasks k !! t = Some task ->
  user_read (E := E) t addr n k =
    if user_mapped (memory task) addr n then Val (Ok (read_mem (memory task) addr n), k) else Panic.
Proof.
  intros Ht. unfold user_read. rewrite (M_bind_Ok _ _ _ _ _ (get_task_eq k t task Ht)), M_bind_eq.
  unfold lift. by destruct (user_mapped _ _ _).
Qed.

End run.

Lemma set_task_twice k t x y : set_task (set_task k t x) t y = set_task k t y.
Proof. unfold set_task. simpl. by rewrite insert_insert_eq. Qed.

Lemma set_task_same k t x : tasks k !! t = Some x -> set_task k t x = k.
Proof. intros Ht. destruct k. unfold set_task. simpl in *. by rewrite insert_id. Qed.

Lemma lookup_set_task k t x : tasks (set_task k t x) !! t = Some x.
Proof. apply lookup_insert_eq. Qed.

(** ** User memory *)

Lemma user_mapped_spec m addr n :
  user_mapped m addr n = true <-> forall x, addr <= x < addr + n -> is_Some (m !! x).
Proof.
  unfold user_mapped. rewrite forallb_forall. split.
  - intros Hm x Hx. specialize (Hm (x - addr)). rewrite <- list_elem_of_In, elem_of_seqZ, bool_decide_eq_true in Hm.
    replace (addr + (x - addr)) with x in Hm by lia. apply Hm. lia.
  - intros Hm i Hi. rewrite <- list_elem_of_In, elem_of_seqZ in Hi. apply bool_decide_eq_true, Hm. lia.
Qed.

(** A part of a mapped range, or of a memory with more mapped, is mapped. *)
Lemma user_mapped_weaken m m' addr n addr' n' :
  user_mapped m addr n = true -> addr <= addr' -> addr' + n' <= addr + n ->
  (forall x, is_Some (m !! x) -> is_Some (m' !! x)) -> user_mapped m' addr' n' = true.
Proof. rewrite !user_mapped_spec. intros Hm ? ? Hmm x Hx. apply Hmm, Hm. lia. Qed.

Lemma user_mapped_0 m addr n : n <= 0 -> user_mapped m addr n = true.
Proof. intros. apply user_mapped_spec. lia. Qed.

Lemma user_mapped_empty m addr : user_mapped m addr 0 = true.
Proof. done. Qed.

(** The handles stored at an address. *)
Definition read_handles (m : gmap Z Z) (addr n : Z) : list Z :=
  (fun i => from_le_bytes (read_mem m (addr + 4 * i) 4)) <$> seqZ 0 n.

Lemma read_handles_cons m addr n :
  0 < n -> read_handles m addr n = from_le_bytes (read_mem m addr 4) :: read_handles m (addr + 4) (n - 1).
Proof.
  intros Hn. unfold read_handles. rewrite seqZ_cons by done. cbn [fmap list_fmap].
  rewrite Z.mul_0_r, Z.add_0_r. f_equal. replace (Z.pred n) with (n - 1) by lia.
  replace (seqZ (Z.succ 0) (n - 1)) with (Z.add 1 <$> seqZ 0 (n - 1)) by (by rewrite fmap_add_seqZ).
  rewrite <- list_fmap_compose.
  apply list_fmap_ext. intros j x _. cbn [compose]. by replace (addr + 4 * (1 + x)) with (addr + 4 + 4 * x) by lia.
Qed.

Lemma read_handles_to_nat m addr n : read_handles m addr (Z.of_nat (Z.to_nat n)) = read_handles m addr n.
Proof. destruct (decide (0 <= n)); [by rewrite Z2Nat.id|]. destruct n; [done|lia|done]. Qed.

(** ** Sending: a reference *)

(** Take the objects of a list of handles out of a handle table, up to the first
    handle that is not valid. *)
Fixpoint take_handles (table : gmap Z Z) (hs : list Z) : option (list Z) * gmap Z Z :=
  match hs with
  | [] => (Some [], table)
  | h :: hs =>
      match table !! h with
      | None => (None, table)
      | Some o => let '(r, table') := take_handles (delete h table) hs in (cons o <$> r, table')
      end
  end.

Definition with_handles (task : Task) (table : gmap Z Z) : Task :=
  mkTask table (next task) (memory task).

Lemma with_handles_same task : with_handles task (handles task) = task.
Proof. by destruct task. Qed.

Definition take_result (i : nat) (arr : list (option Z)) (r : option (list Z)) :
    result (list (option Z)) SendMessageError :=
  match r with Some objs => Ok (list_inserts i (Some <$> objs) arr) | None => Err InvalidTransferredHandle end.

(** The loop takes the handles at the address out of the table; it faults only if
    they are not all mapped. *)
Lemma transfer_handles_eq n : forall k t task addr i arr,
  tasks k !! t = Some task ->
  transfer_handles t addr n i arr k
    ⇓{~ user_mapped (memory task) (addr + 4 * Z.of_nat i) (4 * Z.of_nat n) = true} fun x => x =
    let '(r, table') := take_handles (handles task) (read_handles (memory task) (addr + 4 * Z.of_nat i) (Z.of_nat n)) in
    (take_result i arr r, set_task k t (with_handles task table')).
Proof.
  induction n as [|n IH]; intros k t task addr i arr Ht; cbn [transfer_handles].
  { simpl. by rewrite with_handles_same, set_task_same. }
  rewrite read_handles_cons by lia. cbn [take_handles]. rewrite M_bind_eq. unfold user_read_handle at 1.
  rewrite M_bind_eq, (user_read_eq k t task) by done.
  destruct (user_mapped _ _ 4) eqn:Em.
  2:{ intros Hm. rewrite (user_mapped_weaken _ _ _ _ _ 4 Hm) in Em; [done|lia|lia|done]. }
  cbn [mret M_ret]. set (h := from_le_bytes _).
  rewrite (M_bind_Ok _ _ _ _ _ (handles_get_eq k t task h Ht)).
  destruct (handles task !! h) as [o|] eqn:Eh.
  2:{ simpl. by rewrite with_handles_same, set_task_same. }
  rewrite (M_bind_Ok _ _ k o k) by done.
  rewrite (M_bind_Ok _ _ _ _ _ (handles_remove_eq k t task h Ht)).
  eapply returns_unless_weaken; [apply (IH _ t _ addr (S i) (<[i := Some o]> arr) (lookup_set_task _ _ _))|..].
  - cbn [memory]. intros Hn Hm. apply Hn. eapply user_mapped_weaken; [done|lia|lia|done].
  - cbn [memory handles]. intros x ->.
    replace (addr + 4 * Z.of_nat (S i)) with (addr + 4 * Z.of_nat i + 4) by lia.
    replace (Z.of_nat (S n) - 1) with (Z.of_nat n) by lia.
    destruct (take_handles (delete h (handles task)) _) as [[objs|] table']; rewrite set_task_twice; [|done].
    simpl. by rewrite list_insert_inserts_lt by lia.
Qed.

Lemma take_handles_spec hs : forall table r table',
  take_handles table hs = (r, table') ->
  table' ⊆ table /\ (forall h, h ∉ hs -> table' !! h = table !! h) /\
  match r with
  | Some objs =>
      length objs = length hs /\ (forall h, h ∈ hs -> table' !! h = None) /\
      Forall2 (fun h o => table !! h = Some o) hs objs
  | None => exists h, h ∈ hs
  end.
Proof.
  induction hs as [|h hs IH]; intros table r table' E; cbn [take_handles] in E.
  { injection E as <- <-. split_and!; [done|done|done| |constructor]. intros h Hh. by apply elem_of_nil in Hh. }
  destruct (table !! h) as [o|] eqn:Eh.
  2:{ injection E as <- <-. split_and!; [done|done|]. exists h. left. }
  destruct (take_handles (delete h table) hs) as [r1 t1] eqn:E1. injection E as <- <-.
  apply IH in E1 as (Hsub & Hother & Hr). split_and!.
  - etrans; [done|apply delete_subseteq].
  - intros h' [Hne Hn]%not_elem_of_cons. rewrite Hother by done. by rewrite lookup_delete_ne.
  - destruct r1 as [objs|]; [|exists h; left]. destruct Hr as (Hl & Hgone & Hall). simpl.
    split_and!; [by rewrite Hl| |].
    + intros h' [->|Hh']%elem_of_cons; [|by apply Hgone].
      destruct (decide (h ∈ hs)); [by apply Hgone|]. rewrite Hother by done. apply lookup_delete_eq.
    + constructor; [done|]. eapply Forall2_impl; [exact Hall|].
      intros h' o' Ho'. by apply lookup_delete_Some in Ho' as [_ ?].
Qed.

(** A message with the given bytes and objects. *)
Definition message (bytes objs : list Z) : Message :=
  mkMessage bytes ((Some <$> objs) ++ replicate (4 - length objs) None).

Lemma fill_array objs :
  (length objs <= 4)%nat ->
  list_inserts 0 (Some <$> objs) (replicate (Z.to_nat CHANNEL_MAX_NUM_HANDLES) None) =
    (Some <$> objs) ++ replicate (4 - length objs) (None (A := Z)).
Proof. destruct objs as [|? [|? [|? [|? [|? objs]]]]]; simpl; intros; by (lia || done). Qed.

Definition push (k : Kernel) (id : Z) (c : ChannelEnd) (m : Message) : Kernel :=
  set_objects k (<[id := Channel (mkChannelEnd (owner c) (messages c ++ [m]) (other_end c))]> (objects k)).

(** Sending, as one case analysis: the handles leave the sender's table first,
    then the channel is looked up. *)
Definition send_ref (k : Kernel) (t : Z) (task : Task) (ch : Z) (bytes hs : list Z) :
    result unit SendMessageError * Kernel :=
  let '(r, table) := take_handles (handles task) hs in
  let k1 := set_task k t (with_handles task table) in
  match r with
  | None => (Err InvalidTransferredHandle, k1)
  | Some objs =>
      match table !! ch with
      | None => (Err InvalidChannelHandle, k1)
      | Some id =>
          match objects k !! id with
          | Some (Channel c) =>
              match other_end c with
              | None => (Ok tt, k1)
              | Some p =>
                  match objects k !! p with
                  | Some (Channel c') => (Ok tt, push k1 p c' (message bytes objs))
                  | _ => (Err OtherEndDisconnected, k1)
                  end
              end
          | _ => (Err NotAChannel, k1)
          end
      end
  end.

Lemma read_mem_0 m addr : read_mem m addr 0 = [].
Proof. done. Qed.

Lemma length_read_handles m addr n : length (read_handles m addr n) = Z.to_nat n.
Proof. unfold read_handles. by rewrite length_fmap, length_seqZ. Qed.

Lemma get_channel_eq {E} k t task h (e1 e2 : E) :
  tasks k !! t = Some task ->
  get_channel t h e1 e2 k =
    Val (match handles task !! h with
         | None => Err e1
         | Some id => match objects k !! id with Some (Channel c) => Ok (id, c) | _ => Err e2 end
         end, k).
Proof.
  intros Ht. unfold get_channel. rewrite (M_bind_Ok _ _ _ _ _ (handles_get_eq k t task h Ht)).
  destruct (handles task !! h) as [id|]; [|done]. rewrite (M_bind_Ok _ _ k id k) by done.
  rewrite M_bind_eq. simpl. by destruct (objects k !! id) as [[]|].
Qed.

(** The memory a send reads. *)
Definition send_mapped (task : Task) (baddr n haddr nh : Z) : Prop :=
  user_mapped (memory task) baddr n = true /\ user_mapped (memory task) haddr (4 * nh) = true.

(** Of which the bytes are read only if the handles are valid. *)
Definition send_reads (task : Task) (baddr n haddr nh : Z) : Prop :=
  user_mapped (memory task) haddr (4 * nh) = true /\
  (is_Some (take_handles (handles task) (read_handles (memory task) haddr nh)).1 ->
   user_mapped (memory task) baddr n = true).

Lemma send_message_unless k t task ch baddr n haddr nh :
  tasks k !! t = Some task -> n <= CHANNEL_MAX_NUM_BYTES -> nh <= CHANNEL_MAX_NUM_HANDLES ->
  is_unsigned 32 ch ->
  send_message t ch baddr n haddr nh k ⇓{~ send_reads task baddr n haddr nh} fun x =>
    x = send_ref k t task ch (read_mem (memory task) baddr n) (read_handles (memory task) haddr nh).
Proof.
  intros Ht Hn Hnh Hch. unfold send_message.
  replace (n >? CHANNEL_MAX_NUM_BYTES) with false by lia.
  replace (nh >? CHANNEL_MAX_NUM_HANDLES) with false by lia.
  unfold handle_try_from. rewrite (proj2 (unsigned_fits_spec 32 ch) Hch).
  rewrite (M_bind_Ok _ _ k ch k) by done. rewrite M_bind_eq.
  pose proof (transfer_handles_eq (Z.to_nat nh) k t task haddr 0
    (replicate (Z.to_nat CHANNEL_MAX_NUM_HANDLES) None) Ht) as Htr.
  rewrite Z.mul_0_r, Z.add_0_r, read_handles_to_nat in Htr.
  destruct (transfer_handles _ _ _ _ _ _) as [x|]; simpl in Htr.
  2:{ intros [Hm _]. apply Htr. destruct (decide (0 <= nh)); [by rewrite Z2Nat.id|]. apply user_mapped_0. lia. }
  subst x. unfold send_ref. unfold send_reads.
  destruct (take_handles _ _) as [[objs|] table] eqn:Etake; [|done].
  apply take_handles_spec in Etake as (_ & _ & Hl & _). rewrite length_read_handles in Hl.
  unfold CHANNEL_MAX_NUM_HANDLES in Hnh. unfold take_result. rewrite fill_array by lia.
  rewrite M_bind_eq, (get_channel_eq _ _ _ _ _ _ (lookup_set_task _ _ _)). cbn [handles with_handles objects set_task].
  destruct (table !! ch) as [id|]; [|done]. destruct (objects k !! id) as [[c| | |]|]; try done.
  rewrite M_bind_eq. set (bytes := if n =? 0 then _ else _).
  assert (bytes (set_task k t (with_handles task table)) ⇓{~ user_mapped (memory task) baddr n = true} fun x =>
    x = (Ok (read_mem (memory task) baddr n), set_task k t (with_handles task table))) as Hb.
  { subst bytes. destruct (Z.eqb_spec n 0) as [->|]; [done|].
    rewrite (user_read_eq _ _ _ _ _ (lookup_set_task _ _ _)). cbn [memory with_handles].
    destruct (user_mapped (memory task) baddr n) eqn:Em; done. }
  destruct (bytes _) as [x|]; simpl in Hb; [subst x|intros [_ Hm]; apply Hb, Hm; by eexists].
  unfold channel_send. destruct (other_end c) as [p|]; [|done].
  rewrite M_bind_eq. cbn [get_object gets objects set_task].
  by destruct (objects k !! p) as [[]|].
Qed.

Lemma send_message_eq k t task ch baddr n haddr nh :
  tasks k !! t = Some task -> n <= CHANNEL_MAX_NUM_BYTES -> nh <= CHANNEL_MAX_NUM_HANDLES ->
  is_unsigned 32 ch -> send_mapped task baddr n haddr nh ->
  send_message t ch baddr n haddr nh k =
    Val (send_ref k t task ch (read_mem (memory task) baddr n) (read_handles (memory task) haddr nh)).
Proof.
  intros Ht Hn Hnh Hch [Hb Hh]. apply returns_eq. eapply returns_unless_returns; [by apply send_message_unless|].
  by split.
Qed.

(** ** The invariant is kept *)

Lemma set_task_ok k t task' :
  kernel_ok k -> task_ok (objects k) task' -> kernel_ok (set_task k t task').
Proof.
  intros [Ho Ht Hr Hi Hpeer] Htask. split; simpl; try done. by apply map_Forall_insert_2.
Qed.

(** Replacing an object by one that refers to existing objects and has the same
    other end. *)
Lemma put_object_ok k id o o' :
  kernel_ok k -> objects k !! id = Some o -> object_ok (objects k) id o' ->
  (forall c, o = Channel c -> exists c', o' = Channel c' /\ other_end c' = other_end c) ->
  (forall c p, o' = Channel c -> other_end c = Some p -> p < id_counter k) ->
  kernel_ok (set_objects k (<[id := o']> (objects k))).
Proof.
  intros [Ho Ht Hr Hi Hpeer] Hid Ho' Hsame Hpeer'.
  assert (forall j, is_Some (objects k !! j) -> is_Some (<[id := o']> (objects k) !! j)) as Hdom
    by (intros j; rewrite lookup_insert_is_Some; destruct (decide (id = j)); auto).
  assert (forall j o1, object_ok (objects k) j o1 -> object_ok (<[id := o']> (objects k)) j o1) as Hmono.
  { intros j o1 [Hc1 Hch1]. split; [eauto|]. destruct o1 as [c1| | |]; [|done..].
    destruct Hch1 as [Hm1 Hp1]. split; [done|]. intros p o2 Hp Ho2.
    destruct (decide (p = id)) as [->|Hne].
    - rewrite lookup_insert_eq in Ho2. injection Ho2 as <-.
      destruct (Hp1 id o Hp Hid) as (c & -> & Hc). destruct (Hsame c eq_refl) as (c' & -> & E).
      exists c'. by rewrite E.
    - rewrite lookup_insert_ne in Ho2 by done. eauto. }
  split; simpl.
  - apply map_Forall_insert_2; [by apply Hmono|]. intros j o1 Hj. apply Hmono. by apply Ho.
  - intros t task Htask. destruct (Ht t task Htask) as (Hh & ? & ?). split; [|done]. eauto.
  - eauto.
  - intros j Hj. apply Hi. rewrite lookup_insert_is_Some in Hj. destruct Hj as [<-|[_ ?]]; [by rewrite Hid|done].
  - intros j c p [[_ E]|[_ E]]%lookup_insert_Some; eauto.
Qed.

Lemma with_handles_ok k task table :
  task_ok (objects k) task -> table ⊆ handles task -> task_ok (objects k) (with_handles task table).
Proof.
  intros (Hh & ? & ?) Hsub. split; [|done]. simpl. intros h id Hid. eapply Hh, lookup_weaken; eauto.
Qed.

Lemma omap_Some_app (objs : list Z) n :
  omap (fun h => h) ((Some <$> objs) ++ replicate n None) = objs.
Proof.
  rewrite omap_app. replace (omap (fun h => h) (replicate n (None (A := Z)))) with (@nil Z).
  - rewrite app_nil_r. induction objs as [|o objs IH]; simpl; [done|]. by f_equal.
  - induction n as [|n IH]; simpl; done.
Qed.

Lemma read_mem_ok m addr n : map_Forall (fun _ b => is_byte b) m -> bytes_ok (read_mem m addr n).
Proof.
  intros Hm. unfold read_mem. apply Forall_fmap, Forall_true. intros i. simpl.
  destruct (m !! (addr + i)) as [b|] eqn:E; [by eapply Hm|]. simpl. by unfold is_unsigned.
Qed.

Lemma length_read_mem m addr n : length (read_mem m addr n) = Z.to_nat n.
Proof. unfold read_mem. by rewrite length_fmap, length_seqZ. Qed.

Lemma message_message_ok bytes objs :
  bytes_ok bytes -> Z.of_nat (length bytes) <= CHANNEL_MAX_NUM_BYTES -> (length objs <= 4)%nat ->
  message_ok (message bytes objs).
Proof. intros. split_and!; [done|done|]. exists objs. done. Qed.

Lemma push_ok k id c m :
  kernel_ok k -> objects k !! id = Some (Channel c) -> message_ok m ->
  (forall j, j ∈ omap (fun h => h) (handle_objects m) -> is_Some (objects k !! j)) ->
  kernel_ok (push k id c m).
Proof.
  intros Hk Hid Hm Hcarry. pose proof (ok_objects k Hk id _ Hid) as [Hc [Hms Hp]].
  apply (put_object_ok k id (Channel c)); [done|done| | |].
  - split; [|split; [|done]].
    + intros j Hj. simpl in Hj. rewrite bind_app in Hj. apply elem_of_app in Hj as [Hj|Hj]; [by apply Hc|].
      apply Hcarry. by rewrite list_bind_singleton in Hj || (simpl in Hj; by rewrite app_nil_r in Hj).
    + apply Forall_app. split; [done|]. by constructor.
  - intros c0 [= <-]. by eexists.
  - intros c0 p [= <-] Hpo. by apply (ok_peers k Hk id c p Hid).
Qed.

Lemma send_ref_ok k t task ch bytes hs :
  kernel_ok k -> tasks k !! t = Some task -> bytes_ok bytes ->
  Z.of_nat (length bytes) <= CHANNEL_MAX_NUM_BYTES -> (length hs <= 4)%nat ->
  kernel_ok (send_ref k t task ch bytes hs).2.
Proof.
  intros Hk Ht Hb Hl Hhs. pose proof (ok_tasks k Hk t task Ht) as Htask. unfold send_ref.
  destruct (take_handles (handles task) hs) as [r table] eqn:E.
  apply take_handles_spec in E as (Hsub & _ & Hr).
  assert (kernel_ok (set_task k t (with_handles task table))) as Hk1
    by (by apply set_task_ok, with_handles_ok).
  destruct r as [objs|]; [|done]. destruct Hr as (Hlen & _ & Hobjs).
  repeat (case_match; try done). simpl. apply push_ok; [done|done|by apply message_message_ok; [..|lia]|].
  intros j Hj. unfold message in Hj. cbn [handle_objects] in Hj. rewrite omap_Some_app in Hj.
  apply list_elem_of_lookup in Hj as [i Hi].
  destruct (Forall2_lookup_r _ _ _ _ _ Hobjs Hi) as (h & _ & Hh). by eapply (proj1 Htask).
Qed.

(** ** Receiving: a reference *)

(** Add the objects to the receiver's table and write their handles to its
    buffer, from slot [i] on. *)
Fixpoint give_handles (task : Task) (addr : Z) (objs : list Z) (i : Z) : Task :=
  match objs with
  | [] => task
  | o :: objs =>
      give_handles (store (add_handle task o) (addr + 4 * i) (to_le_bytes 4 (next task))) addr objs (i + 1)
  end.

Lemma write_mem_maps bs : forall m addr x, is_Some (m !! x) -> is_Some (write_mem m addr bs !! x).
Proof.
  induction bs as [|b bs IH]; intros m addr x Hx; simpl; [done|]. apply IH.
  apply lookup_insert_is_Some. destruct (decide (addr = x)); auto.
Qed.

Lemma receive_handles_unless objs : forall k t task addr m i,
  tasks k !! t = Some task ->
  (forall j o, objs !! j = Some o -> handle_objects m !! (i + j)%nat = Some (Some o)) ->
  receive_handles t addr m i (length objs) k
    ⇓{~ user_mapped (memory task) (addr + 4 * Z.of_nat i) (4 * Z.of_nat (length objs)) = true} fun x =>
    x = (Ok tt, set_task k t (give_handles task addr objs (Z.of_nat i))).
Proof.
  induction objs as [|o objs IH]; intros k t task addr m i Ht Hm; cbn [receive_handles length give_handles].
  { simpl. by rewrite set_task_same. }
  pose proof (Hm 0%nat o eq_refl) as Ho. rewrite Nat.add_0_r in Ho. rewrite Ho.
  rewrite (M_bind_Ok _ _ k o k) by done.
  rewrite (M_bind_Ok _ _ _ _ _ (handles_add_eq k t task o Ht)), M_bind_eq.
  rewrite (user_write_eq _ t _ _ _ (lookup_set_task k t (add_handle task o))). cbn [memory add_handle].
  rewrite length_to_le_bytes. change (Z.of_nat 4) with 4.
  destruct (user_mapped (memory task) (addr + 4 * Z.of_nat i) 4) eqn:Em.
  2:{ intros Hma. rewrite (user_mapped_weaken _ _ _ _ _ 4 Hma) in Em; [done|lia|lia|done]. }
  rewrite set_task_twice. eapply returns_unless_weaken; [apply (IH _ t _ addr m (S i) (lookup_set_task _ _ _))|..].
  - intros j o' Hj. replace (S i + j)%nat with (i + S j)%nat by lia. by apply Hm.
  - intros Hn Hma. apply Hn. eapply user_mapped_weaken; [exact Hma|lia|lia|]. apply write_mem_maps.
  - intros x ->. rewrite set_task_twice. do 3 f_equal. f_equal. lia.
Qed.

Lemma num_handles_message bytes objs : num_handles (message bytes objs) = Z.of_nat (length objs).
Proof.
  unfold num_handles, message. cbn [handle_objects]. rewrite foldl_app.
  assert (forall n x, foldl (fun n (h : option Z) => match h with Some _ => n + 1 | None => n end) x
    (replicate n None) = x) as -> by (induction n; simpl; auto).
  cut (forall x, foldl (fun n (h : option Z) => match h with Some _ => n + 1 | None => n end) x
    (Some <$> objs) = x + Z.of_nat (length objs)); [intros ->; lia|].
  induction objs as [|o objs IH]; intros x; [simpl; lia|].
  cbn [fmap list_fmap foldl length]. rewrite IH. lia.
Qed.

(** The receiver after a message: the bytes and handles are written to the
    buffers it passed. *)
Definition receive_task (task : Task) (baddr blen haddr hlen : Z) (bytes objs : list Z) : Task :=
  let task1 := if (blen >? 0) && negb (baddr =? 0) then store task baddr bytes else task in
  if (hlen >? 0) && negb (haddr =? 0) then give_handles task1 haddr objs 0 else task1.

Definition message_status (bytes objs : list Z) : Z :=
  Z.of_nat (length bytes) * 2 ^ 16 + Z.of_nat (length objs) * 2 ^ 32.

(** The memory a receive may write: its buffers, as far as a message can fill them. *)
Definition get_mapped (task : Task) (baddr blen haddr hlen : Z) : Prop :=
  (0 < blen -> baddr <> 0 -> user_mapped (memory task) baddr (Z.min blen CHANNEL_MAX_NUM_BYTES) = true) /\
  (0 < hlen -> haddr <> 0 -> user_mapped (memory task) haddr (4 * Z.min hlen CHANNEL_MAX_NUM_HANDLES) = true).

Section receive.
Context `{BitFieldSpec}.

Lemma message_status_bits bytes objs :
  Z.of_nat (length bytes) <= CHANNEL_MAX_NUM_BYTES -> (length objs <= 4)%nat ->
  (status ← set_bits 64 0 16 32 (Z.of_nat (length bytes));
   set_bits 64 status 32 48 (Z.of_nat (length objs))) = Val (message_status bytes objs).
Proof.
  unfold CHANNEL_MAX_NUM_BYTES. intros Hb Ho.
  set (len := Z.of_nat (length bytes)) in *. assert (0 <= len) by (subst len; lia).
  rewrite set_bits_in by (unfold is_unsigned; lia). obind.
  rewrite Z.div_0_l, Z.mod_0_l by lia. replace (0 - 0 * 2 ^ 16 + len * 2 ^ 16) with (len * 2 ^ 16) by lia.
  rewrite set_bits_in by (unfold is_unsigned; lia).
  rewrite Z.div_small, Z.mod_0_l by lia. unfold message_status. fold len. f_equal. lia.
Qed.

Lemma take_message_unless k t task baddr blen haddr hlen bytes objs :
  tasks k !! t = Some task -> Z.of_nat (length bytes) <= CHANNEL_MAX_NUM_BYTES -> (length objs <= 4)%nat ->
  take_message t baddr blen haddr hlen (message bytes objs) k ⇓{~ get_mapped task baddr blen haddr hlen} fun x =>
    x = if Z.of_nat (length bytes) >? blen then (Err (message bytes objs, GM_BytesBufferTooSmall), k)
        else if Z.of_nat (length objs) >? hlen then (Err (message bytes objs, GM_HandlesBufferTooSmall), k)
        else (Ok (message_status bytes objs),
              set_task k t (receive_task task baddr blen haddr hlen bytes objs)).
Proof.
  intros Ht Hb Ho. unfold take_message. rewrite num_handles_message. cbn [msg_bytes message].
  destruct (Z.of_nat (length bytes) >? blen) eqn:Hbl; [done|].
  destruct (Z.of_nat (length objs) >? hlen) eqn:Hhl; [done|].
  set (task1 := if (blen >? 0) && negb (baddr =? 0) then store task baddr bytes else task).
  rewrite M_bind_eq. set (m := if (blen >? 0) && negb (baddr =? 0) then _ else _).
  assert (m k ⇓{~ get_mapped task baddr blen haddr hlen} fun x => x = (Ok tt, set_task k t task1)) as Hm1.
  { subst m task1. destruct ((blen >? 0) && negb (baddr =? 0)) eqn:Ec; [|simpl; by rewrite set_task_same].
    rewrite (user_write_eq k t task) by done. destruct (user_mapped _ _ _) eqn:Em; [done|]. intros [Hma _].
    rewrite (user_mapped_weaken _ _ _ _ _ (Z.of_nat (length bytes)) (Hma ltac:(lia) ltac:(lia))) in Em;
      [done|lia|lia|done]. }
  destruct (m k) as [x|]; simpl in Hm1; [subst x|done]. clear m.
  rewrite M_bind_eq. set (m := if (hlen >? 0) && negb (haddr =? 0) then _ else _).
  assert (m (set_task k t task1) ⇓{~ get_mapped task baddr blen haddr hlen} fun x =>
    x = (Ok tt, set_task k t (receive_task task baddr blen haddr hlen bytes objs))) as Hm2.
  { subst m. unfold receive_task. fold task1. destruct ((hlen >? 0) && negb (haddr =? 0)) eqn:Ec; [|done].
    rewrite Nat2Z.id. eapply returns_unless_weaken;
      [apply (receive_handles_unless objs _ t task1 haddr (message bytes objs) 0 (lookup_set_task _ _ _))|..].
    - intros j o Hj. simpl. rewrite lookup_app_l by (rewrite length_fmap; by eapply lookup_lt_Some).
      by rewrite list_lookup_fmap, Hj.
    - intros Hn [_ Hma]. apply Hn.
      eapply user_mapped_weaken; [apply Hma; lia|lia|unfold CHANNEL_MAX_NUM_HANDLES; lia|].
      intros x Hx. subst task1. destruct ((blen >? 0) && negb (baddr =? 0)); [by apply write_mem_maps|done].
    - intros x ->. by rewrite set_task_twice. }
  destruct (m _) as [x|]; simpl in Hm2; [subst x|done]. clear m.
  pose proof (message_status_bits bytes objs Hb Ho) as Hst.
  apply bind_Val in Hst as (status & Hs1 & Hs2). rewrite M_bind_eq. unfold lift at 1. rewrite Hs1.
  unfold lift. by rewrite Hs2.
Qed.

(** The objects of a message. *)
Definition msg_objects (m : Message) : list Z := omap (fun h => h) (handle_objects m).

Definition pop (k : Kernel) (id : Z) (c : ChannelEnd) (q : list Message) : Kernel :=
  set_objects k (<[id := Channel (mkChannelEnd (owner c) q (other_end c))]> (objects k)).

Definition get_ref (k : Kernel) (t : Z) (task : Task) (ch baddr blen haddr hlen : Z) :
    result Z GetMessageError * Kernel :=
  match handles task !! ch with
  | None => (Err GM_InvalidChannelHandle, k)
  | Some id =>
      match objects k !! id with
      | Some (Channel c) =>
          match messages c with
          | [] => (Err GM_NoMessage, k)
          | m :: q =>
              if Z.of_nat (length (msg_bytes m)) >? blen then (Err GM_BytesBufferTooSmall, k)
              else if Z.of_nat (length (msg_objects m)) >? hlen then (Err GM_HandlesBufferTooSmall, k)
              else (Ok (message_status (msg_bytes m) (msg_objects m)),
                    set_task (pop k id c q) t
                      (receive_task task baddr blen haddr hlen (msg_bytes m) (msg_objects m)))
          end
      | _ => (Err GM_NotAChannel, k)
      end
  end.

Lemma message_ok_message m :
  message_ok m -> m = message (msg_bytes m) (msg_objects m) /\ (length (msg_objects m) <= 4)%nat.
Proof.
  intros (_ & _ & objs & Hl & E). unfold msg_objects. rewrite E, omap_Some_app.
  split; [|done]. destruct m. simpl in *. by rewrite E.
Qed.

Lemma put_back k id c m q :
  objects k !! id = Some (Channel c) -> messages c = m :: q ->
  set_objects (pop k id c q) (<[id := Channel (mkChannelEnd (owner c) (m :: q) (other_end c))]>
    (objects (pop k id c q))) = k.
Proof.
  intros Hid Hm. destruct k, c. simpl in *. subst. unfold pop, set_objects. simpl.
  by rewrite insert_insert_eq, insert_id.
Qed.

Lemma get_message_unless k t task ch baddr blen haddr hlen :
  kernel_ok k -> tasks k !! t = Some task -> is_unsigned 32 ch ->
  get_message t ch baddr blen haddr hlen k ⇓{~ get_mapped task baddr blen haddr hlen} fun x =>
    x = get_ref k t task ch baddr blen haddr hlen.
Proof.
  intros Hk Ht Hch. unfold get_message, get_ref, handle_try_from.
  rewrite (proj2 (unsigned_fits_spec 32 ch) Hch). rewrite (M_bind_Ok _ _ k ch k) by done.
  rewrite M_bind_eq, (get_channel_eq k t task ch _ _ Ht).
  destruct (handles task !! ch) as [id|]; [|done]. destruct (objects k !! id) as [[c| | |]|] eqn:Hid; try done.
  unfold channel_receive. destruct (messages c) as [|m q] eqn:Hq; [done|].
  pose proof (ok_objects k Hk id _ Hid) as [_ [Hms _]]. rewrite Hq in Hms.
  apply Forall_cons_1 in Hms as [Hm _]. pose proof (message_ok_message m Hm) as [Em Hlo].
  destruct Hm as (_ & Hlb & _).
  rewrite (M_bind_Ok _ _ k tt (pop k id c q)) by done. unfold handle_err. rewrite Em at 1.
  pose proof (take_message_unless (pop k id c q) t task baddr blen haddr hlen (msg_bytes m) (msg_objects m) Ht Hlb Hlo) as Htk.
  destruct (take_message _ _ _ _ _ _ _) as [x|]; simpl in Htk; [subst x|done].
  destruct (_ >? blen); [|destruct (_ >? hlen); [|done]];
    rewrite <- Em, M_bind_eq; cbn -[set_objects pop]; by rewrite (put_back k id c m q).
Qed.

Lemma get_message_eq k t task ch baddr blen haddr hlen :
  kernel_ok k -> tasks k !! t = Some task -> is_unsigned 32 ch -> get_mapped task baddr blen haddr hlen ->
  get_message t ch baddr blen haddr hlen k = Val (get_ref k t task ch baddr blen haddr hlen).
Proof.
  intros Hk Ht Hch Hm. apply returns_eq. eapply returns_unless_returns; [|exact Hm].
  by apply get_message_unless.
Qed.

Lemma pop_ok k id c m q :
  kernel_ok k -> objects k !! id = Some (Channel c) -> messages c = m :: q -> kernel_ok (pop k id c q).
Proof.
  intros Hk Hid Hq. pose proof (ok_objects k Hk id _ Hid) as [Hc [Hms Hp]]. rewrite Hq in Hms.
  apply (put_object_ok k id (Channel c)); [done|done| | |].
  - split; [|split; [by apply Forall_cons_1 in Hms as [_ ?]|done]].
    intros j Hj. apply Hc. simpl in Hj |- *. rewrite Hq. simpl. apply elem_of_app. by right.
  - intros c0 [= <-]. by eexists.
  - intros c0 p [= <-] Hpo. by apply (ok_peers k Hk id c p Hid).
Qed.

Lemma write_mem_ok bs : forall m addr,
  bytes_ok bs -> map_Forall (fun _ b => is_byte b) m -> map_Forall (fun _ b => is_byte b) (write_mem m addr bs).
Proof.
  induction bs as [|b bs IH]; intros m addr Hb Hm; simpl; [done|].
  apply Forall_cons_1 in Hb as [??]. apply IH; [done|]. by apply map_Forall_insert_2.
Qed.

Lemma to_le_bytes_ok n : forall v, bytes_ok (to_le_bytes n v).
Proof.
  induction n as [|n IH]; intros v; simpl; constructor; [|done].
  apply Z.mod_pos_bound. lia.
Qed.

Lemma give_handles_ok objs addr objs_store : forall task i,
  task_ok objs_store task -> (forall o, o ∈ objs -> is_Some (objs_store !! o)) ->
  task_ok objs_store (give_handles task addr objs i).
Proof.
  induction objs as [|o objs IH]; intros task i (Hh & Hn & Hm) Ho; cbn [give_handles]; [done|].
  apply IH; [|intros; apply Ho; by right]. split_and!.
  - intros h id. simpl. intros [[_ <-]|[_ ?]]%lookup_insert_Some; [apply Ho; left|eauto].
  - simpl. apply Z.mod_pos_bound. lia.
  - apply write_mem_ok; [apply to_le_bytes_ok|done].
Qed.

Lemma receive_task_ok store_ task baddr blen haddr hlen bytes objs :
  task_ok store_ task -> bytes_ok bytes -> (forall o, o ∈ objs -> is_Some (store_ !! o)) ->
  task_ok store_ (receive_task task baddr blen haddr hlen bytes objs).
Proof.
  intros Ht Hb Ho. unfold receive_task.
  assert (task_ok store_ (if (blen >? 0) && negb (baddr =? 0) then store task baddr bytes else task)).
  { destruct (_ && _); [|done]. destruct Ht as (? & ? & ?). split_and!; [done|done|]. by apply write_mem_ok. }
  destruct ((hlen >? 0) && _); [|done]. by apply give_handles_ok.
Qed.

Lemma get_ref_ok k t task ch baddr blen haddr hlen :
  kernel_ok k -> tasks k !! t = Some task -> kernel_ok (get_ref k t task ch baddr blen haddr hlen).2.
Proof.
  intros Hk Ht. unfold get_ref. destruct (handles task !! ch) as [id|]; [|done].
  destruct (objects k !! id) as [[c| | |]|] eqn:Hid; try done.
  destruct (messages c) as [|m q] eqn:Hq; [done|]. do 2 (case_match; [done|]). simpl.
  pose proof (pop_ok k id c m q Hk Hid Hq) as Hpop.
  apply set_task_ok; [done|]. apply receive_task_ok.
  - by apply (ok_tasks _ Hpop t).
  - pose proof (ok_objects k Hk id _ Hid) as [_ [Hms _]]. rewrite Hq in Hms.
    apply Forall_cons_1 in Hms as [[? _] _]. done.
  - intros o Ho. apply lookup_insert_is_Some. destruct (decide (id = o)); [by left|right; split; [done|]].
    apply (proj1 (ok_objects k Hk id _ Hid)). simpl. rewrite Hq. simpl. apply elem_of_app. by left.
Qed.

End receive.

(** ** Creating a channel *)

(** The kernel after the two ends [a] and [b] have been added. *)
Definition with_channel (k : Kernel) (t : Z) (task : Task) (addr : Z) : Kernel :=
  let a := id_counter k in
  let b := id_counter k + 1 in
  let task1 := add_handle (add_handle task a) b in
  mkKernel (<[b := Channel (mkChannelEnd t [] (Some a))]>
              (<[a := Channel (mkChannelEnd t [] (Some b))]> (objects k)))
    (id_counter k + 2)
    (<[t := store task1 addr (to_le_bytes 4 (next (add_handle task a)))]> (tasks k)) (roots k).

Lemma create_channel_eq k t task addr :
  tasks k !! t = Some task -> 0 <= id_counter k -> id_counter k + 2 < 2 ^ 64 ->
  create_channel t addr k =
    if user_mapped (memory task) addr 4 then Val (Ok (next task), with_channel k t task addr) else Panic.
Proof.
  intros Ht H0 Hc. unfold create_channel.
  set (k1 := mkKernel (<[id_counter k + 1 := Channel (mkChannelEnd t [] (Some (id_counter k)))]>
    (<[id_counter k := Channel (mkChannelEnd t [] (Some (id_counter k + 1)))]> (objects k)))
    (id_counter k + 2) (tasks k) (roots k)).
  rewrite (M_bind_Ok _ _ k (id_counter k, id_counter k + 1) k1).
  2:{ unfold new_channel, alloc_kernel_object_id, put_object. repeat (rewrite M_bind_eq; cbn -[Z.modulo Z.pow]).
      rewrite !Z.mod_small by lia. unfold k1, set_objects. simpl.
      by replace (id_counter k + 1 + 1) with (id_counter k + 2) by lia. }
  rewrite (M_bind_Ok _ _ _ _ _ (handles_add_eq k1 t task (id_counter k) Ht)).
  rewrite (M_bind_Ok _ _ _ _ _ (handles_add_eq _ t _ (id_counter k + 1) (lookup_set_task _ _ _))).
  rewrite M_bind_eq, (user_write_eq _ t _ addr _ (lookup_set_task _ _ _)).
  rewrite length_to_le_bytes. change (Z.of_nat 4) with 4. cbn [memory add_handle].
  destruct (user_mapped (memory task) addr 4); [|done]. by rewrite !set_task_twice.
Qed.

Lemma with_channel_ok k t task addr :
  kernel_ok k -> tasks k !! t = Some task -> 0 < id_counter k -> kernel_ok (with_channel k t task addr).
Proof.
  intros [Ho Ht Hr Hi Hpeer] Htask H0.
  set (a := id_counter k). set (b := id_counter k + 1).
  assert (objects k !! a = None) as Ha.
  { destruct (objects k !! a) eqn:E; [|done]. specialize (Hi a (mk_is_Some _ _ E)). unfold a in Hi. lia. }
  assert (objects k !! b = None) as Hb.
  { destruct (objects k !! b) eqn:E; [|done]. specialize (Hi b (mk_is_Some _ _ E)). unfold b in Hi. lia. }
  assert (a <> b) as Hab by (unfold a, b; lia).
  set (ea := Channel (mkChannelEnd t [] (Some b))). set (eb := Channel (mkChannelEnd t [] (Some a))).
  set (objs := <[b := eb]> (<[a := ea]> (objects k))).
  assert (objects k ⊆ objs) as Hsub.
  { etrans; [|apply insert_subseteq]; [by apply insert_subseteq|]. by rewrite lookup_insert_ne. }
  assert (objs !! a = Some ea) as Hoa by (unfold objs; by rewrite lookup_insert_ne, lookup_insert_eq by done).
  assert (objs !! b = Some eb) as Hob by apply lookup_insert_eq.
  assert (forall j, is_Some (objects k !! j) -> is_Some (objs !! j)) as Hdom
    by (intros j [o Hj]; exists o; by eapply lookup_weaken).
  assert (forall j o, objs !! j = Some o -> j = a /\ o = ea \/ j = b /\ o = eb \/ objects k !! j = Some o) as Hinv.
  { intros j o [[<- <-]|[Hj1 [[<- <-]|[Hj2 Hj]]%lookup_insert_Some]]%lookup_insert_Some; auto. }
  assert (task_ok (objects k) task) as Htk by (by apply (Ht t)).
  assert (objects (with_channel k t task addr) = objs) as Eo by done.
  split; rewrite ?Eo; clearbody objs; cbn [with_channel id_counter tasks roots].
  - intros j o [[-> ->]|[[-> ->]|Hj]]%Hinv.
    + split; [by intros ? ?%elem_of_nil|]. split; [constructor|]. intros p o' [= <-]. rewrite Hob. intros [= <-]. by eexists.
    + split; [by intros ? ?%elem_of_nil|]. split; [constructor|]. intros p o' [= <-]. rewrite Hoa. intros [= <-]. by eexists.
    + destruct (Ho j o Hj) as [Hc Hch]. split; [eauto|]. destruct o as [c| | |]; [|done..].
      destruct Hch as [Hm Hp]. split; [done|]. intros p o' Hpo Ho'.
      specialize (Hpeer j c p Hj Hpo). apply Hinv in Ho' as [[-> _]|[[-> _]|?]]; [unfold a in Hpeer; lia|unfold b in Hpeer; lia|].
      by eapply Hp.
  - apply map_Forall_insert_2.
    + destruct Htk as (Hh & Hn & Hm). split_and!.
      * intros h id. simpl. intros [[_ <-]|[_ [[_ <-]|[_ ?]]%lookup_insert_Some]]%lookup_insert_Some; eauto.
      * simpl. apply Z.mod_pos_bound. lia.
      * apply write_mem_ok; [apply to_le_bytes_ok|done].
    + intros t' task' Ht'. destruct (Ht t' task' Ht') as (Hh & ? & ?). split; [|done]. eauto.
  - eauto.
  - intros j [o [[-> _]|[[-> _]|Hj]]%Hinv]; [unfold a; lia|unfold b; lia|].
    specialize (Hi j (mk_is_Some _ _ Hj)). lia.
  - intros j c p [[-> [= ->]]|[[-> [= ->]]|Hj]]%Hinv Hp; simpl in Hp.
    + injection Hp as <-. unfold b. lia.
    + injection Hp as <-. unfold a. lia.
    + specialize (Hpeer j c p Hj Hp). lia.
Qed.
