(* ===== verification/MemoryCalls.v ===== *)
(** * [kernel/src/syscall/mod.rs]: the system calls on memory objects

    [create_memory_object], [map_memory_object] and [resize_memory_object], on the
    handle tables of [Kernel], the memory objects and address spaces of
    [AddressSpace], and any page tables and frame source behind the interfaces.
    Memory objects and address spaces are stored by the ids the handle tables hold;
    [tables] gives the page tables of each address space.

    The theorems are about the tasks of one address space, the one whose page
    tables satisfy [PageTableSpec]: what each call does to it, and that through any
    sequence of calls every byte the address space reaches belongs to exactly one
    memory object or was reachable before, and never to a page table or to free
    memory.  What of a task's own memory the kernel may write an address to is the
    task's [memory], as in [Kernel]; that a mapping adds to it is not followed. *)

From stdpp Require Import base tactics option list numbers gmap.
From S2P Require Import Prelude Bytes Crates Effects Mulch Memory Mapper TableMemory AddressSpace.
From S2P Require Import FrameAllocator Pmm PageTable RiscvPaging RiscvCorrect KernelMemory Kernel KernelCorrect.

Inductive CreateMemoryObjectError := InvalidFlags | InvalidSize | InvalidPhysicalAddressPointer.
Inductive ResizeMemoryObjectError :=
  | RM_InvalidMemoryObjectHandle | NewSizeTooBig | ResizedObjectCannotBeRemapped.

(** [MemoryObjectFlags]. *)
Definition MO_WRITABLE : Z := 1 ≪ 0.
Definition MO_EXECUTABLE : Z := 1 ≪ 1.
Definition MO_ALL : Z := Z.lor MO_WRITABLE MO_EXECUTABLE.

(** ** The state *)

Record MemoryState (St : Type) := mkMemoryState {
  ms_kernel : Kernel;
  memory_objects : gmap Z MemoryObject;
  address_spaces : gmap Z AddressSpace;
  (** [Task::address_space]. *)
  task_space : gmap Z Z;
  (** The page tables and [PMM]. *)
  ms_pages : St;
}.
Arguments mkMemoryState {St}.
Arguments ms_kernel {St}.
Arguments memory_objects {St}.
Arguments address_spaces {St}.
Arguments task_space {St}.
Arguments ms_pages {St}.

(** [mappings.iter().find(|(_, object)| object.id == id)]: the lowest address the
    object is mapped at. *)
Definition find_mapping (ms : gmap Z Z) (id : Z) : option Z :=
  foldr (fun e best =>
    if e.2 =? id then Some (match best with None => e.1 | Some b => Z.min e.1 b end) else best) None (map_to_list ms).

Section code.
Context {St : Type} `{FrameSource St} `{BitFlags} (tgt : target) (tables : Z -> PageTable St).
Context {E : Type}.
Abbreviation MM := (M (MemoryState St)).

Definition in_kernel {A} (f : M Kernel E A) : MM E A := fun s =>
  match f (ms_kernel s) with
  | Val (r, k) => Val (r, mkMemoryState k (memory_objects s) (address_spaces s) (task_space s) (ms_pages s))
  | Panic => Panic
  end.

(** An operation on the page tables and the memory manager. *)
Definition in_pages {A} (f : St -> outcome (A * St)) : MM E A := fun s =>
  match f (ms_pages s) with
  | Val (a, p) => Val (Ok a, mkMemoryState (ms_kernel s) (memory_objects s) (address_spaces s) (task_space s) p)
  | Panic => Panic
  end.

Definition put_memory_object (id : Z) (o : MemoryObject) : MM E unit :=
  modify (fun s => mkMemoryState (ms_kernel s) (<[id := o]> (memory_objects s)) (address_spaces s) (task_space s) (ms_pages s)).

Definition put_address_space (id : Z) (a : AddressSpace) : MM E unit :=
  modify (fun s => mkMemoryState (ms_kernel s) (memory_objects s) (<[id := a]> (address_spaces s)) (task_space s) (ms_pages s)).

(** [task.handles.get(handle).ok_or(e)?.downcast_arc::<MemoryObject>().ok().ok_or(e)?]. *)
Definition get_memory_object (t handle : Z) (e : E) : MM E (Z * MemoryObject) :=
  h ← in_kernel (handles_get t handle);
  id ← ok_or h e;
  objs ← gets memory_objects;
  o ← ok_or (objs !! id) e;
  mret (id, o).

(** The same for an [AddressSpace]. *)
Definition get_address_space (t handle : Z) (e : E) : MM E (Z * AddressSpace) :=
  h ← in_kernel (handles_get t handle);
  id ← ok_or h e;
  spaces ← gets address_spaces;
  a ← ok_or (spaces !! id) e;
  mret (id, a).

(** [task.address_space]. *)
Definition own_address_space (t : Z) : MM E (Z * AddressSpace) :=
  s ← get;
  id ← lift (unwrap (task_space s !! t));
  a ← lift (unwrap (address_spaces s !! id));
  mret (id, a).

(** [MemoryObject::new]: an id from the counter, and the object in the store. *)
Definition new_memory_object (physical_start size : Z) (flags : Flags) : MM E Z :=
  id ← in_kernel alloc_kernel_object_id;
  in_kernel (put_object id (OtherObject TMemoryObject)) ;;
  put_memory_object id (MemoryObject_new physical_start size flags) ;;
  mret id.

(** [address_space.map_memory_object(..)]. *)
Definition map_into (e : MapMemoryObjectError -> E) (space : Z * AddressSpace) (id : Z) (o : MemoryObject) (virtual_address : Z) :
    MM E unit :=
  r ← in_pages (fun st =>
        '(r, (a, st)) ← AddressSpace.map_memory_object (H := tables space.1) tgt space.2 st id o virtual_address;
        mret (r, a, st));
  match r with
  | (Ok _, a) => put_address_space space.1 a
  | (Err err, a) => put_address_space space.1 a ;; fail (e err)
  end.

End code.

Section calls.
Context {St : Type} `{FrameSource St} `{BitFlags} (tgt : target) (tables : Z -> PageTable St).
Abbreviation MM := (M (MemoryState St)).

Definition create_memory_object (t size flags physical_address_ptr : Z) : MM CreateMemoryObjectError Z :=
  size ← lift (Math.align_up 64 size (SIZE Size4KiB));
  let flags := from_bits_truncate MO_ALL (flags mod 2 ^ 32) in
  r ← lift (urem size (SIZE Size4KiB));
  lift (rassert (r =? 0)) ;;
  count ← lift (udiv size (SIZE Size4KiB));
  physical_start ← in_pages (fun st => take_frames st count);
  id ← new_memory_object physical_start size
         (mkFlags (flags_contain flags MO_WRITABLE) (flags_contain flags MO_EXECUTABLE) true true);
  (if negb (physical_address_ptr =? 0)
   then in_kernel (user_write t physical_address_ptr (to_le_bytes 8 physical_start))
   else mret tt) ;;
  in_kernel (handles_add t id).

(** No address is ever written to [address_ptr]: the branch that would choose one
    is not implemented. *)
Definition map_memory_object (t memory_object_handle address_space_handle virtual_address address_ptr : Z) :
    MM MapMemoryObjectError unit :=
  memory_object_handle ← ok_or (handle_try_from memory_object_handle) InvalidMemoryObjectHandle;
  address_space_handle ← ok_or (handle_try_from address_space_handle) InvalidAddressSpaceHandle;
  '(id, o) ← get_memory_object t memory_object_handle InvalidMemoryObjectHandle;
  '(virtual_address, write_to_ptr) ←
    (if virtual_address =? 0 then panic else mret (VAddr.new tgt virtual_address, false));
  (if address_space_handle =? 0 then
     space ← own_address_space t;
     map_into tgt tables (fun e => e) space id o virtual_address
   else
     space ← get_address_space t address_space_handle InvalidAddressSpaceHandle;
     map_into tgt tables (fun e => e) space id o virtual_address) ;;
  (if write_to_ptr && negb (address_ptr =? 0)
   then in_kernel (user_write t address_ptr (to_le_bytes 8 virtual_address))
   else mret tt).

Definition resize_memory_object (t memory_object_handle new_size : Z) : MM ResizeMemoryObjectError unit :=
  memory_object_handle ← ok_or (handle_try_from memory_object_handle) RM_InvalidMemoryObjectHandle;
  '(id, o) ← get_memory_object t memory_object_handle RM_InvalidMemoryObjectHandle;
  let old_size := mo_size o in
  if new_size >? old_size then
    more ← lift (usub new_size old_size);
    extend_by ← lift (Math.align_up 64 more (SIZE Size4KiB));
    count ← lift (udiv extend_by (SIZE Size4KiB));
    new_backing ← in_pages (fun st => take_frames st count);
    o ← lift (extend o extend_by new_backing);
    put_memory_object id o ;;
    '(space, a) ← own_address_space t;
    match find_mapping (mappings a) id with
    | None => mret tt
    | Some virtual_addr =>
        new_virtual ← lift (VAddr.add tgt virtual_addr old_size);
        r ← in_pages (fun st => map_area (H := tables space) tgt st new_virtual new_backing extend_by (mo_flags o));
        match r with
        | Ok _ => mret tt
        | Err _ => fail ResizedObjectCannotBeRemapped
        end
    end
  else if new_size <? old_size then panic
  else mret tt.

End calls.

(** ** The lowest mapping of an object *)

Lemma find_mapping_spec ms id :
  match find_mapping ms id with
  | Some v => ms !! v = Some id /\ forall v', ms !! v' = Some id -> v <= v'
  | None => forall v, ms !! v <> Some id
  end.
Proof.
  unfold find_mapping.
  assert (forall l : list (Z * Z),
    match foldr (fun e best => if e.2 =? id then Some (match best with None => e.1 | Some b => Z.min e.1 b end) else best)
            None l with
    | Some v => (v, id) ∈ l /\ forall v', (v', id) ∈ l -> v <= v'
    | None => forall v, (v, id) ∉ l
    end) as Hl.
  { induction l as [|[w j] l IH]; cbn [foldr fst snd]; [intros v; apply not_elem_of_nil|].
    destruct (Z.eqb_spec j id) as [->|].
    - destruct (foldr _ None l) as [b|].
      + destruct IH as [Hb Hmin]. split.
        * destruct (Z.min_spec w b) as [[_ ->]|[_ ->]]; [by left|by right].
        * intros v' [[= ->]|Hv']%elem_of_cons; [lia|]. specialize (Hmin v' Hv'). lia.
      + split; [by left|]. intros v' [[= ->]|Hv']%elem_of_cons; [lia|by apply IH in Hv'].
    - destruct (foldr _ None l) as [b|].
      + destruct IH as [Hb Hmin]. split; [by right|]. intros v' [[= ??]|Hv']%elem_of_cons; [done|auto].
      + intros v [[= ??]|Hv]%elem_of_cons; [done|by apply IH in Hv]. }
  specialize (Hl (map_to_list ms)). destruct (foldr _ None _) as [v|].
  - destruct Hl as [Hv Hmin]. split; [by apply elem_of_map_to_list|].
    intros v' Hv'. by apply Hmin, elem_of_map_to_list.
  - intros v Hv. by eapply Hl, elem_of_map_to_list.
Qed.

(** ** Arithmetic and bytes of objects *)

Lemma align_up_page n r :
  is_usize n -> Math.align_up 64 n (SIZE Size4KiB) = Val r -> n <= r < n + 4096 /\ (4096 | r) /\ 0 <= r < 2 ^ 64.
Proof.
  intros Hn E. change (SIZE Size4KiB) with (2 ^ 12) in E.
  destruct (decide (n + 2 ^ 12 < 2 ^ 64)) as [Hlt|Hge].
  - pose proof (Math.align_up_least 64 n 12 Hn ltac:(lia) Hlt) as Hs. rewrite E in Hs.
    destruct Hs as (Hd & Hr & _). unfold is_unsigned in Hn. split_and!; [lia|lia|done|lia|lia].
  - exfalso. unfold Math.align_up in E. simpl (2 ^ 12 =? 0) in E. cbv iota in E. outcome_inv.
    unfold is_unsigned in *. lia.
Qed.

Lemma page_count n : 0 <= n < 2 ^ 64 -> (4096 | n) -> 0 <= n / 4096 <= 2 ^ 52 /\ n / 4096 * 4096 = n.
Proof.
  intros Hn [q ->]. rewrite Z.div_mul by done. lia.
Qed.

(** The id's object holds the physical byte [p] at the offset [off]. *)
Definition object_at (objs : gmap Z MemoryObject) (id off p : Z) : Prop :=
  exists o, objs !! id = Some o /\ 0 <= off /\ object_byte (backing o) off = Some p.

Lemma object_at_insert objs i o id off p :
  object_at (<[i := o]> objs) id off p <->
  (id = i /\ 0 <= off /\ object_byte (backing o) off = Some p) \/ (id <> i /\ object_at objs id off p).
Proof.
  unfold object_at. setoid_rewrite lookup_insert_Some. split.
  - intros (o' & [[-> ->]|[Hne Ho]] & Hoff & Hb); [by left|right]. split; [done|]. by exists o'.
  - intros [(-> & Hoff & Hb)|(Hne & o' & Ho & Hoff & Hb)]; [by exists o; auto|]. exists o'. auto.
Qed.

(** ** The calls, evaluated *)

Section evaluation.
Context {St : Type} `{FrameSource St} `{BitFlags} (tgt : target) (tables : Z -> PageTable St).
Implicit Type s : MemoryState St.

(** The object behind a handle of a task. *)
Definition handle_object s (t h : Z) : option (Z * MemoryObject) :=
  task ← tasks (ms_kernel s) !! t;
  id ← handles task !! h;
  o ← memory_objects s !! id;
  Some (id, o).

Lemma handle_object_stored s t h id o :
  handle_try_from h ≫= handle_object s t = Some (id, o) -> memory_objects s !! id = Some o.
Proof.
  intros (h' & _ & Eh)%bind_Some. unfold handle_object in Eh.
  repeat (apply bind_Some in Eh as (? & ? & Eh)). by simplify_eq.
Qed.

Lemma get_memory_object_eq {E} s t h (e : E) task :
  tasks (ms_kernel s) !! t = Some task ->
  get_memory_object t h e s = Val (match handle_object s t h with Some r => Ok r | None => Err e end, s).
Proof.
  intros Ht. unfold handle_object. rewrite Ht. unfold get_memory_object. rewrite M_bind_eq. unfold in_kernel.
  rewrite (handles_get_eq _ _ _ _ Ht). destruct s as [k objs spaces ts st]. simpl.
  destruct (handles task !! h) as [id|]; [|done]. simpl. do 2 (rewrite M_bind_eq; simpl). by destruct (objs !! id).
Qed.

Lemma own_address_space_eq {E} s t id a :
  task_space s !! t = Some id -> address_spaces s !! id = Some a ->
  own_address_space (E := E) t s = Val (Ok (id, a), s).
Proof.
  intros Ht Ha. unfold own_address_space. rewrite M_bind_eq. simpl. rewrite Ht, M_bind_eq. unfold lift at 1. simpl.
  by rewrite Ha.
Qed.

(** A state with other page tables, and one with other objects. *)
Definition with_pages s (st : St) : MemoryState St :=
  mkMemoryState (ms_kernel s) (memory_objects s) (address_spaces s) (task_space s) st.
Definition with_object s (id : Z) (o : MemoryObject) : MemoryState St :=
  mkMemoryState (ms_kernel s) (<[id := o]> (memory_objects s)) (address_spaces s) (task_space s) (ms_pages s).

(** What [resize_memory_object] does to an object that has to grow by [n] bytes. *)
Definition grow_ref s (space : Z) (a : AddressSpace) (id : Z) (o : MemoryObject) (n : Z) :
    outcome (result unit ResizeMemoryObjectError * MemoryState St) :=
  '(p, st) ← take_frames (ms_pages s) (n / 4096);
  o' ← extend o n p;
  let s := with_object (with_pages s st) id o' in
  match find_mapping (mappings a) id with
  | None => mret (Ok tt, s)
  | Some virt =>
      v ← VAddr.add tgt virt (mo_size o);
      '(r, st) ← map_area (H := tables space) tgt st v p n (mo_flags o');
      mret (match r with Ok _ => Ok tt | Err _ => Err ResizedObjectCannotBeRemapped end, with_pages s st)
  end.

Lemma resize_memory_object_eq s t task h new_size space a :
  tasks (ms_kernel s) !! t = Some task -> task_space s !! t = Some space -> address_spaces s !! space = Some a ->
  resize_memory_object tgt tables t h new_size s =
    match handle_try_from h ≫= handle_object s t with
    | None => Val (Err RM_InvalidMemoryObjectHandle, s)
    | Some (id, o) =>
        if new_size >? mo_size o then
          more ← usub new_size (mo_size o);
          n ← Math.align_up 64 more (SIZE Size4KiB);
          grow_ref s space a id o n
        else if new_size <? mo_size o then Panic else Val (Ok tt, s)
    end.
Proof.
  intros Ht Hts Ha. unfold resize_memory_object.
  destruct (handle_try_from h) as [h'|]; [|done]. erewrite M_bind_Ok by done. cbn [mbind option_bind].
  rewrite M_bind_eq, (get_memory_object_eq s t h' _ task Ht).
  destruct (handle_object s t h') as [[id o]|]; [|done].
  destruct (new_size >? mo_size o); [|by destruct (new_size <? mo_size o)].
  rewrite M_bind_eq. unfold lift at 1. destruct (usub new_size (mo_size o)) as [more|]; [|done]. obind.
  rewrite M_bind_eq. unfold lift at 1. destruct (Math.align_up 64 more (SIZE Size4KiB)) as [n|]; [|done]. obind.
  erewrite M_bind_Ok by done. rewrite M_bind_eq. unfold in_pages at 1, grow_ref.
  change (SIZE Size4KiB) with 4096.
  destruct (take_frames (ms_pages s) (n / 4096)) as [[p st]|]; [|done]. obind.
  rewrite M_bind_eq. unfold lift at 1. destruct (extend o n p) as [o'|]; [|done]. obind.
  erewrite M_bind_Ok by done. rewrite M_bind_eq, (own_address_space_eq _ t space a) by done.
  destruct (find_mapping (mappings a) id) as [virt|]; [|done].
  rewrite M_bind_eq. unfold lift at 1. destruct (VAddr.add tgt virt (mo_size o)) as [v|]; [|done]. obind.
  rewrite M_bind_eq. unfold in_pages. cbn [ms_pages]. by destruct (map_area _ _ _ _ _ _) as [[[u|e] st2]|].
Qed.

Lemma map_memory_object_eq s t task h va ptr space a :
  tasks (ms_kernel s) !! t = Some task -> task_space s !! t = Some space -> address_spaces s !! space = Some a ->
  va <> 0 ->
  map_memory_object tgt tables t h 0 va ptr s =
    match handle_try_from h ≫= handle_object s t with
    | None => Val (Err InvalidMemoryObjectHandle, s)
    | Some (id, o) =>
        '(r, (a, st)) ← AddressSpace.map_memory_object (H := tables space) tgt a (ms_pages s) id o (VAddr.new tgt va);
        mret (r, mkMemoryState (ms_kernel s) (memory_objects s) (<[space := a]> (address_spaces s)) (task_space s) st)
    end.
Proof.
  intros Ht Hts Ha Hva. unfold map_memory_object.
  destruct (handle_try_from h) as [h'|]; [|done]. do 2 erewrite M_bind_Ok by done. cbn [mbind option_bind].
  rewrite M_bind_eq, (get_memory_object_eq s t h' _ task Ht).
  destruct (handle_object s t h') as [[id o]|]; [|done].
  rewrite (proj2 (Z.eqb_neq va 0) Hva). erewrite M_bind_Ok by done. cbn [Z.eqb].
  rewrite M_bind_eq, M_bind_eq, (own_address_space_eq _ t space a) by done.
  unfold map_into. rewrite M_bind_eq. unfold in_pages. cbn [fst snd].
  by destruct (AddressSpace.map_memory_object _ _ _ _ _ _) as [[[[]|e] [a' st']]|].
Qed.

(** The kernel with a new object [id], a handle to it and its address written. *)
Definition created (k : Kernel) (t : Z) (task : Task) (ptr p : Z) : Kernel :=
  let id := id_counter k in
  let task := if ptr =? 0 then task else store task ptr (to_le_bytes 8 p) in
  set_task (mkKernel (<[id := OtherObject TMemoryObject]> (objects k)) ((id + 1) mod 2 ^ 64) (tasks k) (roots k)) t
    (add_handle task id).

Definition object_flags (flags : Z) : Flags :=
  let flags := from_bits_truncate MO_ALL (flags mod 2 ^ 32) in
  mkFlags (flags_contain flags MO_WRITABLE) (flags_contain flags MO_EXECUTABLE) true true.

Lemma create_memory_object_eq s t task size flags ptr :
  tasks (ms_kernel s) !! t = Some task -> is_usize size ->
  create_memory_object t size flags ptr s =
    (n ← Math.align_up 64 size (SIZE Size4KiB);
     '(p, st) ← take_frames (ms_pages s) (n / 4096);
     rassert ((ptr =? 0) || user_mapped (memory task) ptr 8) ;;
     mret (Ok (next task),
       mkMemoryState (created (ms_kernel s) t task ptr p)
         (<[id_counter (ms_kernel s) := MemoryObject_new p n (object_flags flags)]> (memory_objects s))
         (address_spaces s) (task_space s) st)).
Proof.
  intros Ht Hn. unfold create_memory_object. rewrite M_bind_eq. unfold lift at 1.
  destruct (Math.align_up 64 size (SIZE Size4KiB)) as [n|] eqn:En; [|done].
  destruct (align_up_page size n Hn En) as (_ & Hd & _).
  change (SIZE Size4KiB) with 4096. obind. unfold urem. simpl (4096 =? 0). cbv iota.
  erewrite M_bind_Ok by done. rewrite (proj2 (Z.mod_divide n 4096 ltac:(done)) Hd).
  erewrite M_bind_Ok by done. unfold udiv. simpl (4096 =? 0). cbv iota. erewrite M_bind_Ok by done.
  rewrite M_bind_eq. unfold in_pages. destruct (take_frames (ms_pages s) (n / 4096)) as [[p st]|]; [|done]. obind.
  erewrite M_bind_Ok by done. cbn [ms_kernel memory_objects address_spaces task_space ms_pages].
  unfold created. destruct (ptr =? 0); cbn [negb].
  - erewrite M_bind_Ok by done. unfold in_kernel. by erewrite handles_add_eq.
  - rewrite M_bind_eq. unfold in_kernel at 1. erewrite user_write_eq by done. rewrite length_to_le_bytes.
    change (Z.of_nat 8) with 8. destruct (user_mapped (memory task) ptr 8); [|done]. cbn [ms_kernel]. unfold in_kernel.
    cbn [ms_kernel]. erewrite handles_add_eq by apply lookup_set_task. by rewrite set_task_twice.
Qed.

End evaluation.

Section isolation.
Context (tgt : target) {St : Type} `{PT : PageTable St} `{PS : !PageTableSpec tgt St} `{TM : !TableMemorySpec tgt St}.
Context `{FS : FrameSource St} `{FSS : !FrameSourceSpec tgt St} `{BitFlags}.
Context (Hlim : pts_limit < paddr_limit tgt).

(** The address space [s0] has the page tables at hand. *)
Context (tables : Z -> PageTable St) (s0 : Z) (Hs0 : tables s0 = PT).

(** The invariant: the objects are well formed and hold disjoint memory that is
    neither free nor part of a table, and the address space reaches only what
    [base] maps and bytes of objects. *)
Record memory_ok (base : Z -> option Z) (s : MemoryState St) : Prop := {
  mk_pages : pts_inv (ms_pages s);
  mk_objects : forall id o, memory_objects s !! id = Some o -> AddressSpace.object_ok tgt o;
  mk_ids : forall id o, memory_objects s !! id = Some o -> id < id_counter (ms_kernel s);
  mk_unique : forall id1 off1 id2 off2 p,
    object_at (memory_objects s) id1 off1 p -> object_at (memory_objects s) id2 off2 p ->
    id1 = id2 /\ off1 = off2;
  mk_taken : forall id off p, object_at (memory_objects s) id off p ->
    ~ tm_free (ms_pages s) p /\ ~ tm_table (ms_pages s) p;
  mk_reach : forall v p, vaddr_canonical tgt v -> pts_tr (ms_pages s) v = Some p ->
    base v = Some p \/ exists id off, object_at (memory_objects s) id off p;
}.

(** Nothing but the id counter of the kernel matters. *)
Lemma memory_ok_kernel base s k spaces ts :
  memory_ok base s -> id_counter (ms_kernel s) <= id_counter k ->
  memory_ok base (mkMemoryState k (memory_objects s) spaces ts (ms_pages s)).
Proof. intros [Hp Ho Hi Hu Ht Hr] Hk. split; simpl; auto. intros id o Hid%Hi. lia. Qed.

(** Memory taken for the object [i], which gets the [n] bytes from [p] at the
    offset [off0]. *)
Lemma memory_ok_take base s st' p n objs' i off0 k spaces ts :
  memory_ok base s -> 0 <= n < 2 ^ 64 -> (4096 | n) ->
  take_frames (ms_pages s) (n / 4096) = Val (p, st') ->
  (forall id o, objs' !! id = Some o -> AddressSpace.object_ok tgt o /\ id < id_counter k) ->
  (forall id off q, object_at objs' id off q ->
     object_at (memory_objects s) id off q \/ id = i /\ off = off0 + (q - p) /\ within p n q) ->
  (forall id off q, object_at (memory_objects s) id off q -> object_at objs' id off q) ->
  memory_ok base (mkMemoryState k objs' spaces ts st').
Proof using FSS.
  intros [Hp Ho Hi Hu Ht Hr] Hn Hd Et Hobjs Hnew Hold. destruct (page_count n Hn Hd) as [Hc Hcn].
  apply fs_take in Et as (Hp' & Htr & _ & _ & _ & Hfree & Hsub & Htab); [|done|done]. rewrite Hcn in Hfree.
  assert (forall id off q, object_at (memory_objects s) id off q -> ~ within p n q) as Hout.
  { intros id off q Hq Hin. destruct (Ht _ _ _ Hq) as [Hnf _]. by apply Hnf, Hfree. }
  split; cbn [ms_pages memory_objects ms_kernel]; [done|intros id o Hid; by apply (Hobjs id o)..| | |].
  - intros id1 off1 id2 off2 q [H1|(-> & -> & H1)]%Hnew [H2|(-> & -> & H2)]%Hnew; eauto.
    + by destruct (Hout _ _ _ H1).
    + by destruct (Hout _ _ _ H2).
  - intros id off q [H1|(-> & -> & H1)]%Hnew.
    + destruct (Ht _ _ _ H1) as [Hf Htb]. split; auto.
    + destruct (Hfree q H1) as [Hf Hnf]. split; [done|]. intros Hx%Htab. exact (tm_taken _ _ Hp Hx Hf).
  - intros v q Hv Hq. rewrite Htr in Hq. destruct (Hr v q Hv Hq) as [?|(id & off & ?)]; [by left|right]. eauto.
Qed.

(** Pages mapped to bytes of objects. *)
Lemma memory_ok_map base s st' k spaces ts :
  memory_ok base s -> pts_inv st' -> developed tgt (ms_pages s) st' ->
  id_counter (ms_kernel s) <= id_counter k ->
  (forall v p, vaddr_canonical tgt v -> pts_tr st' v = Some p ->
     pts_tr (ms_pages s) v = Some p \/ exists id off, object_at (memory_objects s) id off p) ->
  memory_ok base (mkMemoryState k (memory_objects s) spaces ts st').
Proof using Type.
  intros [Hp Ho Hi Hu Ht Hr] Hp' [Hf Htab] Hk Htr. split; simpl; auto.
  - intros id o Hid%Hi. lia.
  - intros id off p Hop. destruct (Ht _ _ _ Hop) as [Hnf Hnt]. split; [auto|]. intros [?|?]%Htab; auto.
  - intros v p Hv [Hq|Hq]%Htr; auto.
Qed.

(** *** Creating *)

Lemma object_byte_new p n flags off q :
  0 <= off -> object_byte (backing (MemoryObject_new p n flags)) off = Some q -> off = q - p /\ within p n q.
Proof. simpl. unfold within. intros Hoff. destruct (Z.ltb_spec off n); [|done]. intros [= <-]. lia. Qed.

Lemma create_ok base s t task size flags ptr r s' :
  memory_ok base s -> tasks (ms_kernel s) !! t = Some task -> is_usize size ->
  0 <= id_counter (ms_kernel s) < 2 ^ 64 - 1 ->
  create_memory_object t size flags ptr s = Val (r, s') -> memory_ok base s'.
Proof using FSS.
  intros Hok Ht Hsize Hid. rewrite (create_memory_object_eq s t task) by done. intros E. outcome_inv.
  destruct a0 as [p st]. outcome_inv. simplify_eq. destruct (align_up_page _ _ Hsize Ha) as (_ & Hd & Hn).
  set (k := ms_kernel s) in *. set (id := id_counter k) in *.
  assert (memory_objects s !! id = None) as Hfresh.
  { destruct (memory_objects s !! id) as [o|] eqn:Eo; [|done]. apply (mk_ids _ _ Hok) in Eo. subst id k. lia. }
  assert (id_counter (created k t task ptr p) = id + 1) as Hk.
  { unfold created, set_task. simpl. apply Z.mod_small. subst id k. lia. }
  destruct (page_count a Hn Hd) as [Hc Hcn].
  pose proof (fs_take _ _ _ _ (mk_pages _ _ Hok) Hc Ha0) as (_ & _ & Hdp & Hp0 & Hpl & _).
  eapply (memory_ok_take base s st p a _ id 0 _ _ _ Hok Hn Hd Ha0).
  - intros j o [[<- <-]|[Hne Hj]]%lookup_insert_Some; rewrite Hk.
    + split; [|lia]. apply MemoryObject_new_ok. split_and!; simpl; auto; lia.
    + split; [by apply (mk_objects _ _ Hok j)|]. apply (mk_ids _ _ Hok) in Hj. subst id k. lia.
  - intros j off q [(-> & Hoff & Hb)|[_ Hj]]%object_at_insert; [right|by left].
    apply object_byte_new in Hb as [-> Hin]; [|done]. by split_and!.
  - intros j off q Hj. apply object_at_insert. right. split; [|done]. intros ->.
    destruct Hj as (o & Ho & _). congruence.
Qed.

(** *** Mapping *)

Lemma map_ok base s t task h va ptr a r s' :
  memory_ok base s -> tasks (ms_kernel s) !! t = Some task -> task_space s !! t = Some s0 ->
  address_spaces s !! s0 = Some a -> va <> 0 ->
  (forall id o, handle_try_from h ≫= handle_object s t = Some (id, o) ->
     place_ok tgt (VAddr.new tgt va) (mo_size o)) ->
  map_memory_object tgt tables t h 0 va ptr s = Val (r, s') -> memory_ok base s'.
Proof using FSS Hlim Hs0.
  intros Hok Ht Hts Ha Hva Hplace. rewrite (map_memory_object_eq tgt tables s t task h va ptr s0 a) by done.
  destruct (handle_try_from h ≫= handle_object s t) as [[id o]|] eqn:Eh; [|by intros E; simplify_eq].
  specialize (Hplace id o eq_refl). rewrite Hs0.
  pose proof (handle_object_stored _ _ _ _ _ Eh) as Ho.
  pose proof (mk_objects _ _ Hok id o Ho) as Hoo.
  pose proof (map_memory_object_spec (PS := followed tgt (ms_pages s)) tgt Hlim a (ms_pages s) id o (VAddr.new tgt va)) as Hm.
  specialize (Hm (conj (mk_pages _ _ Hok) (reflexivity _)) Hoo).
  intros E. outcome_inv. destruct a0 as [r0 [a0 st0]]. outcome_inv. simplify_eq.
  rewrite Ha0 in Hm. cbn [returns_unless] in Hm.
  destruct Hm as ([Hi Hd] & _ & Hr); [by destruct Hplace; split|].
  apply (memory_ok_map base s st0); [done|done|done|lia|].
  intros v p Hv Hp.
  assert (exists d, maps_prefix tgt (PS := followed tgt (ms_pages s)) (ms_pages s) st0 (VAddr.new tgt va) (backing o) d)
    as [d Hmd] by (destruct r as [u|e]; [destruct Hr; eauto|destruct Hr as (_ & _ & d & _ & Hd'); eauto]).
  destruct (Hmd v Hv) as [Hin Hout]. destruct (decide (within (VAddr.new tgt va) d v)) as [Hw|Hw].
  - right. destruct (Hin Hw) as [_ E]. exists id, (v - VAddr.new tgt va), o.
    split; [done|]. split; [unfold within in Hw; lia|]. rewrite <- E. exact Hp.
  - left. exact (eq_trans (eq_sym (Hout Hw)) Hp).
Qed.

(** *** Growing *)

(** The object [o] grown by the [n] bytes from [p]. *)
Definition grown (o o' : MemoryObject) (p n : Z) : Prop :=
  mo_size o' = mo_size o + n /\ mo_flags o' = mo_flags o /\
  forall off, 0 <= off ->
    object_byte (backing o') off = if off <? mo_size o then object_byte (backing o) off
                                   else if off <? mo_size o' then Some (p + (off - mo_size o)) else None.

Lemma extend_grown o n p :
  AddressSpace.object_ok tgt o -> region_ok tgt (p, n) -> 0 < n -> mo_size o + n < 2 ^ 64 ->
  extend o n p ⇓ fun o' => AddressSpace.object_ok tgt o' /\ grown o o' p n.
Proof using Type.
  intros Ho Hr Hn Hlt. pose proof (extend_ok tgt o n p Ho Hr Hn Hlt) as He.
  assert (extend o n p ⇓ fun o' => mo_flags o' = mo_flags o) as Hf.
  { unfold extend in *. destruct (rassert _); [|done]. obind. by destruct (uadd _ _). }
  destruct (extend o n p) as [o'|]; [|done]. destruct He as (? & ? & ?). by split_and!.
Qed.

Lemma object_at_size o off p :
  AddressSpace.object_ok tgt o -> 0 <= off -> object_byte (backing o) off = Some p -> off < mo_size o.
Proof using Type.
  intros [Hb ->]. revert off. induction Hb as [|[q m] l (_ & _ & _ & Hm & _) Hl IH]; intros off Hoff; simpl; [done|].
  pose proof (regions_size_nonneg tgt l Hl).
  simpl in Hm. destruct (Z.ltb_spec off m); intros Hp; [lia|]. apply IH in Hp; lia.
Qed.

(** Taking the memory and extending the object. *)
Lemma take_extend_ok base s id o n p st' :
  memory_ok base s -> memory_objects s !! id = Some o -> 0 < n -> (4096 | n) -> mo_size o + n < 2 ^ 64 ->
  take_frames (ms_pages s) (n / 4096) = Val (p, st') ->
  extend o n p ⇓ fun o' =>
    AddressSpace.object_ok tgt o' /\ grown o o' p n /\ region_ok tgt (p, n) /\
    memory_ok base (with_object (with_pages s st') id o').
Proof using FSS.
  intros Hok Ho Hn Hd Hlt Et. pose proof (mk_objects _ _ Hok id o Ho) as Hoo.
  assert (0 <= mo_size o) as Hs0' by (destruct Hoo as [Hb ->]; by apply (regions_size_nonneg tgt)).
  destruct (page_count n ltac:(lia) Hd) as [Hc Hcn].
  pose proof (fs_take _ _ _ _ (mk_pages _ _ Hok) Hc Et) as (_ & _ & Hdp & Hp0 & Hpl & _). rewrite Hcn in Hpl.
  assert (region_ok tgt (p, n)) as Hr by (split_and!; simpl; auto; lia).
  eapply returns_weaken; [by apply extend_grown|]. intros o' [Ho' Hg]. split_and!; auto.
  pose proof Hg as (Hsize & _ & Hbytes).
  assert (forall off q, 0 <= off -> object_byte (backing o) off = Some q -> object_byte (backing o') off = Some q) as Hkeep.
  { intros off q Hoff Hq. pose proof (object_at_size o off q Hoo Hoff Hq). rewrite Hbytes by done.
    by replace (off <? mo_size o) with true by lia. }
  eapply (memory_ok_take base s st' p n _ id (mo_size o) _ _ _ Hok ltac:(lia) Hd Et).
  - intros j x [[<- <-]|[Hne Hj]]%lookup_insert_Some.
    + split; [done|]. by apply (mk_ids _ _ Hok id o).
    + split; [by apply (mk_objects _ _ Hok j)|by apply (mk_ids _ _ Hok j x)].
  - intros j off q [(-> & Hoff & Hb)|[_ Hj]]%object_at_insert; [|by left]. rewrite Hbytes in Hb by done.
    destruct (Z.ltb_spec off (mo_size o)); [left; by exists o|].
    destruct (Z.ltb_spec off (mo_size o')); [|done]. right. simplify_eq. unfold within. split_and!; lia.
  - intros j off q (x & Hx & Hoff & Hb). apply object_at_insert. destruct (decide (j = id)) as [->|]; [left|right].
    + rewrite Ho in Hx. injection Hx as <-. auto.
    + split; [done|]. by exists x.
Qed.

(** What a grown object's mapping at [virt] covers after [d] more bytes. *)
Definition mapped_more (st st' : St) (virt : Z) (o o' : MemoryObject) (d : Z) : Prop :=
  forall v, vaddr_canonical tgt v ->
    (within (virt + mo_size o) d v -> pts_tr st v = None /\ pts_tr st' v = object_byte (backing o') (v - virt)) /\
    (~ within (virt + mo_size o) d v -> pts_tr st' v = pts_tr st v).

Lemma maps_bytes_more st st1 st' virt o o' p n d :
  (forall v, pts_tr st1 v = pts_tr st v) -> 0 <= mo_size o -> grown o o' p n -> d <= n ->
  maps_bytes tgt st1 st' (virt + mo_size o) p d -> mapped_more st st' virt o o' d.
Proof using Type.
  intros Htr Hs (Hsize & _ & Hb) Hd Hm v Hv. destruct (Hm v Hv) as [Hin Hout]. unfold within in *. split.
  - intros Hw. destruct (Hin Hw) as [Hnone ->]. rewrite <- Htr. split; [done|]. rewrite Hb by lia.
    replace (v - virt <? mo_size o) with false by lia. replace (v - virt <? mo_size o') with true by lia. f_equal. lia.
  - intros Hw. by rewrite Hout, Htr.
Qed.

Definition grow_post (base : Z -> option Z) (s : MemoryState St) (a : AddressSpace) (id : Z) (o : MemoryObject) (n : Z)
    (res : result unit ResizeMemoryObjectError * MemoryState St) : Prop :=
  let '(r, s') := res in
  memory_ok base s' /\ ms_kernel s' = ms_kernel s /\ address_spaces s' = address_spaces s /\
  exists p o', memory_objects s' = <[id := o']> (memory_objects s) /\ grown o o' p n /\
    (forall x, within p n x -> tm_free (ms_pages s) x) /\
    ((forall virt, mappings a !! virt <> Some id) /\
       r = Ok tt /\ (forall v, pts_tr (ms_pages s') v = pts_tr (ms_pages s) v) \/
     exists virt d, mappings a !! virt = Some id /\ (forall virt', mappings a !! virt' = Some id -> virt <= virt') /\
       mapped_more (ms_pages s) (ms_pages s') virt o o' d /\
       (r = Ok tt /\ d = n \/ r = Err ResizedObjectCannotBeRemapped /\ 0 <= d < n)).

Lemma grow_spec base s a id o n :
  memory_ok base s -> memory_objects s !! id = Some o -> 0 < n -> (4096 | n) -> mo_size o + n < 2 ^ 64 ->
  (forall virt, find_mapping (mappings a) id = Some virt -> place_ok tgt virt (mo_size o + n)) ->
  grow_ref tgt tables s s0 a id o n ⇓{~ fs_room (n / 4096) (small_pages n) (ms_pages s)} grow_post base s a id o n.
Proof using FSS Hlim Hs0.
  intros Hok Ho Hn Hd Hlt Hplace. unfold grow_ref. rewrite Hs0.
  pose proof (fs_enough (ms_pages s) (n / 4096) (small_pages n) (mk_pages _ _ Hok)) as Hen.
  destruct (take_frames (ms_pages s) (n / 4096)) as [[p st1]|] eqn:Et; [|by intros ?%Hen]. obind. simpl in Hen.
  pose proof (take_extend_ok base s id o n p st1 Hok Ho Hn Hd Hlt Et) as He.
  destruct (extend o n p) as [o'|]; [|done]. destruct He as (Ho' & Hg & Hr & Hok1). obind.
  pose proof (mk_objects _ _ Hok id o Ho) as Hoo.
  assert (0 <= mo_size o) as Hsz by (destruct Hoo as [Hb ->]; by apply (regions_size_nonneg tgt)).
  destruct (page_count n ltac:(lia) Hd) as [Hc Hcn].
  pose proof (fs_take _ _ _ _ (mk_pages _ _ Hok) Hc Et) as (Hp1 & Htr & Hdp & Hp0 & Hpl & Hfree & _).
  rewrite Hcn in Hpl, Hfree.
  assert (forall x, within p n x -> tm_free (ms_pages s) x) as Hfr by (intros x Hx; by apply Hfree).
  pose proof (find_mapping_spec (mappings a) id) as Hfind.
  destruct (find_mapping (mappings a) id) as [virt|] eqn:Em.
  2:{ simpl. split_and!; auto. exists p, o'. split_and!; auto. }
  destruct (Hplace virt eq_refl) as [Hal Hcan [Ht1 Ht2]].
  assert ((4096 | mo_size o)) as Hdo.
  { destruct Hoo as [Hb ->]. clear -Hb. induction Hb as [|[q m] l (_ & Hm & _) _ IH]; simpl in *;
      [by exists 0|by apply Z.divide_add_r]. }
  rewrite vaddr_add_in by (apply Hcan; lia). obind.
  eapply returns_unless_bind.
  { apply (map_area_developed tgt st1 (virt + mo_size o) p n (mo_flags o')); auto; try lia.
    - by apply Z.divide_add_r.
    - split; [intros v Hv; apply Hcan; lia|lia|lia]. }
  { intros Hns Hroom. by apply Hns, Hen. }
  intros [r st2] [(Hp2 & _ & Hm) Hdev].
  assert (exists d, maps_bytes tgt st1 st2 (virt + mo_size o) p d /\ d <= n /\
    match r with Ok _ => d = n | Err _ => 0 <= d < n end) as (d & Hmd & Hdn & Hrd).
  { destruct r as [u|e]; [exists n; split_and!; [done|lia|done]|].
    destruct Hm as (d & Hd' & Hm). exists d. split_and!; [done|lia..]. }
  simpl. pose proof (maps_bytes_more _ _ _ _ _ _ _ _ d Htr Hsz Hg Hdn Hmd) as Hmore.
  split; [|split_and!; [done..|]].
  - apply (memory_ok_map base (with_object (with_pages s st1) id o') st2); [done|done|done|done|].
    simpl. intros v q Hv Hq. destruct (Hmore v Hv) as [Hin Hout].
    destruct (decide (within (virt + mo_size o) d v)) as [Hw|Hw].
    + right. exists id, (v - virt), o'. rewrite lookup_insert_eq. destruct (Hin Hw) as [_ E].
      split; [done|]. split; [unfold within in Hw; lia|]. by rewrite <- E.
    + left. rewrite Htr, <- (Hout Hw). done.
  - exists p, o'. split_and!; auto. right. exists virt, d. split_and!; [apply Hfind..|done|].
    destruct r as [[]|e]; [by left|by right].
Qed.

(** The next multiple of the page size. *)
Definition page_up (n : Z) : Z := (n + 4095) / 4096 * 4096.

Lemma align_up_page_up n : 0 <= n < 2 ^ 64 - 4096 -> Math.align_up 64 n (SIZE Size4KiB) = Val (page_up n).
Proof.
  intros Hn. change (SIZE Size4KiB) with (2 ^ 12). rewrite Math.align_up_pow2 by (unfold is_unsigned; lia).
  f_equal. unfold page_up. rewrite (Z.div_mod (n + 2 ^ 12 - 1) (2 ^ 12)) at 1 by done.
  replace (n + 2 ^ 12 - 1) with (n + 4095) by lia. change (2 ^ 12) with 4096. lia.
Qed.

Lemma page_up_spec n : n <= page_up n < n + 4096 /\ (4096 | page_up n).
Proof.
  unfold page_up. split; [|apply Z.divide_factor_r].
  pose proof (Z.div_mod (n + 4095) 4096 ltac:(done)). pose proof (Z.mod_pos_bound (n + 4095) 4096 ltac:(done)). lia.
Qed.


(** *** Sequences of calls *)

(** A call of a task of the address space that returns; the addresses it maps are
    canonical and do not wrap around. *)
Inductive call_step (s : MemoryState St) : MemoryState St -> Prop :=
  | step_create t task size flags ptr r s' :
      tasks (ms_kernel s) !! t = Some task -> is_usize size ->
      0 <= id_counter (ms_kernel s) < 2 ^ 64 - 1 ->
      create_memory_object t size flags ptr s = Val (r, s') -> call_step s s'
  | step_map t task h va ptr a r s' :
      tasks (ms_kernel s) !! t = Some task -> task_space s !! t = Some s0 -> address_spaces s !! s0 = Some a ->
      va <> 0 ->
      (forall id o, handle_try_from h ≫= handle_object s t = Some (id, o) ->
         place_ok tgt (VAddr.new tgt va) (mo_size o)) ->
      map_memory_object tgt tables t h 0 va ptr s = Val (r, s') -> call_step s s'
  | step_resize t task h new_size a r s' :
      tasks (ms_kernel s) !! t = Some task -> task_space s !! t = Some s0 -> address_spaces s !! s0 = Some a ->
      is_usize new_size -> new_size < 2 ^ 64 - 8192 ->
      (forall id o virt, handle_try_from h ≫= handle_object s t = Some (id, o) -> mappings a !! virt = Some id ->
         place_ok tgt virt (mo_size o + page_up (new_size - mo_size o))) ->
      resize_memory_object tgt tables t h new_size s = Val (r, s') -> call_step s s'.

Lemma resize_ok base s t task h new_size a r s' :
  memory_ok base s -> tasks (ms_kernel s) !! t = Some task -> task_space s !! t = Some s0 ->
  address_spaces s !! s0 = Some a -> new_size < 2 ^ 64 - 8192 ->
  (forall id o virt, handle_try_from h ≫= handle_object s t = Some (id, o) -> mappings a !! virt = Some id ->
     place_ok tgt virt (mo_size o + page_up (new_size - mo_size o))) ->
  resize_memory_object tgt tables t h new_size s = Val (r, s') -> memory_ok base s'.
Proof using FSS Hlim Hs0.
  intros Hok Ht Hts Ha Hnew Hplace. rewrite (resize_memory_object_eq tgt tables s t task h new_size s0 a) by done.
  destruct (handle_try_from h ≫= handle_object s t) as [[id o]|] eqn:Eh; [|by intros E; simplify_eq].
  pose proof (handle_object_stored _ _ _ _ _ Eh) as Ho. pose proof (mk_objects _ _ Hok id o Ho) as Hoo.
  assert (0 <= mo_size o) as Hsz by (destruct Hoo as [Hb ->]; by apply (regions_size_nonneg tgt)).
  destruct (Z.gtb_spec new_size (mo_size o)); [|destruct (_ <? _); intros E; by simplify_eq].
  destruct (page_up_spec (new_size - mo_size o)) as [Hup Hd].
  rewrite wsub_in by (unfold is_unsigned; lia). obind. rewrite align_up_page_up by lia. obind.
  pose proof (grow_spec base s a id o (page_up (new_size - mo_size o)) Hok Ho) as Hg.
  intros E. rewrite E in Hg. apply Hg; auto; try lia.
  intros virt Hv. apply (Hplace id o virt eq_refl). pose proof (find_mapping_spec (mappings a) id) as Hf.
  rewrite Hv in Hf. apply Hf.
Qed.

Lemma call_step_ok base s s' : memory_ok base s -> call_step s s' -> memory_ok base s'.
Proof using FSS Hlim Hs0.
  intros Hok Hstep. destruct Hstep; [by eapply create_ok|by eapply map_ok|by eapply resize_ok].
Qed.

(** C5: Memory isolation: after any sequence of calls that create, map and resize
    memory objects, failed calls included, every address that was not mapped
    before translates, if at all, to a byte of exactly one memory object, at
    exactly one offset of it, and never to free memory or to a page table. *)
Theorem memory_calls_isolated s s' v p
  (Hok : memory_ok (pts_tr (ms_pages s)) s) (Hcalls : rtc call_step s s')
  (Hv : vaddr_canonical tgt v) (Hbefore : pts_tr (ms_pages s) v = None) (Htr : pts_tr (ms_pages s') v = Some p) :
  ~ tm_free (ms_pages s') p /\ ~ tm_table (ms_pages s') p /\
  exists id off, object_at (memory_objects s') id off p /\
    forall id' off', object_at (memory_objects s') id' off' p -> id' = id /\ off' = off.
Proof using FSS Hlim Hs0.
  assert (memory_ok (pts_tr (ms_pages s)) s') as Hok'.
  { clear v p Hv Hbefore Htr. revert Hok. generalize (pts_tr (ms_pages s)) as base. intros base Hok.
    induction Hcalls; eauto using call_step_ok. }
  destruct (mk_reach _ _ Hok' v p Hv Htr) as [?|(id & off & Hat)]; [congruence|].
  destruct (mk_taken _ _ Hok' id off p Hat). split_and!; [done..|]. exists id, off. split; [done|].
  intros id' off' Hat'. by eapply (mk_unique _ _ Hok').
Qed.

End isolation.

(** ** Calls that panic *)

Section panics.
Context {St : Type} `{PT : PageTable St} `{FS : FrameSource St} `{BitFlags} (tgt : target) (tables : Z -> PageTable St).
Implicit Type s : MemoryState St.

(** Shrinking an object is not implemented. *)
Lemma shrink_panics s t task h id o new_size space a :
  tasks (ms_kernel s) !! t = Some task -> task_space s !! t = Some space -> address_spaces s !! space = Some a ->
  handle_try_from h ≫= handle_object s t = Some (id, o) -> new_size < mo_size o ->
  resize_memory_object tgt tables t h new_size s = Panic.
Proof using Type.
  intros Ht Hts Ha Hh Hlt. rewrite (resize_memory_object_eq tgt tables s t task h new_size space a), Hh by done.
  replace (new_size >? mo_size o) with false by lia. by replace (new_size <? mo_size o) with true by lia.
Qed.

(** Neither is choosing the address. *)
Lemma map_anywhere_panics s t task h ash ptr id o h' :
  tasks (ms_kernel s) !! t = Some task -> handle_try_from ash = Some h' ->
  handle_try_from h ≫= handle_object s t = Some (id, o) ->
  map_memory_object tgt tables t h ash 0 ptr s = Panic.
Proof using Type.
  intros Ht Hash Hh. unfold map_memory_object. destruct (handle_try_from h) as [h0|]; [|done].
  rewrite Hash. do 2 erewrite M_bind_Ok by done. simpl in Hh.
  by rewrite M_bind_eq, (get_memory_object_eq s t h0 _ task Ht), Hh.
Qed.

(** An address that is not page aligned fails an assertion of the page tables. *)
Lemma map_unaligned_panics s t task h va ptr id o space a :
  tasks (ms_kernel s) !! t = Some task -> task_space s !! t = Some space -> address_spaces s !! space = Some a ->
  handle_try_from h ≫= handle_object s t = Some (id, o) -> backing o <> [] ->
  va <> 0 -> VAddr.new tgt va mod 4096 <> 0 ->
  map_memory_object tgt tables t h 0 va ptr s = Panic.
Proof using Type.
  intros Ht Hts Ha Hh Hb Hva Hmod. rewrite (map_memory_object_eq tgt tables s t task h va ptr space a), Hh by done.
  unfold AddressSpace.map_memory_object. destruct (backing o) as [|[p n] l]; [done|]. cbn [map_backing].
  unfold map_area. rewrite (vis_aligned_Val (VAddr.new tgt va) Size4KiB). obind. 
  change (VAddr.new tgt va mod SIZE Size4KiB) with (VAddr.new tgt va mod 4096). by rewrite (proj2 (Z.eqb_neq _ 0) Hmod).
Qed.

End panics.

(** ** A task that creates, maps and grows an object *)

Module CallsExample.

#[local] Existing Instance reference_bit_flags.
#[local] Existing Instance MemoryExample.pages.
#[local] Existing Instance MemoryExample.pages_spec.
#[local] Existing Instance MemoryExample.pages_memory.
#[local] Existing Instance MemoryExample.frames.
#[local] Existing Instance MemoryExample.frames_spec.

Abbreviation State := (MemoryState (Machine * Pmm.Pmm)).
Definition tables : Z -> PageTable (Machine * Pmm.Pmm) := fun _ => MemoryExample.pages.

(** The task 1 of the address space 9. *)
Definition start : State :=
  mkMemoryState (mkKernel ∅ 20 {[1 := mkTask ∅ 1 ∅]} []) ∅ {[9 := AddressSpace_new]} {[1 := 9]} MemoryExample.state.

Definition after {A} (m : outcome (A * State)) : State :=
  match m with Val (_, s) => s | Panic => start end.

Abbreviation s1 := (after (create_memory_object 1 0x1800 3 0 start)).
Abbreviation s2 := (after (map_memory_object Rv64Virt tables 1 1 0 0x400000 0 s1)).

Lemma after_Val {A} (m : outcome (A * State)) :
  match m with Val _ => true | Panic => false end = true -> exists r, m = Val (r, after m).
Proof. destruct m as [[r s]|]; [by exists r|done]. Qed.

Lemma calls_start_ok : memory_ok Rv64Virt (pts_tr (ms_pages start)) start.
Proof.
  split; [exact MemoryExample.state_inv| | | | |by left]; cbn [start memory_objects].
  - intros id o Ho. by rewrite lookup_empty in Ho.
  - intros id o Ho. by rewrite lookup_empty in Ho.
  - intros id1 off1 id2 off2 p (o & Ho & _). by rewrite lookup_empty in Ho.
  - intros id off p (o & Ho & _). by rewrite lookup_empty in Ho.
Qed.

Lemma step1 : call_step Rv64Virt tables 9 start s1.
Proof.
  destruct (after_Val (create_memory_object 1 0x1800 3 0 start)) as [r E]; [by vm_compute|].
  pose proof (step_create (H := reference_bit_flags) Rv64Virt tables 9 start 1 (mkTask ∅ 1 ∅) 0x1800 3 0 r _
    eq_refl ltac:(unfold is_unsigned; lia) ltac:(simpl; lia) E) as Hstep. exact Hstep.
Qed.

(** The object has two pages. *)
Lemma s1_size id o : handle_try_from 1 ≫= handle_object s1 1 = Some (id, o) -> id = 20 /\ mo_size o = 0x2000.
Proof.
  assert (option_map (fun x => (x.1, mo_size x.2)) (handle_try_from 1 ≫= handle_object s1 1) = Some (20, 0x2000)) as E
    by (vm_compute; reflexivity).
  intros Eh. rewrite Eh in E. clear Eh. by injection E.
Qed.

Lemma example_place virt size :
  (4096 | virt) -> 0 <= virt < 2 ^ 40 -> 0 <= size < 2 ^ 40 -> place_ok Rv64Virt virt size.
Proof.
  intros Hd Hv Hs. split; [done| |].
  - intros v Hv'. simpl. unfold is_unsigned. lia.
  - change pts_limit with RiscvCorrect.Example.limit. unfold RiscvCorrect.Example.limit. simpl. lia.
Qed.

Lemma step2 : call_step Rv64Virt tables 9 s1 s2.
Proof.
  assert (forall id o, handle_try_from 1 ≫= handle_object s1 1 = Some (id, o) ->
    place_ok Rv64Virt (VAddr.new Rv64Virt 0x400000) (mo_size o)) as Hplace.
  { intros id o [_ ->]%s1_size. by apply example_place; [exists 1024|..]. }
  assert (tasks (ms_kernel s1) !! 1 = Some (mkTask {[1 := 20]} 2 ∅)) as Ht by (vm_compute; reflexivity).
  assert (task_space s1 !! 1 = Some 9) as Hs by (vm_compute; reflexivity).
  assert (address_spaces s1 !! 9 = Some AddressSpace_new) as Ha by (vm_compute; reflexivity).
  assert (0x400000 <> 0) as Hva by done.
  destruct (after_Val (map_memory_object Rv64Virt tables 1 1 0 0x400000 0 s1)) as [r E]; [vm_compute; reflexivity|].
  pose proof (step_map (H := reference_bit_flags) Rv64Virt tables 9 s1 1 (mkTask {[1 := 20]} 2 ∅) 1 0x400000 0
    AddressSpace_new r _ Ht Hs Ha Hva Hplace E) as Hstep.
  exact Hstep.
Qed.

Lemma s2_ok : memory_ok Rv64Virt (pts_tr (ms_pages start)) s2.
Proof.
  eapply (call_step_ok Rv64Virt MemoryExample.limit_small tables 9 eq_refl _ s1 s2); [|exact step2].
  eapply (call_step_ok Rv64Virt MemoryExample.limit_small tables 9 eq_refl _ start s1); [exact calls_start_ok|exact step1].
Qed.

Lemma memory_calls_isolated_witness :
  pts_tr (ms_pages s2) 0x401234 = Some 0x11234 /\ ~ tm_free (ms_pages s2) 0x11234 /\ ~ tm_table (ms_pages s2) 0x11234 /\
  exists id off, object_at (memory_objects s2) id off 0x11234 /\
    forall id' off', object_at (memory_objects s2) id' off' 0x11234 -> id' = id /\ off' = off.
Proof.
  split; [vm_compute; reflexivity|].
  apply (memory_calls_isolated Rv64Virt MemoryExample.limit_small tables 9 eq_refl start s2 0x401234 0x11234 calls_start_ok).
  - eapply rtc_l; [exact step1|]. eapply rtc_l; [exact step2|apply rtc_refl].
  - simpl. unfold is_unsigned. lia.
  - vm_compute. reflexivity.
  - vm_compute. reflexivity.
Defined.

Lemma enough_room (st : Machine * Pmm.Pmm) count n :
  match Pmm.alloc st.2 count with Val (_, a) => supplies (n * 3) a | Panic => False end -> fs_room count n st.
Proof. destruct st as [m a]. simpl. destruct (Pmm.alloc a count) as [[p a']|]; [|done]. intros Hs. by exists p, a'. Qed.

Definition object : MemoryObject := mkMemoryObject 0x2000 (mkFlags true true true true) [(0x10000, 0x2000)].
Definition space : AddressSpace := mkAddressSpace {[0x400000 := 20]} 0.


End CallsExample.
