(* ===== verification/Ipc.v ===== *)
(** * Inter-process communication through the kernel

    What the system calls on channels promise the tasks: any sequence of them
    keeps the kernel's invariant, and panics only at a pointer to memory that is
    not mapped; a message arrives once, in order, with its bytes and its objects;
    and what goes wrong when a call fails. *)

From stdpp Require Import base tactics option list numbers gmap.
From S2P Require Import Prelude Bytes Crates Effects Kernel KernelCorrect.

(** ** Sequences of system calls *)

Inductive Syscall :=
  | CreateChannel (other_end_address : Z)
  | SendMessage (channel_handle byte_address num_bytes handles_address num_handles : Z)
  | GetMessage (channel_handle bytes_address bytes_len handles_address handles_len : Z)
  | PollInterest (object_handle : Z).

(** The kernel after a call of task [t]. *)
Definition run_syscall `{BitField} (k : Kernel) (call : Z * Syscall) : outcome Kernel :=
  let '(t, s) := call in
  match s with
  | CreateChannel a => '(_, k) ← syscall (create_channel t a) k; mret k
  | SendMessage ch ba nb ha nh => '(_, k) ← syscall (send_message t ch ba nb ha nh) k; mret k
  | GetMessage ch ba bl ha hl => '(_, k) ← syscall (get_message t ch ba bl ha hl) k; mret k
  | PollInterest h => '(_, k) ← syscall (poll_interest t h) k; mret k
  end.

(** The memory a call names is mapped in the task that makes it: where the handle
    goes, the bytes and handles of a send within the limits, the buffers of a
    receive. *)
Definition buffers_mapped (k : Kernel) (call : Z * Syscall) : Prop :=
  forall task, tasks k !! call.1 = Some task ->
  match call.2 with
  | CreateChannel a => user_mapped (memory task) a 4 = true
  | SendMessage _ ba nb ha nh =>
      nb <= CHANNEL_MAX_NUM_BYTES -> nh <= CHANNEL_MAX_NUM_HANDLES -> send_mapped task ba nb ha nh
  | GetMessage _ ba bl ha hl => get_mapped task ba bl ha hl
  | PollInterest _ => True
  end.

(** A call keeps the invariant, the tasks with the memory they have mapped, and uses
    up at most two ids. *)
Definition step_ok (k k' : Kernel) : Prop :=
  kernel_ok k' /\ id_counter k <= id_counter k' <= id_counter k + 2 /\
  forall t task, tasks k !! t = Some task -> exists task', tasks k' !! t = Some task' /\
    forall x, is_Some (memory task !! x) -> is_Some (memory task' !! x).

Lemma collect_step k k' : step_ok k k' -> step_ok k (collect k').
Proof.
  intros (Hk & Hc & Ht). pose proof (collect_prunes k') as (Et & _ & Ec & _).
  split_and!; [by apply collect_ok|rewrite Ec; lia|rewrite Ec; lia|by rewrite Et].
Qed.

Lemma syscall_step {E A} Q (m : M Kernel E A) k :
  m k ⇓{Q} (fun '(_, k') => step_ok k k') -> ('(_, k') ← syscall m k; mret k') ⇓{Q} step_ok k.
Proof.
  unfold syscall. destruct (m k) as [[r k']|]; simpl; [|done]. apply collect_step.
Qed.

Lemma set_task_keeps k t task task1 t' task' :
  tasks k !! t = Some task -> (forall x, is_Some (memory task !! x) -> is_Some (memory task1 !! x)) ->
  tasks k !! t' = Some task' -> exists task2, tasks (set_task k t task1) !! t' = Some task2 /\
    forall x, is_Some (memory task' !! x) -> is_Some (memory task2 !! x).
Proof.
  intros Ht Hm Ht'. simpl. destruct (decide (t = t')) as [->|Hne].
  - rewrite lookup_insert_eq. simplify_eq. eauto.
  - rewrite lookup_insert_ne by done. eauto.
Qed.

Lemma send_ref_step k t task ch bytes hs :
  kernel_ok k -> tasks k !! t = Some task -> bytes_ok bytes ->
  Z.of_nat (length bytes) <= CHANNEL_MAX_NUM_BYTES -> (length hs <= 4)%nat ->
  step_ok k (send_ref k t task ch bytes hs).2.
Proof.
  intros Hk Ht Hb Hl Hh. split; [by apply send_ref_ok|]. unfold send_ref.
  destruct (take_handles _ _) as [[objs|] table]; repeat case_match; simpl;
    (split; [lia|]); intros t' task'; by apply (set_task_keeps k t task).
Qed.

Section steps.
Context `{BitFieldSpec}.

Lemma give_handles_maps addr objs : forall task i x,
  is_Some (memory task !! x) -> is_Some (memory (give_handles task addr objs i) !! x).
Proof.
  induction objs as [|o objs IH]; intros task i x Hx; [done|]. apply IH. by apply write_mem_maps.
Qed.

Lemma receive_task_maps task ba bl ha hl bytes objs x :
  is_Some (memory task !! x) -> is_Some (memory (receive_task task ba bl ha hl bytes objs) !! x).
Proof.
  intros Hx. unfold receive_task. destruct ((hl >? 0) && _), ((bl >? 0) && _); try apply give_handles_maps;
    try done; by apply write_mem_maps.
Qed.

Lemma get_ref_step k t task ch ba bl ha hl :
  kernel_ok k -> tasks k !! t = Some task -> step_ok k (get_ref k t task ch ba bl ha hl).2.
Proof.
  intros Hk Ht. split; [by apply get_ref_ok|]. unfold get_ref.
  repeat case_match; simpl; (split; [lia|]); try (by eauto).
  intros t' task'. apply (set_task_keeps k t task); [done|]. apply receive_task_maps.
Qed.

Lemma step_refl k : kernel_ok k -> step_ok k k.
Proof. intros. split_and!; [done|lia|lia|eauto]. Qed.

Lemma send_message_step k t task ch ba nb ha nh :
  kernel_ok k -> tasks k !! t = Some task ->
  send_message t ch ba nb ha nh k ⇓{~ buffers_mapped k (t, SendMessage ch ba nb ha nh)} fun '(_, k') => step_ok k k'.
Proof.
  intros Hk Ht. destruct (decide (nb <= CHANNEL_MAX_NUM_BYTES)) as [Hnb|Hnb].
  2:{ unfold send_message. replace (nb >? _) with true by lia. by apply step_refl. }
  destruct (decide (nh <= CHANNEL_MAX_NUM_HANDLES)) as [Hnh|Hnh].
  2:{ unfold send_message. replace (nb >? _) with false by lia.
      replace (nh >? _) with true by lia. by apply step_refl. }
  destruct (unsigned_fits 32 ch) eqn:Hch.
  - apply unsigned_fits_spec in Hch.
    eapply returns_unless_weaken; [by apply (send_message_unless k t task)| |].
    { intros Hn Hm. apply Hn. destruct (Hm task Ht); [done..|]. by split. }
    intros [r k'] E. replace k' with (r, k').2 by done. rewrite E. apply send_ref_step; [done|done|..].
    + apply read_mem_ok. apply (ok_tasks k Hk t task Ht).
    + rewrite length_read_mem. unfold CHANNEL_MAX_NUM_BYTES in *. lia.
    + rewrite length_read_handles. unfold CHANNEL_MAX_NUM_HANDLES in *. lia.
  - unfold send_message. replace (nb >? _) with false by lia. replace (nh >? _) with false by lia.
    unfold handle_try_from. rewrite Hch. by apply step_refl.
Qed.

Lemma get_message_step k t task ch ba bl ha hl :
  kernel_ok k -> tasks k !! t = Some task ->
  get_message t ch ba bl ha hl k ⇓{~ buffers_mapped k (t, GetMessage ch ba bl ha hl)} fun '(_, k') => step_ok k k'.
Proof.
  intros Hk Ht. destruct (unsigned_fits 32 ch) eqn:Hch.
  - apply unsigned_fits_spec in Hch.
    eapply returns_unless_weaken; [by apply (get_message_unless k t task)|by intros Hn Hm; apply Hn, Hm|].
    intros [r k'] E. replace k' with (r, k').2 by done. rewrite E. by apply get_ref_step.
  - unfold get_message, handle_try_from. rewrite Hch. by apply step_refl.
Qed.

Lemma create_channel_step k t task a :
  kernel_ok k -> tasks k !! t = Some task -> 0 < id_counter k -> id_counter k + 2 < 2 ^ 64 ->
  create_channel t a k ⇓{~ buffers_mapped k (t, CreateChannel a)} fun '(_, k') => step_ok k k'.
Proof.
  intros Hk Ht Hid0 Hc. rewrite (create_channel_eq k t task) by (done || lia).
  destruct (user_mapped (memory task) a 4) eqn:Em.
  2:{ intros Hm. specialize (Hm task Ht). simpl in Hm. congruence. }
  split; [by apply with_channel_ok|]. split; [simpl; lia|].
  intros t' task'. apply (set_task_keeps k t task); [done|]. apply write_mem_maps.
Qed.

(** What [poll_interest] answers. *)
Definition interest (o : option KernelObject) : option bool :=
  match o with
  | Some (Channel c) => Some (negb (length (messages c) =? 0)%nat)
  | Some (EventObject e) => Some (signalled e)
  | Some (InterruptObject i) => Some (triggered i)
  | _ => None
  end.

Lemma poll_interest_eq k t task h :
  tasks k !! t = Some task ->
  poll_interest t h k =
    Val (match handle_try_from h ≫= fun h => handles task !! h with
         | None => Err PI_InvalidHandle
         | Some id =>
             match interest (objects k !! id) with
             | Some b => Ok (if b then 1 ≪ 16 else 0)
             | None => Err PI_UnsupportedObjectType
             end
         end, k).
Proof.
  intros Ht. unfold poll_interest. destruct (handle_try_from h) as [h'|]; [|done].
  rewrite (M_bind_Ok _ _ k h' k) by done. cbn [mbind option_bind].
  rewrite (M_bind_Ok _ _ _ _ _ (handles_get_eq k t task h' Ht)).
  destruct (handles task !! h') as [id|]; [|done]. rewrite (M_bind_Ok _ _ k id k) by done.
  rewrite M_bind_eq. simpl. by destruct (objects k !! id) as [[]|].
Qed.

Lemma run_syscall_step k call :
  kernel_ok k -> is_Some (tasks k !! call.1) -> 0 < id_counter k -> id_counter k + 2 < 2 ^ 64 ->
  run_syscall k call ⇓{~ buffers_mapped k call} step_ok k.
Proof.
  intros Hk [task Ht] Hid0 Hc. destruct call as [t s]. destruct s; simpl in *; apply syscall_step.
  - by apply (create_channel_step k t task).
  - by apply (send_message_step k t task).
  - by apply (get_message_step k t task).
  - rewrite (poll_interest_eq k t task) by done. by apply step_refl.
Qed.

(** More mapped memory keeps the buffers of a call mapped. *)
Lemma buffers_mapped_mono k k' call :
  buffers_mapped k call ->
  (forall task', tasks k' !! call.1 = Some task' -> exists task, tasks k !! call.1 = Some task /\
    forall x, is_Some (memory task !! x) -> is_Some (memory task' !! x)) ->
  buffers_mapped k' call.
Proof.
  intros Hb Hk task' Ht'. destruct (Hk task' Ht') as (task & Ht & Hm). specialize (Hb task Ht).
  assert (forall a n, user_mapped (memory task) a n = true -> user_mapped (memory task') a n = true) as Hmm
    by (intros; eapply user_mapped_weaken; eauto; lia).
  destruct call as [t []]; simpl in *; unfold send_mapped, get_mapped in *; naive_solver.
Qed.


(** Nothing protects the kernel from such a pointer: a call whose address is not
    mapped takes it down. *)
Lemma ipc_unmapped_pointer_panics k t task a :
  tasks k !! t = Some task -> 0 <= id_counter k -> id_counter k + 2 < 2 ^ 64 ->
  user_mapped (memory task) a 4 = false -> run_syscall k (t, CreateChannel a) = Panic.
Proof.
  intros Ht Hi0 Hi Hm. unfold run_syscall, syscall. by rewrite (create_channel_eq k t task), Hm.
Qed.

End steps.

(** ** Memory *)

Lemma lookup_write_mem bs : forall m addr x,
  write_mem m addr bs !! x =
    if decide (addr <= x < addr + Z.of_nat (length bs)) then bs !! Z.to_nat (x - addr) else m !! x.
Proof.
  induction bs as [|b bs IH]; intros m addr x; cbn [write_mem length].
  { case_decide; [lia|done]. }
  rewrite IH. destruct (decide (x = addr)) as [->|Hne].
  - rewrite lookup_insert_eq, Z.sub_diag. repeat case_decide; (done || lia).
  - rewrite lookup_insert_ne by done. repeat case_decide; try lia; [|done].
    by replace (Z.to_nat (x - addr)) with (S (Z.to_nat (x - (addr + 1)))) by lia.
Qed.

Lemma read_mem_ext m m' addr n :
  (forall x, addr <= x < addr + n -> m !! x = m' !! x) -> read_mem m addr n = read_mem m' addr n.
Proof.
  intros Hx. unfold read_mem. apply list_fmap_ext. intros i x Hi.
  apply lookup_seqZ in Hi as [-> Hi]. by rewrite Hx by lia.
Qed.

Lemma read_write_same m addr bs : read_mem (write_mem m addr bs) addr (Z.of_nat (length bs)) = bs.
Proof.
  apply list_eq. intros i. unfold read_mem. rewrite list_lookup_fmap.
  destruct (decide (i < length bs)%nat) as [Hi|Hi].
  - rewrite lookup_seqZ_lt by lia. simpl. rewrite lookup_write_mem, decide_True by lia.
    replace (Z.to_nat (addr + (0 + Z.of_nat i) - addr)) with i by lia.
    by destruct (lookup_lt_is_Some_2 bs i Hi) as [b ->].
  - rewrite lookup_seqZ_ge by lia. simpl. symmetry. apply lookup_ge_None. lia.
Qed.

Lemma read_write_other m addr bs addr' n :
  addr' + n <= addr \/ addr + Z.of_nat (length bs) <= addr' ->
  read_mem (write_mem m addr bs) addr' n = read_mem m addr' n.
Proof. intros. apply read_mem_ext. intros x Hx. rewrite lookup_write_mem, decide_False by lia. done. Qed.

Lemma read_handles_ext m m' addr n :
  (forall x, addr <= x < addr + 4 * n -> m !! x = m' !! x) -> read_handles m addr n = read_handles m' addr n.
Proof.
  intros Hx. unfold read_handles. apply list_fmap_ext. intros i x Hi.
  apply lookup_seqZ in Hi as [-> Hi]. f_equal. apply read_mem_ext. intros y Hy. apply Hx. lia.
Qed.

(** The handles given out for a list of objects. *)
Definition new_handles (task : Task) (n : nat) : list Z := seqZ (next task) (Z.of_nat n).

Lemma give_handles_spec objs addr : forall task i,
  0 <= next task -> next task + Z.of_nat (length objs) < 2 ^ 32 ->
  let task' := give_handles task addr objs i in
  read_handles (memory task') (addr + 4 * i) (Z.of_nat (length objs)) = new_handles task (length objs) /\
  (forall x, ~ (addr + 4 * i <= x < addr + 4 * i + 4 * Z.of_nat (length objs)) ->
     memory task' !! x = memory task !! x) /\
  (forall j o, objs !! j = Some o -> handles task' !! (next task + Z.of_nat j) = Some o) /\
  (forall h, ~ (next task <= h < next task + Z.of_nat (length objs)) ->
     handles task' !! h = handles task !! h).
Proof.
  induction objs as [|o objs IH]; intros task i H0 Hn; cbn [give_handles length].
  { split_and!; [done|done| |done]. intros j o. by rewrite lookup_nil. }
  cbn [length] in Hn. set (task1 := store (add_handle task o) (addr + 4 * i) (to_le_bytes 4 (next task))).
  assert (next task1 = next task + 1) as En by (simpl; rewrite Z.mod_small; lia).
  assert (memory task1 = write_mem (memory task) (addr + 4 * i) (to_le_bytes 4 (next task))) as Em by done.
  destruct (IH task1 (i + 1)) as (Hr & Hm & Ho & Hh); [lia|lia|]. rewrite En in *.
  assert (forall x, ~ (addr + 4 * i <= x < addr + 4 * i + 4) -> memory task1 !! x = memory task !! x) as Hm1.
  { intros x Hx. rewrite Em, lookup_write_mem, length_to_le_bytes. by rewrite decide_False by lia. }
  split_and!.
  - rewrite read_handles_cons by lia. unfold new_handles in *. rewrite En in Hr.
    rewrite Nat2Z.inj_succ, seqZ_cons, Z.pred_succ by lia. f_equal.
    + rewrite (read_mem_ext _ (memory task1)), Em by (intros x Hx; apply Hm; lia).
      pose proof (read_write_same (memory task) (addr + 4 * i) (to_le_bytes 4 (next task))) as Hrw.
      rewrite length_to_le_bytes in Hrw. change (Z.of_nat 4) with 4 in Hrw.
      rewrite Hrw, from_to_le_bytes. apply Z.mod_small. change (8 * Z.of_nat 4) with 32. lia.
    + unfold Z.succ. rewrite <- Hr. f_equal; lia.
  - intros x Hx. rewrite Hm by lia. apply Hm1. lia.
  - intros [|j] o' Hj.
    + injection Hj as <-. rewrite Z.add_0_r, Hh by lia. unfold task1. simpl. apply lookup_insert_eq.
    + replace (next task + Z.of_nat (S j)) with (next task + 1 + Z.of_nat j) by lia. by apply Ho.
  - intros h Hx. rewrite Hh by lia. unfold task1. simpl. apply lookup_insert_ne. lia.
Qed.

Lemma give_handles_next objs addr : forall task i,
  0 <= next task -> next task + Z.of_nat (length objs) < 2 ^ 32 ->
  next (give_handles task addr objs i) = next task + Z.of_nat (length objs).
Proof.
  induction objs as [|o objs IH]; intros task i Hn0 Hn; cbn [give_handles length] in *; [lia|].
  rewrite IH; cbn [store add_handle next]; rewrite Z.mod_small by lia; lia.
Qed.

(** A receiver's old handles stay valid. *)
Lemma receive_task_handles B ba bl ha hl bytes objs :
  0 <= next B -> next B + Z.of_nat (length objs) < 2 ^ 32 ->
  next B <= next (receive_task B ba bl ha hl bytes objs) /\
  forall h, h < next B -> handles (receive_task B ba bl ha hl bytes objs) !! h = handles B !! h.
Proof.
  intros Hn0 Hn. unfold receive_task.
  set (B1 := if (bl >? 0) && negb (ba =? 0) then store B ba bytes else B).
  assert (next B1 = next B /\ handles B1 = handles B) as [En Eh] by (subst B1; by destruct (_ && _)).
  destruct ((hl >? 0) && negb (ha =? 0)); [|by rewrite En, Eh].
  destruct (give_handles_spec objs ha B1 0) as (_ & _ & _ & Hh); [lia|lia|].
  rewrite give_handles_next by lia. split; [lia|]. intros h Hh'. rewrite Hh by lia. by rewrite Eh.
Qed.

(** ** Two tasks and a channel *)

(** The messages waiting at an end. *)
Definition queue (k : Kernel) (id : Z) : list Message :=
  match objects k !! id with Some (Channel c) => messages c | _ => [] end.

(** Task [ta] has a handle [ca] to one end of a channel and task [tb] a handle
    [cb] to its other end [idb]. *)
Record linked (k : Kernel) (ta tb ca cb idb : Z) : Prop := {
  l_distinct : ta <> tb;
  l_handles : is_unsigned 32 ca /\ is_unsigned 32 cb;
  l_sender : exists A ida c, tasks k !! ta = Some A /\ handles A !! ca = Some ida /\
    objects k !! ida = Some (Channel c) /\ other_end c = Some idb;
  l_receiver : exists B c, tasks k !! tb = Some B /\ handles B !! cb = Some idb /\ cb < next B /\
    objects k !! idb = Some (Channel c);
}.

Lemma held_by_task k t task h id : tasks k !! t = Some task -> handles task !! h = Some id -> held k id = true.
Proof. intros Ht Hh. apply held_spec. right. eauto. Qed.

(** Dropping objects does not break a link. *)
Lemma linked_collect k ta tb ca cb idb :
  linked k ta tb ca cb idb ->
  linked (collect k) ta tb ca cb idb /\ queue (collect k) idb = queue k idb.
Proof.
  intros [Hne Hu (A & ida & c & Ha & Hca & Hida & Hc) (B & c' & Hb & Hcb & Hnb & Hidb)].
  pose proof (collect_prunes k) as (Et & _). pose proof (held_by_task _ _ _ _ _ Ha Hca) as Hha.
  pose proof (held_by_task _ _ _ _ _ Hb Hcb) as Hhb. split.
  - split; [done|done| |].
    + exists A, ida, c. rewrite Et, collect_keeps_held by done. done.
    + exists B, c'. rewrite Et, collect_keeps_held by done. done.
  - unfold queue. by rewrite collect_keeps_held.
Qed.

Lemma take_handles_valid hs : forall table objs,
  NoDup hs -> Forall2 (fun h o => table !! h = Some o) hs objs ->
  exists table', take_handles table hs = (Some objs, table').
Proof.
  induction hs as [|h hs IH]; intros table objs Hnd Hall; cbn [take_handles].
  { apply Forall2_nil_inv_l in Hall as ->. eauto. }
  apply list.NoDup_cons in Hnd as [Hn Hnd].
  apply Forall2_cons_inv_l in Hall as (o & objs' & Ho & Hall & ->). rewrite Ho.
  destruct (IH (delete h table) objs' Hnd) as [table' ->]; [|by eexists].
  apply Forall2_same_length_lookup in Hall as [Hl Hall]. apply Forall2_same_length_lookup.
  split; [done|]. intros i h' o' Hi Hi'. rewrite lookup_delete_ne; [eauto|].
  intros <-. apply Hn. by eapply list_elem_of_lookup_2.
Qed.

(** Sending over a linked channel. *)
Lemma send_spec k ta tb ca cb idb A ba nb ha nh objs :
  kernel_ok k -> linked k ta tb ca cb idb -> tasks k !! ta = Some A ->
  let bytes := read_mem (memory A) ba nb in
  let hs := read_handles (memory A) ha nh in
  nb <= CHANNEL_MAX_NUM_BYTES -> nh <= CHANNEL_MAX_NUM_HANDLES -> send_mapped A ba nb ha nh ->
  NoDup hs -> ca ∉ hs ->
  Forall2 (fun h o => handles A !! h = Some o) hs objs ->
  exists k1 table, syscall (send_message ta ca ba nb ha nh) k = Val (Ok tt, k1) /\
    kernel_ok k1 /\ linked k1 ta tb ca cb idb /\ queue k1 idb = queue k idb ++ [message bytes objs] /\
    tasks k1 = <[ta := with_handles A table]> (tasks k) /\
    (forall h, h ∈ hs -> table !! h = None) /\ (forall h, h ∉ hs -> table !! h = handles A !! h).
Proof.
  intros Hk Hlink Ha bytes hs Hnb Hnh Hma Hnd Hca Hobjs.
  pose proof Hlink as [Hne [Huc Hub] (A' & ida & c & Ha' & Hcah & Hida & Hc) (B & c' & Hb & Hcb & Hnxt & Hidb)].
  rewrite Ha in Ha'. injection Ha' as <-.
  destruct (take_handles_valid hs (handles A) objs Hnd Hobjs) as [table Etake].
  pose proof (take_handles_spec _ _ _ _ Etake) as (Hsub & Hother & Hl & Hgone & _).
  set (k0 := push (set_task k ta (with_handles A table)) idb c' (message bytes objs)).
  assert (send_ref k ta A ca bytes hs = (Ok tt, k0)) as Esend.
  { unfold send_ref. rewrite Etake, Hother, Hcah, Hida, Hc, Hidb by done. done. }
  assert (linked k0 ta tb ca cb idb /\ queue k0 idb = queue k idb ++ [message bytes objs]) as [Hl0 Hq0].
  { split; [split; [done|done| |]|].
    - exists (with_handles A table), ida. destruct (decide (ida = idb)) as [->|Hd].
      + eexists. split_and!; [apply lookup_insert_eq|simpl; by rewrite Hother|apply lookup_insert_eq|].
        simpl. congruence.
      + exists c. split_and!; [apply lookup_insert_eq|simpl; by rewrite Hother| |done].
        simpl. by rewrite lookup_insert_ne.
    - exists B. eexists. split_and!; [simpl; by rewrite lookup_insert_ne|done|done|apply lookup_insert_eq].
    - unfold queue. simpl. by rewrite lookup_insert_eq, Hidb. }
  destruct (linked_collect _ _ _ _ _ _ Hl0) as [Hl1 Hq1].
  exists (collect k0), table. split_and!.
  - unfold syscall. rewrite (send_message_eq k ta A) by done. fold bytes hs. by rewrite Esend.
  - apply collect_ok. replace k0 with (send_ref k ta A ca bytes hs).2 by (by rewrite Esend).
    apply send_ref_ok; [done|done|apply read_mem_ok, (ok_tasks k Hk ta A Ha)|..].
    + unfold bytes. rewrite length_read_mem. unfold CHANNEL_MAX_NUM_BYTES in *. lia.
    + unfold hs. rewrite length_read_handles. unfold CHANNEL_MAX_NUM_HANDLES in *. lia.
  - done.
  - by rewrite Hq1.
  - by rewrite (proj1 (collect_prunes k0)).
  - done.
  - done.
Qed.

(** Receiving from a linked channel. *)
Lemma get_spec `{BitFieldSpec} k ta tb ca cb idb B bytes objs q ba bl ha hl :
  kernel_ok k -> linked k ta tb ca cb idb -> tasks k !! tb = Some B ->
  queue k idb = message bytes objs :: q -> get_mapped B ba bl ha hl ->
  Z.of_nat (length bytes) <= bl -> Z.of_nat (length objs) <= hl -> next B + Z.of_nat (length objs) < 2 ^ 32 ->
  exists k1, syscall (get_message tb cb ba bl ha hl) k = Val (Ok (message_status bytes objs), k1) /\
    kernel_ok k1 /\ linked k1 ta tb ca cb idb /\ queue k1 idb = q /\
    tasks k1 = <[tb := receive_task B ba bl ha hl bytes objs]> (tasks k).
Proof.
  intros Hk Hlink Hb Hq Hma Hbl Hhl Hnext.
  pose proof Hlink as [Hne [Huc Hub] (A & ida & c & Ha & Hcah & Hida & Hc) (B' & c' & Hb' & Hcb & Hnxt & Hidb)].
  rewrite Hb in Hb'. injection Hb' as <-.
  unfold queue in Hq. rewrite Hidb in Hq.
  destruct (ok_tasks k Hk tb B Hb) as (_ & [Hn0 _] & _).
  destruct (receive_task_handles B ba bl ha hl bytes objs Hn0 Hnext) as [Hnx Hold].
  set (B1 := receive_task B ba bl ha hl bytes objs) in *. set (k0 := set_task (pop k idb c' q) tb B1).
  assert (get_ref k tb B cb ba bl ha hl = (Ok (message_status bytes objs), k0)) as Eget.
  { unfold get_ref. rewrite Hcb, Hidb, Hq. unfold msg_objects. cbn [message msg_bytes handle_objects].
    rewrite omap_Some_app. replace (_ >? bl) with false by lia. by replace (_ >? hl) with false by lia. }
  assert (linked k0 ta tb ca cb idb /\ queue k0 idb = q) as [Hl0 Hq0].
  { split; [split; [done|done| |]|].
    - exists A, ida. destruct (decide (ida = idb)) as [->|Hd].
      + eexists. split_and!; [simpl; by rewrite lookup_insert_ne|done|apply lookup_insert_eq|]. simpl. congruence.
      + exists c. split_and!; [simpl; by rewrite lookup_insert_ne|done| |done]. simpl. by rewrite lookup_insert_ne.
    - exists B1. eexists. split_and!; [apply lookup_insert_eq|by rewrite Hold|lia|apply lookup_insert_eq].
    - unfold queue. simpl. by rewrite lookup_insert_eq. }
  destruct (linked_collect _ _ _ _ _ _ Hl0) as [Hl1 Hq1]. exists (collect k0). split_and!.
  - unfold syscall. rewrite (get_message_eq k tb B) by done. by rewrite Eget.
  - apply collect_ok. replace k0 with (get_ref k tb B cb ba bl ha hl).2 by (by rewrite Eget).
    by apply get_ref_ok.
  - done.
  - by rewrite Hq1.
  - by rewrite (proj1 (collect_prunes k0)).
Qed.

(** ** The theorems *)

Section transfer.
Context `{BitFieldSpec} (k : Kernel) (ta tb ca cb idb : Z) (A B : Task).
Context (Hk : kernel_ok k) (Hlink : linked k ta tb ca cb idb).
Context (HA : tasks k !! ta = Some A) (HB : tasks k !! tb = Some B).

Lemma receive_task_memory ba nb ha nh bl hl bytes objs :
  nb = Z.of_nat (length bytes) -> nh = Z.of_nat (length objs) ->
  nb <= bl -> nh <= hl -> 0 < ba -> 0 < ha -> ba + nb <= ha \/ ha + 4 * nh <= ba ->
  0 <= next B -> next B + nh < 2 ^ 32 ->
  let B2 := receive_task B ba bl ha hl bytes objs in
  read_mem (memory B2) ba nb = bytes /\
  Forall2 (fun h o => handles B2 !! h = Some o) (read_handles (memory B2) ha nh) objs.
Proof using B.
  intros -> -> Hbl Hhl Hba Hha Hdis Hn0 Hn. unfold receive_task.
  set (B1 := if (bl >? 0) && negb (ba =? 0) then store B ba bytes else B).
  assert (next B1 = next B) as En by (subst B1; by destruct (_ && _)).
  assert (read_mem (memory B1) ba (Z.of_nat (length bytes)) = bytes) as Hb1.
  { subst B1. destruct (decide (bytes = [])) as [->|Hne]; [done|].
    assert (0 < Z.of_nat (length bytes)) by (destruct bytes; simpl; [done|lia]).
    replace (_ && _) with true by lia. apply read_write_same. }
  destruct (decide (objs = [])) as [->|Hne].
  { destruct ((hl >? 0) && negb (ha =? 0)); simpl; by split. }
  assert (0 < Z.of_nat (length objs)) by (destruct objs; simpl; [done|lia]).
  replace ((hl >? 0) && _) with true by lia.
  destruct (give_handles_spec objs ha B1 0) as (Hr & Hm & Ho & _); [lia|lia|].
  rewrite Z.mul_0_r, Z.add_0_r in Hr, Hm. split.
  - rewrite (read_mem_ext _ (memory B1)); [done|]. intros x Hx. apply Hm. lia.
  - rewrite Hr. apply Forall2_same_length_lookup. unfold new_handles. rewrite length_seqZ. split; [lia|].
    intros i h o Hi Hio. apply lookup_seqZ in Hi as [-> _]. by apply Ho.
Qed.

(** C15: A message sent over a channel arrives: the sender's [send_message] and the
    receiver's [get_message], on memory mapped in the two tasks, both succeed, and
    the receiver's buffers hold the message's bytes and new handles that refer, in
    its own table, to exactly the objects the sender named, in order; the sender's
    handles to them are gone, and the message is no longer queued. *)
Theorem ipc_transfer (ba nb ha nh ba' bl ha' hl : Z) (objs : list Z)
  (Hempty : queue k idb = [])
  (Hbytes : 0 <= nb <= CHANNEL_MAX_NUM_BYTES) (Hhandles : 0 <= nh <= CHANNEL_MAX_NUM_HANDLES)
  (Hmapped : send_mapped A ba nb ha nh) (Hmapped' : get_mapped B ba' bl ha' hl)
  (Hdup : NoDup (read_handles (memory A) ha nh)) (Hown : ca ∉ read_handles (memory A) ha nh)
  (Hvalid : Forall2 (fun h o => handles A !! h = Some o) (read_handles (memory A) ha nh) objs)
  (Hbuf : nb <= bl /\ nh <= hl /\ 0 < ba' /\ 0 < ha') (Hdisjoint : ba' + nb <= ha' \/ ha' + 4 * nh <= ba')
  (Hnext : next B + nh < 2 ^ 32) :
  ('(r1, k1) ← syscall (send_message ta ca ba nb ha nh) k;
   '(r2, k2) ← syscall (get_message tb cb ba' bl ha' hl) k1;
   mret (r1, r2, k2)) ⇓ fun '(r1, r2, k2) =>
    r1 = Ok tt /\ r2 = Ok (nb * 2 ^ 16 + nh * 2 ^ 32) /\ queue k2 idb = [] /\
    exists A2 B2, tasks k2 !! ta = Some A2 /\ tasks k2 !! tb = Some B2 /\
      read_mem (memory B2) ba' nb = read_mem (memory A) ba nb /\
      Forall2 (fun h o => handles B2 !! h = Some o) (read_handles (memory B2) ha' nh) objs /\
      (forall h, h ∈ read_handles (memory A) ha nh -> handles A2 !! h = None).
Proof.
  destruct (send_spec k ta tb ca cb idb A ba nb ha nh objs) as
    (k1 & table & E1 & Hk1 & Hl1 & Hq1 & Ht1 & Hgone & _); [done..|lia|lia|done|done|done|done|].
  rewrite E1. obind. pose proof (l_distinct _ _ _ _ _ _ Hlink) as Hne.
  pose proof (Forall2_length _ _ _ Hvalid) as Hlo. rewrite length_read_handles in Hlo.
  set (bytes := read_mem (memory A) ba nb) in *.
  assert (Z.of_nat (length bytes) = nb) as Hlb by (unfold bytes; rewrite length_read_mem; lia).
  assert (tasks k1 !! tb = Some B) as HB1 by (rewrite Ht1; by rewrite lookup_insert_ne).
  rewrite Hempty in Hq1.
  destruct (get_spec k1 ta tb ca cb idb B bytes objs [] ba' bl ha' hl) as
    (k2 & E2 & _ & _ & Hq2 & Ht2); [done..|lia|lia|lia|].
  rewrite E2. obind. simpl. split_and!; [done| |done|].
  { unfold message_status. do 2 f_equal; lia. }
  destruct (ok_tasks k Hk tb B HB) as (_ & [Hn0 _] & _).
  destruct (receive_task_memory ba' nb ha' nh bl hl bytes objs) as [Hm Hh]; try (done || lia).
  exists (with_handles A table), (receive_task B ba' bl ha' hl bytes objs). rewrite Ht2, Ht1.
  split_and!; [by rewrite lookup_insert_ne, lookup_insert_eq|apply lookup_insert_eq|done|done|done].
Qed.

End transfer.

Lemma take_handles_invalid pre bad post : forall table,
  NoDup pre -> Forall (fun h => is_Some (table !! h)) pre -> table !! bad = None ->
  exists table', take_handles table (pre ++ bad :: post) = (None, table') /\
    forall h, h ∈ pre -> table' !! h = None.
Proof.
  induction pre as [|h pre IH]; intros table Hnd Hval Hbad; cbn [app take_handles].
  { rewrite Hbad. eexists. split; [done|]. intros h Hh. by apply elem_of_nil in Hh. }
  apply list.NoDup_cons in Hnd as [Hn Hnd]. apply Forall_cons_1 in Hval as [[o Ho] Hval]. rewrite Ho.
  destruct (IH (delete h table)) as (table' & E & Hgone); [done| | |].
  { apply list.Forall_forall. intros h' Hh'. rewrite lookup_delete_ne by (intros <-; done).
    revert h' Hh'. by apply list.Forall_forall. }
  { rewrite lookup_delete_ne; [done|]. intros <-. congruence. }
  rewrite E. simpl. exists table'. split; [done|]. intros h' [->|Hh']%elem_of_cons; [|by apply Hgone].
  apply take_handles_spec in E as (Hsub & _).
  destruct (table' !! h) as [x|] eqn:Ex; [|done].
  eapply lookup_weaken in Ex; [|exact Hsub]. by rewrite lookup_delete_eq in Ex.
Qed.

(** C39: A failed [send_message] is not undone: when a handle of the list is not
    valid, the call returns [InvalidTransferredHandle], but the valid handles in
    front of it have already been taken out of the sender's table, and an object
    nothing else refers to is destroyed. *)
Theorem ipc_failed_send_loses_handles (k : Kernel) (t ch ba nb ha nh : Z) (task : Task)
  (pre post : list Z) (bad : Z)
  (Htask : tasks k !! t = Some task)
  (Hch : is_unsigned 32 ch) (Hnb : nb <= CHANNEL_MAX_NUM_BYTES) (Hnh : nh <= CHANNEL_MAX_NUM_HANDLES)
  (Hmapped : user_mapped (memory task) ha (4 * nh) = true)
  (Hhs : read_handles (memory task) ha nh = pre ++ bad :: post)
  (Hdup : NoDup pre) (Hpre : Forall (fun h => is_Some (handles task !! h)) pre)
  (Hbad : handles task !! bad = None) :
  syscall (send_message t ch ba nb ha nh) k ⇓ fun '(r, k') =>
    r = Err InvalidTransferredHandle /\
    (exists task', tasks k' !! t = Some task' /\ forall h, h ∈ pre -> handles task' !! h = None) /\
    (forall o, referenced k' o = false -> objects k' !! o = None).
Proof.
  pose proof (send_message_unless k t task ch ba nb ha nh Htask Hnb Hnh Hch) as Hs. unfold send_reads, send_ref in Hs.
  rewrite Hhs in Hs.
  destruct (take_handles_invalid pre bad post (handles task)) as (table' & Et & Hgone); [done..|]. rewrite Et in Hs.
  unfold syscall. destruct (send_message _ _ _ _ _ _ _) as [x|]; simpl in Hs.
  2:{ exfalso. apply Hs. split; [done|]. by intros [? ?]. }
  subst x.
  set (k0 := set_task k t (with_handles task table')). simpl.
  split_and!; [done| |].
  - rewrite (proj1 (collect_prunes k0)). exists (with_handles task table').
    split; [apply lookup_insert_eq|done].
  - intros o Ho. destruct (objects (collect k0) !! o) eqn:E; [|done].
    pose proof (collect_complete k0 o (mk_is_Some _ _ E)). congruence.
Qed.

(** ** Two tasks at work *)

Module IpcExample.

#[local] Existing Instance reference_bit_field.
#[local] Existing Instance reference_bit_field_spec.

(** Task 10 has one end of a channel and an event, task 20 the other end. *)
Definition sender : Task :=
  mkTask (<[1 := 1]> (<[2 := 3]> ∅)) 3 (write_mem (write_mem ∅ 100 [7; 8; 9]) 200 [2; 0; 0; 0; 5; 0; 0; 0]).
(** The receiver has 64 bytes mapped at 1000 and 16 at 2000. *)
Definition receiver : Task :=
  mkTask (<[1 := 2]> ∅) 2 (write_mem (write_mem ∅ 1000 (replicate 64 0)) 2000 (replicate 16 0)).
Definition kernel : Kernel := mkKernel
  (<[1 := Channel (mkChannelEnd 10 [] (Some 2))]> (<[2 := Channel (mkChannelEnd 10 [] (Some 1))]>
    (<[3 := EventObject (mkEvent false)]> ∅)))
  4 (<[10 := sender]> (<[20 := receiver]> ∅)) [].

(** The cases of a lookup in a map written out as insertions. *)
Ltac lookup_cases H :=
  cbn [objects tasks handles kernel sender receiver] in H;
  rewrite ?lookup_insert_Some, ?lookup_empty in H;
  repeat match type of H with _ \/ _ => destruct H as [[? ?]|[? H]] end;
  simplify_eq.

Lemma sender_ok : task_ok (objects kernel) sender.
Proof.
  split_and!.
  - intros h id Hh. lookup_cases Hh; by eexists.
  - by unfold is_unsigned.
  - do 2 (apply write_mem_ok; [repeat (constructor; [by unfold is_unsigned|]); constructor|]).
    by apply map_Forall_empty.
Qed.

Lemma kernel_is_ok : kernel_ok kernel.
Proof.
  split.
  - intros id o Hid. lookup_cases Hid; (split; [by intros j Hj%elem_of_nil|]); try done.
    + split; [constructor|]. intros p o' [= <-] [= <-]. by eexists.
    + split; [constructor|]. intros p o' [= <-] [= <-]. by eexists.
  - apply map_Forall_insert_2; [apply sender_ok|]. apply map_Forall_insert_2; [|by apply map_Forall_empty].
    split_and!; [|by unfold is_unsigned|].
    + intros h id Hh. lookup_cases Hh; by eexists.
    + do 2 (apply write_mem_ok; [apply list.Forall_replicate; by unfold is_unsigned|]).
      by apply map_Forall_empty.
  - intros id Hid. by apply elem_of_nil in Hid.
  - intros id [o Hid]. simpl. lookup_cases Hid; lia.
  - intros id c p Hid Hp. simpl. lookup_cases Hid; simpl in Hp; simplify_eq; lia.
Qed.

Lemma kernel_linked : linked kernel 10 20 1 1 2.
Proof.
  split; [done|by unfold is_unsigned| |].
  - exists sender, 1. eexists. split_and!; [done|done|done|done].
  - exists receiver. eexists. split_and!; [done|done|by simpl|done].
Qed.

(** Calls of the two tasks, mistaken ones included, on memory that is mapped; the
    last one is given an address that is not. *)
Definition calls : list (Z * Syscall) :=
  [(10, SendMessage 1 100 3 200 1); (20, PollInterest 1); (20, GetMessage 1 1000 2 0 0);
   (20, GetMessage 1 1000 10 0 9); (10, SendMessage 77 100 2 0 0); (20, CreateChannel 1020)].


(** The bytes 7, 8, 9 and the event. *)
Lemma ipc_transfer_witness :
  ('(r1, k1) ← syscall (send_message 10 1 100 3 200 1) kernel;
   '(r2, k2) ← syscall (get_message 20 1 1000 64 2000 4) k1;
   mret (r1, r2, k2)) ⇓ fun '(r1, r2, k2) =>
    r1 = Ok tt /\ r2 = Ok (3 * 2 ^ 16 + 1 * 2 ^ 32) /\ queue k2 2 = [] /\
    exists A2 B2, tasks k2 !! 10 = Some A2 /\ tasks k2 !! 20 = Some B2 /\
      read_mem (memory B2) 1000 3 = read_mem (memory sender) 100 3 /\
      Forall2 (fun h o => handles B2 !! h = Some o) (read_handles (memory B2) 2000 1) [3] /\
      (forall h, h ∈ read_handles (memory sender) 200 1 -> handles A2 !! h = None).
Proof.
  apply (ipc_transfer kernel 10 20 1 1 2 sender receiver kernel_is_ok kernel_linked eq_refl eq_refl).
  - done.
  - by unfold CHANNEL_MAX_NUM_BYTES.
  - by unfold CHANNEL_MAX_NUM_HANDLES.
  - split; by vm_compute.
  - split; intros _ _; by vm_compute.
  - vm_compute. repeat constructor. by apply not_elem_of_nil.
  - vm_compute. intros Hin. apply elem_of_cons in Hin as [?|Hin]; [done|by apply elem_of_nil in Hin].
  - by repeat constructor.
  - by split_and!.
  - left. done.
  - by simpl.
Defined.

(** The event's handle goes, and the second handle does not exist. *)
Lemma ipc_failed_send_loses_handles_witness :
  syscall (send_message 10 1 100 3 200 2) kernel ⇓ fun '(r, k') =>
    r = Err InvalidTransferredHandle /\
    (exists task', tasks k' !! 10 = Some task' /\ forall h, h ∈ [2] -> handles task' !! h = None) /\
    (forall o, referenced k' o = false -> objects k' !! o = None).
Proof.
  apply (ipc_failed_send_loses_handles kernel 10 1 100 3 200 2 sender [2] [] 5).
  - done.
  - by unfold is_unsigned.
  - by unfold CHANNEL_MAX_NUM_BYTES.
  - by unfold CHANNEL_MAX_NUM_HANDLES.
  - by vm_compute.
  - by vm_compute.
  - repeat constructor. by apply not_elem_of_nil.
  - by repeat constructor.
  - by vm_compute.
Defined.

End IpcExample.
