(* ===== verification/Abi.v ===== *)
(** * [lib/poplar/src/syscall], [kernel/src/syscall]: the system call interface

    How results of system calls cross the boundary in one register: the kernel
    encodes them ([handle_syscall]) and the user-space library decodes them.
    The instructions that enter the kernel ([raw_*.rs]) move the arguments to
    registers and back. *)

From stdpp Require Import base tactics option list numbers gmap.
From S2P Require Import Prelude Bytes Crates Effects Kernel KernelCorrect Ipc.

(** ** [define_error_type!] *)

Class ErrorType (E : Type) := {
  error_try_from : Z -> option E;
  error_into : E -> Z;
}.

(** Every error has a number of its own, and [0] is none. *)
Class ErrorTypeSpec (E : Type) `{ErrorType E} : Prop := {
  error_roundtrip : forall e, error_try_from (error_into e) = Some e;
  error_range : forall e, 0 < error_into e < 2 ^ 16;
}.

#[global] Instance CreateChannelError_type : ErrorType CreateChannelError := {|
  error_try_from := fun x => match x with 1 => Some CC_InvalidHandleAddress | _ => None end;
  error_into := fun e => match e with CC_InvalidHandleAddress => 1 end;
|}.

#[global] Instance SendMessageError_type : ErrorType SendMessageError := {|
  error_try_from := fun x =>
    match x with
    | 1 => Some InvalidChannelHandle | 2 => Some NotAChannel | 3 => Some ChannelCannotSend
    | 4 => Some InvalidTransferredHandle | 5 => Some CannotTransferHandle
    | 6 => Some BytesAddressInvalid | 7 => Some TooManyBytes | 8 => Some HandlesAddressInvalid
    | 9 => Some TooManyHandles | 10 => Some OtherEndDisconnected
    | _ => None
    end;
  error_into := fun e =>
    match e with
    | InvalidChannelHandle => 1 | NotAChannel => 2 | ChannelCannotSend => 3
    | InvalidTransferredHandle => 4 | CannotTransferHandle => 5 | BytesAddressInvalid => 6
    | TooManyBytes => 7 | HandlesAddressInvalid => 8 | TooManyHandles => 9
    | OtherEndDisconnected => 10
    end;
|}.

#[global] Instance GetMessageError_type : ErrorType GetMessageError := {|
  error_try_from := fun x =>
    match x with
    | 1 => Some GM_InvalidChannelHandle | 2 => Some GM_NotAChannel | 3 => Some GM_NoMessage
    | 4 => Some GM_BytesAddressInvalid | 5 => Some GM_BytesBufferTooSmall
    | 6 => Some GM_HandlesAddressInvalid | 7 => Some GM_HandlesBufferTooSmall
    | _ => None
    end;
  error_into := fun e =>
    match e with
    | GM_InvalidChannelHandle => 1 | GM_NotAChannel => 2 | GM_NoMessage => 3
    | GM_BytesAddressInvalid => 4 | GM_BytesBufferTooSmall => 5
    | GM_HandlesAddressInvalid => 6 | GM_HandlesBufferTooSmall => 7
    end;
|}.

#[global] Instance PollInterestError_type : ErrorType PollInterestError := {|
  error_try_from := fun x =>
    match x with 1 => Some PI_InvalidHandle | 2 => Some PI_UnsupportedObjectType | _ => None end;
  error_into := fun e => match e with PI_InvalidHandle => 1 | PI_UnsupportedObjectType => 2 end;
|}.

#[global] Instance CreateChannelError_spec : ErrorTypeSpec CreateChannelError.
Proof. by split; intros []. Qed.
#[global] Instance SendMessageError_spec : ErrorTypeSpec SendMessageError.
Proof. by split; intros []. Qed.
#[global] Instance GetMessageError_spec : ErrorTypeSpec GetMessageError.
Proof. by split; intros []. Qed.
#[global] Instance PollInterestError_spec : ErrorTypeSpec PollInterestError.
Proof. by split; intros []. Qed.

(** ** Results in a register: [syscall/result.rs] *)

Section repr.
Context `{BitField} {E : Type} `{ErrorType E}.

Definition status_from_syscall_repr (status : Z) : outcome (result unit E) :=
  if status =? 0 then mret (Ok tt) else e ← unwrap (error_try_from status); mret (Err e).

Definition status_to_syscall_repr (r : result unit E) : Z :=
  match r with Ok _ => 0 | Err e => error_into e end.

Definition status_with_payload_to_syscall_repr (r : result Z E) : Z :=
  match r with Ok status => status | Err e => error_into e end.

Definition handle_from_syscall_repr (result : Z) : outcome (Prelude.result Z E) :=
  status ← get_bits 64 result 0 32;
  if status =? 0 then h ← get_bits 64 result 32 64; mret (Ok (h mod 2 ^ 32))
  else e ← unwrap (error_try_from status); mret (Err e).

Definition handle_to_syscall_repr (r : result Z E) : outcome Z :=
  match r with
  | Ok handle => set_bits 64 0 32 64 handle
  | Err e => set_bits 64 0 0 32 (error_into e)
  end.

End repr.

(** ** [handle_syscall] *)

Definition SYSCALL_CREATE_CHANNEL : Z := 5.
Definition SYSCALL_SEND_MESSAGE : Z := 6.
Definition SYSCALL_GET_MESSAGE : Z := 7.
Definition SYSCALL_POLL_INTEREST : Z := 13.

(** The numbers of the system calls on tasks, memory objects, events, interrupts
    and devices, and of [WAIT_FOR_MESSAGE]. *)
Definition other_syscalls : list Z := [0; 1; 2; 3; 4; 8; 11; 12; 14; 15; 16; 17; 18].

Section with_crates.
Context `{BitField}.

(** What these do. *)
Context (others : Z -> Z -> Z -> Z -> Z -> Z -> Z -> Kernel -> outcome (Z * Kernel)).

(** The call of the running task [t]. *)
Definition handle_syscall (t number a b c d e : Z) (k : Kernel) : outcome (Z * Kernel) :=
  if number =? SYSCALL_CREATE_CHANNEL then
    '(r, k) ← syscall (create_channel t a) k; v ← handle_to_syscall_repr r; mret (v, k)
  else if number =? SYSCALL_SEND_MESSAGE then
    '(r, k) ← syscall (send_message t a b c d e) k; mret (status_to_syscall_repr r, k)
  else if number =? SYSCALL_GET_MESSAGE then
    '(r, k) ← syscall (get_message t a b c d e) k; mret (status_with_payload_to_syscall_repr r, k)
  else if number =? SYSCALL_POLL_INTEREST then
    '(r, k) ← syscall (poll_interest t a) k; mret (status_with_payload_to_syscall_repr r, k)
  else if existsb (Z.eqb number) other_syscalls then others t number a b c d e k
  else mret (2 ^ 64 - 1, k).

(** ** The library's functions: [lib/poplar/src/syscall/mod.rs]

    A slice is its address and length.  The calls run in task [t]. *)

Definition poplar_create_channel (t other_end : Z) (k : Kernel) :
    outcome (result (Z * Z) CreateChannelError * Kernel) :=
  '(v, k) ← handle_syscall t SYSCALL_CREATE_CHANNEL other_end 0 0 0 0 k;
  r ← handle_from_syscall_repr v;
  match r with
  | Ok one_end =>
      task ← unwrap (tasks k !! t);
      mret (Ok (one_end, from_le_bytes (read_mem (memory task) other_end 4)), k)
  | Err e => mret (Err e, k)
  end.

Definition poplar_send_message (t channel bytes bytes_len handles handles_len : Z) (k : Kernel) :
    outcome (result unit SendMessageError * Kernel) :=
  '(v, k) ← handle_syscall t SYSCALL_SEND_MESSAGE channel
     (if bytes_len =? 0 then 0 else bytes) bytes_len
     (if handles_len =? 0 then 0 else handles) handles_len k;
  r ← status_from_syscall_repr v;
  mret (r, k).

(** The lengths of the two slices that hold the message. *)
Definition poplar_get_message (t channel bytes bytes_len handles handles_len : Z) (k : Kernel) :
    outcome (result (Z * Z) GetMessageError * Kernel) :=
  '(v, k) ← handle_syscall t SYSCALL_GET_MESSAGE channel
     (if bytes_len =? 0 then 0 else bytes) bytes_len
     (if handles_len =? 0 then 0 else handles) handles_len k;
  status ← get_bits 64 v 0 16;
  r ← status_from_syscall_repr status;
  match r with
  | Ok _ =>
      valid_bytes_len ← get_bits 64 v 16 32;
      valid_handles_len ← get_bits 64 v 32 48;
      rassert (valid_bytes_len <=? bytes_len) ;;
      rassert (valid_handles_len <=? handles_len) ;;
      mret (Ok (valid_bytes_len, valid_handles_len), k)
  | Err e => mret (Err e, k)
  end.

Definition poplar_poll_interest (t object : Z) (k : Kernel) :
    outcome (result bool PollInterestError * Kernel) :=
  '(v, k) ← handle_syscall t SYSCALL_POLL_INTEREST object 0 0 0 0 k;
  status ← get_bits 64 v 0 16;
  r ← status_from_syscall_repr status;
  match r with
  | Ok _ => payload ← get_bits 64 v 16 64; mret (Ok (negb (payload =? 0)), k)
  | Err e => mret (Err e, k)
  end.

End with_crates.

(** ** The encodings round trip *)

Section roundtrip.
Context `{BitFieldSpec} {E : Type} `{ErrorTypeSpec E}.

Lemma error_small (e : E) : is_unsigned 16 (error_into e) /\ (error_into e =? 0) = false.
Proof. pose proof (error_range e). unfold is_unsigned. lia. Qed.

Lemma error_status (e : E) : status_from_syscall_repr (error_into e) = Val (Err e).
Proof.
  unfold status_from_syscall_repr. rewrite (proj2 (error_small e)), error_roundtrip. done.
Qed.

Lemma status_roundtrip (r : result unit E) :
  status_from_syscall_repr (status_to_syscall_repr r) = Val r.
Proof. destruct r as [[]|e]; [done|]. apply error_status. Qed.

Lemma low_bits x lo hi :
  is_unsigned 64 x -> 0 <= lo < hi -> hi <= 64 -> get_bits 64 x lo hi = Val ((x / 2 ^ lo) mod 2 ^ (hi - lo)).
Proof. intros. by apply get_bits_in. Qed.

(** The low half of the register. *)
Lemma error_low (e : E) n : 16 <= n <= 64 -> get_bits 64 (error_into e) 0 n = Val (error_into e).
Proof.
  intros Hn. pose proof (error_range e) as Hr.
  assert (2 ^ 16 <= 2 ^ n) by (apply Z.pow_le_mono_r; lia).
  assert (2 ^ n <= 2 ^ 64) by (apply Z.pow_le_mono_r; lia).
  rewrite low_bits by (unfold is_unsigned; lia). rewrite Z.pow_0_r, Z.div_1_r, Z.sub_0_r.
  f_equal. apply Z.mod_small. lia.
Qed.

Lemma handle_roundtrip (r : result Z E) :
  (forall h, r = Ok h -> is_unsigned 32 h) ->
  (v ← handle_to_syscall_repr r; handle_from_syscall_repr v) = Val r.
Proof.
  intros Hh. destruct r as [h|e]; simpl handle_to_syscall_repr.
  - specialize (Hh h eq_refl) as [Hh0 Hh1].
    rewrite set_bits_in by (unfold is_unsigned; simpl; lia). rewrite Z.div_0_l, Z.mod_0_l by done.
    obind. replace (0 - 0 * 2 ^ 32 + h * 2 ^ 32) with (h * 2 ^ 32) by lia.
    unfold handle_from_syscall_repr. rewrite !low_bits by (unfold is_unsigned; lia). obind.
    rewrite Z.pow_0_r, Z.div_1_r, Z.sub_0_r, Z.mod_mul by done. simpl (0 =? 0). cbv iota.
    rewrite Z.div_mul by done. obind. do 2 f_equal. change (64 - 32) with 32.
    rewrite Z.mod_mod by done. apply Z.mod_small. lia.
  - pose proof (error_range e) as Hr. rewrite set_bits_in by (unfold is_unsigned; simpl; lia).
    rewrite Z.div_0_l, Z.mod_0_l by done. obind.
    replace (0 - 0 * 2 ^ 0 + error_into e * 2 ^ 0) with (error_into e) by lia.
    unfold handle_from_syscall_repr. rewrite error_low by lia. obind.
    rewrite (proj2 (error_small e)), error_roundtrip. done.
Qed.

End roundtrip.

(** ** The library's functions are the kernel's *)

Definition result_map {A B E} (f : A -> B) (r : result A E) : result B E :=
  match r with Ok a => Ok (f a) | Err e => Err e end.

(** The address of a slice: empty slices are passed as null. *)
Definition slice_ptr (addr len : Z) : Z := if len =? 0 then 0 else addr.

(** The lengths [get_message] packs into its status. *)
Definition message_lengths (status : Z) : Z * Z := (status / 2 ^ 16 mod 2 ^ 16, status / 2 ^ 32).

Section claims.
Context `{BitFieldSpec}.
Context (others : Z -> Z -> Z -> Z -> Z -> Z -> Z -> Kernel -> outcome (Z * Kernel)).

Lemma poplar_send_message_eq t ch ba nb ha nh k :
  poplar_send_message others t ch ba nb ha nh k =
    syscall (send_message t ch (slice_ptr ba nb) nb (slice_ptr ha nh) nh) k.
Proof using H0.
  unfold poplar_send_message, handle_syscall. simpl (_ =? _). cbv iota.
  fold (slice_ptr ba nb) (slice_ptr ha nh).
  destruct (syscall _ k) as [[r k']|]; [|done]. obind. rewrite status_roundtrip. by destruct r.
Qed.

Lemma message_lengths_status bytes objs :
  Z.of_nat (length bytes) <= CHANNEL_MAX_NUM_BYTES -> (length objs <= 4)%nat ->
  let v := message_status bytes objs in
  is_unsigned 64 v /\ v mod 2 ^ 16 = 0 /\
  message_lengths v = (Z.of_nat (length bytes), Z.of_nat (length objs)) /\ (v / 2 ^ 32) mod 2 ^ 16 = v / 2 ^ 32.
Proof.
  unfold CHANNEL_MAX_NUM_BYTES, message_status, message_lengths, is_unsigned. intros Hb Ho.
  set (n := Z.of_nat (length bytes)) in *. assert (0 <= n) by (subst n; lia).
  set (m := Z.of_nat (length objs)) in *. assert (0 <= m <= 4) by (subst m; lia).
  assert ((n * 2 ^ 16 + m * 2 ^ 32) / 2 ^ 32 = m) as ->.
  { rewrite Z.div_add by done. rewrite Z.div_small; lia. }
  replace (n * 2 ^ 16 + m * 2 ^ 32) with ((n + m * 2 ^ 16) * 2 ^ 16) by lia.
  rewrite Z.div_mul, Z.mod_mul, Z.mod_add, !Z.mod_small by lia. split_and!; (done || lia).
Qed.

(** The status of a successful [get_message]. *)
Lemma get_message_status k t task ch ba bl ha hl v k' :
  kernel_ok k -> tasks k !! t = Some task ->
  syscall (get_message t ch ba bl ha hl) k = Val (Ok v, k') ->
  exists bytes objs, v = message_status bytes objs /\ Z.of_nat (length bytes) <= CHANNEL_MAX_NUM_BYTES /\
    (length objs <= 4)%nat /\ Z.of_nat (length bytes) <= bl /\ Z.of_nat (length objs) <= hl.
Proof.
  intros Hk Ht. unfold syscall. destruct (unsigned_fits 32 ch) eqn:Hch.
  2:{ unfold get_message, handle_try_from. by rewrite Hch. }
  apply unsigned_fits_spec in Hch. pose proof (get_message_unless k t task ch ba bl ha hl Hk Ht Hch) as Hg.
  destruct (get_message _ _ _ _ _ _ _) as [x|]; [|done]. simpl in Hg. subst x. unfold get_ref.
  destruct (handles task !! ch) as [id|]; [|done]. destruct (objects k !! id) as [[c| | |]|] eqn:Hid; try done.
  pose proof (ok_objects k Hk id _ Hid) as [_ [Hms _]].
  destruct (messages c) as [|m q]; [done|]. apply Forall_cons_1 in Hms as [Hm _].
  pose proof (message_ok_message m Hm) as [_ Hlo]. destruct Hm as (_ & Hlb & _).
  destruct (_ >? bl) eqn:Hbl; [done|]. destruct (_ >? hl) eqn:Hhl; [done|].
  intros [= <- _]. exists (msg_bytes m), (msg_objects m). split_and!; (done || lia).
Qed.

Lemma poplar_get_message_eq t ch ba bl ha hl k task :
  kernel_ok k -> tasks k !! t = Some task ->
  poplar_get_message others t ch ba bl ha hl k =
    ('(r, k') ← syscall (get_message t ch (slice_ptr ba bl) bl (slice_ptr ha hl) hl) k;
     mret (result_map message_lengths r, k')).
Proof.
  intros Hk Ht. unfold poplar_get_message, handle_syscall. simpl (_ =? _). cbv iota.
  fold (slice_ptr ba bl) (slice_ptr ha hl).
  destruct (syscall _ k) as [[[v|e] k']|] eqn:E; [| |done]; obind; cbn [status_with_payload_to_syscall_repr].
  - apply (get_message_status k t task) in E as (bytes & objs & -> & Hb & Ho & Hbl & Hhl); [|done..].
    destruct (message_lengths_status bytes objs Hb Ho) as (Hv & Hz & Hml & Hhi).
    rewrite !low_bits by (done || lia). obind. rewrite Z.pow_0_r, Z.div_1_r.
    change (16 - 0) with 16. rewrite Hz. obind. change (32 - 16) with 16. change (48 - 32) with 16. rewrite Hhi.
    unfold message_lengths in Hml. injection Hml as Hl1 Hl2. unfold result_map, message_lengths. rewrite Hl1, Hl2.
    replace (_ <=? bl) with true by lia. replace (_ <=? hl) with true by lia. done.
  - rewrite error_low by lia. obind. by rewrite error_status.
Qed.

Lemma poplar_poll_interest_eq t h k task :
  tasks k !! t = Some task ->
  poplar_poll_interest others t h k =
    ('(r, k') ← syscall (poll_interest t h) k; mret (result_map (fun s => negb (s =? 0)) r, k')).
Proof.
  intros Ht. unfold poplar_poll_interest, handle_syscall. simpl (_ =? _). cbv iota.
  unfold syscall. rewrite (poll_interest_eq k t task) by done. obind.
  destruct (handle_try_from h ≫= fun h => handles task !! h) as [id|].
  2:{ cbn [status_with_payload_to_syscall_repr]. rewrite error_low by lia. obind. by rewrite error_status. }
  destruct (interest (objects k !! id)) as [[]|]; cbn [status_with_payload_to_syscall_repr].
  - rewrite !low_bits by (done || lia). done.
  - rewrite !low_bits by (done || lia). done.
  - rewrite error_low by lia. obind. by rewrite error_status.
Qed.

(** A new channel: two handles to ends that refer to each other. *)
Lemma poplar_create_channel_spec t a k task :
  kernel_ok k -> tasks k !! t = Some task -> 0 < id_counter k -> id_counter k + 2 < 2 ^ 64 ->
  poplar_create_channel others t a k ⇓{~ user_mapped (memory task) a 4 = true} fun '(r, k') => exists h1 h2,
    r = Ok (h1, h2) /\ syscall (create_channel t a) k = Val (Ok h1, k') /\
    exists task' id1 id2 c1 c2, tasks k' !! t = Some task' /\
      handles task' !! h1 = Some id1 /\ handles task' !! h2 = Some id2 /\
      objects k' !! id1 = Some (Channel c1) /\ other_end c1 = Some id2 /\ messages c1 = [] /\
      objects k' !! id2 = Some (Channel c2) /\ other_end c2 = Some id1 /\ messages c2 = [].
Proof.
  intros Hk Ht Hid0 Hid. destruct (ok_tasks k Hk t task Ht) as (_ & [Hn0 Hn1] & _).
  unfold poplar_create_channel, handle_syscall. simpl (_ =? _). cbv iota. unfold syscall.
  rewrite (create_channel_eq k t task) by (done || lia).
  destruct (user_mapped (memory task) a 4); [|done]. obind.
  pose proof (handle_roundtrip (E := CreateChannelError) (Ok (next task))) as Hrt.
  specialize (Hrt ltac:(intros h [= <-]; done)). apply bind_Val in Hrt as (v & -> & Hfrom). obind.
  rewrite Hfrom. obind. set (k' := with_channel k t task a).
  rewrite (proj1 (collect_prunes k')). simpl tasks. rewrite lookup_insert_eq. obind.
  set (h2 := (next task + 1) mod 2 ^ 32). assert (0 <= h2 < 2 ^ 32) by (apply Z.mod_pos_bound; lia).
  assert (next task <> h2) as Hne.
  { unfold h2. intros E. destruct (decide (next task + 1 = 2 ^ 32)) as [E'|].
    - rewrite E', Z.mod_same in E by done. lia.
    - rewrite Z.mod_small in E by lia. lia. }
  exists (next task), h2. split_and!; [|done|].
  { do 2 f_equal. change (from_le_bytes (read_mem (write_mem (memory task) a (to_le_bytes 4 h2)) a 4) = h2).
    pose proof (read_write_same (memory task) a (to_le_bytes 4 h2)) as E. rewrite length_to_le_bytes in E.
    change (Z.of_nat 4) with 4 in E. rewrite E, from_to_le_bytes. by apply Z.mod_small. }
  eexists _, (id_counter k), (id_counter k + 1), (mkChannelEnd t [] (Some (id_counter k + 1))),
    (mkChannelEnd t [] (Some (id_counter k))).
  assert (handles (store (add_handle (add_handle task (id_counter k)) (id_counter k + 1)) a
    (to_le_bytes 4 h2)) !! next task = Some (id_counter k)) as Hh1.
  { simpl. rewrite lookup_insert_ne by (by fold h2). apply lookup_insert_eq. }
  assert (handles (store (add_handle (add_handle task (id_counter k)) (id_counter k + 1)) a
    (to_le_bytes 4 h2)) !! h2 = Some (id_counter k + 1)) as Hh2 by (simpl; apply lookup_insert_eq).
  assert (tasks k' !! t = Some (store (add_handle (add_handle task (id_counter k)) (id_counter k + 1)) a
    (to_le_bytes 4 h2))) as Htk by apply lookup_insert_eq.
  rewrite !(collect_keeps_held k') by (by eapply held_by_task).
  split_and!; [by rewrite (proj1 (collect_prunes k'))|exact Hh1|exact Hh2| |done|done| |done|done]; simpl.
  - rewrite lookup_insert_ne by lia. apply lookup_insert_eq.
  - apply lookup_insert_eq.
Qed.

(** C19: Nothing is lost between the kernel and its callers: each function of the
    user-space library on channels returns exactly what the kernel's handler
    returned, every error and every success with its payload: the result's
    encoding in one register decodes to it, the lengths of a received message are
    within the caller's buffers, and no decoding step panics (where the handler
    itself faults, at memory that is not mapped, so does the call). *)
Theorem syscall_abi_transparent (k : Kernel) (t : Z) (task : Task) (ch ba bl ha hl : Z)
  (Hk : kernel_ok k) (Ht : tasks k !! t = Some task)
  (Hids : 0 < id_counter k) (Hroom : id_counter k + 2 < 2 ^ 64) :
  poplar_send_message others t ch ba bl ha hl k =
    syscall (send_message t ch (slice_ptr ba bl) bl (slice_ptr ha hl) hl) k /\
  poplar_get_message others t ch ba bl ha hl k =
    ('(r, k') ← syscall (get_message t ch (slice_ptr ba bl) bl (slice_ptr ha hl) hl) k;
     mret (result_map message_lengths r, k')) /\
  poplar_poll_interest others t ch k =
    ('(r, k') ← syscall (poll_interest t ch) k; mret (result_map (fun s => negb (s =? 0)) r, k')) /\
  (poplar_create_channel others t ba k ⇓{~ user_mapped (memory task) ba 4 = true} fun '(r, k') => exists h1 h2,
    r = Ok (h1, h2) /\ syscall (create_channel t ba) k = Val (Ok h1, k') /\
    exists task' id1 id2 c1 c2, tasks k' !! t = Some task' /\
      handles task' !! h1 = Some id1 /\ handles task' !! h2 = Some id2 /\
      objects k' !! id1 = Some (Channel c1) /\ other_end c1 = Some id2 /\ messages c1 = [] /\
      objects k' !! id2 = Some (Channel c2) /\ other_end c2 = Some id1 /\ messages c2 = []).
Proof.
  split_and!; [apply poplar_send_message_eq|by apply (poplar_get_message_eq _ _ _ _ _ _ _ task)
    |by apply (poplar_poll_interest_eq _ _ _ task)|by apply (poplar_create_channel_spec _ _ _ task)].
Qed.

End claims.

(** A send from user space in the example of two tasks. *)
Module AbiExample.
Import IpcExample.

#[local] Existing Instance reference_bit_field.
#[local] Existing Instance reference_bit_field_spec.

Definition others (t number a b c d e : Z) (k : Kernel) : outcome (Z * Kernel) := Val (2 ^ 64 - 1, k).

Lemma syscall_abi_transparent_witness :
  poplar_send_message others 10 1 100 3 200 1 kernel = syscall (send_message 10 1 100 3 200 1) kernel.
Proof.
  apply (syscall_abi_transparent others kernel 10 sender 1 100 3 200 1 kernel_is_ok eq_refl eq_refl eq_refl).
Defined.

End AbiExample.
