(* ===== verification/Scheduler.v ===== *)
(** * [kernel/src/scheduler.rs]: sharing the CPU between tasks

    The queues of the CPU's scheduler, the states of the tasks and of their
    address spaces, and the switch from one task to the next.  The machine is
    what it runs on: a page table and a task context.  [tick] polls the kernel's
    tasklets with the third-party [maitake] crate: it is a parameter of
    [schedule], and what the tasklets can do to the scheduler is add tasks. *)

From stdpp Require Import base tactics option list numbers gmap.
From S2P Require Import Prelude.

(** ** Tasks and address spaces *)

Inductive TaskBlock := OnEvent (event : Z).

Inductive TaskState :=
  | Ready
  | Running
  | Blocked (block : TaskBlock).

#[global] Instance TaskBlock_eq_dec : EqDecision TaskBlock.
Proof. solve_decision. Defined.
#[global] Instance TaskState_eq_dec : EqDecision TaskState.
Proof. solve_decision. Defined.

Definition is_ready (s : TaskState) : bool := match s with Ready => true | _ => false end.
Definition is_running (s : TaskState) : bool := match s with Running => true | _ => false end.
Definition is_blocked (s : TaskState) : bool := match s with Blocked _ => true | _ => false end.

(** [address_space::State]. *)
Inductive State := NotActive | Active.

#[global] Instance State_eq_dec : EqDecision State.
Proof. solve_decision. Defined.

Record Task := mkTask { state : TaskState; address_space : Z }.

(** ** The scheduler *)

Record CpuScheduler := mkCpuScheduler {
  running_task : option Z;
  ready_queue : list Z;
  blocked_queue : list Z;
}.

Definition CpuScheduler_new : CpuScheduler := mkCpuScheduler None [] [].

(** The scheduler and what it works on: the tasks, the states of the address
    spaces, and the machine. *)
Record Sched := mkSched {
  cpu : CpuScheduler;
  tasks : gmap Z Task;
  spaces : gmap Z State;
  page_table : option Z;
  context : option Z;
}.

Definition set_cpu (s : Sched) (c : CpuScheduler) : Sched :=
  mkSched c (tasks s) (spaces s) (page_table s) (context s).
Definition set_tasks (s : Sched) (m : gmap Z Task) : Sched :=
  mkSched (cpu s) m (spaces s) (page_table s) (context s).
Definition set_space (s : Sched) (a : Z) (st : State) : Sched :=
  mkSched (cpu s) (tasks s) (<[a := st]> (spaces s)) (page_table s) (context s).
Definition load_page_table (s : Sched) (a : Z) : Sched :=
  mkSched (cpu s) (tasks s) (spaces s) (Some a) (context s).
Definition load_context (s : Sched) (t : Z) : Sched :=
  mkSched (cpu s) (tasks s) (spaces s) (page_table s) (Some t).

(** The [Arc<Task>] and [Arc<AddressSpace>] behind an id. *)
Definition task_of (s : Sched) (t : Z) : outcome Task := unwrap (tasks s !! t).
Definition space_of (s : Sched) (a : Z) : outcome State := unwrap (spaces s !! a).

Definition set_state (s : Sched) (t : Z) (st : TaskState) : outcome Sched :=
  task ← task_of s t;
  mret (set_tasks s (<[t := mkTask st (address_space task)]> (tasks s))).

(** [CpuScheduler::choose_next]. *)
Definition choose_next (c : CpuScheduler) : option Z * CpuScheduler :=
  match ready_queue c with
  | [] => (None, c)
  | t :: q => (Some t, mkCpuScheduler (running_task c) q (blocked_queue c))
  end.

Definition push_ready (s : Sched) (t : Z) : Sched :=
  set_cpu s (mkCpuScheduler (running_task (cpu s)) (ready_queue (cpu s) ++ [t]) (blocked_queue (cpu s))).
Definition push_blocked (s : Sched) (t : Z) : Sched :=
  set_cpu s (mkCpuScheduler (running_task (cpu s)) (ready_queue (cpu s)) (blocked_queue (cpu s) ++ [t])).

Definition add_task (s : Sched) (t : Z) : outcome Sched :=
  task ← task_of s t;
  match state task with
  | Ready => mret (push_ready s t)
  | Blocked _ => mret (push_blocked s t)
  | Running => Panic
  end.

(** [AddressSpace::switch_to] and [switch_from]. *)
Definition switch_space_to (s : Sched) (a : Z) : outcome Sched :=
  st ← space_of s a;
  rassert (bool_decide (st = NotActive)) ;;
  mret (set_space (load_page_table s a) a Active).

Definition switch_space_from (s : Sched) (a : Z) : outcome Sched :=
  st ← space_of s a;
  rassert (bool_decide (st = Active)) ;;
  mret (set_space s a NotActive).

(** [Scheduler::switch_to], up to the point where the next task goes on. *)
Definition switch_to (s : Sched) (new_state : TaskState) (next_task : Z) : outcome Sched :=
  current_task ← unwrap (running_task (cpu s));
  current ← task_of s current_task;
  rassert (is_running (state current)) ;;
  next ← task_of s next_task;
  rassert (is_ready (state next)) ;;
  let s := set_cpu s (mkCpuScheduler (Some next_task) (ready_queue (cpu s)) (blocked_queue (cpu s))) in
  s ← set_state s next_task Running;
  s ← match new_state with
      | Running => Panic
      | Ready => s ← set_state s current_task Ready; mret (push_ready s current_task)
      | Blocked b => s ← set_state s current_task (Blocked b); mret (push_blocked s current_task)
      end;
  s ← switch_space_from s (address_space current);
  s ← switch_space_to s (address_space next);
  mret (load_context s next_task).

(** [Scheduler::drop_to_userspace]. *)
Definition drop_to_userspace (s : Sched) (t : Z) : outcome Sched :=
  task ← task_of s t;
  s ← set_state s t Running;
  let s := set_cpu s (mkCpuScheduler (Some t) (ready_queue (cpu s)) (blocked_queue (cpu s))) in
  s ← switch_space_to s (address_space task);
  mret (load_context s t).

Section with_tick.
Context (tick : Sched -> outcome Sched).

Definition start_scheduling (s : Sched) : outcome Sched :=
  s ← tick s;
  rassert (bool_decide (running_task (cpu s) = None)) ;;
  let '(t, c) := choose_next (cpu s) in
  t ← unwrap t;
  task ← task_of s t;
  rassert (is_ready (state task)) ;;
  drop_to_userspace (set_cpu s c) t.

Definition schedule (new_state : TaskState) (s : Sched) : outcome Sched :=
  s ← tick s;
  rassert (bool_decide (is_Some (running_task (cpu s)))) ;;
  let '(t, c) := choose_next (cpu s) in
  match t with
  | Some next_task => switch_to (set_cpu s c) new_state next_task
  | None => mret s
  end.

End with_tick.

(** [AddressSpace::new] and [Task::new]: what matters to the scheduler. *)
Definition new_address_space (s : Sched) (a : Z) : Sched := set_space s a NotActive.
Definition new_task (s : Sched) (t a : Z) : Sched :=
  set_tasks s (<[t := mkTask Ready a]> (tasks s)).

(** ** What happens to the scheduler *)

Inductive Action :=
  (** [create_address_space]: the new object's id. *)
  | CreateSpace (a : Z)
  (** [spawn_task] into an address space, or a task the loader starts. *)
  | Spawn (t a : Z)
  (** The running task yields, is pre-empted or blocks; the tasklets polled
      spawn the given tasks. *)
  | Schedule (new_state : TaskState) (spawned : list (Z * Z)).

Definition spawn (s : Sched) (e : Z * Z) : outcome Sched := add_task (new_task s e.1 e.2) e.1.

Definition act (s : Sched) (a : Action) : outcome Sched :=
  match a with
  | CreateSpace a => mret (new_address_space s a)
  | Spawn t a => spawn s (t, a)
  | Schedule st ts => schedule (fun s => ofold spawn s ts) st s
  end.

(** The ids of new objects are new, tasks start in address spaces that exist, and
    a task never asks to be left running. *)
Definition spawn_allowed (s : Sched) (e : Z * Z) : Prop :=
  tasks s !! e.1 = None /\ is_Some (spaces s !! e.2).
Fixpoint spawns_allowed (s : Sched) (l : list (Z * Z)) : Prop :=
  match l with
  | [] => True
  | e :: l => spawn_allowed s e /\ spawns_allowed (new_task s e.1 e.2) l
  end.
Definition allowed (s : Sched) (a : Action) : Prop :=
  match a with
  | CreateSpace a => spaces s !! a = None
  | Spawn t a => spawn_allowed s (t, a)
  | Schedule st ts => st <> Running /\ spawns_allowed s ts
  end.

(** A run of the system after [start_scheduling]. *)
Inductive run : Sched -> list Action -> Sched -> Prop :=
  | run_nil s : run s [] s
  | run_cons s a s' l s'' : allowed s a -> act s a = Val s' -> run s' l s'' -> run s (a :: l) s''.

(** ** The invariant *)

(** Task [t] is in a state of which [P] holds. *)
Definition in_state (m : gmap Z Task) (t : Z) (P : TaskState -> Prop) : Prop :=
  exists task, m !! t = Some task /\ P (state task).

Record sched_ok (s : Sched) : Prop := {
  (** Each task is exactly where its state says. *)
  s_running : forall t, running_task (cpu s) = Some t <-> in_state (tasks s) t (fun st => st = Running);
  s_ready : forall t, t ∈ ready_queue (cpu s) <-> in_state (tasks s) t (fun st => st = Ready);
  s_blocked : forall t, t ∈ blocked_queue (cpu s) <-> in_state (tasks s) t (fun st => is_blocked st = true);
  s_nodup : NoDup (ready_queue (cpu s)) /\ NoDup (blocked_queue (cpu s));
  (** Address spaces exist, and the running task's is the active one. *)
  s_spaces : forall t task, tasks s !! t = Some task -> is_Some (spaces s !! address_space task);
  s_active : forall a, spaces s !! a = Some Active <->
    exists t task, running_task (cpu s) = Some t /\ tasks s !! t = Some task /\ address_space task = a;
  (** The machine runs the running task in its own address space. *)
  s_machine : forall t task, running_task (cpu s) = Some t -> tasks s !! t = Some task ->
    context s = Some t /\ page_table s = Some (address_space task);
}.

Lemma set_state_eq s t task st :
  tasks s !! t = Some task ->
  set_state s t st = Val (set_tasks s (<[t := mkTask st (address_space task)]> (tasks s))).
Proof. intros Ht. unfold set_state, task_of. by rewrite Ht. Qed.

Lemma in_state_insert m t task P t' :
  in_state (<[t := task]> m) t' P <-> (t' = t /\ P (state task)) \/ (t' <> t /\ in_state m t' P).
Proof.
  unfold in_state. destruct (decide (t' = t)) as [->|Hne].
  - rewrite lookup_insert_eq. naive_solver.
  - rewrite lookup_insert_ne by done. naive_solver.
Qed.

Lemma spawn_eq s t a : spawn s (t, a) = Val (push_ready (new_task s t a) t).
Proof. unfold spawn, add_task, task_of. simpl. by rewrite lookup_insert_eq. Qed.

Lemma spawn_ok s e :
  sched_ok s -> spawn_allowed s e -> sched_ok (push_ready (new_task s e.1 e.2) e.1).
Proof.
  destruct e as [t a]. intros [Hrun Hready Hblocked [Hnd1 Hnd2] Hspaces Hactive Hmach] [Hfresh [st Hsp]].
  simpl in *. assert (forall P, ~ in_state (tasks s) t P) as Hnew by (intros P (? & ? & _); congruence).
  split; simpl.
  - intros t'. rewrite Hrun. rewrite in_state_insert. simpl. naive_solver.
  - intros t'. rewrite elem_of_app, Hready, in_state_insert, list_elem_of_singleton. simpl.
    destruct (decide (t' = t)) as [->|]; naive_solver.
  - intros t'. rewrite Hblocked, in_state_insert. simpl. naive_solver.
  - split; [|done]. apply NoDup_app. split_and!; [done| |apply NoDup_singleton].
    intros t' Hin ->%list_elem_of_singleton. by apply Hready, Hnew in Hin.
  - intros t' task. rewrite lookup_insert_Some. intros [[<- <-]|[_ Ht]]; [by eexists|eauto].
  - intros a'. rewrite Hactive. split; intros (t' & task & Hr & Ht & Ha); exists t', task.
    + split_and!; [done| |done]. rewrite lookup_insert_ne; [done|]. intros <-. congruence.
    + split_and!; [done| |done]. rewrite lookup_insert_ne in Ht; [done|]. intros <-.
      by apply Hrun, Hnew in Hr.
  - intros t' task Hr. rewrite lookup_insert_ne; [by apply Hmach|]. intros <-. by apply Hrun, Hnew in Hr.
Qed.

(** The tasks spawned are queued in order. *)
Lemma spawns_ok l : forall s,
  sched_ok s -> spawns_allowed s l ->
  ofold spawn s l ⇓ fun s' => sched_ok s' /\ ready_queue (cpu s') = ready_queue (cpu s) ++ l.*1 /\
    running_task (cpu s') = running_task (cpu s).
Proof.
  induction l as [|e l IH]; intros s Hs Hl; simpl in *; [by rewrite app_nil_r|].
  destruct Hl as [He Hl]. destruct e as [t a]. rewrite spawn_eq. obind.
  eapply returns_weaken; [apply IH; [by apply (spawn_ok s (t, a))|]|].
  - clear -Hl. simpl in *. revert Hl. generalize (new_task s t a). clear s. intros s.
    assert (forall s', tasks s' = tasks s -> spaces s' = spaces s -> spawns_allowed s l -> spawns_allowed s' l) as H.
    { revert s. induction l as [|e l IH]; intros s s' Et Es; simpl; [done|].
      intros [[H1 H2] H3]. split; [unfold spawn_allowed; by rewrite Et, Es|].
      eapply IH; [| |done]; simpl; congruence. }
    by apply H.
  - intros s' (? & Eq & ?). split_and!; [done| |done]. rewrite Eq. simpl. by rewrite <- app_assoc.
Qed.

(** ** Switching tasks *)

(** The state after a switch from [cur] to [next]; [q] is the rest of the queue. *)
Definition switched (s : Sched) (new_state : TaskState) (cur next ac an : Z) (q : list Z) : Sched :=
  mkSched
    (mkCpuScheduler (Some next)
       (q ++ if is_ready new_state then [cur] else [])
       (blocked_queue (cpu s) ++ if is_blocked new_state then [cur] else []))
    (<[cur := mkTask new_state ac]> (<[next := mkTask Running an]> (tasks s)))
    (<[an := Active]> (<[ac := NotActive]> (spaces s)))
    (Some an) (Some next).

Lemma switch_space_from_eq s a : spaces s !! a = Some Active -> switch_space_from s a = Val (set_space s a NotActive).
Proof. intros Ha. unfold switch_space_from, space_of. by rewrite Ha. Qed.

Lemma switch_space_to_eq s a :
  spaces s !! a = Some NotActive -> switch_space_to s a = Val (set_space (load_page_table s a) a Active).
Proof. intros Ha. unfold switch_space_to, space_of. by rewrite Ha. Qed.

Lemma switch_to_eq s new_state cur next ac an q :
  sched_ok s -> new_state <> Running -> running_task (cpu s) = Some cur ->
  tasks s !! cur = Some (mkTask Running ac) -> tasks s !! next = Some (mkTask Ready an) ->
  switch_to (set_cpu s (mkCpuScheduler (Some cur) q (blocked_queue (cpu s)))) new_state next =
    Val (switched s new_state cur next ac an q).
Proof.
  intros Hs Hnew Hrun Hcur Hnext. assert (cur <> next) as Hne by congruence.
  assert (spaces s !! ac = Some Active) as Hac by (apply (s_active s Hs); eauto).
  assert (exists st, <[ac := NotActive]> (spaces s) !! an = Some st /\ st = NotActive) as (st & Han & ->).
  { destruct (decide (ac = an)) as [<-|Hd]; [rewrite lookup_insert_eq; eauto|].
    rewrite lookup_insert_ne by done. destruct (s_spaces s Hs next _ Hnext) as [[] Hst]; simpl in Hst; [eauto|].
    apply (s_active s Hs) in Hst as (t & task & Ht & Htask & Hta). simplify_eq. }
  unfold switch_to. simpl. unfold task_of. simpl. rewrite Hcur, Hnext. obind. cbn [is_running is_ready state].
  obind. rewrite (set_state_eq _ next (mkTask Ready an)) by done. obind. cbn [state address_space].
  destruct new_state as [| |b]; [|done|].
  - rewrite (set_state_eq _ cur (mkTask Running ac)) by (simpl; by rewrite lookup_insert_ne). obind.
    rewrite switch_space_from_eq by done. obind. rewrite switch_space_to_eq by done. obind.
    unfold switched. simpl. by rewrite app_nil_r.
  - rewrite (set_state_eq _ cur (mkTask Running ac)) by (simpl; by rewrite lookup_insert_ne). obind.
    rewrite switch_space_from_eq by done. obind. rewrite switch_space_to_eq by done. obind.
    unfold switched. simpl. by rewrite app_nil_r.
Qed.

Lemma switched_ok s new_state cur next ac an q :
  sched_ok s -> new_state <> Running -> running_task (cpu s) = Some cur -> ready_queue (cpu s) = next :: q ->
  tasks s !! cur = Some (mkTask Running ac) -> tasks s !! next = Some (mkTask Ready an) ->
  sched_ok (switched s new_state cur next ac an q).
Proof.
  intros [Hrun Hready Hblocked [Hnd1 Hnd2] Hspaces Hactive Hmach] Hnew Hr Hq Hcur Hnext.
  assert (cur <> next) as Hne by congruence.
  rewrite Hq in *. apply list.NoDup_cons in Hnd1 as [Hnq Hnd1].
  assert (forall t, t ∈ q <-> t <> next /\ in_state (tasks s) t (fun st => st = Ready)) as Hq'.
  { intros t. rewrite <- Hready, elem_of_cons. split; [|naive_solver]. intros Ht. split; [|by right].
    intros ->. done. }
  assert (forall P, in_state (tasks s) cur P <-> P Running) as Hcs.
  { intros P. unfold in_state. rewrite Hcur. naive_solver. }
  assert (forall P, in_state (tasks s) next P <-> P Ready) as Hns.
  { intros P. unfold in_state. rewrite Hnext. naive_solver. }
  split; simpl.
  - intros t. rewrite !in_state_insert, <- Hrun. simpl. rewrite Hr. naive_solver.
  - intros t. rewrite !in_state_insert, elem_of_app, Hq'. simpl.
    destruct (decide (t = cur)) as [->|Htc].
    + rewrite Hcs. destruct new_state; simpl; rewrite ?list_elem_of_singleton; set_solver.
    + destruct (decide (t = next)) as [->|]; destruct new_state; simpl; rewrite ?list_elem_of_singleton; set_solver.
  - intros t. rewrite !in_state_insert, elem_of_app, Hblocked. simpl.
    destruct (decide (t = cur)) as [->|Htc].
    + rewrite Hcs. destruct new_state; simpl; rewrite ?list_elem_of_singleton; set_solver.
    + destruct (decide (t = next)) as [->|]; [rewrite Hns|];
        destruct new_state; simpl; rewrite ?list_elem_of_singleton; set_solver.
  - assert (cur ∉ q) by (rewrite Hq', Hcs; naive_solver).
    assert (cur ∉ blocked_queue (cpu s)) by (by rewrite Hblocked, Hcs).
    split; apply NoDup_app; destruct new_state; simpl; split_and!;
      set_solver by eauto using NoDup_singleton, NoDup_nil_2.
  - assert (forall a, is_Some (spaces s !! a) -> is_Some (<[an := Active]> (<[ac := NotActive]> (spaces s)) !! a)) as Hin.
    { intros a Ha. rewrite !lookup_insert_is_Some. destruct (decide (an = a)); [by left|].
      destruct (decide (ac = a)); auto. }
    intros t task. rewrite !lookup_insert_Some.
    intros [[<- <-]|[_ [[<- <-]|[_ Ht]]]]; apply Hin; [by apply (Hspaces cur (mkTask Running ac))
      |by apply (Hspaces next (mkTask Ready an))|by apply (Hspaces t)].
  - intros a. rewrite !lookup_insert_Some. split.
    + intros [[<- _]|(Hna & [[_ ?]|[Hac Ha]])]; [|done|].
      * exists next, (mkTask Running an). rewrite lookup_insert_ne, lookup_insert_eq by done. done.
      * apply Hactive in Ha as (t & task & Ht & Htask & Hta). simplify_eq.
    + intros (t & task & [= <-] & Ht & <-). rewrite lookup_insert_ne, lookup_insert_eq in Ht by done.
      injection Ht as <-. by left.
  - intros t task [= <-]. rewrite lookup_insert_ne, lookup_insert_eq by done. by intros [= <-].
Qed.

(** What [schedule] does to the queue: the first ready task runs next. *)
Definition scheduled (ready : list Z) (s' : Sched) : Prop :=
  match ready with
  | [] => True
  | next :: q => running_task (cpu s') = Some next /\ exists more, ready_queue (cpu s') = q ++ more
  end.

Lemma schedule_ok s new_state spawned :
  sched_ok s -> is_Some (running_task (cpu s)) -> allowed s (Schedule new_state spawned) ->
  act s (Schedule new_state spawned) ⇓ fun s' =>
    sched_ok s' /\ is_Some (running_task (cpu s')) /\ scheduled (ready_queue (cpu s) ++ spawned.*1) s'.
Proof.
  intros Hs Hrun [Hnew Hsp]. simpl. unfold schedule.
  eapply returns_bind; [by apply spawns_ok|]. intros s1 (Hs1 & Hq1 & Hr1). rewrite Hr1.
  rewrite bool_decide_true by done. obind. rewrite <- Hq1. destruct Hrun as [cur Hcur]. rewrite Hcur in Hr1.
  unfold choose_next. destruct (ready_queue (cpu s1)) as [|next q] eqn:Eq.
  { obind. split_and!; [done|by rewrite Hr1|done]. }
  destruct (proj1 (s_running s1 Hs1 cur) Hr1) as ([stc ac] & Hc & Hst). simpl in Hst. subst stc.
  destruct (proj1 (s_ready s1 Hs1 next)) as ([stn an] & Hn & Hst); [rewrite Eq; by left|].
  simpl in Hst. subst stn. rewrite Hr1. rewrite (switch_to_eq s1 new_state cur next ac an q) by done. simpl.
  split_and!; [by apply switched_ok|by eexists|done|by eexists].
Qed.

Lemma new_space_ok s a : sched_ok s -> spaces s !! a = None -> sched_ok (new_address_space s a).
Proof.
  intros [Hr Hrd Hb Hnd Hspaces Hactive Hmach] Ha. split; simpl; try done.
  - intros t task Ht. rewrite lookup_insert_is_Some. destruct (decide (a = address_space task)); [by left|].
    right. eauto.
  - intros a'. rewrite lookup_insert_Some, <- Hactive. split; [naive_solver|]. intros Ha'. right.
    split; [|done]. intros <-. congruence.
Qed.

(** Every action: the invariant, and the queue. *)
Definition is_schedule (a : Action) : bool := match a with Schedule _ _ => true | _ => false end.

Definition queue_step (s : Sched) (a : Action) (s' : Sched) : Prop :=
  if is_schedule a then exists more, scheduled (ready_queue (cpu s) ++ more) s'
  else running_task (cpu s') = running_task (cpu s) /\
       exists more, ready_queue (cpu s') = ready_queue (cpu s) ++ more.

Lemma act_ok s a :
  sched_ok s -> is_Some (running_task (cpu s)) -> allowed s a ->
  act s a ⇓ fun s' => sched_ok s' /\ is_Some (running_task (cpu s')) /\ queue_step s a s'.
Proof.
  intros Hs Hrun Ha. destruct a as [a|t a|st l].
  - simpl in *. split_and!; [by apply new_space_ok|done|split; [done|exists []; by rewrite app_nil_r]].
  - simpl act. rewrite spawn_eq. simpl. split_and!; [by apply (spawn_ok s (t, a))|done|].
    split; [done|]. by exists [t].
  - eapply returns_weaken; [by apply schedule_ok|]. intros s' (? & ? & ?). split_and!; [done|done|by eexists].
Qed.

(** ** Booting *)

(** The kernel loads the first tasks, then starts scheduling them. *)
Inductive booted : Sched -> Prop :=
  booted_intro setup spawned s s' :
    Forall (fun a => is_schedule a = false) setup ->
    run (mkSched CpuScheduler_new ∅ ∅ None None) setup s ->
    spawns_allowed s spawned ->
    start_scheduling (fun s => ofold spawn s spawned) s = Val s' -> booted s'.

(** What the system can get to. *)
Inductive reachable : Sched -> Prop :=
  | reachable_boot s : booted s -> reachable s
  | reachable_act s a s' : reachable s -> allowed s a -> act s a = Val s' -> reachable s'.

(** Loading tasks, before anything runs. *)
Lemma setup_ok s setup s' :
  run s setup s' -> Forall (fun a => is_schedule a = false) setup ->
  sched_ok s -> running_task (cpu s) = None -> sched_ok s' /\ running_task (cpu s') = None.
Proof.
  induction 1 as [s|s a s1 l s' Ha E Hrun IH]; intros Hns Hs Hr; [done|].
  apply Forall_cons_1 in Hns as [Hna Hns]. apply IH; [done|..].
  - destruct a as [a|t a|]; [| |done].
    + simpl in *. injection E as <-. by apply new_space_ok.
    + simpl act in E. rewrite spawn_eq in E. injection E as <-. by apply (spawn_ok s (t, a)).
  - destruct a as [a|t a|]; [| |done].
    + simpl in *. by injection E as <-.
    + simpl act in E. rewrite spawn_eq in E. by injection E as <-.
Qed.

(** Nothing runs yet, and nothing is active. *)
Lemma none_active s a : sched_ok s -> running_task (cpu s) = None -> spaces s !! a <> Some Active.
Proof. intros Hs Hr. rewrite (s_active s Hs). rewrite Hr. by intros (? & ? & ? & _). Qed.

Lemma drop_to_userspace_ok s t a q :
  sched_ok s -> running_task (cpu s) = None -> ready_queue (cpu s) = t :: q ->
  tasks s !! t = Some (mkTask Ready a) ->
  drop_to_userspace (set_cpu s (mkCpuScheduler None q (blocked_queue (cpu s)))) t ⇓ fun s' =>
    sched_ok s' /\ running_task (cpu s') = Some t.
Proof.
  intros Hs Hr Hq Ht. pose proof (fun a => none_active s a Hs Hr) as Hno.
  assert (spaces s !! a = Some NotActive) as Ha.
  { destruct (s_spaces s Hs t _ Ht) as [[] Ha]; [done|]. by apply Hno in Ha. }
  unfold drop_to_userspace, task_of. simpl. rewrite Ht. obind.
  rewrite (set_state_eq _ t (mkTask Ready a)) by done. obind. cbn [address_space].
  rewrite switch_space_to_eq by done. obind. split; [|done].
  destruct Hs as [Hrun Hready Hblocked [Hnd1 Hnd2] Hspaces Hactive Hmach].
  rewrite Hq in *. apply list.NoDup_cons in Hnd1 as [Hnq Hnd1].
  assert (forall P, in_state (tasks s) t P <-> P Ready) as Hts.
  { intros P. unfold in_state. rewrite Ht. naive_solver. }
  split; simpl.
  - intros t'. rewrite in_state_insert, <- Hrun, Hr. simpl. naive_solver.
  - intros t'. rewrite in_state_insert, <- Hready, elem_of_cons. simpl. set_solver.
  - intros t'. rewrite in_state_insert, <- Hblocked. simpl. split; [|naive_solver].
    intros Hb. right. split; [|done]. intros ->. by apply Hblocked, Hts in Hb.
  - done.
  - intros t' task. rewrite lookup_insert_Some, lookup_insert_is_Some.
    intros [[<- <-]|[_ Ht']]; simpl; [by left|]. destruct (decide (a = address_space task)); [by left|eauto].
  - intros a'. rewrite lookup_insert_Some. split.
    + intros [[<- _]|[_ Ha']]; [|by apply Hno in Ha'].

      exists t, (mkTask Running a). by rewrite lookup_insert_eq.
    + intros (t' & task & [= <-] & Ht' & <-). rewrite lookup_insert_eq in Ht'. injection Ht' as <-. by left.
  - intros t' task [= <-]. rewrite lookup_insert_eq. by intros [= <-].
Qed.

Lemma initial_ok : sched_ok (mkSched CpuScheduler_new ∅ ∅ None None).
Proof.
  split; simpl; try done.
  - intros t. split; [done|]. by intros (? & ? & _).
  - intros t. split; [by intros ?%elem_of_nil|]. by intros (? & ? & _).
  - intros t. split; [by intros ?%elem_of_nil|]. by intros (? & ? & _).
  - split; constructor.
  - intros a. split; [done|]. by intros (? & ? & ? & _).
Qed.

(** Starting with a task to run. *)
Lemma start_ok s spawned :
  sched_ok s -> running_task (cpu s) = None -> spawns_allowed s spawned ->
  ready_queue (cpu s) ++ spawned.*1 <> [] ->
  start_scheduling (fun s => ofold spawn s spawned) s ⇓ fun s' =>
    sched_ok s' /\ running_task (cpu s') = head (ready_queue (cpu s) ++ spawned.*1).
Proof.
  intros Hs Hr Hsp Hne. unfold start_scheduling.
  eapply returns_bind; [by apply spawns_ok|]. intros s1 (Hs1 & Hq1 & Hr1).
  rewrite <- Hq1 in *. rewrite Hr in Hr1. rewrite Hr1. obind. unfold choose_next.
  destruct (ready_queue (cpu s1)) as [|t q] eqn:Eq; [done|]. obind.
  destruct (proj1 (s_ready s1 Hs1 t)) as ([st a] & Ht & Hst); [rewrite Eq; by left|]. simpl in Hst. subst st.
  unfold task_of. rewrite Ht. obind. cbn [state is_ready]. obind. rewrite Hr1.
  eapply returns_weaken; [by apply (drop_to_userspace_ok s1 t a q)|]. by intros s' [? ?].
Qed.

Lemma reachable_ok s : reachable s -> sched_ok s /\ is_Some (running_task (cpu s)).
Proof.
  induction 1 as [s Hb|s a s' Hr [Hok Hrun] Ha E].
  - destruct Hb as [setup spawned s0 s Hns Hrun Hsp E].
    destruct (setup_ok _ _ _ Hrun Hns initial_ok eq_refl) as [Hok Hr].
    destruct (decide (ready_queue (cpu s0) ++ spawned.*1 = [])) as [Hnil|Hne].
    + exfalso. unfold start_scheduling in E. pose proof (spawns_ok spawned s0 Hok Hsp) as H.
      destruct (ofold spawn s0 spawned) as [s1|]; [|done]. destruct H as (_ & Hq & Hr1).
      revert E. obind. rewrite Hr1, Hr. obind. unfold choose_next. by rewrite Hq, Hnil.
    + pose proof (start_ok s0 spawned Hok Hr Hsp Hne) as H. rewrite E in H. destruct H as [? ->].
      split; [done|]. destruct (ready_queue (cpu s0) ++ spawned.*1); by eauto.
  - pose proof (act_ok s a Hok Hrun Ha) as H. rewrite E in H. naive_solver.
Qed.

(** ** The theorems *)

(** C4: The scheduler is safe: in every state the system can reach from boot,
    through tasks being spawned, yielding, being pre-empted or blocking in any
    order, exactly one task is running, the machine executes it in its own
    address space, which alone is active, and every other task is in the one
    queue its state names; and none of the scheduler's assertions can fail: every
    next action succeeds. *)
Theorem scheduler_safe (s : Sched) (Hreach : reachable s) :
  sched_ok s /\ is_Some (running_task (cpu s)) /\ forall a, allowed s a -> exists s', act s a = Val s'.
Proof.
  destruct (reachable_ok s Hreach) as [Hok Hrun]. split_and!; [done|done|]. intros a Ha.
  pose proof (act_ok s a Hok Hrun Ha) as H. destruct (act s a) as [s'|]; [eauto|done].
Qed.

(** The number of times [schedule] is called. *)
Definition schedules (l : list Action) : nat := length (filter (fun a => is_schedule a = true) l).

Lemma run_queue s l s' : run s l s' -> reachable s -> forall i t,
  ready_queue (cpu s) !! i = Some t -> (schedules l <= i)%nat ->
  ready_queue (cpu s') !! (i - schedules l)%nat = Some t.
Proof.
  induction 1 as [s|s a s1 l s' Ha E Hrun IH]; intros Hreach i t Hi Hn.
  { by rewrite Nat.sub_0_r. }
  destruct (reachable_ok s Hreach) as [Hok Hr]. pose proof (act_ok s a Hok Hr Ha) as H. rewrite E in H.
  destruct H as (_ & _ & Hq). assert (reachable s1) as Hreach1 by eauto using reachable_act.
  unfold schedules, queue_step in *. rewrite filter_cons in *. destruct (is_schedule a).
  - rewrite decide_True in * by done. simpl in Hn. destruct Hq as [more Hq].
    destruct (ready_queue (cpu s)) as [|next q]; [done|]. simpl in Hq. destruct Hq as (_ & more' & Hq).
    destruct i as [|i]; [lia|]. simpl in *. apply (IH Hreach1); [|lia].
    rewrite Hq. rewrite <- app_assoc. by apply lookup_app_l_Some.
  - rewrite decide_False in * by done. destruct Hq as (_ & more & Hq). apply IH; [done| |done].
    rewrite Hq. by apply lookup_app_l_Some.
Qed.

(** C21: Scheduling is fair: whatever the tasks do, and however many tasks are
    spawned in the meantime, the task at position [i] of the ready queue is
    running after [i + 1] more calls of [schedule]. *)
Theorem scheduler_bounded_wait (s s' : Sched) (i : nat) (t : Z) (l : list Action)
  (new_state : TaskState) (spawned : list (Z * Z))
  (Hreach : reachable s) (Ht : ready_queue (cpu s) !! i = Some t)
  (Hrun : run s l s') (Hl : schedules l = i) (Hallowed : allowed s' (Schedule new_state spawned)) :
  act s' (Schedule new_state spawned) ⇓ fun s'' => running_task (cpu s'') = Some t.
Proof.
  assert (reachable s') as Hreach' by (clear -Hreach Hrun; induction Hrun; eauto using reachable_act).
  destruct (reachable_ok s' Hreach') as [Hok Hr].
  pose proof (run_queue s l s' Hrun Hreach i t Ht) as Hq. rewrite Hl, Nat.sub_diag in Hq. specialize (Hq (le_n i)).
  eapply returns_weaken; [by apply schedule_ok|]. intros s'' (_ & _ & Hs). unfold scheduled in Hs.
  destruct (ready_queue (cpu s')) as [|next q]; [done|]. simplify_eq/=. by destruct Hs as [? _].
Qed.

(** ** Three tasks in two address spaces *)

Module SchedulerExample.

Definition setup : list Action := [CreateSpace 1; CreateSpace 2; Spawn 10 1; Spawn 20 2; Spawn 30 1].

Definition started : Sched := mkSched (mkCpuScheduler (Some 10) [20; 30] [])
  (<[10 := mkTask Running 1]> (<[30 := mkTask Ready 1]> (<[20 := mkTask Ready 2]> (<[10 := mkTask Ready 1]> ∅))))
  (<[1 := Active]> (<[2 := NotActive]> (<[1 := NotActive]> ∅))) (Some 1) (Some 10).

Lemma started_reachable : reachable started.
Proof.
  apply reachable_boot, (booted_intro setup []
    (mkSched (mkCpuScheduler None [10; 20; 30] [])
      (<[30 := mkTask Ready 1]> (<[20 := mkTask Ready 2]> (<[10 := mkTask Ready 1]> ∅)))
      (<[2 := NotActive]> (<[1 := NotActive]> ∅)) None None)); [|repeat (eapply run_cons; [..|])|done|done].
  all: try done. all: try apply run_nil. all: try by repeat constructor.
  all: split; [done|by eexists].
Qed.

(** Task 10 can block on an event while a tasklet spawns a fourth task. *)
Lemma scheduler_safe_witness :
  exists s', act started (Schedule (Blocked (OnEvent 5)) [(40, 2)]) = Val s'.
Proof.
  apply (proj2 (proj2 (scheduler_safe started started_reachable))).
  split; [done|]. split; [|done]. split; [done|by eexists].
Defined.

(** Task 50 is spawned, and task 10 blocks. *)
Definition blocked_10 : outcome Sched :=
  s ← act started (Spawn 50 1); act s (Schedule (Blocked (OnEvent 5)) []).

(** Task 30 runs after one more call. *)
Lemma scheduler_bounded_wait_witness :
  (s ← blocked_10; act s (Schedule Ready [])) ⇓ fun s => running_task (cpu s) = Some 30.
Proof.
  destruct blocked_10 as [s|] eqn:E; [|by vm_compute in E].
  assert (Hrun : run started [Spawn 50 1; Schedule (Blocked (OnEvent 5)) []] s).
  { apply bind_Val in E as (s1 & E1 & E2). eapply run_cons; [split; [done|by eexists]|exact E1|].
    eapply run_cons; [by split|exact E2|]. apply run_nil. }
  apply (scheduler_bounded_wait started s 1 30 _ Ready [] started_reachable eq_refl Hrun eq_refl).
  by split.
Defined.

End SchedulerExample.
