(* ===== verification/Ptah.v ===== *)
(** * [lib/ptah]: the wire format of messages

    The serialiser ([ser/mod.rs], [ser/impls.rs]), the deserialiser
    ([de/mod.rs], [de/impls.rs]), the writers of [lib.rs] and of
    [lib/poplar/src/channel.rs], and the code the [ptah_derive] macros generate.
    Bytes are integers below 256.  A Rust integer type of [n] bytes is a wrapper
    around its value, a floating-point number around its bits, a [BTreeMap] an
    association list in key order. *)

From stdpp Require Import base tactics option list numbers.
From S2P Require Import Prelude Bytes Effects.

(** ** Errors and markers *)

Inductive SerError := WriterFullOfBytes | WriterFullOfHandles.

Inductive DeError :=
  | EndOfStream
  | TrailingBytes
  | InvalidHandleSlot (slot : Z)
  | InvalidChar
  | InvalidUtf8
  | InvalidBoolMarker (tag : Z)
  | InvalidOptionMarker (tag : Z)
  | InvalidEnumTag (tag : Z).

Definition MARKER_FALSE : Z := 0x0.
Definition MARKER_TRUE : Z := 0x1.
Definition MARKER_NONE : Z := 0x0.
Definition MARKER_SOME : Z := 0x1.
Definition HANDLE_SLOT_0 : Z := 0xf0.
Definition HANDLE_SLOT_1 : Z := 0xf1.
Definition HANDLE_SLOT_2 : Z := 0xf2.
Definition HANDLE_SLOT_3 : Z := 0xf3.

Definition make_handle_slot (index : Z) : outcome Z :=
  if index =? 0 then Val HANDLE_SLOT_0
  else if index =? 1 then Val HANDLE_SLOT_1
  else if index =? 2 then Val HANDLE_SLOT_2
  else if index =? 3 then Val HANDLE_SLOT_3
  else Panic.

Definition index_from_handle_slot (slot : Z) : outcome Z :=
  if slot =? HANDLE_SLOT_0 then Val 0
  else if slot =? HANDLE_SLOT_1 then Val 1
  else if slot =? HANDLE_SLOT_2 then Val 2
  else if slot =? HANDLE_SLOT_3 then Val 3
  else Panic.

(** ** Rust's primitive types *)

Record uint (n : nat) := Uint { uint_val : Z }.
Record sint (n : nat) := Sint { sint_val : Z }.
Record float (n : nat) := Float { float_bits : Z }.
Record char := Char { char_val : Z }.
Record str := Str { str_bytes : list Z }.
Record array (T : Type) (n : nat) := Array { array_elems : list T }.
Record Handle := mkHandle { handle_val : Z }.
Arguments Uint {n} _.
Arguments uint_val {n} _.
Arguments Sint {n} _.
Arguments sint_val {n} _.
Arguments Float {n} _.
Arguments float_bits {n} _.
Arguments Array {T n} _.
Arguments array_elems {T n} _.

(** [char::from_u32]. *)
Definition char_from_u32 (x : Z) : option Z :=
  if (x <? 0xd800) || (0xe000 <=? x) && (x <=? 0x10ffff) then Some x else None.

Definition in_range (lo hi b : Z) : bool := (lo <=? b) && (b <=? hi).

(** [str::from_utf8(bytes).is_ok()]: the well-formed byte sequences of the
    Unicode standard (table 3-7). *)
Fixpoint utf8_valid (bs : list Z) : bool :=
  match bs with
  | [] => true
  | b :: r =>
      if in_range 0 0x7f b then utf8_valid r
      else match r with
      | [] => false
      | c1 :: r =>
          if in_range 0xc2 0xdf b then in_range 0x80 0xbf c1 && utf8_valid r
          else match r with
          | [] => false
          | c2 :: r =>
              if in_range 0xe0 0xef b then
                in_range (if b =? 0xe0 then 0xa0 else 0x80) (if b =? 0xed then 0x9f else 0xbf) c1
                && in_range 0x80 0xbf c2 && utf8_valid r
              else match r with
              | [] => false
              | c3 :: r =>
                  in_range 0xf0 0xf4 b
                  && in_range (if b =? 0xf0 then 0x90 else 0x80) (if b =? 0xf4 then 0x8f else 0xbf) c1
                  && in_range 0x80 0xbf c2 && in_range 0x80 0xbf c3 && utf8_valid r
              end
          end
      end
  end.

(** ** Writers *)

Class Writer (W : Type) := {
  write : list Z -> M W SerError unit;
  push_handle : Z -> M W SerError Z;
  bytes_written : W -> Z;
}.

Record CursorWriter := mkCursor { buffer : list Z; cursor : nat }.

Definition CursorWriter_new (buf : list Z) : CursorWriter := mkCursor buf 0.

#[export] Instance cursor_writer : Writer CursorWriter := {
  write := fun buf w =>
    if (length (buffer w) <? cursor w + length buf)%nat
    then Val (Err WriterFullOfBytes, w)
    else Val (Ok tt, mkCursor (take (cursor w) (buffer w) ++ buf ++
                               drop (cursor w + length buf) (buffer w))
                              (cursor w + length buf));
  push_handle := fun _ => panic;
  bytes_written := fun w => Z.of_nat (cursor w);
}.

(** [&mut Vec<u8>]. *)
#[export] Instance vec_writer : Writer (list Z) := {
  write := fun buf w => Val (Ok tt, w ++ buf);
  push_handle := fun _ => panic;
  bytes_written := fun w => Z.of_nat (length w);
}.

Record SizeCalculator := mkSize { size : Z }.

#[export] Instance size_calculator : Writer SizeCalculator := {
  write := fun buf w =>
    match uadd (size w) (Z.of_nat (length buf)) with
    | Val n => Val (Ok tt, mkSize n)
    | Panic => Panic
    end;
  push_handle := fun _ => mret HANDLE_SLOT_0;
  bytes_written := size;
}.

(** [lib/poplar/src/channel.rs]. *)
Definition CHANNEL_MAX_NUM_HANDLES : Z := 4.

Record ChannelWriter := mkChannelWriter {
  byte_buffer : list Z;
  handle_buffer : list Z;
  num_handles : Z;
}.

Definition ChannelWriter_new : ChannelWriter :=
  mkChannelWriter [] (replicate (Z.to_nat CHANNEL_MAX_NUM_HANDLES) 0) 0.

Definition ChannelWriter_handles (w : ChannelWriter) : list Z :=
  take (Z.to_nat (num_handles w)) (handle_buffer w).

Definition channel_push_handle (handle : Z) : M ChannelWriter SerError Z := fun w =>
  if num_handles w + 1 >? CHANNEL_MAX_NUM_HANDLES then Val (Err WriterFullOfHandles, w)
  else
    let w1 := mkChannelWriter (byte_buffer w)
                (<[Z.to_nat (num_handles w) := handle]> (handle_buffer w)) (num_handles w) in
    match make_handle_slot (num_handles w) with
    | Panic => Panic
    | Val slot =>
        Val (Ok slot, mkChannelWriter (byte_buffer w1) (handle_buffer w1) (num_handles w + 1))
    end.

#[export] Instance channel_writer : Writer ChannelWriter := {
  write := fun buf w =>
    Val (Ok tt, mkChannelWriter (byte_buffer w ++ buf) (handle_buffer w) (num_handles w));
  push_handle := channel_push_handle;
  bytes_written := fun w => Z.of_nat (length (byte_buffer w));
}.

(** ** [Serializer] *)

Class Serialize (T : Type) :=
  serialize : forall {W : Type} `{Writer W}, T -> M W SerError unit.

Section serializer.
Context {W : Type} `{Writer W}.

Definition serialize_bool (value : bool) : M W SerError unit :=
  match value with
  | false => write [0x00]
  | true => write [0x01]
  end.

(** [serialize_u8] to [serialize_u128], [serialize_i8] to [serialize_i128],
    [serialize_f32] and [serialize_f64]. *)
Definition serialize_uint (n : nat) (value : Z) : M W SerError unit := write (to_le_bytes n value).
Definition serialize_sint (n : nat) (value : Z) : M W SerError unit := write (to_le_bytes n value).
Definition serialize_float (n : nat) (value : Z) : M W SerError unit := write (to_le_bytes n value).

Definition serialize_char (value : Z) : M W SerError unit := write (to_le_bytes 4 value).

Definition serialize_none : M W SerError unit := write [MARKER_NONE].

Definition serialize_some {T} `{Serialize T} (value : T) : M W SerError unit :=
  _ ← write [MARKER_SOME];
  serialize value.

Definition serialize_seq (length : Z) : M W SerError unit := serialize_uint 4 length.
Definition serialize_map (length : Z) : M W SerError unit := serialize_uint 4 length.
Definition serialize_enum_variant (variant_index : Z) : M W SerError unit :=
  serialize_uint 4 variant_index.

Definition serialize_handle (handle : Z) : M W SerError unit :=
  slot ← push_handle handle;
  serialize_uint 1 slot.

(** [for element in self { element.serialize(serializer)?; }] *)
Fixpoint serialize_elements {T} `{Serialize T} (l : list T) : M W SerError unit :=
  match l with
  | [] => mret tt
  | x :: l => _ ← serialize x; serialize_elements l
  end.

Fixpoint serialize_entries {K V} `{Serialize K} `{Serialize V} (l : list (K * V)) :
    M W SerError unit :=
  match l with
  | [] => mret tt
  | (k, v) :: l => _ ← serialize k; _ ← serialize v; serialize_entries l
  end.

End serializer.

(** [len() as u32]. *)
Definition len_u32 {T} (l : list T) : Z := Z.of_nat (length l) mod 2 ^ 32.

#[export] Instance serialize_uint_inst n : Serialize (uint n) := fun W _ x => serialize_uint n (uint_val x).
#[export] Instance serialize_sint_inst n : Serialize (sint n) := fun W _ x => serialize_sint n (sint_val x).
#[export] Instance serialize_float_inst n : Serialize (float n) :=
  fun W _ x => serialize_float n (float_bits x).
#[export] Instance serialize_bool_inst : Serialize bool := fun W _ x => serialize_bool x.
#[export] Instance serialize_char_inst : Serialize char := fun W _ x => serialize_char (char_val x).

Definition serialize_str {W} `{Writer W} (value : list Z) : M W SerError unit :=
  _ ← serialize_seq (len_u32 value);
  serialize_elements (Uint (n := 1) <$> value).

#[export] Instance serialize_str_inst : Serialize str := fun W _ x => serialize_str (str_bytes x).
#[export] Instance serialize_option_inst {T} `{Serialize T} : Serialize (option T) := fun W _ x =>
  match x with
  | Some value => serialize_some value
  | None => serialize_none
  end.
#[export] Instance serialize_array_inst {T} `{Serialize T} n : Serialize (array T n) := fun W _ x =>
  serialize_elements (array_elems x).
(** [impl Serialize for [T]] and [for Vec<T>]. *)
#[export] Instance serialize_vec_inst {T} `{Serialize T} : Serialize (list T) := fun W _ x =>
  _ ← serialize_seq (len_u32 x);
  serialize_elements x.
#[export] Instance serialize_unit_inst : Serialize () := fun W _ _ => mret tt.
(** Tuples of any arity, as nested pairs: the components in order. *)
#[export] Instance serialize_pair_inst {T U} `{Serialize T} `{Serialize U} : Serialize (T * U) :=
  fun W _ x => _ ← serialize x.1; serialize x.2.
#[export] Instance serialize_handle_inst : Serialize Handle := fun W _ x => serialize_handle (handle_val x).

(** [BTreeMap<K, V>]: an association list in key order. *)
Record BTreeMap (K V : Type) := mkBTreeMap { entries : list (K * V) }.
Arguments mkBTreeMap {K V} _.
Arguments entries {K V} _.

#[export] Instance serialize_map_inst {K V} `{Serialize K} `{Serialize V} : Serialize (BTreeMap K V) :=
  fun W _ x =>
  _ ← serialize_map (len_u32 (entries x));
  serialize_entries (entries x).

(** ** [Deserializer] *)

Record Deserializer := mkDeserializer { de_bytes : list Z; de_handles : list Z }.

Abbreviation De := (M Deserializer DeError).

Class Deserialize (T : Type) := deserialize : De T.

Definition take_byte : De Z := fun d =>
  match de_bytes d with
  | [] => Val (Err EndOfStream, d)
  | byte :: bytes => Val (Ok byte, mkDeserializer bytes (de_handles d))
  end.

Definition take_n (n : nat) : De (list Z) := fun d =>
  if (length (de_bytes d) <? n)%nat then Val (Err EndOfStream, d)
  else Val (Ok (take n (de_bytes d)), mkDeserializer (drop n (de_bytes d)) (de_handles d)).

(** [take::<N>], for an array. *)
Definition take_array (n : nat) : De (list Z) := take_n n.

Definition deserialize_bool : De bool :=
  tag ← take_byte;
  if tag =? MARKER_TRUE then mret true
  else if tag =? MARKER_FALSE then mret false
  else fail (InvalidBoolMarker tag).

Definition deserialize_uint (n : nat) : De Z :=
  match n with
  | 1%nat => take_byte
  | _ => bs ← take_array n; mret (from_le_bytes bs)
  end.

Definition deserialize_sint (n : nat) : De Z :=
  match n with
  | 1%nat => b ← take_byte; mret (to_signed 1 b)
  | _ => bs ← take_array n; mret (to_signed n (from_le_bytes bs))
  end.

Definition deserialize_float (n : nat) : De Z :=
  bs ← take_array n; mret (from_le_bytes bs).

Definition deserialize_char : De Z :=
  bs ← take_array 4;
  ok_or (char_from_u32 (from_le_bytes bs)) InvalidChar.

Definition deserialize_str : De (list Z) :=
  length ← deserialize_uint 4;
  bytes ← take_n (Z.to_nat length);
  if utf8_valid bytes then mret bytes else fail InvalidUtf8.

Definition deserialize_option {T} `{Deserialize T} : De (option T) :=
  tag ← take_byte;
  if tag =? MARKER_NONE then mret None
  else if tag =? MARKER_SOME then x ← deserialize; mret (Some x)
  else fail (InvalidOptionMarker tag).

Definition deserialize_enum_tag : De Z := deserialize_uint 4.
Definition deserialize_seq_length : De Z := deserialize_uint 4.
Definition deserialize_map_length : De Z := deserialize_uint 4.

Definition deserialize_handle : De Z :=
  slot ← deserialize_uint 1;
  index ← lift (index_from_handle_slot slot);
  handles ← gets de_handles;
  ok_or (handles !! Z.to_nat index) (InvalidHandleSlot slot).

(** [for _ in 0..n { T::deserialize(deserializer)? }], collected. *)
Fixpoint deserialize_elements {T} `{Deserialize T} (n : nat) : De (list T) :=
  match n with
  | O => mret []
  | S n => x ← deserialize; xs ← deserialize_elements n; mret (x :: xs)
  end.

(** The global allocator, which is not this crate's: whether it has room for a
    vector of [n] elements of a type.  [Vec::with_capacity] panics, or aborts the
    task, where it has not.  (What is allocated for values that have been received
    is not followed.) *)
Class Alloc := has_room : Type -> Z -> bool.

Definition with_capacity `{Alloc} (T : Type) (n : Z) : outcome unit := rassert (has_room T n).

(** [K: Ord]. *)
Class Ord (K : Type) := cmp : K -> K -> comparison.

Section btree.
Context {K V : Type} `{Ord K}.

(** [BTreeMap::insert]: an equal key keeps its place, with the new value. *)
Fixpoint btree_insert (k : K) (v : V) (m : list (K * V)) : list (K * V) :=
  match m with
  | [] => [(k, v)]
  | (k', v') :: m' =>
      match cmp k k' with
      | Lt => (k, v) :: m
      | Eq => (k', v) :: m'
      | Gt => (k', v') :: btree_insert k v m'
      end
  end.

Fixpoint deserialize_entries `{Deserialize K} `{Deserialize V} (n : nat) (m : list (K * V)) :
    De (list (K * V)) :=
  match n with
  | O => mret m
  | S n => k ← deserialize; v ← deserialize; deserialize_entries n (btree_insert k v m)
  end.

End btree.

#[export] Instance deserialize_uint_inst n : Deserialize (uint n) :=
  (x ← deserialize_uint n; mret (Uint x) : De _).
#[export] Instance deserialize_sint_inst n : Deserialize (sint n) :=
  (x ← deserialize_sint n; mret (Sint x) : De _).
#[export] Instance deserialize_float_inst n : Deserialize (float n) :=
  (x ← deserialize_float n; mret (Float x) : De _).
#[export] Instance deserialize_bool_inst : Deserialize bool :=
  (deserialize_bool : De _).
#[export] Instance deserialize_char_inst : Deserialize char :=
  (x ← deserialize_char; mret (Char x) : De _).
#[export] Instance deserialize_str_inst : Deserialize str :=
  (x ← deserialize_str; mret (Str x) : De _).
#[export] Instance deserialize_option_inst {T} `{Deserialize T} : Deserialize (option T) :=
  (deserialize_option : De _).
#[export] Instance deserialize_array_inst {T} `{Deserialize T} n : Deserialize (array T n) :=
  (xs ← deserialize_elements n; mret (Array xs) : De _).
#[export] Instance deserialize_unit_inst : Deserialize () :=
  (mret tt : De _).
#[export] Instance deserialize_vec_inst `{Alloc} {T} `{Deserialize T} : Deserialize (list T) :=
  (length ← deserialize_seq_length;
  lift (with_capacity T length) ;;
  deserialize_elements (Z.to_nat length) : De _).
#[export] Instance deserialize_pair_inst {T U} `{Deserialize T} `{Deserialize U} : Deserialize (T * U) :=
  (x ← deserialize; y ← deserialize; mret (x, y) : De _).
#[export] Instance deserialize_handle_inst : Deserialize Handle :=
  (x ← deserialize_handle; mret (mkHandle x) : De _).
#[export] Instance deserialize_map_inst {K V} `{Ord K} `{Deserialize K} `{Deserialize V} :
    Deserialize (BTreeMap K V) :=
  (length ← deserialize_map_length;
  m ← deserialize_entries (Z.to_nat length) [];
  mret (mkBTreeMap m) : De _).

(** ** Entry points *)

Definition serialized_size {T} `{Serialize T} (value : T) : outcome (result Z SerError) :=
  match serialize value (mkSize 0) with
  | Val (Ok _, w) => Val (Ok (size w))
  | Val (Err e, _) => Val (Err e)
  | Panic => Panic
  end.

Definition to_wire {T} `{Serialize T} {W} `{Writer W} (value : T) : M W SerError Z :=
  _ ← serialize value;
  gets bytes_written.

Definition from_wire {T} `{Deserialize T} (bytes handles : list Z) : outcome (result T DeError) :=
  match deserialize (mkDeserializer bytes handles) with
  | Val (Ok value, d) => Val (if bool_decide (de_bytes d = []) then Ok value else Err TrailingBytes)
  | Val (Err e, _) => Val (Err e)
  | Panic => Panic
  end.

(** ** The code [ptah_derive] generates for an [enum]

    A variant has the tuple of its fields as payload; the tag on the wire is the
    variant's position.  (For a [struct] the macros generate the code of a tuple
    of its fields.) *)

Record Variant (T : Type) := mkVariant {
  payload : Type;
  payload_ser : Serialize payload;
  payload_de : Deserialize payload;
  construct : payload -> T;
  fields : T -> option payload;
}.
Arguments payload {T} _.
Arguments payload_ser {T} _.
Arguments payload_de {T} _.
Arguments construct {T} _.
Arguments fields {T} _.

Section derive.
Context {T : Type} {W : Type} `{Writer W}.

(** [match self { Self::V0(..) => .., Self::V1(..) => .., }]. *)
Fixpoint derive_serialize_enum (variants : list (Variant T)) (i : Z) (x : T) : M W SerError unit :=
  match variants with
  | [] => panic
  | v :: variants =>
      match fields v x with
      | Some p => _ ← serialize_enum_variant i; serialize (Serialize := payload_ser v) p
      | None => derive_serialize_enum variants (i + 1) x
      end
  end.

Definition derive_deserialize_enum (variants : list (Variant T)) : De T :=
  tag ← deserialize_enum_tag;
  match variants !! Z.to_nat tag with
  | Some v => p ← deserialize (Deserialize := payload_de v); mret (construct v p)
  | None => fail (InvalidEnumTag tag)
  end.

End derive.
