(* ===== verification/PtahCorrect.v ===== *)
(** * Ptah: what is written is what is read

    [WriterSpec] is what a writer promises, [PtahSpec] what the two trait
    implementations of a type promise together: the bytes [encode] names are
    written, or an error is returned because they do not fit, and they are read
    back as the same value.  [ptah] derives the implementations of a type from
    those of Ptah and the derive macros; every derivation has a [PtahSpec], and
    its deserialiser panics only at a handle or where a vector of the length a
    message names cannot be allocated. *)

From stdpp Require Import base tactics option list numbers.
From S2P Require Import Prelude Bytes Effects Ptah.

(** ** Writers *)

(** [n] items fit a capacity, [None] being unbounded. *)
Definition fits (cap : option nat) (n : nat) : Prop :=
  match cap with Some c => (n <= c)%nat | None => True end.

(** Sizes are [usize]: a buffer cannot be longer than the address space. *)
Definition addressable (n : nat) : Prop := Z.of_nat n < 2 ^ 64.

(** The slot byte of the [n]th handle of a message. *)
Definition slot_byte (n : nat) : Z := 0xf0 + Z.of_nat n.

Class WriterSpec (W : Type) `{Writer W} := {
  (** The bytes and handles [w] has taken so far. *)
  w_view : W -> list Z -> list Z -> Prop;
  w_cap : W -> option nat;
  w_hcap : W -> option nat;
  (** [push_handle] is implemented. *)
  w_takes_handles : bool;
  w_room : forall w bs hs, w_view w bs hs ->
    fits (w_cap w) (length bs) /\ fits (w_hcap w) (length hs);
  w_count : forall w bs hs, w_view w bs hs -> bytes_written w = Z.of_nat (length bs);
  w_write : forall w bs hs buf, w_view w bs hs -> addressable (length bs + length buf) ->
    write buf w ⇓ fun '(r, w') =>
      match r with
      | Ok _ => fits (w_cap w) (length bs + length buf) /\ w_view w' (bs ++ buf) hs /\
          w_cap w' = w_cap w /\ w_hcap w' = w_hcap w
      | Err _ => ~ fits (w_cap w) (length bs + length buf)
      end;
  w_handle : w_takes_handles = true -> forall w bs hs h,
    w_view w bs hs -> addressable (length bs + 1) ->
    serialize_handle h w ⇓ fun '(r, w') =>
      match r with
      | Ok _ => (fits (w_cap w) (length bs + 1) /\ fits (w_hcap w) (length hs + 1)) /\
          w_view w' (bs ++ [slot_byte (length hs)]) (hs ++ [h]) /\
          w_cap w' = w_cap w /\ w_hcap w' = w_hcap w
      | Err _ => ~ (fits (w_cap w) (length bs + 1) /\ fits (w_hcap w) (length hs + 1))
      end;
}.

#[export] Program Instance cursor_writer_spec : WriterSpec CursorWriter := {
  w_view := fun w bs hs => hs = [] /\ cursor w = length bs /\ take (length bs) (buffer w) = bs;
  w_cap := fun w => Some (length (buffer w));
  w_hcap := fun _ => None;
  w_takes_handles := false;
}.
Next Obligation.
  intros w bs hs (-> & Hc & Ht). simpl. split; [|done].
  rewrite <- Ht, length_take. lia.
Qed.
Next Obligation. intros w bs hs (-> & Hc & Ht). simpl. by rewrite Hc. Qed.
Next Obligation.
  intros w bs hs buf (-> & Hc & Ht) _. simpl. rewrite Hc.
  assert (length bs <= length (buffer w))%nat as Hle by (rewrite <- Ht, length_take; lia).
  destruct (Nat.ltb_spec (length (buffer w)) (length bs + length buf)) as [Hlt|Hge]; simpl; [lia|].
  rewrite Ht. split; [lia|]. split_and!; try done.
  - by rewrite length_app.
  - rewrite app_assoc. by rewrite take_app_le, take_ge by lia.
  - f_equal. rewrite !length_app, length_drop. lia.
Qed.
Next Obligation. done. Qed.

#[export] Program Instance vec_writer_spec : WriterSpec (list Z) := {
  w_view := fun w bs hs => w = bs /\ hs = [];
  w_cap := fun _ => None;
  w_hcap := fun _ => None;
  w_takes_handles := false;
}.
Next Obligation. done. Qed.
Next Obligation. by intros w bs hs [-> ->]. Qed.
Next Obligation. by intros w bs hs buf [-> ->] _. Qed.
Next Obligation. done. Qed.

#[export] Program Instance size_calculator_spec : WriterSpec SizeCalculator := {
  w_view := fun w bs hs => size w = Z.of_nat (length bs);
  w_cap := fun _ => None;
  w_hcap := fun _ => None;
  w_takes_handles := true;
}.
Next Obligation. done. Qed.
Next Obligation. done. Qed.
Next Obligation.
  intros w bs hs buf Hv Ha. cbn [write size_calculator]. unfold addressable in Ha.
  rewrite Hv, wadd_in by (unfold is_unsigned; lia). simpl. split_and!; try done.
  rewrite length_app. lia.
Qed.
Next Obligation.
  intros _ w bs hs h Hv Ha. unfold serialize_handle, serialize_uint. rewrite M_bind_eq.
  cbn -[Z.add uadd]. unfold addressable in Ha.
  rewrite Hv, wadd_in by (unfold is_unsigned; lia). simpl. split_and!; try done.
  rewrite length_app. simpl. lia.
Qed.

#[export] Program Instance channel_writer_spec : WriterSpec ChannelWriter := {
  w_view := fun w bs hs => byte_buffer w = bs /\ ChannelWriter_handles w = hs /\
    num_handles w = Z.of_nat (length hs) /\ length (handle_buffer w) = 4%nat;
  w_cap := fun _ => None;
  w_hcap := fun _ => Some 4%nat;
  w_takes_handles := true;
}.
Next Obligation.
  intros w bs hs (_ & Hh & Hn & Hl). simpl. split; [done|].
  rewrite <- Hh. unfold ChannelWriter_handles. rewrite length_take. lia.
Qed.
Next Obligation. intros w bs hs (<- & _). done. Qed.
Next Obligation. intros w bs hs buf (<- & Hh & Hn & Hl) _. simpl. done. Qed.
Next Obligation.
  intros _ w bs hs h (<- & Hh & Hn & Hl) _. unfold serialize_handle. rewrite M_bind_eq.
  cbn [push_handle channel_writer]. unfold channel_push_handle, CHANNEL_MAX_NUM_HANDLES.
  assert (length hs <= 4)%nat as Hle.
  { rewrite <- Hh. unfold ChannelWriter_handles. rewrite length_take. lia. }
  destruct (Z.gtb_spec (num_handles w + 1) 4) as [Hfull|Hroom].
  { simpl. lia. }
  assert (make_handle_slot (num_handles w) = Val (slot_byte (length hs))) as ->.
  { rewrite Hn. destruct (length hs) as [|[|[|[|?]]]]; try done. lia. }
  simpl. split; [lia|]. split; [|done].
  assert (slot_byte (length hs) mod 256 = slot_byte (length hs)) as ->
    by (apply Z.mod_small; unfold slot_byte; lia).
  split_and!.
  - done.
  - unfold ChannelWriter_handles in *. simpl. rewrite Hn in *.
    replace (Z.to_nat (Z.of_nat (length hs) + 1)) with (S (length hs)) by lia.
    rewrite Nat2Z.id in *.
    rewrite (take_S_r _ _ h) by (apply list_lookup_insert_eq; lia).
    rewrite take_insert_ge by lia. by rewrite Hh.
  - rewrite length_app. simpl. lia.
  - by rewrite length_insert.
Qed.

(** ** What a serialisation does to any writer *)

(** [m] writes the bytes [enc n], [n] being the number of handles already in the
    message, and pushes the handles [new]; it fails exactly if they do not fit. *)
Definition serializes (m : forall W, Writer W -> M W SerError unit) (enc : nat -> list Z)
    (new : list Z) : Prop :=
  forall W `(WriterSpec W) (w : W) bs hs,
    w_view w bs hs -> new = [] \/ w_takes_handles = true ->
    addressable (length bs + length (enc (length hs))) ->
    m W _ w ⇓ fun '(r, w') =>
      let room := fits (w_cap w) (length bs + length (enc (length hs))) /\
                  fits (w_hcap w) (length hs + length new) in
      match r with
      | Ok _ => room /\ w_view w' (bs ++ enc (length hs)) (hs ++ new) /\
          w_cap w' = w_cap w /\ w_hcap w' = w_hcap w
      | Err _ => ~ room
      end.

Lemma fits_le cap n m : (n <= m)%nat -> fits cap m -> fits cap n.
Proof. destruct cap; simpl; lia. Qed.

Lemma serializes_write buf : serializes (fun W _ => write buf) (fun _ => buf) [].
Proof.
  intros W HW HS w bs hs Hv _ Ha. destruct (w_room w bs hs Hv) as [_ Hh].
  eapply returns_weaken; [by apply (w_write w bs hs buf)|].
  intros [[u|e] w'] Hr; simpl; rewrite Nat.add_0_r, ?app_nil_r; tauto.
Qed.

Lemma serializes_ret : serializes (fun W _ => mret tt) (fun _ => []) [].
Proof.
  intros W HW HS w bs hs Hv _ Ha. destruct (w_room w bs hs Hv).
  simpl. by rewrite !Nat.add_0_r, !app_nil_r.
Qed.

Lemma serializes_handle h :
  serializes (fun W _ => serialize_handle h) (fun n => [slot_byte n]) [h].
Proof.
  intros W HW HS w bs hs Hv [|Ht] Ha; [done|].
  eapply returns_weaken; [by apply (w_handle Ht w bs hs h)|]. by intros [[u|e] w'] Hr.
Qed.

Lemma serializes_seq m1 m2 e1 e2 h1 h2 :
  serializes m1 e1 h1 -> serializes m2 e2 h2 ->
  serializes (fun W HW => _ ← m1 W HW; m2 W HW)
    (fun n => e1 n ++ e2 (n + length h1)%nat) (h1 ++ h2).
Proof.
  intros H1 H2 W HW HS w bs hs Hv Ht Ha. unfold addressable in Ha. rewrite length_app in Ha.
  assert ((h1 = [] \/ w_takes_handles = true) /\ (h2 = [] \/ w_takes_handles = true)) as [Ht1 Ht2].
  { destruct Ht as [[-> ->]%app_nil|]; auto. }
  eapply M_returns_bind.
  { apply (H1 W _ _ w bs hs Hv Ht1). unfold addressable. lia. }
  - intros u w1 (Hr & Hv1 & Hc & Hhc).
    eapply returns_weaken.
    { apply (H2 W _ _ w1 _ _ Hv1 Ht2). unfold addressable. rewrite !length_app. lia. }
    intros [[u2|e] w2]; simpl; rewrite Hc, Hhc, !length_app, ?app_assoc, !Nat.add_assoc; tauto.
  - intros e w1 Hr. rewrite !length_app. simpl. intros [Hf Hh]. apply Hr.
    split; [eapply fits_le; [|exact Hf]|eapply fits_le; [|exact Hh]]; lia.
Qed.

Lemma serializes_ext m1 m2 e1 e2 h1 h2 :
  (forall W HW w, m1 W HW w = m2 W HW w) -> (forall n, e1 n = e2 n) -> h1 = h2 ->
  serializes m1 e1 h1 -> serializes m2 e2 h2.
Proof. intros Hm He -> H1 W HW HS w bs hs. rewrite <- Hm, <- !He. by apply H1. Qed.

(** ** What the implementations of a type promise *)

Class PtahSpec (T : Type) `{Serialize T} `{Deserialize T} := {
  (** The value is one of the Rust type, short enough for its length fields. *)
  valid : T -> Prop;
  encode : nat -> T -> list Z;
  handles_of : T -> list Z;
  ser_spec : forall x, valid x -> serializes (fun W _ => serialize x) (fun n => encode n x) (handles_of x);
  de_spec : forall x n rest hs, valid x -> (n + length (handles_of x) <= 4)%nat ->
    (forall i h, handles_of x !! i = Some h -> hs !! (n + i)%nat = Some h) ->
    deserialize (mkDeserializer (encode n x ++ rest) hs) = Val (Ok x, mkDeserializer rest hs);
}.

(** *** Reading from the front *)

Lemma take_n_app bs rest hs :
  take_n (length bs) (mkDeserializer (bs ++ rest) hs) = Val (Ok bs, mkDeserializer rest hs).
Proof.
  unfold take_n. simpl. rewrite length_app.
  replace (length bs + length rest <? length bs)%nat with false by (symmetry; apply Nat.ltb_ge; lia).
  by rewrite take_app_length, drop_app_length.
Qed.

Lemma take_le_bytes n v rest hs :
  take_array n (mkDeserializer (to_le_bytes n v ++ rest) hs) =
    Val (Ok (to_le_bytes n v), mkDeserializer rest hs).
Proof. pose proof (take_n_app (to_le_bytes n v) rest hs) as H. by rewrite length_to_le_bytes in H. Qed.

Lemma deserialize_uint_app n v rest hs :
  is_unsigned (8 * Z.of_nat n) v ->
  deserialize_uint n (mkDeserializer (to_le_bytes n v ++ rest) hs) =
    Val (Ok v, mkDeserializer rest hs).
Proof.
  intros Hv.
  assert ((bs ← take_array n; mret (from_le_bytes bs) : De Z)
    (mkDeserializer (to_le_bytes n v ++ rest) hs) = Val (Ok v, mkDeserializer rest hs)) as Hgen.
  { rewrite (M_bind_Ok _ _ _ _ _ (take_le_bytes n v rest hs)).
    rewrite from_to_le_bytes, Z.mod_small by exact Hv. done. }
  destruct n as [|[|n]]; [exact Hgen| |exact Hgen].
  simpl. unfold is_unsigned in Hv. by rewrite Z.mod_small by lia.
Qed.

(** *** Primitive types *)

#[export] Program Instance uint_spec n : PtahSpec (uint n) := {
  valid := fun x => is_unsigned (8 * Z.of_nat n) (uint_val x);
  encode := fun _ x => to_le_bytes n (uint_val x);
  handles_of := fun _ => [];
}.
Next Obligation. intros n x _. apply serializes_write. Qed.
Next Obligation.
  intros n [v] k rest hs Hv _ _. unfold deserialize, deserialize_uint_inst.
  by rewrite (M_bind_Ok _ _ _ _ _ (deserialize_uint_app n v rest hs Hv)).
Qed.

#[export] Program Instance sint_spec n : PtahSpec (sint (S n)) := {
  valid := fun x => - 2 ^ (8 * Z.of_nat (S n) - 1) <= sint_val x < 2 ^ (8 * Z.of_nat (S n) - 1);
  encode := fun _ x => to_le_bytes (S n) (sint_val x);
  handles_of := fun _ => [];
}.
Next Obligation. intros n x _. apply serializes_write. Qed.
Next Obligation.
  intros n [v] k rest hs Hv _ _. unfold deserialize, deserialize_sint_inst.
  assert (deserialize_sint (S n) (mkDeserializer (to_le_bytes (S n) v ++ rest) hs) =
    Val (Ok v, mkDeserializer rest hs)) as E.
  { cbn [sint_val] in Hv. pose proof (to_signed_mod (S n) v ltac:(lia) Hv) as Hs. destruct n as [|n].
    - transitivity (Val (Ok (to_signed 1 (v mod 2 ^ (8 * Z.of_nat 1))), mkDeserializer rest hs) :
        outcome (result Z DeError * Deserializer)); [done|by rewrite Hs].
    - unfold deserialize_sint. rewrite (M_bind_Ok _ _ _ _ _ (take_le_bytes (S (S n)) v rest hs)).
      by rewrite from_to_le_bytes, Hs. }
  by rewrite (M_bind_Ok _ _ _ _ _ E).
Qed.

#[export] Program Instance float_spec n : PtahSpec (float n) := {
  valid := fun x => is_unsigned (8 * Z.of_nat n) (float_bits x);
  encode := fun _ x => to_le_bytes n (float_bits x);
  handles_of := fun _ => [];
}.
Next Obligation. intros n x _. apply serializes_write. Qed.
Next Obligation.
  intros n [v] k rest hs Hv _ _. unfold deserialize, deserialize_float_inst, deserialize_float.
  cbn [float_bits] in *. rewrite M_bind_eq, (M_bind_Ok _ _ _ _ _ (take_le_bytes n v rest hs)).
  rewrite from_to_le_bytes, Z.mod_small by exact Hv. done.
Qed.

#[export] Program Instance bool_spec : PtahSpec bool := {
  valid := fun _ => True;
  encode := fun _ x => [if x then MARKER_TRUE else MARKER_FALSE];
  handles_of := fun _ => [];
}.
Next Obligation. intros [] _; apply serializes_write. Qed.
Next Obligation. by intros []. Qed.

#[export] Program Instance char_spec : PtahSpec char := {
  valid := fun x => 0 <= char_val x /\ char_from_u32 (char_val x) = Some (char_val x);
  encode := fun _ x => to_le_bytes 4 (char_val x);
  handles_of := fun _ => [];
}.
Next Obligation. intros x _. apply serializes_write. Qed.
Next Obligation.
  intros [v] k rest hs [Hv Hc] _ _. cbn [char_val] in *.
  assert (is_unsigned 32 v) as Hu.
  { unfold char_from_u32 in Hc. destruct (v <? 0xd800) eqn:?; unfold is_unsigned; [lia|].
    destruct ((0xe000 <=? v) && (v <=? 0x10ffff)) eqn:?; [lia|done]. }
  unfold deserialize, deserialize_char_inst, deserialize_char.
  rewrite M_bind_eq, (M_bind_Ok _ _ _ _ _ (take_le_bytes 4 v rest hs)).
  rewrite from_to_le_bytes, Z.mod_small by exact Hu. by rewrite Hc.
Qed.

#[export] Program Instance unit_spec : PtahSpec () := {
  valid := fun _ => True;
  encode := fun _ _ => [];
  handles_of := fun _ => [];
}.
Next Obligation. intros x _. apply serializes_ret. Qed.
Next Obligation. by intros []. Qed.

#[export] Program Instance handle_spec : PtahSpec Handle := {
  valid := fun _ => True;
  encode := fun n _ => [slot_byte n];
  handles_of := fun x => [handle_val x];
}.
Next Obligation. intros x _. apply serializes_handle. Qed.
Next Obligation.
  intros [h] n rest hs _ Hn Hh. simpl in Hn. specialize (Hh 0%nat h eq_refl).
  rewrite Nat.add_0_r in Hh.
  assert (index_from_handle_slot (slot_byte n) = Val (Z.of_nat n)) as Hi
    by (destruct n as [|[|[|[|?]]]]; done || lia).
  unfold deserialize, deserialize_handle_inst, deserialize_handle.
  rewrite !M_bind_eq. cbn [deserialize_uint take_byte de_bytes app]. unfold take_byte. simpl.
  unfold mbind, M_bind, lift. rewrite Hi. simpl. by rewrite Nat2Z.id, Hh.
Qed.

(** *** Sequences *)

Section elements.
Context {T : Type} `{HS : Serialize T} `{HD : Deserialize T} `{HP : !PtahSpec T}.

Fixpoint encode_list (n : nat) (l : list T) : list Z :=
  match l with
  | [] => []
  | x :: l => encode n x ++ encode_list (n + length (handles_of x)) l
  end.

Definition handles_list (l : list T) : list Z := l ≫= handles_of.

Lemma serializes_elements l : Forall valid l ->
  serializes (fun W _ => serialize_elements l) (fun n => encode_list n l) (handles_list l).
Proof.
  induction 1 as [|x l Hx Hl IH]; [apply serializes_ret|].
  apply (serializes_seq _ _ _ _ _ _ (ser_spec x Hx) IH).
Qed.

Lemma deserialize_elements_spec l : forall n rest hs,
  Forall valid l -> (n + length (handles_list l) <= 4)%nat ->
  (forall i h, handles_list l !! i = Some h -> hs !! (n + i)%nat = Some h) ->
  deserialize_elements (length l) (mkDeserializer (encode_list n l ++ rest) hs) =
    Val (Ok l, mkDeserializer rest hs).
Proof.
  induction l as [|x l IH]; intros n rest hs Hv Hn Hh; [done|].
  apply Forall_cons_1 in Hv as [Hx Hl]. cbn [handles_list mbind list_bind] in Hn, Hh.
  fold (handles_list l) in Hn, Hh. rewrite length_app in Hn.
  cbn [length deserialize_elements encode_list]. rewrite <- app_assoc.
  rewrite (M_bind_Ok _ _ _ x (mkDeserializer (encode_list (n + length (handles_of x)) l ++ rest) hs)).
  2:{ apply de_spec; [done|lia|]. intros i h Hi. apply Hh. by apply lookup_app_l_Some. }
  rewrite (M_bind_Ok _ _ _ l (mkDeserializer rest hs)); [done|].
  apply IH; [done|lia|]. intros i h Hi. rewrite <- Nat.add_assoc. apply Hh.
  rewrite lookup_app_r by lia. by replace (length (handles_of x) + i - length (handles_of x))%nat with i by lia.
Qed.

End elements.

Lemma len_u32_small {T} (l : list T) :
  Z.of_nat (length l) < 2 ^ 32 -> len_u32 l = Z.of_nat (length l) /\ is_unsigned 32 (Z.of_nat (length l)).
Proof. intros Hl. unfold len_u32, is_unsigned. rewrite Z.mod_small by lia. lia. Qed.

(** A length and what follows it. *)
Lemma deserialize_length_app k rest hs :
  is_unsigned 32 k ->
  deserialize_uint 4 (mkDeserializer (to_le_bytes 4 k ++ rest) hs) = Val (Ok k, mkDeserializer rest hs).
Proof. intros Hk. by apply deserialize_uint_app. Qed.

#[export] Program Instance vec_spec `{Alloc} {T} `{PtahSpec T} : PtahSpec (list T) := {
  valid := fun l => Forall valid l /\ Z.of_nat (length l) < 2 ^ 32 /\ has_room T (Z.of_nat (length l)) = true;
  encode := fun n l => to_le_bytes 4 (Z.of_nat (length l)) ++ encode_list n l;
  handles_of := handles_list;
}.
Next Obligation.
  intros A T HS HD HP l (Hl & Hlen & _). destruct (len_u32_small l Hlen) as [E _].
  eapply serializes_ext; cycle 3.
  { eapply serializes_seq;
      [apply (serializes_write (to_le_bytes 4 (Z.of_nat (length l))))|by apply serializes_elements]. }
  - intros W HW w. unfold serialize, serialize_vec_inst. by rewrite E.
  - intros n. simpl. by rewrite Nat.add_0_r.
  - done.
Qed.
Next Obligation.
  intros A T HS HD HP l n rest hs (Hl & Hlen & Hroom) Hn Hh. destruct (len_u32_small l Hlen) as [_ Hu].
  unfold deserialize, deserialize_vec_inst, deserialize_seq_length. rewrite <- app_assoc.
  rewrite (M_bind_Ok _ _ _ _ _ (deserialize_length_app _ _ hs Hu)), Nat2Z.id.
  rewrite M_bind_eq. unfold lift, with_capacity. rewrite Hroom. cbn [rassert].
  by apply deserialize_elements_spec.
Qed.

#[export] Program Instance array_spec {T} `{PtahSpec T} k : PtahSpec (array T k) := {
  valid := fun a => Forall valid (array_elems a) /\ length (array_elems a) = k;
  encode := fun n a => encode_list n (array_elems a);
  handles_of := fun a => handles_list (array_elems a);
}.
Next Obligation. intros T HS HD HP k [l] [Hl _]. by apply serializes_elements. Qed.
Next Obligation.
  intros T HS HD HP k [l] n rest hs [Hl <-] Hn Hh. cbn [array_elems] in *.
  unfold deserialize, deserialize_array_inst.
  by rewrite (M_bind_Ok _ _ _ _ _ (deserialize_elements_spec l n rest hs Hl Hn Hh)).
Qed.

Definition encode_option {T} `{PtahSpec T} (n : nat) (o : option T) : list Z :=
  match o with Some x => MARKER_SOME :: encode n x | None => [MARKER_NONE] end.
Definition handles_option {T} `{PtahSpec T} (o : option T) : list Z :=
  match o with Some x => handles_of x | None => [] end.

#[export] Program Instance option_spec {T} `{PtahSpec T} : PtahSpec (option T) := {
  valid := fun o => forall x, o = Some x -> valid x;
  encode := encode_option;
  handles_of := handles_option;
}.
Next Obligation.
  intros T HS HD HP [x|] Hv; [|apply (serializes_write [MARKER_NONE])].
  eapply serializes_ext; cycle 3.
  { eapply serializes_seq;
      [apply (serializes_write [MARKER_SOME])|apply ser_spec; auto]. }
  - done.
  - intros n. simpl. by rewrite Nat.add_0_r.
  - done.
Qed.
Next Obligation.
  intros T HS HD HP [x|] n rest hs Hv Hn Hh; [|done].
  pose proof (de_spec x n rest hs (Hv x eq_refl) Hn Hh) as E.
  unfold deserialize, deserialize_option_inst, deserialize_option.
  rewrite M_bind_eq. simpl. by rewrite (M_bind_Ok _ _ _ _ _ E).
Qed.

#[export] Program Instance pair_spec {T U} `{PtahSpec T} `{PtahSpec U} : PtahSpec (T * U) := {
  valid := fun p => valid p.1 /\ valid p.2;
  encode := fun n p => encode n p.1 ++ encode (n + length (handles_of p.1)) p.2;
  handles_of := fun p => handles_of p.1 ++ handles_of p.2;
}.
Next Obligation.
  intros T U HS HD HP HS' HD' HP' [x y] [Hx Hy].
  apply (serializes_seq _ _ _ _ _ _ (ser_spec x Hx) (ser_spec y Hy)).
Qed.
Next Obligation.
  intros T U HS HD HP HS' HD' HP' [x y] n rest hs [Hx Hy] Hn Hh. cbn [fst snd] in *.
  rewrite length_app in Hn. unfold deserialize, deserialize_pair_inst. rewrite <- app_assoc.
  rewrite (M_bind_Ok _ _ _ x (mkDeserializer (encode (n + length (handles_of x)) y ++ rest) hs)).
  2:{ apply de_spec; [done|lia|]. intros i h Hi. apply Hh. by apply lookup_app_l_Some. }
  rewrite (M_bind_Ok _ _ _ y (mkDeserializer rest hs)); [done|].
  apply de_spec; [done|lia|]. intros i h Hi. rewrite <- Nat.add_assoc. apply Hh.
  rewrite lookup_app_r by lia. by replace (length (handles_of x) + i - length (handles_of x))%nat with i by lia.
Qed.

(** *** Strings *)

Lemma encode_list_bytes n bs :
  Forall (is_unsigned 8) bs -> encode_list n (Uint (n := 1) <$> bs) = bs.
Proof.
  intros Hb. revert n. induction Hb as [|b bs [H0 H1] Hb IH]; intros n; [done|].
  cbn [fmap list_fmap encode_list encode uint_spec to_le_bytes uint_val app].
  rewrite Z.mod_small by lia. f_equal. apply IH.
Qed.

Lemma handles_list_bytes bs : handles_list (Uint (n := 1) <$> bs) = [].
Proof. induction bs; [done|]. exact IHbs. Qed.

#[export] Program Instance str_spec : PtahSpec str := {
  valid := fun s => Forall (is_unsigned 8) (str_bytes s) /\ utf8_valid (str_bytes s) = true /\
    Z.of_nat (length (str_bytes s)) < 2 ^ 32;
  encode := fun _ s => to_le_bytes 4 (Z.of_nat (length (str_bytes s))) ++ str_bytes s;
  handles_of := fun _ => [];
}.
Next Obligation.
  intros [bs] (Hb & _ & Hlen). cbn [str_bytes] in *. destruct (len_u32_small bs Hlen) as [E _].
  eapply serializes_ext; cycle 3.
  { eapply serializes_seq; [apply (serializes_write (to_le_bytes 4 (Z.of_nat (length bs))))|].
    apply (serializes_elements (Uint (n := 1) <$> bs)). apply Forall_fmap. exact Hb. }
  - intros W HW w. unfold serialize, serialize_str_inst, serialize_str. cbn [str_bytes]. by rewrite E.
  - intros n. cbn beta. by rewrite encode_list_bytes.
  - simpl. apply handles_list_bytes.
Qed.
Next Obligation.
  intros [bs] n rest hs (Hb & Hutf & Hlen) _ _. cbn [str_bytes] in *.
  destruct (len_u32_small bs Hlen) as [_ Hu].
  unfold deserialize, deserialize_str_inst, deserialize_str. rewrite <- app_assoc.
  rewrite M_bind_eq, (M_bind_Ok _ _ _ _ _ (deserialize_length_app _ _ hs Hu)), Nat2Z.id.
  rewrite (M_bind_Ok _ _ _ _ _ (take_n_app bs rest hs)). by rewrite Hutf.
Qed.

(** *** Maps *)

Class OrdSpec (K : Type) `{Ord K} : Prop := cmp_antisym : forall x y : K, cmp y x = CompOpp (cmp x y).

#[export] Instance uint_ord n : Ord (uint n) := fun x y => Z.compare (uint_val x) (uint_val y).
#[export] Instance uint_ord_spec n : OrdSpec (uint n).
Proof. intros x y. apply Z.compare_antisym. Qed.

(** The keys come in strictly increasing order. *)
Fixpoint keys_sorted {K V} `{Ord K} (l : list (K * V)) : Prop :=
  match l with
  | [] => True
  | (k, _) :: l => Forall (fun e => cmp k e.1 = Lt) l /\ keys_sorted l
  end.

Section maps.
Context {K V : Type} `{HO : Ord K} `{!OrdSpec K}.
Context `{HSK : Serialize K} `{HDK : Deserialize K} `{HPK : !PtahSpec K}.
Context `{HSV : Serialize V} `{HDV : Deserialize V} `{HPV : !PtahSpec V}.

Lemma serializes_entries (l : list (K * V)) : Forall valid l ->
  serializes (fun W _ => serialize_entries l) (fun n => encode_list n l) (handles_list l).
Proof.
  induction 1 as [|[k v] l [Hk Hv] Hl IH]; [apply serializes_ret|].
  eapply serializes_ext; cycle 3.
  { eapply serializes_seq; [apply (ser_spec k Hk)|].
    eapply serializes_seq; [apply (ser_spec v Hv)|exact IH]. }
  - done.
  - intros n. cbn -[Nat.add]. rewrite length_app, <- app_assoc, Nat.add_assoc. done.
  - cbn. by rewrite <- app_assoc.
Qed.

Lemma btree_insert_last (k : K) (v : V) m :
  Forall (fun e => cmp e.1 k = Lt) m -> btree_insert k v m = m ++ [(k, v)].
Proof.
  induction 1 as [|[k' v'] m Hk Hm IH]; [done|]. cbn in *.
  rewrite (cmp_antisym k' k), Hk. cbn. by rewrite IH.
Qed.

Lemma deserialize_entries_spec (l : list (K * V)) : forall n m rest hs,
  Forall valid l -> keys_sorted l -> (forall e, e ∈ l -> Forall (fun e' => cmp e'.1 e.1 = Lt) m) ->
  (n + length (handles_list l) <= 4)%nat ->
  (forall i h, handles_list l !! i = Some h -> hs !! (n + i)%nat = Some h) ->
  deserialize_entries (length l) m (mkDeserializer (encode_list n l ++ rest) hs) =
    Val (Ok (m ++ l), mkDeserializer rest hs).
Proof.
  induction l as [|[k v] l IH]; intros n m rest hs Hv Hs Hm Hn Hh.
  { cbn. by rewrite app_nil_r. }
  apply Forall_cons_1 in Hv as [Hkv Hl]. destruct Hs as [Hlt Hs].
  cbn [handles_list mbind list_bind] in Hn, Hh. fold (handles_list l) in Hn, Hh.
  rewrite length_app in Hn. cbn [length deserialize_entries encode_list]. rewrite <- app_assoc.
  set (n' := (n + length (handles_of (k, v)))%nat).
  assert (deserialize (mkDeserializer (encode n (k, v) ++ encode_list n' l ++ rest) hs) =
    Val (Ok (k, v), mkDeserializer (encode_list n' l ++ rest) hs)) as E.
  { apply de_spec; [done|lia|]. intros i h Hi. apply Hh. by apply lookup_app_l_Some. }
  unfold deserialize, deserialize_pair_inst in E. rewrite !M_bind_eq in E. rewrite !M_bind_eq.
  destruct (deserialize (mkDeserializer _ hs)) as [[[k0|] d1]|]; try done.
  rewrite M_bind_eq in E. rewrite M_bind_eq.
  destruct (deserialize d1) as [[[v0|] d2]|]; try done. injection E as -> -> ->.
  rewrite btree_insert_last by (apply (Hm (k, v)); left).
  replace (m ++ (k, v) :: l) with ((m ++ [(k, v)]) ++ l) by (by rewrite <- app_assoc).
  apply IH; auto.
  - intros e He. apply Forall_app. split; [apply (Hm e); by right|].
    apply Forall_singleton. rewrite Forall_forall in Hlt. apply Hlt; by apply list_elem_of_In.
  - lia.
  - intros i h Hi. unfold n'. rewrite <- Nat.add_assoc. apply Hh. rewrite lookup_app_r by lia.
    by replace (length (handles_of (k, v)) + i - length (handles_of (k, v)))%nat with i by lia.
Qed.

#[export] Program Instance map_spec : PtahSpec (BTreeMap K V) := {
  valid := fun m => Forall valid (entries m) /\ keys_sorted (entries m) /\
    Z.of_nat (length (entries m)) < 2 ^ 32;
  encode := fun n m => to_le_bytes 4 (Z.of_nat (length (entries m))) ++ encode_list n (entries m);
  handles_of := fun m => handles_list (entries m);
}.
Next Obligation.
  intros [l] (Hl & _ & Hlen). cbn [entries] in *. destruct (len_u32_small l Hlen) as [E _].
  eapply serializes_ext; cycle 3.
  { eapply serializes_seq; [apply (serializes_write (to_le_bytes 4 (Z.of_nat (length l))))|].
    by apply serializes_entries. }
  - intros W HW w. unfold serialize, serialize_map_inst. cbn [entries]. by rewrite E.
  - intros n. cbn beta. by rewrite Nat.add_0_r.
  - done.
Qed.
Next Obligation.
  intros [l] n rest hs (Hl & Hs & Hlen) Hn Hh. cbn [entries] in *.
  destruct (len_u32_small l Hlen) as [_ Hu].
  unfold deserialize, deserialize_map_inst, deserialize_map_length. rewrite <- app_assoc.
  rewrite (M_bind_Ok _ _ _ _ _ (deserialize_length_app _ _ hs Hu)), Nat2Z.id.
  rewrite (M_bind_Ok _ _ _ _ _ (deserialize_entries_spec l n [] rest hs Hl Hs ltac:(done) Hn Hh)). done.
Qed.

End maps.

(** *** Derived enums and structs *)

Record SpecVariant (T : Type) := mkSpecVariant {
  sv_variant : Variant T;
  sv_spec : @PtahSpec (payload sv_variant) (payload_ser sv_variant) (payload_de sv_variant);
}.
Arguments mkSpecVariant {T} _ _.
Arguments sv_variant {T} _.
Arguments sv_spec {T} _.

Section enums.
Context {T : Type} (vs : list (SpecVariant T)) (Hlen : Z.of_nat (length vs) < 2 ^ 32).

Definition sv_valid (v : SpecVariant T) (p : payload (sv_variant v)) : Prop :=
  valid (PtahSpec := sv_spec v) p.
Definition sv_encode (v : SpecVariant T) (n : nat) (p : payload (sv_variant v)) : list Z :=
  encode (PtahSpec := sv_spec v) n p.
Definition sv_handles (v : SpecVariant T) (p : payload (sv_variant v)) : list Z :=
  handles_of (PtahSpec := sv_spec v) p.

(** The first variant [x] is of, with its position and its fields. *)
Fixpoint pick (vs : list (SpecVariant T)) (i : nat) (x : T) :
    option (nat * { v : SpecVariant T & payload (sv_variant v) }) :=
  match vs with
  | [] => None
  | v :: vs =>
      match fields (sv_variant v) x with
      | Some p => Some (i, existT v p)
      | None => pick vs (S i) x
      end
  end.

Definition enum_valid (x : T) : Prop :=
  match pick vs 0 x with
  | Some (_, existT v p) => sv_valid v p /\ construct (sv_variant v) p = x
  | None => False
  end.
Definition enum_encode (n : nat) (x : T) : list Z :=
  match pick vs 0 x with
  | Some (i, existT v p) => to_le_bytes 4 (Z.of_nat i) ++ sv_encode v n p
  | None => []
  end.
Definition enum_handles (x : T) : list Z :=
  match pick vs 0 x with
  | Some (_, existT v p) => sv_handles v p
  | None => []
  end.

Lemma pick_lookup l x : forall i,
  match pick l i x with
  | Some (j, existT v _) => (i <= j)%nat /\ l !! (j - i)%nat = Some v
  | None => True
  end.
Proof.
  induction l as [|u l IH]; intros i; [done|]. simpl.
  destruct (fields (sv_variant u) x) as [q|]; [by rewrite Nat.sub_diag|].
  specialize (IH (S i)). destruct (pick l (S i) x) as [[j [v p]]|]; [|done].
  destruct IH as [Hle Hl]. split; [lia|]. by replace (j - i)%nat with (S (j - S i)) by lia.
Qed.

Lemma derive_serialize_enum_spec x : forall l i,
  match pick l i x with
  | Some (j, existT v p) => sv_valid v p ->
      serializes (fun W _ => derive_serialize_enum (sv_variant <$> l) (Z.of_nat i) x)
        (fun n => to_le_bytes 4 (Z.of_nat j) ++ sv_encode v n p) (sv_handles v p)
  | None => True
  end.
Proof.
  induction l as [|u l IH]; intros i; [done|].
  cbn [fmap list_fmap derive_serialize_enum pick].
  destruct (fields (sv_variant u) x) as [q|] eqn:Hf.
  - intros Hv. eapply serializes_ext; cycle 3.
    { eapply serializes_seq; [apply (serializes_write (to_le_bytes 4 (Z.of_nat i)))|].
      apply (ser_spec (PtahSpec := sv_spec u) q Hv). }
    + done.
    + intros n. cbn [length]. by rewrite Nat.add_0_r.
    + done.
  - replace (Z.of_nat i + 1) with (Z.of_nat (S i)) by lia. apply IH.
Qed.

Definition enum_serialize : Serialize T := fun W HW x =>
  derive_serialize_enum (sv_variant <$> vs) 0 x.
Definition enum_deserialize : Deserialize T := derive_deserialize_enum (sv_variant <$> vs).

Program Definition enum_spec : @PtahSpec T enum_serialize enum_deserialize := {|
  valid := enum_valid;
  encode := enum_encode;
  handles_of := enum_handles;
|}.
Next Obligation.
  intros x Hx. unfold enum_valid, enum_encode, enum_handles in *.
  pose proof (derive_serialize_enum_spec x vs 0) as Hser.
  destruct (pick vs 0 x) as [[i [v p]]|]; [|done]. apply Hser, Hx.
Qed.
Next Obligation.
  intros x n rest hs Hx Hn Hh. unfold enum_valid, enum_encode, enum_handles in *.
  pose proof (pick_lookup vs x 0) as Hl.
  destruct (pick vs 0 x) as [[i [v p]]|]; [|done]. destruct Hx as [Hv Hc].
  destruct Hl as [_ Hl]. rewrite Nat.sub_0_r in Hl.
  pose proof (lookup_lt_Some _ _ _ Hl). rewrite <- app_assoc.
  unfold deserialize, enum_deserialize, derive_deserialize_enum, deserialize_enum_tag.
  rewrite (M_bind_Ok _ _ _ _ _ (deserialize_length_app (Z.of_nat i) _ hs ltac:(unfold is_unsigned; lia))).
  rewrite Nat2Z.id, list_lookup_fmap, Hl. cbn [fmap option_fmap option_map].
  rewrite (M_bind_Ok _ _ _ _ _ (de_spec (PtahSpec := sv_spec v) p n rest hs Hv Hn Hh)).
  by rewrite Hc.
Qed.

End enums.

(** A derived [struct] is the tuple of its fields. *)
Section structs.
Context {T P : Type} `{HP : PtahSpec P} (unpack : T -> P) (pack : P -> T).
Context (Hpack : forall x, pack (unpack x) = x).

Definition struct_serialize : Serialize T := fun W HW x => serialize (unpack x).
Definition struct_deserialize : Deserialize T := (p ← deserialize; mret (pack p) : De _).

Program Definition struct_spec : @PtahSpec T struct_serialize struct_deserialize := {|
  valid := fun x => valid (unpack x);
  encode := fun n x => encode n (unpack x);
  handles_of := fun x => handles_of (unpack x);
|}.
Next Obligation. intros x Hx. by apply (ser_spec (unpack x)). Qed.
Next Obligation.
  intros x n rest hs Hx Hn Hh. unfold deserialize, struct_deserialize.
  rewrite (M_bind_Ok _ _ _ _ _ (de_spec (unpack x) n rest hs Hx Hn Hh)). by rewrite Hpack.
Qed.

End structs.

(** ** Deriving the implementations of a type

    A type is Ptah's if its two implementations are among those of the crate, for
    types that are Ptah's themselves, or generated for its fields or variants. *)

Definition derived_serialize {T} (vs : list (Variant T)) : Serialize T := fun W HW x =>
  derive_serialize_enum vs 0 x.
Definition derived_deserialize {T} (vs : list (Variant T)) : Deserialize T := derive_deserialize_enum vs.

Inductive ptah `{A : Alloc} : forall T : Type, Serialize T -> Deserialize T -> Type :=
  | ptah_uint n : ptah (uint n) (serialize_uint_inst n) (deserialize_uint_inst n)
  | ptah_sint n : ptah (sint (S n)) (serialize_sint_inst (S n)) (deserialize_sint_inst (S n))
  | ptah_float n : ptah (float n) (serialize_float_inst n) (deserialize_float_inst n)
  | ptah_bool : ptah bool serialize_bool_inst deserialize_bool_inst
  | ptah_char : ptah char serialize_char_inst deserialize_char_inst
  | ptah_str : ptah str serialize_str_inst deserialize_str_inst
  | ptah_unit : ptah () serialize_unit_inst deserialize_unit_inst
  | ptah_handle : ptah Handle serialize_handle_inst deserialize_handle_inst
  | ptah_option T HS HD (d : ptah T HS HD) :
      ptah (option T) (@serialize_option_inst T HS) (@deserialize_option_inst T HD)
  | ptah_array T HS HD n (d : ptah T HS HD) :
      ptah (array T n) (@serialize_array_inst T HS n) (@deserialize_array_inst T HD n)
  | ptah_vec T HS HD (d : ptah T HS HD) :
      ptah (list T) (@serialize_vec_inst T HS) (@deserialize_vec_inst A T HD)
  | ptah_pair T HS HD U HS' HD' (d : ptah T HS HD) (e : ptah U HS' HD') :
      ptah (T * U) (@serialize_pair_inst T U HS HS') (@deserialize_pair_inst T U HD HD')
  | ptah_map K HO HS HD V HS' HD' (Hcmp : @OrdSpec K HO) (d : ptah K HS HD) (e : ptah V HS' HD') :
      ptah (BTreeMap K V) (@serialize_map_inst K V HS HS') (@deserialize_map_inst K V HO HD HD')
  | ptah_struct T P HS HD (unpack : T -> P) (pack : P -> T) (Hpack : forall x, pack (unpack x) = x)
      (d : ptah P HS HD) : ptah T (@struct_serialize T P HS unpack) (@struct_deserialize T P HD pack)
  | ptah_enum T (vs : list (Variant T)) (Hlen : Z.of_nat (length vs) < 2 ^ 32) (ds : ptah_variants T vs) :
      ptah T (derived_serialize vs) (derived_deserialize vs)
with ptah_variants `{A : Alloc} : forall T : Type, list (Variant T) -> Type :=
  | ptah_nil T : ptah_variants T []
  | ptah_cons T v vs (d : ptah (payload v) (payload_ser v) (payload_de v)) (ds : ptah_variants T vs) :
      ptah_variants T (v :: vs).
Arguments ptah {A} T HS HD : rename.
Arguments ptah_variants {A T} vs : rename.

Section derivations.
Context `{A : Alloc}.

(** The specification of a derived type. *)
Definition enum_spec_at {T} (vs : list (Variant T)) (Hlen : Z.of_nat (length vs) < 2 ^ 32)
    (svs : { svs : list (SpecVariant T) | sv_variant <$> svs = vs }) :
    @PtahSpec T (derived_serialize vs) (derived_deserialize vs) :=
  match svs with
  | exist _ svs E =>
      match E in _ = vs return Z.of_nat (length vs) < 2 ^ 32 ->
        @PtahSpec T (derived_serialize vs) (derived_deserialize vs) with
      | eq_refl => fun Hlen => enum_spec svs (eq_ind _ (fun n => Z.of_nat n < 2 ^ 32) Hlen _ (length_fmap _ _))
      end Hlen
  end.

Fixpoint ptah_spec {T HS HD} (d : ptah T HS HD) : @PtahSpec T HS HD :=
  match d in ptah T HS HD return @PtahSpec T HS HD with
  | ptah_uint n => uint_spec n
  | ptah_sint n => sint_spec n
  | ptah_float n => float_spec n
  | ptah_bool => bool_spec
  | ptah_char => char_spec
  | ptah_str => str_spec
  | ptah_unit => unit_spec
  | ptah_handle => handle_spec
  | ptah_option T HS HD d => @option_spec T HS HD (ptah_spec d)
  | ptah_array T HS HD n d => @array_spec T HS HD (ptah_spec d) n
  | ptah_vec T HS HD d => @vec_spec A T HS HD (ptah_spec d)
  | ptah_pair T HS HD U HS' HD' d e => @pair_spec T U HS HD (ptah_spec d) HS' HD' (ptah_spec e)
  | ptah_map K HO HS HD V HS' HD' Hcmp d e =>
      @map_spec K V HO Hcmp HS HD (ptah_spec d) HS' HD' (ptah_spec e)
  | ptah_struct T P HS HD unpack pack Hpack d => @struct_spec T P HS HD (ptah_spec d) unpack pack Hpack
  | ptah_enum T vs Hlen ds => enum_spec_at vs Hlen (variant_specs ds)
  end
with variant_specs {T} {vs : list (Variant T)} (ds : ptah_variants vs) :
    { svs : list (SpecVariant T) | sv_variant <$> svs = vs } :=
  match ds in @ptah_variants _ T vs return { svs : list (SpecVariant T) | sv_variant <$> svs = vs } with
  | ptah_nil T => exist _ [] eq_refl
  | ptah_cons T v vs d ds =>
      match variant_specs ds with
      | exist _ svs E => exist _ (mkSpecVariant v (ptah_spec d) :: svs) (f_equal (cons v) E)
      end
  end.

(** Values of the type have no handles. *)
Fixpoint handle_free {T HS HD} (d : ptah T HS HD) : bool :=
  match d with
  | ptah_handle => false
  | ptah_option _ _ _ d | ptah_array _ _ _ _ d | ptah_vec _ _ _ d | ptah_struct _ _ _ _ _ _ _ d => handle_free d
  | ptah_pair _ _ _ _ _ _ d e | ptah_map _ _ _ _ _ _ _ _ d e => handle_free d && handle_free e
  | ptah_enum _ _ _ ds => variants_handle_free ds
  | _ => true
  end
with variants_handle_free {T} {vs : list (Variant T)} (ds : ptah_variants vs) : bool :=
  match ds with
  | ptah_nil _ => true
  | ptah_cons _ _ _ d ds => handle_free d && variants_handle_free ds
  end.

(** The vectors in values of the type can be allocated, whatever length a message
    gives for them. *)
Fixpoint allocatable {T HS HD} (d : ptah T HS HD) : Prop :=
  match d with
  | ptah_vec T _ _ d => (forall n, is_unsigned 32 n -> has_room T n = true) /\ allocatable d
  | ptah_option _ _ _ d | ptah_array _ _ _ _ d | ptah_struct _ _ _ _ _ _ _ d => allocatable d
  | ptah_pair _ _ _ _ _ _ d e | ptah_map _ _ _ _ _ _ _ _ d e => allocatable d /\ allocatable e
  | ptah_enum _ _ _ ds => variants_allocatable ds
  | _ => True
  end
with variants_allocatable {T} {vs : list (Variant T)} (ds : ptah_variants vs) : Prop :=
  match ds with
  | ptah_nil _ => True
  | ptah_cons _ _ _ d ds => allocatable d /\ variants_allocatable ds
  end.

End derivations.

Scheme ptah_mut := Induction for ptah Sort Prop
with ptah_variants_mut := Induction for ptah_variants Sort Prop.

(** ** What makes a deserialiser panic *)

(** [m] panics only if [Q], and leaves a suffix of the bytes. *)
Definition safe {R} (Q : Prop) (m : De R) : Prop := forall d, bytes_ok (de_bytes d) ->
  m d ⇓{Q} fun '(_, d') => de_bytes d' `suffix_of` de_bytes d /\ de_handles d' = de_handles d.

Section safe.
Context {Q : Prop}.

Lemma safe_ret {R} (a : R) : safe Q (mret a).
Proof. intros d _. by split. Qed.

Lemma safe_fail {R} e : safe Q (fail (A := R) e).
Proof. intros d _. by split. Qed.

Lemma bytes_ok_suffix bs bs' : bs' `suffix_of` bs -> bytes_ok bs -> bytes_ok bs'.
Proof. intros [k ->] [_ ?]%Forall_app. done. Qed.

(** A result of the first part satisfies [P]. *)
Lemma safe_bind_post {R R'} (P : R -> Prop) (m : De R) (f : R -> De R') :
  safe Q m -> (forall d a d', bytes_ok (de_bytes d) -> m d = Val (Ok a, d') -> P a) ->
  (forall a, P a -> safe Q (f a)) -> safe Q (m ≫= f).
Proof.
  intros Hm HP Hf d Hd. rewrite M_bind_eq. specialize (Hm d Hd).
  destruct (m d) as [[[a|e] d']|] eqn:E; [|done|done]. destruct Hm as [Hs Hh].
  eapply returns_unless_weaken; [apply (Hf a); [by eapply HP|by eapply bytes_ok_suffix]|done|].
  intros [r d''] [Hs' Hh']. split; [by etrans|congruence].
Qed.

Lemma safe_bind {R R'} (m : De R) (f : R -> De R') : safe Q m -> (forall a, safe Q (f a)) -> safe Q (m ≫= f).
Proof. intros Hm Hf. by apply (safe_bind_post (fun _ => True)). Qed.

Lemma safe_take_byte : safe Q take_byte.
Proof.
  intros [[|b bs] hs] _; simpl; [done|]. split; [|done]. by exists [b].
Qed.

Lemma safe_take_n n : safe Q (take_n n).
Proof.
  intros [bs hs] _. unfold take_n. simpl. destruct (length bs <? n)%nat; simpl; [done|].
  split; [|done]. exists (take n bs). by rewrite take_drop.
Qed.

Lemma safe_lift {R} (o : outcome R) : o ⇓{Q} (fun _ => True) -> safe Q (lift o).
Proof. intros Ho d _. unfold lift. by destruct o. Qed.

End safe.

Create HintDb ptah.
#[export] Hint Resolve safe_ret safe_fail safe_bind safe_take_byte safe_take_n : ptah.
Ltac safe_solver :=
  repeat first
    [ apply safe_bind; [|intros ?] | apply safe_ret | apply safe_fail
    | apply safe_take_byte | apply safe_take_n | assumption
    | progress case_match | progress unfold ok_or, take_array ].

Section safe_types.
Context {Q : Prop}.

Lemma safe_deserialize_uint n : safe Q (deserialize_uint n).
Proof. unfold deserialize_uint. safe_solver. Qed.

(** A length is a [u32]. *)
Lemma length_range d n d' : bytes_ok (de_bytes d) -> deserialize_uint 4 d = Val (Ok n, d') -> is_unsigned 32 n.
Proof.
  intros Hb. unfold deserialize_uint. rewrite M_bind_eq. unfold take_array, take_n.
  destruct (Nat.ltb_spec (length (de_bytes d)) 4); [done|]. intros [= <- _].
  pose proof (from_le_bytes_range (take 4 (de_bytes d))) as Hr. rewrite length_take_le in Hr by done.
  apply Hr. by apply Forall_take.
Qed.

Lemma safe_elements {T} `{Deserialize T} n : safe Q (deserialize (T := T)) -> safe Q (deserialize_elements (T := T) n).
Proof. intros Hd. induction n as [|n IH]; cbn [deserialize_elements]; safe_solver. Qed.

Lemma safe_entries {K V} `{Ord K} `{Deserialize K} `{Deserialize V} n : forall m,
  safe Q (deserialize (T := K)) -> safe Q (deserialize (T := V)) -> safe Q (deserialize_entries (K := K) (V := V) n m).
Proof.
  induction n as [|n IH]; intros m Hk Hv; cbn [deserialize_entries]; [apply safe_ret|].
  apply safe_bind; [done|]. intros k. apply safe_bind; [done|]. intros v. by apply IH.
Qed.

Lemma safe_vec `{Alloc} {T} `{Deserialize T} :
  (forall n, is_unsigned 32 n -> has_room T n = true \/ Q) -> safe Q (deserialize (T := T)) ->
  safe Q (deserialize (T := list T)).
Proof.
  intros Hroom Hd. apply (safe_bind_post (is_unsigned 32)); [apply safe_deserialize_uint|by intros; eapply length_range|].
  intros n Hn. apply safe_bind; [|intros _; by apply safe_elements].
  apply safe_lift. unfold with_capacity. destruct (Hroom n Hn) as [->|HQ]; [done|]. by destruct (has_room T n).
Qed.

Lemma safe_enum {T} (vs : list (Variant T)) :
  Forall (fun v => safe Q (deserialize (Deserialize := payload_de v))) vs ->
  safe Q (deserialize (Deserialize := derived_deserialize vs)).
Proof.
  intros Hvs. apply safe_bind; [apply safe_deserialize_uint|]. intros tag.
  destruct (vs !! Z.to_nat tag) as [v|] eqn:Hl; [|apply safe_fail].
  apply safe_bind; [|intros p; apply safe_ret]. by apply (Forall_lookup_1 _ _ _ _ Hvs Hl).
Qed.

End safe_types.

(** The deserialiser of a derived type without handles panics only if a vector
    cannot be allocated. *)
Lemma ptah_safe `{A : Alloc} {T HS HD} (d : ptah T HS HD) :
  forall Q : Prop, (~ allocatable d -> Q) -> handle_free d = true -> safe Q (deserialize (Deserialize := HD)).
Proof.
  apply (ptah_mut A
    (fun T HS HD d => forall Q : Prop, (~ allocatable d -> Q) -> handle_free d = true ->
       safe Q (deserialize (Deserialize := HD)))
    (fun T vs ds => forall Q : Prop, (~ variants_allocatable ds -> Q) -> variants_handle_free ds = true ->
       Forall (fun v => safe Q (deserialize (Deserialize := payload_de v))) vs)); clear T HS HD d; simpl.
  - intros n Q _ _. apply safe_bind; [apply safe_deserialize_uint|intros; apply safe_ret].
  - intros n Q _ _. apply safe_bind; [unfold deserialize_sint|]; intros; safe_solver.
  - intros n Q _ _. apply safe_bind; [unfold deserialize_float|]; intros; safe_solver.
  - intros Q _ _. apply safe_bind; intros; safe_solver.
  - intros Q _ _. apply safe_bind; [unfold deserialize_char|]; intros; safe_solver.
  - intros Q _ _. apply safe_bind; [unfold deserialize_str|intros; apply safe_ret].
    apply safe_bind; [apply safe_deserialize_uint|]; intros; safe_solver.
  - intros Q _ _. apply safe_ret.
  - done.
  - intros T HS HD d IH Q HQ Hf. specialize (IH Q HQ Hf). apply safe_bind; [apply safe_take_byte|].
    intros tag. safe_solver.
  - intros T HS HD n d IH Q HQ Hf. apply safe_bind; [apply safe_elements; auto|]. intros. apply safe_ret.
  - intros T HS HD d IH Q HQ Hf. apply safe_vec; [|apply IH; tauto].
    intros n Hn. destruct (has_room T n) eqn:E; [by left|]. right. apply HQ. intros [Hr _]. rewrite Hr in E; done.
  - intros T HS HD U HS' HD' d IHd e IHe Q HQ [Hd He]%andb_true_iff.
    apply safe_bind; [apply IHd; tauto|]. intros x. apply safe_bind; [apply IHe; tauto|]. intros y. apply safe_ret.
  - intros K HO HS HD V HS' HD' Hcmp d IHd e IHe Q HQ [Hd He]%andb_true_iff.
    apply safe_bind; [apply safe_deserialize_uint|]. intros n.
    apply safe_bind; [apply safe_entries; [apply IHd|apply IHe]; tauto|]. intros m. apply safe_ret.
  - intros T P HS HD unpack pack Hpack d IH Q HQ Hf. apply safe_bind; [apply IH; tauto|]. intros p. apply safe_ret.
  - intros T vs Hlen ds IH Q HQ Hf. apply safe_enum; auto.
  - intros T Q _ _. constructor.
  - intros T v vs d IHd ds IHds Q HQ [Hd Hds]%andb_true_iff. constructor; [apply IHd|apply IHds]; tauto.
Qed.

(** ** Claims *)

Section claims.
Context {T : Type} `{HS : Serialize T} `{HD : Deserialize T} `{HP : !PtahSpec T}.

Lemma serialize_spec (x : T) {W} `{WriterSpec W} (w : W) bs hs :
  valid x -> w_view w bs hs -> handles_of x = [] \/ w_takes_handles = true ->
  addressable (length bs + length (encode (length hs) x)) ->
  to_wire x w ⇓ fun '(r, w') =>
    let room := fits (w_cap w) (length bs + length (encode (length hs) x)) /\
                fits (w_hcap w) (length hs + length (handles_of x)) in
    match r with
    | Ok n => room /\ n = Z.of_nat (length bs + length (encode (length hs) x)) /\
        w_view w' (bs ++ encode (length hs) x) (hs ++ handles_of x)
    | Err _ => ~ room
    end.
Proof.
  intros Hx Hv Ht Ha. eapply M_returns_bind.
  { by apply (ser_spec x Hx W _ _ w bs hs). }
  - intros u w' (Hr & Hv' & _). simpl. split; [done|]. split; [|done].
    rewrite (w_count _ _ _ Hv'), length_app. done.
  - intros e w' Hr. exact Hr.
Qed.

Lemma from_wire_encode (x : T) hs :
  valid x -> (length (handles_of x) <= 4)%nat -> handles_of x `prefix_of` hs ->
  from_wire (encode 0 x) hs = Val (Ok x).
Proof.
  intros Hx Hn [k ->]. unfold from_wire.
  pose proof (de_spec x 0 [] (handles_of x ++ k) Hx Hn) as E. rewrite app_nil_r in E.
  rewrite E; [done|]. intros i h Hi. by apply lookup_app_l_Some.
Qed.

Lemma channel_roundtrip (x : T) :
  valid x -> (length (handles_of x) <= 4)%nat -> addressable (length (encode 0 x)) ->
  to_wire x ChannelWriter_new ⇓ fun '(r, w) =>
    r = Ok (Z.of_nat (length (byte_buffer w))) /\
    ChannelWriter_handles w = handles_of x /\
    from_wire (byte_buffer w) (ChannelWriter_handles w) = Val (Ok x).
Proof.
  intros Hx Hn Ha. eapply returns_weaken.
  { by apply (serialize_spec x ChannelWriter_new [] []); auto. }
  intros [[n|e] w].
  - intros (_ & -> & Hb & Hh & _). simpl in *. rewrite Hb, Hh. split; [done|]. split; [done|].
    by apply from_wire_encode.
  - intros Hr. exfalso. apply Hr. by simpl.
Qed.

(** C36: Serialising a value without handles into a byte buffer succeeds exactly
    if the buffer is long enough; then the result is the number of bytes, which
    is [serialized_size], the buffer keeps its length, and its first bytes
    deserialise to the value. *)
Theorem ptah_cursor_roundtrip (x : T) (buf : list Z) :
  valid x -> handles_of x = [] -> addressable (length (encode 0 x)) ->
  to_wire x (CursorWriter_new buf) ⇓ fun '(r, w) =>
    match r with
    | Ok n => serialized_size x = Val (Ok n) /\ 0 <= n <= Z.of_nat (length buf) /\
        length (buffer w) = length buf /\
        from_wire (take (Z.to_nat n) (buffer w)) [] = Val (Ok x)
    | Err _ => exists n, serialized_size x = Val (Ok n) /\ Z.of_nat (length buf) < n
    end.
Proof.
  intros Hx Hh Ha.
  assert (serialized_size x = Val (Ok (Z.of_nat (length (encode 0 x))))) as Hsize.
  { assert (serialize x (mkSize 0) ⇓ fun '(r, w) =>
      match r with Ok _ => size w = Z.of_nat (length (encode 0 x)) | Err _ => False end) as Hs.
    { eapply returns_weaken; [by apply (ser_spec x Hx SizeCalculator _ _ (mkSize 0) [] []); auto|].
      intros [[u|e] w]; simpl; tauto. }
    unfold serialized_size. destruct (serialize x (mkSize 0)) as [[[u|e] w]|]; [|done..].
    by rewrite Hs. }
  pose proof (ser_spec x Hx CursorWriter _ _ (CursorWriter_new buf) [] []) as Hc.
  unfold to_wire. eapply M_returns_bind.
  { apply Hc; auto. simpl. by rewrite take_0. }
  - intros u w ([Hfit _] & (_ & Hcur & Htake) & Hcap & _). simpl in *.
    rewrite Hcur, Nat2Z.id, Htake. injection Hcap as Hlen.
    split; [done|]. split; [lia|]. split; [done|].
    apply from_wire_encode; rewrite ?Hh; simpl; [done|lia|apply prefix_nil].
  - intros e w Hn. simpl in *. eexists. split; [exact Hsize|]. lia.
Qed.

(** Bytes left over after a value are an error, whatever they are. *)
Lemma ptah_trailing_bytes (x : T) (b : Z) (rest hs : list Z) :
  valid x -> (length (handles_of x) <= 4)%nat -> handles_of x `prefix_of` hs ->
  from_wire (T := T) (encode 0 x ++ b :: rest) hs = Val (Err TrailingBytes).
Proof.
  intros Hx Hn [k ->]. unfold from_wire.
  rewrite (de_spec x 0 (b :: rest) (handles_of x ++ k) Hx Hn); [done|].
  intros i h Hi. by apply lookup_app_l_Some.
Qed.

End claims.

(** C13: A message sent over a channel arrives: for every type whose implementations
    are derived from Ptah's (integers, floats, booleans, characters, strings,
    handles, options, arrays, vectors, tuples, maps, and the structs and enums of
    the derive macros), serialising a valid value with at most four handles into a
    [ChannelWriter] succeeds, reports the number of bytes in its buffer, and
    deserialising the buffer with the writer's handles gives the value back.  (A
    value is valid if its numbers are of their types, its strings UTF-8, its maps in
    key order, an enum's value one of the enum's variants, and its lengths those of a
    [u32] for which the receiver has room.) *)
Theorem ptah_channel_roundtrip `{A : Alloc} {T} {HS : Serialize T} {HD : Deserialize T} (d : ptah T HS HD) (x : T) :
  let S := ptah_spec d in
  valid x -> (length (handles_of x) <= 4)%nat -> addressable (length (encode 0 x)) ->
  to_wire x ChannelWriter_new ⇓ fun '(r, w) =>
    r = Ok (Z.of_nat (length (byte_buffer w))) /\
    ChannelWriter_handles w = handles_of x /\
    from_wire (byte_buffer w) (ChannelWriter_handles w) = Val (Ok x).
Proof. intros S. apply channel_roundtrip. Qed.


(** Four bytes are enough to ask for the largest vector. *)
Lemma ptah_length_allocates `{Alloc} {T} `{Deserialize T} (hs : list Z) :
  has_room T (2 ^ 32 - 1) = false -> from_wire (T := list T) [0xff; 0xff; 0xff; 0xff] hs = Panic.
Proof.
  intros Hr. unfold from_wire, deserialize, deserialize_vec_inst, deserialize_seq_length.
  assert (deserialize_uint 4 (mkDeserializer [0xff; 0xff; 0xff; 0xff] hs) =
    Val (Ok (2 ^ 32 - 1), mkDeserializer [] hs)) as E by done.
  rewrite (M_bind_Ok _ _ _ _ _ E), M_bind_eq. unfold lift, with_capacity. by rewrite Hr.
Qed.

(** A handle is different: a slot byte other than the four the sender
    produces makes [index_from_handle_slot], and with it the receiver, panic,
    where [InvalidHandleSlot] is the error for a bad slot. *)
Lemma ptah_handle_slot_panics (b : Z) (rest hs : list Z) :
  (b < HANDLE_SLOT_0 \/ HANDLE_SLOT_3 < b) -> from_wire (T := Handle) (b :: rest) hs = Panic.
Proof.
  intros Hb. unfold from_wire, deserialize, deserialize_handle_inst, deserialize_handle.
  rewrite !M_bind_eq. cbn [deserialize_uint]. unfold take_byte. cbn [de_bytes].
  rewrite M_bind_eq. unfold lift, index_from_handle_slot, HANDLE_SLOT_0, HANDLE_SLOT_1, HANDLE_SLOT_2,
    HANDLE_SLOT_3 in *.
  replace (b =? 0xf0) with false by lia. replace (b =? 0xf1) with false by lia.
  replace (b =? 0xf2) with false by lia. replace (b =? 0xf3) with false by lia. done.
Qed.

