(* ===== verification/BTree.v ===== *)
(** * [alloc::collections::BTreeMap]

    The entries of a [BTreeMap] are a list in key order ([Ptah.BTreeMap]).  The
    lemmas hold for every key type whose [Ord] is a strict total order. *)

From stdpp Require Import base tactics option list numbers.
From S2P Require Import Prelude Ptah PtahCorrect.

Class OrdLaws (K : Type) `{Ord K} : Prop := {
  ord_antisym :: OrdSpec K;
  cmp_eq : forall x y : K, cmp x y = Eq <-> x = y;
  cmp_trans : forall x y z : K, cmp x y = Lt -> cmp y z = Lt -> cmp x z = Lt;
}.

(** [BTreeMap::get]. *)
Fixpoint btree_get {K V} `{Ord K} (k : K) (m : list (K * V)) : option V :=
  match m with
  | [] => None
  | (k', v) :: m => match cmp k k' with Eq => Some v | _ => btree_get k m end
  end.

Section maps.
Context {K V : Type} `{HO : Ord K} `{HL : !OrdLaws K}.
Implicit Types (k : K) (v : V) (m : list (K * V)).

Lemma cmp_refl k : cmp k k = Eq.
Proof using HL. by apply cmp_eq. Qed.

Lemma cmp_lt_ne k1 k2 : cmp k1 k2 = Lt -> k1 <> k2.
Proof using HL. intros E ->. by rewrite cmp_refl in E. Qed.

Lemma cmp_gt k1 k2 : cmp k1 k2 = Gt <-> cmp k2 k1 = Lt.
Proof using HL. rewrite (cmp_antisym k1 k2). by destruct (cmp k1 k2). Qed.

Lemma sorted_lt m k v : keys_sorted ((k, v) :: m) -> forall e, e ∈ m -> cmp k e.1 = Lt.
Proof using Type. intros [Hm _] e He. by apply (proj1 (Forall_forall _ _) Hm e), list_elem_of_In. Qed.

Lemma filter_sorted (P : K * V -> Prop) `{!forall e, Decision (P e)} m :
  keys_sorted m -> keys_sorted (filter P m).
Proof using Type.
  induction m as [|[k v] m IH]; intros Hm; [done|]. rewrite filter_cons.
  destruct (decide _); [|apply IH, Hm]. destruct Hm as [Hlt Hm]. split; [|by apply IH].
  apply Forall_forall. intros e [_ He]%list_elem_of_In%list_elem_of_filter.
  apply (proj1 (Forall_forall _ _) Hlt e). by apply list_elem_of_In.
Qed.

Lemma sorted_NoDup m : keys_sorted m -> NoDup m.*1.
Proof using HL.
  induction m as [|[k v] m IH]; intros Hm; [constructor|]. simpl.
  apply list.NoDup_cons. split; [|apply IH, Hm].
  intros (e & -> & He)%list_elem_of_fmap. pose proof (sorted_lt _ _ _ Hm e He) as E. by rewrite cmp_refl in E.
Qed.

(** The entries after an insertion. *)
Lemma elem_of_btree_insert k v m e :
  keys_sorted m -> e ∈ btree_insert k v m <-> e = (k, v) \/ e ∈ m /\ e.1 <> k.
Proof using HL.
  induction m as [|[k' v'] m IH]; intros Hm; cbn [btree_insert].
  { rewrite list_elem_of_singleton. split; [by left|]. intros [?|[He _]]; [done|by apply elem_of_nil in He]. }
  pose proof (sorted_lt m k' v' Hm) as Hlt. destruct Hm as [_ Hm].
  destruct (cmp k k') eqn:E.
  - apply cmp_eq in E as ->. rewrite !elem_of_cons. split; [|naive_solver].
    intros [->|He]; [by left|right]. split; [by right|]. apply not_eq_sym, cmp_lt_ne, Hlt, He.
  - rewrite !elem_of_cons. split; [|naive_solver].
    intros [->|[->|He]]; [by left|right|right].
    + split; [by left|]. by apply not_eq_sym, cmp_lt_ne.
    + split; [by right|]. by eapply not_eq_sym, cmp_lt_ne, cmp_trans, Hlt.
  - apply cmp_gt in E. rewrite !elem_of_cons, IH by done. split; [|naive_solver].
    intros [->|[->|[??]]]; [right|by left|right; split; [by right|done]].
    split; [by left|]. by apply cmp_lt_ne.
Qed.

Lemma btree_insert_sorted k v m : keys_sorted m -> keys_sorted (btree_insert k v m).
Proof using HL.
  induction m as [|[k' v'] m IH]; intros Hm; cbn [btree_insert]; [by repeat constructor|].
  pose proof (sorted_lt m k' v' Hm) as Hlt. destruct (cmp k k') eqn:E.
  - apply cmp_eq in E as ->. exact Hm.
  - split; [|done]. apply Forall_forall. intros e He%list_elem_of_In.
    apply elem_of_cons in He as [->|He]; [done|]. by eapply cmp_trans, Hlt.
  - apply cmp_gt in E. destruct Hm as [_ Hm]. split; [|by apply IH].
    apply Forall_forall. intros e He%list_elem_of_In%elem_of_btree_insert; [|done].
    destruct He as [->|[He _]]; [done|by apply Hlt].
Qed.

Lemma keys_btree_insert k v m k' :
  keys_sorted m -> k' ∈ (btree_insert k v m).*1 <-> k' = k \/ k' ∈ m.*1.
Proof using HL.
  intros Hm. rewrite !list_elem_of_fmap. setoid_rewrite elem_of_btree_insert; [|done]. split.
  - intros (e & -> & [->|[He _]]); [by left|right; eauto].
  - intros [->|(e & -> & He)]; [exists (k, v); naive_solver|].
    destruct (cmp e.1 k) eqn:E; [apply cmp_eq in E as ->; exists (k, v); naive_solver|..];
      exists e; (split; [done|]); right; split; try done; intros Ek; rewrite Ek, cmp_refl in E; done.
Qed.

(** A key has one entry. *)
Lemma sorted_functional k v1 v2 m : keys_sorted m -> (k, v1) ∈ m -> (k, v2) ∈ m -> v1 = v2.
Proof using HL.
  induction m as [|[k' v'] m IH]; intros Hm H1 H2; [by apply elem_of_nil in H1|].
  pose proof (sorted_lt m k' v' Hm) as Hlt. destruct Hm as [_ Hm].
  apply elem_of_cons in H1 as [H1|H1], H2 as [H2|H2].
  - congruence.
  - injection H1 as -> ->. specialize (Hlt _ H2). simpl in Hlt. by rewrite cmp_refl in Hlt.
  - injection H2 as -> ->. specialize (Hlt _ H1). simpl in Hlt. by rewrite cmp_refl in Hlt.
  - eauto.
Qed.

Lemma btree_get_Some k v m : keys_sorted m -> btree_get k m = Some v <-> (k, v) ∈ m.
Proof using HL.
  intros Hs. split.
  - clear Hs. induction m as [|[k' v'] m IH]; [done|]. simpl. destruct (cmp k k') eqn:E; rewrite elem_of_cons; auto.
    apply cmp_eq in E as ->. intros [= ->]. by left.
  - induction m as [|[k' v'] m IH]; intros Hin; [by apply elem_of_nil in Hin|]. simpl.
    destruct (cmp k k') eqn:E.
    + apply cmp_eq in E as ->. f_equal. apply (sorted_functional k' _ _ _ Hs); [left|done].
    + apply elem_of_cons in Hin as [[= -> ->]|Hin]; [by rewrite cmp_refl in E|]. apply IH; [apply Hs|done].
    + apply elem_of_cons in Hin as [[= -> ->]|Hin]; [by rewrite cmp_refl in E|]. apply IH; [apply Hs|done].
Qed.

Lemma btree_get_None k m : btree_get k m = None <-> k ∉ m.*1.
Proof using HL.
  induction m as [|[k' v'] m IH]; simpl.
  { split; [|done]. intros _ Hk. by apply elem_of_nil in Hk. }
  rewrite elem_of_cons.
  destruct (cmp k k') eqn:E.
  - apply cmp_eq in E as ->. naive_solver.
  - rewrite IH. pose proof (cmp_lt_ne _ _ E). naive_solver.
  - rewrite IH. apply cmp_gt in E. pose proof (cmp_lt_ne _ _ E). naive_solver.
Qed.

(** Inserting takes the place of the key's entry, where there is one. *)
Lemma btree_insert_split k v m :
  keys_sorted m ->
  exists m1 m2, btree_insert k v m = m1 ++ (k, v) :: m2 /\
    m = m1 ++ match btree_get k m with Some v' => (k, v') :: m2 | None => m2 end.
Proof using HL.
  induction m as [|[k' v'] m IH]; intros Hs; [by exists [], []|]. cbn [btree_insert btree_get].
  destruct (cmp k k') eqn:E.
  - apply cmp_eq in E as ->. by exists [], m.
  - exists [], ((k', v') :: m). split; [done|]. rewrite (proj2 (btree_get_None k m)); [done|].
    intros (e & -> & He)%list_elem_of_fmap. pose proof (sorted_lt _ _ _ Hs e He) as E'.
    by apply (cmp_lt_ne e.1 e.1); [eapply cmp_trans|].
  - destruct (IH (proj2 Hs)) as (m1 & m2 & -> & Em). exists ((k', v') :: m1), m2. split; [done|].
    cbn. by rewrite <- Em.
Qed.

End maps.

(** ** [Ord] of strings: lexicographic in their bytes *)

Fixpoint bytes_cmp (s1 s2 : list Z) : comparison :=
  match s1, s2 with
  | [], [] => Eq
  | [], _ => Lt
  | _, [] => Gt
  | b1 :: s1, b2 :: s2 => match Z.compare b1 b2 with Eq => bytes_cmp s1 s2 | c => c end
  end.

#[export] Instance str_ord : Ord str := fun s1 s2 => bytes_cmp (str_bytes s1) (str_bytes s2).

Lemma bytes_cmp_trans s1 : forall s2 s3, bytes_cmp s1 s2 = Lt -> bytes_cmp s2 s3 = Lt -> bytes_cmp s1 s3 = Lt.
Proof.
  induction s1 as [|b1 s1 IH]; intros [|b2 s2] [|b3 s3]; simpl; try done.
  destruct (Z.compare_spec b1 b2), (Z.compare_spec b2 b3), (Z.compare_spec b1 b3); try done; try lia. apply IH.
Qed.

Lemma bytes_cmp_antisym s1 : forall s2, bytes_cmp s2 s1 = CompOpp (bytes_cmp s1 s2).
Proof.
  induction s1 as [|b1 s1 IH]; intros [|b2 s2]; simpl; try done.
  destruct (Z.compare_spec b1 b2), (Z.compare_spec b2 b1); simpl; try done; try lia; by apply IH.
Qed.

Lemma bytes_cmp_eq s1 : forall s2, bytes_cmp s1 s2 = Eq <-> s1 = s2.
Proof.
  induction s1 as [|b1 s1 IH]; intros [|b2 s2]; simpl; try done.
  destruct (Z.compare_spec b1 b2) as [->| |]; [rewrite IH; naive_solver|naive_solver lia..].
Qed.

#[export] Instance str_ord_laws : OrdLaws str.
Proof.
  split.
  - intros [s1] [s2]. apply bytes_cmp_antisym.
  - intros [s1] [s2]. change (bytes_cmp s1 s2 = Eq <-> Str s1 = Str s2). rewrite bytes_cmp_eq. naive_solver.
  - intros [s1] [s2] [s3]. apply bytes_cmp_trans.
Qed.
