(* ===== verification/Input.v ===== *)
(** * [user/platform_bus/src/input.rs]: input events

    The events an input device's driver sends over a channel; the USB HID driver
    produces them.  Their wire format is the one [ptah_derive] generates. *)

From stdpp Require Import base tactics option list numbers.
From S2P Require Import Prelude Bytes Effects Ptah PtahCorrect.

Inductive Key :=
  | BtnLeft
  | BtnMiddle
  | BtnRight
  | BtnSide
  | BtnExtra
  | KeyA
  | KeyB
  | KeyC
  | KeyD
  | KeyE
  | KeyF
  | KeyG
  | KeyH
  | KeyI
  | KeyJ
  | KeyK
  | KeyL
  | KeyM
  | KeyN
  | KeyO
  | KeyP
  | KeyQ
  | KeyR
  | KeyS
  | KeyT
  | KeyU
  | KeyV
  | KeyW
  | KeyX
  | KeyY
  | KeyZ
  | Key1
  | Key2
  | Key3
  | Key4
  | Key5
  | Key6
  | Key7
  | Key8
  | Key9
  | Key0
  | KeyReturn
  | KeyEscape
  | KeyDelete
  | KeyTab
  | KeySpace
  | KeyDash
  | KeyEquals
  | KeyLeftBracket
  | KeyRightBracket
  | KeyForwardSlash
  | KeyPound
  | KeySemicolon
  | KeyApostrophe
  | KeyGrave
  | KeyComma
  | KeyDot
  | KeyBackSlash
  | KeyCapslock
  | KeyF1
  | KeyF2
  | KeyF3
  | KeyF4
  | KeyF5
  | KeyF6
  | KeyF7
  | KeyF8
  | KeyF9
  | KeyF10
  | KeyF11
  | KeyF12
  | KeyPrintScreen
  | KeyScrolllock
  | KeyPause
  | KeyInsert
  | KeyHome
  | KeyPageUp
  | KeyDeleteForward
  | KeyEnd
  | KeyPageDown
  | KeyRightArrow
  | KeyLeftArrow
  | KeyDownArrow
  | KeyUpArrow
  | KeyNumlock
  | KeypadSlash
  | KeypadAsterix
  | KeypadDash
  | KeypadPlus
  | KeypadEnter
  | Keypad1
  | Keypad2
  | Keypad3
  | Keypad4
  | Keypad5
  | Keypad6
  | Keypad7
  | Keypad8
  | Keypad9
  | Keypad0
  | KeypadDot
  | KeypadNonUsBackSlash
  | KeyApplication
  | KeyPower
  | KeypadEquals
  | KeyF13
  | KeyF14
  | KeyF15
  | KeyF16
  | KeyF17
  | KeyF18
  | KeyF19
  | KeyF20
  | KeyF21
  | KeyF22
  | KeyF23
  | KeyF24
  | KeyExecute
  | KeyHelp
  | KeyMenu
  | KeySelect
  | KeyStop
  | KeyAgain
  | KeyUndo
  | KeyCut
  | KeyCopy
  | KeyPaste
  | KeyFind
  | KeyMute
  | KeyVolumeUp
  | KeyVolumeDown
  | KeyLockingCapslock
  | KeyLockingNumlock
  | KeyLockingScrolllock
  | KeypadComma
  | KeyLeftControl
  | KeyLeftShift
  | KeyLeftAlt
  | KeyLeftGui
  | KeyRightControl
  | KeyRightShift
  | KeyRightAlt
  | KeyRightGui.

(** The variants in declaration order: their wire tags. *)
Definition all_keys : list Key := [
  BtnLeft; BtnMiddle; BtnRight; BtnSide; BtnExtra; KeyA; KeyB; KeyC; KeyD; KeyE; KeyF; KeyG;
  KeyH; KeyI; KeyJ; KeyK; KeyL; KeyM; KeyN; KeyO; KeyP; KeyQ; KeyR; KeyS; KeyT; KeyU; KeyV;
  KeyW; KeyX; KeyY; KeyZ; Key1; Key2; Key3; Key4; Key5; Key6; Key7; Key8; Key9; Key0;
  KeyReturn; KeyEscape; KeyDelete; KeyTab; KeySpace; KeyDash; KeyEquals; KeyLeftBracket;
  KeyRightBracket; KeyForwardSlash; KeyPound; KeySemicolon; KeyApostrophe; KeyGrave; KeyComma;
  KeyDot; KeyBackSlash; KeyCapslock; KeyF1; KeyF2; KeyF3; KeyF4; KeyF5; KeyF6; KeyF7; KeyF8;
  KeyF9; KeyF10; KeyF11; KeyF12; KeyPrintScreen; KeyScrolllock; KeyPause; KeyInsert; KeyHome;
  KeyPageUp; KeyDeleteForward; KeyEnd; KeyPageDown; KeyRightArrow; KeyLeftArrow; KeyDownArrow;
  KeyUpArrow; KeyNumlock; KeypadSlash; KeypadAsterix; KeypadDash; KeypadPlus; KeypadEnter;
  Keypad1; Keypad2; Keypad3; Keypad4; Keypad5; Keypad6; Keypad7; Keypad8; Keypad9; Keypad0;
  KeypadDot; KeypadNonUsBackSlash; KeyApplication; KeyPower; KeypadEquals; KeyF13; KeyF14;
  KeyF15; KeyF16; KeyF17; KeyF18; KeyF19; KeyF20; KeyF21; KeyF22; KeyF23; KeyF24; KeyExecute;
  KeyHelp; KeyMenu; KeySelect; KeyStop; KeyAgain; KeyUndo; KeyCut; KeyCopy; KeyPaste; KeyFind;
  KeyMute; KeyVolumeUp; KeyVolumeDown; KeyLockingCapslock; KeyLockingNumlock;
  KeyLockingScrolllock; KeypadComma; KeyLeftControl; KeyLeftShift; KeyLeftAlt; KeyLeftGui;
  KeyRightControl; KeyRightShift; KeyRightAlt; KeyRightGui].

Definition key_index (k : Key) : nat :=
  match k with
  | BtnLeft => 0
  | BtnMiddle => 1
  | BtnRight => 2
  | BtnSide => 3
  | BtnExtra => 4
  | KeyA => 5
  | KeyB => 6
  | KeyC => 7
  | KeyD => 8
  | KeyE => 9
  | KeyF => 10
  | KeyG => 11
  | KeyH => 12
  | KeyI => 13
  | KeyJ => 14
  | KeyK => 15
  | KeyL => 16
  | KeyM => 17
  | KeyN => 18
  | KeyO => 19
  | KeyP => 20
  | KeyQ => 21
  | KeyR => 22
  | KeyS => 23
  | KeyT => 24
  | KeyU => 25
  | KeyV => 26
  | KeyW => 27
  | KeyX => 28
  | KeyY => 29
  | KeyZ => 30
  | Key1 => 31
  | Key2 => 32
  | Key3 => 33
  | Key4 => 34
  | Key5 => 35
  | Key6 => 36
  | Key7 => 37
  | Key8 => 38
  | Key9 => 39
  | Key0 => 40
  | KeyReturn => 41
  | KeyEscape => 42
  | KeyDelete => 43
  | KeyTab => 44
  | KeySpace => 45
  | KeyDash => 46
  | KeyEquals => 47
  | KeyLeftBracket => 48
  | KeyRightBracket => 49
  | KeyForwardSlash => 50
  | KeyPound => 51
  | KeySemicolon => 52
  | KeyApostrophe => 53
  | KeyGrave => 54
  | KeyComma => 55
  | KeyDot => 56
  | KeyBackSlash => 57
  | KeyCapslock => 58
  | KeyF1 => 59
  | KeyF2 => 60
  | KeyF3 => 61
  | KeyF4 => 62
  | KeyF5 => 63
  | KeyF6 => 64
  | KeyF7 => 65
  | KeyF8 => 66
  | KeyF9 => 67
  | KeyF10 => 68
  | KeyF11 => 69
  | KeyF12 => 70
  | KeyPrintScreen => 71
  | KeyScrolllock => 72
  | KeyPause => 73
  | KeyInsert => 74
  | KeyHome => 75
  | KeyPageUp => 76
  | KeyDeleteForward => 77
  | KeyEnd => 78
  | KeyPageDown => 79
  | KeyRightArrow => 80
  | KeyLeftArrow => 81
  | KeyDownArrow => 82
  | KeyUpArrow => 83
  | KeyNumlock => 84
  | KeypadSlash => 85
  | KeypadAsterix => 86
  | KeypadDash => 87
  | KeypadPlus => 88
  | KeypadEnter => 89
  | Keypad1 => 90
  | Keypad2 => 91
  | Keypad3 => 92
  | Keypad4 => 93
  | Keypad5 => 94
  | Keypad6 => 95
  | Keypad7 => 96
  | Keypad8 => 97
  | Keypad9 => 98
  | Keypad0 => 99
  | KeypadDot => 100
  | KeypadNonUsBackSlash => 101
  | KeyApplication => 102
  | KeyPower => 103
  | KeypadEquals => 104
  | KeyF13 => 105
  | KeyF14 => 106
  | KeyF15 => 107
  | KeyF16 => 108
  | KeyF17 => 109
  | KeyF18 => 110
  | KeyF19 => 111
  | KeyF20 => 112
  | KeyF21 => 113
  | KeyF22 => 114
  | KeyF23 => 115
  | KeyF24 => 116
  | KeyExecute => 117
  | KeyHelp => 118
  | KeyMenu => 119
  | KeySelect => 120
  | KeyStop => 121
  | KeyAgain => 122
  | KeyUndo => 123
  | KeyCut => 124
  | KeyCopy => 125
  | KeyPaste => 126
  | KeyFind => 127
  | KeyMute => 128
  | KeyVolumeUp => 129
  | KeyVolumeDown => 130
  | KeyLockingCapslock => 131
  | KeyLockingNumlock => 132
  | KeyLockingScrolllock => 133
  | KeypadComma => 134
  | KeyLeftControl => 135
  | KeyLeftShift => 136
  | KeyLeftAlt => 137
  | KeyLeftGui => 138
  | KeyRightControl => 139
  | KeyRightShift => 140
  | KeyRightAlt => 141
  | KeyRightGui => 142
  end.

Lemma all_keys_lookup k : all_keys !! key_index k = Some k.
Proof. by destruct k. Qed.

#[global] Instance key_index_inj : Inj (=) (=) key_index.
Proof.
  intros k1 k2 E. pose proof (all_keys_lookup k1) as H. rewrite E, all_keys_lookup in H.
  by injection H.
Qed.

#[global] Instance Key_eq_dec : EqDecision Key.
Proof.
  refine (fun k1 k2 => cast_if (decide (key_index k1 = key_index k2))); [by apply (inj key_index)|congruence].
Defined.

Record KeyState := mkKeyState {
  left_ctrl : bool; left_shift : bool; left_alt : bool; left_gui : bool;
  right_ctrl : bool; right_shift : bool; right_alt : bool; right_gui : bool;
}.

#[global] Instance KeyState_eq_dec : EqDecision KeyState.
Proof. solve_decision. Defined.

Definition KeyState_default : KeyState :=
  mkKeyState false false false false false false false false.

Definition ctrl (s : KeyState) : bool := left_ctrl s || right_ctrl s.
Definition shift (s : KeyState) : bool := left_shift s || right_shift s.
Definition alt (s : KeyState) : bool := left_alt s || right_alt s.
Definition gui (s : KeyState) : bool := left_gui s || right_gui s.

Inductive InputEvent :=
  | KeyPressed (key : Key) (state : KeyState)
  | KeyReleased (key : Key) (state : KeyState)
  | RelX (x : sint 4)
  | RelY (y : sint 4)
  | RelZ (z : sint 4)
  | RelWheel (d : sint 4).

(** ** The derived implementations *)

(** A variant without fields. *)
Definition unit_variant {T} `{EqDecision T} (x : T) : Variant T := {|
  payload := ();
  payload_ser := serialize_unit_inst;
  payload_de := deserialize_unit_inst;
  construct := fun _ => x;
  fields := fun y => if decide (y = x) then Some () else None;
|}.

Definition key_variants : list (SpecVariant Key) :=
  (fun k => mkSpecVariant (unit_variant k) unit_spec) <$> all_keys.

#[export] Instance key_serialize : Serialize Key := enum_serialize key_variants.
#[export] Instance key_deserialize : Deserialize Key := enum_deserialize key_variants.
#[export] Instance key_spec : PtahSpec Key := enum_spec key_variants ltac:(done).

Definition KeyStateFields : Type := bool * bool * bool * bool * bool * bool * bool * bool.

Definition key_state_unpack (s : KeyState) : KeyStateFields :=
  (left_ctrl s, left_shift s, left_alt s, left_gui s,
   right_ctrl s, right_shift s, right_alt s, right_gui s).
Definition key_state_pack (p : KeyStateFields) : KeyState :=
  let '(a, b, c, d, e, f, g, h) := p in mkKeyState a b c d e f g h.

#[export] Instance key_state_serialize : Serialize KeyState := struct_serialize key_state_unpack.
#[export] Instance key_state_deserialize : Deserialize KeyState := struct_deserialize key_state_pack.
#[export] Instance key_state_spec : PtahSpec KeyState :=
  struct_spec key_state_unpack key_state_pack ltac:(by intros []).

(** A variant with fields. *)
Definition variant {T P} `{PtahSpec P} (c : P -> T) (f : T -> option P) : SpecVariant T :=
  mkSpecVariant {| construct := c; fields := f |} _.

Definition input_variants : list (SpecVariant InputEvent) := [
  variant (fun p : Key * KeyState => KeyPressed p.1 p.2)
    (fun e => match e with KeyPressed k s => Some (k, s) | _ => None end);
  variant (fun p : Key * KeyState => KeyReleased p.1 p.2)
    (fun e => match e with KeyReleased k s => Some (k, s) | _ => None end);
  variant RelX (fun e => match e with RelX x => Some x | _ => None end);
  variant RelY (fun e => match e with RelY x => Some x | _ => None end);
  variant RelZ (fun e => match e with RelZ x => Some x | _ => None end);
  variant RelWheel (fun e => match e with RelWheel x => Some x | _ => None end)].

#[export] Instance input_serialize : Serialize InputEvent := enum_serialize input_variants.
#[export] Instance input_deserialize : Deserialize InputEvent := enum_deserialize input_variants.
#[export] Instance input_spec : PtahSpec InputEvent := enum_spec input_variants ltac:(done).

(** ** Every event is a valid message *)

Definition i32_range (x : sint 4) : Prop := - 2 ^ 31 <= sint_val x < 2 ^ 31.

Definition event_in_range (e : InputEvent) : Prop :=
  match e with
  | RelX x | RelY x | RelZ x | RelWheel x => i32_range x
  | _ => True
  end.

Lemma pick_key (k : Key) (l : list Key) : forall i,
  k ∈ l -> exists j, pick ((fun k => mkSpecVariant (unit_variant k) unit_spec) <$> l) i k =
    Some (j, existT (mkSpecVariant (unit_variant k) unit_spec) ()).
Proof.
  induction l as [|k' l IH]; intros i Hk; [by apply elem_of_nil in Hk|]. cbn.
  destruct (decide (k = k')) as [->|Hne]; [eauto|].
  apply IH. by apply elem_of_cons in Hk as [|].
Qed.

Lemma key_valid (k : Key) : valid k /\ handles_of k = [].
Proof.
  change (enum_valid key_variants k /\ enum_handles key_variants k = []).
  unfold enum_valid, enum_handles, key_variants.
  destruct (pick_key k all_keys 0) as [j ->]; [|done].
  apply list_elem_of_lookup. eauto using all_keys_lookup.
Qed.

Lemma key_state_valid (s : KeyState) : valid s /\ handles_of s = [].
Proof. by destruct s. Qed.

Lemma event_valid e : event_in_range e -> valid e /\ handles_of e = [].
Proof.
  intros He. destruct e as [k s|k s|x|x|x|x]; [| |by split..];
    destruct (key_valid k) as [Hk Hhk], (key_state_valid s) as [Hs Hhs];
    (split; [by split|]); change (handles_of k ++ handles_of s = []); by rewrite Hhk, Hhs.
Qed.

(** ** The derivations of the types *)

Section derived.
Context `{Alloc}.

Fixpoint key_derivations (l : list Key) :
    ptah_variants (sv_variant <$> ((fun k => mkSpecVariant (unit_variant k) unit_spec) <$> l)) :=
  match l with
  | [] => ptah_nil Key
  | k :: l => ptah_cons Key (unit_variant k) _ ptah_unit (key_derivations l)
  end.

Definition key_ptah : ptah Key key_serialize key_deserialize :=
  ptah_enum Key (sv_variant <$> key_variants) ltac:(done) (key_derivations all_keys).

Definition key_state_ptah : ptah KeyState key_state_serialize key_state_deserialize :=
  ptah_struct KeyState KeyStateFields _ _ key_state_unpack key_state_pack ltac:(by intros [])
    ltac:(repeat first [apply ptah_bool | apply ptah_pair]).

Definition input_ptah : ptah InputEvent input_serialize input_deserialize :=
  ptah_enum InputEvent (sv_variant <$> input_variants) ltac:(done)
    ltac:(repeat first [apply ptah_nil | apply ptah_cons
      | exact (ptah_pair _ _ _ _ _ _ key_ptah key_state_ptah) | apply (ptah_sint 3)]).

End derived.

(** ** Ptah's theorems at work *)

Definition sample_event : InputEvent := KeyPressed KeyQ KeyState_default.

(** Room for every vector. *)
#[local] Instance unlimited : Alloc := fun _ _ => true.

Lemma ptah_channel_roundtrip_witness :
  to_wire (sample_event, mkHandle 7) ChannelWriter_new ⇓ fun '(r, w) =>
    r = Ok (Z.of_nat (length (byte_buffer w))) /\ ChannelWriter_handles w = [7] /\
    from_wire (byte_buffer w) (ChannelWriter_handles w) = Val (Ok (sample_event, mkHandle 7)).
Proof.
  apply (ptah_channel_roundtrip (ptah_pair _ _ _ _ _ _ input_ptah ptah_handle) (sample_event, mkHandle 7)).
  - by vm_compute.
  - by vm_compute; lia.
  - by vm_compute.
Defined.

Lemma ptah_cursor_roundtrip_witness :
  to_wire (RelX (Sint (-5))) (CursorWriter_new (replicate 16 0)) ⇓ fun '(r, w) =>
    match r with
    | Ok n => serialized_size (RelX (Sint (-5))) = Val (Ok n) /\ 0 <= n <= 16 /\
        length (buffer w) = 16%nat /\
        from_wire (take (Z.to_nat n) (buffer w)) [] = Val (Ok (RelX (Sint (-5))))
    | Err _ => exists n, serialized_size (RelX (Sint (-5))) = Val (Ok n) /\ 16 < n
    end.
Proof.
  apply (ptah_cursor_roundtrip (RelX (Sint (-5))) (replicate 16 0)).
  - apply event_valid. simpl. unfold i32_range. simpl. lia.
  - done.
  - by vm_compute.
Defined.

