(* ===== verification/UserChannel.v ===== *)
(** * [lib/poplar/src/channel.rs]: typed channels between tasks

    [Channel::send] serialises a value with Ptah and sends its bytes and handles,
    [Channel::try_receive] receives into its buffers and deserialises.  The
    buffers live in the calling task's memory, at addresses that are arguments of
    the definitions. *)

From stdpp Require Import base tactics option list numbers gmap.
From S2P Require Import Prelude Bytes Crates Effects Ptah PtahCorrect Input Kernel KernelCorrect Ipc Abi.

Definition BYTES_BUFFER_SIZE : Z := 2048.

Inductive ChannelSendError :=
  | FailedToSerialize (e : SerError)
  | SendError (e : SendMessageError).

Inductive ChannelReceiveError :=
  | FailedToDeserialize (e : DeError)
  | ReceiveError (e : GetMessageError).

(** The buffers of a call: where its bytes and its handles are. *)
Record Buffers := mkBuffers { bytes_at : Z; handles_at : Z }.

(** The task writes its own memory: what it writes to is mapped. *)
Definition write_user (t addr : Z) (bs : list Z) (k : Kernel) : outcome Kernel :=
  task ← unwrap (tasks k !! t);
  mret (set_task k t (store task addr bs)).

Definition handle_bytes (hs : list Z) : list Z := hs ≫= to_le_bytes 4.

Section channel.
Context `{BitField}.
Context (others : Z -> Z -> Z -> Z -> Z -> Z -> Z -> Kernel -> outcome (Z * Kernel)).
Context {T : Type} `{Serialize T} `{Deserialize T}.

(** [Channel::send] on the channel of handle [ch] by task [t]. *)
Definition send (t ch : Z) (b : Buffers) (message : T) (k : Kernel) :
    outcome (result unit ChannelSendError * Kernel) :=
  '(r, writer) ← to_wire message ChannelWriter_new;
  match r with
  | Err e => mret (Err (FailedToSerialize e), k)
  | Ok _ =>
      k ← write_user t (bytes_at b) (byte_buffer writer) k;
      k ← write_user t (handles_at b) (handle_bytes (Ptah.handle_buffer writer)) k;
      '(r, k) ← poplar_send_message others t ch
        (bytes_at b) (Z.of_nat (length (byte_buffer writer)))
        (handles_at b) (Z.of_nat (length (ChannelWriter_handles writer))) k;
      mret (match r with Ok _ => Ok tt | Err e => Err (SendError e) end, k)
  end.

(** [Channel::try_receive]. *)
Definition try_receive (t ch : Z) (b : Buffers) (k : Kernel) :
    outcome (result (option T) ChannelReceiveError * Kernel) :=
  k ← write_user t (bytes_at b) (replicate (Z.to_nat BYTES_BUFFER_SIZE) 0) k;
  k ← write_user t (handles_at b) (handle_bytes (replicate (Z.to_nat CHANNEL_MAX_NUM_HANDLES) 0)) k;
  '(r, k) ← poplar_get_message others t ch
    (bytes_at b) BYTES_BUFFER_SIZE (handles_at b) CHANNEL_MAX_NUM_HANDLES k;
  match r with
  | Ok (nbytes, nhandles) =>
      task ← unwrap (tasks k !! t);
      message ← from_wire (read_mem (memory task) (bytes_at b) nbytes)
                          (read_handles (memory task) (handles_at b) nhandles);
      mret (match message with Ok m => Ok (Some m) | Err e => Err (FailedToDeserialize e) end, k)
  | Err GM_NoMessage => mret (Ok None, k)
  | Err e => mret (Err (ReceiveError e), k)
  end.

End channel.

(** ** The task's own memory *)

Lemma store_ok objs task addr bs : task_ok objs task -> bytes_ok bs -> task_ok objs (store task addr bs).
Proof. intros (Hh & Hn & Hm) Hb. split_and!; [done|done|]. by apply write_mem_ok. Qed.

Lemma bytes_ok_handles hs : bytes_ok (handle_bytes hs).
Proof.
  induction hs as [|h hs IH]; [constructor|]. apply Forall_app. split; [apply to_le_bytes_ok|done].
Qed.

(** A task that writes its memory keeps the channel as it is. *)
Lemma linked_store k ta tb ca cb idb t task addr bs :
  linked k ta tb ca cb idb -> tasks k !! t = Some task ->
  linked (set_task k t (store task addr bs)) ta tb ca cb idb.
Proof.
  intros [Hne Hu (A & ida & c & Ha & Hca & Hida & Hc) (B & c' & Hb & Hcb & Hnb & Hidb)] Ht. split; [done|done| |].
  - destruct (decide (t = ta)) as [->|Hta].
    + rewrite Ha in Ht. injection Ht as <-. exists (store A addr bs), ida, c.
      split_and!; [apply lookup_insert_eq|done..].
    + exists A, ida, c. split_and!; [simpl; by rewrite lookup_insert_ne|done..].
  - destruct (decide (t = tb)) as [->|Htb].
    + rewrite Hb in Ht. injection Ht as <-. exists (store B addr bs), c'.
      split_and!; [apply lookup_insert_eq|done..].
    + exists B, c'. split_and!; [simpl; by rewrite lookup_insert_ne|done..].
Qed.

Lemma write_mem_mapped m addr bs n :
  n <= Z.of_nat (length bs) -> user_mapped (write_mem m addr bs) addr n = true.
Proof.
  intros Hn. apply user_mapped_spec. intros x Hx. rewrite lookup_write_mem, decide_True by lia.
  apply lookup_lt_is_Some_2. lia.
Qed.

(** Both buffers are mapped once they have been written. *)
Lemma stores_mapped task a bs a' bs' n n' :
  n <= Z.of_nat (length bs) -> n' <= Z.of_nat (length bs') ->
  let m := memory (store (store task a bs) a' bs') in
  user_mapped m a n = true /\ user_mapped m a' n' = true.
Proof.
  intros Hn Hn'. split; [|by apply write_mem_mapped].
  eapply (user_mapped_weaken (memory (store task a bs))); [by apply write_mem_mapped|lia|lia|].
  apply write_mem_maps.
Qed.

Section channels.
Context `{BitFieldSpec}.
Context (others : Z -> Z -> Z -> Z -> Z -> Z -> Z -> Kernel -> outcome (Z * Kernel)).
Context {T : Type} `{HS : Serialize T} `{HD : Deserialize T} `{HP : !PtahSpec T}.
Context (ta tb ca cb idb : Z).

(** Two tasks on a channel whose receiving end has the given queue. *)
Record channel (k : Kernel) (q : list Message) : Prop := {
  ch_ok : kernel_ok k;
  ch_linked : linked k ta tb ca cb idb;
  ch_queue : queue k idb = q;
}.

(** Both buffers of a call, filled before the call. *)
Lemma write_buffers k q t task b bytes hs :
  channel k q -> tasks k !! t = Some task -> bytes_ok bytes ->
  exists task', (k ← write_user t (bytes_at b) bytes k; write_user t (handles_at b) (handle_bytes hs) k) =
      Val (set_task k t task') /\ channel (set_task k t task') q /\
    task' = store (store task (bytes_at b) bytes) (handles_at b) (handle_bytes hs).
Proof using Type.
  intros [Hk Hl Hq] Ht Hb. unfold write_user. rewrite Ht. obind.
  assert (tasks (set_task k t (store task (bytes_at b) bytes)) !! t = Some (store task (bytes_at b) bytes)) as Ht1
    by apply lookup_insert_eq.
  rewrite Ht1. obind. eexists. split; [by rewrite set_task_twice|]. split; [|done].
  rewrite <- (set_task_twice k t (store task (bytes_at b) bytes)). split.
  - apply set_task_ok; [apply set_task_ok; [done|]|]; repeat apply store_ok; try done.
    1,2: by apply (ok_tasks k Hk t). apply bytes_ok_handles.
  - apply linked_store; [by apply linked_store|done].
  - done.
Qed.

Definition sendable (max : Z) (v : T) : Prop :=
  valid v /\ handles_of v = [] /\ bytes_ok (encode 0 v) /\ Z.of_nat (length (encode 0 v)) <= max.

(** The buffers do not overlap, and are not at the null address. *)
Definition buffers_ok (b : Buffers) : Prop :=
  0 < bytes_at b /\ 0 < handles_at b /\
  (bytes_at b + CHANNEL_MAX_NUM_BYTES <= handles_at b \/ handles_at b + 4 * CHANNEL_MAX_NUM_HANDLES <= bytes_at b).

(** The message a value travels in. *)
Definition packet (v : T) : Message := message (encode 0 v) [].

Lemma length_handle_bytes hs : Z.of_nat (length (handle_bytes hs)) = 4 * Z.of_nat (length hs).
Proof.
  induction hs as [|h hs IH]; [done|]. unfold handle_bytes in *. cbn [mbind list_bind].
  rewrite length_app, length_to_le_bytes, Nat2Z.inj_add, IH. cbn [length]. lia.
Qed.

Lemma to_wire_packet v :
  sendable CHANNEL_MAX_NUM_BYTES v ->
  exists n w, to_wire v ChannelWriter_new = Val (Ok n, w) /\ byte_buffer w = encode 0 v /\
    ChannelWriter_handles w = [] /\ length (handle_buffer w) = 4%nat.
Proof using Type.
  unfold CHANNEL_MAX_NUM_BYTES. intros (Hv & Hh & _ & Hl).
  pose proof (serialize_spec v ChannelWriter_new [] []) as Hs. specialize (Hs Hv). rewrite Hh in Hs.
  destruct (to_wire v ChannelWriter_new) as [[r w]|].
  2:{ exfalso. apply Hs; [done|by left|]. unfold addressable. simpl. lia. }
  assert (addressable (0 + length (encode 0 v))) as Ha by (unfold addressable; simpl; lia).
  specialize (Hs ltac:(done) ltac:(by left) Ha). destruct r as [n|e].
  - destruct Hs as (_ & _ & Hb & Hhs & _ & Hlen). exists n, w. by rewrite Hb, Hhs.
  - exfalso. apply Hs. simpl. split; [done|lia].
Qed.

Lemma send_packet k q v b :
  channel k q -> sendable CHANNEL_MAX_NUM_BYTES v -> buffers_ok b ->
  send others ta ca b v k ⇓ fun '(r, k') => r = Ok tt /\ channel k' (q ++ [packet v]).
Proof.
  intros Hch Hv (Hb0 & Hh0 & Hdis). destruct (to_wire_packet v Hv) as (n & w & Ew & Eb & Eh & Hlen).
  pose proof (l_sender _ _ _ _ _ _ (ch_linked k q Hch)) as (A & _ & _ & HA & _).
  destruct (write_buffers k q ta A b (encode 0 v) (handle_buffer w) Hch HA (proj1 (proj2 (proj2 Hv))))
    as (A' & Ewr & Hch' & EA'). set (k0 := set_task k ta A') in *.
  unfold send. rewrite Ew. obind. rewrite Eb.
  apply bind_Val in Ewr as (k1 & E1 & E2). rewrite E1. obind. rewrite E2. obind. rewrite Eh.
  rewrite poplar_send_message_eq. simpl length. change (Z.of_nat 0) with 0.
  set (nb := Z.of_nat (length (encode 0 v))). assert (nb <= CHANNEL_MAX_NUM_BYTES) by apply Hv.
  assert (read_mem (memory A') (slice_ptr (bytes_at b) nb) nb = encode 0 v) as Hread.
  { unfold slice_ptr. destruct (Z.eqb_spec nb 0) as [Hz|Hz].
    - subst nb. destruct (encode 0 v); [done|simpl in Hz; lia].
    - rewrite EA'. cbn [memory store]. rewrite read_write_other.
      + apply read_write_same.
      + rewrite length_handle_bytes, Hlen. unfold CHANNEL_MAX_NUM_HANDLES in Hdis. lia. }
  destruct (send_spec k0 ta tb ca cb idb A' (slice_ptr (bytes_at b) nb) nb (slice_ptr (handles_at b) 0) 0 [])
    as (k2 & table & E & Hk2 & Hl2 & Hq2 & _); [apply Hch'|apply Hch'|apply lookup_insert_eq|done|done| | | |done|].
  - split; [|done]. unfold slice_ptr. destruct (Z.eqb_spec nb 0); [apply user_mapped_0; lia|].
    subst A'. by apply (stores_mapped _ _ _ _ _ _ 0); [lia|lia].
  - constructor.
  - by intros ?%elem_of_nil.
  - rewrite E. obind. split; [done|]. split; [done|done|]. rewrite Hq2, (ch_queue _ _ Hch'). by rewrite Hread.
Qed.

(** A receive that fails leaves the queue as it was. *)
Lemma get_message_fails k q B ba bl ha hl e :
  channel k q -> tasks k !! tb = Some B -> get_mapped B ba bl ha hl ->
  match q with
  | [] => e = GM_NoMessage
  | m :: _ => e = GM_BytesBufferTooSmall /\ bl < Z.of_nat (length (msg_bytes m))
  end ->
  syscall (get_message tb cb ba bl ha hl) k = Val (Err e, collect k) /\ channel (collect k) q.
Proof using Type*.
  intros [Hk Hl Hq] HB Hma He. split.
  - pose proof Hl as [_ [_ Hub] _ (B' & c & HB' & Hcb & _ & Hid)]. rewrite HB in HB'. injection HB' as <-.
    unfold queue in Hq. rewrite Hid in Hq. unfold syscall. rewrite (get_message_eq k tb B) by done.
    unfold get_ref. rewrite Hcb, Hid, Hq. destruct q as [|m q]; [by subst e|]. destruct He as [-> He].
    by replace (_ >? bl) with true by lia.
  - destruct (linked_collect _ _ _ _ _ _ Hl) as [Hl' Hq']. split; [by apply collect_ok|done|by rewrite Hq'].
Qed.

Lemma receive_buffers k q b :
  channel k q -> exists B B', tasks k !! tb = Some B /\
    try_receive (T := T) others tb cb b k =
      ('(r, k) ← poplar_get_message others tb cb
         (bytes_at b) BYTES_BUFFER_SIZE (handles_at b) CHANNEL_MAX_NUM_HANDLES (set_task k tb B');
       match r with
       | Ok (nbytes, nhandles) =>
           task ← unwrap (tasks k !! tb);
           message ← from_wire (read_mem (memory task) (bytes_at b) nbytes)
                               (read_handles (memory task) (handles_at b) nhandles);
           mret (match message with Ok m => Ok (Some m) | Err e => Err (FailedToDeserialize e) end, k)
       | Err GM_NoMessage => mret (Ok None, k)
       | Err e => mret (Err (ReceiveError e), k)
       end) /\
    channel (set_task k tb B') q /\
    get_mapped B' (bytes_at b) BYTES_BUFFER_SIZE (handles_at b) CHANNEL_MAX_NUM_HANDLES.
Proof using Type.
  intros Hch. pose proof (l_receiver _ _ _ _ _ _ (ch_linked k q Hch)) as (B & _ & HB & _).
  destruct (write_buffers k q tb B b (replicate (Z.to_nat BYTES_BUFFER_SIZE) 0)
    (replicate (Z.to_nat CHANNEL_MAX_NUM_HANDLES) 0) Hch HB) as (B' & Ewr & Hch' & EB').
  { apply Forall_replicate. by unfold is_byte, is_unsigned. }
  exists B, B'. split_and!; [done| |done|].
  { apply bind_Val in Ewr as (k1 & E1 & E2). unfold try_receive. rewrite E1. obind. by rewrite E2. }
  subst B'. edestruct (stores_mapped B (bytes_at b) (replicate (Z.to_nat BYTES_BUFFER_SIZE) 0) (handles_at b)
    (handle_bytes (replicate (Z.to_nat CHANNEL_MAX_NUM_HANDLES) 0)) BYTES_BUFFER_SIZE (4 * CHANNEL_MAX_NUM_HANDLES))
    as [Hm1 Hm2]; [by rewrite length_replicate|by rewrite length_handle_bytes, length_replicate|].
  split; intros _ _; [exact Hm1|exact Hm2].
Qed.

Lemma receive_packet k v vs b :
  channel k (packet v :: vs) -> sendable BYTES_BUFFER_SIZE v -> buffers_ok b ->
  try_receive others tb cb b k ⇓ fun '(r, k') => r = Ok (Some v) /\ channel k' vs.
Proof.
  intros Hch (Hv & Hh & Hbs & Hl) (Hb0 & Hh0 & Hdis). unfold BYTES_BUFFER_SIZE in Hl.
  destruct (receive_buffers k _ b Hch) as (B & B' & HB & -> & Hch' & Hma).
  set (k0 := set_task k tb B') in *. assert (tasks k0 !! tb = Some B') as HB' by apply lookup_insert_eq.
  rewrite (poplar_get_message_eq others tb cb _ _ _ _ k0 B') by (done || apply Hch').
  change (slice_ptr (bytes_at b) BYTES_BUFFER_SIZE) with (bytes_at b).
  change (slice_ptr (handles_at b) CHANNEL_MAX_NUM_HANDLES) with (handles_at b).
  destruct (ok_tasks k0 (ch_ok _ _ Hch') tb B' HB') as (_ & [Hn0 Hn1] & _).
  destruct (get_spec k0 ta tb ca cb idb B' (encode 0 v) [] vs (bytes_at b) BYTES_BUFFER_SIZE (handles_at b)
    CHANNEL_MAX_NUM_HANDLES) as (k1 & E & Hk1 & Hl1 & Hq1 & Ht1);
    [apply Hch'|apply Hch'|done|apply Hch'|done|unfold BYTES_BUFFER_SIZE; lia|done|simpl; lia|].
  rewrite E. obind. unfold result_map.
  destruct (message_lengths_status (encode 0 v) []) as (_ & _ & -> & _);
    [unfold CHANNEL_MAX_NUM_BYTES; lia|simpl; lia|].
  rewrite Ht1, lookup_insert_eq. obind.
  destruct (receive_task_memory B' (bytes_at b) (Z.of_nat (length (encode 0 v))) (handles_at b) 0
    BYTES_BUFFER_SIZE CHANNEL_MAX_NUM_HANDLES (encode 0 v) []) as [Hm _];
    unfold BYTES_BUFFER_SIZE, CHANNEL_MAX_NUM_HANDLES, CHANNEL_MAX_NUM_BYTES in *; try (done || lia).
  rewrite Hm. rewrite (from_wire_encode v) by (done || (rewrite Hh; simpl; lia) || (rewrite Hh; apply prefix_nil)).
  obind. split; [done|]. by split.
Qed.

(** A receive that finds nothing, or too much. *)
Lemma receive_nothing k b :
  channel k [] -> try_receive (T := T) others tb cb b k ⇓ fun '(r, k') => r = Ok None /\ channel k' [].
Proof.
  intros Hch. destruct (receive_buffers k _ b Hch) as (B & B' & HB & -> & Hch' & Hma).
  rewrite (poplar_get_message_eq others tb cb _ _ _ _ _ B') by (apply Hch' || apply lookup_insert_eq).
  change (slice_ptr (bytes_at b) BYTES_BUFFER_SIZE) with (bytes_at b).
  change (slice_ptr (handles_at b) CHANNEL_MAX_NUM_HANDLES) with (handles_at b).
  edestruct (get_message_fails (set_task k tb B') [] B') as [E Hch'']; [done|apply lookup_insert_eq|done|done|].
  rewrite E. obind. by split.
Qed.

Lemma receive_oversized k m q b :
  channel k (m :: q) -> BYTES_BUFFER_SIZE < Z.of_nat (length (msg_bytes m)) ->
  try_receive (T := T) others tb cb b k ⇓ fun '(r, k') =>
    r = Err (ReceiveError GM_BytesBufferTooSmall) /\ channel k' (m :: q).
Proof.
  intros Hch Hm. destruct (receive_buffers k _ b Hch) as (B & B' & HB & -> & Hch' & Hma).
  rewrite (poplar_get_message_eq others tb cb _ _ _ _ _ B') by (apply Hch' || apply lookup_insert_eq).
  change (slice_ptr (bytes_at b) BYTES_BUFFER_SIZE) with (bytes_at b).
  change (slice_ptr (handles_at b) CHANNEL_MAX_NUM_HANDLES) with (handles_at b).
  edestruct (get_message_fails (set_task k tb B') (m :: q) B') as [E Hch'']; [done|apply lookup_insert_eq|done|by split|].
  rewrite E. obind. by split.
Qed.

(** ** Whole conversations *)

Inductive Op := Send (v : T) (b : Buffers) | Receive (b : Buffers).
Inductive Reply := Sent (r : result unit ChannelSendError) | Received (r : result (option T) ChannelReceiveError).

(** The sender and the receiver make their calls in the given order. *)
Fixpoint converse (k : Kernel) (ops : list Op) : outcome (list Reply) :=
  match ops with
  | [] => mret []
  | Send v b :: ops => '(r, k) ← send others ta ca b v k; rs ← converse k ops; mret (Sent r :: rs)
  | Receive b :: ops => '(r, k) ← try_receive others tb cb b k; rs ← converse k ops; mret (Received r :: rs)
  end.

(** What a queue of values would answer. *)
Fixpoint fifo (vs : list T) (ops : list Op) : list Reply :=
  match ops with
  | [] => []
  | Send v _ :: ops => Sent (Ok tt) :: fifo (vs ++ [v]) ops
  | Receive _ :: ops => Received (Ok (head vs)) :: fifo (tail vs) ops
  end.

Definition op_ok (max : Z) (o : Op) : Prop :=
  match o with
  | Send v b => sendable max v /\ buffers_ok b
  | Receive b => buffers_ok b
  end.

Lemma sendable_le n m v : n <= m -> sendable n v -> sendable m v.
Proof using Type. intros Hnm (? & ? & ? & ?). split_and!; [done..|lia]. Qed.

Lemma converse_fifo ops : forall k vs,
  channel k (packet <$> vs) -> Forall (sendable BYTES_BUFFER_SIZE) vs -> Forall (op_ok BYTES_BUFFER_SIZE) ops ->
  converse k ops = Val (fifo vs ops).
Proof.
  induction ops as [|[v b|b] ops IH]; intros k vs Hch Hvs Hops; cbn [converse fifo]; [done|..];
    apply Forall_cons_1 in Hops as [Hop Hops].
  - destruct Hop as [Hv Hb]. assert (sendable CHANNEL_MAX_NUM_BYTES v) as Hv' by (by eapply sendable_le; [|exact Hv]).
    destruct (proj1 (returns_Val _ _) (send_packet k _ v b Hch Hv' Hb))
      as ([r k'] & -> & -> & Hch'). obind.
    rewrite (IH k' (vs ++ [v])); [done|by rewrite fmap_app|by apply Forall_app; auto|done].
  - destruct vs as [|v vs].
    + destruct (proj1 (returns_Val _ _) (receive_nothing k b Hch)) as ([r k'] & -> & -> & Hch'). obind.
      by rewrite (IH k' []).
    + apply Forall_cons_1 in Hvs as [Hv Hvs].
      destruct (proj1 (returns_Val _ _) (receive_packet k v _ b Hch Hv Hop)) as ([r k'] & -> & -> & Hch'). obind.
      by rewrite (IH k' vs).
Qed.

(** What the calls answer once the first message is too long to receive. *)
Definition stuck_reply (o : Op) : Reply :=
  match o with
  | Send _ _ => Sent (Ok tt)
  | Receive _ => Received (Err (ReceiveError GM_BytesBufferTooSmall))
  end.

Lemma converse_stuck ops : forall k m q,
  channel k (m :: q) -> BYTES_BUFFER_SIZE < Z.of_nat (length (msg_bytes m)) ->
  Forall (op_ok CHANNEL_MAX_NUM_BYTES) ops -> converse k ops = Val (stuck_reply <$> ops).
Proof.
  induction ops as [|[v b|b] ops IH]; intros k m q Hch Hm Hops; cbn [converse fmap list_fmap]; [done|..];
    apply Forall_cons_1 in Hops as [Hop Hops].
  - destruct Hop as [Hv Hb].
    destruct (proj1 (returns_Val _ _) (send_packet k _ v b Hch Hv Hb)) as ([r k'] & -> & -> & Hch'). obind.
    by rewrite (IH k' m (q ++ [packet v])).
  - destruct (proj1 (returns_Val _ _) (receive_oversized k m q b Hch Hm)) as ([r k'] & -> & -> & Hch'). obind.
    by rewrite (IH k' m q).
Qed.

(** C1: A typed channel between two tasks is a first-in first-out queue of values:
    however the sender's [send]s and the receiver's [try_receive]s interleave,
    every send succeeds and the receiver gets exactly the values sent, each once,
    unchanged and in order, and [None] when it has got them all.  The values
    carry no handles and encode to at most the 2048 bytes of the receive
    buffer. *)
Theorem channel_fifo (k : Kernel) (ops : list Op)
  (Hch : channel k []) (Hops : Forall (op_ok BYTES_BUFFER_SIZE) ops) :
  converse k ops = Val (fifo [] ops).
Proof. apply converse_fifo; [done|constructor|done]. Qed.

(** C40: A message the receiver's buffer cannot hold stops the channel for good: a
    value of more than 2048 and at most 4096 bytes is sent successfully, and from
    then on every receive fails with [BytesBufferTooSmall], whatever else is
    sent. *)
Theorem channel_oversized_blocks (k : Kernel) (v : T) (b : Buffers) (ops : list Op)
  (Hch : channel k []) (Hb : buffers_ok b) (Hv : sendable CHANNEL_MAX_NUM_BYTES v)
  (Hlong : BYTES_BUFFER_SIZE < Z.of_nat (length (encode 0 v)))
  (Hops : Forall (op_ok CHANNEL_MAX_NUM_BYTES) ops) :
  converse k (Send v b :: ops) = Val (Sent (Ok tt) :: (stuck_reply <$> ops)).
Proof.
  cbn [converse]. destruct (proj1 (returns_Val _ _) (send_packet k [] v b Hch Hv Hb)) as ([r k'] & -> & -> & Hch').
  obind. by rewrite (converse_stuck ops k' (packet v) []).
Qed.

End channels.

(** ** Input events and long messages between two tasks *)

Module ChannelExample.
Import IpcExample AbiExample.

#[local] Existing Instance reference_bit_field.
#[local] Existing Instance reference_bit_field_spec.

Lemma bytes_decide bs : bool_decide (Forall (fun b => 0 <= b < 2 ^ 8) bs) = true -> bytes_ok bs.
Proof. apply bool_decide_eq_true_1. Qed.

Lemma kernel_channel : channel 10 20 1 1 2 kernel [].
Proof. split; [apply kernel_is_ok|apply kernel_linked|done]. Qed.

Definition bufs : Buffers := mkBuffers 0x1000 0x8000.

Lemma bufs_ok : buffers_ok bufs.
Proof. unfold buffers_ok. simpl. unfold CHANNEL_MAX_NUM_BYTES. lia. Qed.

Definition move : InputEvent := RelX (Sint (-5)).

Lemma sample_sendable : sendable BYTES_BUFFER_SIZE sample_event.
Proof.
  split_and!; [by apply event_valid|by vm_compute| |by vm_compute].
  by apply bytes_decide.
Qed.

Lemma move_sendable : sendable BYTES_BUFFER_SIZE move.
Proof.
  split_and!; [apply event_valid; simpl; unfold i32_range; simpl; lia|by vm_compute| |by vm_compute].
  by apply bytes_decide.
Qed.

Lemma channel_fifo_witness :
  converse others 10 20 1 1 kernel [Send sample_event bufs; Receive bufs; Receive bufs; Send move bufs; Receive bufs] =
    Val [Sent (Ok tt); Received (Ok (Some sample_event)); Received (Ok None); Sent (Ok tt); Received (Ok (Some move))].
Proof.
  apply (channel_fifo others 10 20 1 1 2 kernel
    [Send sample_event bufs; Receive bufs; Receive bufs; Send move bufs; Receive bufs] kernel_channel).
  pose proof bufs_ok. pose proof sample_sendable. pose proof move_sendable. rewrite !Forall_cons. by split_and!.
Defined.

(** A receiver with room for every vector, and a vector of 3000 bytes. *)
#[local] Instance unlimited : Alloc := fun _ _ => true.

Definition long : list (uint 1) := replicate 3000 (Uint 7).

Lemma long_sendable : sendable CHANNEL_MAX_NUM_BYTES long /\ BYTES_BUFFER_SIZE < Z.of_nat (length (encode 0 long)).
Proof.
  split; [|by vm_compute]. split; [split; [by apply Forall_replicate|by split; vm_compute]|].
  split_and!; [by vm_compute|by apply bytes_decide|by vm_compute].
Qed.

Lemma nil_sendable : sendable (T := list (uint 1)) CHANNEL_MAX_NUM_BYTES [].
Proof. split_and!; try done. by apply bytes_decide. Qed.

Lemma channel_oversized_blocks_witness :
  converse others 10 20 1 1 kernel [Send long bufs; Receive bufs; Send [] bufs; Receive bufs] =
    Val (Sent (Ok tt) :: (stuck_reply (T := list (uint 1)) <$> [Receive bufs; Send [] bufs; Receive bufs])).
Proof.
  apply (channel_oversized_blocks others 10 20 1 1 2 kernel long bufs [Receive bufs; Send [] bufs; Receive bufs]
    kernel_channel bufs_ok (proj1 long_sendable) (proj2 long_sendable)).
  pose proof bufs_ok. pose proof nil_sendable. rewrite !Forall_cons. by split_and!.
Defined.

End ChannelExample.
