(* ===== verification/UsbDescriptor.v ===== *)
(** * [lib/usb/src/descriptor.rs]: walking a configuration

    A device describes a configuration by a run of descriptors, each with its
    length and type in front, which [walk_configuration] shows to a visitor one
    after the other.  The loop trusts the lengths, so it need not end:
    [walk_loop] has fuel, and [None] says that it is still running.

    The descriptors are read as the structures lie in memory.  A field of an
    enumeration type has to hold the byte of one of its variants: a reference to a
    structure with any other byte, which the code makes without a check, has no
    defined result, and is a panic here.

    The second part is how [user/usb_hid/src/main.rs] uses the walk: to decide
    whether it supports a device, and to find the endpoint to poll. *)

From stdpp Require Import base tactics option list numbers.
From S2P Require Import Prelude Bytes Crates.

(** ** The descriptors *)

Inductive DescriptorType :=
  | Reserved | DeviceType | ConfigurationType | StringType | InterfaceType | EndpointType | DeviceQualifier
  | OtherSpeedConfiguration | InterfacePower | HidType | Report.

#[global] Instance DescriptorType_eq_dec : EqDecision DescriptorType.
Proof. solve_decision. Defined.

(** The variant with the given discriminant. *)
Definition descriptor_type_of (b : Z) : option DescriptorType :=
  match b with
  | 0 => Some Reserved | 1 => Some DeviceType | 2 => Some ConfigurationType | 3 => Some StringType
  | 4 => Some InterfaceType | 5 => Some EndpointType | 6 => Some DeviceQualifier
  | 7 => Some OtherSpeedConfiguration | 8 => Some InterfacePower | 33 => Some HidType | 34 => Some Report
  | _ => None
  end.

(** [lib/usb/src/hid/mod.rs]; the discriminants are 0 to 31, in order. *)
Inductive CountryCode :=
  | NotSupported | Arabic | Belgian | CanadianBilingual | CanadianFrench | Czech | Danish |
  Finnish | French | German | Greek | Hebrew | Hungary | International | Italian | Japan | Korean
  | LatinAmerican | Dutch | Norwegian | Farsi | Poland | Portuguese | Russia | Slovakia | Spanish
  | Swedish | SwissFrench | SwissGerman | Switzerland | Taiwan | Turkish.

Definition country_codes : list CountryCode :=
  [NotSupported; Arabic; Belgian; CanadianBilingual; CanadianFrench; Czech; Danish; Finnish;
  French; German; Greek; Hebrew; Hungary; International; Italian; Japan; Korean; LatinAmerican;
  Dutch; Norwegian; Farsi; Poland; Portuguese; Russia; Slovakia; Spanish; Swedish; SwissFrench;
  SwissGerman; Switzerland; Taiwan; Turkish].

Definition country_code_of (b : Z) : option CountryCode := country_codes !! Z.to_nat b.

Record DescriptorBase := mkBase { base_length : Z; base_typ : Z }.

Record ConfigurationDescriptor := mkConfiguration {
  config_length : Z;
  config_typ : DescriptorType;
  total_length : Z;
  num_interfaces : Z;
  configuration_value : Z;
  configuration_index : Z;
  config_attributes : Z;
  max_power : Z;
}.

Record InterfaceDescriptor := mkInterface {
  interface_length : Z;
  interface_typ : DescriptorType;
  interface_num : Z;
  alternate_setting : Z;
  num_endpoints : Z;
  interface_class : Z;
  interface_subclass : Z;
  interface_protocol : Z;
  interface_index : Z;
}.

Record EndpointDescriptor := mkEndpoint {
  endpoint_length : Z;
  endpoint_typ : DescriptorType;
  endpoint_address : Z;
  endpoint_attributes : Z;
  max_packet_size : Z;
  interval : Z;
}.

(** [lib/usb/src/hid/mod.rs]. *)
Record HidDescriptor := mkHid {
  hid_length : Z;
  hid_typ : Z;
  bcd_hid : Z;
  country_code : CountryCode;
  num_descriptors : Z;
  descriptor_typ : Z;
  descriptor_length : Z;
}.

(** ** Reading a structure *)

(** [mem::size_of]: [ConfigurationDescriptor] is not packed and its alignment is
    that of its [u16], so there is a byte of padding at its end. *)
Definition size_of_base : Z := 2.
Definition size_of_configuration : Z := 10.
Definition size_of_interface : Z := 9.
Definition size_of_endpoint : Z := 7.
Definition size_of_hid : Z := 9.

(** The bytes from [offset] on, if there are [size] of them. *)
Definition at_ (size : Z) (bytes : list Z) (offset : Z) : outcome (list Z) :=
  e ← uadd offset size;
  rassert (e <=? Z.of_nat (length bytes)) ;;
  mret (drop (Z.to_nat offset) bytes).

Definition u8_at (bs : list Z) (i : nat) : Z := default 0 (bs !! i).
Definition u16_at (bs : list Z) (i : nat) : Z := from_le_bytes [u8_at bs i; u8_at bs (S i)].

Definition read_base (bs : list Z) : DescriptorBase := mkBase (u8_at bs 0) (u8_at bs 1).

Definition read_configuration (bs : list Z) : outcome ConfigurationDescriptor :=
  typ ← unwrap (descriptor_type_of (u8_at bs 1));
  mret (mkConfiguration (u8_at bs 0) typ (u16_at bs 2) (u8_at bs 4) (u8_at bs 5) (u8_at bs 6) (u8_at bs 7) (u8_at bs 8)).

Definition read_interface (bs : list Z) : outcome InterfaceDescriptor :=
  typ ← unwrap (descriptor_type_of (u8_at bs 1));
  mret (mkInterface (u8_at bs 0) typ (u8_at bs 2) (u8_at bs 3) (u8_at bs 4) (u8_at bs 5) (u8_at bs 6) (u8_at bs 7)
    (u8_at bs 8)).

Definition read_endpoint (bs : list Z) : outcome EndpointDescriptor :=
  typ ← unwrap (descriptor_type_of (u8_at bs 1));
  mret (mkEndpoint (u8_at bs 0) typ (u8_at bs 2) (u8_at bs 3) (u16_at bs 4) (u8_at bs 6)).

Definition read_hid (bs : list Z) : outcome HidDescriptor :=
  country_code ← unwrap (country_code_of (u8_at bs 4));
  mret (mkHid (u8_at bs 0) (u8_at bs 1) (u16_at bs 2) country_code (u8_at bs 5) (u8_at bs 6) (u16_at bs 7)).

(** ** The walk *)

(** [trait ConfigurationVisitor], on the visitor's state [V]. *)
Class ConfigurationVisitor (V : Type) := {
  visit_configuration : V -> ConfigurationDescriptor -> outcome V;
  visit_interface : V -> InterfaceDescriptor -> outcome V;
  visit_endpoint : V -> EndpointDescriptor -> outcome V;
  visit_hid : V -> HidDescriptor -> outcome V;
  visit_other : V -> Z -> list Z -> outcome V;
}.

Section walk.
Context {V : Type} `{ConfigurationVisitor V}.

(** [&bytes[from..to]]. *)
Definition slice (bytes : list Z) (from to : Z) : outcome (list Z) :=
  rassert ((from <=? to) && (to <=? Z.of_nat (length bytes))) ;;
  mret (take (Z.to_nat (to - from)) (drop (Z.to_nat from) bytes)).

(** The body of the loop: the new state of the visitor and the new offset. *)
Definition walk_step (bytes : list Z) (offset : Z) (visitor : V) : outcome (V * Z) :=
  bs ← at_ size_of_base bytes offset;
  let base := read_base bs in
  visitor ←
    (if base_typ base =? 4 then
       bs ← at_ size_of_interface bytes offset; d ← read_interface bs; visit_interface visitor d
     else if base_typ base =? 5 then
       bs ← at_ size_of_endpoint bytes offset; d ← read_endpoint bs; visit_endpoint visitor d
     else if base_typ base =? 33 then
       bs ← at_ size_of_hid bytes offset; d ← read_hid bs; visit_hid visitor d
     else
       e ← uadd offset (base_length base);
       descriptor_bytes ← slice bytes offset e;
       visit_other visitor (base_typ base) descriptor_bytes);
  offset ← uadd offset (base_length base);
  mret (visitor, offset).

Fixpoint walk_loop (fuel : nat) (bytes : list Z) (total offset : Z) (visitor : V) : option (outcome V) :=
  match fuel with
  | O => None
  | S fuel =>
      if offset <? total then
        match walk_step bytes offset visitor with
        | Panic => Some Panic
        | Val (visitor, offset) => walk_loop fuel bytes total offset visitor
        end
      else Some (Val visitor)
  end.

Definition walk_configuration (fuel : nat) (bytes : list Z) (visitor : V) : option (outcome V) :=
  match
    bs ← at_ size_of_configuration bytes 0;
    configuration_descriptor ← read_configuration bs;
    visitor ← visit_configuration visitor configuration_descriptor;
    mret (configuration_descriptor, visitor)
  with
  | Panic => Some Panic
  | Val (c, visitor) => walk_loop fuel bytes (total_length c) (config_length c) visitor
  end.

End walk.

(** ** What a conformant device sends *)

(** A descriptor, with the bytes it has behind its structure. *)
Inductive Descriptor :=
  | Interface (d : InterfaceDescriptor) (extra : list Z)
  | Endpoint (d : EndpointDescriptor) (extra : list Z)
  | Hid (d : HidDescriptor) (extra : list Z)
  | Other (typ : Z) (payload : list Z).

(** The discriminants. *)
Definition type_byte (t : DescriptorType) : Z :=
  match t with
  | Reserved => 0 | DeviceType => 1 | ConfigurationType => 2 | StringType => 3 | InterfaceType => 4
  | EndpointType => 5 | DeviceQualifier => 6 | OtherSpeedConfiguration => 7 | InterfacePower => 8
  | HidType => 33 | Report => 34
  end.

Definition country_byte (c : CountryCode) : Z :=
  match c with
  | NotSupported => 0 | Arabic => 1 | Belgian => 2 | CanadianBilingual => 3 | CanadianFrench => 4
  | Czech => 5 | Danish => 6 | Finnish => 7 | French => 8 | German => 9 | Greek => 10 | Hebrew =>
  11 | Hungary => 12 | International => 13 | Italian => 14 | Japan => 15 | Korean => 16 |
  LatinAmerican => 17 | Dutch => 18 | Norwegian => 19 | Farsi => 20 | Poland => 21 | Portuguese
  => 22 | Russia => 23 | Slovakia => 24 | Spanish => 25 | Swedish => 26 | SwissFrench => 27 |
  SwissGerman => 28 | Switzerland => 29 | Taiwan => 30 | Turkish => 31
  end.

Definition u16_bytes (x : Z) : list Z := to_le_bytes 2 x.

Definition configuration_bytes (c : ConfigurationDescriptor) : list Z :=
  [config_length c; type_byte (config_typ c)] ++ u16_bytes (total_length c) ++
  [num_interfaces c; configuration_value c; configuration_index c; config_attributes c; max_power c].

Definition descriptor_bytes (d : Descriptor) : list Z :=
  match d with
  | Interface d extra =>
      [interface_length d; type_byte (interface_typ d); interface_num d; alternate_setting d; num_endpoints d; interface_class d;
       interface_subclass d; interface_protocol d; interface_index d] ++ extra
  | Endpoint d extra =>
      [endpoint_length d; type_byte (endpoint_typ d); endpoint_address d; endpoint_attributes d] ++ u16_bytes (max_packet_size d) ++
      [interval d] ++ extra
  | Hid d extra =>
      [hid_length d; hid_typ d] ++ u16_bytes (bcd_hid d) ++ [country_byte (country_code d); num_descriptors d; descriptor_typ d] ++
      u16_bytes (descriptor_length d) ++ extra
  | Other typ payload => [2 + Z.of_nat (length payload); typ] ++ payload
  end.

(** The lengths and types are right, and the fields have their widths. *)
Definition descriptor_ok (d : Descriptor) : Prop :=
  Z.of_nat (length (descriptor_bytes d)) < 256 /\
  match d with
  | Interface i _ => interface_length i = Z.of_nat (length (descriptor_bytes d)) /\ interface_typ i = InterfaceType
  | Endpoint e _ => endpoint_length e = Z.of_nat (length (descriptor_bytes d)) /\ endpoint_typ e = EndpointType /\
      is_unsigned 16 (max_packet_size e)
  | Hid h _ => hid_length h = Z.of_nat (length (descriptor_bytes d)) /\ hid_typ h = 33 /\
      is_unsigned 16 (bcd_hid h) /\ is_unsigned 16 (descriptor_length h)
  | Other typ _ => typ <> 4 /\ typ <> 5 /\ typ <> 33
  end.

Definition descriptors_bytes (ds : list Descriptor) : list Z := d ← ds; descriptor_bytes d.

(** The configuration is the run [bytes]: the descriptors, and perhaps more behind
    the total length. *)
Record conformant (c : ConfigurationDescriptor) (ds : list Descriptor) (bytes : list Z) : Prop := {
  conf_bytes : exists extra rest, bytes = configuration_bytes c ++ extra ++ descriptors_bytes ds ++ rest /\
    config_length c = 9 + Z.of_nat (length extra);
  conf_total : total_length c = config_length c + Z.of_nat (length (descriptors_bytes ds));
  conf_width : is_unsigned 16 (total_length c);
  (** The structure's padding is read too. *)
  conf_padding : size_of_configuration <= Z.of_nat (length bytes);
  conf_memory : Z.of_nat (length bytes) < 2 ^ 63;
  conf_descriptors : Forall descriptor_ok ds;
}.

Section correct.
Context {V : Type} `{ConfigurationVisitor V}.

(** The reference: show each descriptor to the visitor. *)
Definition visit (visitor : V) (d : Descriptor) : outcome V :=
  match d with
  | Interface i _ => visit_interface visitor i
  | Endpoint e _ => visit_endpoint visitor e
  | Hid h _ => visit_hid visitor h
  | Other typ _ => visit_other visitor typ (descriptor_bytes d)
  end.

Lemma at_in size bytes offset pre l :
  bytes = pre ++ l -> offset = Z.of_nat (length pre) -> 0 <= size <= Z.of_nat (length l) ->
  Z.of_nat (length bytes) < 2 ^ 63 -> at_ size bytes offset = Val l.
Proof.
  intros -> -> Hs Hm. rewrite length_app in Hm. unfold at_. rewrite wadd_in by (unfold is_unsigned; lia). obind.
  rewrite length_app, (proj2 (Z.leb_le _ _)) by lia. obind. by rewrite Nat2Z.id, drop_app_length.
Qed.

Lemma u16_read x l : is_unsigned 16 x -> u16_at (u16_bytes x ++ l) 0 = x.
Proof.
  intros Hx. change (u16_at (u16_bytes x ++ l) 0) with (from_le_bytes (to_le_bytes 2 x)).
  rewrite from_to_le_bytes. by apply Z.mod_small.
Qed.

Definition descriptor_type (d : Descriptor) : Z :=
  match d with Interface _ _ => 4 | Endpoint _ _ => 5 | Hid _ _ => 33 | Other typ _ => typ end.

Lemma read_base_descriptor d post :
  descriptor_ok d ->
  read_base (descriptor_bytes d ++ post) = mkBase (Z.of_nat (length (descriptor_bytes d))) (descriptor_type d).
Proof.
  intros [_ Hd]. destruct d as [i ?|e ?|h ?|typ payload].
  - destruct Hd as [<- Ht]. unfold read_base. simpl. by rewrite Ht.
  - destruct Hd as (<- & Ht & _). unfold read_base. simpl. by rewrite Ht.
  - destruct Hd as (<- & Ht & _). simpl. by rewrite <- Ht.
  - unfold read_base. simpl. f_equal. unfold u8_at. simpl. lia.
Qed.

Lemma type_byte_read t : descriptor_type_of (type_byte t) = Some t.
Proof. by destruct t. Qed.

Lemma country_byte_read c : country_code_of (country_byte c) = Some c.
Proof. by destruct c. Qed.

Lemma read_interface_descriptor i extra post : read_interface (descriptor_bytes (Interface i extra) ++ post) = Val i.
Proof. destruct i as [a t b c d e f g h]. unfold read_interface. cbn. by rewrite type_byte_read. Qed.

Lemma read_endpoint_descriptor e extra post :
  is_unsigned 16 (max_packet_size e) -> read_endpoint (descriptor_bytes (Endpoint e extra) ++ post) = Val e.
Proof.
  intros Hp. destruct e as [a t c d p i]. unfold read_endpoint. simpl in Hp.
  replace (u16_at _ 4) with p by (symmetry; exact (u16_read p (i :: extra ++ post) Hp)).
  change (u8_at _ 1) with (type_byte t). by rewrite type_byte_read.
Qed.

Lemma read_hid_descriptor h extra post :
  is_unsigned 16 (bcd_hid h) -> is_unsigned 16 (descriptor_length h) ->
  read_hid (descriptor_bytes (Hid h extra) ++ post) = Val h.
Proof.
  intros Hb Hl. destruct h as [a b x c n d y]. unfold read_hid. simpl in Hb, Hl.
  replace (u16_at _ 2) with x by (symmetry; exact (u16_read x ([country_byte c; n; d] ++ u16_bytes y ++ extra ++ post) Hb)).
  replace (u16_at _ 7) with y by (symmetry; exact (u16_read y (extra ++ post) Hl)).
  change (u8_at _ 4) with (country_byte c). by rewrite country_byte_read.
Qed.

Lemma walk_step_descriptor bytes pre d post visitor :
  bytes = pre ++ descriptor_bytes d ++ post -> descriptor_ok d -> Z.of_nat (length bytes) < 2 ^ 63 ->
  walk_step bytes (Z.of_nat (length pre)) visitor =
    (visitor ← visit visitor d; mret (visitor, Z.of_nat (length (pre ++ descriptor_bytes d)))).
Proof.
  intros Hb Hok Hm. pose proof Hok as [Hl Hd].
  assert (forall size, 0 <= size <= Z.of_nat (length (descriptor_bytes d)) ->
    at_ size bytes (Z.of_nat (length pre)) = Val (descriptor_bytes d ++ post)) as Hat.
  { intros size Hs. apply (at_in size bytes _ pre); auto. rewrite length_app. lia. }
  assert (Z.of_nat (length pre) + Z.of_nat (length (descriptor_bytes d)) <= Z.of_nat (length bytes)) as Hfit
    by (rewrite Hb, !length_app; lia).
  unfold walk_step. rewrite (Hat size_of_base) by (unfold size_of_base; destruct d; simpl; lia). obind.
  rewrite read_base_descriptor by done. cbn [base_typ base_length].
  rewrite wadd_in by (unfold is_unsigned; lia). rewrite <- Nat2Z.inj_add, <- length_app. obind.
  destruct d as [i extra|e extra|h extra|typ payload]; cbn [descriptor_type visit Z.eqb Pos.eqb].
  - rewrite (Hat size_of_interface) by (unfold size_of_interface; simpl; lia). obind. by rewrite read_interface_descriptor.
  - rewrite (Hat size_of_endpoint) by (unfold size_of_endpoint; simpl; lia). obind. rewrite read_endpoint_descriptor by apply Hd. done.
  - rewrite (Hat size_of_hid) by (unfold size_of_hid; simpl; lia). obind. rewrite read_hid_descriptor by apply Hd. done.
  - destruct Hd as (H4 & H5 & H33).
    rewrite (proj2 (Z.eqb_neq typ 4)), (proj2 (Z.eqb_neq typ 5)), (proj2 (Z.eqb_neq typ 33)) by done.
    unfold slice. rewrite length_app in *.
    rewrite !(proj2 (Z.leb_le _ _)) by lia. obind. rewrite Nat2Z.id, Hb, drop_app_length.
    replace (Z.to_nat _) with (length (descriptor_bytes (Other typ payload))) by lia.
    by rewrite take_app_length.
Qed.

Lemma walk_loop_descriptors bytes ds : forall pre post visitor fuel,
  bytes = pre ++ descriptors_bytes ds ++ post -> Forall descriptor_ok ds -> Z.of_nat (length bytes) < 2 ^ 63 ->
  (length ds < fuel)%nat ->
  walk_loop fuel bytes (Z.of_nat (length (pre ++ descriptors_bytes ds))) (Z.of_nat (length pre)) visitor =
    Some (ofold visit visitor ds).
Proof.
  induction ds as [|d ds IH]; intros pre post visitor fuel Hb Hok Hm Hf; (destruct fuel as [|fuel]; [simpl in Hf; lia|]);
    cbn [walk_loop].
  { simpl. rewrite app_nil_r. by rewrite Z.ltb_irrefl. }
  apply Forall_cons_1 in Hok as [Hd Hok]. change (descriptors_bytes (d :: ds)) with (descriptor_bytes d ++ descriptors_bytes ds) in *.
  assert (0 < length (descriptor_bytes d))%nat as Hpos by (destruct d; simpl; lia).
  rewrite (proj2 (Z.ltb_lt _ _)) by (rewrite !length_app; lia).
  rewrite <- app_assoc in Hb. rewrite (walk_step_descriptor bytes pre d (descriptors_bytes ds ++ post)) by done.
  cbn [ofold]. destruct (visit visitor d) as [visitor'|]; [|done]. obind. rewrite app_assoc.
  apply (IH _ post); [by rewrite <- app_assoc|done|done|simpl in Hf; lia].
Qed.

Lemma walk_configuration_eq c ds bytes visitor fuel :
  conformant c ds bytes -> (length ds < fuel)%nat ->
  walk_configuration fuel bytes visitor =
    Some (visitor ← visit_configuration visitor c; ofold visit visitor ds).
Proof.
  intros [(extra & rest & Hb & Hlen) Htotal Hw Hpad Hm Hds] Hfuel.
  unfold walk_configuration. rewrite (at_in _ bytes 0 [] bytes) by (done || (unfold size_of_configuration in *; lia)). obind.
  assert (read_configuration bytes = Val c) as Hc.
  { rewrite Hb. destruct c as [cl ct tl ni cv ci ca mp]. unfold read_configuration.
    replace (u16_at _ 2) with tl
      by (symmetry; exact (u16_read tl ([ni; cv; ci; ca; mp] ++ extra ++ descriptors_bytes ds ++ rest) Hw)).
    change (u8_at _ 1) with (type_byte ct). by rewrite type_byte_read. }
  rewrite Hc. obind. destruct (visit_configuration visitor c) as [v|]; [|done]. obind.
  assert (length (configuration_bytes c) = 9%nat) as H9 by done.
  assert (config_length c = Z.of_nat (length (configuration_bytes c ++ extra))) as ->
    by (rewrite length_app, H9; lia).
  assert (total_length c = Z.of_nat (length ((configuration_bytes c ++ extra) ++ descriptors_bytes ds))) as ->
    by (rewrite !length_app, H9; lia).
  apply (walk_loop_descriptors bytes ds _ rest); [by rewrite <- app_assoc|done|done|done].
Qed.

(** C30: On what a conformant device sends, [walk_configuration] ends, and shows the
    visitor the configuration and then every descriptor behind it, in order, each
    as what it is and with its fields as sent; bytes behind a structure's fields
    and behind the total length are passed over. *)
Theorem walk_configuration_correct (c : ConfigurationDescriptor) (ds : list Descriptor) (bytes : list Z) (visitor : V) (fuel : nat)
  (Hconf : conformant c ds bytes) (Hfuel : (length ds < fuel)%nat) :
  walk_configuration fuel bytes visitor =
    Some (visitor ← visit_configuration visitor c; ofold visit visitor ds).
Proof. by apply walk_configuration_eq. Qed.

(** *** Any bytes *)

(** The length field at an offset, and the offsets the loop comes to. *)
Definition length_at (bytes : list Z) (offset : Z) : Z := u8_at bytes (Z.to_nat offset).

Inductive comes_to (bytes : list Z) (total : Z) : Z -> Z -> Prop :=
  | comes_here offset : comes_to bytes total offset offset
  | comes_next offset offset' : offset < total ->
      comes_to bytes total (offset + length_at bytes offset) offset' -> comes_to bytes total offset offset'.

Lemma u8_at_range bytes i : bytes_ok bytes -> 0 <= u8_at bytes i < 256.
Proof.
  intros Hb. unfold u8_at. destruct (bytes !! i) as [b|] eqn:E; simpl; [|lia].
  by apply (Forall_lookup_1 _ _ _ _ Hb E).
Qed.

Lemma u16_at_range bytes i : bytes_ok bytes -> 0 <= u16_at bytes i < 65536.
Proof.
  intros Hb. pose proof (u8_at_range bytes i Hb). pose proof (u8_at_range bytes (S i) Hb).
  unfold u16_at. simpl. lia.
Qed.

Lemma at_Val size bytes offset bs : at_ size bytes offset = Val bs -> bs = drop (Z.to_nat offset) bytes.
Proof. unfold at_. intros E. by outcome_inv. Qed.

Lemma walk_step_offset bytes offset visitor visitor' offset' :
  walk_step bytes offset visitor = Val (visitor', offset') -> offset' = offset + length_at bytes offset.
Proof.
  unfold walk_step. intros E. apply bind_Val in E as (bs & Hbs%at_Val & E). apply bind_Val in E as (v & _ & E).
  outcome_inv. simplify_eq. unfold length_at, u8_at. simpl. unfold u8_at. by rewrite lookup_drop, Nat.add_0_r.
Qed.

Lemma walk_loop_ends bytes total fuel : forall offset visitor,
  bytes_ok bytes -> Z.max 0 (total - offset) < Z.of_nat fuel ->
  (forall o, comes_to bytes total offset o -> o < total -> length_at bytes o <> 0) ->
  is_Some (walk_loop fuel bytes total offset visitor).
Proof.
  induction fuel as [|fuel IH]; intros offset visitor Hb Hf Hz; cbn [walk_loop]; [lia|].
  destruct (Z.ltb_spec offset total) as [Hlt|]; [|by eexists].
  destruct (walk_step bytes offset visitor) as [[visitor' offset']|] eqn:E; [|by eexists].
  apply walk_step_offset in E as ->.
  pose proof (Hz offset (comes_here _ _ _) Hlt) as Hn. pose proof (u8_at_range bytes (Z.to_nat offset) Hb) as Hr.
  fold (length_at bytes offset) in Hr. apply IH; [done|lia|]. intros o Ho. apply Hz. by apply comes_next.
Qed.

(** C34: On any bytes a device may send, [walk_configuration] ends, with a result or
    a panic, within one step per byte of the total length its first descriptor gives
    (and one for the end), provided no descriptor the walk comes to has length 0. *)
Theorem walk_configuration_ends (bytes : list Z) (visitor : V) (fuel : nat)
  (Hfuel : u16_at bytes 2 < Z.of_nat fuel) (Hbytes : bytes_ok bytes)
  (Hlengths : forall o, comes_to bytes (u16_at bytes 2) (u8_at bytes 0) o -> o < u16_at bytes 2 -> length_at bytes o <> 0) :
  is_Some (walk_configuration fuel bytes visitor).
Proof.
  unfold walk_configuration.
  destruct (at_ size_of_configuration bytes 0) as [bs|] eqn:E; [|by eexists]. apply at_Val in E as ->. obind.
  change (drop (Z.to_nat 0) bytes) with bytes. unfold read_configuration.
  destruct (descriptor_type_of (u8_at bytes 1)) as [t|]; [|by eexists]. obind.
  destruct (visit_configuration visitor _) as [v|]; [|by eexists]. obind.
  pose proof (u16_at_range bytes 2 Hbytes). pose proof (u8_at_range bytes 0 Hbytes).
  apply walk_loop_ends; [done|cbn [total_length config_length]; lia|done].
Qed.

(** A descriptor of length 0 stops the walk for ever. *)
Lemma zero_length_hangs bytes total offset :
  offset < total -> (forall v, exists v', walk_step bytes offset v = Val (v', offset)) ->
  forall fuel v, walk_loop fuel bytes total offset v = None.
Proof.
  intros Hlt Hstep fuel. induction fuel as [|fuel IH]; intros v; [done|]. cbn [walk_loop].
  rewrite (proj2 (Z.ltb_lt _ _) Hlt). destruct (Hstep v) as [v' ->]. apply IH.
Qed.

End correct.

(** ** A keyboard *)

Module UsbExample.

(** A visitor that counts. *)
#[export] Instance counter : ConfigurationVisitor Z := {
  visit_configuration := fun n _ => mret (n + 1);
  visit_interface := fun n _ => mret (n + 1);
  visit_endpoint := fun n _ => mret (n + 1);
  visit_hid := fun n _ => mret (n + 1);
  visit_other := fun n _ _ => mret (n + 1);
}.

Definition configuration : ConfigurationDescriptor := mkConfiguration 9 ConfigurationType 34 1 1 0 0xa0 50.

Definition descriptors : list Descriptor :=
  [Interface (mkInterface 9 InterfaceType 0 0 1 3 1 1 0) []; Hid (mkHid 9 33 0x111 NotSupported 1 34 63) [];
   Endpoint (mkEndpoint 7 EndpointType 0x81 3 8 10) []].

Definition keyboard : list Z :=
  [9; 2; 34; 0; 1; 1; 0; 0xa0; 50] ++ [9; 4; 0; 0; 1; 3; 1; 1; 0] ++ [9; 33; 0x11; 0x01; 0; 1; 34; 63; 0] ++
  [7; 5; 0x81; 3; 8; 0; 10].

Lemma keyboard_conformant : conformant configuration descriptors keyboard.
Proof.
  split; [by exists [], []|done|done|done|done|].
  repeat (apply Forall_cons_2; [by vm_compute|]). constructor.
Qed.

Lemma walk_configuration_correct_witness : walk_configuration 4 keyboard 0 = Some (Val 4).
Proof. rewrite (walk_configuration_correct configuration descriptors); [done|apply keyboard_conformant|simpl; lia]. Defined.

(** A configuration that says it has two more bytes, which are not there: the
    walk ends in a panic. *)
Lemma walk_configuration_ends_witness : is_Some (walk_configuration 12 [9; 2; 11; 0; 0; 1; 0; 0; 0; 2] 0).
Proof.
  apply walk_configuration_ends.
  - by vm_compute.
  - repeat (apply Forall_cons_2; [by vm_compute|]). constructor.
  - intros o Ho. change (u16_at _ 2) with 11 in *. change (u8_at _ 0) with 9 in Ho.
    inversion Ho as [|? ? Hlt Hn]; subst; [done|]. change (9 + length_at _ 9) with 11 in Hn.
    inversion Hn; subst; lia.
Defined.

(** A vendor's descriptor of length 0 behind the configuration. *)
Definition zero_length : list Z := [9; 2; 11; 0; 0; 1; 0; 0; 0] ++ [0; 0xff].

Lemma zero_length_never_ends fuel : walk_configuration fuel zero_length 0 = None.
Proof.
  unfold walk_configuration. cbn -[walk_loop]. apply zero_length_hangs; [done|]. intros n. by exists (n + 1).
Qed.

(** A keyboard with a country code of the HID specification that the enumeration
    lacks (the United Kingdom), for which the walk has no defined result. *)
Definition british : list Z :=
  [9; 2; 27; 0; 1; 1; 0; 0xa0; 50] ++ [9; 4; 0; 0; 1; 3; 1; 1; 0] ++ [9; 33; 0x11; 0x01; 32; 1; 34; 63; 0].

Lemma unlisted_country_undefined : walk_configuration 3 british 0 = Some Panic.
Proof. vm_compute. reflexivity. Qed.

End UsbExample.
