(* ===== verification/HidReport.v ===== *)
(** * [lib/usb/src/hid/report.rs]: USB HID reports

    The tokenizer and parser of report descriptors, and the interpreter of the
    reports a device sends.  [Range<u32>] arguments are their two ends; a slice
    is a list of bytes; [bit_field]'s operations are the parameters of
    [Crates]. *)

From stdpp Require Import base tactics option list numbers.
From S2P Require Import Prelude Bytes Crates.

(** ** Usages *)

Module Usage.
Inductive t : Set :=
  | KeyA | KeyB | KeyC | KeyD | KeyE | KeyF | KeyG | KeyH | KeyI | KeyJ | KeyK | KeyL | KeyM
  | KeyN | KeyO | KeyP | KeyQ | KeyR | KeyS | KeyT | KeyU | KeyV | KeyW | KeyX | KeyY | KeyZ
  | Key1 | Key2 | Key3 | Key4 | Key5 | Key6 | Key7 | Key8 | Key9 | Key0 | KeyReturn | KeyEscape
  | KeyDelete | KeyTab | KeySpace | KeyDash | KeyEquals | KeyLeftBracket | KeyRightBracket
  | KeyForwardSlash | KeyPound | KeySemicolon | KeyApostrophe | KeyGrave | KeyComma | KeyDot
  | KeyBackSlash | KeyCapslock | KeyF1 | KeyF2 | KeyF3 | KeyF4 | KeyF5 | KeyF6 | KeyF7 | KeyF8
  | KeyF9 | KeyF10 | KeyF11 | KeyF12 | KeyPrintScreen | KeyScrolllock | KeyPause | KeyInsert
  | KeyHome | KeyPageUp | KeyDeleteForward | KeyEnd | KeyPageDown | KeyRightArrow | KeyLeftArrow
  | KeyDownArrow | KeyUpArrow | KeyNumlock | KeypadSlash | KeypadAsterix | KeypadDash
  | KeypadPlus | KeypadEnter | Keypad1 | Keypad2 | Keypad3 | Keypad4 | Keypad5 | Keypad6
  | Keypad7 | Keypad8 | Keypad9 | Keypad0 | KeypadDot | KeypadNonUsBackSlash | KeyApplication
  | KeyPower | KeypadEquals | KeyF13 | KeyF14 | KeyF15 | KeyF16 | KeyF17 | KeyF18 | KeyF19
  | KeyF20 | KeyF21 | KeyF22 | KeyF23 | KeyF24 | KeyExecute | KeyHelp | KeyMenu | KeySelect
  | KeyStop | KeyAgain | KeyUndo | KeyCut | KeyCopy | KeyPaste | KeyFind | KeyMute | KeyVolumeUp
  | KeyVolumeDown | KeyLockingCapslock | KeyLockingNumlock | KeyLockingScrolllock | KeypadComma
  | KeyLeftControl | KeyLeftShift | KeyLeftAlt | KeyLeftGui | KeyRightControl | KeyRightShift
  | KeyRightAlt | KeyRightGui | ButtonNone | Button1 | Button2 | Button3 | Button4 | Button5 | X
  | Y | Z | Wheel.

(** The variants in declaration order, which is the derived [Ord]. *)
Definition all : list t := [
  KeyA; KeyB; KeyC; KeyD; KeyE; KeyF; KeyG; KeyH; KeyI; KeyJ; KeyK; KeyL; KeyM; KeyN; KeyO;
  KeyP; KeyQ; KeyR; KeyS; KeyT; KeyU; KeyV; KeyW; KeyX; KeyY; KeyZ; Key1; Key2; Key3; Key4;
  Key5; Key6; Key7; Key8; Key9; Key0; KeyReturn; KeyEscape; KeyDelete; KeyTab; KeySpace;
  KeyDash; KeyEquals; KeyLeftBracket; KeyRightBracket; KeyForwardSlash; KeyPound; KeySemicolon;
  KeyApostrophe; KeyGrave; KeyComma; KeyDot; KeyBackSlash; KeyCapslock; KeyF1; KeyF2; KeyF3;
  KeyF4; KeyF5; KeyF6; KeyF7; KeyF8; KeyF9; KeyF10; KeyF11; KeyF12; KeyPrintScreen;
  KeyScrolllock; KeyPause; KeyInsert; KeyHome; KeyPageUp; KeyDeleteForward; KeyEnd; KeyPageDown;
  KeyRightArrow; KeyLeftArrow; KeyDownArrow; KeyUpArrow; KeyNumlock; KeypadSlash; KeypadAsterix;
  KeypadDash; KeypadPlus; KeypadEnter; Keypad1; Keypad2; Keypad3; Keypad4; Keypad5; Keypad6;
  Keypad7; Keypad8; Keypad9; Keypad0; KeypadDot; KeypadNonUsBackSlash; KeyApplication; KeyPower;
  KeypadEquals; KeyF13; KeyF14; KeyF15; KeyF16; KeyF17; KeyF18; KeyF19; KeyF20; KeyF21; KeyF22;
  KeyF23; KeyF24; KeyExecute; KeyHelp; KeyMenu; KeySelect; KeyStop; KeyAgain; KeyUndo; KeyCut;
  KeyCopy; KeyPaste; KeyFind; KeyMute; KeyVolumeUp; KeyVolumeDown; KeyLockingCapslock;
  KeyLockingNumlock; KeyLockingScrolllock; KeypadComma; KeyLeftControl; KeyLeftShift;
  KeyLeftAlt; KeyLeftGui; KeyRightControl; KeyRightShift; KeyRightAlt; KeyRightGui; ButtonNone;
  Button1; Button2; Button3; Button4; Button5; X; Y; Z; Wheel].

Definition index (u : t) : nat :=
  match u with
  | KeyA => 0 | KeyB => 1 | KeyC => 2 | KeyD => 3 | KeyE => 4 | KeyF => 5 | KeyG => 6
  | KeyH => 7 | KeyI => 8 | KeyJ => 9 | KeyK => 10 | KeyL => 11 | KeyM => 12 | KeyN => 13
  | KeyO => 14 | KeyP => 15 | KeyQ => 16 | KeyR => 17 | KeyS => 18 | KeyT => 19 | KeyU => 20
  | KeyV => 21 | KeyW => 22 | KeyX => 23 | KeyY => 24 | KeyZ => 25 | Key1 => 26 | Key2 => 27
  | Key3 => 28 | Key4 => 29 | Key5 => 30 | Key6 => 31 | Key7 => 32 | Key8 => 33 | Key9 => 34
  | Key0 => 35 | KeyReturn => 36 | KeyEscape => 37 | KeyDelete => 38 | KeyTab => 39
  | KeySpace => 40 | KeyDash => 41 | KeyEquals => 42 | KeyLeftBracket => 43
  | KeyRightBracket => 44 | KeyForwardSlash => 45 | KeyPound => 46 | KeySemicolon => 47
  | KeyApostrophe => 48 | KeyGrave => 49 | KeyComma => 50 | KeyDot => 51 | KeyBackSlash => 52
  | KeyCapslock => 53 | KeyF1 => 54 | KeyF2 => 55 | KeyF3 => 56 | KeyF4 => 57 | KeyF5 => 58
  | KeyF6 => 59 | KeyF7 => 60 | KeyF8 => 61 | KeyF9 => 62 | KeyF10 => 63 | KeyF11 => 64
  | KeyF12 => 65 | KeyPrintScreen => 66 | KeyScrolllock => 67 | KeyPause => 68 | KeyInsert => 69
  | KeyHome => 70 | KeyPageUp => 71 | KeyDeleteForward => 72 | KeyEnd => 73 | KeyPageDown => 74
  | KeyRightArrow => 75 | KeyLeftArrow => 76 | KeyDownArrow => 77 | KeyUpArrow => 78
  | KeyNumlock => 79 | KeypadSlash => 80 | KeypadAsterix => 81 | KeypadDash => 82
  | KeypadPlus => 83 | KeypadEnter => 84 | Keypad1 => 85 | Keypad2 => 86 | Keypad3 => 87
  | Keypad4 => 88 | Keypad5 => 89 | Keypad6 => 90 | Keypad7 => 91 | Keypad8 => 92
  | Keypad9 => 93 | Keypad0 => 94 | KeypadDot => 95 | KeypadNonUsBackSlash => 96
  | KeyApplication => 97 | KeyPower => 98 | KeypadEquals => 99 | KeyF13 => 100 | KeyF14 => 101
  | KeyF15 => 102 | KeyF16 => 103 | KeyF17 => 104 | KeyF18 => 105 | KeyF19 => 106
  | KeyF20 => 107 | KeyF21 => 108 | KeyF22 => 109 | KeyF23 => 110 | KeyF24 => 111
  | KeyExecute => 112 | KeyHelp => 113 | KeyMenu => 114 | KeySelect => 115 | KeyStop => 116
  | KeyAgain => 117 | KeyUndo => 118 | KeyCut => 119 | KeyCopy => 120 | KeyPaste => 121
  | KeyFind => 122 | KeyMute => 123 | KeyVolumeUp => 124 | KeyVolumeDown => 125
  | KeyLockingCapslock => 126 | KeyLockingNumlock => 127 | KeyLockingScrolllock => 128
  | KeypadComma => 129 | KeyLeftControl => 130 | KeyLeftShift => 131 | KeyLeftAlt => 132
  | KeyLeftGui => 133 | KeyRightControl => 134 | KeyRightShift => 135 | KeyRightAlt => 136
  | KeyRightGui => 137 | ButtonNone => 138 | Button1 => 139 | Button2 => 140 | Button3 => 141
  | Button4 => 142 | Button5 => 143 | X => 144 | Y => 145 | Z => 146 | Wheel => 147
  end.

Lemma all_lookup u : all !! index u = Some u.
Proof. by destruct u. Qed.

#[global] Instance index_inj : Inj (=) (=) index.
Proof.
  intros u1 u2 E. pose proof (all_lookup u1) as H. rewrite E, all_lookup in H. by injection H.
Qed.

#[global] Instance t_eq_dec : EqDecision t.
Proof.
  refine (fun u1 u2 => cast_if (decide (index u1 = index u2))); [by apply (inj index)|congruence].
Defined.
End Usage.

Definition translate_usage (usage_page usage_id : Z) : option Usage.t :=
  match usage_page with
  (* Generic Desktop Page *)
  | 0x01 => match usage_id with
    | 0x30 => Some Usage.X
    | 0x31 => Some Usage.Y
    | 0x32 => Some Usage.Z
    | 0x38 => Some Usage.Wheel
    | _ => None
    end
  (* Keyboard/Keypad page *)
  | 0x07 => match usage_id with
    | 0x04 => Some Usage.KeyA
    | 0x05 => Some Usage.KeyB
    | 0x06 => Some Usage.KeyC
    | 0x07 => Some Usage.KeyD
    | 0x08 => Some Usage.KeyE
    | 0x09 => Some Usage.KeyF
    | 0x0a => Some Usage.KeyG
    | 0x0b => Some Usage.KeyH
    | 0x0c => Some Usage.KeyI
    | 0x0d => Some Usage.KeyJ
    | 0x0e => Some Usage.KeyK
    | 0x0f => Some Usage.KeyL
    | 0x10 => Some Usage.KeyM
    | 0x11 => Some Usage.KeyN
    | 0x12 => Some Usage.KeyO
    | 0x13 => Some Usage.KeyP
    | 0x14 => Some Usage.KeyQ
    | 0x15 => Some Usage.KeyR
    | 0x16 => Some Usage.KeyS
    | 0x17 => Some Usage.KeyT
    | 0x18 => Some Usage.KeyU
    | 0x19 => Some Usage.KeyV
    | 0x1a => Some Usage.KeyW
    | 0x1b => Some Usage.KeyX
    | 0x1c => Some Usage.KeyY
    | 0x1d => Some Usage.KeyZ
    | 0x1e => Some Usage.Key1
    | 0x1f => Some Usage.Key2
    | 0x20 => Some Usage.Key3
    | 0x21 => Some Usage.Key4
    | 0x22 => Some Usage.Key5
    | 0x23 => Some Usage.Key6
    | 0x24 => Some Usage.Key7
    | 0x25 => Some Usage.Key8
    | 0x26 => Some Usage.Key9
    | 0x27 => Some Usage.Key0
    | 0x28 => Some Usage.KeyReturn
    | 0x29 => Some Usage.KeyEscape
    | 0x2a => Some Usage.KeyDelete
    | 0x2b => Some Usage.KeyTab
    | 0x2c => Some Usage.KeySpace
    | 0x2d => Some Usage.KeyDash
    | 0x2e => Some Usage.KeyEquals
    | 0x2f => Some Usage.KeyLeftBracket
    | 0x30 => Some Usage.KeyRightBracket
    | 0x31 => Some Usage.KeyForwardSlash
    | 0x32 => Some Usage.KeyPound
    | 0x33 => Some Usage.KeySemicolon
    | 0x34 => Some Usage.KeyApostrophe
    | 0x35 => Some Usage.KeyGrave
    | 0x36 => Some Usage.KeyComma
    | 0x37 => Some Usage.KeyDot
    | 0x38 => Some Usage.KeyBackSlash
    | 0x39 => Some Usage.KeyCapslock
    | 0x3a => Some Usage.KeyF1
    | 0x3b => Some Usage.KeyF2
    | 0x3c => Some Usage.KeyF3
    | 0x3d => Some Usage.KeyF4
    | 0x3e => Some Usage.KeyF5
    | 0x3f => Some Usage.KeyF6
    | 0x40 => Some Usage.KeyF7
    | 0x41 => Some Usage.KeyF8
    | 0x42 => Some Usage.KeyF9
    | 0x43 => Some Usage.KeyF10
    | 0x44 => Some Usage.KeyF11
    | 0x45 => Some Usage.KeyF12
    | 0x46 => Some Usage.KeyPrintScreen
    | 0x47 => Some Usage.KeyScrolllock
    | 0x48 => Some Usage.KeyPause
    | 0x49 => Some Usage.KeyInsert
    | 0x4a => Some Usage.KeyHome
    | 0x4b => Some Usage.KeyPageUp
    | 0x4c => Some Usage.KeyDeleteForward
    | 0x4d => Some Usage.KeyEnd
    | 0x4e => Some Usage.KeyPageDown
    | 0x4f => Some Usage.KeyRightArrow
    | 0x50 => Some Usage.KeyLeftArrow
    | 0x51 => Some Usage.KeyDownArrow
    | 0x52 => Some Usage.KeyUpArrow
    | 0x53 => Some Usage.KeyNumlock
    | 0x54 => Some Usage.KeypadSlash
    | 0x55 => Some Usage.KeypadAsterix
    | 0x56 => Some Usage.KeypadDash
    | 0x57 => Some Usage.KeypadPlus
    | 0x58 => Some Usage.KeypadEnter
    | 0x59 => Some Usage.Keypad1
    | 0x5a => Some Usage.Keypad2
    | 0x5b => Some Usage.Keypad3
    | 0x5c => Some Usage.Keypad4
    | 0x5d => Some Usage.Keypad5
    | 0x5e => Some Usage.Keypad6
    | 0x5f => Some Usage.Keypad7
    | 0x60 => Some Usage.Keypad8
    | 0x61 => Some Usage.Keypad9
    | 0x62 => Some Usage.Keypad0
    | 0x63 => Some Usage.KeypadDot
    | 0x64 => Some Usage.KeypadNonUsBackSlash
    | 0x65 => Some Usage.KeyApplication
    | 0x66 => Some Usage.KeyPower
    | 0x67 => Some Usage.KeypadEquals
    | 0x68 => Some Usage.KeyF13
    | 0x69 => Some Usage.KeyF14
    | 0x6a => Some Usage.KeyF15
    | 0x6b => Some Usage.KeyF16
    | 0x6c => Some Usage.KeyF17
    | 0x6d => Some Usage.KeyF18
    | 0x6e => Some Usage.KeyF19
    | 0x6f => Some Usage.KeyF20
    | 0x70 => Some Usage.KeyF21
    | 0x71 => Some Usage.KeyF22
    | 0x72 => Some Usage.KeyF23
    | 0x73 => Some Usage.KeyF24
    | 0x74 => Some Usage.KeyExecute
    | 0x75 => Some Usage.KeyHelp
    | 0x76 => Some Usage.KeyMenu
    | 0x77 => Some Usage.KeySelect
    | 0x78 => Some Usage.KeyStop
    | 0x79 => Some Usage.KeyAgain
    | 0x7a => Some Usage.KeyUndo
    | 0x7b => Some Usage.KeyCut
    | 0x7c => Some Usage.KeyCopy
    | 0x7d => Some Usage.KeyPaste
    | 0x7e => Some Usage.KeyFind
    | 0x7f => Some Usage.KeyMute
    | 0x80 => Some Usage.KeyVolumeUp
    | 0x81 => Some Usage.KeyVolumeDown
    | 0x82 => Some Usage.KeyLockingCapslock
    | 0x83 => Some Usage.KeyLockingNumlock
    | 0x84 => Some Usage.KeyLockingScrolllock
    | 0x85 => Some Usage.KeypadComma
    | 0xe0 => Some Usage.KeyLeftControl
    | 0xe1 => Some Usage.KeyLeftShift
    | 0xe2 => Some Usage.KeyLeftAlt
    | 0xe3 => Some Usage.KeyLeftGui
    | 0xe4 => Some Usage.KeyRightControl
    | 0xe5 => Some Usage.KeyRightShift
    | 0xe6 => Some Usage.KeyRightAlt
    | 0xe7 => Some Usage.KeyRightGui
    | _ => None
    end
  (* Button page *)
  | 0x09 => match usage_id with
    | 0x00 => Some Usage.ButtonNone
    | 0x01 => Some Usage.Button1
    | 0x02 => Some Usage.Button2
    | 0x03 => Some Usage.Button3
    | 0x04 => Some Usage.Button4
    | 0x05 => Some Usage.Button5
    | _ => None
    end
  | _ => None
  end.

(** ** The descriptor of a report and the values of its fields *)

Inductive ReportField :=
  | Padding (num_bits : Z)
  | Array (size count logical_min logical_max usage_page usage_min usage_max : Z)
  | Variable_ (size data_min data_max usage_page usage_id : Z).

Record ReportDescriptor := mkReportDescriptor { fields : list ReportField }.

Inductive FieldValue :=
  | Selector (usage : Usage.t)
  | DynamicValue (usage : Usage.t) (value : Z)
  | UntranslatedSelector (usage_page usage : Z)
  | UntranslatedDynamicValue (usage_page usage : Z).

(** [x.div_ceil(y)] of unsigned integers. *)
Definition div_ceil (x y : Z) : Z := (x + y - 1) / y.

(** [let mut bytes = [0; n]; bytes[..data.len()].copy_from_slice(data)]. *)
Definition padded (n : nat) (data : list Z) : outcome (list Z) :=
  rassert (length data <=? n)%nat ;;
  mret (data ++ replicate (n - length data) 0).

Definition i32_MAX : Z := 2 ^ 31 - 1.

Section report.
Context `{BitField} `{BitArray}.

(** [if bytes.get_bit(len * 8 - 1) { for i in (len * 8)..(bytes.len() * 8) { bytes.set_bit(i, true) } }]. *)
Definition sign_extend (len : Z) (bytes : list Z) : outcome (list Z) :=
  sign_bit ← usub (len * 8) 1;
  negative ← array_get_bit bytes sign_bit;
  if negative : bool then
    ofold (fun bytes i => array_set_bit bytes i true) bytes
      (seqZ (len * 8) (Z.of_nat (length bytes) * 8 - len * 8))
  else mret bytes.

(** ** Interpreting a report *)

Definition extract_bit (report : list Z) (first : Z) (result : list Z) (dst_bit : Z) :
    outcome (list Z) :=
  let src_bit := first + dst_bit in
  src_byte ← unwrap (report !! Z.to_nat (src_bit / 8));
  let src_bit_value := Z.land (src_byte ≫ (src_bit mod 8)) 0x01 in
  let dst_byte_mask := src_bit_value ≪ (dst_bit mod 8) in
  dst_byte ← unwrap (result !! Z.to_nat (dst_bit / 8));
  mret (<[Z.to_nat (dst_bit / 8) := Z.lor dst_byte dst_byte_mask]> result).

Definition extract_field (report : list Z) (first last : Z) : outcome (list Z) :=
  rassert (div_ceil last 8 <=? Z.of_nat (length report)) ;;
  ofold (extract_bit report first)
    (replicate (Z.to_nat (div_ceil (Z.max 0 (last - first)) 8)) 0) (seqZ 0 (last - first)).

Definition extract_field_as_u32 (report : list Z) (first last : Z) : outcome Z :=
  bits ← extract_field report first last;
  bytes ← padded 4 bits;
  mret (from_le_bytes bytes).

Definition extract_field_as_i32 (report : list Z) (first last : Z) : outcome Z :=
  bits ← extract_field report first last;
  bytes ← padded 4 bits;
  bytes ← sign_extend (Z.of_nat (length bits)) bytes;
  mret (to_signed 4 (from_le_bytes bytes)).

(** The local variables [bit_offset] and [result] of [interpret]. *)
Definition Cursor : Type := Z * list FieldValue.

Definition interpret_array_element (report : list Z) (size usage_page usage_min : Z)
    (c : Cursor) (_ : Z) : outcome Cursor :=
  let '(bit_offset, result) := c in
  last ← wadd 32 bit_offset size;
  value ← extract_field_as_u32 report bit_offset last;
  bit_offset ← wadd 32 bit_offset size;
  usage_id ← wadd 32 usage_min value;
  match translate_usage usage_page usage_id with
  | Some usage => mret (bit_offset, result ++ [Selector usage])
  | None => mret (bit_offset, result ++ [UntranslatedSelector usage_page usage_id])
  end.

Definition interpret_field (report : list Z) (c : Cursor) (field : ReportField) : outcome Cursor :=
  let '(bit_offset, result) := c in
  match field with
  | Padding num_bits =>
      bit_offset ← wadd 32 bit_offset num_bits;
      mret (bit_offset, result)
  | Array size count _ _ usage_page usage_min _ =>
      ofold (interpret_array_element report size usage_page usage_min) c (seqZ 0 count)
  | Variable_ size data_min _ usage_page usage_id =>
      match translate_usage usage_page usage_id with
      | Some usage =>
          if data_min <? 0 then
            last ← wadd 32 bit_offset size;
            value ← extract_field_as_i32 report bit_offset last;
            bit_offset ← wadd 32 bit_offset size;
            mret (bit_offset, result ++ [DynamicValue usage value])
          else
            last ← wadd 32 bit_offset size;
            value ← extract_field_as_u32 report bit_offset last;
            bit_offset ← wadd 32 bit_offset size;
            rassert (negb (value =? i32_MAX)) ;;
            mret (bit_offset, result ++ [DynamicValue usage (to_signed 4 value)])
      | None => mret (bit_offset, result ++ [UntranslatedDynamicValue usage_page usage_id])
      end
  end.

Definition interpret (self : ReportDescriptor) (report : list Z) : outcome (list FieldValue) :=
  '(_, result) ← ofold (interpret_field report) (0, []) (fields self);
  mret result.

(** ** Items *)

Inductive ItemType := Main | Global | Local_ | Reserved.

#[global] Instance ItemType_eq_dec : EqDecision ItemType.
Proof. solve_decision. Defined.

Record Item := mkItem { typ : ItemType; tag : Z; data : list Z }.

Definition data_as_u16 (self : Item) : outcome Z :=
  bytes ← padded 2 (data self);
  mret (from_le_bytes bytes).

Definition data_as_u32 (self : Item) : outcome Z :=
  bytes ← padded 4 (data self);
  mret (from_le_bytes bytes).

Definition data_as_i32 (self : Item) : outcome Z :=
  bytes ← padded 4 (data self);
  bytes ← sign_extend (Z.of_nat (length (data self))) bytes;
  mret (to_signed 4 (from_le_bytes bytes)).

Record ItemTokenizer := mkItemTokenizer { bytes : list Z; current : Z }.

Definition ItemTokenizer_new (bytes : list Z) : ItemTokenizer := mkItemTokenizer bytes 0.

Definition take_byte (self : ItemTokenizer) : outcome (option Z * ItemTokenizer) :=
  match bytes self !! Z.to_nat (current self) with
  | None => mret (None, self)
  | Some byte =>
      current' ← uadd (current self) 1;
      mret (Some byte, mkItemTokenizer (bytes self) current')
  end.

(** [bytes.get(a..b)]. *)
Definition get_range (bytes : list Z) (a b : Z) : option (list Z) :=
  if (a <=? b) && (b <=? Z.of_nat (length bytes)) then
    Some (take (Z.to_nat (b - a)) (drop (Z.to_nat a) bytes))
  else None.

(** The end of [next], once the size and the tag are known. *)
Definition take_item (self : ItemTokenizer) (size : Z) (ty : ItemType) (tg : Z) :
    outcome (option Item * ItemTokenizer) :=
  stop ← uadd (current self) size;
  match get_range (bytes self) (current self) stop with
  | None => mret (None, self)
  | Some dat =>
      current' ← uadd (current self) size;
      mret (Some (mkItem ty tg dat), mkItemTokenizer (bytes self) current')
  end.

Definition next (self : ItemTokenizer) : outcome (option Item * ItemTokenizer) :=
  '(byte, self) ← take_byte self;
  match byte with
  | None => mret (None, self)
  | Some next =>
      size_bits ← get_bits 8 next 0 2;
      let size := if size_bits =? 0x3 then 4 else size_bits in
      typ_bits ← get_bits 8 next 2 4;
      ty ← match typ_bits with
           | 0 => Val Main
           | 1 => Val Global
           | 2 => Val Local_
           | 3 => Val Reserved
           | _ => Panic
           end;
      tg ← get_bits 8 next 4 8;
      if (size =? 2) && (tg =? 0xf) && bool_decide (ty = Reserved) then
        '(size, self) ← take_byte self;
        match size with
        | None => mret (None, self)
        | Some size =>
            '(tg, self) ← take_byte self;
            match tg with
            | None => mret (None, self)
            | Some tg => take_item self size ty tg
            end
        end
      else take_item self size ty tg
  end.

(** ** Parsing a descriptor *)

Record GlobalState := mkGlobalState {
  usage_page : option Z;
  logical_min : option Z;
  logical_max : option Z;
  report_size : option Z;
  report_count : option Z;
  physical_min : option Z;
  physical_max : option Z;
}.

Definition GlobalState_new : GlobalState := mkGlobalState None None None None None None None.

Record LocalState := mkLocalState {
  usage : list Z;
  usage_min : option Z;
  usage_max : option Z;
}.

Definition LocalState_new : LocalState := mkLocalState [] None None.

Record ReportDescriptorParser := mkParser {
  descriptor : ReportDescriptor;
  local : LocalState;
  global : GlobalState;
}.

Definition push_field (self : ReportDescriptorParser) (f : ReportField) : ReportDescriptorParser :=
  mkParser (mkReportDescriptor (fields (descriptor self) ++ [f])) (local self) (global self).
Definition set_local (self : ReportDescriptorParser) (l : LocalState) : ReportDescriptorParser :=
  mkParser (descriptor self) l (global self).
Definition set_global (self : ReportDescriptorParser) (g : GlobalState) : ReportDescriptorParser :=
  mkParser (descriptor self) (local self) g.

Definition is_none {A} (o : option A) : bool := match o with None => true | Some _ => false end.
Definition is_empty {A} (l : list A) : bool := match l with [] => true | _ => false end.

Definition generate_variable (self : ReportDescriptorParser) (i : Z) :
    outcome ReportDescriptorParser :=
  let l := local self in
  let g := global self in
  usage_id ← (if is_empty (usage l) then
                min ← unwrap (usage_min l); wadd 32 min i
              else unwrap (usage l !! Z.to_nat i));
  size ← unwrap (report_size g);
  data_min ← unwrap (logical_min g);
  data_max ← unwrap (logical_max g);
  page ← unwrap (usage_page g);
  mret (push_field self (Variable_ size data_min data_max page usage_id)).

Definition generate_fields (self : ReportDescriptorParser) (is_array : bool) :
    outcome ReportDescriptorParser :=
  let l := local self in
  let g := global self in
  rassert (negb (is_none (report_size g) || is_none (report_count g))) ;;
  if is_empty (usage l) && is_none (usage_min l) && is_none (usage_max l) then
    size ← unwrap (report_size g);
    count ← unwrap (report_count g);
    padding ← wmul 32 size count;
    mret (push_field self (Padding padding))
  else if is_array then
    lmin ← unwrap (logical_min g);
    lmax ← unwrap (logical_max g);
    rassert (negb (lmin <? 0)) ;;
    size ← unwrap (report_size g);
    count ← unwrap (report_count g);
    page ← unwrap (usage_page g);
    umin ← unwrap (usage_min l);
    umax ← unwrap (usage_max l);
    mret (push_field self (Array size count lmin lmax page umin umax))
  else
    count ← unwrap (report_count g);
    ofold generate_variable self (seqZ 0 count).

Definition parse_main_item (self : ReportDescriptorParser) (item : Item) :
    outcome ReportDescriptorParser :=
  match tag item with
  | 0x8 =>
      flags ← data_as_u32 item;
      bit ← get_bit 32 flags 1;
      self ← generate_fields self (negb bit);
      mret (set_local self LocalState_new)
  | 0x9 | 0xb | 0xa => mret (set_local self LocalState_new)
  | 0xc => mret self
  | _ => Panic
  end.

Definition parse_global_item (self : ReportDescriptorParser) (item : Item) :
    outcome ReportDescriptorParser :=
  let '(mkGlobalState up lmin lmax size count pmin pmax) := global self in
  match tag item with
  | 0x0 => v ← data_as_u16 item; mret (set_global self (mkGlobalState (Some v) lmin lmax size count pmin pmax))
  | 0x1 => v ← data_as_i32 item; mret (set_global self (mkGlobalState up (Some v) lmax size count pmin pmax))
  | 0x2 => v ← data_as_i32 item; mret (set_global self (mkGlobalState up lmin (Some v) size count pmin pmax))
  | 0x3 => v ← data_as_u32 item; mret (set_global self (mkGlobalState up lmin lmax size count (Some v) pmax))
  | 0x4 => v ← data_as_u32 item; mret (set_global self (mkGlobalState up lmin lmax size count pmin (Some v)))
  | 0x7 => v ← data_as_u32 item; mret (set_global self (mkGlobalState up lmin lmax (Some v) count pmin pmax))
  | 0x9 => v ← data_as_u32 item; mret (set_global self (mkGlobalState up lmin lmax size (Some v) pmin pmax))
  (* Unit exponent, unit, report ID, push and pop are [todo!]; the rest is reserved. *)
  | _ => Panic
  end.

Definition parse_local_item (self : ReportDescriptorParser) (item : Item) :
    outcome ReportDescriptorParser :=
  let '(mkLocalState us umin umax) := local self in
  match tag item with
  | 0x0 =>
      v ← data_as_u32 item;
      mret (set_local self (mkLocalState (us ++ [v]) umin umax))
  | 0x1 =>
      rassert (length (data item) <? 4)%nat ;;
      min ← data_as_u32 item;
      mret (set_local self (mkLocalState us (Some min) umax))
  | 0x2 =>
      rassert (length (data item) <? 4)%nat ;;
      max ← data_as_u32 item;
      mret (set_local self (mkLocalState us umin (Some max)))
  (* Designators, strings and delimiters are [todo!]; the rest is reserved. *)
  | _ => Panic
  end.

(** The body of [parse]'s loop. *)
Definition parse_item (self : ReportDescriptorParser) (item : Item) :
    outcome ReportDescriptorParser :=
  match typ item with
  | Main => parse_main_item self item
  | Global => parse_global_item self item
  | Local_ => parse_local_item self item
  | Reserved => Panic
  end.

(** [for item in tokenizer]; [fuel] bounds the calls of [next]. *)
Fixpoint parse_loop (fuel : nat) (tokenizer : ItemTokenizer) (parser : ReportDescriptorParser) :
    outcome ReportDescriptorParser :=
  match fuel with
  | O => Panic
  | S fuel =>
      '(item, tokenizer) ← next tokenizer;
      match item with
      | None => mret parser
      | Some item => parser ← parse_item parser item; parse_loop fuel tokenizer parser
      end
  end.

Definition parser_new : ReportDescriptorParser :=
  mkParser (mkReportDescriptor []) LocalState_new GlobalState_new.

Definition parse (bytes : list Z) : outcome ReportDescriptor :=
  parser ← parse_loop (S (length bytes)) (ItemTokenizer_new bytes) parser_new;
  mret (descriptor parser).

End report.
