(* ===== verification/HidCorrect.v ===== *)
(** * Correctness of the HID report code

    The interpreter of [HidReport] reads the fields of a report at the offsets
    its descriptor gives them; the tokenizer cuts a descriptor into its items
    and always terminates. *)

From stdpp Require Import base tactics option list numbers.
From S2P Require Import Prelude Bytes Crates HidReport.

(** ** Bits of a report *)

(** The [n] bits from bit [off] on, of the report read as one little-endian
    integer. *)
Definition field_bits (report : list Z) (off n : Z) : Z :=
  (from_le_bytes report / 2 ^ off) mod 2 ^ n.

Lemma field_bits_range report off n : 0 <= n -> is_unsigned n (field_bits report off n).
Proof. intros. apply Z.mod_pos_bound. by apply pow2_pos. Qed.

Lemma testbit_field_bits report off n k :
  0 <= off -> 0 <= n -> 0 <= k ->
  Z.testbit (field_bits report off n) k = (k <? n) && Z.testbit (from_le_bytes report) (k + off).
Proof. intros. unfold field_bits. by rewrite testbit_mod_pow2, testbit_div_pow2 by done. Qed.

Lemma seqZ_split m n l1 a l2 :
  seqZ m n = l1 ++ a :: l2 -> a = m + Z.of_nat (length l1) /\ Z.of_nat (length l1) < n.
Proof.
  intros E. assert (seqZ m n !! length l1 = Some a) as Hl by (by rewrite E, list_lookup_middle).
  apply lookup_seqZ in Hl as [-> ?]. done.
Qed.

Lemma land_shift_bit b s : 0 <= s -> Z.land (b ≫ s) 1 = Z.b2z (Z.testbit b s).
Proof. intros. by rewrite land_1, Z.shiftr_div_pow2, Z.testbit_spec' by done. Qed.

Lemma testbit_shifted_bit (v : bool) m k :
  0 <= m -> 0 <= k -> Z.testbit (Z.b2z v ≪ m) k = (m =? k) && v.
Proof.
  intros Hm Hk. destruct v; simpl.
  - rewrite Z.shiftl_mul_pow2, Z.mul_1_l, Z.pow2_bits_eqb by done. by rewrite andb_true_r.
  - by rewrite Z.shiftl_0_l, Z.bits_0, andb_false_r.
Qed.

Lemma div_ceil_8 n : 0 <= n -> n <= 8 * div_ceil n 8 < n + 8.
Proof. intros. unfold div_ceil. pose proof (Z.div_mod (n + 8 - 1) 8). pose proof (Z.mod_pos_bound (n + 8 - 1) 8). lia. Qed.

Section bits.
Context (report : list Z) (Hreport : bytes_ok report).

(** One iteration of [extract_field]'s loop copies one bit. *)
Lemma extract_bit_spec first i result :
  0 <= first -> 0 <= i -> first + i < 8 * Z.of_nat (length report) ->
  bytes_ok result -> i < 8 * Z.of_nat (length result) ->
  from_le_bytes result = field_bits report first i ->
  extract_bit report first result i ⇓ fun result' =>
    bytes_ok result' /\ length result' = length result /\
    from_le_bytes result' = field_bits report first (i + 1).
Proof.
  intros Hf Hi Hlen Hres Hreslen Hval. unfold extract_bit.
  destruct (byte_of_bit report (first + i)) as (b & Hsrc & Hb & _); [done|lia|].
  destruct (byte_of_bit result i) as (old & Hdst & Hold & Hlt & E8); [done|lia|].
  rewrite Hsrc, Hdst. obind.
  pose proof (Z.mod_pos_bound (first + i) 8 ltac:(lia)). pose proof (Z.mod_pos_bound i 8 ltac:(lia)).
  rewrite land_shift_bit by lia. set (v := Z.testbit b _).
  assert (v = Z.testbit (from_le_bytes report) (i + first)) as Hv.
  { rewrite (Z.add_comm i first), testbit_from_le_bytes, Hsrc by (done || lia). done. }
  assert (is_byte (Z.lor old (Z.b2z v ≪ (i mod 8)))) as Hnew.
  { apply unsigned_of_bits; [lia| |].
    - apply Z.lor_nonneg. split; [apply Hold|]. apply Z.shiftl_nonneg. by destruct v.
    - intros k Hk. rewrite Z.lor_spec, testbit_shifted_bit, (testbit_out 8 old) by (done || lia).
      by replace (i mod 8 =? k) with false by lia. }
  split_and!; [by apply Forall_insert|by rewrite length_insert|].
  apply Z.bits_inj'. intros k Hk. pose proof (Z.mod_pos_bound k 8 ltac:(lia)).
  rewrite testbit_insert_byte, E8, testbit_field_bits by (done || lia).
  assert (Z.testbit (from_le_bytes result) k = (k <? i) && Z.testbit (from_le_bytes report) (k + first)) as IH
    by (by rewrite Hval, testbit_field_bits by lia).
  destruct (decide (k = i)) as [->|Hne].
  - rewrite Z.eqb_refl, Z.lor_spec, testbit_shifted_bit, Z.eqb_refl by lia.
    rewrite testbit_from_le_bytes, Hdst, Z.ltb_irrefl in IH by (done || lia). simpl in IH.
    replace (i <? i + 1) with true by lia. by rewrite IH, Hv.
  - replace (k <? i + 1) with (k <? i) by lia.
    destruct (Z.eqb_spec (k / 8) (i / 8)) as [E|]; [|done].
    rewrite Z.lor_spec, testbit_shifted_bit by lia.
    replace (i mod 8 =? k mod 8) with false.
    + rewrite testbit_from_le_bytes, E, Hdst in IH by (done || lia). by rewrite orb_false_r.
    + symmetry. apply Z.eqb_neq. intros ?. apply Hne. by apply div_mod_8.
Qed.

Lemma extract_field_spec first n :
  0 <= first -> 0 <= n -> first + n <= 8 * Z.of_nat (length report) ->
  extract_field report first (first + n) ⇓ fun result =>
    bytes_ok result /\ length result = Z.to_nat (div_ceil n 8) /\
    from_le_bytes result = field_bits report first n.
Proof.
  intros Hf Hn Hlen. unfold extract_field.
  replace (first + n - first) with n by lia. rewrite Z.max_r by lia.
  pose proof (div_ceil_8 (first + n)). pose proof (div_ceil_8 n).
  replace (_ <=? _) with true by lia. obind.
  eapply returns_weaken.
  - apply (ofold_invariant _ (fun seen result => bytes_ok result /\
      length result = Z.to_nat (div_ceil n 8) /\
      from_le_bytes result = field_bits report first (Z.of_nat (length seen)))).
    + split_and!; [by apply Forall_replicate|by rewrite length_replicate|].
      rewrite from_le_bytes_replicate_0. unfold field_bits. by rewrite Z.mod_1_r.
    + intros seen i rest result E (Hok & Hl & Hv). apply seqZ_split in E as [-> Hi].
      rewrite Z.add_0_l. eapply returns_weaken; [apply extract_bit_spec; (done || lia)|].
      intros r (? & ? & ?). rewrite length_app, Nat2Z.inj_add. simpl. split_and!; [done|lia|done].
  - intros r (? & ? & Hv). rewrite length_seqZ, Z2Nat.id in Hv by done. done.
Qed.

Lemma padded_spec n data :
  bytes_ok data -> (length data <= n)%nat ->
  padded n data ⇓ fun bs => bytes_ok bs /\ length bs = n /\ from_le_bytes bs = from_le_bytes data.
Proof.
  intros Hok Hl. unfold padded. replace (length data <=? n)%nat with true by (symmetry; by apply Nat.leb_le).
  obind. split_and!.
  - apply Forall_app. split; [done|]. by apply Forall_replicate.
  - rewrite length_app, length_replicate. lia.
  - rewrite from_le_bytes_app, from_le_bytes_replicate_0. lia.
Qed.

Lemma extract_field_as_u32_spec first n :
  0 <= first -> 0 <= n <= 32 -> first + n <= 8 * Z.of_nat (length report) ->
  extract_field_as_u32 report first (first + n) = Val (field_bits report first n).
Proof.
  intros Hf Hn Hlen. apply returns_eq. pose proof (div_ceil_8 n).
  unfold extract_field_as_u32.
  eapply returns_bind; [by apply extract_field_spec; lia|]. intros bits (Hok & Hl & Hv).
  eapply returns_bind; [apply padded_spec; (done || lia)|]. intros bs (_ & _ & Hbs).
  simpl. congruence.
Qed.

(** ** Sign extension *)

Context `{BitArraySpec}.

Lemma setbit_add x k : is_unsigned k x -> 0 <= k -> Z.setbit x k = x + 2 ^ k.
Proof.
  intros Hx Hk. rewrite Z.setbit_spec', Z.lor_comm, <- (Z.mul_1_l (2 ^ k)).
  rewrite lor_shifted by done. lia.
Qed.

Lemma testbit_top x k : is_unsigned (k + 1) x -> 0 <= k -> Z.testbit x k = (2 ^ k <=? x).
Proof.
  intros [Hx0 Hx] Hk. rewrite Z.pow_add_r, Z.pow_1_r in Hx by lia.
  rewrite Z.testbit_eqb by done. pose proof (pow2_pos k Hk).
  destruct (Z.leb_spec (2 ^ k) x).
  - replace (x / 2 ^ k) with 1; [done|]. apply (Z.div_unique_pos _ _ _ (x - 2 ^ k)); lia.
  - by rewrite Z.div_small by lia.
Qed.

(** [sign_extend] of an [len]-byte value kept in [n] bytes. *)
Lemma sign_extend_spec len n bs :
  0 < len <= Z.of_nat n -> 8 * Z.of_nat n < 2 ^ 64 ->
  bytes_ok bs -> length bs = n -> is_unsigned (8 * len) (from_le_bytes bs) ->
  sign_extend len bs ⇓ fun bs' => bytes_ok bs' /\ length bs' = n /\
    from_le_bytes bs' =
      if from_le_bytes bs <? 2 ^ (8 * len - 1) then from_le_bytes bs
      else from_le_bytes bs + 2 ^ (8 * Z.of_nat n) - 2 ^ (8 * len).
Proof.
  intros Hlen Hn Hok Hl Hv. unfold sign_extend.
  rewrite wsub_in by (unfold is_unsigned; lia). obind.
  rewrite array_get_bit_in by (done || lia). obind.
  rewrite (Z.mul_comm len 8), testbit_top by (done || lia || by replace (8 * len - 1 + 1) with (8 * len) by lia).
  rewrite Z.leb_antisym. destruct (Z.ltb_spec (from_le_bytes bs) (2 ^ (8 * len - 1))) as [Hs|Hs];
    cbn [negb]; [done|].
  eapply returns_weaken.
  - apply (ofold_invariant _ (fun seen bs' => bytes_ok bs' /\ length bs' = n /\
      from_le_bytes bs' = from_le_bytes bs + 2 ^ (8 * len + Z.of_nat (length seen)) - 2 ^ (8 * len))).
    + split_and!; [done|done|]. simpl. rewrite Z.add_0_r. lia.
    + intros seen i rest bs' E (Hok' & Hl' & Hv'). apply seqZ_split in E as [-> Hi].
      destruct (array_set_bit_in bs' (8 * len + Z.of_nat (length seen)) true) as (bs'' & -> & Hl'' & Hok'' & Hv'');
        [done|lia|].
      simpl. rewrite length_app, Nat2Z.inj_add. simpl. split_and!; [done|congruence|].
      rewrite Hv'', Hv', setbit_add.
      * rewrite Z.add_assoc, (Z.pow_add_r 2 (8 * len + Z.of_nat (length seen))) by lia. lia.
      * unfold is_unsigned in *. pose proof (Z.pow_le_mono_r 2 (8 * len) (8 * len + Z.of_nat (length seen))). lia.
      * lia.
  - intros bs' (? & ? & ->). split_and!; [done|done|]. rewrite length_seqZ, Hl. do 3 f_equal. lia.
Qed.

Lemma to_signed_extended len x :
  0 < len <= 4 -> is_unsigned (8 * len) x ->
  to_signed 4 (if x <? 2 ^ (8 * len - 1) then x else x + 2 ^ (8 * Z.of_nat 4) - 2 ^ (8 * len)) =
  to_signed (Z.to_nat len) x.
Proof.
  intros Hlen [Hx0 Hx]. unfold to_signed. rewrite Z2Nat.id by lia.
  change (8 * Z.of_nat 4) with 32. change (32 - 1) with 31.
  assert (2 ^ (8 * len) = 2 * 2 ^ (8 * len - 1)) as E
    by (rewrite <- Z.pow_succ_r by lia; f_equal; lia).
  pose proof (Z.pow_le_mono_r 2 (8 * len - 1) 31).
  assert (2 ^ 32 = 2 * 2 ^ 31) by done.
  destruct (Z.ltb_spec x (2 ^ (8 * len - 1))).
  - destruct (Z.ltb_spec x (2 ^ 31)); lia.
  - destruct (Z.ltb_spec (x + 2 ^ 32 - 2 ^ (8 * len)) (2 ^ 31)); lia.
Qed.

(** [extract_field_as_i32] extends the sign from the byte the field ends in. *)
Lemma extract_field_as_i32_spec first n :
  0 <= first -> 0 < n <= 32 -> first + n <= 8 * Z.of_nat (length report) ->
  extract_field_as_i32 report first (first + n) =
    Val (to_signed (Z.to_nat (div_ceil n 8)) (field_bits report first n)).
Proof.
  intros Hf Hn Hlen. apply returns_eq. pose proof (div_ceil_8 n). unfold extract_field_as_i32.
  eapply returns_bind; [by apply extract_field_spec; lia|]. intros bits (Hok & Hl & Hv).
  eapply returns_bind; [apply padded_spec; (done || lia)|]. intros bs (Hok' & Hl' & Hv').
  assert (is_unsigned (8 * Z.of_nat (length bits)) (from_le_bytes bs)) as Hrange
    by (rewrite Hv'; by apply from_le_bytes_range).
  eapply returns_bind; [apply (sign_extend_spec _ 4); (done || lia)|].
  intros bs' (_ & _ & ->). simpl.
  rewrite to_signed_extended by (done || lia). rewrite Nat2Z.id, Hl. congruence.
Qed.

End bits.

(** ** The reference decoder *)

(** The value of an [n]-bit two's complement pattern. *)
Definition signed_value (n x : Z) : Z := if x <? 2 ^ (n - 1) then x else x - 2 ^ n.

Definition selector (page id : Z) : FieldValue :=
  match translate_usage page id with
  | Some u => Selector u
  | None => UntranslatedSelector page id
  end.

(** The number of bits of the report a field describes. *)
Definition field_width (f : ReportField) : Z :=
  match f with
  | Padding n => n
  | Array size count _ _ _ _ _ => size * count
  | Variable_ size _ _ _ _ => size
  end.

Definition report_width (fs : list ReportField) : Z := foldr (fun f w => field_width f + w) 0 fs.

(** The values of one field at bit [off]. *)
Definition field_values (report : list Z) (off : Z) (f : ReportField) : list FieldValue :=
  match f with
  | Padding _ => []
  | Array size count _ _ page min _ =>
      (fun i => selector page (min + field_bits report (off + i * size) size)) <$> seqZ 0 count
  | Variable_ size min _ page id =>
      let x := field_bits report off size in
      match translate_usage page id with
      | Some u => [DynamicValue u (if min <? 0 then signed_value size x else x)]
      | None => [UntranslatedDynamicValue page id]
      end
  end.

(** Fields are laid out one after another. *)
Fixpoint decode (report : list Z) (off : Z) (fs : list ReportField) : list FieldValue :=
  match fs with
  | [] => []
  | f :: fs => field_values report off f ++ decode report (off + field_width f) fs
  end.

(** Fields of sizes [interpret] can extract: at most 32 bits, usage ids that fit
    in 32 bits. *)
Definition sized (f : ReportField) : bool :=
  match f with
  | Padding n => 0 <=? n
  | Array size count _ _ _ min _ =>
      (0 <=? size) && (size <=? 32) && (0 <=? count) && (0 <=? min) && (min + 2 ^ size <=? 2 ^ 32)
  | Variable_ size _ _ _ _ => (0 <? size) && (size <=? 32)
  end.

(** The fields that are read as they are laid out: variables with a known usage,
    of whole bytes if signed and of at most 30 bits if not. *)
Definition interpretable (f : ReportField) : bool :=
  sized f &&
  match f with
  | Variable_ size min _ page id =>
      negb (is_none (translate_usage page id)) && (if min <? 0 then size mod 8 =? 0 else size <=? 30)
  | _ => true
  end.

(** ** What [interpret] makes of the other fields

    The bits of a variable with an unknown usage are not skipped; a signed variable
    takes its sign from the top bit of its last byte; an unsigned one becomes an
    [i32], and is not allowed to be [i32::MAX]. *)

Definition read_width (f : ReportField) : Z :=
  match f with
  | Variable_ size _ _ page id => match translate_usage page id with Some _ => size | None => 0 end
  | f => field_width f
  end.

Definition read_values (report : list Z) (off : Z) (f : ReportField) : list FieldValue :=
  match f with
  | Variable_ size min _ page id =>
      let x := field_bits report off size in
      match translate_usage page id with
      | Some u => [DynamicValue u (if min <? 0 then to_signed (Z.to_nat (div_ceil size 8)) x else to_signed 4 x)]
      | None => [UntranslatedDynamicValue page id]
      end
  | f => field_values report off f
  end.

Definition reads_max (report : list Z) (off : Z) (f : ReportField) : bool :=
  match f with
  | Variable_ size min _ page id =>
      negb (is_none (translate_usage page id)) && (0 <=? min) && (field_bits report off size =? i32_MAX)
  | _ => false
  end.

(** The values of a report, if no unsigned variable is [i32::MAX]. *)
Fixpoint read_fields (report : list Z) (off : Z) (fs : list ReportField) : option (list FieldValue) :=
  match fs with
  | [] => Some []
  | f :: fs =>
      if reads_max report off f then None
      else app (read_values report off f) <$> read_fields report (off + read_width f) fs
  end.

Lemma width_nonneg f : sized f = true -> 0 <= read_width f <= field_width f.
Proof.
  destruct f as [| |size min max page id]; simpl; intros; rewrite ?andb_true_iff in *; [lia|nia|].
  destruct (translate_usage page id); lia.
Qed.

Lemma report_width_nonneg fs : Forall (fun f => sized f = true) fs -> 0 <= report_width fs.
Proof. induction 1 as [|f fs Hf _ IH]; simpl; [lia|]. pose proof (width_nonneg f Hf). lia. Qed.

Lemma interpretable_sized f : interpretable f = true -> sized f = true.
Proof. unfold interpretable. by intros [? _]%andb_true_iff. Qed.

Section interpret.
Context `{BitArraySpec} (report : list Z).
Context (Hreport : bytes_ok report) (Hsize : 8 * Z.of_nat (length report) < 2 ^ 32).

Lemma next_offset off size :
  0 <= off -> 0 <= size -> off + size <= 8 * Z.of_nat (length report) ->
  wadd 32 off size = Val (off + size).
Proof. intros. apply wadd_in. unfold is_unsigned. lia. Qed.

Lemma interpret_array_element_spec off result size page min i :
  0 <= off -> 0 <= size <= 32 -> off + size <= 8 * Z.of_nat (length report) ->
  0 <= min -> min + 2 ^ size <= 2 ^ 32 ->
  interpret_array_element report size page min (off, result) i =
    Val (off + size, result ++ [selector page (min + field_bits report off size)]).
Proof.
  intros Hoff Hs Hlen Hmin Hmax. unfold interpret_array_element, selector.
  rewrite next_offset by lia. obind. rewrite extract_field_as_u32_spec by (done || lia). obind.
  pose proof (field_bits_range report off size ltac:(lia)) as [? ?].
  rewrite wadd_in by (unfold is_unsigned; lia). obind. by case_match.
Qed.

Lemma interpret_array_spec off result size count page min :
  0 <= off -> 0 <= size <= 32 -> 0 <= count -> off + size * count <= 8 * Z.of_nat (length report) ->
  0 <= min -> min + 2 ^ size <= 2 ^ 32 ->
  ofold (interpret_array_element report size page min) (off, result) (seqZ 0 count) =
    Val (off + size * count, result ++
      ((fun i => selector page (min + field_bits report (off + i * size) size)) <$> seqZ 0 count)).
Proof.
  intros Hoff Hs Hc Hlen Hmin Hmax. apply returns_eq. eapply returns_weaken.
  - apply (ofold_invariant _ (fun seen c => c = (off + size * Z.of_nat (length seen), result ++
      ((fun i => selector page (min + field_bits report (off + i * size) size)) <$> seen)))).
    + simpl. by rewrite Z.mul_0_r, Z.add_0_r, app_nil_r.
    + intros seen i rest c E ->. apply seqZ_split in E as [-> Hi].
      rewrite interpret_array_element_spec by nia. simpl.
      rewrite length_app, Nat2Z.inj_add, fmap_app, <- app_assoc. simpl.
      f_equal; [lia|]. do 6 f_equal. lia.
  - intros c ->. by rewrite length_seqZ, Z2Nat.id by done.
Qed.

Lemma to_signed_bytes n x : 0 < n -> n mod 8 = 0 -> to_signed (Z.to_nat (div_ceil n 8)) x = signed_value n x.
Proof.
  intros Hn H8. unfold to_signed, signed_value, div_ceil.
  replace (8 * Z.of_nat (Z.to_nat ((n + 8 - 1) / 8))) with n; [done|].
  pose proof (Z.div_mod n 8). pose proof (Z.div_pos n 8).
  replace (n + 8 - 1) with (n / 8 * 8 + 7) by lia. rewrite Z.div_add_l by lia.
  change (7 / 8) with 0. lia.
Qed.

Lemma interpret_field_spec off result f :
  sized f = true -> 0 <= off -> off + field_width f <= 8 * Z.of_nat (length report) ->
  interpret_field report (off, result) f =
    if reads_max report off f then Panic else Val (off + read_width f, result ++ read_values report off f).
Proof.
  intros Hf Hoff Hlen. pose proof (width_nonneg f Hf).
  destruct f as [n|size count lmin lmax page min max|size min max page id];
    cbn [interpret_field reads_max read_values field_values read_width field_width sized] in *; rewrite ?andb_true_iff in Hf.
  - rewrite next_offset by lia. obind. by rewrite app_nil_r.
  - apply interpret_array_spec; lia.
  - destruct (translate_usage page id) as [u|]; [|by rewrite Z.add_0_r].
    rewrite next_offset by lia. obind. destruct (Z.ltb_spec min 0).
    + rewrite extract_field_as_i32_spec by (done || lia). obind. by replace (0 <=? min) with false by lia.
    + rewrite extract_field_as_u32_spec by (done || lia). obind. replace (0 <=? min) with true by lia. simpl.
      by destruct (_ =? i32_MAX).
Qed.

Lemma interpret_fields_spec fs : forall off result,
  Forall (fun f => sized f = true) fs -> 0 <= off ->
  off + report_width fs <= 8 * Z.of_nat (length report) ->
  ('(_, r) ← ofold (interpret_field report) (off, result) fs; mret r) =
    match read_fields report off fs with Some l => Val (result ++ l) | None => Panic end.
Proof.
  induction fs as [|f fs IH]; intros off result Hfs Hoff Hlen; cbn [ofold report_width foldr read_fields] in *.
  - obind. by rewrite app_nil_r.
  - apply Forall_cons_1 in Hfs as [Hf Hfs].
    pose proof (width_nonneg f Hf). pose proof (report_width_nonneg fs Hfs). unfold report_width in *.
    rewrite interpret_field_spec by (done || lia). destruct (reads_max report off f); [done|]. obind.
    rewrite IH by (done || lia). destruct (read_fields _ _ fs); simpl; [by rewrite app_assoc|done].
Qed.

(** A field that is read as it is laid out. *)
Lemma read_interpretable off f :
  interpretable f = true ->
  reads_max report off f = false /\ read_width f = field_width f /\ read_values report off f = field_values report off f.
Proof.
  unfold interpretable. rewrite andb_true_iff. intros [Hs Hf]. destruct f as [| |size min max page id]; [done..|].
  simpl in *. apply andb_true_iff in Hs as [Hs0 Hs1]. apply andb_true_iff in Hf as [Hu Hf].
  destruct (translate_usage page id) as [u|]; [|done]. simpl. pose proof (field_bits_range report off size ltac:(lia)) as [? Hb].
  destruct (Z.ltb_spec min 0).
  - replace (0 <=? min) with false by lia. split_and!; [done..|]. by rewrite to_signed_bytes by lia.
  - pose proof (Z.pow_le_mono_r 2 size 30 ltac:(lia) ltac:(lia)) as Hp. assert (2 * 2 ^ 30 = 2 ^ 31) by done.
    replace (_ =? i32_MAX) with false by (unfold i32_MAX; lia). rewrite andb_false_r. split_and!; [done..|].
    unfold to_signed. change (8 * Z.of_nat 4 - 1) with 31. by replace (_ <? 2 ^ 31) with true by lia.
Qed.

Lemma read_decode fs : forall off,
  Forall (fun f => interpretable f = true) fs -> read_fields report off fs = Some (decode report off fs).
Proof.
  induction fs as [|f fs IH]; intros off Hfs; [done|]. apply Forall_cons_1 in Hfs as [Hf Hfs]. cbn [read_fields decode].
  destruct (read_interpretable off f Hf) as (-> & -> & ->). by rewrite IH.
Qed.

End interpret.


(** Values already in the result stay in front. *)
Definition framed {A} (body : Cursor -> A -> outcome Cursor) : Prop :=
  forall off pre res a,
    body (off, pre ++ res) a = ('(o, r) ← body (off, res) a; mret (o, pre ++ r)).

Lemma ofold_framed {A} (body : Cursor -> A -> outcome Cursor) l :
  framed body -> forall off pre res,
  ofold body (off, pre ++ res) l = ('(o, r) ← ofold body (off, res) l; mret (o, pre ++ r)).
Proof.
  intros Hbody. induction l as [|a l IH]; intros off pre res; cbn [ofold]; [done|].
  rewrite Hbody. destruct (body (off, res) a) as [[o r]|]; simpl; [apply IH|done].
Qed.

Lemma interpret_array_element_framed report size page min :
  framed (interpret_array_element report size page min).
Proof.
  intros off pre res i. unfold interpret_array_element.
  repeat (case_match || (destruct (wadd 32 _ _); simpl) || (destruct (extract_field_as_u32 _ _ _); simpl));
    simpl; rewrite ?app_assoc; done.
Qed.

Lemma interpret_field_framed `{BitArray} report : framed (interpret_field report).
Proof.
  intros off pre res f. destruct f as [n|size count ? ? page min ?|size min max page id];
    unfold interpret_field.
  - by destruct (wadd 32 off n).
  - apply ofold_framed, interpret_array_element_framed.
  - destruct (translate_usage page id); [|simpl; by rewrite app_assoc].
    destruct (min <? 0); (destruct (wadd 32 _ _); simpl; [|done]).
    + destruct (extract_field_as_i32 _ _ _); simpl; [|done]. by rewrite app_assoc.
    + destruct (extract_field_as_u32 _ _ _); simpl; [|done].
      destruct (negb _); simpl; [|done]. by rewrite app_assoc.
Qed.

(** A variable whose usage is unknown to the driver is reported as
    untranslated without its bits being skipped: every field after it is read as
    if the variable were not in the report. *)
Lemma hid_unknown_variable_not_skipped `{BitArray}
  (size dmin dmax page id : Z) (fs : list ReportField) (report : list Z)
  (Hunknown : translate_usage page id = None) :
  interpret (mkReportDescriptor (Variable_ size dmin dmax page id :: fs)) report =
    (values ← interpret (mkReportDescriptor fs) report;
     mret (UntranslatedDynamicValue page id :: values)).
Proof.
  unfold interpret. cbn [fields ofold].
  assert (interpret_field report (0, []) (Variable_ size dmin dmax page id) =
    Val (0, [UntranslatedDynamicValue page id])) as -> by (simpl; by rewrite Hunknown).
  cbn [mbind outcome_bind mret outcome_ret].
  rewrite (ofold_framed _ fs (interpret_field_framed report) 0 [UntranslatedDynamicValue page id] []).
  by destruct (ofold _ _ fs) as [[o r]|].
Qed.

(** A signed field whose size is not a whole number of bytes never reads as
    a negative number: the sign is taken from the top bit of the last byte,
    which the extraction leaves zero, and not from the field's own top bit. *)
Lemma hid_signed_bits_never_negative `{BitArraySpec} (report : list Z) (first n : Z)
  (Hbytes : bytes_ok report) (Hfirst : 0 <= first) (Hn : 0 < n <= 32) (Hodd : n mod 8 <> 0)
  (Hlong : first + n <= 8 * Z.of_nat (length report)) :
  extract_field_as_i32 report first (first + n) = Val (field_bits report first n).
Proof.
  rewrite extract_field_as_i32_spec by done. f_equal. unfold to_signed.
  pose proof (field_bits_range report first n ltac:(lia)) as [? Hb].
  pose proof (div_ceil_8 n ltac:(lia)).
  assert (n <> 8 * div_ceil n 8) by (intros E; apply Hodd; rewrite E, Z.mul_comm; apply Z.mod_mul; lia).
  pose proof (Z.pow_le_mono_r 2 n (8 * Z.of_nat (Z.to_nat (div_ceil n 8)) - 1) ltac:(lia) ltac:(lia)).
  destruct (Z.ltb_spec (field_bits report first n)
    (2 ^ (8 * Z.of_nat (Z.to_nat (div_ceil n 8)) - 1))); [done|lia].
Qed.
