(* ===== verification/HidItems.v ===== *)
(** * The items of a HID report descriptor

    A reference tokenizer on the remaining bytes, its agreement with
    [ItemTokenizer::next], the termination of [ReportDescriptorParser::parse],
    and the round trips from items, and from the fields of a descriptor, to bytes
    and back. *)

From stdpp Require Import base tactics option list numbers.
From Equations Require Import Equations.
From S2P Require Import Prelude Bytes Crates HidReport HidCorrect.

(** ** The reference tokenizer *)

Definition item_type (b : Z) : ItemType :=
  match (b / 4) mod 4 with 0 => Main | 1 => Global | 2 => Local_ | _ => Reserved end.

Definition item_size (b : Z) : Z := if b mod 4 =? 3 then 4 else b mod 4.

(** Cut [size] bytes of data off the front. *)
Definition split_item (size : Z) (ty : ItemType) (tg : Z) (l : list Z) : option (Item * list Z) :=
  if size <=? Z.of_nat (length l) then
    Some (mkItem ty tg (take (Z.to_nat size) l), drop (Z.to_nat size) l)
  else None.

Definition next_item (l : list Z) : option (Item * list Z) :=
  match l with
  | [] => None
  | b :: l =>
      if (item_size b =? 2) && (b / 16 =? 0xf) && bool_decide (item_type b = Reserved) then
        match l with
        | size :: tg :: l => split_item size Reserved tg l
        | _ => None
        end
      else split_item (item_size b) (item_type b) (b / 16) l
  end.

Lemma split_item_shorter size ty tg l it l' :
  split_item size ty tg l = Some (it, l') -> (length l' <= length l)%nat.
Proof.
  unfold split_item. case_match; [|done]. intros [= _ <-]. rewrite length_drop. lia.
Qed.

Lemma next_item_shorter l it l' : next_item l = Some (it, l') -> (length l' < length l)%nat.
Proof.
  unfold next_item. destruct l as [|b l]; [done|]. simpl. case_match.
  - destruct l as [|? [|? l]]; [done|done|]. intros E%split_item_shorter. simpl. lia.
  - intros E%split_item_shorter. lia.
Qed.

Definition inspect {A} (a : A) : { b | a = b } := exist _ a eq_refl.

Equations? tokenize (l : list Z) : list Item by wf (length l) lt :=
  tokenize l with inspect (next_item l) => {
    | exist _ (Some (it, l')) E := it :: tokenize l';
    | exist _ None E := [] }.
Proof. by apply next_item_shorter in E. Qed.

Lemma tokenize_eq l :
  tokenize l = match next_item l with Some (it, l') => it :: tokenize l' | None => [] end.
Proof.
  funelim (tokenize l); match goal with E : next_item _ = _ |- _ => by rewrite E end.
Qed.

(** ** [ItemTokenizer::next] agrees with it *)

(** The bytes the tokenizer has not read yet. *)
Definition rest (t : ItemTokenizer) : list Z := drop (Z.to_nat (current t)) (bytes t).

(** Slices are at most [isize::MAX] bytes long. *)
Definition tokenizer_ok (t : ItemTokenizer) : Prop :=
  bytes_ok (bytes t) /\ 0 <= current t <= Z.of_nat (length (bytes t)) /\
  Z.of_nat (length (bytes t)) < 2 ^ 63.

Lemma length_rest t :
  tokenizer_ok t -> Z.of_nat (length (rest t)) = Z.of_nat (length (bytes t)) - current t.
Proof. intros (_ & ? & _). unfold rest. rewrite length_drop. lia. Qed.

Lemma rest_ok t : tokenizer_ok t -> bytes_ok (rest t).
Proof. intros (? & _). by apply Forall_drop. Qed.

(** Moving [n] bytes forward. *)
Definition advance (t : ItemTokenizer) (n : Z) : ItemTokenizer :=
  mkItemTokenizer (bytes t) (current t + n).

Lemma advance_ok t n :
  tokenizer_ok t -> 0 <= n <= Z.of_nat (length (rest t)) ->
  tokenizer_ok (advance t n) /\ rest (advance t n) = drop (Z.to_nat n) (rest t).
Proof.
  intros Ht Hn. rewrite length_rest in Hn by done. destruct Ht as (? & ? & ?).
  split; [split_and!; simpl; done || lia|].
  unfold rest. simpl. rewrite drop_drop. f_equal. lia.
Qed.

Lemma advance_cons t b r :
  tokenizer_ok t -> rest t = b :: r -> tokenizer_ok (advance t 1) /\ rest (advance t 1) = r.
Proof.
  intros Ht E. destruct (advance_ok t 1) as [? Ea]; [done|rewrite E; simpl; lia|].
  by rewrite Ea, E.
Qed.

Lemma take_byte_spec t :
  tokenizer_ok t ->
  take_byte t =
    match rest t with
    | [] => Val (None, t)
    | b :: _ => Val (Some b, advance t 1)
    end.
Proof.
  intros Ht. pose proof (length_rest t Ht). destruct Ht as (? & ? & ?). unfold take_byte.
  assert (rest t !! 0%nat = bytes t !! Z.to_nat (current t)) as <-.
  { unfold rest. rewrite lookup_drop. f_equal. lia. }
  destruct (rest t) as [|b r]; simpl in *; [done|].
  by rewrite wadd_in by (unfold is_unsigned; lia).
Qed.

Lemma take_item_spec t size ty tg :
  tokenizer_ok t -> is_byte size ->
  take_item t size ty tg =
    match split_item size ty tg (rest t) with
    | Some (it, _) => Val (Some it, advance t size)
    | None => Val (None, t)
    end.
Proof.
  intros Ht [? Hs]. change (2 ^ 8) with 256 in Hs. pose proof (length_rest t Ht) as Hl.
  destruct Ht as (? & ? & ?).
  unfold take_item, split_item, get_range. rewrite Hl.
  rewrite wadd_in by (unfold is_unsigned; lia). obind.
  destruct (Z.leb_spec size (Z.of_nat (length (bytes t)) - current t)).
  - replace (_ && _) with true by lia.
    replace (current t + size - current t) with size by lia. done.
  - by replace (_ && _) with false by lia.
Qed.

(** The outcome of reading an item is the one [r] describes. *)
Definition reads (t : ItemTokenizer) (r : option (Item * list Z))
    (out : option Item * ItemTokenizer) : Prop :=
  let '(item, t') := out in
  bytes t' = bytes t /\ tokenizer_ok t' /\
  match r with
  | Some (it, l') => item = Some it /\ rest t' = l'
  | None => item = None
  end.

Lemma take_item_reads t0 t size ty tg :
  tokenizer_ok t -> bytes t = bytes t0 -> is_byte size ->
  take_item t size ty tg ⇓ reads t0 (split_item size ty tg (rest t)).
Proof.
  intros Ht E Hs. rewrite take_item_spec by done. unfold split_item.
  destruct (Z.leb_spec size (Z.of_nat (length (rest t)))); [|done].
  destruct (advance_ok t size) as [? ?]; [done|destruct Hs; lia|]. done.
Qed.

Section tokenizer.
Context `{BitFieldSpec}.

Lemma header_bits b : is_byte b ->
  get_bits 8 b 0 2 = Val (b mod 4) /\ get_bits 8 b 2 4 = Val ((b / 4) mod 4) /\
  get_bits 8 b 4 8 = Val (b / 16).
Proof.
  intros Hb. rewrite !get_bits_in by (done || lia). split_and!; f_equal.
  - simpl. by rewrite Z.div_1_r.
  - destruct Hb. change (2 ^ (8 - 4)) with 16. change (2 ^ 4) with 16. change (2 ^ 8) with 256 in *.
    apply Z.mod_small. split; [by apply Z.div_pos|]. apply Z.div_lt_upper_bound; lia.
Qed.

Lemma header_type b : is_byte b ->
  match (b / 4) mod 4 with
  | 0 => Val Main | 1 => Val Global | 2 => Val Local_ | 3 => Val Reserved | _ => Panic
  end = Val (item_type b).
Proof.
  intros Hb. unfold item_type. pose proof (Z.mod_pos_bound (b / 4) 4 ltac:(lia)).
  set (x := (b / 4) mod 4) in *.
  assert (x = 0 \/ x = 1 \/ x = 2 \/ x = 3) as [->|[->|[->| ->]]] by lia; done.
Qed.

Lemma item_size_byte b : is_byte (item_size b).
Proof.
  unfold item_size, is_unsigned. pose proof (Z.mod_pos_bound b 4 ltac:(lia)). case_match; lia.
Qed.

(** [next] returns the next item and leaves the bytes after it; at the end of
    the descriptor, and on a truncated item, it returns [None]. *)
Lemma next_spec t : tokenizer_ok t -> next t ⇓ reads t (next_item (rest t)).
Proof.
  intros Ht. unfold next. rewrite take_byte_spec by done.
  pose proof (rest_ok t Ht) as Hr.
  destruct (rest t) as [|b r] eqn:Er; [done|]. apply Forall_cons_1 in Hr as [Hb Hr].
  destruct (advance_cons t b r Ht Er) as [Ht1 Er1].
  obind. destruct (header_bits b Hb) as (-> & -> & ->). obind. rewrite header_type by done. obind.
  fold (item_size b). cbn [next_item].
  destruct ((item_size b =? 2) && (b / 16 =? 15) && bool_decide (item_type b = Reserved)) eqn:Elong.
  2:{ rewrite <- Er1. apply take_item_reads; [done|done|apply item_size_byte]. }
  apply andb_true_iff in Elong as [_ ->%bool_decide_eq_true].
  rewrite take_byte_spec, Er1 by done. destruct r as [|size r]; [done|].
  apply Forall_cons_1 in Hr as [Hsize Hr].
  destruct (advance_cons _ _ _ Ht1 Er1) as [Ht2 Er2].
  obind. rewrite take_byte_spec, Er2 by done. destruct r as [|tg r]; [done|]. obind.
  destruct (advance_cons _ _ _ Ht2 Er2) as [Ht3 Er3]. rewrite <- Er3. by apply take_item_reads.
Qed.

(** The loop of [parse] visits the items of the reference tokenizer. *)
Lemma parse_loop_tokenize `{BitArray} fuel : forall t p,
  tokenizer_ok t -> (length (rest t) < fuel)%nat ->
  parse_loop fuel t p = ofold parse_item p (tokenize (rest t)).
Proof.
  induction fuel as [|fuel IH]; intros t p Ht Hf; [lia|].
  cbn [parse_loop]. rewrite tokenize_eq.
  pose proof (next_spec t Ht) as Hn. apply returns_Val in Hn as ([item t'] & -> & _ & Ht' & Hr).
  obind. destruct (next_item (rest t)) as [[it l']|] eqn:E; [|by subst].
  destruct Hr as [-> Hr]. cbn [ofold]. destruct (parse_item p it); simpl; [|done].
  rewrite IH by (done || (apply next_item_shorter in E; rewrite Hr; lia)). by rewrite Hr.
Qed.

Lemma parse_tokenize `{BitArray} bs :
  bytes_ok bs -> Z.of_nat (length bs) < 2 ^ 63 ->
  parse bs = (p ← ofold parse_item parser_new (tokenize bs); mret (descriptor p)).
Proof.
  intros Hbs Hl. unfold parse.
  assert (tokenizer_ok (ItemTokenizer_new bs)) by (split_and!; simpl; done || lia).
  assert (rest (ItemTokenizer_new bs) = bs) as E by done.
  rewrite parse_loop_tokenize; [by rewrite E|done|rewrite E; lia].
Qed.

End tokenizer.

(** ** Encoding items *)

Definition type_code (ty : ItemType) : Z :=
  match ty with Main => 0 | Global => 1 | Local_ => 2 | Reserved => 3 end.

Definition size_code (n : nat) : Z := if (n =? 4)%nat then 3 else Z.of_nat n.

(** Items the short form can carry. *)
Definition short_item (it : Item) : bool :=
  (0 <=? tag it) && (tag it <? 16) &&
  ((length (data it) <=? 2) || (length (data it) =? 4))%nat &&
  negb ((length (data it) =? 2)%nat && (tag it =? 15) && bool_decide (typ it = Reserved)).

Definition encode_item (it : Item) : list Z :=
  if short_item it then
    tag it * 16 + type_code (typ it) * 4 + size_code (length (data it)) :: data it
  else 0xfe :: Z.of_nat (length (data it)) :: tag it :: data it.

(** Items that have an encoding. *)
Definition item_ok (it : Item) : bool :=
  short_item it || bool_decide (typ it = Reserved) && (length (data it) <? 256)%nat.

Lemma split_item_app ty tg dat l :
  split_item (Z.of_nat (length dat)) ty tg (dat ++ l) = Some (mkItem ty tg dat, l).
Proof.
  unfold split_item. rewrite length_app, Nat2Z.id. rewrite (proj2 (Z.leb_le _ _)) by lia.
  by rewrite take_app_length, drop_app_length.
Qed.

Lemma next_item_encode it l : item_ok it = true -> next_item (encode_item it ++ l) = Some (it, l).
Proof.
  intros Hok. destruct it as [ty tg dat]. unfold encode_item. unfold item_ok in Hok.
  destruct (short_item _) eqn:Hs; cbn [typ tag data orb] in *.
  - clear Hok. unfold short_item in Hs. cbn [typ tag data] in Hs.
    set (c := size_code (length dat)). set (b := tg * 16 + type_code ty * 4 + c).
    assert (0 <= c <= 3 /\ (if c =? 3 then 4 else c) = Z.of_nat (length dat)) as [Hc Hsize].
    { subst c. unfold size_code. destruct (length dat) as [|[|[|[|[|n]]]]]; simpl in *; lia. }
    assert (0 <= type_code ty <= 3) as Hty by (by destruct ty).
    assert (b mod 4 = c) as E1 by (symmetry; apply (Z.mod_unique_pos _ _ (tg * 4 + type_code ty)); lia).
    assert (b / 4 = tg * 4 + type_code ty) as E2 by (symmetry; apply (Z.div_unique_pos _ _ _ c); lia).
    assert ((b / 4) mod 4 = type_code ty) as E3
      by (rewrite E2; symmetry; apply (Z.mod_unique_pos _ _ tg); lia).
    assert (b / 16 = tg) as E4
      by (symmetry; apply (Z.div_unique_pos _ _ _ (type_code ty * 4 + c)); lia).
    cbn [app next_item]. assert (item_type b = ty) as ->.
    { unfold item_type. rewrite E3. by destruct ty. }
    assert (item_size b = Z.of_nat (length dat)) as -> by (unfold item_size; by rewrite E1).
    rewrite E4, split_item_app.
    replace (_ && _) with false; [done|].
    rewrite !andb_true_iff in Hs. destruct Hs as [_ Hs]. apply negb_true_iff in Hs.
    rewrite <- Hs. do 2 f_equal.
    destruct (Nat.eqb_spec (length dat) 2), (Z.eqb_spec (Z.of_nat (length dat)) 2); lia.
  - cbn [orb] in Hok. apply andb_true_iff in Hok as [->%bool_decide_eq_true Hl].
    cbn [app next_item]. apply split_item_app.
Qed.

Lemma tokenize_encode items :
  Forall (fun it => item_ok it = true) items -> tokenize (concat (encode_item <$> items)) = items.
Proof.
  induction 1 as [|it items Hit _ IH]; rewrite tokenize_eq; simpl; [done|].
  rewrite next_item_encode by done. by f_equal.
Qed.

Lemma length_tokenize l : (length (tokenize l) <= length l)%nat.
Proof.
  funelim (tokenize l); simpl; [|lia]. pose proof (next_item_shorter _ _ _ E). lia.
Qed.

(** C33: Parsing a descriptor terminates on every byte string: the loop over
    the tokenizer's items makes at most one iteration per byte and then stops,
    so running it longer changes nothing, and it handles the finite list of items
    the descriptor consists of, in order. *)
Theorem hid_parse_terminates `{BitFieldSpec} `{BitArray} (bs : list Z)
  (Hbs : bytes_ok bs) (Hlen : Z.of_nat (length bs) < 2 ^ 63) :
  (length (tokenize bs) <= length bs)%nat /\
  parse bs = (p ← ofold parse_item parser_new (tokenize bs); mret (descriptor p)) /\
  forall fuel, (length bs < fuel)%nat ->
    parse_loop fuel (ItemTokenizer_new bs) parser_new =
      parse_loop (S (length bs)) (ItemTokenizer_new bs) parser_new.
Proof.
  assert (tokenizer_ok (ItemTokenizer_new bs)) by (split_and!; simpl; done || lia).
  assert (rest (ItemTokenizer_new bs) = bs) as E by done.
  split_and!; [apply length_tokenize|by apply parse_tokenize|].
  intros fuel Hf. by rewrite !parse_loop_tokenize, E by (done || rewrite E; lia).
Qed.

(** C32: The tokenizer inverts the item encoding of the HID specification, short
    and long items alike: parsing the encoding of a list of items runs the parser
    on exactly these items. *)
Theorem hid_items_roundtrip `{BitFieldSpec} `{BitArray} (items : list Item)
  (Hitems : Forall (fun it => item_ok it = true) items)
  (Hbytes : bytes_ok (concat (encode_item <$> items)))
  (Hlen : Z.of_nat (length (concat (encode_item <$> items))) < 2 ^ 63) :
  parse (concat (encode_item <$> items)) =
    (p ← ofold parse_item parser_new items; mret (descriptor p)).
Proof. by rewrite parse_tokenize, tokenize_encode by done. Qed.

(** ** Writing a descriptor for given fields *)

Definition i32_range (x : Z) : Prop := - 2 ^ 31 <= x < 2 ^ 31.

(** The fields a descriptor can ask for: values of the types the code declares,
    the bounds of an array's usages in two bytes, no negative minimum for an array. *)
Definition field_typed (f : ReportField) : Prop :=
  match f with
  | Padding n => is_unsigned 32 n
  | Array size count lmin lmax page umin umax =>
      is_unsigned 32 size /\ is_unsigned 32 count /\ 0 <= lmin < 2 ^ 31 /\ i32_range lmax /\
      is_unsigned 16 page /\ is_unsigned 16 umin /\ is_unsigned 16 umax
  | Variable_ size dmin dmax page id =>
      is_unsigned 32 size /\ i32_range dmin /\ i32_range dmax /\
      is_unsigned 16 page /\ is_unsigned 32 id
  end.

(** The items of the HID specification, by their names. *)
Definition item (ty : ItemType) (tg : Z) (n : nat) (v : Z) : Item := mkItem ty tg (to_le_bytes n v).
Definition UsagePage (v : Z) : Item := item Global 0 2 v.
Definition LogicalMinimum (v : Z) : Item := item Global 1 4 v.
Definition LogicalMaximum (v : Z) : Item := item Global 2 4 v.
Definition ReportSize (v : Z) : Item := item Global 7 4 v.
Definition ReportCount (v : Z) : Item := item Global 9 4 v.
Definition UsageId (v : Z) : Item := item Local_ 0 4 v.
Definition UsageMinimum (v : Z) : Item := item Local_ 1 2 v.
Definition UsageMaximum (v : Z) : Item := item Local_ 2 2 v.
(** An input of an array, of a variable, and a constant one. *)
Definition InputArray : Item := item Main 8 1 0.
Definition InputVariable : Item := item Main 8 1 2.
Definition InputConstant : Item := item Main 8 1 1.

Definition describe (f : ReportField) : list Item :=
  match f with
  | Padding n => [ReportSize n; ReportCount 1; InputConstant]
  | Array size count lmin lmax page umin umax =>
      [UsagePage page; LogicalMinimum lmin; LogicalMaximum lmax; ReportSize size; ReportCount count;
       UsageMinimum umin; UsageMaximum umax; InputArray]
  | Variable_ size dmin dmax page id =>
      [UsagePage page; LogicalMinimum dmin; LogicalMaximum dmax; ReportSize size; ReportCount 1; UsageId id;
       InputVariable]
  end.

Lemma bytes_ok_to_le n : forall v, bytes_ok (to_le_bytes n v).
Proof.
  induction n as [|n IH]; intros v; simpl; [constructor|]. constructor; [|done].
  unfold is_unsigned. apply Z.mod_pos_bound. lia.
Qed.

Section describe.
Context `{BitFieldSpec} `{BitArraySpec}.

Lemma padded_value m n v :
  (n <= m)%nat -> is_unsigned (8 * Z.of_nat n) v ->
  padded m (to_le_bytes n v) ⇓ fun bs => bytes_ok bs /\ length bs = m /\ from_le_bytes bs = v.
Proof using Type.
  intros Hn Hv. eapply returns_weaken; [apply padded_spec; [apply bytes_ok_to_le|by rewrite length_to_le_bytes]|].
  intros bs (? & ? & E). split_and!; try done. by rewrite E, from_to_le_bytes, Z.mod_small.
Qed.

Lemma data_as_u16_value ty tg v : is_unsigned 16 v -> data_as_u16 (item ty tg 2 v) = Val v.
Proof using Type.
  intros Hv. apply returns_eq. eapply returns_bind; [by apply (padded_value 2 2)|]. by intros bs (_ & _ & <-).
Qed.

Lemma data_as_u32_value ty tg n v :
  (n <= 4)%nat -> is_unsigned (8 * Z.of_nat n) v -> data_as_u32 (item ty tg n v) = Val v.
Proof using Type.
  intros Hn Hv. apply returns_eq. eapply returns_bind; [by apply (padded_value 4 n)|]. by intros bs (_ & _ & <-).
Qed.

Lemma data_as_i32_value ty tg v : i32_range v -> data_as_i32 (item ty tg 4 v) = Val v.
Proof.
  intros Hv. apply returns_eq. unfold data_as_i32, item. cbn [data].
  eapply returns_bind; [apply padded_spec; [apply bytes_ok_to_le|by rewrite length_to_le_bytes]|].
  intros bs (Hok & Hl & E). rewrite from_to_le_bytes in E. rewrite length_to_le_bytes.
  assert (is_unsigned (8 * 4) (from_le_bytes bs)) as Hu by (rewrite E; apply Z.mod_pos_bound; lia).
  eapply returns_bind; [apply (sign_extend_spec _ 4); (done || lia)|].
  intros bs' (_ & _ & ->). simpl. change (Z.of_nat 4) with 4.
  rewrite to_signed_extended by (done || lia). change (Z.to_nat 4) with 4%nat. rewrite E.
  apply to_signed_mod; [lia|done].
Qed.

Lemma input_flag v i :
  is_unsigned 8 v -> 0 <= i < 32 -> (flags ← data_as_u32 (item Main 8 1 v); get_bit 32 flags i) = Val (Z.testbit v i).
Proof.
  intros Hv Hi. rewrite data_as_u32_value by (done || lia). obind. apply get_bit_in; [|done].
  unfold is_unsigned in *. lia.
Qed.

(** An input item, when its fields can be generated. *)
Lemma parse_input p v p' :
  is_unsigned 8 v -> generate_fields p (negb (Z.testbit v 1)) = Val p' ->
  parse_item p (item Main 8 1 v) = Val (set_local p' LocalState_new).
Proof.
  intros Hv Hg. pose proof (input_flag v 1 Hv ltac:(lia)) as Hb. cbn [parse_item typ item]. unfold parse_main_item. cbn [tag].
  destruct (data_as_u32 (item Main 8 1 v)) as [flags|]; [|done]. change (get_bit 32 flags 1 = Val (Z.testbit v 1)) in Hb.
  obind. rewrite Hb. obind. by rewrite Hg.
Qed.

(** One item after the other. *)
Lemma parse_step p it p' items P :
  parse_item p it = Val p' -> ofold parse_item p' items ⇓ P -> ofold parse_item p (it :: items) ⇓ P.
Proof using Type. intros E Hp. cbn [ofold]. by rewrite E. Qed.

Ltac set_item :=
  eapply parse_step;
    [unfold parse_item, UsagePage, LogicalMinimum, LogicalMaximum, ReportSize, ReportCount, UsageId, UsageMinimum,
       UsageMaximum;
     cbn [typ tag item]; unfold parse_global_item, parse_local_item; cbn [typ tag item global local LocalState_new];
     try (unfold item at 1; cbn [data]; rewrite length_to_le_bytes; obind);
     first [rewrite data_as_u16_value by done | rewrite data_as_i32_value by (unfold i32_range in *; lia) |
            rewrite data_as_u32_value by (done || lia)]; reflexivity
    |unfold set_global, set_local; cbn [descriptor local global app]].

Lemma parse_describe p f :
  local p = LocalState_new -> field_typed f ->
  ofold parse_item p (describe f) ⇓ fun p' =>
    local p' = LocalState_new /\ fields (descriptor p') = fields (descriptor p) ++ [f].
Proof.
  intros Hl Hf. destruct p as [[fs] l [up lmin lmax sz ct pmin pmax]]. simpl in Hl. subst l.
  assert (is_unsigned 8 0 /\ is_unsigned 8 1 /\ is_unsigned 8 2 /\ is_unsigned 32 1) as (U0 & U1 & U2 & V1)
    by (unfold is_unsigned; lia).
  destruct f as [n|size count amin amax page umin umax|size dmin dmax page id]; simpl in Hf; cbn [describe].
  - do 2 set_item. eapply parse_step; [apply parse_input; [done|]|].
    { unfold generate_fields. simpl. rewrite wmul_in by (by rewrite Z.mul_1_r). obind. by rewrite Z.mul_1_r. }
    done.
  - destruct Hf as (? & ? & ? & ? & ? & ? & ?). do 7 set_item.
    eapply parse_step; [apply parse_input; [done|]|].
    { unfold generate_fields. simpl. by replace (amin <? 0) with false by lia. }
    done.
  - destruct Hf as (? & ? & ? & ? & ?). do 6 set_item.
    eapply parse_step; [apply parse_input; [done|]; reflexivity|done].
Qed.

Lemma parse_describes fs : forall p,
  local p = LocalState_new -> Forall field_typed fs ->
  ofold parse_item p (fs ≫= describe) ⇓ fun p' => fields (descriptor p') = fields (descriptor p) ++ fs.
Proof.
  induction fs as [|f fs IH]; intros p Hl Hfs; [simpl; by rewrite app_nil_r|].
  apply Forall_cons_1 in Hfs as [Hf Hfs]. rewrite bind_cons, ofold_app.
  eapply returns_bind; [by apply parse_describe|]. intros p' [Hl' E].
  eapply returns_weaken; [by apply IH|]. intros p'' ->. by rewrite E, <- app_assoc.
Qed.

Lemma describe_items f :
  Forall (fun it => item_ok it = true) (describe f) /\ Forall (fun it => bytes_ok (encode_item it)) (describe f).
Proof.
  assert (forall ty tg n v, (tg = 0 \/ tg = 1 \/ tg = 2 \/ tg = 7 \/ tg = 8 \/ tg = 9) -> (n = 1 \/ n = 2 \/ n = 4)%nat ->
    short_item (item ty tg n v) = true /\ bytes_ok (encode_item (item ty tg n v))) as Hi.
  { intros ty tg n v Ht Hn.
    assert (short_item (item ty tg n v) = true) as Hs.
    { unfold short_item, item. cbn [tag data typ]. rewrite length_to_le_bytes.
      destruct Ht as [->|[->|[->|[->|[->| ->]]]]], Hn as [->|[->| ->]]; done. }
    split; [done|]. unfold encode_item. rewrite Hs. constructor; [|apply bytes_ok_to_le].
    unfold item, is_unsigned. cbn [tag data typ]. rewrite length_to_le_bytes.
    destruct Ht as [->|[->|[->|[->|[->| ->]]]]], Hn as [->|[->| ->]], ty; by vm_compute. }
  assert (Forall (fun it => short_item it = true /\ bytes_ok (encode_item it)) (describe f)) as Hall
    by (destruct f; cbn [describe]; repeat (apply Forall_cons_2; [apply Hi; lia|]); apply Forall_nil_2).
  split; (eapply Forall_impl; [|exact Hall]); intros it [Hs Hb]; [|done]. unfold item_ok. by rewrite Hs.
Qed.

(** C38: A report descriptor that is written for given fields is parsed to these
    fields: for padding, arrays of usages and variables of any sizes, counts,
    bounds and usages, in any number and order, encoding the usage page, the
    logical bounds, the report size and count and the usages of each field as the
    HID specification has it, and parsing the bytes, gives the fields back. *)
Theorem hid_descriptor_roundtrip (fs : list ReportField)
  (Hfs : Forall field_typed fs)
  (Hlen : Z.of_nat (length (concat (encode_item <$> (fs ≫= describe)))) < 2 ^ 63) :
  parse (concat (encode_item <$> (fs ≫= describe))) = Val (mkReportDescriptor fs).
Proof.
  assert (Forall (fun it => item_ok it = true) (fs ≫= describe) /\
    Forall (fun it => bytes_ok (encode_item it)) (fs ≫= describe)) as [Hi Hb].
  { clear. induction fs as [|f fs [IH1 IH2]]; [by split|]. rewrite bind_cons.
    destruct (describe_items f). split; by apply Forall_app. }
  rewrite parse_tokenize; [|by apply Forall_concat, Forall_fmap|done]. rewrite tokenize_encode by done.
  apply returns_eq. eapply returns_bind; [by apply (parse_describes fs parser_new)|].
  intros [[fs'] l g] E. simpl in *. by rewrite E.
Qed.

End describe.

(** ** A keyboard *)

Module Example.

#[local] Existing Instance reference_bit_field.
#[local] Existing Instance reference_bit_field_spec.
#[local] Existing Instance reference_bit_array.
#[local] Existing Instance reference_bit_array_spec.

(** The report descriptor of a keyboard with the boot layout: eight modifier
    bits, a reserved byte, six key codes. *)
Definition keyboard : list Z := [
  0x05; 0x01; 0x09; 0x06; 0xa1; 0x01; 0x05; 0x07; 0x19; 0xe0; 0x29; 0xe7; 0x15; 0x00; 0x25; 0x01;
  0x75; 0x01; 0x95; 0x08; 0x81; 0x02; 0x95; 0x01; 0x75; 0x08; 0x81; 0x01; 0x95; 0x06; 0x75; 0x08;
  0x15; 0x00; 0x25; 0x65; 0x05; 0x07; 0x19; 0x00; 0x29; 0x65; 0x81; 0x00; 0xc0].

Definition keyboard_fields : list ReportField :=
  ((fun i => Variable_ 1 0 1 7 (0xe0 + i)) <$> seqZ 0 8) ++ [Padding 8; Array 8 6 0 0x65 7 0 0x65].

Lemma keyboard_bytes : bytes_ok keyboard.
Proof. unfold keyboard, is_unsigned. repeat constructor; lia. Qed.

Example parse_keyboard : parse keyboard = Val (mkReportDescriptor keyboard_fields).
Proof. by vm_compute. Qed.

(** Left shift with the keys A and H. *)
Definition report : list Z := [0x02; 0; 0x04; 0x0b; 0; 0; 0; 0].


Example decode_keys :
  decode report 0 keyboard_fields =
    [DynamicValue Usage.KeyLeftControl 0; DynamicValue Usage.KeyLeftShift 1;
     DynamicValue Usage.KeyLeftAlt 0; DynamicValue Usage.KeyLeftGui 0;
     DynamicValue Usage.KeyRightControl 0; DynamicValue Usage.KeyRightShift 0;
     DynamicValue Usage.KeyRightAlt 0; DynamicValue Usage.KeyRightGui 0;
     Selector Usage.KeyA; Selector Usage.KeyH;
     UntranslatedSelector 7 0; UntranslatedSelector 7 0; UntranslatedSelector 7 0;
     UntranslatedSelector 7 0].
Proof. by vm_compute. Qed.

(** A keyboard's fields with a signed wheel. *)
Lemma hid_descriptor_roundtrip_witness :
  parse (concat (encode_item <$> ((keyboard_fields ++ [Variable_ 8 (-127) 127 1 0x38]) ≫= describe))) =
    Val (mkReportDescriptor (keyboard_fields ++ [Variable_ 8 (-127) 127 1 0x38])).
Proof.
  apply (hid_descriptor_roundtrip (keyboard_fields ++ [Variable_ 8 (-127) 127 1 0x38])); [|by vm_compute].
  unfold keyboard_fields, i32_range. simpl. repeat constructor; unfold is_unsigned; simpl; try lia.
Defined.

Lemma hid_parse_terminates_witness :
  (length (tokenize keyboard) <= length keyboard)%nat /\
  parse keyboard = (p ← ofold parse_item parser_new (tokenize keyboard); mret (descriptor p)) /\
  forall fuel, (length keyboard < fuel)%nat ->
    parse_loop fuel (ItemTokenizer_new keyboard) parser_new =
      parse_loop (S (length keyboard)) (ItemTokenizer_new keyboard) parser_new.
Proof. apply (hid_parse_terminates keyboard keyboard_bytes). by vm_compute. Defined.

(** Usage page 7, usage 4, one field of eight bits; and a long item, on which the
    parser panics. *)
Definition key_items : list Item := [
  mkItem Global 0 [7]; mkItem Local_ 0 [4]; mkItem Global 1 [0]; mkItem Global 2 [1];
  mkItem Global 7 [8]; mkItem Global 9 [1]; mkItem Main 8 [2]].

Lemma hid_items_roundtrip_witness :
  parse (concat (encode_item <$> key_items)) = Val (mkReportDescriptor [Variable_ 8 0 1 7 4]) /\
  parse (concat (encode_item <$> [mkItem Reserved 3 [1; 2]])) = Panic.
Proof.
  split.
  - rewrite (hid_items_roundtrip key_items); [by vm_compute|by repeat constructor| |by vm_compute].
    vm_compute. repeat constructor; by vm_compute.
  - rewrite (hid_items_roundtrip [mkItem Reserved 3 [1; 2]]); [by vm_compute|by repeat constructor| |by vm_compute].
    vm_compute. repeat constructor; by vm_compute.
Defined.

End Example.
