(* ===== verification/HidDriver.v ===== *)
(** * [user/usb_hid/src/main.rs]: the USB HID driver's report loop

    The loop that turns the reports of a device into input events.  The state it
    keeps between reports is [pressed_keys], a [BTreeMap] from usages to the
    number of polling cycles they have been pressed for, here a list in key
    order; the events go out through [device_channel], whose [send] is a
    parameter. *)

From stdpp Require Import base tactics option list numbers sorting.
From S2P Require Import Prelude Bytes Crates Effects Ptah PtahCorrect Input HidReport HidCorrect.

Definition map_key_usage (usage : Usage.t) : outcome Key :=
  match usage with
  | Usage.KeyA => Val Input.KeyA
  | Usage.KeyB => Val Input.KeyB
  | Usage.KeyC => Val Input.KeyC
  | Usage.KeyD => Val Input.KeyD
  | Usage.KeyE => Val Input.KeyE
  | Usage.KeyF => Val Input.KeyF
  | Usage.KeyG => Val Input.KeyG
  | Usage.KeyH => Val Input.KeyH
  | Usage.KeyI => Val Input.KeyI
  | Usage.KeyJ => Val Input.KeyJ
  | Usage.KeyK => Val Input.KeyK
  | Usage.KeyL => Val Input.KeyL
  | Usage.KeyM => Val Input.KeyM
  | Usage.KeyN => Val Input.KeyN
  | Usage.KeyO => Val Input.KeyO
  | Usage.KeyP => Val Input.KeyP
  | Usage.KeyQ => Val Input.KeyQ
  | Usage.KeyR => Val Input.KeyR
  | Usage.KeyS => Val Input.KeyS
  | Usage.KeyT => Val Input.KeyT
  | Usage.KeyU => Val Input.KeyU
  | Usage.KeyV => Val Input.KeyV
  | Usage.KeyW => Val Input.KeyW
  | Usage.KeyX => Val Input.KeyX
  | Usage.KeyY => Val Input.KeyY
  | Usage.KeyZ => Val Input.KeyZ
  | Usage.Key1 => Val Input.Key1
  | Usage.Key2 => Val Input.Key2
  | Usage.Key3 => Val Input.Key3
  | Usage.Key4 => Val Input.Key4
  | Usage.Key5 => Val Input.Key5
  | Usage.Key6 => Val Input.Key6
  | Usage.Key7 => Val Input.Key7
  | Usage.Key8 => Val Input.Key8
  | Usage.Key9 => Val Input.Key9
  | Usage.Key0 => Val Input.Key0
  | Usage.KeyReturn => Val Input.KeyReturn
  | Usage.KeyEscape => Val Input.KeyEscape
  | Usage.KeyDelete => Val Input.KeyDelete
  | Usage.KeyTab => Val Input.KeyTab
  | Usage.KeySpace => Val Input.KeySpace
  | Usage.KeyDash => Val Input.KeyDash
  | Usage.KeyEquals => Val Input.KeyEquals
  | Usage.KeyLeftBracket => Val Input.KeyLeftBracket
  | Usage.KeyRightBracket => Val Input.KeyRightBracket
  | Usage.KeyForwardSlash => Val Input.KeyForwardSlash
  | Usage.KeyPound => Val Input.KeyPound
  | Usage.KeySemicolon => Val Input.KeySemicolon
  | Usage.KeyApostrophe => Val Input.KeyApostrophe
  | Usage.KeyGrave => Val Input.KeyGrave
  | Usage.KeyComma => Val Input.KeyComma
  | Usage.KeyDot => Val Input.KeyDot
  | Usage.KeyBackSlash => Val Input.KeyBackSlash
  | Usage.KeyCapslock => Val Input.KeyCapslock
  | Usage.KeyF1 => Val Input.KeyF1
  | Usage.KeyF2 => Val Input.KeyF2
  | Usage.KeyF3 => Val Input.KeyF3
  | Usage.KeyF4 => Val Input.KeyF4
  | Usage.KeyF5 => Val Input.KeyF5
  | Usage.KeyF6 => Val Input.KeyF6
  | Usage.KeyF7 => Val Input.KeyF7
  | Usage.KeyF8 => Val Input.KeyF8
  | Usage.KeyF9 => Val Input.KeyF9
  | Usage.KeyF10 => Val Input.KeyF10
  | Usage.KeyF11 => Val Input.KeyF11
  | Usage.KeyF12 => Val Input.KeyF12
  | Usage.KeyPrintScreen => Val Input.KeyPrintScreen
  | Usage.KeyScrolllock => Val Input.KeyScrolllock
  | Usage.KeyPause => Val Input.KeyPause
  | Usage.KeyInsert => Val Input.KeyInsert
  | Usage.KeyHome => Val Input.KeyHome
  | Usage.KeyPageUp => Val Input.KeyPageUp
  | Usage.KeyDeleteForward => Val Input.KeyDeleteForward
  | Usage.KeyEnd => Val Input.KeyEnd
  | Usage.KeyPageDown => Val Input.KeyPageDown
  | Usage.KeyRightArrow => Val Input.KeyRightArrow
  | Usage.KeyLeftArrow => Val Input.KeyLeftArrow
  | Usage.KeyDownArrow => Val Input.KeyDownArrow
  | Usage.KeyUpArrow => Val Input.KeyUpArrow
  | Usage.KeyNumlock => Val Input.KeyNumlock
  | Usage.KeypadSlash => Val Input.KeypadSlash
  | Usage.KeypadAsterix => Val Input.KeypadAsterix
  | Usage.KeypadDash => Val Input.KeypadDash
  | Usage.KeypadPlus => Val Input.KeypadPlus
  | Usage.KeypadEnter => Val Input.KeypadEnter
  | Usage.Keypad1 => Val Input.Keypad1
  | Usage.Keypad2 => Val Input.Keypad2
  | Usage.Keypad3 => Val Input.Keypad3
  | Usage.Keypad4 => Val Input.Keypad4
  | Usage.Keypad5 => Val Input.Keypad5
  | Usage.Keypad6 => Val Input.Keypad6
  | Usage.Keypad7 => Val Input.Keypad7
  | Usage.Keypad8 => Val Input.Keypad8
  | Usage.Keypad9 => Val Input.Keypad9
  | Usage.Keypad0 => Val Input.Keypad0
  | Usage.KeypadDot => Val Input.KeypadDot
  | Usage.KeypadNonUsBackSlash => Val Input.KeypadNonUsBackSlash
  | Usage.KeyApplication => Val Input.KeyApplication
  | Usage.KeyPower => Val Input.KeyPower
  | Usage.KeypadEquals => Val Input.KeypadEquals
  | Usage.KeyF13 => Val Input.KeyF13
  | Usage.KeyF14 => Val Input.KeyF14
  | Usage.KeyF15 => Val Input.KeyF15
  | Usage.KeyF16 => Val Input.KeyF16
  | Usage.KeyF17 => Val Input.KeyF17
  | Usage.KeyF18 => Val Input.KeyF18
  | Usage.KeyF19 => Val Input.KeyF19
  | Usage.KeyF20 => Val Input.KeyF20
  | Usage.KeyF21 => Val Input.KeyF21
  | Usage.KeyF22 => Val Input.KeyF22
  | Usage.KeyF23 => Val Input.KeyF23
  | Usage.KeyF24 => Val Input.KeyF24
  | Usage.KeyExecute => Val Input.KeyExecute
  | Usage.KeyHelp => Val Input.KeyHelp
  | Usage.KeyMenu => Val Input.KeyMenu
  | Usage.KeySelect => Val Input.KeySelect
  | Usage.KeyStop => Val Input.KeyStop
  | Usage.KeyAgain => Val Input.KeyAgain
  | Usage.KeyUndo => Val Input.KeyUndo
  | Usage.KeyCut => Val Input.KeyCut
  | Usage.KeyCopy => Val Input.KeyCopy
  | Usage.KeyPaste => Val Input.KeyPaste
  | Usage.KeyFind => Val Input.KeyFind
  | Usage.KeyMute => Val Input.KeyMute
  | Usage.KeyVolumeUp => Val Input.KeyVolumeUp
  | Usage.KeyVolumeDown => Val Input.KeyVolumeDown
  | Usage.KeyLockingCapslock => Val Input.KeyLockingCapslock
  | Usage.KeyLockingNumlock => Val Input.KeyLockingNumlock
  | Usage.KeyLockingScrolllock => Val Input.KeyLockingScrolllock
  | Usage.KeypadComma => Val Input.KeypadComma
  | Usage.KeyLeftControl => Val Input.KeyLeftControl
  | Usage.KeyLeftShift => Val Input.KeyLeftShift
  | Usage.KeyLeftAlt => Val Input.KeyLeftAlt
  | Usage.KeyLeftGui => Val Input.KeyLeftGui
  | Usage.KeyRightControl => Val Input.KeyRightControl
  | Usage.KeyRightShift => Val Input.KeyRightShift
  | Usage.KeyRightAlt => Val Input.KeyRightAlt
  | Usage.KeyRightGui => Val Input.KeyRightGui
  | _ => Panic
  end.

(** The derived [Ord] of [Usage]. *)
#[export] Instance usage_ord : Ord Usage.t := fun u1 u2 => Nat.compare (Usage.index u1) (Usage.index u2).

(** What the driver uses of [Channel<InputEvent, ()>]: [send] on a world [W]. *)
Class InputChannel (W : Type) := {
  SendError : Type;
  channel_send : InputEvent -> W -> outcome (result unit SendError * W);
}.

(** [BTreeSet<Usage>] and [BTreeMap<Usage, u8>]. *)
Abbreviation UsageSet := (list (Usage.t * unit)).
Abbreviation PressedKeys := (list (Usage.t * Z)).

Definition contains {V} (u : Usage.t) (m : list (Usage.t * V)) : bool :=
  existsb (fun p => bool_decide (p.1 = u)) m.

(** [BTreeSet::take], without its result. *)
Definition remove {V} (u : Usage.t) (m : list (Usage.t * V)) : list (Usage.t * V) :=
  filter (fun p => p.1 <> u) m.

Section driver.
Context {W : Type} `{InputChannel W}.

(** [device_channel.send(&event).unwrap()]. *)
Definition send (event : InputEvent) (w : W) : outcome W :=
  '(r, w) ← channel_send event w;
  match r with Ok _ => mret w | Err _ => Panic end.

Definition map_button (usage : Usage.t) : outcome Key :=
  match usage with
  | Usage.Button1 => Val BtnLeft
  | Usage.Button2 => Val BtnRight
  | Usage.Button3 => Val BtnMiddle
  | Usage.Button4 => Val BtnSide
  | Usage.Button5 => Val BtnExtra
  | _ => Panic
  end.

(** [if value != 0 { send(event) }]. *)
Definition send_if_moved (event : sint 4 -> InputEvent) (value : Z) (w : W) : outcome W :=
  if negb (value =? 0) then send (event (Sint value)) w else mret w.

(** The locals [state] and [current_keys], and the channel. *)
Definition FieldCtx : Type := KeyState * UsageSet * W.

(** The body of [for field in report]. *)
Definition handle_field (ctx : FieldCtx) (field : FieldValue) : outcome FieldCtx :=
  let '(state, current_keys, w) := ctx in
  let '(mkKeyState lc ls la lg rc rs ra rg) := state in
  match field with
  | UntranslatedSelector _ _ | UntranslatedDynamicValue _ _ => mret ctx
  | DynamicValue Usage.X value => w ← send_if_moved RelX value w; mret (state, current_keys, w)
  | DynamicValue Usage.Y value => w ← send_if_moved RelY value w; mret (state, current_keys, w)
  | DynamicValue Usage.Z value => w ← send_if_moved RelZ value w; mret (state, current_keys, w)
  | DynamicValue Usage.Wheel value => w ← send_if_moved RelWheel value w; mret (state, current_keys, w)
  | DynamicValue ((Usage.Button1 | Usage.Button2 | Usage.Button3 | Usage.Button4 | Usage.Button5) as usage) value =>
      if negb (value =? 0) then
        key ← map_button usage; w ← send (KeyPressed key KeyState_default) w; mret (state, current_keys, w)
      else
        key ← map_button usage; w ← send (KeyReleased key KeyState_default) w; mret (state, current_keys, w)
  | DynamicValue Usage.KeyLeftControl value =>
      mret (mkKeyState (negb (value =? 0)) ls la lg rc rs ra rg, current_keys, w)
  | DynamicValue Usage.KeyLeftShift value =>
      mret (mkKeyState lc (negb (value =? 0)) la lg rc rs ra rg, current_keys, w)
  | DynamicValue Usage.KeyLeftAlt value =>
      mret (mkKeyState lc ls (negb (value =? 0)) lg rc rs ra rg, current_keys, w)
  | DynamicValue Usage.KeyLeftGui value =>
      mret (mkKeyState lc ls la (negb (value =? 0)) rc rs ra rg, current_keys, w)
  | DynamicValue Usage.KeyRightControl value =>
      mret (mkKeyState lc ls la lg (negb (value =? 0)) rs ra rg, current_keys, w)
  | DynamicValue Usage.KeyRightShift value =>
      mret (mkKeyState lc ls la lg rc (negb (value =? 0)) ra rg, current_keys, w)
  | DynamicValue Usage.KeyRightAlt value =>
      mret (mkKeyState lc ls la lg rc rs (negb (value =? 0)) rg, current_keys, w)
  | DynamicValue Usage.KeyRightGui value =>
      mret (mkKeyState lc ls la lg rc rs ra (negb (value =? 0)), current_keys, w)
  | DynamicValue _ _ => mret ctx
  | Selector usage => mret (state, btree_insert usage tt current_keys, w)
  end.

(** The closure of [filter_map]: keys still held count one more cycle, the others
    are released. *)
Definition update_pressed (state : KeyState) (ctx : PressedKeys * UsageSet * W) (entry : Usage.t * Z) :
    outcome (PressedKeys * UsageSet * W) :=
  let '(kept, current_keys, w) := ctx in
  let '(usage, count) := entry in
  if contains usage current_keys then
    count ← wadd 8 count 1;
    mret (btree_insert usage count kept, remove usage current_keys, w)
  else
    key ← map_key_usage usage;
    w ← send (KeyReleased key state) w;
    mret (kept, current_keys, w).

(** The body of [for new_key in current_keys]. *)
Definition press_new (state : KeyState) (ctx : PressedKeys * W) (entry : Usage.t * unit) :
    outcome (PressedKeys * W) :=
  let '(pressed_keys, w) := ctx in
  let pressed_keys := btree_insert entry.1 1 pressed_keys in
  key ← map_key_usage entry.1;
  w ← send (KeyPressed key state) w;
  mret (pressed_keys, w).

Definition handle_report (ctx : PressedKeys * W) (report : list FieldValue) : outcome (PressedKeys * W) :=
  let '(pressed_keys, w) := ctx in
  '(state, current_keys, w) ← ofold handle_field (KeyState_default, [], w) report;
  '(pressed_keys, current_keys, w) ← ofold (update_pressed state) ([], current_keys, w) pressed_keys;
  ofold (press_new state) (pressed_keys, w) current_keys.

(** [lib/usb]'s answers to the driver's transfers. *)
Inductive DeviceResponse :=
  | Data (data : list Z)
  | NoData
  | Descriptor (typ index : Z) (bytes : list Z).

(** One iteration of the report loop. *)
Definition report_loop `{BitArray} (report_desc : ReportDescriptor) (ctx : PressedKeys * W)
    (response : DeviceResponse) : outcome (PressedKeys * W) :=
  match response with
  | Data data => report ← interpret report_desc data; handle_report ctx report
  | NoData => mret ctx
  | Descriptor _ _ _ => Panic
  end.

End driver.
