(* ===== verification/HidDriverCorrect.v ===== *)
(** * Correctness of the HID driver's report loop

    What one report does to the set of pressed keys and which events it sends,
    and that the events of any run of reports describe a consistent keyboard. *)

From stdpp Require Import base tactics option list numbers.
From S2P Require Import Prelude Bytes Crates Effects Ptah PtahCorrect BTree Input HidReport HidCorrect HidItems HidDriver.

(** ** The maps of the driver *)

Section maps.
Context {V : Type}.
Implicit Types (u : Usage.t) (m : list (Usage.t * V)).

Lemma usage_cmp_eq u1 u2 : cmp u1 u2 = Eq <-> u1 = u2.
Proof. unfold cmp, usage_ord. rewrite Nat.compare_eq_iff. split; [apply (inj Usage.index)|by intros ->]. Qed.
Lemma usage_cmp_lt u1 u2 : cmp u1 u2 = Lt <-> (Usage.index u1 < Usage.index u2)%nat.
Proof. apply Nat.compare_lt_iff. Qed.

Lemma contains_spec u m : contains u m = true <-> u ∈ m.*1.
Proof.
  unfold contains. rewrite existsb_exists. setoid_rewrite list_elem_of_In.
  setoid_rewrite bool_decide_eq_true. rewrite in_map_iff. naive_solver.
Qed.

Lemma elem_of_remove e u m : e ∈ remove u m <-> e ∈ m /\ e.1 <> u.
Proof. unfold remove. rewrite list_elem_of_filter. naive_solver. Qed.

#[export] Instance usage_ord_laws : OrdLaws Usage.t.
Proof.
  split; [intros u1 u2; apply Nat.compare_antisym|apply usage_cmp_eq|]. intros u1 u2 u3. rewrite !usage_cmp_lt. lia.
Qed.

Lemma usage_sorted_lt m u v :
  keys_sorted ((u, v) :: m) -> forall e, e ∈ m -> (Usage.index u < Usage.index e.1)%nat.
Proof. intros Hm e He. by apply usage_cmp_lt, (sorted_lt _ _ _ Hm). Qed.

End maps.

(** ** What a report says *)

Definition selectors (report : list FieldValue) : list Usage.t :=
  omap (fun f => match f with Selector u => Some u | _ => None end) report.

Definition set_modifier (s : KeyState) (u : Usage.t) (b : bool) : KeyState :=
  let '(mkKeyState lc ls la lg rc rs ra rg) := s in
  match u with
  | Usage.KeyLeftControl => mkKeyState b ls la lg rc rs ra rg
  | Usage.KeyLeftShift => mkKeyState lc b la lg rc rs ra rg
  | Usage.KeyLeftAlt => mkKeyState lc ls b lg rc rs ra rg
  | Usage.KeyLeftGui => mkKeyState lc ls la b rc rs ra rg
  | Usage.KeyRightControl => mkKeyState lc ls la lg b rs ra rg
  | Usage.KeyRightShift => mkKeyState lc ls la lg rc b ra rg
  | Usage.KeyRightAlt => mkKeyState lc ls la lg rc rs b rg
  | Usage.KeyRightGui => mkKeyState lc ls la lg rc rs ra b
  | _ => s
  end.

Definition field_modifiers (s : KeyState) (f : FieldValue) : KeyState :=
  match f with DynamicValue u v => set_modifier s u (negb (v =? 0)) | _ => s end.

(** The modifier keys held down according to a report. *)
Definition modifiers (report : list FieldValue) : KeyState :=
  foldl field_modifiers KeyState_default report.

Definition motion (u : Usage.t) : option (sint 4 -> InputEvent) :=
  match u with
  | Usage.X => Some RelX | Usage.Y => Some RelY | Usage.Z => Some RelZ | Usage.Wheel => Some RelWheel
  | _ => None
  end.

Definition button (u : Usage.t) : option Key :=
  match u with
  | Usage.Button1 => Some BtnLeft | Usage.Button2 => Some BtnRight | Usage.Button3 => Some BtnMiddle
  | Usage.Button4 => Some BtnSide | Usage.Button5 => Some BtnExtra
  | _ => None
  end.

(** The movement and button events of one field. *)
Definition field_events (f : FieldValue) : list InputEvent :=
  match f with
  | DynamicValue u v =>
      match motion u, button u with
      | Some e, _ => if v =? 0 then [] else [e (Sint v)]
      | None, Some k =>
          [if v =? 0 then KeyReleased k KeyState_default else KeyPressed k KeyState_default]
      | None, None => []
      end
  | _ => []
  end.

(** The key of a usage. *)
Definition mapped (u : Usage.t) : Prop := exists k, map_key_usage u = Val k.
Definition key_of (u : Usage.t) : Key := match map_key_usage u with Val k => k | Panic => BtnLeft end.

#[global] Instance mapped_dec u : Decision (mapped u).
Proof.
  refine (match map_key_usage u as o return map_key_usage u = o -> Decision (mapped u) with
    | Val k => fun E => left (ex_intro _ k E) | Panic => fun E => right _ end eq_refl).
  intros [k Hk]. congruence.
Defined.

Lemma mapped_key u : mapped u -> map_key_usage u = Val (key_of u).
Proof. intros [k Hk]. unfold key_of. by rewrite Hk. Qed.

(** Reports the driver can handle: selectors of keys, 32-bit values. *)
Definition value_ok (f : FieldValue) : Prop :=
  match f with
  | Selector u => mapped u
  | DynamicValue _ v => HidItems.i32_range v
  | _ => True
  end.
Abbreviation report_ok := (Forall value_ok).

(** ** The channel the driver sends to *)

Class InputChannelSpec (W : Type) `{InputChannel W} := {
  ready : W -> Prop;
  sent : W -> list InputEvent;
  channel_send_ok : forall e w, ready w -> event_in_range e ->
    channel_send e w ⇓ fun '(r, w') => r = Ok tt /\ ready w' /\ sent w' = sent w ++ [e];
}.

(** ** Reference: the effect of a report on the pressed keys *)

(** The set of keys a report selects. *)
Definition current_keys (report : list FieldValue) : UsageSet :=
  foldl (fun m u => btree_insert u tt m) [] (selectors report).

(** Keys still held, one cycle older; keys no longer held; keys newly held. *)
Definition kept (cur : UsageSet) (pressed : PressedKeys) : PressedKeys :=
  omap (fun e => if contains e.1 cur then Some (e.1, e.2 + 1) else None) pressed.
Definition released (cur : UsageSet) (pressed : PressedKeys) : list Usage.t :=
  omap (fun e => if contains e.1 cur then None else Some e.1) pressed.
Definition fresh_keys (cur : UsageSet) (pressed : PressedKeys) : UsageSet :=
  filter (fun e => e.1 ∉ pressed.*1) cur.

Definition press_all (new : UsageSet) (pressed : PressedKeys) : PressedKeys :=
  foldl (fun m e => btree_insert e.1 1 m) pressed new.

Definition next_pressed (report : list FieldValue) (pressed : PressedKeys) : PressedKeys :=
  let cur := current_keys report in press_all (fresh_keys cur pressed) (kept cur pressed).

(** The events of a report: movement and buttons first, then the released keys,
    then the new ones, with the report's modifiers. *)
Definition report_events (report : list FieldValue) (pressed : PressedKeys) : list InputEvent :=
  let cur := current_keys report in
  let s := modifiers report in
  concat (field_events <$> report) ++
  ((fun u => KeyReleased (key_of u) s) <$> released cur pressed) ++
  ((fun u => KeyPressed (key_of u) s) <$> (fresh_keys cur pressed).*1).

Lemma insert_all_sorted us : forall m, keys_sorted m -> keys_sorted (foldl (fun m u => btree_insert u tt m) m us).
Proof. induction us as [|u us IH]; intros m Hm; simpl; [done|]. by apply IH, btree_insert_sorted. Qed.

Lemma keys_insert_all us u : forall m, keys_sorted m ->
  u ∈ (foldl (fun m u => btree_insert u tt m) m us).*1 <-> u ∈ us \/ u ∈ m.*1.
Proof.
  induction us as [|u' us IH]; intros m Hm; simpl.
  - split; [by right|]. intros [Hu|?]; [by apply elem_of_nil in Hu|done].
  - rewrite IH, keys_btree_insert, elem_of_cons by (done || by apply btree_insert_sorted). naive_solver.
Qed.

Lemma current_keys_sorted report : keys_sorted (current_keys report).
Proof. by apply insert_all_sorted. Qed.

Lemma elem_of_current_keys report u : u ∈ (current_keys report).*1 <-> u ∈ selectors report.
Proof.
  unfold current_keys. rewrite keys_insert_all by done. split; [|by left].
  intros [?|Hu]; [done|by apply elem_of_nil in Hu].
Qed.

Lemma elem_of_kept cur pressed u c :
  (u, c) ∈ kept cur pressed <-> (u, c - 1) ∈ pressed /\ u ∈ cur.*1.
Proof.
  unfold kept. rewrite list_elem_of_omap. split.
  - intros ([u' c'] & He & E). simpl in E. destruct (contains u' cur) eqn:Hc; [|done].
    injection E as -> <-. apply contains_spec in Hc. by replace (c' + 1 - 1) with c' by lia.
  - intros [He Hu%contains_spec]. exists (u, c - 1). split; [done|]. simpl. rewrite Hu. do 2 f_equal. lia.
Qed.

Lemma elem_of_fresh cur pressed u : u ∈ (fresh_keys cur pressed).*1 <-> u ∈ cur.*1 /\ u ∉ pressed.*1.
Proof.
  unfold fresh_keys. rewrite (list_elem_of_fmap _ (filter _ _)), (list_elem_of_fmap _ cur).
  setoid_rewrite list_elem_of_filter. split.
  - intros (e & -> & [? ?]). eauto.
  - intros [(e & -> & ?) ?]. eauto.
Qed.

Lemma fresh_keys_nil cur : fresh_keys cur [] = cur.
Proof.
  unfold fresh_keys. induction cur as [|e cur IH]; [done|].
  rewrite filter_cons_True by apply not_elem_of_nil. by rewrite IH.
Qed.

Lemma fresh_keys_snoc cur seen u c : fresh_keys cur (seen ++ [(u, c)]) = remove u (fresh_keys cur seen).
Proof.
  unfold fresh_keys, remove. rewrite list_filter_filter. apply list_filter_iff. intros e.
  rewrite fmap_app, not_elem_of_app. cbn [fmap list_fmap]. rewrite list_elem_of_singleton. tauto.
Qed.

Lemma remove_absent {V} u (m : list (Usage.t * V)) : contains u m = false -> remove u m = m.
Proof.
  intros Hu. unfold remove. induction m as [|e m IH]; [done|]. simpl in Hu.
  apply orb_false_iff in Hu as [He%bool_decide_eq_false Hu].
  rewrite filter_cons_True by done. by rewrite IH.
Qed.

Lemma keys_before (seen : PressedKeys) u c rest :
  keys_sorted (seen ++ (u, c) :: rest) -> Forall (fun e => cmp e.1 u = Lt) seen.
Proof.
  induction seen as [|[u' c'] seen IH]; intros Hs; [constructor|].
  pose proof (usage_sorted_lt _ _ _ Hs (u, c)) as Hlt. destruct Hs as [_ Hs]. constructor; [|by apply IH].
  apply usage_cmp_lt, Hlt. apply elem_of_app. right. by left.
Qed.

Lemma press_all_sorted new : forall p, keys_sorted p -> keys_sorted (press_all new p).
Proof. induction new as [|e new IH]; intros p Hp; [done|]. by apply IH, btree_insert_sorted. Qed.

Lemma elem_of_press_all new u c : forall p, keys_sorted p ->
  (u, c) ∈ press_all new p <-> u ∈ new.*1 /\ c = 1 \/ u ∉ new.*1 /\ (u, c) ∈ p.
Proof.
  induction new as [|[u' []] new IH]; intros p Hp; cbn [fmap list_fmap fst].
  - split; [right; split; [apply not_elem_of_nil|done]|]. intros [[Hu _]|[_ ?]]; [by apply elem_of_nil in Hu|done].
  - change (press_all ((u', tt) :: new) p) with (press_all new (btree_insert u' 1 p)).
    rewrite IH by (by apply btree_insert_sorted). rewrite elem_of_btree_insert by done.
    rewrite !elem_of_cons. simpl.
    assert ((u, c) = (u', 1) <-> u = u' /\ c = 1) as -> by (split; [by intros [= -> ->]|by intros [-> ->]]).
    destruct (decide (u = u')), (decide (u ∈ new.*1)); tauto.
Qed.

Lemma kept_sorted cur pressed : keys_sorted pressed -> keys_sorted (kept cur pressed).
Proof.
  induction pressed as [|[u c] pressed IH]; intros Hs; [done|]. unfold kept. simpl.
  pose proof (usage_sorted_lt _ _ _ Hs) as Hlt. destruct Hs as [_ Hs].
  destruct (contains u cur); [|by apply IH]. split; [|by apply IH].
  apply Forall_forall. intros [u' c'] [He _]%list_elem_of_In%elem_of_kept.
  apply usage_cmp_lt. apply (Hlt _ He).
Qed.

Lemma next_pressed_sorted report pressed : keys_sorted pressed -> keys_sorted (next_pressed report pressed).
Proof. intros. by apply press_all_sorted, kept_sorted. Qed.

Lemma elem_of_keys {V} u (m : list (Usage.t * V)) : u ∈ m.*1 <-> exists v, (u, v) ∈ m.
Proof.
  rewrite list_elem_of_fmap. split; [intros ([u' v] & -> & ?); eauto|intros [v ?]; by exists (u, v)].
Qed.

Lemma elem_of_next_pressed report pressed u c :
  keys_sorted pressed ->
  (u, c) ∈ next_pressed report pressed <->
    u ∈ selectors report /\ ((u, c - 1) ∈ pressed \/ u ∉ pressed.*1 /\ c = 1).
Proof.
  intros Hs. unfold next_pressed. rewrite elem_of_press_all by (by apply kept_sorted).
  rewrite elem_of_fresh, elem_of_kept, elem_of_current_keys. split.
  - naive_solver.
  - intros [Hu [Hp|[Hp ->]]]; [right|by left]. split; [|done]. intros [_ Hn].
    apply Hn, elem_of_keys. eauto.
Qed.

(** Invariant: keys in order, known to the driver, pressed for 1 to [n] cycles. *)
Definition pressed_ok (n : Z) (pressed : PressedKeys) : Prop :=
  keys_sorted pressed /\ Forall (fun e => mapped e.1 /\ 1 <= e.2 <= n) pressed.

Lemma selectors_mapped report u : report_ok report -> u ∈ selectors report -> mapped u.
Proof.
  intros Hr (f & Hf & E)%list_elem_of_omap. destruct f as [u'| | |]; try done. injection E as ->.
  rewrite Forall_forall in Hr. by apply (Hr (Selector u)), list_elem_of_In.
Qed.

Lemma next_pressed_ok n report pressed :
  0 <= n -> report_ok report -> pressed_ok n pressed -> pressed_ok (n + 1) (next_pressed report pressed).
Proof.
  intros Hn Hr [Hs Hp]. split; [by apply next_pressed_sorted|].
  apply Forall_forall. intros [u c] He%list_elem_of_In%elem_of_next_pressed; [|done].
  destruct He as [Hu He]. split; [by eapply selectors_mapped|]. simpl.
  destruct He as [He|[_ ->]]; [|lia]. rewrite Forall_forall in Hp.
  destruct (Hp (u, c - 1)) as [_ Hc]; [by apply list_elem_of_In|]. simpl in Hc. lia.
Qed.

Section driver_spec.
Context {W : Type} `{InputChannelSpec W}.

Lemma send_ok e w :
  ready w -> event_in_range e -> send e w ⇓ fun w' => ready w' /\ sent w' = sent w ++ [e].
Proof.
  intros Hw He. unfold send. eapply returns_bind; [by apply channel_send_ok|].
  intros [r w'] (-> & ? & ?). done.
Qed.

Lemma send_if_moved_ok (ev : sint 4 -> InputEvent) v w :
  ready w -> event_in_range (ev (Sint v)) ->
  send_if_moved ev v w ⇓ fun w' => ready w' /\ sent w' = sent w ++ (if v =? 0 then [] else [ev (Sint v)]).
Proof.
  intros Hw He. unfold send_if_moved. destruct (v =? 0); simpl; [by rewrite app_nil_r|].
  by apply send_ok.
Qed.

(** A field that only sends events. *)
Lemma handle_field_sends s cur w f (m : outcome W) evs :
  handle_field (s, cur, w) f = (w' ← m; mret (s, cur, w')) ->
  (m ⇓ fun w' => ready w' /\ sent w' = sent w ++ evs) ->
  handle_field (s, cur, w) f ⇓ fun '(s', cur', w') =>
    s' = s /\ cur' = cur /\ ready w' /\ sent w' = sent w ++ evs.
Proof. intros -> Hm. eapply returns_bind; [exact Hm|]. intros w' [??]. done. Qed.

(** What [handle_field] does to its locals and the channel. *)
Lemma handle_field_ok s cur w f :
  ready w -> value_ok f ->
  handle_field (s, cur, w) f ⇓ fun '(s', cur', w') =>
    s' = field_modifiers s f /\
    cur' = (match f with Selector u => btree_insert u tt cur | _ => cur end) /\
    ready w' /\ sent w' = sent w ++ field_events f.
Proof.
  intros Hw Hf. destruct s as [lc ls la lg rc rs ra rg].
  destruct f as [u|u v|p i|p i]; try (simpl; rewrite app_nil_r; done).
  destruct u; cbn [field_events field_modifiers set_modifier motion button map_button];
    try (simpl; rewrite app_nil_r; done);
    try (eapply handle_field_sends; [reflexivity|by apply send_if_moved_ok]);
    destruct (v =? 0) eqn:E;
    (eapply handle_field_sends; [cbn; rewrite E; reflexivity|by apply send_ok]).
Qed.

Lemma handle_fields_ok report : forall s cur w,
  ready w -> report_ok report ->
  ofold handle_field (s, cur, w) report ⇓ fun '(s', cur', w') =>
    s' = foldl field_modifiers s report /\
    cur' = foldl (fun m u => btree_insert u tt m) cur (selectors report) /\
    ready w' /\ sent w' = sent w ++ concat (field_events <$> report).
Proof.
  induction report as [|f report IH]; intros s cur w Hw Hr; cbn [ofold].
  { simpl. by rewrite app_nil_r. }
  apply Forall_cons_1 in Hr as [Hf Hr].
  eapply returns_bind; [by apply handle_field_ok|]. intros [[s' cur'] w'] (-> & -> & Hw' & Hs).
  eapply returns_weaken; [by apply IH|]. intros [[s'' cur''] w''] (-> & -> & ? & ->).
  split_and!; [done| |done|]. { by destruct f. } simpl. by rewrite Hs, <- app_assoc.
Qed.

(** The [filter_map] over the pressed keys. *)
Lemma update_all_ok s cur w pressed :
  ready w -> keys_sorted pressed -> Forall (fun e => mapped e.1 /\ 0 <= e.2 < 255) pressed ->
  ofold (update_pressed s) ([], cur, w) pressed ⇓ fun '(k, cur', w') =>
    k = kept cur pressed /\ cur' = fresh_keys cur pressed /\ ready w' /\
    sent w' = sent w ++ ((fun u => KeyReleased (key_of u) s) <$> released cur pressed).
Proof.
  intros Hw Hsort Hok.
  apply (ofold_invariant _ (fun seen '(k, cur', w') =>
    k = kept cur seen /\ cur' = fresh_keys cur seen /\ ready w' /\
    sent w' = sent w ++ ((fun u => KeyReleased (key_of u) s) <$> released cur seen))).
  { rewrite fresh_keys_nil. split_and!; [done..|by rewrite app_nil_r]. }
  intros seen [u c] rest [[k cur'] w'] E (-> & -> & Hw' & Hs).
  rewrite E in Hsort, Hok. pose proof (keys_before _ _ _ _ Hsort) as Hlt.
  apply Forall_app in Hok as [_ Hok]. apply Forall_cons_1 in Hok as [[Hmap Hc] _]. simpl in Hmap, Hc.
  assert (u ∉ seen.*1) as Hnew.
  { intros (e & Eu & He)%list_elem_of_fmap. rewrite Forall_forall in Hlt.
    specialize (Hlt e). rewrite <- list_elem_of_In in Hlt. specialize (Hlt He).
    rewrite <- Eu in Hlt. apply usage_cmp_lt in Hlt. lia. }
  assert (contains u (fresh_keys cur seen) = contains u cur) as Hcont.
  { apply eq_true_iff_eq. rewrite !contains_spec, elem_of_fresh. naive_solver. }
  unfold update_pressed. rewrite Hcont. unfold kept, released. rewrite !omap_app. cbn [omap list_omap fst snd].
  destruct (contains u cur) eqn:Hin.
  - rewrite wadd_in by (unfold is_unsigned; lia). simpl. split_and!.
    + apply btree_insert_last. apply Forall_forall. intros e He%list_elem_of_In.
      destruct e as [u' c']. apply elem_of_kept in He as [He _].
      rewrite Forall_forall in Hlt. by apply (Hlt (u', c' - 1)), list_elem_of_In.
    + by rewrite fresh_keys_snoc.
    + done.
    + by rewrite app_nil_r.
  - rewrite (mapped_key u Hmap). obind.
    eapply returns_bind; [by apply send_ok|]. intros w'' [? Hs'']. simpl. split_and!.
    + by rewrite app_nil_r.
    + by rewrite fresh_keys_snoc, remove_absent.
    + done.
    + by rewrite Hs'', Hs, fmap_app, <- app_assoc.
Qed.

Lemma press_new_ok s pressed w u :
  ready w -> mapped u ->
  press_new s (pressed, w) (u, tt) ⇓ fun '(p', w') =>
    p' = btree_insert u 1 pressed /\ ready w' /\ sent w' = sent w ++ [KeyPressed (key_of u) s].
Proof.
  intros Hw Hu. unfold press_new. simpl. rewrite (mapped_key u Hu). obind.
  eapply returns_bind; [by apply send_ok|]. done.
Qed.

(** The loop over the new keys. *)
Lemma press_all_ok s new : forall pressed w,
  ready w -> Forall (fun e => mapped e.1) new ->
  ofold (press_new s) (pressed, w) new ⇓ fun '(p', w') =>
    p' = press_all new pressed /\ ready w' /\
    sent w' = sent w ++ ((fun u => KeyPressed (key_of u) s) <$> new.*1).
Proof.
  induction new as [|[u []] new IH]; intros pressed w Hw Hok; cbn [ofold].
  { simpl. by rewrite app_nil_r. }
  apply Forall_cons_1 in Hok as [Hu Hok].
  eapply returns_bind; [by apply press_new_ok|].
  intros [p' w'] (-> & Hw' & Hs). eapply returns_weaken; [by apply IH|].
  intros [p'' w''] (-> & ? & ->). split_and!; [done|done|]. by rewrite Hs, <- app_assoc.
Qed.

Lemma handle_report_ok pressed w report :
  ready w -> report_ok report -> pressed_ok 254 pressed ->
  handle_report (pressed, w) report ⇓ fun '(pressed', w') =>
    pressed' = next_pressed report pressed /\ ready w' /\
    sent w' = sent w ++ report_events report pressed.
Proof.
  intros Hw Hr [Hs Hp]. unfold handle_report.
  eapply returns_bind; [by apply handle_fields_ok|]. intros [[s cur] w1] (-> & -> & Hw1 & Hs1).
  fold (modifiers report). fold (current_keys report).
  eapply returns_bind.
  { apply update_all_ok; [done|done|]. revert Hp. apply Forall_impl. intros e [??]. split; [done|lia]. }
  intros [[k cur'] w2] (-> & -> & Hw2 & Hs2).
  eapply returns_weaken.
  { apply press_all_ok; [done|]. apply Forall_forall. intros e He%list_elem_of_In.
    apply (selectors_mapped report); [done|]. apply elem_of_current_keys, list_elem_of_fmap_2.
    by apply list_elem_of_filter in He as [_ ?]. }
  intros [p' w3] (-> & ? & ->). split_and!; [done|done|].
  unfold report_events. by rewrite Hs2, Hs1, <- !app_assoc.
Qed.
End driver_spec.

(** ** A consumer of the events *)

Definition is_button (k : Key) : bool :=
  match k with BtnLeft | BtnMiddle | BtnRight | BtnSide | BtnExtra => true | _ => false end.

(** A consumer that tracks the keys held down: a key can only be pressed when it
    is up and released when it is down.  Mouse buttons, whose state every report
    repeats, and movements are not tracked. *)
Definition consume (held : list Key) (e : InputEvent) : option (list Key) :=
  match e with
  | KeyPressed k _ =>
      if is_button k then Some held else if decide (k ∈ held) then None else Some (k :: held)
  | KeyReleased k _ =>
      if is_button k then Some held
      else if decide (k ∈ held) then Some (filter (fun k' => k' <> k) held) else None
  | _ => Some held
  end.

Fixpoint replay (held : list Key) (evs : list InputEvent) : option (list Key) :=
  match evs with
  | [] => Some held
  | e :: evs => held' ← consume held e; replay held' evs
  end.

Lemma replay_app evs1 evs2 : forall held,
  replay held (evs1 ++ evs2) = (held' ← replay held evs1; replay held' evs2).
Proof.
  induction evs1 as [|e evs1 IH]; intros held; simpl; [done|].
  destruct (consume held e); simpl; [apply IH|done].
Qed.

(** The usage of a key, by search. *)
Definition usage_of (k : Key) : option Usage.t :=
  find (fun u => match map_key_usage u with Val k' => (key_index k' =? key_index k)%nat | Panic => false end)
    Usage.all.

Lemma usage_of_key u : mapped u -> usage_of (key_of u) = Some u.
Proof. intros [k Hk]. destruct u; (discriminate Hk || by vm_compute). Qed.

Lemma key_of_inj u1 u2 : mapped u1 -> mapped u2 -> key_of u1 = key_of u2 -> u1 = u2.
Proof. intros H1%usage_of_key H2%usage_of_key E. rewrite E in H1. congruence. Qed.

Lemma key_of_not_button u : mapped u -> is_button (key_of u) = false.
Proof. intros [k Hk]. destruct u; (discriminate Hk || done). Qed.

Lemma field_events_ignored f held : replay held (field_events f) = Some held.
Proof.
  destruct f as [|u v| |]; try done. unfold field_events.
  destruct u; simpl; try done; by destruct (v =? 0).
Qed.

Lemma report_fields_ignored report held : replay held (concat (field_events <$> report)) = Some held.
Proof.
  induction report as [|f report IH]; [done|]. cbn [fmap list_fmap concat].
  rewrite replay_app, field_events_ignored. apply IH.
Qed.

(** The keys of a list of usages. *)
Abbreviation keys us := (key_of <$> us).

Lemma elem_of_keys_of us u : Forall mapped us -> mapped u -> key_of u ∈ keys us <-> u ∈ us.
Proof.
  intros Hus Hu. split; [|apply list_elem_of_fmap_2]. intros (u' & E & Hin)%list_elem_of_fmap.
  rewrite Forall_forall in Hus. rewrite (key_of_inj u u'); try done. apply Hus. by apply list_elem_of_In.
Qed.

Lemma replay_released s us : forall held,
  NoDup us -> Forall mapped us -> (forall u, u ∈ us -> key_of u ∈ held) ->
  exists held', replay held ((fun u => KeyReleased (key_of u) s) <$> us) = Some held' /\
    forall k, k ∈ held' <-> k ∈ held /\ k ∉ keys us.
Proof.
  induction us as [|u us IH]; intros held Hnd Hus Hheld; rewrite ?fmap_nil, ?fmap_cons; cbn [replay consume].
  { exists held. split; [done|]. intros k. split; [|tauto]. intros ?. split; [done|apply not_elem_of_nil]. }
  apply list.NoDup_cons in Hnd as [Hnu Hnd]. apply Forall_cons_1 in Hus as [Hu Hus].
  rewrite key_of_not_button by done.
  rewrite decide_True by (apply Hheld; left). cbn [mbind option_bind].
  destruct (IH (filter (fun k' => k' <> key_of u) held)) as (held' & -> & Hheld'); [done|done| |].
  { intros u' Hu'. apply list_elem_of_filter. split; [|apply Hheld; by right].
    intros E. apply Hnu. rewrite <- (key_of_inj u' u); try done.
    rewrite Forall_forall in Hus. by apply Hus, list_elem_of_In. }
  exists held'. split; [done|]. intros k. rewrite Hheld', list_elem_of_filter, elem_of_cons. tauto.
Qed.

Lemma replay_pressed s us : forall held,
  NoDup us -> Forall mapped us -> (forall u, u ∈ us -> key_of u ∉ held) ->
  exists held', replay held ((fun u => KeyPressed (key_of u) s) <$> us) = Some held' /\
    forall k, k ∈ held' <-> k ∈ held \/ k ∈ keys us.
Proof.
  induction us as [|u us IH]; intros held Hnd Hus Hheld; rewrite ?fmap_nil, ?fmap_cons; cbn [replay consume].
  { exists held. split; [done|]. intros k. split; [by left|]. intros [?|Hk]; [done|by apply elem_of_nil in Hk]. }
  apply list.NoDup_cons in Hnd as [Hnu Hnd]. apply Forall_cons_1 in Hus as [Hu Hus].
  rewrite key_of_not_button by done.
  rewrite decide_False by (apply Hheld; left). cbn [mbind option_bind].
  destruct (IH (key_of u :: held)) as (held' & -> & Hheld'); [done|done| |].
  { intros u' Hu'. rewrite elem_of_cons. intros [E|E]; [|revert E; apply Hheld; by right].
    apply Hnu. rewrite <- (key_of_inj u' u); try done.
    rewrite Forall_forall in Hus. by apply Hus, list_elem_of_In. }
  exists held'. split; [done|]. intros k. rewrite Hheld', !elem_of_cons. tauto.
Qed.

Lemma released_fst cur pressed :
  released cur pressed = (filter (fun e => e.1 ∉ cur.*1) pressed).*1.
Proof.
  induction pressed as [|[u c] pressed IH]; [done|]. rewrite filter_cons. unfold released. simpl.
  destruct (contains u cur) eqn:E.
  - rewrite decide_False; [apply IH|]. apply contains_spec in E. tauto.
  - rewrite decide_True; [simpl; f_equal; apply IH|]. intros Hu%contains_spec. simpl in Hu. congruence.
Qed.

Lemma elem_of_released cur pressed u : u ∈ released cur pressed <-> u ∈ pressed.*1 /\ u ∉ cur.*1.
Proof.
  rewrite released_fst. split.
  - intros (c & [? ?]%list_elem_of_filter)%elem_of_keys. split; [|done]. apply elem_of_keys. eauto.
  - intros [(c & ?)%elem_of_keys ?]. apply elem_of_keys. exists c. by apply list_elem_of_filter.
Qed.

(** The consumer holds exactly the keys the driver takes as pressed. *)
Definition tracks (held : list Key) (pressed : PressedKeys) : Prop :=
  forall k, k ∈ held <-> k ∈ keys (pressed.*1).

Lemma pressed_mapped n pressed : pressed_ok n pressed -> Forall mapped pressed.*1.
Proof. intros [_ Hp]. apply Forall_fmap. revert Hp. apply Forall_impl. by intros e [? _]. Qed.

Lemma keys_next_pressed report pressed u :
  keys_sorted pressed -> u ∈ (next_pressed report pressed).*1 <-> u ∈ selectors report.
Proof.
  intros Hs. rewrite elem_of_keys. setoid_rewrite elem_of_next_pressed; [|done]. split; [naive_solver|].
  intros Hu. destruct (decide (u ∈ pressed.*1)) as [[c Hc]%elem_of_keys|Hn]; [|eauto].
  exists (c + 1). split; [done|left]. by replace (c + 1 - 1) with c by lia.
Qed.

Lemma report_events_tracked report pressed held n :
  report_ok report -> 0 <= n -> pressed_ok n pressed -> tracks held pressed ->
  exists held', replay held (report_events report pressed) = Some held' /\
    tracks held' (next_pressed report pressed).
Proof.
  unfold tracks. intros Hr Hn Hp Ht. set (cur := current_keys report).
  pose proof (pressed_mapped n pressed Hp) as Hpm. pose proof Hp as [Hs _].
  pose proof (current_keys_sorted report) as Hcs. fold cur in Hcs.
  assert (forall u, u ∈ cur.*1 -> mapped u) as Hcm
    by (intros u Hu%elem_of_current_keys; by eapply selectors_mapped).
  assert (Forall mapped (released cur pressed)) as Hrm.
  { apply Forall_forall. intros u [Hu _]%list_elem_of_In%elem_of_released.
    rewrite Forall_forall in Hpm. by apply Hpm, list_elem_of_In. }
  assert (Forall mapped (fresh_keys cur pressed).*1) as Hfm.
  { apply Forall_forall. intros u [Hu _]%list_elem_of_In%elem_of_fresh. by apply Hcm. }
  unfold report_events. fold cur. rewrite replay_app, report_fields_ignored. cbn [mbind option_bind].
  rewrite replay_app.
  destruct (replay_released (modifiers report) (released cur pressed) held) as (h1 & -> & Hh1);
    [rewrite released_fst; by apply sorted_NoDup, filter_sorted|done| |].
  { intros u [Hu _]%elem_of_released. by apply Ht, list_elem_of_fmap_2. }
  cbn [mbind option_bind].
  destruct (replay_pressed (modifiers report) (fresh_keys cur pressed).*1 h1) as (h2 & -> & Hh2);
    [by apply sorted_NoDup, filter_sorted|done| |].
  { intros u [Hu Hnp]%elem_of_fresh. rewrite Hh1, Ht. intros [Hk _]. apply Hnp.
    apply elem_of_keys_of in Hk; auto. }
  exists h2. split; [done|]. intros k. rewrite Hh2, Hh1, Ht, !list_elem_of_fmap.
  setoid_rewrite keys_next_pressed; [|done]. setoid_rewrite elem_of_fresh.
  setoid_rewrite elem_of_released. subst cur. setoid_rewrite elem_of_current_keys. split.
  - intros [[(u & -> & Hu) Hnr]|(u & -> & [Hu _])]; [|eauto].
    exists u. split; [done|]. destruct (decide (u ∈ selectors report)); [done|]. exfalso. eauto 10.
  - intros (u & -> & Hu). destruct (decide (u ∈ pressed.*1)) as [Hup|]; [left|right; eauto].
    split; [eauto|]. intros (u' & E & Hu' & Hns). apply Hns.
    rewrite <- (key_of_inj u u'); [done|..|done].
    + by eapply selectors_mapped.
    + rewrite Forall_forall in Hpm. by apply Hpm, list_elem_of_In.
Qed.

(** ** The theorems *)

(** A response the report loop handles: a transfer without data, or a report it
    can interpret. *)
Definition response_ok `{BitArray} (desc : ReportDescriptor) (r : DeviceResponse) : Prop :=
  match r with
  | Data d => exists report, interpret desc d = Val report /\ report_ok report
  | NoData => True
  | Descriptor _ _ _ => False
  end.

(** ** The events a sequence of reports stands for

    A report says which keys of the keyboard are down.  Its movements and the states
    of its buttons are reported as they are; then every key that was down and is not
    any more is released, and every key that is down and was not is pressed, with
    the report's modifiers. *)

(** The keys a report says are down, in the order of the usages. *)
Definition selected (report : list FieldValue) : list Usage.t := (current_keys report).*1.

Definition step_events (down : list Usage.t) (report : list FieldValue) : list InputEvent :=
  concat (field_events <$> report) ++
  ((fun u => KeyReleased (key_of u) (modifiers report)) <$> filter (fun u => u ∉ selectors report) down) ++
  ((fun u => KeyPressed (key_of u) (modifiers report)) <$> filter (fun u => u ∉ down) (selected report)).

Fixpoint stream (down : list Usage.t) (reports : list (list FieldValue)) : list InputEvent :=
  match reports with
  | [] => []
  | report :: reports => step_events down report ++ stream (selected report) reports
  end.

(** The keys down after the reports. *)
Definition down_after (reports : list (list FieldValue)) : list Usage.t :=
  match list.last reports with Some report => selected report | None => [] end.

Lemma stream_snoc reports r : forall down,
  stream down (reports ++ [r]) =
  stream down reports ++ step_events (match list.last reports with Some report => selected report | None => down end) r.
Proof.
  induction reports as [|r' reports IH]; intros down; cbn [app stream]; [by rewrite app_nil_r|].
  rewrite IH, <- app_assoc. do 2 f_equal. rewrite list.last_cons. by destruct (list.last reports).
Qed.

(** Maps with the same keys have them in the same order. *)
Lemma keys_sorted_unique {V V'} (m : list (Usage.t * V)) : forall m' : list (Usage.t * V'),
  keys_sorted m -> keys_sorted m' -> (forall u, u ∈ m.*1 <-> u ∈ m'.*1) -> m.*1 = m'.*1.
Proof.
  induction m as [|[u v] m IH]; intros [|[u' v'] m'] Hm Hm' He; [done|..].
  - exfalso. apply (not_elem_of_nil u'). apply He. left.
  - exfalso. apply (not_elem_of_nil u). apply He. left.
  - pose proof (usage_sorted_lt _ _ _ Hm) as Hlt. pose proof (usage_sorted_lt _ _ _ Hm') as Hlt'.
    destruct Hm as [_ Hm], Hm' as [_ Hm']. cbn [fmap list_fmap fst] in *.
    assert (forall x, x ∈ m.*1 -> (Usage.index u < Usage.index x)%nat) as Hl1
      by (intros x (c & Hx)%elem_of_keys; by apply (Hlt (x, c))).
    assert (forall x, x ∈ m'.*1 -> (Usage.index u' < Usage.index x)%nat) as Hl2
      by (intros x (c & Hx)%elem_of_keys; by apply (Hlt' (x, c))).
    assert (u = u') as ->.
    { pose proof (proj1 (He u) ltac:(left)) as H1. pose proof (proj2 (He u') ltac:(left)) as H2.
      apply elem_of_cons in H1 as [?|H1]; [done|]. apply elem_of_cons in H2 as [?|H2]; [done|].
      apply Hl2 in H1. apply Hl1 in H2. lia. }
    f_equal. apply IH; [done..|]. intros x. specialize (He x). rewrite !elem_of_cons in He. split; intros Hx.
    + destruct (proj1 He) as [->|?]; [by right| |done]. apply Hl1 in Hx. lia.
    + destruct (proj2 He) as [->|?]; [by right| |done]. apply Hl2 in Hx. lia.
Qed.

Lemma keys_filter {V} (P : Usage.t -> Prop) (d : forall e : Usage.t * V, Decision (P e.1))
    (d' : forall u, Decision (P u)) (m : list (Usage.t * V)) :
  (@filter _ _ _ (fun e => P e.1) d m).*1 = @filter _ _ _ P d' m.*1.
Proof.
  induction m as [|[u v] m IH]; [done|]. rewrite fmap_cons, !filter_cons. cbn [fst].
  unfold decide. destruct (d (u, v)), (d' u); rewrite ?fmap_cons; cbn [fst] in *; by rewrite ?IH.
Qed.

Lemma next_pressed_keys report pressed :
  keys_sorted pressed -> (next_pressed report pressed).*1 = selected report.
Proof.
  intros Hs. apply keys_sorted_unique; [by apply next_pressed_sorted|apply current_keys_sorted|].
  intros u. by rewrite keys_next_pressed, elem_of_current_keys.
Qed.

Lemma report_events_step report pressed : report_events report pressed = step_events pressed.*1 report.
Proof.
  unfold report_events, step_events, fresh_keys, selected. rewrite released_fst.
  rewrite (keys_filter (fun u => u ∉ (current_keys report).*1) _ (fun _ => _)).
  rewrite (keys_filter (fun u => u ∉ pressed.*1) _ (fun _ => _)).
  do 2 f_equal. f_equal. apply list_filter_iff. intros u. by rewrite elem_of_current_keys.
Qed.

Section runs.
Context {W : Type} `{InputChannelSpec W} `{BitArray} (desc : ReportDescriptor).

Definition run (ctx : PressedKeys * W) (rs : list DeviceResponse) : outcome (PressedKeys * W) :=
  ofold (report_loop desc) ctx rs.

(** The reports among the responses. *)
Definition report_of (r : DeviceResponse) : option (list FieldValue) :=
  match r with
  | Data d => match interpret desc d with Val report => Some report | Panic => None end
  | _ => None
  end.
Abbreviation reports rs := (omap report_of rs).

(** What holds after the responses [seen], of a driver that started with no key
    pressed and a channel that had carried [before]. *)
Definition consistent (before : list InputEvent) (seen : list DeviceResponse) (ctx : PressedKeys * W) : Prop :=
  let '(pressed, w) := ctx in
  ready w /\ pressed_ok (Z.of_nat (length seen)) pressed /\ pressed.*1 = down_after (reports seen) /\
  sent w = before ++ stream [] (reports seen) /\
  exists held, replay [] (stream [] (reports seen)) = Some held /\ tracks held pressed.

Lemma pressed_ok_weaken n m pressed : n <= m -> pressed_ok n pressed -> pressed_ok m pressed.
Proof.
  intros Hnm [Hs Hp]. split; [done|]. revert Hp. apply Forall_impl. intros e [??]. split; [done|lia].
Qed.

Lemma report_loop_consistent before seen ctx r :
  (length seen <= 254)%nat -> response_ok desc r -> consistent before seen ctx ->
  report_loop desc ctx r ⇓ consistent before (seen ++ [r]).
Proof.
  intros Hn Hr. destruct ctx as [pressed w]. intros (Hw & Hp & Hd & Hsent & held & Hre & Ht).
  destruct r as [d| |]; simpl in Hr; [|clear Hr|done]; unfold consistent; rewrite omap_app, length_app, Nat2Z.inj_add;
    cbn [omap list_omap report_of].
  - destruct Hr as (report & Hi & Hrep). rewrite Hi. simpl. rewrite Hi. obind.
    eapply returns_weaken; [apply handle_report_ok; [done|done|by apply (pressed_ok_weaken (Z.of_nat (length seen))); [lia|]]|].
    intros [pressed' w'] (-> & Hw' & Hs').
    destruct (report_events_tracked report pressed held (Z.of_nat (length seen))) as (held' & Hre' & Ht'); [done|lia|done|done|].
    assert (stream [] (reports seen ++ [report]) = stream [] (reports seen) ++ report_events report pressed) as Est.
    { rewrite stream_snoc, report_events_step, Hd. done. }
    split_and!; [done|by apply next_pressed_ok; [lia|..]| | |].
    + rewrite next_pressed_keys by apply Hp. unfold down_after. by rewrite list.last_snoc.
    + by rewrite Est, Hs', Hsent, app_assoc.
    + exists held'. by rewrite Est, replay_app, Hre.
  - simpl. rewrite app_nil_r. split_and!; [done|apply (pressed_ok_weaken (Z.of_nat (length seen))); [lia|done]|done|done|eauto].
Qed.

Lemma run_consistent before rs ctx :
  (length rs <= 255)%nat -> Forall (response_ok desc) rs -> consistent before [] ctx ->
  run ctx rs ⇓ consistent before rs.
Proof.
  intros Hlen Hrs Hc.
  apply (ofold_invariant _ (consistent before)); [done|].
  intros seen r rest ctx' E Hc'. rewrite E in Hlen, Hrs. rewrite length_app in Hlen. simpl in Hlen.
  apply report_loop_consistent; [lia| |done].
  rewrite Forall_forall in Hrs. apply Hrs, list_elem_of_In. apply elem_of_app. right. left.
Qed.

(** One report moves the driver from the keys pressed before to the keys the
    report selects: a key it still selects has been held for one more cycle, a
    new one for one, every other key is dropped; and it sends, in this order, the
    movements and button states of the report, a release for every dropped key and
    a press for every new key, each with the report's modifiers. *)
Lemma hid_report_step (pressed : PressedKeys) (w : W) (report : list FieldValue)
  (Hready : ready w) (Hreport : report_ok report) (Hpressed : pressed_ok 254 pressed) :
  handle_report (pressed, w) report ⇓ fun '(pressed', w') =>
    pressed_ok 255 pressed' /\
    (forall u c, (u, c) ∈ pressed' <->
      u ∈ selectors report /\ ((u, c - 1) ∈ pressed \/ u ∉ pressed.*1 /\ c = 1)) /\
    sent w' = sent w ++ report_events report pressed.
Proof.
  eapply returns_weaken; [by apply handle_report_ok|]. intros [p' w'] (-> & _ & Hs).
  split_and!; [by apply (next_pressed_ok 254); [lia|..]| |done].
  intros u c. by apply elem_of_next_pressed, Hpressed.
Qed.


(** *** A key held for too long *)

Lemma update_keeps s u l k cur w k' cur' w' :
  u ∉ l.*1 -> contains u cur = true ->
  ofold (update_pressed (W := W) s) (k, cur, w) l = Val (k', cur', w') -> contains u cur' = true.
Proof.
  revert k cur w. induction l as [|[u' c'] l IH]; intros k cur w Hu Hc E; cbn [ofold] in E.
  { apply Val_inj in E. by injection E as _ <- _. }
  apply bind_Val in E as ([[k1 cur1] w1] & E1 & E). rewrite fmap_cons, not_elem_of_cons in Hu.
  destruct Hu as [Hne Hu]. apply (IH k1 cur1 w1); [done| |done].
  unfold update_pressed in E1. destruct (contains u' cur).
  - outcome_inv. injection E1 as _ <- _. apply contains_spec, elem_of_keys.
    apply contains_spec, elem_of_keys in Hc as [[] ?]. exists tt. by apply elem_of_remove.
  - outcome_inv. by injection E1 as _ <- _.
Qed.

(** A key at the end of its counter that is still selected. *)
Lemma handle_report_panics pressed w report u :
  ready w -> report_ok report -> keys_sorted pressed -> (u, 255) ∈ pressed -> u ∈ selectors report ->
  handle_report (pressed, w) report = Panic.
Proof.
  intros Hw Hr Hs Hu Hsel. unfold handle_report.
  pose proof (handle_fields_ok report KeyState_default [] w Hw Hr) as Hf.
  apply returns_Val in Hf as ([[s cur] w1] & -> & _ & -> & _). obind. fold (current_keys report).
  apply list_elem_of_split in Hu as (l1 & l2 & ->). rewrite ofold_app.
  destruct (ofold (update_pressed s) _ l1) as [[[k cur] w2]|] eqn:E; [|done]. obind. cbn [ofold].
  apply (update_keeps s u) in E.
  - simpl. by rewrite E.
  - intros (c & Hc)%elem_of_keys. pose proof (keys_before _ _ _ _ Hs) as Hlt.
    rewrite Forall_forall in Hlt. specialize (Hlt (u, c)). rewrite <- list_elem_of_In in Hlt.
    specialize (Hlt Hc). apply usage_cmp_lt in Hlt. simpl in Hlt. lia.
  - by apply contains_spec, elem_of_current_keys.
Qed.

(** The counter of a key that [n] reports in a row select. *)
Lemma run_counts u d report w n :
  interpret desc d = Val report -> report_ok report -> u ∈ selectors report -> ready w ->
  (0 < n <= 255)%nat ->
  run ([], w) (replicate n (Data d)) ⇓ fun '(pressed, w') =>
    ready w' /\ pressed_ok (Z.of_nat n) pressed /\ (u, Z.of_nat n) ∈ pressed.
Proof.
  intros Hi Hr Hu Hw. induction n as [|n IH]; intros Hn; [lia|].
  unfold run in *. rewrite replicate_S_end, ofold_app.
  apply returns_bind with (fun '(pressed, w') => ready w' /\ pressed_ok (Z.of_nat n) pressed /\
    if decide (n = 0%nat) then pressed = [] else (u, Z.of_nat n) ∈ pressed).
  { destruct (decide (n = 0%nat)) as [->|]; [by split_and!|]. apply IH. lia. }
  intros [pressed w'] (Hw' & Hp & Hc). cbn [ofold report_loop]. rewrite Hi. obind.
  eapply returns_bind; [apply handle_report_ok; [done|done|by apply (pressed_ok_weaken (Z.of_nat n)); [lia|]]|].
  intros [p' w''] (-> & ? & _). simpl. split; [done|]. rewrite Nat2Z.inj_succ. unfold Z.succ.
  split; [apply next_pressed_ok; (done || lia)|].
  apply elem_of_next_pressed; [apply Hp|]. split; [done|].
  destruct (decide (n = 0%nat)) as [->|]; [subst; right; split; [apply not_elem_of_nil|done]|left].
  by replace (Z.of_nat n + 1 - 1) with (Z.of_nat n) by lia.
Qed.

(** A key held down for too long stops the driver: its 8-bit cycle counter
    is incremented without a bound, so after 255 reports in a row that select the
    same key the next one makes the addition overflow, and the driver panics. *)
Lemma hid_long_press_panics (u : Usage.t) (d : list Z) (report : list FieldValue) (w : W)
  (Hinterpret : interpret desc d = Val report) (Hreport : report_ok report)
  (Hu : u ∈ selectors report) (Hready : ready w) :
  (exists ctx, run ([], w) (replicate 255 (Data d)) = Val ctx) /\
  run ([], w) (replicate 256 (Data d)) = Panic.
Proof.
  pose proof (run_counts u d report w 255 Hinterpret Hreport Hu Hready ltac:(lia)) as H255.
  apply returns_Val in H255 as ([pressed w'] & E & Hw' & [Hs _] & Hc). split; [eauto|].
  unfold run in *. rewrite (replicate_S_end 255), ofold_app, E. obind.
  cbn [ofold report_loop]. rewrite Hinterpret. obind. by rewrite (handle_report_panics _ _ _ u).
Qed.

End runs.

(** ** A keyboard at work *)

Module DriverExample.
Import HidItems.Example.

#[local] Existing Instance reference_bit_array.

(** A channel that records what is sent. *)
#[local] Instance log_channel : InputChannel (list InputEvent) := {|
  SendError := unit;
  channel_send := fun e w => Val (Ok tt, w ++ [e]);
|}.

#[local, refine] Instance log_channel_spec : InputChannelSpec (list InputEvent) := {|
  ready := fun _ => True;
  sent := fun w => w;
|}.
Proof. done. Defined.

Definition keyboard_desc : ReportDescriptor := mkReportDescriptor keyboard_fields.
Definition values : list FieldValue := decode report 0 keyboard_fields.

Lemma values_ok : report_ok values.
Proof.
  unfold values. rewrite decode_keys. unfold HidItems.i32_range.
  repeat (constructor; [first [done | by eexists | simpl; lia]|]). constructor.
Qed.

Lemma interpret_values : interpret keyboard_desc report = Val values.
Proof. by vm_compute. Qed.

Definition shift : KeyState := mkKeyState false true false false false false false false.

Lemma keyboard_response : Forall (response_ok keyboard_desc) [Data report; NoData; Data (replicate 8 0)].
Proof.
  repeat constructor.
  - exists values. split; [apply interpret_values|apply values_ok].
  - eexists. split; [by vm_compute|]. unfold HidItems.i32_range.
    repeat (constructor; [first [done | by eexists | simpl; lia]|]). constructor.
Qed.


End DriverExample.
