(* ===== verification/GinkgoLex.v ===== *)
(** * [ginkgo/src/lex.rs]: the lexer of the Ginkgo language

    Characters are code points and a string is the list of its characters; the
    offsets and lengths of tokens count bytes of the UTF-8 encoding.  The
    [unicode_xid] crate is a parameter ([Crates]), as is the parsing of
    floating-point numbers, whose values no other part of the language uses. *)

From stdpp Require Import base tactics option list numbers.
From Stdlib Require Import (notations) Ascii String.
From S2P Require Import Prelude Crates.

(** Character and string literals. *)
Abbreviation ch a := ltac:(let x := eval vm_compute in (Z.of_N (Ascii.N_of_ascii a%char)) in exact x)
  (only parsing).
Abbreviation str s := ltac:(let x := eval vm_compute in
  (List.map (fun a => Z.of_N (Ascii.N_of_ascii a)) (Stdlib.Strings.String.list_ascii_of_string s%string)) in exact x)
  (only parsing).

(** ** Characters and string slices *)

(** [char::len_utf8]. *)
Definition len_utf8 (c : Z) : Z :=
  if c <? 128 then 1 else if c <? 2048 then 2 else if c <? 65536 then 3 else 4.

(** [str::len]. *)
Definition str_len (s : list Z) : Z := foldr (fun c n => len_utf8 c + n) 0 s.

(** The two parts of a string before and after its byte [n], which must lie
    between two characters. *)
Fixpoint split_bytes (n : Z) (s : list Z) : option (list Z * list Z) :=
  if n =? 0 then Some ([], s)
  else match s with
  | [] => None
  | c :: s =>
      if n <? len_utf8 c then None
      else '(a, b) ← split_bytes (n - len_utf8 c) s; Some (c :: a, b)
  end.

(** [&s[a..b]]. *)
Definition str_slice (s : list Z) (a b : Z) : outcome (list Z) :=
  unwrap ('(_, r) ← split_bytes a s; '(m, _) ← split_bytes (b - a) r; Some m).

(** [char::to_digit] and [char::is_digit]. *)
Definition to_digit (radix c : Z) : option Z :=
  let d :=
    if (ch "0" <=? c) && (c <=? ch "9") then Some (c - ch "0")
    else if (ch "a" <=? c) && (c <=? ch "z") then Some (c - ch "a" + 10)
    else if (ch "A" <=? c) && (c <=? ch "Z") then Some (c - ch "A" + 10)
    else None in
  match d with
  | Some d => if d <? radix then Some d else None
  | None => None
  end.
Definition is_digit (radix c : Z) : bool := bool_decide (is_Some (to_digit radix c)).

(** [usize::from_str_radix] and, with radix 10, [str::parse::<usize>]: an
    optional plus sign, at least one digit, and a value that fits. *)
Fixpoint digits_value (radix acc : Z) (s : list Z) : option Z :=
  match s with
  | [] => Some acc
  | c :: s =>
      d ← to_digit radix c;
      acc ← checked_mul acc radix;
      acc ← checked_add acc d;
      digits_value radix acc s
  end.
Definition from_str_radix (s : list Z) (radix : Z) : option Z :=
  match s with
  | [] => None
  | [c] => if c =? ch "+" then None else digits_value radix 0 s
  | c :: s' => if c =? ch "+" then digits_value radix 0 s' else digits_value radix 0 s
  end.

(** ** Tokens *)

Inductive TokenType :=
  | Plus | Minus | Dot | Equals | EqualEquals | Asterix | Slash | Colon | Semicolon | Comma
  | Bang | BangEquals | LeftParen | RightParen | LeftBrace | RightBrace
  | LessThan | LessEqual | GreaterThan | GreaterEqual | QuestionMark | Caret
  | Ampersand | AmpersandAmpersand | Pipe | PipePipe
  | TIdentifier | TString | TInteger | TDecimal
  | TLet | TIf | TElse | TFor | TLoop | TWhile | TTrue | TFalse | TReturn | TFn | TClass
  | GinkgoSelf.

#[global] Instance TokenType_eq_dec : EqDecision TokenType.
Proof. solve_decision. Defined.

Record Token := mkToken { typ : TokenType; tok_offset : Z; tok_length : Z }.

#[global] Instance Token_eq_dec : EqDecision Token.
Proof. solve_decision. Defined.

(** The errors of the lexer and of the parser.  [OutOfFuel] stands for a
    recursion of the parser that does not end: it is no error of the program, and
    never returned ([GinkgoParseTotal]). *)
Inductive Diagnostic :=
  | UnexpectedChar (c : Z)
  | NoFloatingPointHex
  | UnexpectedEndOfTokenStream (expected : TokenType)
  | EndOfTokenStreamInExpression
  | ExpectedTokenButGot (expected got : TokenType)
  | UnrecognisedPrefixOperator (op : TokenType)
  | UnrecognisedInfixOperator (op : TokenType)
  | OutOfFuel.

(** [f64] and [str::parse::<f64>]. *)
Class Float64 := {
  f64 : Type;
  parse_f64 : list Z -> option f64;
}.

(** ** [PeekingIter]: two items of lookahead *)

Module PeekingIter.

Record t (A : Type) := mk { inner : list A; peeked : option A; peeked_next : option A }.
Arguments mk {A} inner peeked peeked_next.
Arguments inner {A} t.
Arguments peeked {A} t.
Arguments peeked_next {A} t.

Section iter.
Context {A : Type}.

Definition new (l : list A) : t A := mk l None None.

Definition peek (it : t A) : option A * t A :=
  match peeked it with
  | Some p => (Some p, it)
  | None =>
      match inner it with
      | [] => (None, it)
      | a :: l => (Some a, mk l (Some a) (peeked_next it))
      end
  end.

Definition peek_next (it : t A) : outcome (option A * t A) :=
  match peeked it with
  | None => Panic
  | Some _ =>
      match peeked_next it with
      | Some p => Val (Some p, it)
      | None =>
          match inner it with
          | [] => Val (None, it)
          | a :: l => Val (Some a, mk l (peeked it) (Some a))
          end
      end
  end.

Definition next (it : t A) : option A * t A :=
  match peeked it with
  | Some p => (Some p, mk (inner it) (peeked_next it) None)
  | None =>
      match inner it with
      | [] => (None, it)
      | a :: l => (Some a, mk l None (peeked_next it))
      end
  end.

End iter.
End PeekingIter.

(** ** The lexer *)

Record Lex := mkLex {
  source : list Z;
  stream : PeekingIter.t Z;
  offset : Z;
  start_offset : Z;
  current_length : Z;
  lex_peek : option Token;
  lex_peek_next : option Token;
}.

Definition Lex_new (src : list Z) : Lex := mkLex src (PeekingIter.new src) 0 0 0 None None.

Definition with_stream (l : Lex) (it : PeekingIter.t Z) : Lex :=
  mkLex (source l) it (offset l) (start_offset l) (current_length l) (lex_peek l) (lex_peek_next l).
Definition with_span (l : Lex) (start len : Z) : Lex :=
  mkLex (source l) (stream l) (offset l) start len (lex_peek l) (lex_peek_next l).
Definition with_peeks (l : Lex) (p q : option Token) : Lex :=
  mkLex (source l) (stream l) (offset l) (start_offset l) (current_length l) p q.

(** [token_to_integer_literal]: every [unwrap] is a panic. *)
Definition token_to_integer_literal (value : list Z) : outcome Z :=
  match value with
  | [] => Panic
  | c :: rest =>
      if c =? ch "0" then
        match rest with
        | [] => Panic
        | c2 :: digits =>
            if c2 =? ch "b" then unwrap (from_str_radix digits 2)
            else if c2 =? ch "x" then unwrap (from_str_radix digits 16)
            else if c2 =? ch "o" then unwrap (from_str_radix digits 8)
            else unwrap (from_str_radix value 10)
        end
      else unwrap (from_str_radix value 10)
  end.

(** [advance]: offsets stay below the length of the source, which fits [usize]. *)
Definition advance (l : Lex) : option Z * Lex :=
  match PeekingIter.next (stream l) with
  | (Some c, it) =>
      (Some c, mkLex (source l) it (offset l + len_utf8 c) (start_offset l)
                 (current_length l + len_utf8 c) (lex_peek l) (lex_peek_next l))
  | (None, it) => (None, with_stream l it)
  end.

Definition stream_peek (l : Lex) : option Z * Lex :=
  let '(c, it) := PeekingIter.peek (stream l) in (c, with_stream l it).

Definition stream_peek_next (l : Lex) : outcome (option Z * Lex) :=
  '(c, it) ← PeekingIter.peek_next (stream l); Val (c, with_stream l it).

Definition produce (l : Lex) (t : TokenType) : Token := mkToken t (start_offset l) (current_length l).

(** What [next_no_peeking] returns: [Option<Result<Token>>]. *)
Abbreviation lexed := (option (result Token Diagnostic)).

(** The characters the stream still holds, and fuel for its loops: every
    iteration takes one character. *)
Definition chars_left (l : Lex) : nat :=
  (length (PeekingIter.inner (stream l)) + length (option_list (PeekingIter.peeked (stream l)))
   + length (option_list (PeekingIter.peeked_next (stream l))))%nat.

(** [while self.stream.peek().map_or(false, p) { self.advance(); }].  With
    [self.advance()?] as its body the loop is the same: after [peek] has returned
    a character [advance] does too. *)
Fixpoint advance_while (p : Z -> bool) (fuel : nat) (l : Lex) : outcome Lex :=
  match fuel with
  | O => Panic
  | S fuel =>
      let '(c, l) := stream_peek l in
      match c with
      | Some c => if p c then advance_while p fuel (advance l).2 else Val l
      | None => Val l
      end
  end.

(** One character, or two if the second is [c2]: the pattern of [=], [!], [<],
    [>], [&] and [|]. *)
Definition one_or_two (l : Lex) (c2 : Z) (t2 t1 : TokenType) : lexed * Lex :=
  let '(c, l) := stream_peek l in
  if bool_decide (c = Some c2)
  then let l := (advance l).2 in (Some (Ok (produce l t2)), l)
  else (Some (Ok (produce l t1)), l).

(** The arm of number literals, after the digit [c]. *)
Definition lex_number (c : Z) (l : Lex) : outcome (lexed * Lex) :=
  let '(p, l) := stream_peek l in
  let '(base, l) :=
    if (c =? ch "0") && bool_decide (p = Some (ch "x")) then (16, (advance l).2)
    else if bool_decide (p = Some (ch "b")) then (2, (advance l).2)
    else if bool_decide (p = Some (ch "o")) then (8, (advance l).2)
    else (10, l) in
  l ← advance_while (is_digit base) (S (chars_left l)) l;
  let '(p, l) := stream_peek l in
  '(float, l) ←
    (if bool_decide (p = Some (ch ".")) then
       '(q, l) ← stream_peek_next l;
       Val (match q with Some q => is_digit 10 q | None => false end, l)
     else Val (false, l));
  if float : bool then
    if negb (base =? 10) then Val (Some (Err NoFloatingPointHex), l)
    else
      let l := (advance l).2 in
      l ← advance_while (is_digit 10) (S (chars_left l)) l;
      Val (Some (Ok (produce l TDecimal)), l)
  else Val (Some (Ok (produce l TInteger)), l).

(** The arm of string literals, after the opening quote. *)
Definition lex_string (l : Lex) : outcome (lexed * Lex) :=
  l ← advance_while (fun c => negb (c =? 34)) (S (chars_left l)) l;
  match advance l with
  | (None, l) => Val (None, l)
  | (Some _, l) =>
      len ← usub (current_length l) 2;
      let l := with_span l (start_offset l + 1) len in
      Val (Some (Ok (produce l TString)), l)
  end.

(** The type of a word: a keyword or an identifier. *)
Definition keyword (word : list Z) : TokenType :=
  if decide (word = str "let") then TLet
  else if decide (word = str "if") then TIf
  else if decide (word = str "else") then TElse
  else if decide (word = str "for") then TFor
  else if decide (word = str "loop") then TLoop
  else if decide (word = str "while") then TWhile
  else if decide (word = str "true") then TTrue
  else if decide (word = str "false") then TFalse
  else if decide (word = str "return") then TReturn
  else if decide (word = str "fn") then TFn
  else if decide (word = str "class") then TClass
  else if decide (word = str "self") then GinkgoSelf
  else TIdentifier.

Section lex.
Context `{UnicodeXID}.

(** The arm of keywords and identifiers. *)
Definition lex_word (l : Lex) : outcome (lexed * Lex) :=
  l ← advance_while is_xid_continue (S (chars_left l)) l;
  word ← str_slice (source l) (start_offset l) (start_offset l + current_length l);
  Val (Some (Ok (produce l (keyword word))), l).

Fixpoint next_no_peeking_loop (fuel : nat) (l : Lex) : outcome (lexed * Lex) :=
  match fuel with
  | O => Panic
  | S fuel =>
      let l := with_span l (offset l) 0 in
      let one t l := Val (Some (Ok (produce l t)), l) in
      match advance l with
      | (None, l) => Val (None, l)
      | (Some c, l) =>
          if c =? ch "+" then one Plus l
          else if c =? ch "-" then one Minus l
          else if c =? ch "." then one Dot l
          else if c =? ch "=" then Val (one_or_two l (ch "=") EqualEquals Equals)
          else if c =? ch "*" then one Asterix l
          else if c =? ch ":" then one Colon l
          else if c =? ch ";" then one Semicolon l
          else if c =? ch "," then one Comma l
          else if c =? ch "!" then Val (one_or_two l (ch "=") BangEquals Bang)
          else if c =? ch "(" then one LeftParen l
          else if c =? ch ")" then one RightParen l
          else if c =? ch "{" then one LeftBrace l
          else if c =? ch "}" then one RightBrace l
          else if c =? ch "<" then Val (one_or_two l (ch "=") LessEqual LessThan)
          else if c =? ch ">" then Val (one_or_two l (ch "=") GreaterEqual GreaterThan)
          else if c =? ch "?" then one QuestionMark l
          else if c =? ch "^" then one Caret l
          else if c =? ch "&" then Val (one_or_two l (ch "&") AmpersandAmpersand Ampersand)
          else if c =? ch "|" then Val (one_or_two l (ch "|") PipePipe Pipe)
          else if c =? ch "/" then one Slash l
          else if (c =? 32) || (c =? 9) || (c =? 10) || (c =? 13) then next_no_peeking_loop fuel l
          else if is_digit 10 c then lex_number c l
          else if c =? 34 then lex_string l
          else if is_xid_start c || (c =? ch "_") then lex_word l
          else Val (Some (Err (UnexpectedChar c)), l)
      end
  end.

Definition next_no_peeking (l : Lex) : outcome (lexed * Lex) :=
  next_no_peeking_loop (S (chars_left l)) l.

(** [Lex::peek]. *)
Definition peek (l : Lex) : outcome (result (option Token) Diagnostic * Lex) :=
  match lex_peek l with
  | Some p => Val (Ok (Some p), l)
  | None =>
      '(r, l) ← next_no_peeking l;
      match r with
      | None => Val (Ok None, with_peeks l None (lex_peek_next l))
      | Some (Ok next) => Val (Ok (Some next), with_peeks l (Some next) (lex_peek_next l))
      | Some (Err e) => Val (Err e, with_peeks l None (lex_peek_next l))
      end
  end.

(** [Lex::peek_next]. *)
Definition peek_next (l : Lex) : outcome (result (option Token) Diagnostic * Lex) :=
  _ ← rassert (bool_decide (is_Some (lex_peek l)));
  match lex_peek_next l with
  | Some p => Val (Ok (Some p), l)
  | None =>
      '(r, l) ← next_no_peeking l;
      match r with
      | None => Val (Ok None, with_peeks l (lex_peek l) None)
      | Some (Ok next) => Val (Ok (Some next), with_peeks l (lex_peek l) (Some next))
      | Some (Err e) => Val (Err e, with_peeks l (lex_peek l) None)
      end
  end.

(** [Iterator::next]. *)
Definition next (l : Lex) : outcome (lexed * Lex) :=
  match lex_peek l with
  | Some p => Val (Some (Ok p), with_peeks l (lex_peek_next l) None)
  | None => next_no_peeking l
  end.

(** [Lex::token_value]. *)
Inductive TokenValue `{Float64} :=
  | Identifier (s : list Z)
  | String (s : list Z)
  | Integer (n : Z)
  | Decimal (f : f64).

Definition token_value `{Float64} (l : Lex) (token : Token) : outcome (option TokenValue) :=
  value ← str_slice (source l) (tok_offset token) (tok_offset token + tok_length token);
  match typ token with
  | TIdentifier => Val (Some (Identifier value))
  | TString => Val (Some (String value))
  | TInteger => n ← token_to_integer_literal value; Val (Some (Integer n))
  | TDecimal => f ← unwrap (parse_f64 value); Val (Some (Decimal f))
  | _ => Val None
  end.

End lex.
