(* ===== verification/GinkgoVm.v ===== *)
(** * [ginkgo/src/vm.rs], [ginkgo/src/object.rs]: Ginkgo's bytecode and its
    virtual machine

    An object is never changed after it was created and its address is never
    observed, so a pointer to an object ([Gc], [ErasedGc]) is the object.  A
    native function is its number in a table that is a parameter, together with
    the state of the world native functions act on.  Indices into vectors are
    natural numbers. *)

From stdpp Require Import base tactics option list numbers gmap.
From S2P Require Import Prelude Bytes Effects.

(** ** Vectors *)

(** [Vec::pop]. *)
Definition vec_pop {A} (l : list A) : option (A * list A) :=
  match last l with
  | Some a => Some (a, removelast l)
  | None => None
  end.

Lemma vec_pop_snoc {A} (l : list A) a : vec_pop (l ++ [a]) = Some (a, l).
Proof. unfold vec_pop. by rewrite last_snoc, removelast_last. Qed.

(** [Vec::insert]: panics beyond the end. *)
Definition vec_insert {A} (i : nat) (a : A) (l : list A) : outcome (list A) :=
  if decide (i <= length l)%nat then Val (take i l ++ a :: drop i l) else Panic.

(** [Vec::resize]. *)
Definition vec_resize {A} (n : nat) (a : A) (l : list A) : list A :=
  take n l ++ replicate (n - length l) a.

(** Arithmetic on [i64] with overflow checks. *)
Definition i64_fits (x : Z) : bool := (- 2 ^ 63 <=? x) && (x <? 2 ^ 63).
Definition checked_i64 (x : Z) : outcome Z := if i64_fits x then Val x else Panic.

(** ** Opcodes *)

Inductive Opcode :=
  | Return | Constant | Negate | Add | Subtract | Multiply | Divide | OTrue | OFalse
  | BitwiseAnd | BitwiseOr | BitwiseXor | Equal | NotEqual
  | OLessThan | OLessEqual | OGreaterThan | OGreaterEqual
  | Pop | DefineGlobal | GetGlobal | SetGlobal | GetLocal | SetLocal
  | Jump | JumpIfTrue | JumpIfFalse | Call | OUnit.

#[global] Instance Opcode_eq_dec : EqDecision Opcode.
Proof. solve_decision. Defined.

(** [op as u8]. *)
Definition opcode (op : Opcode) : Z :=
  match op with
  | Return => 0 | Constant => 1 | Negate => 2 | Add => 3 | Subtract => 4 | Multiply => 5
  | Divide => 6 | OTrue => 7 | OFalse => 8 | BitwiseAnd => 9 | BitwiseOr => 10
  | BitwiseXor => 11 | Equal => 12 | NotEqual => 13 | OLessThan => 14 | OLessEqual => 15
  | OGreaterThan => 16 | OGreaterEqual => 17 | Pop => 18 | DefineGlobal => 19
  | GetGlobal => 20 | SetGlobal => 21 | GetLocal => 22 | SetLocal => 23 | Jump => 24
  | JumpIfTrue => 25 | JumpIfFalse => 26 | Call => 27 | OUnit => 28
  end.

(** [Opcode::try_from]. *)
Definition opcodes : list Opcode :=
  [Return; Constant; Negate; Add; Subtract; Multiply; Divide; OTrue; OFalse; BitwiseAnd;
   BitwiseOr; BitwiseXor; Equal; NotEqual; OLessThan; OLessEqual; OGreaterThan; OGreaterEqual;
   Pop; DefineGlobal; GetGlobal; SetGlobal; GetLocal; SetLocal; Jump; JumpIfTrue; JumpIfFalse;
   Call; OUnit].
Definition opcode_try_from (b : Z) : option Opcode :=
  if b <? 0 then None else opcodes !! Z.to_nat b.

(** ** Values, objects and chunks *)

Inductive Value :=
  | VUnit
  | VInteger (n : Z)
  | VBool (b : bool)
  | VObj (o : Object)
with Object :=
  | GinkgoString (data : list Z)
  | GinkgoFunction (name : list Z) (arity : Z) (chunk : Chunk)
  | GinkgoNativeFunction (name : list Z) (func : Z)
with Chunk := mkChunk (code : list Z) (constants : list Value).

Inductive ObjType := OTString | OTFunction | OTNativeFunction.
Inductive ValueType := VTUnit | VTInteger | VTBool | VTObj (t : ObjType).

Definition code (c : Chunk) : list Z := let 'mkChunk code _ := c in code.
Definition constants (c : Chunk) : list Value := let 'mkChunk _ constants := c in constants.

Definition obj_typ (o : Object) : ObjType :=
  match o with
  | GinkgoString _ => OTString
  | GinkgoFunction _ _ _ => OTFunction
  | GinkgoNativeFunction _ _ => OTNativeFunction
  end.

Definition value_typ (v : Value) : ValueType :=
  match v with
  | VUnit => VTUnit
  | VInteger _ => VTInteger
  | VBool _ => VTBool
  | VObj o => VTObj (obj_typ o)
  end.

Definition as_integer (v : Value) : option Z :=
  match v with VInteger n => Some n | _ => None end.
Definition as_bool (v : Value) : option bool :=
  match v with VBool b => Some b | _ => None end.
(** [as_obj::<GinkgoString>] and [as_str]. *)
Definition as_string (v : Value) : option (list Z) :=
  match v with VObj (GinkgoString s) => Some s | _ => None end.

(** [object_eq]: comparing a function is [todo!()]. *)
Definition object_eq (l r : Object) : outcome bool :=
  match l with
  | GinkgoString l =>
      match r with
      | GinkgoString r => Val (bool_decide (l = r))
      | _ => Val false
      end
  | GinkgoFunction _ _ _ => Panic
  | GinkgoNativeFunction _ _ => Panic
  end.

(** [PartialEq] and [PartialOrd]; ordering objects is [todo!()]. *)
Definition value_eq (l r : Value) : outcome bool :=
  match l, r with
  | VInteger l, VInteger r => Val (l =? r)
  | VBool l, VBool r => Val (Bool.eqb l r)
  | VObj l, VObj r => object_eq l r
  | _, _ => Val false
  end.
Definition partial_cmp (l r : Value) : outcome (option comparison) :=
  match l, r with
  | VInteger l, VInteger r => Val (Some (l ?= r))
  | VBool l, VBool r => Val (Some (Bool.compare l r))
  | VObj _, VObj _ => Panic
  | _, _ => Val None
  end.

(** *** [Chunk]'s operations, used by the parser *)

Definition chunk_new : Chunk := mkChunk [] [].
Definition chunk_push (c : Chunk) (byte : Z) : Chunk := mkChunk (code c ++ [byte]) (constants c).
Definition create_constant (c : Chunk) (v : Value) : nat * Chunk :=
  (length (constants c), mkChunk (code c) (constants c ++ [v])).
Definition pop_last (c : Chunk) : option Z * Chunk :=
  match vec_pop (code c) with
  | Some (b, code) => (Some b, mkChunk code (constants c))
  | None => (None, c)
  end.
Definition pop_last_op (c : Chunk) : option Opcode * Chunk :=
  let '(b, c) := pop_last c in (b ← b; opcode_try_from b, c).
Definition current_offset (c : Chunk) : nat := length (code c).

(** [i16::try_from(d).unwrap().to_le_bytes()]. *)
Definition i16_bytes (d : Z) : outcome (list Z) :=
  if (- 2 ^ 15 <=? d) && (d <? 2 ^ 15) then Val (to_le_bytes 2 d) else Panic.

(** [vec[i] = a]: panics out of range. *)
Definition vec_set {A} (i : nat) (a : A) (l : list A) : outcome (list A) :=
  if decide (i < length l)%nat then Val (<[i := a]> l) else Panic.

Definition patch_jump (c : Chunk) (jump_operand_offset : nat) : outcome Chunk :=
  bytes ← i16_bytes (Z.of_nat (length (code c)) - Z.of_nat jump_operand_offset - 2);
  code1 ← vec_set jump_operand_offset (nth 0 bytes 0) (code c);
  code2 ← vec_set (jump_operand_offset + 1) (nth 1 bytes 0) code1;
  Val (mkChunk code2 (constants c)).

(** ** The virtual machine *)

(** The errors of the virtual machine. *)
Inductive VmError :=
  | CannotNegateValue (typ : ValueType)
  | NoSuchGlobal (name : list Z)
  | AssignToUndefined (name : list Z)
  | WrongTypeForOperation (expected got : ValueType)
  | ValueNotCallable (got : ValueType)
  | InvalidOpcodeInStream (opcode : Z).

(** The functions behind [GinkgoNativeFunction]s and what they act on. *)
Class Natives := {
  World : Type;
  native : Z -> list Value -> World -> outcome (Value * World);
}.

Record CallFrame := mkCallFrame { frame_chunk : Chunk; frame_ip : nat; frame_slot_offset : nat }.

Section vm.
Context `{Natives}.

Record Vm := mkVm {
  stack : list Value;
  vm_chunk : option Chunk;
  ip : nat;
  slot_offset : nat;
  call_stack : list CallFrame;
  globals : gmap (list Z) Value;
  world : World;
}.

Definition Vm_new (w : World) : Vm := mkVm [] None 0 0 [] ∅ w.

Definition set_stack (st : list Value) (vm : Vm) : Vm :=
  mkVm st (vm_chunk vm) (ip vm) (slot_offset vm) (call_stack vm) (globals vm) (world vm).
Definition set_ip (i : nat) (vm : Vm) : Vm :=
  mkVm (stack vm) (vm_chunk vm) i (slot_offset vm) (call_stack vm) (globals vm) (world vm).
Definition set_globals (g : gmap (list Z) Value) (vm : Vm) : Vm :=
  mkVm (stack vm) (vm_chunk vm) (ip vm) (slot_offset vm) (call_stack vm) g (world vm).
Definition set_world (w : World) (vm : Vm) : Vm :=
  mkVm (stack vm) (vm_chunk vm) (ip vm) (slot_offset vm) (call_stack vm) (globals vm) w.
(** What a call and a return replace: the chunk, the position in it and the
    base of the locals. *)
Definition set_frame (f : CallFrame) (cs : list CallFrame) (vm : Vm) : Vm :=
  mkVm (stack vm) (Some (frame_chunk f)) (frame_ip f) (frame_slot_offset f) cs (globals vm) (world vm).

Definition define_global (name : list Z) (v : Value) (vm : Vm) : Vm :=
  set_globals (<[name := v]> (globals vm)) vm.
Definition define_native_fn (name : list Z) (func : Z) (vm : Vm) : Vm :=
  define_global name (VObj (GinkgoNativeFunction name func)) vm.

Abbreviation VM := (M Vm VmError).

Definition push (v : Value) : VM unit := modify (fun vm => set_stack (stack vm ++ [v]) vm).
Definition pop : VM Value :=
  vm ← get;
  '(v, st) ← lift (unwrap (vec_pop (stack vm)));
  _ ← put (set_stack st vm); mret v.
Definition last_value : VM Value := vm ← get; lift (unwrap (last (stack vm))).

(** [Vm::next]: the next byte of the chunk. *)
Definition next : VM Z :=
  vm ← get;
  c ← lift (unwrap (vm_chunk vm));
  byte ← lift (unwrap (code c !! ip vm));
  _ ← put (set_ip (S (ip vm)) vm); mret byte.

Definition get_constant (index : Z) : VM Value :=
  vm ← get;
  c ← lift (unwrap (vm_chunk vm));
  lift (unwrap (constants c !! Z.to_nat index)).

(** [i16::from_le_bytes([self.next(), self.next()])]. *)
Definition next_i16 : VM Z :=
  b0 ← next; b1 ← next; mret (to_signed 2 (from_le_bytes [b0; b1])).

(** [self.ip = self.ip.checked_add_signed(d).unwrap()]. *)
Definition jump_by (d : Z) : VM unit :=
  vm ← get;
  _ ← lift (rassert (unsigned_fits 64 (Z.of_nat (ip vm) + d)));
  put (set_ip (Z.to_nat (Z.of_nat (ip vm) + d)) vm).

(** [left < right] and its like on [PartialOrd]. *)
Definition compare_with (p : comparison -> bool) (l r : Value) : outcome bool :=
  o ← partial_cmp l r;
  Val (match o with Some c => p c | None => false end).

(** The operators of [do_binary_op]: integer operators [unwrap] the operands. *)
Definition binary_op (op : Opcode) (left_ right_ : Value) : outcome Value :=
  let arith f :=
    l ← unwrap (as_integer left_); r ← unwrap (as_integer right_);
    n ← (f l r : outcome Z); Val (VInteger n) in
  let test (b : outcome bool) := b ← b; Val (VBool b) in
  match op with
  | Add => arith (fun l r => checked_i64 (l + r))
  | Subtract => arith (fun l r => checked_i64 (l - r))
  | Multiply => arith (fun l r => checked_i64 (l * r))
  | Divide => arith (fun l r => if r =? 0 then Panic else checked_i64 (Z.quot l r))
  | BitwiseAnd => arith (fun l r => Val (Z.land l r))
  | BitwiseOr => arith (fun l r => Val (Z.lor l r))
  | BitwiseXor => arith (fun l r => Val (Z.lxor l r))
  | Equal => test (value_eq left_ right_)
  | NotEqual => test (b ← value_eq left_ right_; Val (negb b))
  | OLessThan => test (compare_with (fun c => match c with Lt => true | _ => false end) left_ right_)
  | OLessEqual => test (compare_with (fun c => match c with Gt => false | _ => true end) left_ right_)
  | OGreaterThan => test (compare_with (fun c => match c with Gt => true | _ => false end) left_ right_)
  | OGreaterEqual => test (compare_with (fun c => match c with Lt => false | _ => true end) left_ right_)
  | _ => Panic
  end.

Definition do_binary_op (op : Opcode) : VM unit :=
  r ← pop; l ← pop;
  v ← lift (binary_op op l r);
  push v.

(** [JumpIfTrue] and [JumpIfFalse]: the condition stays on the stack. *)
Definition jump_if (b : bool) : VM unit :=
  d ← next_i16;
  v ← last_value;
  match v with
  | VBool result => if Bool.eqb result b then jump_by d else mret tt
  | _ => fail (WrongTypeForOperation VTBool (value_typ v))
  end.

Definition op_return : VM bool :=
  vm ← get;
  match vec_pop (call_stack vm) with
  | Some (frame, frames) =>
      v ← pop;
      _ ← modify (fun vm => set_stack (vec_resize (slot_offset vm) VUnit (stack vm)) vm);
      _ ← push v;
      _ ← modify (set_frame frame frames);
      mret true
  | None => mret false
  end.

(** The name in constant [index]. *)
Definition constant_name (index : Z) : VM (list Z) :=
  v ← get_constant index; lift (unwrap (as_string v)).

Definition op_set_global : VM unit :=
  index ← next;
  v ← pop;
  name ← constant_name index;
  _ ← push v;
  vm ← get;
  _ ← put (set_globals (<[name := v]> (globals vm)) vm);
  match globals vm !! name with
  | Some _ => mret tt
  | None =>
      _ ← modify (fun vm => set_globals (delete name (globals vm)) vm);
      fail (AssignToUndefined name)
  end.

Definition op_call : VM unit :=
  arg_count ← next;
  vm ← get;
  let argc := Z.to_nat arg_count in
  let len := length (stack vm) in
  _ ← lift (rassert (bool_decide (argc + 1 <= len)%nat));
  called ← lift (unwrap (stack vm !! (len - argc - 1)%nat));
  match called with
  | VObj (GinkgoFunction _ _ chunk) =>
      old_chunk ← lift (unwrap (vm_chunk vm));
      put (set_frame (mkCallFrame chunk 0 (slot_offset vm + (len - argc - 1)))
             (call_stack vm ++ [mkCallFrame old_chunk (ip vm) (slot_offset vm)]) vm)
  | VObj (GinkgoNativeFunction _ func) =>
      '(v, w) ← lift (native func (drop (len - argc) (stack vm)) (world vm));
      _ ← put (set_world w (set_stack (vec_resize (len - argc - 1) VUnit (stack vm)) vm));
      push v
  | VObj o => fail (ValueNotCallable (VTObj (obj_typ o)))
  | _ => fail (ValueNotCallable (value_typ called))
  end.

(** One iteration of [interpret]'s loop; [false] is [break]. *)
Definition step : VM bool :=
  b ← next;
  match opcode_try_from b with
  | None => fail (InvalidOpcodeInStream b)
  | Some op =>
      match op with
      | Return => op_return
      | Constant =>
          index ← next; v ← get_constant index; _ ← push v; mret true
      | OTrue => _ ← push (VBool true); mret true
      | OFalse => _ ← push (VBool false); mret true
      | Negate =>
          v ← pop;
          match v with
          | VInteger n => m ← lift (checked_i64 (- n)); _ ← push (VInteger m); mret true
          | _ => fail (CannotNegateValue (value_typ v))
          end
      | Add | Subtract | Multiply | Divide | BitwiseAnd | BitwiseOr | BitwiseXor | Equal | NotEqual
      | OLessThan | OLessEqual | OGreaterThan | OGreaterEqual => _ ← do_binary_op op; mret true
      | Pop => _ ← pop; mret true
      | DefineGlobal =>
          v ← pop;
          name ← lift (unwrap (as_string v));
          v ← pop;
          _ ← modify (define_global name v);
          mret true
      | GetGlobal =>
          index ← next;
          name ← constant_name index;
          vm ← get;
          match globals vm !! name with
          | Some v => _ ← push v; mret true
          | None => fail (NoSuchGlobal name)
          end
      | SetGlobal => _ ← op_set_global; mret true
      | GetLocal =>
          slot ← next;
          vm ← get;
          v ← lift (unwrap (stack vm !! (slot_offset vm + Z.to_nat slot)%nat));
          _ ← push v; mret true
      | SetLocal =>
          slot ← next;
          v ← last_value;
          vm ← get;
          st ← lift (vec_insert (Z.to_nat slot) v (stack vm));
          _ ← put (set_stack st vm); mret true
      | Jump => d ← next_i16; _ ← jump_by d; mret true
      | JumpIfTrue => _ ← jump_if true; mret true
      | JumpIfFalse => _ ← jump_if false; mret true
      | Call => _ ← op_call; mret true
      | OUnit => _ ← push VUnit; mret true
      end
  end.

(** The loop of [interpret]; a script may run forever, so it has fuel. *)
Fixpoint run (fuel : nat) : VM unit :=
  match fuel with
  | O => panic
  | S fuel => continue ← step; if continue : bool then run fuel else mret tt
  end.

Definition interpret (fuel : nat) (chunk : Chunk) : VM Value :=
  _ ← modify (fun vm => mkVm (stack vm) (Some chunk) 0 (slot_offset vm) (call_stack vm) (globals vm) (world vm));
  _ ← run fuel;
  mret VUnit.

End vm.
