(* ===== verification/GinkgoParse.v ===== *)
(** * [ginkgo/src/parse.rs]: Ginkgo's one-pass compiler

    A Pratt parser that emits bytecode as it goes.  The parselets registered by
    [register_parselets] never change afterwards: the tables are functions of the
    token type, and a parselet is a constructor that names its closure.  The
    recursion of [expression] and of [statement] has fuel; [expression] and
    [statement] take more of it than the input can use ([GinkgoParseTotal] proves
    that). *)

From stdpp Require Import base tactics option list numbers.
From S2P Require Import Prelude Bytes Crates Effects GinkgoLex GinkgoVm.

(** ** The state of the compiler *)

Record Local := mkLocal { local_name : list Z; local_depth : nat }.

Record Function := mkFunction { chunk : Chunk; scope_depth : nat; locals : list Local }.
Definition Function_new : Function := mkFunction chunk_new 0 [].

Record Parser := mkParser {
  lexer : Lex;
  current_function : Function;
  func_stack : list Function;
}.

Definition Parser_new (src : list Z) : Parser := mkParser (Lex_new src) Function_new [].

Definition set_lexer (l : Lex) (p : Parser) : Parser := mkParser l (current_function p) (func_stack p).
Definition set_function (f : Function) (p : Parser) : Parser := mkParser (lexer p) f (func_stack p).
Definition set_chunk (c : Chunk) (p : Parser) : Parser :=
  let f := current_function p in set_function (mkFunction c (scope_depth f) (locals f)) p.
Definition set_locals (ls : list Local) (p : Parser) : Parser :=
  let f := current_function p in set_function (mkFunction (chunk f) (scope_depth f) ls) p.
Definition set_depth (d : nat) (p : Parser) : Parser :=
  let f := current_function p in set_function (mkFunction (chunk f) d (locals f)) p.

Definition parser_code (p : Parser) : list Z := code (chunk (current_function p)).

Abbreviation P := (M Parser Diagnostic).

(** Enough fuel for the recursions of the parser: the characters and the tokens
    the lexer still holds. *)
Definition tokens_left (p : Parser) : nat :=
  (chars_left (lexer p) + length (option_list (lex_peek (lexer p)))
   + length (option_list (lex_peek_next (lexer p))))%nat.

Section parse.
Context `{UnicodeXID} `{Float64}.

(** ** The token stream *)

(** [self.stream.peek()?]. *)
Definition peek_token : P (option Token) := fun p =>
  '(r, l) ← peek (lexer p);
  match r with
  | Ok t => Val (Ok t, set_lexer l p)
  | Err e => Val (Err e, set_lexer l p)
  end.

(** [self.stream.next()], an error of the lexer being returned. *)
Definition next_token : P (option Token) := fun p =>
  '(r, l) ← GinkgoLex.next (lexer p);
  match r with
  | None => Val (Ok None, set_lexer l p)
  | Some (Ok t) => Val (Ok (Some t), set_lexer l p)
  | Some (Err e) => Val (Err e, set_lexer l p)
  end.

(** [self.stream.token_value(token)]. *)
Definition value_of (t : Token) : P (option TokenValue) :=
  p ← get; lift (token_value (lexer p) t).

Definition matches (t : TokenType) : P bool :=
  token ← peek_token;
  match token with
  | Some token =>
      if decide (typ token = t) then _ ← next_token; mret true else mret false
  | None => mret false
  end.

Definition consume (t : TokenType) : P (option Token) :=
  token ← next_token;
  match token with
  | Some token =>
      if decide (typ token = t) then mret (Some token)
      else fail (ExpectedTokenButGot t (typ token))
  | None => fail (UnexpectedEndOfTokenStream t)
  end.

Definition identifier : P (list Z) :=
  token ← consume TIdentifier;
  token ← lift (unwrap token);
  v ← value_of token;
  match v with
  | Some (Identifier name) => mret name
  | _ => panic
  end.

(** ** Emitting code *)

Definition emit_raw (byte : Z) : P unit :=
  modify (fun p => set_chunk (chunk_push (chunk (current_function p)) byte) p).
Definition emit (op : Opcode) : P unit := emit_raw (opcode op).
Definition emit2 (op : Opcode) (operand : Z) : P unit :=
  _ ← emit_raw (opcode op); emit_raw operand.

Definition emit_jump (jump : Opcode) : P nat :=
  _ ← emit jump;
  p ← get;
  _ ← emit_raw 0; _ ← emit_raw 0;
  mret (current_offset (chunk (current_function p))).

Definition emit_jump_to (jump : Opcode) (target : nat) : P unit :=
  _ ← emit jump;
  p ← get;
  bytes ← lift (i16_bytes (Z.of_nat target - (Z.of_nat (current_offset (chunk (current_function p))) + 2)));
  _ ← emit_raw (nth 0 bytes 0);
  emit_raw (nth 1 bytes 0).

Definition patch (jump_operand_offset : nat) : P unit :=
  p ← get;
  c ← lift (patch_jump (chunk (current_function p)) jump_operand_offset);
  put (set_chunk c p).

(** [self.current_function.chunk.create_constant(v)], and the index [as u8]. *)
Definition constant (v : Value) : P Z :=
  p ← get;
  let '(i, c) := create_constant (chunk (current_function p)) v in
  _ ← put (set_chunk c p);
  mret (Z.of_nat i mod 256).

(** ** Scopes *)

Definition push_local (name : list Z) : P unit :=
  modify (fun p => set_locals (locals (current_function p) ++
                     [mkLocal name (scope_depth (current_function p))]) p).

Definition begin_scope : P unit :=
  modify (fun p => set_depth (S (scope_depth (current_function p))) p).

Fixpoint emit_pops (n : nat) : P unit :=
  match n with
  | O => mret tt
  | S n => _ ← emit Pop; emit_pops n
  end.

Definition end_scope : P unit :=
  p ← get;
  let f := current_function p in
  _ ← lift (rassert (negb (scope_depth f =? 0)%nat));
  let depth := (scope_depth f - 1)%nat in
  _ ← put (set_depth depth p);
  let locals_to_pop := length (filter (fun l => depth < local_depth l)%nat (locals f)) in
  _ ← emit_pops locals_to_pop;
  modify (fun p => set_locals (take (length (locals f) - locals_to_pop) (locals f)) p).

(** ** Parselets *)

Inductive PrefixParselet :=
  | PIdentifier | PInteger | PString | PBool | PNegate | PGroup.

Definition prefix_for (t : TokenType) : option PrefixParselet :=
  match t with
  | TIdentifier => Some PIdentifier
  | TInteger => Some PInteger
  | TString => Some PString
  | TTrue => Some PBool
  | TFalse => Some PBool
  | Minus => Some PNegate
  | LeftParen => Some PGroup
  | _ => None
  end.

Inductive InfixParselet := IBinary | IAnd | IOr | IAssign | ICall.

Definition PRECEDENCE_ASSIGNMENT := 1.
Definition PRECEDENCE_LOGICAL_OR := 2.
Definition PRECEDENCE_LOGICAL_AND := 3.
Definition PRECEDENCE_CONDITIONAL := 4.
Definition PRECEDENCE_BITWISE_OR := 5.
Definition PRECEDENCE_BITWISE_XOR := 6.
Definition PRECEDENCE_BITWISE_AND := 7.
Definition PRECEDENCE_SUM := 8.
Definition PRECEDENCE_PRODUCT := 9.
Definition PRECEDENCE_PREFIX := 11.
Definition PRECEDENCE_CALL := 14.

(** The operator and the precedence [binary_op] looks up for its token. *)
Definition binary_operator (t : TokenType) : option (Opcode * Z) :=
  match t with
  | Plus => Some (Add, PRECEDENCE_SUM)
  | Minus => Some (Subtract, PRECEDENCE_SUM)
  | Asterix => Some (Multiply, PRECEDENCE_PRODUCT)
  | Slash => Some (Divide, PRECEDENCE_PRODUCT)
  | Ampersand => Some (BitwiseAnd, PRECEDENCE_BITWISE_AND)
  | Pipe => Some (BitwiseOr, PRECEDENCE_BITWISE_OR)
  | Caret => Some (BitwiseXor, PRECEDENCE_BITWISE_XOR)
  | EqualEquals => Some (Equal, PRECEDENCE_CONDITIONAL)
  | BangEquals => Some (NotEqual, PRECEDENCE_CONDITIONAL)
  | GreaterThan => Some (OGreaterThan, PRECEDENCE_CONDITIONAL)
  | GreaterEqual => Some (OGreaterEqual, PRECEDENCE_CONDITIONAL)
  | LessThan => Some (OLessThan, PRECEDENCE_CONDITIONAL)
  | LessEqual => Some (OLessEqual, PRECEDENCE_CONDITIONAL)
  | _ => None
  end.

(** [infix_parselets] and [precedence], as [register_infix] fills them. *)
Definition infix_entry (t : TokenType) : option (Z * InfixParselet) :=
  match t with
  | Plus | Minus => Some (PRECEDENCE_SUM, IBinary)
  | Asterix | Slash => Some (PRECEDENCE_PRODUCT, IBinary)
  | Ampersand => Some (PRECEDENCE_BITWISE_AND, IBinary)
  | Pipe => Some (PRECEDENCE_BITWISE_OR, IBinary)
  | Caret => Some (PRECEDENCE_BITWISE_XOR, IBinary)
  | EqualEquals | BangEquals | GreaterThan | GreaterEqual | LessThan | LessEqual =>
      Some (PRECEDENCE_CONDITIONAL, IBinary)
  | AmpersandAmpersand => Some (PRECEDENCE_LOGICAL_AND, IAnd)
  | PipePipe => Some (PRECEDENCE_LOGICAL_OR, IOr)
  | Equals => Some (PRECEDENCE_ASSIGNMENT, IAssign)
  | LeftParen => Some (PRECEDENCE_CALL, ICall)
  | _ => None
  end.
Definition precedence_for (t : TokenType) : option Z := fst <$> infix_entry t.
Definition infix_for (t : TokenType) : option InfixParselet := snd <$> infix_entry t.

(** The last local with the name, as the parselet of identifiers finds it. *)
Fixpoint find_local (name : list Z) (ls : list Local) (i : nat) : option nat :=
  match ls with
  | [] => None
  | l :: ls =>
      match find_local name ls (S i) with
      | Some j => Some j
      | None => if decide (local_name l = name) then Some i else None
      end
  end.

Definition identifier_parselet (t : Token) : P unit :=
  v ← value_of t;
  match v with
  | Some (Identifier name) =>
      p ← get;
      match find_local name (locals (current_function p)) 0 with
      | Some i => emit2 GetLocal (Z.of_nat i mod 256)
      | None => k ← constant (VObj (GinkgoString name)); emit2 GetGlobal k
      end
  | _ => panic
  end.

(** [value as i64]. *)
Definition as_i64 (n : Z) : Z := to_signed 8 (n mod 2 ^ 64).

Definition integer_parselet (t : Token) : P unit :=
  v ← value_of t;
  match v with
  | Some (Integer n) => k ← constant (VInteger (as_i64 n)); emit2 Constant k
  | _ => panic
  end.

Definition string_parselet (t : Token) : P unit :=
  v ← value_of t;
  match v with
  | Some (String s) => k ← constant (VObj (GinkgoString s)); emit2 Constant k
  | _ => panic
  end.

Definition bool_parselet (t : Token) : P unit :=
  match typ t with
  | TTrue => emit OTrue
  | TFalse => emit OFalse
  | _ => panic
  end.

(** The left-hand side of an assignment: its code is taken back. *)
Definition take_place : P (Z * Opcode) :=
  p ← get;
  let '(operand, c) := pop_last (chunk (current_function p)) in
  operand ← lift (unwrap operand);
  let '(op, c) := pop_last_op c in
  _ ← put (set_chunk c p);
  match op with
  | Some GetGlobal => mret (operand, SetGlobal)
  | Some GetLocal => mret (operand, SetLocal)
  | _ => panic
  end.

(** [expression], its loop over infix operators, and the parselets that parse
    further expressions. *)
Fixpoint expression_fuel (fuel : nat) (precedence : Z) : P unit :=
  match fuel with
  | O => fail OutOfFuel
  | S fuel =>
      token ← next_token;
      match token with
      | None => fail EndOfTokenStreamInExpression
      | Some token =>
          match prefix_for (typ token) with
          | None => fail (UnrecognisedPrefixOperator (typ token))
          | Some prefix =>
              _ ← prefix_fuel fuel prefix token;
              infix_loop fuel precedence
          end
      end
  end
with infix_loop (fuel : nat) (precedence : Z) : P unit :=
  match fuel with
  | O => fail OutOfFuel
  | S fuel =>
      next ← peek_token;
      let continue :=
        match next with
        | Some next =>
            match precedence_for (typ next) with
            | Some next_precedence => precedence <? next_precedence
            | None => false
            end
        | None => false
        end in
      if continue then
        next ← next_token;
        next ← lift (unwrap next);
        match infix_for (typ next) with
        | None => fail (UnrecognisedInfixOperator (typ next))
        | Some infix => _ ← infix_fuel fuel infix next; infix_loop fuel precedence
        end
      else mret tt
  end
with prefix_fuel (fuel : nat) (parselet : PrefixParselet) (token : Token) : P unit :=
  match fuel with
  | O => fail OutOfFuel
  | S fuel =>
      match parselet with
      | PIdentifier => identifier_parselet token
      | PInteger => integer_parselet token
      | PString => string_parselet token
      | PBool => bool_parselet token
      | PNegate => _ ← expression_fuel fuel PRECEDENCE_PREFIX; emit Negate
      | PGroup => _ ← expression_fuel fuel 0; _ ← consume RightParen; mret tt
      end
  end
with infix_fuel (fuel : nat) (parselet : InfixParselet) (token : Token) : P unit :=
  match fuel with
  | O => fail OutOfFuel
  | S fuel =>
      match parselet with
      | IBinary =>
          match binary_operator (typ token) with
          | Some (op, precedence) => _ ← expression_fuel fuel precedence; emit op
          | None => panic
          end
      | IAnd =>
          jump ← emit_jump JumpIfFalse;
          _ ← emit Pop;
          _ ← expression_fuel fuel PRECEDENCE_LOGICAL_AND;
          patch jump
      | IOr =>
          jump ← emit_jump JumpIfTrue;
          _ ← emit Pop;
          _ ← expression_fuel fuel PRECEDENCE_LOGICAL_OR;
          patch jump
      | IAssign =>
          '(operand, op) ← take_place;
          _ ← expression_fuel fuel (PRECEDENCE_ASSIGNMENT - 1);
          emit2 op operand
      | ICall => arg_count ← call_args fuel 0; emit2 Call arg_count
      end
  end
with call_args (fuel : nat) (arg_count : Z) : P Z :=
  match fuel with
  | O => fail OutOfFuel
  | S fuel =>
      close ← matches RightParen;
      if close : bool then mret arg_count
      else
        _ ← expression_fuel fuel 0;
        _ ← matches Comma;
        arg_count ← lift (wadd 8 arg_count 1);
        call_args fuel arg_count
  end.

Definition expression (precedence : Z) : P unit := fun p =>
  expression_fuel (S (4 * tokens_left p)) precedence p.

(** ** Statements *)

(** Bind the value on the stack to a global. *)
Definition define_global_code (name : list Z) : P unit :=
  k ← constant (VObj (GinkgoString name));
  _ ← emit2 Constant k;
  emit DefineGlobal.

Definition let_statement : P unit :=
  name ← identifier;
  p ← get;
  _ ← (if decide (0 < scope_depth (current_function p))%nat then push_local name else mret tt);
  _ ← consume Equals;
  _ ← expression 0;
  _ ← consume Semicolon;
  p ← get;
  if decide (scope_depth (current_function p) = 0)%nat then define_global_code name else mret tt.

(** The parameters of a function, up to the closing parenthesis; the number of
    them. *)
Fixpoint params_loop (fuel : nat) (arity : Z) : P Z :=
  match fuel with
  | O => fail OutOfFuel
  | S fuel =>
      name ← identifier;
      arity ← lift (uadd arity 1);
      _ ← push_local name;
      comma ← matches Comma;
      if comma : bool then params_loop fuel arity else mret arity
  end.
Definition params : P Z := fun p => params_loop (S (tokens_left p)) 0 p.

Definition return_statement : P unit :=
  semicolon ← matches Semicolon;
  if semicolon : bool then _ ← emit OUnit; emit Return
  else _ ← expression 0; _ ← consume Semicolon; emit Return.

Definition expression_statement : P unit :=
  _ ← expression 0;
  semicolon ← matches Semicolon;
  if semicolon : bool then emit Pop else mret tt.

(** [mem::replace(&mut self.current_function, Function::new())], the old
    function going to the stack, and back. *)
Definition enter_function : P unit :=
  modify (fun p => mkParser (lexer p) Function_new (func_stack p ++ [current_function p])).
Definition leave_function : P Function :=
  p ← get;
  '(f, fs) ← lift (unwrap (vec_pop (func_stack p)));
  _ ← put (mkParser (lexer p) f fs);
  mret (current_function p).

Fixpoint statement_fuel (fuel : nat) : P unit :=
  match fuel with
  | O => fail OutOfFuel
  | S fuel =>
      is_let ← matches TLet;
      if is_let : bool then let_statement else
      is_block ← matches LeftBrace;
      if is_block : bool then
        _ ← begin_scope; _ ← block_loop fuel; end_scope
      else
      is_if ← matches TIf;
      if is_if : bool then
        _ ← expression 0;
        then_jump ← emit_jump JumpIfFalse;
        _ ← emit Pop;
        _ ← consume LeftBrace;
        _ ← begin_scope; _ ← block_loop fuel; _ ← end_scope;
        else_jump ← emit_jump Jump;
        _ ← patch then_jump;
        _ ← emit Pop;
        has_else ← matches TElse;
        _ ← (if has_else : bool then
               _ ← consume LeftBrace;
               _ ← begin_scope; _ ← block_loop fuel; end_scope
             else mret tt);
        patch else_jump
      else
      is_while ← matches TWhile;
      if is_while : bool then
        p ← get;
        let loop_jump := current_offset (chunk (current_function p)) in
        _ ← expression 0;
        exit_jump ← emit_jump JumpIfFalse;
        _ ← emit Pop;
        _ ← consume LeftBrace;
        _ ← begin_scope; _ ← block_loop fuel; _ ← end_scope;
        _ ← emit_jump_to Jump loop_jump;
        patch exit_jump
      else
      is_fn ← matches TFn;
      if is_fn : bool then function_decl fuel else
      is_return ← matches TReturn;
      if is_return : bool then return_statement else expression_statement
  end
(** [while !self.matches(TokenType::RightBrace)? { self.statement()?; }]. *)
with block_loop (fuel : nat) : P unit :=
  match fuel with
  | O => fail OutOfFuel
  | S fuel =>
      close ← matches RightBrace;
      if close : bool then mret tt
      else _ ← statement_fuel fuel; block_loop fuel
  end
with function_decl (fuel : nat) : P unit :=
  match fuel with
  | O => fail OutOfFuel
  | S fuel =>
      name ← identifier;
      _ ← enter_function;
      _ ← begin_scope;
      _ ← push_local name;
      _ ← consume LeftParen;
      no_params ← matches RightParen;
      arity ← (if no_params : bool then mret 0
               else arity ← params; _ ← consume RightParen; mret arity);
      _ ← consume LeftBrace;
      _ ← block_loop fuel;
      _ ← end_scope;
      function ← leave_function;
      k ← constant (VObj (GinkgoFunction name arity (chunk function)));
      _ ← emit2 Constant k;
      p ← get;
      if decide (scope_depth (current_function p) = 0)%nat then define_global_code name else mret tt
  end.

Definition statement : P unit := fun p => statement_fuel (S (2 * tokens_left p)) p.

(** [Parser::parse]: statements up to the end of the tokens. *)
Fixpoint parse_loop (fuel : nat) : P unit :=
  match fuel with
  | O => fail OutOfFuel
  | S fuel =>
      token ← peek_token;
      match token with
      | Some _ => _ ← statement; parse_loop fuel
      | None => mret tt
      end
  end.

Definition parse : P Chunk := fun p =>
  (_ ← parse_loop (S (tokens_left p));
   _ ← emit Return;
   p ← get;
   mret (chunk (current_function p))) p.

End parse.
