(* ===== verification/GinkgoLexCorrect.v ===== *)
(** * Correctness of the Ginkgo lexer

    The lexer's state splits its source into what was read before the current
    token, the current token and the rest ([at_token]).  Every call of [next]
    returns, makes progress and gives a token whose span is the text it was read
    from; a list of tokens written out with white space between them is read back
    as these tokens. *)

From stdpp Require Import base tactics option list numbers.
From Stdlib Require Import (notations) Ascii String.
From S2P Require Import Prelude Crates GinkgoLex.

(** ** Strings by bytes *)

Lemma len_utf8_pos c : 0 < len_utf8 c.
Proof. unfold len_utf8. repeat case_match; lia. Qed.

Lemma str_len_app a b : str_len (a ++ b) = str_len a + str_len b.
Proof. induction a as [|c a IH]; simpl; [done|]. unfold str_len in *. simpl. lia. Qed.

Lemma str_len_cons c s : str_len (c :: s) = len_utf8 c + str_len s.
Proof. done. Qed.

Lemma str_len_snoc s c : str_len (s ++ [c]) = str_len s + len_utf8 c.
Proof. rewrite str_len_app, str_len_cons. simpl. lia. Qed.

Lemma str_len_nonneg s : 0 <= str_len s.
Proof.
  induction s as [|c s IH]; [done|]. rewrite str_len_cons. pose proof (len_utf8_pos c). lia.
Qed.

Lemma split_bytes_app a b : split_bytes (str_len a) (a ++ b) = Some (a, b).
Proof.
  induction a as [|c a IH]; cbn [app].
  { destruct b; done. }
  pose proof (len_utf8_pos c). pose proof (str_len_nonneg a). rewrite str_len_cons. cbn [split_bytes].
  replace (_ =? 0) with false by lia. replace (_ <? _) with false by lia.
  replace (len_utf8 c + str_len a - len_utf8 c) with (str_len a) by lia.
  by rewrite IH.
Qed.

Lemma str_slice_mid a m b :
  str_slice (a ++ m ++ b) (str_len a) (str_len a + str_len m) = Val m.
Proof.
  unfold str_slice. rewrite split_bytes_app. simpl.
  replace (_ + _ - _) with (str_len m) by lia. by rewrite split_bytes_app.
Qed.

(** ** The characters of a [PeekingIter] *)

Section iter.
Context {A : Type}.
Implicit Types it : PeekingIter.t A.

Definition items it : list A :=
  option_list (PeekingIter.peeked it) ++ option_list (PeekingIter.peeked_next it) ++ PeekingIter.inner it.

(** The second lookahead item is there only if the first is. *)
Definition iter_ok it : Prop := is_Some (PeekingIter.peeked_next it) -> is_Some (PeekingIter.peeked it).

Lemma iter_peek it : iter_ok it ->
  exists it', PeekingIter.peek it = (head (items it), it') /\ iter_ok it' /\ items it' = items it /\
    PeekingIter.peeked it' = head (items it).
Proof.
  destruct it as [l [p|] [q|]]; unfold iter_ok, items, PeekingIter.peek; simpl; intros Hok.
  - eauto 10.
  - eauto 10.
  - destruct Hok; [eauto|done].
  - destruct l as [|a l]; simpl.
    + eexists; split_and!; [done|done|done|done].
    + eexists; split_and!; [done|by intros [??]|done|done].
Qed.

Lemma iter_next it : iter_ok it ->
  exists it', PeekingIter.next it = (head (items it), it') /\ iter_ok it' /\ items it' = tail (items it).
Proof.
  destruct it as [l [p|] [q|]]; unfold iter_ok, items, PeekingIter.next; simpl; intros Hok.
  - eexists; split_and!; [done|by intros [??]|done].
  - eexists; split_and!; [done|by intros [??]|done].
  - destruct Hok; [eauto|done].
  - destruct l as [|a l]; simpl; eexists; split_and!; try done; by intros [??].
Qed.

Lemma iter_peek_next it : iter_ok it -> is_Some (PeekingIter.peeked it) ->
  exists it', PeekingIter.peek_next it = Val (items it !! 1%nat, it') /\ iter_ok it' /\
    items it' = items it.
Proof.
  destruct it as [l [p|] [q|]]; unfold iter_ok, items, PeekingIter.peek_next; simpl; intros Hok [? Hp];
    simplify_eq.
  - eauto.
  - destruct l as [|a l]; simpl; eexists; split_and!; try done; by intros [??].
Qed.

End iter.

(** ** The state between and inside tokens *)

(** [before] was read before the current token, [token] is what was read of it,
    [rest] is not read yet. *)
Record at_token (l : Lex) (before token rest : list Z) : Prop := {
  at_iter : iter_ok (stream l);
  at_items : items (stream l) = rest;
  at_source : source l = before ++ token ++ rest;
  at_offset : offset l = str_len before + str_len token;
  at_start : start_offset l = str_len before;
  at_length : current_length l = str_len token;
}.

(** [l] is between two tokens. *)
Record between (l : Lex) (before rest : list Z) : Prop := {
  bt_iter : iter_ok (stream l);
  bt_items : items (stream l) = rest;
  bt_source : source l = before ++ rest;
  bt_offset : offset l = str_len before;
}.

(** The lookahead tokens and the source, which lexing a token leaves alone. *)
Record same_peeks (l l' : Lex) : Prop := {
  same_source : source l' = source l;
  same_peek : lex_peek l' = lex_peek l;
  same_peek_next : lex_peek_next l' = lex_peek_next l;
}.

#[global] Instance same_peeks_preorder : PreOrder same_peeks.
Proof. split; [by split|intros ??? [] []; split; congruence]. Qed.

Lemma between_new src : between (Lex_new src) [] src.
Proof. split; try done. by intros [??]. Qed.

Lemma chars_left_items l : chars_left l = length (items (stream l)).
Proof. unfold chars_left, items. rewrite !length_app. lia. Qed.

Lemma at_between l before token rest :
  at_token l before token rest -> between l (before ++ token) rest.
Proof.
  intros []. split; [done..| |].
  - by rewrite <- app_assoc.
  - by rewrite str_len_app.
Qed.

Lemma start_token l before rest :
  between l before rest ->
  at_token (with_span l (offset l) 0) before [] rest /\ same_peeks l (with_span l (offset l) 0).
Proof. intros []. split; [|done]. split; simpl; try done. lia. Qed.

Lemma advance_some l before token c rest :
  at_token l before token (c :: rest) ->
  exists l', advance l = (Some c, l') /\ at_token l' before (token ++ [c]) rest /\ same_peeks l l'.
Proof.
  intros [Hi Hit Hs Ho Hst Hl]. unfold advance.
  destruct (iter_next (stream l) Hi) as (it' & -> & Hi' & Hit'). rewrite Hit in *. simpl in *.
  eexists. split; [done|]. split; [|done]. split; simpl; [done..| | | |].
  - rewrite Hs. by rewrite <- app_assoc.
  - rewrite str_len_snoc. lia.
  - done.
  - rewrite str_len_snoc. lia.
Qed.

Lemma advance_none l before token :
  at_token l before token [] ->
  exists l', advance l = (None, l') /\ at_token l' before token [] /\ same_peeks l l'.
Proof.
  intros [Hi Hit Hs Ho Hst Hl]. unfold advance.
  destruct (iter_next (stream l) Hi) as (it' & -> & Hi' & Hit'). rewrite Hit in *. simpl in *.
  eexists. split; [done|]. by split.
Qed.

Lemma stream_peek_at l before token rest :
  at_token l before token rest ->
  exists l', stream_peek l = (head rest, l') /\ at_token l' before token rest /\ same_peeks l l' /\
    PeekingIter.peeked (stream l') = head rest.
Proof.
  intros [Hi Hit Hs Ho Hst Hl]. unfold stream_peek.
  destruct (iter_peek (stream l) Hi) as (it' & -> & Hi' & Hit' & Hp'). rewrite Hit in *. simpl in *.
  eexists. split; [done|]. split_and!; [by split|done..].
Qed.

Lemma stream_peek_next_at l before token c rest :
  at_token l before token (c :: rest) -> is_Some (PeekingIter.peeked (stream l)) ->
  exists l', stream_peek_next l = Val (head rest, l') /\ at_token l' before token (c :: rest) /\
    same_peeks l l'.
Proof.
  intros [Hi Hit Hs Ho Hst Hl] Hp. unfold stream_peek_next.
  destruct (iter_peek_next (stream l) Hi Hp) as (it' & -> & Hi' & Hit'). rewrite Hit in *. simpl in *.
  eexists. split; [by destruct rest|]. by split.
Qed.

(** ** The loops *)

(** The longest prefix whose characters satisfy [p], and the rest. *)
Fixpoint span (p : Z -> bool) (s : list Z) : list Z * list Z :=
  match s with
  | [] => ([], [])
  | c :: s' => if p c then let '(a, b) := span p s' in (c :: a, b) else ([], s)
  end.

Lemma span_app p s : (span p s).1 ++ (span p s).2 = s.
Proof.
  induction s as [|c s IH]; simpl; [done|]. destruct (p c); [|done].
  destruct (span p s); simpl in *. by f_equal.
Qed.

(** A word of characters that satisfy [p], followed by one that does not. *)
Lemma span_word p w rest :
  Forall (fun c => p c = true) w -> (forall c, head rest = Some c -> p c = false) ->
  span p (w ++ rest) = (w, rest).
Proof.
  intros Hw Hr. induction Hw as [|c w Hc _ IH]; simpl.
  - destruct rest as [|c rest]; simpl; [done|]. by rewrite (Hr c).
  - by rewrite Hc, IH.
Qed.

Lemma advance_while_at p fuel : forall l before token rest,
  at_token l before token rest -> (length rest < fuel)%nat ->
  exists l', advance_while p fuel l = Val l' /\
    at_token l' before (token ++ (span p rest).1) (span p rest).2 /\ same_peeks l l'.
Proof.
  induction fuel as [|fuel IH]; intros l before token rest Hl Hf; [lia|].
  cbn [advance_while]. destruct (stream_peek_at l before token rest Hl) as (l1 & -> & Hl1 & Hs1 & _).
  destruct rest as [|c rest]; cbn [head span].
  { exists l1. rewrite app_nil_r. done. }
  destruct (p c).
  - destruct (advance_some l1 before token c rest Hl1) as (l2 & -> & Hl2 & Hs2).
    destruct (IH l2 before (token ++ [c]) rest Hl2) as (l3 & E & Hl3 & Hs3); [simpl in Hf; lia|].
    exists l3. simpl. rewrite E. destruct (span p rest) as [a b]. simpl in *.
    split; [done|]. split; [by rewrite <- app_assoc in Hl3|]. by rewrite Hs1, Hs2.
  - exists l1. rewrite app_nil_r. done.
Qed.

Lemma advance_while_ok p l before token rest :
  at_token l before token rest ->
  exists l', advance_while p (S (chars_left l)) l = Val l' /\
    at_token l' before (token ++ (span p rest).1) (span p rest).2 /\ same_peeks l l'.
Proof.
  intros Hl. apply advance_while_at; [done|]. rewrite chars_left_items, (at_items _ _ _ _ Hl). lia.
Qed.

(** ** One token *)

(** White space, as [next_no_peeking] skips it. *)
Definition whitespace (c : Z) : bool := (c =? 32) || (c =? 9) || (c =? 10) || (c =? 13).

(** [t] is the token of type [ty] with the given text, read by going from [l],
    at [before], over white space, the text and (for strings) the quotes around
    it to [l']. *)
Record reads (l l' : Lex) (before rest : list Z) (t : Token) (ty : TokenType) (text : list Z) : Prop := {
  reads_typ : typ t = ty;
  reads_span : exists skipped after,
    between l' (before ++ skipped ++ text ++ after) rest /\
    tok_offset t = str_len (before ++ skipped) /\ tok_length t = str_len text /\
    if decide (ty = TString)
    then exists ws, skipped = ws ++ [34] /\ Forall (fun c => whitespace c = true) ws /\ after = [34]
    else Forall (fun c => whitespace c = true) skipped /\ after = [] /\ text <> [];
  reads_peeks : same_peeks l l';
}.

Lemma reads_slice l l' before rest t ty text :
  reads l l' before rest t ty text ->
  str_slice (source l) (tok_offset t) (tok_offset t + tok_length t) = Val text.
Proof.
  intros [_ (sk & af & Hb & -> & -> & _) [Hs _ _]]. rewrite <- Hs, (bt_source _ _ _ Hb).
  replace ((before ++ sk ++ text ++ af) ++ rest) with ((before ++ sk) ++ text ++ af ++ rest)
    by (by rewrite <- !app_assoc).
  apply str_slice_mid.
Qed.

Lemma reads_rest l l' before rest t ty text :
  reads l l' before rest t ty text -> exists before', before' <> before /\ between l' before' rest.
Proof.
  intros [_ (sk & af & Hb & _ & _ & Hc) _]. eexists; split; [|exact Hb].
  intros E. rewrite <- (app_nil_r before) in E at 2. apply app_inv_head in E.
  destruct (decide _) as [|].
  - destruct Hc as (ws & -> & _). by destruct ws.
  - destruct Hc as (_ & _ & Ht). by destruct sk, text.
Qed.

(** A token read without skipping anything. *)
Lemma reads_here l0 l before w rest ty :
  at_token l before w rest -> same_peeks l0 l -> w <> [] -> ty <> TString ->
  reads l0 l before rest (produce l ty) ty w.
Proof.
  intros Hl Hs Hw Hty. split; [done| |done]. exists [], []. rewrite !app_nil_r. simpl.
  split; [by apply at_between|]. rewrite decide_False by done. by destruct Hl.
Qed.

(** White space in front of a token. *)
Lemma reads_skip l0 l l' before c rest t ty text :
  whitespace c = true -> same_peeks l0 l ->
  reads l l' (before ++ [c]) rest t ty text -> reads l0 l' before rest t ty text.
Proof.
  intros Hc Hs [Ht (sk & af & Hb & Ho & Hl & Hd) Hp]. split; [done| |by rewrite Hs].
  exists (c :: sk), af. rewrite <- !app_assoc in *. simpl in *. split_and!; [done..|].
  destruct (decide _).
  - destruct Hd as (ws & -> & Hws & ->). exists (c :: ws). split; [done|]. by split; [constructor|].
  - destruct Hd as (? & ? & ?). split; [by constructor|done].
Qed.

Lemma one_or_two_at l0 l before c rest c2 t2 t1 :
  at_token l before [c] rest -> same_peeks l0 l -> t1 <> TString -> t2 <> TString ->
  exists r l' w rest', one_or_two l c2 t2 t1 = (Some (Ok r), l') /\ rest = w ++ rest' /\
    reads l0 l' before rest' r (if decide (head rest = Some c2) then t2 else t1) (c :: w) /\
    w = (if decide (head rest = Some c2) then [c2] else []).
Proof.
  intros Hl Hs H1 H2. unfold one_or_two.
  destruct (stream_peek_at l before [c] rest Hl) as (l1 & -> & Hl1 & Hs1 & _).
  destruct (decide (head rest = Some c2)) as [E|E].
  - rewrite bool_decide_eq_true_2 by done. destruct rest as [|c' rest]; simplify_eq/=.
    destruct (advance_some l1 before [c] c2 rest Hl1) as (l2 & -> & Hl2 & Hs2). simpl.
    eexists _, l2, [c2], rest. split_and!; try done.
    apply reads_here; [done|by rewrite Hs, Hs1|done..].
  - rewrite bool_decide_eq_false_2 by done.
    eexists _, l1, [], rest. split_and!; try done.
    apply reads_here; [done|by rewrite Hs, Hs1|done..].
Qed.

Lemma lex_string_at l0 l before rest :
  at_token l before [34] rest -> same_peeks l0 l -> is_usize (str_len (source l)) ->
  let '(s, rest1) := span (fun c => negb (c =? 34)) rest in
  exists l', same_peeks l0 l' /\
  match rest1 with
  | [] => lex_string l = Val (None, l') /\ between l' (before ++ [34] ++ s) []
  | _ :: rest' => exists t, lex_string l = Val (Some (Ok t), l') /\ reads l0 l' before rest' t TString s
  end.
Proof.
  intros Hl Hs Hu. unfold lex_string.
  destruct (advance_while_ok (fun c => negb (c =? 34)) l before [34] rest Hl) as (l1 & -> & Hl1 & Hs1).
  pose proof (span_app (fun c => negb (c =? 34)) rest) as Happ.
  destruct (span (fun c => negb (c =? 34)) rest) as [s [|q rest']] eqn:Es; cbn [fst snd] in *; obind.
  - destruct (advance_none l1 before _ Hl1) as (l2 & -> & Hl2 & Hs2).
    exists l2. split; [by rewrite Hs, Hs1|]. split; [done|]. by apply at_between in Hl2.
  - assert (q = 34) as ->.
    { clear -Es. revert s Es. induction rest as [|c rest IH]; simpl; [done|]; intros s Es.
      destruct (Z.eqb_spec c 34); simpl in *; [by simplify_eq|].
      destruct (span _ rest); simplify_eq. eauto. }
    destruct (advance_some l1 before _ 34 rest' Hl1) as (l2 & -> & Hl2 & Hs2).
    pose proof (str_len_nonneg s) as Hs0.
    assert (current_length l2 = str_len s + 2) as Elen.
    { rewrite (at_length _ _ _ _ Hl2), !str_len_app. change (str_len [34]) with 1. lia. }
    assert (is_usize (str_len s)) as Hsu.
    { unfold is_usize, is_unsigned in *. rewrite (at_source _ _ _ _ Hl), <- Happ, !str_len_app in Hu.
      pose proof (str_len_nonneg before). pose proof (str_len_nonneg (34 :: rest')).
      pose proof (str_len_nonneg [34]). lia. }
    rewrite Elen. rewrite wsub_in by (replace (str_len s + 2 - 2) with (str_len s) by lia; done).
    obind. replace (str_len s + 2 - 2) with (str_len s) by lia.
    eexists. split; [|eexists; split; [done|]].
    { by rewrite Hs, Hs1, Hs2. }
    split; [done| |by rewrite Hs, Hs1, Hs2]. exists [34], [34].
    apply at_between in Hl2 as Hb2. split_and!.
    + destruct Hb2. split; simpl; [done..| |].
      * done.
      * done.
    + simpl. rewrite (at_start _ _ _ _ Hl2), str_len_app. done.
    + done.
    + rewrite decide_True by done. exists []. by split_and!.
Qed.

(** ** Numbers *)

(** A number that starts with [c], or an error after reading some of it. *)
Definition number_read (l0 : Lex) (before : list Z) (c : Z) (rest : list Z) (o : lexed * Lex) : Prop :=
  exists r w rest', o.1 = Some r /\ rest = w ++ rest' /\
    same_peeks l0 o.2 /\ between o.2 (before ++ c :: w) rest' /\
    match r with
    | Ok t => reads l0 o.2 before rest' t (typ t) (c :: w) /\ (typ t = TInteger \/ typ t = TDecimal)
    | Err _ => True
    end.

#[local] Arguments advance_while : simpl never.

Lemma lex_number_at l0 l before c rest :
  at_token l before [c] rest -> same_peeks l0 l ->
  lex_number c l ⇓ number_read l0 before c rest.
Proof.
  intros Hl Hs. unfold lex_number.
  destruct (stream_peek_at l before [c] rest Hl) as (l1 & -> & Hl1 & Hs1 & _).
  set (sel := if _ && _ then _ else _).
  assert (exists base l2 w2 rest2, sel = (base, l2) /\ rest = w2 ++ rest2 /\
            at_token l2 before (c :: w2) rest2 /\ same_peeks l1 l2) as (base & l2 & w2 & rest2 & -> & Hr2 & Hl2 & Hs2).
  { destruct rest as [|c1 rest].
    - exists 10, l1, [], []. subst sel. rewrite !bool_decide_eq_false_2 by done.
      rewrite andb_false_r. split_and!; done.
    - destruct (advance_some l1 before [c] c1 rest Hl1) as (l2 & Ea & Hl2 & Hs2).
      subst sel. rewrite Ea. simpl. repeat case_match;
        solve [eexists _, l2, [c1], rest; done | eexists _, l1, [], (c1 :: rest); done]. }
  destruct (advance_while_ok (is_digit base) l2 before _ rest2 Hl2) as (l3 & -> & Hl3 & Hs3).
  pose proof (span_app (is_digit base) rest2) as Happ.
  destruct (span (is_digit base) rest2) as [w3 rest3]; cbn [fst snd] in *; obind.
  destruct (stream_peek_at l3 before _ rest3 Hl3) as (l4 & -> & Hl4 & Hs4 & Hp4).
  assert (same_peeks l0 l4) as Hs04 by (by rewrite Hs, Hs1, Hs2, Hs3, Hs4).
  assert (forall l5, at_token l5 before ((c :: w2) ++ w3) rest3 -> same_peeks l0 l5 ->
    number_read l0 before c rest (Some (Ok (produce l5 TInteger)), l5)) as Hint.
  { intros l5 Hl5 Hs5. exists (Ok (produce l5 TInteger)), (w2 ++ w3), rest3.
    split_and!; [done| |done| |by apply reads_here|by left].
    - by rewrite <- app_assoc, Happ.
    - by apply at_between in Hl5. }
  destruct (decide (head rest3 = Some 46)) as [E|E].
  2:{ rewrite bool_decide_eq_false_2 by done. obind. by apply Hint. }
  rewrite bool_decide_eq_true_2 by done. destruct rest3 as [|dot rest3]; simplify_eq/=.
  destruct (stream_peek_next_at l4 before _ 46 rest3 Hl4) as (l5 & -> & Hl5 & Hs5); [rewrite Hp4; by eexists|].
  obind. assert (same_peeks l0 l5) as Hs05 by (by rewrite Hs04).
  destruct (match head rest3 with Some q => is_digit 10 q | None => false end); [|by apply Hint].
  destruct (base =? 10); cbn [negb].
  2:{ exists (Err NoFloatingPointHex), (w2 ++ w3), (46 :: rest3). split_and!; [done| |done| |done].
      - by rewrite <- app_assoc.
      - by apply at_between in Hl5. }
  destruct (advance_some l5 before _ 46 rest3 Hl5) as (l6 & -> & Hl6 & Hs6). cbn [snd].
  destruct (advance_while_ok (is_digit 10) l6 before _ rest3 Hl6) as (l7 & -> & Hl7 & Hs7).
  pose proof (span_app (is_digit 10) rest3) as Happ3.
  destruct (span (is_digit 10) rest3) as [w7 rest7]; cbn [fst snd] in *; obind.
  assert (same_peeks l0 l7) as Hs07 by (by rewrite Hs05, Hs6, Hs7).
  exists (Ok (produce l7 TDecimal)), (w2 ++ w3 ++ 46 :: w7), rest7.
  rewrite <- !app_assoc in Hl7. simpl in Hl7. rewrite <- app_assoc in Hl7.
  split_and!; [done| |done| |by apply reads_here|by right].
  - rewrite <- !app_assoc. simpl. by rewrite <- Happ3.
  - by apply at_between in Hl7.
Qed.

Section total.
Context `{UnicodeXID}.

Lemma lex_word_at l0 l before c rest :
  at_token l before [c] rest -> same_peeks l0 l ->
  let '(w, rest') := span is_xid_continue rest in
  exists t l', lex_word l = Val (Some (Ok t), l') /\
    reads l0 l' before rest' t (keyword (c :: w)) (c :: w).
Proof.
  intros Hl Hs. unfold lex_word.
  destruct (advance_while_ok is_xid_continue l before [c] rest Hl) as (l1 & -> & Hl1 & Hs1).
  destruct (span is_xid_continue rest) as [w rest']; cbn [fst snd] in *; obind.
  rewrite (at_source _ _ _ _ Hl1), (at_start _ _ _ _ Hl1), (at_length _ _ _ _ Hl1), str_slice_mid. obind.
  eexists _, l1. split; [done|]. apply reads_here; [done|by rewrite Hs, Hs1|done|].
  unfold keyword. repeat (destruct (decide _); [done|]). done.
Qed.

(** What one call of [next_no_peeking] does. *)
Definition reads_one (l0 : Lex) (before rest : list Z) (o : lexed * Lex) : Prop :=
  same_peeks l0 o.2 /\
  match o.1 with
  | None => exists before', between o.2 before' []
  | Some (Ok t) => exists w rest' text, w <> [] /\ rest = w ++ rest' /\ reads l0 o.2 before rest' t (typ t) text
  | Some (Err _) => exists w rest', w <> [] /\ rest = w ++ rest' /\ between o.2 (before ++ w) rest'
  end.

Lemma reads_one_ok l0 l' before c w rest' t ty text :
  reads l0 l' before rest' t ty text -> reads_one l0 before (c :: w ++ rest') (Some (Ok t), l').
Proof.
  intros Hr. split; [by apply Hr|]. exists (c :: w), rest', text. split_and!; try done.
  by rewrite (reads_typ _ _ _ _ _ _ _ Hr).
Qed.

Lemma reads_one_skip l0 l before c rest o :
  whitespace c = true -> same_peeks l0 l ->
  reads_one l (before ++ [c]) rest o -> reads_one l0 before (c :: rest) o.
Proof.
  intros Hc Hs [Hp Ho]. split; [by rewrite Hs|]. destruct o.1 as [[t|e]|].
  - destruct Ho as (w & rest' & text & Hw & -> & Hr). exists (c :: w), rest', text. split_and!; [done..|].
    by eapply reads_skip.
  - destruct Ho as (w & rest' & Hw & -> & Hb). exists (c :: w), rest'. split_and!; [done..|].
    by rewrite <- app_assoc in Hb.
  - done.
Qed.

Lemma next_no_peeking_loop_ok fuel : forall l before rest,
  between l before rest -> (length rest < fuel)%nat -> is_usize (str_len (source l)) ->
  next_no_peeking_loop fuel l ⇓ reads_one l before rest.
Proof.
  induction fuel as [|fuel IH]; intros l before rest Hb Hf Hu; [lia|].
  cbn [next_no_peeking_loop]. destruct (start_token l before rest Hb) as [Hl Hs].
  set (l1 := with_span l (offset l) 0) in *. destruct rest as [|c rest].
  { destruct (advance_none l1 before [] Hl) as (l2 & -> & Hl2 & Hs2).
    split; [by rewrite Hs|]. simpl. eexists. by eapply at_between. }
  destruct (advance_some l1 before [] c rest Hl) as (l2 & -> & Hl2 & Hs2). simpl app in Hl2.
  assert (same_peeks l l2) as Hs02 by (by rewrite Hs).
  assert (forall ty, ty <> TString -> reads_one l before (c :: rest) (Some (Ok (produce l2 ty)), l2)) as Hone.
  { intros ty Hty. apply (reads_one_ok _ _ _ _ [] rest _ ty [c]). by apply reads_here. }
  assert (forall c2 t2 t1, t1 <> TString -> t2 <> TString ->
            reads_one l before (c :: rest) (one_or_two l2 c2 t2 t1)) as Htwo.
  { intros c2 t2 t1 ??. destruct (one_or_two_at l l2 before c rest c2 t2 t1)
      as (r & l' & w & rest' & -> & -> & Hr & _); [done..|]. by eapply reads_one_ok. }
  repeat match goal with
  | |- returns (if ?b then Val (Some (Ok _), _) else _) _ => destruct b; [by apply Hone|]
  | |- returns (if ?b then Val (one_or_two _ _ _ _) else _) _ => destruct b; [by apply Htwo|]
  end.
  fold (whitespace c). destruct (whitespace c) eqn:Ews.
  { eapply returns_weaken; [apply (IH l2 (before ++ [c]) rest)|].
    - apply (at_between _ _ _ _ Hl2).
    - simpl in Hf. lia.
    - by rewrite (same_source _ _ Hs02).
    - intros o. by eapply reads_one_skip. }
  destruct (is_digit 10 c).
  { eapply returns_weaken; [by apply (lex_number_at l l2 before c rest)|].
    intros [? l'] (r & w & rest' & Er & -> & Hp & Hb' & Hr). simpl in *. subst.
    destruct r as [t|e]; [destruct Hr; by eapply reads_one_ok|].
    split; [done|]. exists (c :: w), rest'. done. }
  destruct (Z.eqb_spec c 34) as [->|].
  { pose proof (lex_string_at l l2 before rest) as Hstr.
    pose proof (span_app (fun c => negb (c =? 34)) rest) as Happ.
    destruct (span _ rest) as [s [|q rest']]; simpl in Happ.
    - destruct Hstr as (l' & Hp & -> & Hb'); [done..|by rewrite (same_source _ _ Hs02)|].
      split; [done|]. by eexists.
    - destruct Hstr as (l' & Hp & t & -> & Hr); [done..|by rewrite (same_source _ _ Hs02)|].
      rewrite <- Happ, cons_middle, app_assoc. by eapply reads_one_ok. }
  destruct (is_xid_start c || (c =? _)).
  { pose proof (lex_word_at l l2 before c rest) as Hw.
    pose proof (span_app is_xid_continue rest) as Happ.
    destruct (span _ rest) as [w rest']; simpl in Happ.
    destruct Hw as (t & l' & -> & Hr); [done..|]. rewrite <- Happ. by eapply reads_one_ok. }
  split; [done|]. exists [c], rest. split_and!; [done..|]. apply (at_between _ _ _ _ Hl2).
Qed.

(** [next_no_peeking] always returns. *)
Lemma next_no_peeking_ok l before rest :
  between l before rest -> is_usize (str_len (source l)) ->
  next_no_peeking l ⇓ reads_one l before rest.
Proof.
  intros Hb Hu. apply next_no_peeking_loop_ok; [done| |done].
  rewrite chars_left_items, (bt_items _ _ _ Hb). lia.
Qed.

End total.

(** ** Writing tokens out *)

(** The text of a symbol or of a keyword. *)
Definition fixed_text (ty : TokenType) : option (list Z) :=
  match ty with
  | Plus => Some (str "+") | Minus => Some (str "-") | Dot => Some (str ".")
  | Equals => Some (str "=") | EqualEquals => Some (str "==") | Asterix => Some (str "*")
  | Slash => Some (str "/") | Colon => Some (str ":") | Semicolon => Some (str ";")
  | Comma => Some (str ",") | Bang => Some (str "!") | BangEquals => Some (str "!=")
  | LeftParen => Some (str "(") | RightParen => Some (str ")")
  | LeftBrace => Some (str "{") | RightBrace => Some (str "}")
  | LessThan => Some (str "<") | LessEqual => Some (str "<=")
  | GreaterThan => Some (str ">") | GreaterEqual => Some (str ">=")
  | QuestionMark => Some (str "?") | Caret => Some (str "^")
  | Ampersand => Some (str "&") | AmpersandAmpersand => Some (str "&&")
  | Pipe => Some (str "|") | PipePipe => Some (str "||")
  | TIdentifier | TString | TInteger | TDecimal => None
  | TLet => Some (str "let") | TIf => Some (str "if") | TElse => Some (str "else")
  | TFor => Some (str "for") | TLoop => Some (str "loop") | TWhile => Some (str "while")
  | TTrue => Some (str "true") | TFalse => Some (str "false") | TReturn => Some (str "return")
  | TFn => Some (str "fn") | TClass => Some (str "class") | GinkgoSelf => Some (str "self")
  end.

(** A token as its type and its text. *)
Abbreviation tk := (TokenType * list Z)%type.

(** The characters of a token in the source. *)
Definition spell (t : tk) : list Z :=
  if decide (t.1 = TString) then 34 :: t.2 ++ [34] else t.2.

Section spelling.
Context `{UnicodeXID}.

(** What the lexer reads as one token of the type: for literals, an identifier
    that is no keyword, decimal digits, or a string without quotes.  It takes an
    underscore on its own for an identifier. *)
Definition lexed_token (t : tk) : Prop :=
  match t.1 with
  | TIdentifier =>
      (exists c w, t.2 = c :: w /\ (is_xid_start c = true \/ c = ch "_") /\
         Forall (fun c => is_xid_continue c = true) w) /\ keyword t.2 = TIdentifier
  | TString => Forall (fun c => c <> 34) t.2
  | TInteger => t.2 <> [] /\ Forall (fun c => is_digit 10 c = true) t.2
  | TDecimal => exists a b, t.2 = a ++ ch "." :: b /\ a <> [] /\ b <> [] /\
      Forall (fun c => is_digit 10 c = true) a /\ Forall (fun c => is_digit 10 c = true) b
  | ty => fixed_text ty = Some t.2
  end.

(** The tokens of the language: an underscore on its own is no identifier. *)
Definition valid_token (t : tk) : Prop := lexed_token t /\ t <> (TIdentifier, [ch "_"]).

(** Tokens with white space after each. *)
Definition spell_all (ts : list (tk * list Z)) : list Z :=
  mjoin ((fun '(t, ws) => spell t ++ ws) <$> ts).

(** ** The stream of tokens a lexer state stands for *)

Inductive lexes : Lex -> list tk -> Prop :=
  | lexes_nil l l' before :
      lex_peek l = None -> lex_peek_next l = None ->
      next_no_peeking l = Val (None, l') -> same_peeks l l' -> between l' before [] ->
      lexes l []
  | lexes_cons l t l' text ts :
      lex_peek_next l = None ->
      next l = Val (Some (Ok t), l') ->
      lex_peek l' = None -> source l' = source l ->
      str_slice (source l) (tok_offset t) (tok_offset t + tok_length t) = Val text ->
      lexes l' ts ->
      lexes l ((typ t, text) :: ts).

Lemma with_peeks_same l : with_peeks l (lex_peek l) (lex_peek_next l) = l.
Proof. by destruct l. Qed.

Lemma next_at_end l before :
  between l before [] -> is_usize (str_len (source l)) ->
  exists l' before', next_no_peeking l = Val (None, l') /\ same_peeks l l' /\ between l' before' [].
Proof.
  intros Hb Hu. unfold next_no_peeking. cbn [next_no_peeking_loop].
  destruct (start_token l before [] Hb) as [Hl Hs].
  destruct (advance_none _ before [] Hl) as (l2 & -> & Hl2 & Hs2).
  eexists _, _. split; [done|]. split; [by rewrite Hs|by apply (at_between _ _ _ _ Hl2)].
Qed.

Lemma lexes_peek_nil l :
  lexes l [] -> is_usize (str_len (source l)) ->
  exists l', peek l = Val (Ok None, l') /\ lexes l' [] /\ source l' = source l.
Proof.
  inversion 1 as [? l' before Hp Hn Hnext Hs Hb|]; simplify_eq. intros Hu.
  unfold peek. rewrite Hp, Hnext. obind. destruct Hs as [Hs1 Hs2 Hs3].
  replace (with_peeks l' None (lex_peek_next l')) with l'
    by (rewrite <- (with_peeks_same l') at 1; congruence).
  exists l'. split; [done|]. split; [|done].
  destruct (next_at_end l' before) as (l'' & before' & ? & ? & ?); [done|congruence|].
  by eapply lexes_nil; [congruence|congruence|..].
Qed.

Lemma lexes_peek l ty text ts :
  lexes l ((ty, text) :: ts) ->
  exists t l', peek l = Val (Ok (Some t), l') /\ typ t = ty /\ lexes l' ((ty, text) :: ts) /\
    source l' = source l.
Proof.
  inversion 1 as [|? t l' ?? Hn Hnext Hp Hs Htext Hts]; simplify_eq.
  unfold peek. unfold next in Hnext. destruct (lex_peek l) as [p|] eqn:E; simplify_eq.
  - exists t, l. done.
  - rewrite Hnext. obind. exists t, (with_peeks l' (Some t) (lex_peek_next l')). split_and!; [done|done| |done].
    inversion Hts as [? l'' before ? Hn'|??? ?? Hn']; simplify_eq;
      (eapply lexes_cons; [by simpl|by unfold next; simpl|done|done|by simpl; rewrite Hs|]);
      simpl; rewrite Hn'; (replace (with_peeks _ None None) with l'; [done|]);
      rewrite <- (with_peeks_same l') at 1; by rewrite Hp, Hn'.
Qed.

Lemma lexes_next l ty text ts :
  lexes l ((ty, text) :: ts) ->
  exists t l', next l = Val (Some (Ok t), l') /\ typ t = ty /\ lexes l' ts /\ source l' = source l /\
    str_slice (source l) (tok_offset t) (tok_offset t + tok_length t) = Val text.
Proof. inversion 1; simplify_eq. eauto 10. Qed.

Lemma lexes_next_nil l :
  lexes l [] -> is_usize (str_len (source l)) ->
  exists l', next l = Val (None, l') /\ lexes l' [] /\ source l' = source l.
Proof.
  inversion 1 as [? l' before Hp Hn Hnext [Hs1 Hs2 Hs3] Hb|]; simplify_eq. intros Hu.
  unfold next. rewrite Hp. exists l'. split; [done|]. split; [|done].
  destruct (next_at_end l' before) as (l'' & before' & ? & ? & ?); [done|congruence|].
  by eapply lexes_nil; [congruence|congruence|..].
Qed.

(** ** Reading a token that was written out *)

Context {xid_spec : UnicodeXIDSpec}.

(** The characters with an arm of their own in [next_no_peeking]. *)
Definition special (c : Z) : bool :=
  existsb (Z.eqb c) [43; 45; 46; 61; 42; 58; 59; 44; 33; 40; 41; 123; 125; 60; 62; 63; 94; 38; 124; 47; 34]
  || whitespace c.

Lemma loop_not_special fuel l c l1 :
  advance (with_span l (offset l) 0) = (Some c, l1) -> special c = false ->
  next_no_peeking_loop (S fuel) l =
    if is_digit 10 c then lex_number c l1
    else if is_xid_start c || (c =? 95) then lex_word l1
    else Val (Some (Err (UnexpectedChar c)), l1).
Proof.
  intros Ha Hsp. cbn [next_no_peeking_loop]. rewrite Ha.
  unfold special, whitespace in Hsp. cbn [existsb] in Hsp.
  repeat (apply orb_false_iff in Hsp as [?%Z.eqb_neq Hsp] || apply orb_false_iff in Hsp as [Hsp Hsp']).
  repeat match goal with
  | H : false || _ = false |- _ => rewrite orb_false_l in H
  | H : _ || _ = false |- _ => apply orb_false_iff in H as [??]
  | H : (_ =? _) = false |- _ => apply Z.eqb_neq in H
  end.
  by repeat match goal with
  | |- context [c =? ?k] => rewrite (proj2 (Z.eqb_neq c k)) by done; cbn [orb]
  end.
Qed.

Lemma digit_range c : is_digit 10 c = true <-> 48 <= c <= 57.
Proof.
  unfold is_digit, to_digit. rewrite bool_decide_eq_true. split.
  - intros [d Hd]. repeat case_match; simplify_eq; lia.
  - intros Hc. replace ((48 <=? c) && (c <=? 57)) with true by lia.
    replace (c - 48 <? 10) with true by lia. by eexists.
Qed.

Lemma word_start_not_special c : is_xid_start c = true \/ c = 95 -> special c = false /\ is_digit 10 c = false.
Proof.
  intros [Hc| ->]; [|done].
  destruct (decide (0 <= c < 128)) as [Ha|Ha].
  - rewrite (xid_start_ascii c Ha) in Hc. unfold ascii_letter in Hc. split.
    + unfold special, whitespace. cbn [existsb]. lia.
    + destruct (is_digit 10 c) eqn:E; [apply digit_range in E; lia|done].
  - split.
    + unfold special, whitespace. cbn [existsb]. lia.
    + destruct (is_digit 10 c) eqn:E; [apply digit_range in E; lia|done].
Qed.

Lemma whitespace_range c : whitespace c = true <-> c = 32 \/ c = 9 \/ c = 10 \/ c = 13.
Proof. unfold whitespace. lia. Qed.

Lemma whitespace_not_continue c : whitespace c = true -> is_xid_continue c = false.
Proof.
  intros Hc%whitespace_range. rewrite xid_continue_ascii by lia.
  unfold ascii_letter, ascii_digit. lia.
Qed.

Lemma lex_word_spelled fuel l before c w sep rest :
  between l before ((c :: w) ++ sep :: rest) -> is_xid_start c = true \/ c = 95 ->
  Forall (fun c => is_xid_continue c = true) w -> whitespace sep = true ->
  exists t l', next_no_peeking_loop (S fuel) l = Val (Some (Ok t), l') /\
    reads l l' before (sep :: rest) t (keyword (c :: w)) (c :: w).
Proof.
  intros Hb Hc Hw Hsep. destruct (start_token l before _ Hb) as [Hl Hs].
  destruct (advance_some _ before [] c _ Hl) as (l2 & Ha & Hl2 & Hs2).
  destruct (word_start_not_special c Hc) as [Hsp Hd].
  rewrite (loop_not_special _ _ _ _ Ha Hsp), Hd.
  replace (is_xid_start c || (c =? 95)) with true by (destruct Hc as [-> | ->]; [done|by rewrite orb_true_r]).
  pose proof (lex_word_at l l2 before c (w ++ sep :: rest)) as Hlw.
  rewrite span_word in Hlw; [|done|intros ? [= <-]; by apply whitespace_not_continue].
  apply Hlw; [done|by rewrite Hs, Hs2].
Qed.

Lemma lex_number_spelled fuel l before c w sep rest :
  between l before ((c :: w) ++ sep :: rest) ->
  Forall (fun c => is_digit 10 c = true) (c :: w) -> whitespace sep = true ->
  exists t l', next_no_peeking_loop (S fuel) l = Val (Some (Ok t), l') /\
    reads l l' before (sep :: rest) t TInteger (c :: w).
Proof.
  intros Hb [Hc Hw]%Forall_cons_1 Hsep. destruct (start_token l before _ Hb) as [Hl Hs].
  destruct (advance_some _ before [] c _ Hl) as (l2 & Ha & Hl2 & Hs2).
  pose proof (proj1 (digit_range c) Hc) as Hcr. apply whitespace_range in Hsep as Hsepr.
  assert (special c = false) as Hsp by (unfold special, whitespace; cbn [existsb]; lia).
  rewrite (loop_not_special _ _ _ _ Ha Hsp), Hc. unfold lex_number.
  destruct (stream_peek_at l2 before [c] _ Hl2) as (l3 & -> & Hl3 & Hs3 & _).
  assert (forall k, head (w ++ sep :: rest) = Some k -> k <> 120 /\ k <> 98 /\ k <> 111) as Hk.
  { intros k. destruct w as [|d w]; simpl; intros [= <-]; [lia|].
    apply Forall_cons_1 in Hw as [Hd%digit_range _]. lia. }
  rewrite !bool_decide_eq_false_2 by (intros E; by destruct (Hk _ E) as (? & ? & ?)).
  rewrite andb_false_r.
  destruct (advance_while_ok (is_digit 10) l3 before _ _ Hl3) as (l4 & -> & Hl4 & Hs4).
  rewrite span_word in Hl4; [|done|].
  2:{ intros ? [= <-]. destruct (is_digit 10 sep) eqn:E; [|done]. apply digit_range in E. lia. }
  cbn [fst snd] in Hl4. obind.
  destruct (stream_peek_at l4 before _ _ Hl4) as (l5 & -> & Hl5 & Hs5 & _).
  rewrite bool_decide_eq_false_2 by (simpl; intros [= E]; lia). obind.
  eexists _, l5. split; [done|]. apply reads_here; [done|by rewrite Hs, Hs2, Hs3, Hs4, Hs5|done..].
Qed.

Lemma lex_decimal_spelled fuel l before c a b sep rest :
  between l before ((c :: a ++ 46 :: b) ++ sep :: rest) -> b <> [] ->
  Forall (fun c => is_digit 10 c = true) (c :: a) -> Forall (fun c => is_digit 10 c = true) b ->
  whitespace sep = true ->
  exists t l', next_no_peeking_loop (S fuel) l = Val (Some (Ok t), l') /\
    reads l l' before (sep :: rest) t TDecimal (c :: a ++ 46 :: b).
Proof.
  cbn [app]. rewrite <- app_assoc. cbn [app]. intros Hb Hbne [Hc Hw]%Forall_cons_1 Hbd Hsep. destruct (start_token l before _ Hb) as [Hl Hs].
  destruct (advance_some _ before [] c _ Hl) as (l2 & Ha & Hl2 & Hs2).
  pose proof (proj1 (digit_range c) Hc) as Hcr. apply whitespace_range in Hsep as Hsepr.
  assert (special c = false) as Hsp by (unfold special, whitespace; cbn [existsb]; lia).
  rewrite (loop_not_special _ _ _ _ Ha Hsp), Hc. unfold lex_number.
  destruct (stream_peek_at l2 before [c] _ Hl2) as (l3 & -> & Hl3 & Hs3 & _).
  assert (forall k, head (a ++ 46 :: b ++ sep :: rest) = Some k -> k <> 120 /\ k <> 98 /\ k <> 111) as Hk.
  { intros k. destruct a as [|d a]; simpl; intros [= <-]; [lia|].
    apply Forall_cons_1 in Hw as [Hd%digit_range _]. lia. }
  rewrite !bool_decide_eq_false_2 by (intros E; by destruct (Hk _ E) as (? & ? & ?)).
  rewrite andb_false_r.
  destruct (advance_while_ok (is_digit 10) l3 before _ _ Hl3) as (l4 & -> & Hl4 & Hs4).
  rewrite span_word in Hl4; [|done|by intros ? [= <-]].
  cbn [fst snd] in Hl4. obind.
  destruct (stream_peek_at l4 before _ _ Hl4) as (l5 & -> & Hl5 & Hs5 & Hp5).
  rewrite bool_decide_eq_true_2 by done.
  destruct (stream_peek_next_at l5 before _ 46 _ Hl5) as (l6 & -> & Hl6 & Hs6); [rewrite Hp5; by eexists|].
  obind. destruct b as [|d b]; [done|]. apply Forall_cons_1 in Hbd as Hbd'. cbn [app head].
  rewrite (proj1 Hbd'). cbn [negb Z.eqb Pos.eqb].
  destruct (advance_some l6 before _ 46 _ Hl6) as (l7 & -> & Hl7 & Hs7). cbn [snd].
  destruct (advance_while_ok (is_digit 10) l7 before _ _ Hl7) as (l8 & -> & Hl8 & Hs8).
  change (d :: b ++ sep :: rest) with ((d :: b) ++ sep :: rest) in Hl8. rewrite span_word in Hl8; [|done|].
  2:{ intros ? [= <-]. destruct (is_digit 10 sep) eqn:E; [|done]. apply digit_range in E. lia. }
  cbn [fst snd] in Hl8. obind. eexists _, l8. split; [done|].
  replace (c :: a ++ 46 :: d :: b) with ((([] ++ [c]) ++ a) ++ [46] ++ d :: b)
    by (simpl; by rewrite <- ?app_assoc).
  rewrite <- (app_assoc _ [46]) in Hl8.
  apply reads_here; [done|by rewrite Hs, Hs2, Hs3, Hs4, Hs5, Hs6, Hs7, Hs8|by destruct a|done].
Qed.

Lemma lex_string_spelled fuel l before s rest :
  between l before (34 :: s ++ 34 :: rest) -> is_usize (str_len (source l)) ->
  Forall (fun c => c <> 34) s ->
  exists t l', next_no_peeking_loop (S fuel) l = Val (Some (Ok t), l') /\
    reads l l' before rest t TString s.
Proof.
  intros Hb Hu Hs34. destruct (start_token l before _ Hb) as [Hl Hs].
  destruct (advance_some _ before [] 34 _ Hl) as (l2 & Ha & Hl2 & Hs2).
  cbn [next_no_peeking_loop]. rewrite Ha. cbn.
  pose proof (lex_string_at l l2 before (s ++ 34 :: rest)) as Hls.
  rewrite span_word in Hls.
  - destruct Hls as (l' & _ & t & Hls & Hr); [done|by rewrite Hs, Hs2|by rewrite (same_source _ _ Hs2)|].
    by exists t, l'.
  - eapply Forall_impl; [|exact Hs34]. intros c Hc. apply negb_true_iff. simpl in Hc. lia.
  - by intros ? [= <-].
Qed.

(** A fixed token: [first] is its first character. *)
Lemma lex_fixed_spelled fuel l before ty text sep rest :
  fixed_text ty = Some text -> between l before (text ++ sep :: rest) -> whitespace sep = true ->
  exists t l', next_no_peeking_loop (S fuel) l = Val (Some (Ok t), l') /\
    reads l l' before (sep :: rest) t ty text.
Proof.
  intros Hty Hb Hsep. apply whitespace_range in Hsep as Hsepr.
  assert (forall c, ascii_letter c = true -> is_xid_start c = true /\ is_xid_continue c = true) as Hx.
  { intros c Hc. assert (is_xid_start c = true) as Hst.
    { rewrite xid_start_ascii; [done|]. unfold ascii_letter in Hc. lia. }
    split; [done|by apply xid_start_continue]. }
  assert (exists c w, text = c :: w) as (c & w & ->) by (destruct ty; simplify_eq/=; eauto).
  destruct (ascii_letter c) eqn:Ec.
  { destruct (lex_word_spelled fuel l before c w sep rest) as (t & l' & ? & ?); [done|left; by apply Hx| |done|].
    - destruct ty; simplify_eq/=; repeat constructor; by apply Hx.
    - exists t, l'. split; [done|]. by replace ty with (keyword (c :: w)) by (by destruct ty; simplify_eq/=). }
  destruct (start_token l before _ Hb) as [Hl Hs].
  destruct (advance_some _ before [] c _ Hl) as (l2 & Ha & Hl2 & Hs2).
  assert (same_peeks l l2) as Hs02 by (by rewrite Hs).
  assert (ty <> TString) as Hstr by (by destruct ty).
  assert (forall c2 t2 t1, t1 <> TString -> t2 <> TString ->
    (w = [] /\ ty = t1 /\ c2 <> sep \/ w = [c2] /\ ty = t2) ->
    exists t l', one_or_two l2 c2 t2 t1 = (Some (Ok t), l') /\ reads l l' before (sep :: rest) t ty (c :: w)) as Htwo.
  { intros c2 t2 t1 H1 H2 Hcase.
    destruct (one_or_two_at l l2 before c (w ++ sep :: rest) c2 t2 t1) as (t & l' & w' & rest' & -> & Erest & Hr & Ew);
      [done..|]. exists t, l'. split; [done|].
    destruct Hcase as [(-> & -> & Hne)|(-> & ->)]; simpl in *.
    - rewrite decide_False in Hr by congruence. rewrite decide_False in Ew by congruence. by simplify_eq/=.
    - rewrite decide_True in Hr by done. rewrite decide_True in Ew by done. by simplify_eq/=. }
  assert (w = [] -> reads l l2 before (sep :: rest) (produce l2 ty) ty (c :: w)) as Hone.
  { intros ->. by apply reads_here. }
  cbn [next_no_peeking_loop]. rewrite Ha.
  destruct ty; simplify_eq/=; try discriminate Ec;
    first [ by eexists _, l2; split; [reflexivity|apply Hone]
          | match goal with |- context [one_or_two _ ?c2 ?t2 ?t1] =>
              destruct (Htwo c2 t2 t1) as (t & l' & -> & ?);
                [done|done|first [by left; split_and!; [..|lia] | by right]|by exists t, l']
            end ].
Qed.

Lemma lex_spelled_here fuel l before t sep rest :
  lexed_token t -> between l before (spell t ++ sep :: rest) -> whitespace sep = true ->
  is_usize (str_len (source l)) ->
  exists tok l', next_no_peeking_loop (S fuel) l = Val (Some (Ok tok), l') /\
    reads l l' before (sep :: rest) tok t.1 t.2.
Proof.
  destruct t as [ty text]. unfold lexed_token, spell. simpl. intros Hv Hb Hsep Hu.
  destruct (decide (ty = TString)) as [->|Hstr].
  { simpl in Hb. rewrite <- app_assoc in Hb. by apply lex_string_spelled. }
  destruct ty; try done; try (by apply (lex_fixed_spelled fuel)).
  - destruct Hv as ((c & w & -> & Hc & Hw) & Hkw).
    destruct (lex_word_spelled fuel l before c w sep rest) as (t & l' & ? & ?); [done..|].
    exists t, l'. by rewrite Hkw in *.
  - destruct text as [|c w]; [by destruct Hv|]. by apply lex_number_spelled; try apply Hv.
  - destruct Hv as (a & b & -> & Ha & Hbne & Had & Hbd). destruct a as [|c a]; [done|].
    by apply lex_decimal_spelled.
Qed.

Lemma lex_spelled l before ws t sep rest fuel :
  lexed_token t -> between l before (ws ++ spell t ++ sep :: rest) -> whitespace sep = true ->
  Forall (fun c => whitespace c = true) ws -> is_usize (str_len (source l)) -> (length ws < fuel)%nat ->
  exists tok l', next_no_peeking_loop fuel l = Val (Some (Ok tok), l') /\
    reads l l' before (sep :: rest) tok t.1 t.2.
Proof.
  intros Hv Hb Hsep Hws Hu. revert l before fuel Hb Hu.
  induction Hws as [|c ws Hc Hws IH]; intros l before [|fuel] Hb Hu Hf; try (simpl in Hf; lia).
  - by apply lex_spelled_here.
  - destruct (start_token l before _ Hb) as [Hl Hs].
    destruct (advance_some _ before [] c _ Hl) as (l2 & Ha & Hl2 & Hs2).
    assert (same_peeks l l2) as Hs02 by (by rewrite Hs).
    destruct (IH l2 (before ++ [c]) fuel) as (tok & l' & E & Hr).
    { apply (at_between _ _ _ _ Hl2). }
    { by rewrite (same_source _ _ Hs02). }
    { simpl in Hf. lia. }
    exists tok, l'. split; [|by eapply reads_skip]. cbn [next_no_peeking_loop]. rewrite Ha.
    apply whitespace_range in Hc as [-> |[-> |[-> | ->]]]; exact E.
Qed.

Lemma lex_whitespace ws : forall l before fuel,
  between l before ws -> Forall (fun c => whitespace c = true) ws -> (length ws < fuel)%nat ->
  exists l' before', next_no_peeking_loop fuel l = Val (None, l') /\ same_peeks l l' /\ between l' before' [].
Proof.
  induction ws as [|c ws IH]; intros l before [|fuel] Hb Hws Hf; try (simpl in Hf; lia);
    destruct (start_token l before _ Hb) as [Hl Hs]; cbn [next_no_peeking_loop].
  - destruct (advance_none _ before [] Hl) as (l2 & -> & Hl2 & Hs2).
    eexists _, _. split; [done|]. split; [by rewrite Hs|by apply (at_between _ _ _ _ Hl2)].
  - apply Forall_cons_1 in Hws as [Hc Hws].
    destruct (advance_some _ before [] c _ Hl) as (l2 & Ha & Hl2 & Hs2). rewrite Ha.
    destruct (IH l2 (before ++ [c]) fuel) as (l' & before' & E & Hs' & Hb');
      [by apply (at_between _ _ _ _ Hl2)|done|simpl in Hf; lia|].
    exists l', before'. split; [|by split; [rewrite Hs, Hs2|]].
    apply whitespace_range in Hc as [-> |[-> |[-> | ->]]]; exact E.
Qed.

(** Lexing a text of spelled tokens yields the tokens. *)
Lemma lexes_spelled ts : forall l before ws,
  between l before (ws ++ spell_all ts) -> lex_peek l = None -> lex_peek_next l = None ->
  is_usize (str_len (source l)) -> Forall (fun c => whitespace c = true) ws ->
  Forall (fun '(t, sep) => lexed_token t /\ sep <> [] /\ Forall (fun c => whitespace c = true) sep) ts ->
  lexes l ts.*1.
Proof.
  induction ts as [|[t sep] ts IH]; intros l before ws Hb Hp Hpn Hu Hws Hts; cbn [fmap list_fmap fst].
  - unfold spell_all in Hb. simpl in Hb. rewrite app_nil_r in Hb.
    destruct (lex_whitespace ws l before (S (chars_left l))) as (l' & before' & ? & ? & ?); [done..| |].
    { rewrite chars_left_items, (bt_items _ _ _ Hb). lia. }
    by eapply lexes_nil.
  - apply Forall_cons_1 in Hts as [(Hv & Hsep & Hsepws) Hts].
    destruct sep as [|c sep]; [done|]. apply Forall_cons_1 in Hsepws as [Hc Hsepws].
    unfold spell_all in Hb. cbn [fmap list_fmap mjoin list_join] in Hb. rewrite <- app_assoc in Hb.
    destruct (lex_spelled l before ws t c (sep ++ spell_all ts) (S (chars_left l)))
      as (tok & l' & E & Hr); [done|done|done|done|done| |].
    { rewrite chars_left_items, (bt_items _ _ _ Hb), length_app. lia. }
    pose proof (reads_slice _ _ _ _ _ _ _ Hr) as Hslice. destruct Hr as [Hty (sk & af & Hb' & _) Hpk].
    destruct Hpk as [Hps Hpp Hpn'].
    rewrite (surjective_pairing t), <- Hty.
    eapply lexes_cons; [done|unfold next; by rewrite Hp|congruence|done|done|].
    eapply (IH l' _ (c :: sep)); [exact Hb'|congruence|congruence|congruence|by constructor|done].
Qed.

End spelling.

(** ** A whole source *)

Section source.
Context `{UnicodeXID}.

(** All the tokens and errors [next] returns. *)
Fixpoint lex_all (fuel : nat) (l : Lex) : outcome (list (result Token Diagnostic)) :=
  match fuel with
  | O => Panic
  | S fuel =>
      '(r, l) ← next l;
      match r with
      | None => Val []
      | Some r => rs ← lex_all fuel l; Val (r :: rs)
      end
  end.

(** The text of a token, if its span is one of the source. *)
Definition token_text (src : list Z) (t : Token) : outcome (list Z) :=
  str_slice src (tok_offset t) (tok_offset t + tok_length t).

(** The spans lie in the source, between its characters, one after the other from
    [pos] on, and only strings may be empty. *)
Fixpoint spans_ok (src : list Z) (pos : Z) (rs : list (result Token Diagnostic)) : Prop :=
  match rs with
  | [] => pos <= str_len src
  | Err _ :: rs => spans_ok src pos rs
  | Ok t :: rs =>
      pos <= tok_offset t /\
      (token_text src t ⇓ fun text => text = [] -> typ t = TString) /\
      spans_ok src (tok_offset t + tok_length t) rs
  end.

Lemma spans_ok_weaken src rs : forall pos pos', spans_ok src pos' rs -> pos <= pos' -> spans_ok src pos rs.
Proof. induction rs as [|[t|e] rs IH]; simpl; intros pos pos'; [lia|intuition lia|eauto]. Qed.

Lemma lex_all_ok fuel : forall l before rest,
  between l before rest -> lex_peek l = None -> is_usize (str_len (source l)) -> (length rest < fuel)%nat ->
  lex_all fuel l ⇓ fun rs => (length rs <= length rest)%nat /\ spans_ok (source l) (str_len before) rs.
Proof.
  induction fuel as [|fuel IH]; intros l before rest Hb Hp Hu Hf; [lia|].
  cbn [lex_all]. unfold next. rewrite Hp.
  eapply returns_bind; [by apply (next_no_peeking_ok l before rest)|].
  intros [r l'] [Hs Hr]. simpl in *. destruct Hs as [Hs1 Hs2 Hs3].
  assert (forall before' rest', between l' before' rest' -> (length rest' < length rest)%nat ->
    lex_all fuel l' ⇓ fun rs => (length rs < length rest)%nat /\ spans_ok (source l) (str_len before') rs) as Hrec.
  { intros before' rest' Hb' Hlen. eapply returns_weaken; [apply (IH l' before' rest' Hb')|].
    - congruence.
    - by rewrite Hs1.
    - lia.
    - simpl. intros rs [? Hsp]. rewrite Hs1 in Hsp. split; [lia|done]. }
  destruct r as [[t|e]|].
  - destruct Hr as (w & rest' & text & Hw & -> & Hr).
    assert (length rest' < length (w ++ rest'))%nat as Hlen by (rewrite length_app; destruct w; simpl in *; [done|lia]).
    pose proof (reads_slice _ _ _ _ _ _ _ Hr) as Hslice. destruct Hr as [_ (sk & af & Hb' & Ho & Hl & Hd) _].
    eapply returns_bind; [by apply (Hrec _ _ Hb')|]. simpl. intros rs [Hn Hsp].
    split; [lia|]. rewrite Ho, Hl in *. split; [|split].
    + rewrite str_len_app. pose proof (str_len_nonneg sk). lia.
    + unfold token_text. rewrite Ho, Hl, Hslice. simpl. intros ->.
      destruct (decide (typ t = TString)); [done|]. by destruct Hd as (_ & _ & ?).
    + eapply spans_ok_weaken; [done|]. rewrite !str_len_app. pose proof (str_len_nonneg af). lia.
  - destruct Hr as (w & rest' & Hw & -> & Hb').
    assert (length rest' < length (w ++ rest'))%nat as Hlen by (rewrite length_app; destruct w; simpl in *; [done|lia]).
    eapply returns_bind; [by apply (Hrec _ _ Hb')|]. simpl. intros rs [Hn Hsp].
    split; [lia|]. eapply spans_ok_weaken; [done|]. rewrite str_len_app. pose proof (str_len_nonneg w). lia.
  - simpl. split; [lia|]. rewrite (bt_source _ _ _ Hb), str_len_app. pose proof (str_len_nonneg rest). lia.
Qed.

(** C27: On every source the lexer terminates without panicking, with at most one
    token or error per character; the spans of its tokens are in the source,
    between characters, in order and disjoint. *)
Theorem ginkgo_lex_total (src : list Z) (Hu : is_usize (str_len src)) :
  lex_all (S (length src)) (Lex_new src) ⇓ fun rs =>
    (length rs <= length src)%nat /\ spans_ok src 0 rs.
Proof. apply (lex_all_ok _ (Lex_new src) [] src); [apply between_new|done|done|lia]. Qed.

Lemma lexes_lex_all l ts :
  lexes l ts -> forall fuel, (length ts < fuel)%nat ->
  exists toks, lex_all fuel l = Val (Ok <$> toks) /\ mapM (token_text (source l)) toks = Val ts.*2 /\
    typ <$> toks = ts.*1.
Proof.
  induction 1 as [l l' before Hp _ Hn _ _|l t l' text ts _ Hn Hp Hs Htext Hts IH]; intros [|fuel] Hf;
    try (simpl in Hf; lia); cbn [lex_all].
  - exists []. unfold next. by rewrite Hp, Hn.
  - destruct (IH fuel) as (toks & E & Hm & Ht); [simpl in Hf; lia|]. rewrite Hn. obind. rewrite E. obind.
    exists (t :: toks). split; [done|]. rewrite Hs in Hm. split.
    + change (token_text (source l) t = Val text) in Htext. cbn [mapM]. rewrite Htext. obind.
      rewrite Hm. done.
    + by rewrite !fmap_cons, Ht.
Qed.


(** An underscore on its own is lexed as an identifier. *)
Lemma lone_underscore_lexed {xid_spec : UnicodeXIDSpec} :
  exists tok, lex_all 2 (Lex_new [ch "_"; 32]) = Val [Ok tok] /\ typ tok = TIdentifier.
Proof.
  destruct (lexes_lex_all (Lex_new [ch "_"; 32]) [(TIdentifier, [ch "_"])]) with (fuel := 2%nat) as (toks & E & _ & Ht).
  - apply (lexes_spelled [((TIdentifier, [ch "_"]), [32])] _ [] []); [apply between_new|done|done|by vm_compute|done|].
    constructor; [|done]. split_and!; [|done|by repeat constructor]. split; [|done].
    exists (ch "_"), []. split_and!; [done|by right|done].
  - simpl. lia.
  - destruct toks as [|tok [|]]; try done. exists tok. split; [exact E|]. by injection Ht.
Qed.

End source.
