(* ===== verification/GinkgoParseTotal.v ===== *)
(** * Termination of the Ginkgo parser

    Every expression and every statement takes a token, so the recursions end:
    the fuel the parser gives them never runs out, on any source.  With that the
    parser's functions satisfy the equations of the source, without fuel. *)

From stdpp Require Import base tactics option list numbers.
From S2P Require Import Prelude Bytes Crates Effects GinkgoLex GinkgoVm GinkgoParse.

(** ** The lexer takes characters *)

Lemma chars_left_advance l :
  match (advance l).1 with
  | Some _ => (S (chars_left (advance l).2) = chars_left l)%nat
  | None => (chars_left (advance l).2 = chars_left l)%nat
  end.
Proof.
  unfold advance, chars_left, PeekingIter.next.
  destruct l as [src [inner [p|] [q|]] ?????]; simpl; try lia; destruct inner; simpl; lia.
Qed.

Lemma chars_left_advance_le l : (chars_left (advance l).2 <= chars_left l)%nat.
Proof. pose proof (chars_left_advance l). case_match; lia. Qed.

Lemma chars_left_peek l : (chars_left (stream_peek l).2 = chars_left l)%nat.
Proof.
  unfold stream_peek, chars_left, PeekingIter.peek.
  destruct l as [src [inner [p|] [q|]] ?????]; simpl; try lia; destruct inner; simpl; lia.
Qed.

Lemma chars_left_peek_next l c l' :
  stream_peek_next l = Val (c, l') -> (chars_left l' = chars_left l)%nat.
Proof.
  unfold stream_peek_next, chars_left, PeekingIter.peek_next.
  destruct l as [src [inner [p|] [q|]] ?????]; simpl; try done; [intros [= <- <-]; simpl; lia|].
  destruct inner; simpl; intros [= <- <-]; simpl; lia.
Qed.

(** The lookahead tokens are untouched by lexing. *)
Abbreviation peeks l := (lex_peek l, lex_peek_next l).

Lemma peeks_advance l : peeks (advance l).2 = peeks l.
Proof. unfold advance. by destruct (PeekingIter.next (stream l)) as [[]]. Qed.
Lemma peeks_peek l : peeks (stream_peek l).2 = peeks l.
Proof. unfold stream_peek. by destruct (PeekingIter.peek (stream l)). Qed.
Lemma peeks_peek_next l c l' : stream_peek_next l = Val (c, l') -> peeks l' = peeks l.
Proof. unfold stream_peek_next. destruct (PeekingIter.peek_next (stream l)) as [[]|]; simpl; [|done]. by intros [= <- <-]. Qed.

(** [l'] comes from [l] by lexing: no more characters, the same lookahead. *)
Definition lexed_from (l l' : Lex) : Prop := (chars_left l' <= chars_left l)%nat /\ peeks l' = peeks l.

#[global] Instance lexed_from_preorder : PreOrder lexed_from.
Proof. split; [by split|intros ??? [? E1] [? E2]; split; [lia|by rewrite E2]]. Qed.

Lemma lexed_advance l : lexed_from l (advance l).2.
Proof. split; [apply chars_left_advance_le|apply peeks_advance]. Qed.
Lemma lexed_peek l : lexed_from l (stream_peek l).2.
Proof. split; [by rewrite chars_left_peek|apply peeks_peek]. Qed.
Lemma lexed_peek_next l c l' : stream_peek_next l = Val (c, l') -> lexed_from l l'.
Proof. intros E. split; [by rewrite (chars_left_peek_next _ _ _ E)|by eapply peeks_peek_next]. Qed.

Lemma lexed_while p fuel : forall l l', advance_while p fuel l = Val l' -> lexed_from l l'.
Proof.
  induction fuel as [|fuel IH]; intros l l'; cbn [advance_while]; [done|].
  pose proof (lexed_peek l) as Hp. destruct (stream_peek l) as [[c|] l1]; simpl in Hp; [|by intros [= <-]].
  destruct (p c); [|by intros [= <-]]. intros E%IH. by rewrite Hp, (lexed_advance l1).
Qed.

Lemma lexed_one_or_two l c2 t2 t1 r l' : one_or_two l c2 t2 t1 = (r, l') -> lexed_from l l'.
Proof.
  unfold one_or_two. pose proof (lexed_peek l) as Hp. destruct (stream_peek l) as [c l1]; simpl in Hp.
  destruct (bool_decide _); intros [= <- <-]; [|done]. etrans; [exact Hp|apply lexed_advance].
Qed.

Lemma lexed_number c l r l' : lex_number c l = Val (r, l') -> lexed_from l l'.
Proof.
  unfold lex_number. pose proof (lexed_peek l) as Hp. destruct (stream_peek l) as [p l1]; simpl in Hp.
  set (sel := if _ && _ then _ else _). assert (lexed_from l1 sel.2) as Hsel.
  { subst sel. repeat case_match; simpl; try done; apply lexed_advance. }
  destruct sel as [base l2]; simpl in Hsel. rewrite bind_Val. intros (l3 & H3%lexed_while & E).
  pose proof (lexed_peek l3) as Hp3. destruct (stream_peek l3) as [p3 l4]; simpl in Hp3.
  apply bind_Val in E as ([float l5] & H5 & E).
  assert (lexed_from l4 l5) as H45.
  { destruct (bool_decide _); simplify_eq; [|done].
    apply bind_Val in H5 as ([q l6] & H6%lexed_peek_next & H5). by simplify_eq. }
  assert (lexed_from l l5) as H05 by (by rewrite Hp, Hsel, H3, Hp3).
  destruct float; [|by simplify_eq]. destruct (negb _); [by simplify_eq|].
  apply bind_Val in E as (l7 & H7%lexed_while & E). simplify_eq. etrans; [exact H05|]. by etrans; [apply lexed_advance|].
Qed.

Lemma lexed_string l r l' : lex_string l = Val (r, l') -> lexed_from l l'.
Proof.
  unfold lex_string. rewrite bind_Val. intros (l1 & H1%lexed_while & E).
  pose proof (lexed_advance l1) as Ha. destruct (advance l1) as [[c|] l2]; simpl in Ha.
  - apply bind_Val in E as (len & _ & E). simplify_eq. by rewrite H1, Ha.
  - simplify_eq. by rewrite H1.
Qed.

Section total.
Context `{UnicodeXID} `{Float64}.

Lemma lexed_word l r l' : lex_word l = Val (r, l') -> lexed_from l l'.
Proof.
  unfold lex_word. rewrite bind_Val. intros (l1 & H1%lexed_while & E).
  apply bind_Val in E as (w & _ & E). by simplify_eq.
Qed.

(** What lexing a token leaves: a token or an error took a character. *)
Definition shrunk (l : Lex) (o : lexed * Lex) : Prop :=
  peeks o.2 = peeks l /\
  match o.1 with
  | Some _ => (chars_left o.2 < chars_left l)%nat
  | None => (chars_left o.2 <= chars_left l)%nat
  end.

Lemma lexed_loop fuel : forall l o, next_no_peeking_loop fuel l = Val o -> shrunk l o.
Proof.
  induction fuel as [|fuel IH]; intros l o; cbn [next_no_peeking_loop]; [done|].
  set (l1 := with_span l (offset l) 0). change (shrunk l o) with (shrunk l1 o).
  pose proof (chars_left_advance l1) as Ha. pose proof (peeks_advance l1) as Hp.
  destruct (advance l1) as [[c|] l2]; cbn [fst snd] in Ha, Hp; [|intros [= <-]; split; simpl; [done|lia]].
  assert (forall o, lexed_from l2 o.2 -> shrunk l1 o) as Hfrom.
  { intros [r0 l0] [Hc Hpk]. split; simpl in *; [by rewrite Hpk|]. destruct r0; lia. }
  assert (forall c2 t2 t1, lexed_from l2 (one_or_two l2 c2 t2 t1).2) as Htwo.
  { intros c2 t2 t1. destruct (one_or_two l2 c2 t2 t1) eqn:E. by eapply lexed_one_or_two. }
  repeat match goal with
  | |- (if ?b then Val _ else _) = _ -> _ => destruct b; [intros [= <-]; apply Hfrom; done|]
  end.
  destruct (_ || _).
  { intros [Hpk Hr]%IH. split; [by rewrite Hpk|]. destruct o.1; lia. }
  destruct (is_digit 10 c); [intros E; destruct o; by eapply Hfrom, lexed_number|].
  destruct (c =? 34); [intros E; destruct o; by eapply Hfrom, lexed_string|].
  destruct (_ || _); [intros E; destruct o; by eapply Hfrom, lexed_word|].
  intros [= <-]. by apply Hfrom.
Qed.

(** ** Parser computations take tokens *)

(** [m] never puts characters or tokens back, or takes at least one of them. *)
Definition shrinks {A} (k : nat) (m : P A) : Prop := forall p a p',
  m p = Val (Ok a, p') -> (k + tokens_left p' <= tokens_left p)%nat.

Lemma shrinks_weaken {A} (m : P A) : shrinks 1 m -> shrinks 0 m.
Proof. intros Hm p a p' E%Hm. lia. Qed.

Lemma shrinks_bind {A B} j k (m : P A) (f : A -> P B) :
  shrinks j m -> (forall a, shrinks k (f a)) -> shrinks (j + k) (m ≫= f).
Proof.
  intros Hm Hf p b p'. rewrite M_bind_eq. destruct (m p) as [[[a|e] p1]|] eqn:E; try done.
  intros E2%Hf. apply Hm in E. lia.
Qed.
Lemma shrinks_bind00 {A B} (m : P A) (f : A -> P B) :
  shrinks 0 m -> (forall a, shrinks 0 (f a)) -> shrinks 0 (m ≫= f).
Proof. apply (shrinks_bind 0 0). Qed.
Lemma shrinks_bind10 {A B} (m : P A) (f : A -> P B) :
  shrinks 1 m -> (forall a, shrinks 0 (f a)) -> shrinks 1 (m ≫= f).
Proof. apply (shrinks_bind 1 0). Qed.
Lemma shrinks_bind01 {A B} (m : P A) (f : A -> P B) :
  shrinks 0 m -> (forall a, shrinks 1 (f a)) -> shrinks 1 (m ≫= f).
Proof. apply (shrinks_bind 0 1). Qed.

(** Computations that do not touch the lexer. *)
Lemma shrinks_same {A} (m : P A) :
  (forall p a p', m p = Val (Ok a, p') -> lexer p' = lexer p) -> shrinks 0 m.
Proof. intros Hm p a p' E%Hm. unfold tokens_left. by rewrite E. Qed.

Lemma shrinks_fail {A} k e : shrinks k (fail e : P A).
Proof. done. Qed.
Lemma shrinks_panic {A} k : shrinks k (panic : P A).
Proof. done. Qed.
Lemma shrinks_ret {A} (a : A) : shrinks 0 (mret a : P A).
Proof. intros p a' p' [= <- <-]. done. Qed.
Lemma shrinks_get : shrinks 0 (get : P Parser).
Proof. intros p a' p' [= <- <-]. done. Qed.
Lemma shrinks_lift {A} (o : outcome A) : shrinks 0 (lift o : P A).
Proof. apply shrinks_same. intros p a p'. unfold lift. destruct o; [|done]. by intros [= <- <-]. Qed.
Lemma shrinks_modify f : (forall p, lexer (f p) = lexer p) -> shrinks 0 (modify f : P unit).
Proof. intros Hf. apply shrinks_same. intros p a p' [= <- <-]. apply Hf. Qed.

Lemma shrinks_peek_token : shrinks 0 peek_token.
Proof.
  intros p t p'. unfold peek_token, peek, tokens_left.
  destruct (lex_peek (lexer p)) as [q|] eqn:Eq; obind.
  { intros [= <- <-]. simpl. rewrite Eq. done. }
  destruct (next_no_peeking (lexer p)) as [[r l]|] eqn:E; obind; [|done].
  apply lexed_loop in E as [Hp Hc]. simpl in *. injection Hp as Hp1 Hp2.
  destruct r as [[t'|e]|]; obind; intros [= <- <-]; simpl;
    unfold chars_left in *; simpl; rewrite Hp2; lia.
Qed.

(** [next] takes a token if there is one. *)
Lemma shrinks_next_token {B} (f : option Token -> P B) k :
  (forall t, shrinks k (f (Some t))) -> shrinks (S k) (f None) -> shrinks (S k) (next_token ≫= f).
Proof.
  intros Hsome Hnone p b p'. rewrite M_bind_eq. unfold next_token, GinkgoLex.next.
  assert (forall l, tokens_left (set_lexer l p) =
            (chars_left l + length (option_list (lex_peek l)) + length (option_list (lex_peek_next l)))%nat) as Hl
    by done.
  destruct (lex_peek (lexer p)) as [q|] eqn:Eq; obind.
  { intros E%Hsome. rewrite Hl in E. unfold tokens_left at 2. rewrite Eq. simpl in *.
    unfold chars_left in *. simpl in *. lia. }
  destruct (next_no_peeking (lexer p)) as [[r l]|] eqn:E; obind; [|done].
  apply lexed_loop in E as [Hp Hc]. simpl in *. injection Hp as Hp1 Hp2.
  destruct r as [[t'|e]|]; obind; [intros E%Hsome|done|intros E%Hnone]; rewrite Hl, Hp1, Hp2, Eq in E;
    unfold tokens_left at 2; rewrite Eq; simpl in *; lia.
Qed.
Lemma shrinks_next_token0 {B} (f : option Token -> P B) :
  (forall t, shrinks 0 (f t)) -> shrinks 0 (next_token ≫= f).
Proof.
  intros Hf. apply shrinks_bind00; [|done].
  assert (shrinks 1 (t ← next_token; match t with Some t => mret (Some t) | None => fail OutOfFuel end)) as Hn.
  { apply (shrinks_next_token _ 0); [intros; apply shrinks_ret|apply shrinks_fail]. }
  intros p [t|] p' E.
  - cut (1 + tokens_left p' <= tokens_left p)%nat; [lia|]. apply (Hn p (Some t) p').
    by rewrite M_bind_eq, E.
  - unfold next_token, GinkgoLex.next in E. destruct (lex_peek (lexer p)) as [q|] eqn:Eq; [done|].
    destruct (next_no_peeking (lexer p)) as [[[[]|] l]|] eqn:E2; simplify_eq/=.
    apply lexed_loop in E2 as [Hp Hc]. simpl in *. injection Hp as Hp1 Hp2.
    unfold tokens_left. simpl. rewrite Hp1, Hp2. lia.
Qed.

Lemma peek_token_Some p t p' :
  peek_token p = Val (Ok (Some t), p') -> lex_peek (lexer p') = Some t.
Proof.
  unfold peek_token, peek. destruct (lex_peek (lexer p)) as [q|] eqn:Eq; obind.
  { intros [= <- <-]. done. }
  destruct (next_no_peeking (lexer p)) as [[[[]|] l]|]; obind; try done. by intros [= <- <-].
Qed.

Lemma next_token_peeked p t :
  lex_peek (lexer p) = Some t ->
  exists p', next_token p = Val (Ok (Some t), p') /\ (S (tokens_left p') = tokens_left p)%nat.
Proof.
  intros Ht. unfold next_token, GinkgoLex.next. rewrite Ht. obind. eexists. split; [done|].
  unfold tokens_left, chars_left. rewrite Ht. simpl. lia.
Qed.

(** [matches] takes a token when it returns [true]. *)
Lemma matches_true t p p' : matches t p = Val (Ok true, p') -> (tokens_left p' < tokens_left p)%nat.
Proof.
  unfold matches. rewrite M_bind_eq.
  destruct (peek_token p) as [[[[tok|]|e] p1]|] eqn:E; try done.
  destruct (decide (typ tok = t)); [|done]. pose proof (shrinks_peek_token _ _ _ E).
  destruct (next_token_peeked _ _ (peek_token_Some _ _ _ E)) as (p2 & E2 & ?).
  rewrite M_bind_eq, E2. intros [= <-]. lia.
Qed.
Lemma shrinks_matches0 t : shrinks 0 (matches t).
Proof.
  intros p [] p' E; [apply matches_true in E; lia|]. revert E. unfold matches. rewrite M_bind_eq.
  destruct (peek_token p) as [[[[tok|]|e] p1]|] eqn:E; try done; apply shrinks_peek_token in E.
  - destruct (decide (typ tok = t)); [|by intros [= <-]].
    rewrite M_bind_eq. by destruct (next_token p1) as [[[]]|].
  - by intros [= <-].
Qed.
Lemma shrinks_matches {B} t (f : bool -> P B) k :
  shrinks k (f true) -> shrinks (S k) (f false) -> shrinks (S k) (matches t ≫= f).
Proof.
  intros Ht Hf p b p'. rewrite M_bind_eq.
  destruct (matches t p) as [[[[]|e] p1]|] eqn:E; try done.
  - apply matches_true in E. intros E2%Ht. lia.
  - apply shrinks_matches0 in E. intros E2%Hf. lia.
Qed.

End total.

Create HintDb shrink discriminated.
#[export] Hint Resolve shrinks_fail shrinks_panic shrinks_ret shrinks_get shrinks_lift
  shrinks_peek_token shrinks_matches0 : shrink.
#[export] Hint Extern 1 (shrinks 0 (modify _)) => apply shrinks_modify; intros; done : shrink.
#[export] Hint Extern 1 (shrinks 0 (put _)) => apply shrinks_same : shrink.

(** Follow the structure of a computation down to the ones in the database. *)
Ltac shrink :=
  intros;
  lazymatch goal with
  | |- shrinks 1 (next_token ≫= _) => apply (shrinks_next_token _ 0); [shrink|shrink]
  | |- shrinks 0 (next_token ≫= _) => apply shrinks_next_token0; shrink
  | |- shrinks 1 (matches _ ≫= _) => apply (shrinks_matches _ _ 0); [shrink|shrink]
  | |- shrinks 0 (_ ≫= _) => apply shrinks_bind00; [shrink|shrink]
  | |- shrinks 1 (_ ≫= _) =>
      first [ apply shrinks_bind10; [solve [eauto with shrink]|shrink]
            | apply shrinks_bind01; [shrink|shrink] ]
  | |- shrinks _ (match ?x with _ => _ end) => destruct x; shrink
  | |- shrinks _ (let '(_, _) := ?x in _) => destruct x; shrink
  | |- _ => eauto with shrink
  end.

Section parser.
Context `{UnicodeXID} `{Float64}.

Lemma shrinks_consume t : shrinks 1 (consume t).
Proof. unfold consume. shrink. Qed.
Lemma shrinks_value_of t : shrinks 0 (value_of t).
Proof. unfold value_of. shrink. Qed.
Lemma shrinks_emit_raw b : shrinks 0 (emit_raw b).
Proof. unfold emit_raw. shrink. Qed.
Lemma shrinks_emit op : shrinks 0 (emit op).
Proof. apply shrinks_emit_raw. Qed.
Lemma shrinks_push_local x : shrinks 0 (push_local x).
Proof. unfold push_local. shrink. Qed.
#[local] Hint Resolve shrinks_consume shrinks_value_of shrinks_emit_raw shrinks_emit shrinks_push_local : shrink.
#[local] Hint Resolve shrinks_weaken : shrink.

Lemma shrinks_identifier : shrinks 1 identifier.
Proof. unfold identifier. shrink. Qed.
Lemma shrinks_emit2 op b : shrinks 0 (emit2 op b).
Proof. unfold emit2. shrink. Qed.
Lemma shrinks_emit_jump op : shrinks 0 (emit_jump op).
Proof. unfold emit_jump. shrink. Qed.
Lemma shrinks_emit_jump_to op t : shrinks 0 (emit_jump_to op t).
Proof. unfold emit_jump_to. shrink. Qed.
Lemma shrinks_patch o : shrinks 0 (patch o).
Proof.
  apply shrinks_same. intros p a p'. unfold patch. rewrite !M_bind_eq. simpl. unfold lift.
  destruct (patch_jump _ _); simpl; [|done]. by intros [= <- <-].
Qed.
Lemma shrinks_constant v : shrinks 0 (constant v).
Proof.
  apply shrinks_same. intros p a p'. unfold constant. rewrite !M_bind_eq. simpl. by intros [= <- <-].
Qed.
Lemma shrinks_emit_pops n : shrinks 0 (emit_pops n).
Proof. induction n; cbn [emit_pops]; shrink. Qed.
Lemma shrinks_take_place : shrinks 0 take_place.
Proof.
  apply shrinks_same. intros p a p'. unfold take_place. rewrite !M_bind_eq. simpl.
  destruct (pop_last _) as [[b|] c]; simpl; [|done]. destruct (pop_last_op c) as [[op|] c']; simpl; [|done].
  destruct op; try done; by intros [= <- <-].
Qed.
Lemma shrinks_end_scope : shrinks 0 end_scope.
Proof.
  intros p a p'. unfold end_scope. rewrite M_bind_eq. simpl. rewrite M_bind_eq. unfold lift.
  destruct (rassert _); [|done]. rewrite M_bind_eq. simpl. rewrite M_bind_eq.
  destruct (emit_pops _ _) as [[[u|e] q]|] eqn:E; try done.
  apply shrinks_emit_pops in E. by intros [= <- <-].
Qed.
#[local] Hint Resolve shrinks_identifier shrinks_emit2 shrinks_emit_jump shrinks_emit_jump_to
  shrinks_patch shrinks_constant shrinks_emit_pops shrinks_take_place shrinks_end_scope : shrink.

Lemma shrinks_parselets t :
  shrinks 0 (identifier_parselet t) /\ shrinks 0 (integer_parselet t) /\
  shrinks 0 (string_parselet t) /\ shrinks 0 (bool_parselet t).
Proof.
  unfold identifier_parselet, integer_parselet, string_parselet, bool_parselet.
  split_and!; shrink.
Qed.

Lemma shrinks_expressions n :
  (forall prec, shrinks 1 (expression_fuel n prec)) /\ (forall prec, shrinks 0 (infix_loop n prec)) /\
  (forall pf t, shrinks 0 (prefix_fuel n pf t)) /\ (forall i t, shrinks 0 (infix_fuel n i t)) /\
  (forall k, shrinks 0 (call_args n k)).
Proof.
  induction n as [|n (IHe & IHl & IHp & IHi & IHc)]; [by split_and!|].
  split_and!; intros; cbn [expression_fuel infix_loop prefix_fuel infix_fuel call_args].
  - shrink.
  - shrink.
  - destruct (shrinks_parselets t) as (? & ? & ? & ?). destruct pf; shrink.
  - shrink.
  - shrink.
Qed.

Lemma shrinks_expression prec : shrinks 1 (expression prec).
Proof. intros p a p'. apply shrinks_expressions. Qed.

#[local] Hint Resolve shrinks_expression : shrink.

Lemma shrinks_params n : forall k, shrinks 0 (params_loop n k).
Proof. induction n; intros k; cbn [params_loop]; [shrink|]. shrink. Qed.

Lemma shrinks_define_global x : shrinks 0 (define_global_code x).
Proof. unfold define_global_code. shrink. Qed.
Lemma shrinks_begin_scope : shrinks 0 begin_scope.
Proof. unfold begin_scope. shrink. Qed.
Lemma shrinks_enter : shrinks 0 enter_function.
Proof. unfold enter_function. shrink. Qed.
Lemma shrinks_leave : shrinks 0 leave_function.
Proof.
  apply shrinks_same. intros p a p'. unfold leave_function. rewrite !M_bind_eq. simpl. unfold lift.
  destruct (vec_pop _) as [[f fs]|]; simpl; [|done]. by intros [= <- <-].
Qed.
#[local] Hint Resolve shrinks_define_global shrinks_begin_scope shrinks_enter shrinks_leave : shrink.

Lemma shrinks_let : shrinks 1 let_statement.
Proof. unfold let_statement. shrink. Qed.
Lemma shrinks_return : shrinks 1 return_statement.
Proof. unfold return_statement. shrink. Qed.
Lemma shrinks_expression_statement : shrinks 1 expression_statement.
Proof. unfold expression_statement. shrink. Qed.
#[local] Hint Resolve shrinks_let shrinks_return shrinks_expression_statement : shrink.

Lemma shrinks_params_all : shrinks 0 params.
Proof. intros p a p'. apply shrinks_params. Qed.
#[local] Hint Resolve shrinks_params_all : shrink.

Lemma shrinks_statements n :
  shrinks 1 (statement_fuel n) /\ shrinks 1 (block_loop n) /\ shrinks 1 (function_decl n).
Proof.
  induction n as [|n (IHs & IHb & IHf)]; [by split_and!|].
  split_and!; cbn [statement_fuel block_loop function_decl].
  - shrink.
  - shrink.
  - shrink.
Qed.

Lemma shrinks_statement : shrinks 1 statement.
Proof. intros p a p'. apply shrinks_statements. Qed.

End parser.

(** ** Fuel never runs out *)

Section fuel.
Context `{UnicodeXID} `{Float64}.

Definition fine {A} (o : outcome (result A Diagnostic * Parser)) : Prop :=
  match o with Val (Err OutOfFuel, _) => False | _ => True end.

(** Computations without fuel. *)
Definition clean {A} (m : P A) : Prop := forall p, fine (m p).

Lemma clean_bind {A B} (m : P A) (f : A -> P B) : clean m -> (forall a, clean (f a)) -> clean (m ≫= f).
Proof.
  intros Hm Hf p. rewrite M_bind_eq. specialize (Hm p). destruct (m p) as [[[a|e] p']|]; [apply Hf|done|done].
Qed.
Lemma clean_ret {A} (a : A) : clean (mret a : P A).
Proof. done. Qed.
Lemma clean_get : clean (get : P Parser).
Proof. done. Qed.
Lemma clean_put p : clean (put p : P unit).
Proof. done. Qed.
Lemma clean_modify f : clean (modify f : P unit).
Proof. done. Qed.
Lemma clean_panic {A} : clean (panic : P A).
Proof. done. Qed.
Lemma clean_lift {A} (o : outcome A) : clean (lift o : P A).
Proof. intros p. unfold lift. by destruct o. Qed.
Lemma clean_fail {A} e : e <> OutOfFuel -> clean (fail e : P A).
Proof. intros He p. by destruct e. Qed.

(** The lexer's own errors. *)
Definition lexer_error (r : lexed) : Prop := match r with Some (Err OutOfFuel) => False | _ => True end.

Lemma lex_number_error c l o : lex_number c l = Val o -> lexer_error o.1.
Proof.
  unfold lex_number. destruct (stream_peek l) as [p l1]. destruct (if _ && _ then _ else _) as [base l2].
  rewrite bind_Val. intros (l3 & _ & E). destruct (stream_peek l3) as [p3 l4].
  apply bind_Val in E as ([float l5] & _ & E). destruct float; [|by simplify_eq].
  destruct (negb _); [by simplify_eq|]. apply bind_Val in E as (l7 & _ & E). by simplify_eq.
Qed.

Lemma lexer_errors fuel : forall l o, next_no_peeking_loop fuel l = Val o -> lexer_error o.1.
Proof.
  induction fuel as [|fuel IH]; intros l o; cbn [next_no_peeking_loop]; [done|].
  destruct (advance _) as [[c|] l2]; [|by intros [= <-]].
  assert (forall c2 t2 t1, lexer_error (one_or_two l2 c2 t2 t1).1) as Htwo.
  { intros c2 t2 t1. unfold one_or_two. destruct (stream_peek l2). by case_match. }
  repeat match goal with
  | |- (if ?b then Val _ else _) = _ -> _ => destruct b; [by intros [= <-]|]
  end.
  destruct (_ || _); [apply IH|].
  destruct (is_digit 10 c); [apply lex_number_error|].
  destruct (c =? 34).
  { unfold lex_string. rewrite bind_Val. intros (l3 & _ & E). destruct (advance l3) as [[q|] l4].
    - apply bind_Val in E as (len & _ & E). by simplify_eq.
    - by simplify_eq. }
  destruct (_ || _); [|by intros [= <-]].
  unfold lex_word. rewrite bind_Val. intros (l3 & _ & E). apply bind_Val in E as (w & _ & E). by simplify_eq.
Qed.

Lemma clean_peek_token : clean peek_token.
Proof.
  intros p. unfold peek_token, peek. destruct (lex_peek (lexer p)); obind; [done|].
  destruct (next_no_peeking (lexer p)) as [[r l]|] eqn:E; obind; [|done].
  apply lexer_errors in E. destruct r as [[t|[]]|]; done.
Qed.
Lemma clean_next_token : clean next_token.
Proof.
  intros p. unfold next_token, GinkgoLex.next. destruct (lex_peek (lexer p)); obind; [done|].
  destruct (next_no_peeking (lexer p)) as [[r l]|] eqn:E; obind; [|done].
  apply lexer_errors in E. destruct r as [[t|[]]|]; done.
Qed.

(** [m] and [m'] do the same from [p], and not by running out of fuel. *)
Definition agree {A} (m m' : P A) (p : Parser) : Prop := m p = m' p /\ fine (m p).

Lemma agree_bind {A B} (m m' : P A) (f f' : A -> P B) p :
  agree m m' p -> (forall a p', m p = Val (Ok a, p') -> agree (f a) (f' a) p') ->
  agree (m ≫= f) (m' ≫= f') p.
Proof.
  intros [E Hm] Hf. unfold agree. rewrite !M_bind_eq, <- E.
  destruct (m p) as [[[a|e] p']|]; [by apply Hf|done|done].
Qed.
Lemma agree_eq {A} (m m' : P A) p : agree m m' p -> m p = m' p.
Proof. by intros [? _]. Qed.
Lemma agree_clean {A} (m : P A) p : clean m -> agree m m p.
Proof. intros Hm. split; [done|apply Hm]. Qed.

End fuel.

Create HintDb clean discriminated.
#[export] Hint Resolve clean_ret clean_get clean_put clean_modify clean_panic clean_lift
  clean_peek_token clean_next_token : clean.
#[export] Hint Extern 1 (clean (fail _)) => apply clean_fail; done : clean.

Ltac clean :=
  intros;
  lazymatch goal with
  | |- clean (_ ≫= _) => apply clean_bind; [clean|clean]
  | |- clean (match ?x with _ => _ end) => destruct x; clean
  | |- _ => eauto with clean
  end.

(** Compare two runs of a computation that differ in the fuel of the calls the
    hypotheses are about; [tac] discharges the bounds on the tokens left. *)
Ltac agree tac :=
  intros;
  lazymatch goal with
  | |- agree (_ ≫= _) (_ ≫= _) _ => apply agree_bind; [agree tac|intros ? ? ?; agree tac]
  | |- agree (match ?x with _ => _ end) _ _ => destruct x eqn:?; agree tac
  | |- _ => first [ solve [apply agree_clean; clean] | solve [tac] ]
  end.

Section agreement.
Context `{UnicodeXID} `{Float64}.

Lemma clean_emission op b t o v n x :
  clean (emit op) /\ clean (emit2 op b) /\ clean (emit_jump op) /\ clean (emit_jump_to op t) /\
  clean (patch o) /\ clean (constant v) /\ clean (emit_pops n) /\ clean (push_local x) /\
  clean begin_scope /\ clean (define_global_code x) /\ clean enter_function /\ clean leave_function.
Proof.
  assert (forall op, clean (emit op)) by (unfold emit, emit_raw; clean).
  assert (forall op b, clean (emit2 op b)) by (unfold emit2, emit_raw; clean).
  assert (forall v, clean (constant v)) by (unfold constant; clean).
  split_and!; [done|done|..];
    unfold emit_jump, emit_jump_to, emit_raw, patch, push_local, begin_scope, define_global_code,
      enter_function, leave_function; try solve [clean].
  induction n; cbn [emit_pops]; clean.
Qed.

Lemma clean_tokens t tok :
  clean (matches t) /\ clean (consume t) /\ clean identifier /\ clean (value_of tok) /\ clean end_scope.
Proof.
  assert (clean (value_of tok)) by (unfold value_of; clean).
  assert (forall t, clean (consume t)) by (unfold consume; clean).
  split_and!; [|done| |done|].
  - unfold matches. clean.
  - unfold identifier, value_of. clean.
  - unfold end_scope. apply clean_bind; [clean|intros p]. apply clean_bind; [clean|intros _].
    apply clean_bind; [clean|intros _]. apply clean_bind; [|clean].
    by apply (clean_emission Pop 0 0%nat 0%nat VUnit _ []).
Qed.

#[local] Hint Extern 1 (clean ?m) =>
  lazymatch m with
  | matches ?t => apply (clean_tokens t (mkToken Plus 0 0))
  | consume ?t => apply (clean_tokens t (mkToken Plus 0 0))
  | identifier => apply (clean_tokens Plus (mkToken Plus 0 0))
  | end_scope => apply (clean_tokens Plus (mkToken Plus 0 0))
  | value_of ?t => apply (clean_tokens Plus t)
  | emit ?op => apply (clean_emission op 0 0%nat 0%nat VUnit 0%nat [])
  | emit2 ?op ?b => apply (clean_emission op b 0%nat 0%nat VUnit 0%nat [])
  | emit_jump ?op => apply (clean_emission op 0 0%nat 0%nat VUnit 0%nat [])
  | emit_jump_to ?op ?t => apply (clean_emission op 0 t 0%nat VUnit 0%nat [])
  | patch ?o => apply (clean_emission Pop 0 0%nat o VUnit 0%nat [])
  | constant ?v => apply (clean_emission Pop 0 0%nat 0%nat v 0%nat [])
  | push_local ?x => apply (clean_emission Pop 0 0%nat 0%nat VUnit 0%nat x)
  | begin_scope => apply (clean_emission Pop 0 0%nat 0%nat VUnit 0%nat [])
  | enter_function => apply (clean_emission Pop 0 0%nat 0%nat VUnit 0%nat [])
  | leave_function => apply (clean_emission Pop 0 0%nat 0%nat VUnit 0%nat [])
  | define_global_code ?x => apply (clean_emission Pop 0 0%nat 0%nat VUnit 0%nat x)
  end : clean.

Lemma clean_parselets t :
  clean (identifier_parselet t) /\ clean (integer_parselet t) /\ clean (string_parselet t) /\
  clean (bool_parselet t) /\ clean take_place.
Proof.
  unfold identifier_parselet, integer_parselet, string_parselet, bool_parselet, take_place.
  split_and!; clean.
Qed.

Lemma next_token_Some p t p' :
  next_token p = Val (Ok (Some t), p') -> (tokens_left p' < tokens_left p)%nat.
Proof.
  intros E. assert (shrinks 1 (t ← next_token; match t with Some t => mret tt | None => fail OutOfFuel end)) as Hn.
  { apply (shrinks_next_token _ 0); [intros; apply shrinks_ret|apply shrinks_fail]. }
  specialize (Hn p tt p'). rewrite M_bind_eq, E in Hn. specialize (Hn eq_refl). lia.
Qed.

#[local] Hint Resolve shrinks_consume shrinks_identifier shrinks_expression shrinks_statement : shrink.
#[local] Hint Resolve shrinks_weaken shrinks_value_of shrinks_emit_raw shrinks_emit shrinks_push_local
  shrinks_emit2 shrinks_emit_jump shrinks_emit_jump_to shrinks_patch shrinks_constant shrinks_take_place
  shrinks_end_scope shrinks_begin_scope shrinks_enter shrinks_leave shrinks_params_all : shrink.

Lemma lift_unwrap_Ok {A} (o : option A) (p p' : Parser) a :
  (lift (unwrap o) : P A) p = Val (Ok a, p') -> o = Some a /\ p' = p.
Proof. destruct o; unfold lift; simpl; [|done]. by intros [= <- <-]. Qed.

(** Turn what was run into bounds on the tokens left, and decide the goal. *)
Ltac by_tokens :=
  repeat match goal with
  | H : lift (unwrap _) _ = Val (Ok _, _) |- _ => apply lift_unwrap_Ok in H as [-> ->]
  end;
  repeat match goal with
  | H : next_token _ = Val (Ok (Some _), _) |- _ => apply next_token_Some in H
  | H : matches _ _ = Val (Ok true, _) |- _ => apply matches_true in H
  | H : ?m ?p = Val (Ok _, _) |- _ =>
      first [ let S := fresh in assert (shrinks 1 m) as S by eauto with shrink; apply S in H; clear S
            | let S := fresh in assert (shrinks 0 m) as S by (solve [shrink]); apply S in H; clear S ]
  end; lia.

Lemma expressions_agree n : forall m,
  (forall prec p, (4 * tokens_left p < n)%nat -> (4 * tokens_left p < m)%nat ->
     agree (expression_fuel n prec) (expression_fuel m prec) p) /\
  (forall prec p, (4 * tokens_left p < n)%nat -> (4 * tokens_left p < m)%nat ->
     agree (infix_loop n prec) (infix_loop m prec) p) /\
  (forall pf t p, (4 * tokens_left p + 1 < n)%nat -> (4 * tokens_left p + 1 < m)%nat ->
     agree (prefix_fuel n pf t) (prefix_fuel m pf t) p) /\
  (forall i t p, (4 * tokens_left p + 2 < n)%nat -> (4 * tokens_left p + 2 < m)%nat ->
     agree (infix_fuel n i t) (infix_fuel m i t) p) /\
  (forall k p, (4 * tokens_left p + 1 < n)%nat -> (4 * tokens_left p + 1 < m)%nat ->
     agree (call_args n k) (call_args m k) p).
Proof.
  induction n as [|n IH]; intros [|m]; [by split_and!; lia..|].
  destruct (IH m) as (IHe & IHl & IHp & IHi & IHc). clear IH.
  pose proof (shrinks_expressions n) as (Se & Sl & Sp & Si & Sc).
  split_and!; intros; cbn [expression_fuel infix_loop prefix_fuel infix_fuel call_args].
  - agree ltac:(first [apply IHp | apply IHl]; by_tokens).
  - agree ltac:(first [apply IHi | apply IHl]; by_tokens).
  - destruct (clean_parselets t) as (? & ? & ? & ? & _).
    destruct pf; try (by apply agree_clean); agree ltac:(apply IHe; by_tokens).
  - destruct (clean_parselets t) as (? & ? & ? & ? & ?).
    agree ltac:(first [apply IHe | apply IHc]; by_tokens).
  - agree ltac:(first [apply IHe | apply IHc]; by_tokens).
Qed.

Lemma clean_expression prec : clean (expression prec).
Proof. intros p. unfold expression. eapply (expressions_agree _ (S (4 * tokens_left p))); lia. Qed.
#[local] Hint Resolve clean_expression : clean.

Lemma params_agree n : forall m k p, (tokens_left p < n)%nat -> (tokens_left p < m)%nat ->
  agree (params_loop n k) (params_loop m k) p.
Proof.
  induction n as [|n IH]; intros [|m] k p Hn Hm; [lia..|]. cbn [params_loop].
  pose proof (@shrinks_lift). agree ltac:(apply IH; by_tokens).
Qed.
Lemma clean_params : clean params.
Proof. intros p. unfold params. eapply (params_agree _ (S (tokens_left p))); lia. Qed.
#[local] Hint Resolve clean_params : clean.

Lemma clean_simple_statements : clean let_statement /\ clean return_statement /\ clean expression_statement.
Proof.
  unfold let_statement, return_statement, expression_statement. split_and!; clean.
Qed.

Lemma statements_agree n : forall m,
  (forall p, (2 * tokens_left p < n)%nat -> (2 * tokens_left p < m)%nat ->
     agree (statement_fuel n) (statement_fuel m) p) /\
  (forall p, (2 * tokens_left p + 1 < n)%nat -> (2 * tokens_left p + 1 < m)%nat ->
     agree (block_loop n) (block_loop m) p) /\
  (forall p, (2 * tokens_left p < n)%nat -> (2 * tokens_left p < m)%nat ->
     agree (function_decl n) (function_decl m) p).
Proof.
  induction n as [|n IH]; intros [|m]; [by split_and!; lia..|].
  destruct (IH m) as (IHs & IHb & IHf). clear IH.
  pose proof (shrinks_statements n) as (Ss & Sb & Sf).
  destruct clean_simple_statements as (? & ? & ?).
  split_and!; intros; cbn [statement_fuel block_loop function_decl].
  - agree ltac:(first [apply IHb | apply IHf]; by_tokens).
  - agree ltac:(first [apply IHs | apply IHb]; by_tokens).
  - agree ltac:(apply IHb; by_tokens).
Qed.

Lemma clean_statement : clean statement.
Proof. intros p. unfold statement. eapply (statements_agree _ (S (2 * tokens_left p))); lia. Qed.
#[local] Hint Resolve clean_statement : clean.

Lemma parse_loop_agree n : forall m p, (tokens_left p < n)%nat -> (tokens_left p < m)%nat ->
  agree (parse_loop n) (parse_loop m) p.
Proof.
  induction n as [|n IH]; intros [|m] p Hn Hm; [lia..|]. cbn [parse_loop].
  agree ltac:(apply IH; by_tokens).
Qed.

(** ** The parser's functions without fuel, and their equations *)

Definition infix_operators (prec : Z) : P unit := fun p => infix_loop (S (4 * tokens_left p)) prec p.
Definition prefix (pf : PrefixParselet) (t : Token) : P unit := fun p =>
  prefix_fuel (2 + 4 * tokens_left p) pf t p.
Definition infix (i : InfixParselet) (t : Token) : P unit := fun p =>
  infix_fuel (3 + 4 * tokens_left p) i t p.
Definition arguments (k : Z) : P Z := fun p => call_args (2 + 4 * tokens_left p) k p.
Definition block : P unit := fun p => block_loop (2 + 2 * tokens_left p) p.
Definition function : P unit := fun p => function_decl (S (2 * tokens_left p)) p.
Definition parse_statements : P unit := fun p => parse_loop (S (tokens_left p)) p.

Lemma expression_agrees n prec p :
  (4 * tokens_left p < n)%nat -> agree (expression_fuel n prec) (expression prec) p.
Proof. intros. eapply (expressions_agree _ (S (4 * tokens_left p))); lia. Qed.
Lemma infix_operators_agrees n prec p :
  (4 * tokens_left p < n)%nat -> agree (infix_loop n prec) (infix_operators prec) p.
Proof. intros. eapply (expressions_agree _ (S (4 * tokens_left p))); lia. Qed.
Lemma prefix_agrees n pf t p :
  (4 * tokens_left p + 1 < n)%nat -> agree (prefix_fuel n pf t) (prefix pf t) p.
Proof. intros. eapply (expressions_agree _ (2 + 4 * tokens_left p)); lia. Qed.
Lemma infix_agrees n i t p :
  (4 * tokens_left p + 2 < n)%nat -> agree (infix_fuel n i t) (infix i t) p.
Proof. intros. eapply (expressions_agree _ (3 + 4 * tokens_left p)); lia. Qed.
Lemma arguments_agrees n k p :
  (4 * tokens_left p + 1 < n)%nat -> agree (call_args n k) (arguments k) p.
Proof. intros. eapply (expressions_agree _ (2 + 4 * tokens_left p)); lia. Qed.
Lemma statement_agrees n p : (2 * tokens_left p < n)%nat -> agree (statement_fuel n) statement p.
Proof. intros. eapply (statements_agree _ (S (2 * tokens_left p))); lia. Qed.
Lemma block_agrees n p : (2 * tokens_left p + 1 < n)%nat -> agree (block_loop n) block p.
Proof. intros. eapply (statements_agree _ (2 + 2 * tokens_left p)); lia. Qed.
Lemma function_agrees n p : (2 * tokens_left p < n)%nat -> agree (function_decl n) function p.
Proof. intros. eapply (statements_agree _ (S (2 * tokens_left p))); lia. Qed.

Ltac agrees :=
  first [ apply expression_agrees | apply infix_operators_agrees | apply prefix_agrees
        | apply infix_agrees | apply arguments_agrees | apply statement_agrees | apply block_agrees
        | apply function_agrees ].

Lemma fuel_S k m : exists n, (S k + m = S n)%nat /\ (k + m <= n)%nat.
Proof. exists (k + m)%nat. lia. Qed.

Lemma expression_eq prec p :
  expression prec p =
    (token ← next_token;
     match token with
     | None => fail EndOfTokenStreamInExpression
     | Some token =>
         match prefix_for (typ token) with
         | None => fail (UnrecognisedPrefixOperator (typ token))
         | Some pf => _ ← prefix pf token; infix_operators prec
         end
     end) p.
Proof.
  unfold expression. cbn [expression_fuel].
  pose proof (shrinks_expressions (4 * tokens_left p)) as (Se & Sl & Sp & Si & Sc).
  apply agree_eq. agree ltac:(agrees; by_tokens).
Qed.

Lemma infix_operators_eq prec p :
  infix_operators prec p =
    (next ← peek_token;
     if match next with
        | Some next =>
            match precedence_for (typ next) with Some q => prec <? q | None => false end
        | None => false
        end
     then
       next ← next_token;
       next ← lift (unwrap next);
       match infix_for (typ next) with
       | None => fail (UnrecognisedInfixOperator (typ next))
       | Some i => _ ← infix i next; infix_operators prec
       end
     else mret tt) p.
Proof.
  unfold infix_operators at 1. cbn [infix_loop].
  pose proof (shrinks_expressions (4 * tokens_left p)) as (Se & Sl & Sp & Si & Sc).
  apply agree_eq. agree ltac:(agrees; by_tokens).
Qed.

Lemma prefix_eq pf t p :
  prefix pf t p =
    match pf with
    | PIdentifier => identifier_parselet t
    | PInteger => integer_parselet t
    | PString => string_parselet t
    | PBool => bool_parselet t
    | PNegate => _ ← expression PRECEDENCE_PREFIX; emit Negate
    | PGroup => _ ← expression 0; _ ← consume RightParen; mret tt
    end p.
Proof.
  unfold prefix. destruct (fuel_S 1 (4 * tokens_left p)) as (n & -> & ?). cbn [prefix_fuel]. destruct (clean_parselets t) as (? & ? & ? & ? & _).
  apply agree_eq. destruct pf; cbn match; try (by apply agree_clean); agree ltac:(agrees; by_tokens).
Qed.

Lemma infix_eq i t p :
  infix i t p =
    match i with
    | IBinary =>
        match binary_operator (typ t) with
        | Some (op, prec) => _ ← expression prec; emit op
        | None => panic
        end
    | IAnd =>
        jump ← emit_jump JumpIfFalse; _ ← emit Pop; _ ← expression PRECEDENCE_LOGICAL_AND; patch jump
    | IOr =>
        jump ← emit_jump JumpIfTrue; _ ← emit Pop; _ ← expression PRECEDENCE_LOGICAL_OR; patch jump
    | IAssign =>
        '(operand, op) ← take_place; _ ← expression (PRECEDENCE_ASSIGNMENT - 1); emit2 op operand
    | ICall => arg_count ← arguments 0; emit2 Call arg_count
    end p.
Proof.
  unfold infix. destruct (fuel_S 2 (4 * tokens_left p)) as (n & -> & ?). cbn [infix_fuel]. destruct (clean_parselets t) as (? & ? & ? & ? & ?).
  apply agree_eq. destruct i; cbn match; agree ltac:(agrees; by_tokens).
Qed.

Lemma arguments_eq k p :
  arguments k p =
    (close ← matches RightParen;
     if close : bool then mret k
     else _ ← expression 0; _ ← matches Comma; k ← lift (wadd 8 k 1); arguments k) p.
Proof.
  unfold arguments at 1. destruct (fuel_S 1 (4 * tokens_left p)) as (n & -> & ?). cbn [call_args].
  pose proof (shrinks_expressions n) as (Se & Sl & Sp & Si & Sc).
  apply agree_eq. agree ltac:(agrees; by_tokens).
Qed.

Lemma statement_eq p :
  statement p =
    (is_let ← matches TLet;
     if is_let : bool then let_statement else
     is_block ← matches LeftBrace;
     if is_block : bool then _ ← begin_scope; _ ← block; end_scope else
     is_if ← matches TIf;
     if is_if : bool then
       _ ← expression 0;
       then_jump ← emit_jump JumpIfFalse;
       _ ← emit Pop;
       _ ← consume LeftBrace;
       _ ← begin_scope; _ ← block; _ ← end_scope;
       else_jump ← emit_jump Jump;
       _ ← patch then_jump;
       _ ← emit Pop;
       has_else ← matches TElse;
       _ ← (if has_else : bool then
              _ ← consume LeftBrace; _ ← begin_scope; _ ← block; end_scope
            else mret tt);
       patch else_jump
     else
     is_while ← matches TWhile;
     if is_while : bool then
       p ← get;
       _ ← expression 0;
       exit_jump ← emit_jump JumpIfFalse;
       _ ← emit Pop;
       _ ← consume LeftBrace;
       _ ← begin_scope; _ ← block; _ ← end_scope;
       _ ← emit_jump_to Jump (current_offset (chunk (current_function p)));
       patch exit_jump
     else
     is_fn ← matches TFn;
     if is_fn : bool then function else
     is_return ← matches TReturn;
     if is_return : bool then return_statement else expression_statement) p.
Proof.
  unfold statement. change (S (2 * tokens_left p)) with (1 + 2 * tokens_left p)%nat.
  destruct (fuel_S 0 (2 * tokens_left p)) as (n & -> & ?). cbn [statement_fuel].
  pose proof (shrinks_statements n) as (Ss & Sb & Sf). destruct clean_simple_statements as (? & ? & ?).
  apply agree_eq. agree ltac:(agrees; by_tokens).
Qed.

Lemma block_eq p :
  block p = (close ← matches RightBrace; if close : bool then mret tt else _ ← statement; block) p.
Proof.
  unfold block at 1. destruct (fuel_S 1 (2 * tokens_left p)) as (n & -> & ?). cbn [block_loop].
  pose proof (shrinks_statements n) as (Ss & Sb & Sf). apply agree_eq. agree ltac:(agrees; by_tokens).
Qed.

Lemma function_eq p :
  function p =
    (name ← identifier;
     _ ← enter_function;
     _ ← begin_scope;
     _ ← push_local name;
     _ ← consume LeftParen;
     no_params ← matches RightParen;
     arity ← (if no_params : bool then mret 0 else arity ← params; _ ← consume RightParen; mret arity);
     _ ← consume LeftBrace;
     _ ← block;
     _ ← end_scope;
     function ← leave_function;
     k ← constant (VObj (GinkgoFunction name arity (chunk function)));
     _ ← emit2 Constant k;
     p ← get;
     if decide (scope_depth (current_function p) = 0)%nat then define_global_code name else mret tt) p.
Proof.
  unfold function. change (S (2 * tokens_left p)) with (1 + 2 * tokens_left p)%nat.
  destruct (fuel_S 0 (2 * tokens_left p)) as (n & -> & ?). cbn [function_decl].
  pose proof (shrinks_statements n) as (Ss & Sb & Sf). apply agree_eq. agree ltac:(agrees; by_tokens).
Qed.

Lemma parse_statements_eq p :
  parse_statements p =
    (token ← peek_token;
     match token with
     | Some _ => _ ← statement; parse_statements
     | None => mret tt
     end) p.
Proof.
  unfold parse_statements at 1. cbn [parse_loop]. apply agree_eq.
  agree ltac:(eapply (parse_loop_agree _ (S (tokens_left _))); by_tokens).
Qed.

(** The parameters after the first [k]. *)
Definition params_from (k : Z) : P Z := fun p => params_loop (S (tokens_left p)) k p.

Lemma params_from_agrees n k p : (tokens_left p < n)%nat -> agree (params_loop n k) (params_from k) p.
Proof. intros. eapply (params_agree _ (S (tokens_left p))); lia. Qed.

Lemma params_from_eq k p :
  params_from k p =
    (name ← identifier;
     arity ← lift (uadd k 1);
     _ ← push_local name;
     comma ← matches Comma;
     if comma : bool then params_from arity else mret arity) p.
Proof.
  unfold params_from at 1. cbn [params_loop]. apply agree_eq.
  agree ltac:(apply params_from_agrees; by_tokens).
Qed.

(** C26: Parsing ends on every source, whatever its text: none of the parser's
    recursions, over expressions, arguments, statements, blocks, parameters and
    the script, exceeds the fuel computed from the characters left, and more
    fuel changes nothing. *)
Theorem ginkgo_parse_terminates (src : list Z) :
  fine (parse (Parser_new src)) /\
  (forall n p, (tokens_left p < n)%nat -> parse_loop n p = parse_statements p) /\
  (forall n p, (2 * tokens_left p < n)%nat -> statement_fuel n p = statement p) /\
  (forall n prec p, (4 * tokens_left p < n)%nat -> expression_fuel n prec p = expression prec p).
Proof.
  split_and!.
  - set (p0 := Parser_new src). unfold parse.
    pose proof (parse_loop_agree (S (tokens_left p0)) (S (tokens_left p0)) p0 ltac:(lia) ltac:(lia)) as [_ Hl].
    rewrite M_bind_eq. by destruct (parse_loop _ _) as [[[u|e] p1]|].
  - intros n p Hn. apply agree_eq. apply (parse_loop_agree n (S (tokens_left p)) p); lia.
  - intros n p Hn. by apply agree_eq, statement_agrees.
  - intros n prec p Hn. by apply agree_eq, expression_agrees.
Qed.

End agreement.
