(* ===== verification/GinkgoSpec.v ===== *)
(** * A reference for the Ginkgo language

    Programs as trees: how they are written ([toks], [stoks]), what they mean
    ([eval], [exec]: environments instead of a stack, no bytecode), and the code a
    structured compiler gives them ([cexpr], [cstmt]).  [check_stmt] delimits the
    programs for which the virtual machine does what they mean; what it excludes
    is where the implementation goes wrong: assignments to locals, a local whose
    initialiser mentions it, locals declared where a [while] may have left a value
    on the stack, nested functions.  Calls of functions from inside functions
    have no meaning here for the same reason. *)

From stdpp Require Import base tactics option list numbers gmap.
From S2P Require Import Prelude Bytes Crates Effects GinkgoLex GinkgoVm GinkgoParse GinkgoLexCorrect.

(** ** Syntax *)

Abbreviation name := (list Z).

Inductive binop :=
  | BAdd | BSub | BMul | BDiv | BAnd | BOr | BXor | BEq | BNe | BLt | BLe | BGt | BGe.

(** An integer literal is its text, so that every way to write it is covered. *)
Inductive expr :=
  | EInt (text : list Z)
  | EStr (s : list Z)
  | EBool (b : bool)
  | EVar (x : name)
  | ENeg (e : expr)
  | EBin (o : binop) (a b : expr)
  | EAnd (a b : expr)
  | EOr (a b : expr)
  | EAssign (x : name) (e : expr)
  | ECall (f : expr) (args : exprs)
with exprs := ANil | ACons (e : expr) (args : exprs).

Inductive stmt :=
  | SLet (x : name) (e : expr)
  | SExpr (e : expr)
  | SBlock (b : stmts)
  | SIf (c : expr) (t : stmts)
  | SIfElse (c : expr) (t e : stmts)
  | SWhile (c : expr) (b : stmts)
  | SFn (f : name) (ps : list name) (b : stmts)
  | SReturn (e : option expr)
with stmts := SNil | SCons (s : stmt) (ss : stmts).

Scheme expr_mut := Induction for expr Sort Prop with exprs_mut := Induction for exprs Sort Prop.
Combined Scheme expr_exprs_ind from expr_mut, exprs_mut.
Scheme stmt_mut := Induction for stmt Sort Prop with stmts_mut := Induction for stmts Sort Prop.
Combined Scheme stmt_stmts_ind from stmt_mut, stmts_mut.

Fixpoint alength (a : exprs) : nat := match a with ANil => O | ACons _ a => S (alength a) end.

(** ** Writing programs *)

Definition binop_token (o : binop) : TokenType :=
  match o with
  | BAdd => Plus | BSub => Minus | BMul => Asterix | BDiv => Slash
  | BAnd => Ampersand | BOr => Pipe | BXor => Caret
  | BEq => EqualEquals | BNe => BangEquals
  | BLt => LessThan | BLe => LessEqual | BGt => GreaterThan | BGe => GreaterEqual
  end.

(** How tightly an operator binds, from assignment to calls. *)
Definition binop_level (o : binop) : Z :=
  match o with
  | BEq | BNe | BLt | BLe | BGt | BGe => 4
  | BOr => 5 | BXor => 6 | BAnd => 7
  | BAdd | BSub => 8
  | BMul | BDiv => 9
  end.
Definition level (e : expr) : Z :=
  match e with
  | EInt _ | EStr _ | EBool _ | EVar _ => 15
  | ECall _ _ => 14
  | ENeg _ => 11
  | EBin o _ _ => binop_level o
  | EAnd _ _ => 3
  | EOr _ _ => 2
  | EAssign _ _ => 1
  end.

Definition fixed (ty : TokenType) : tk := (ty, default [] (fixed_text ty)).

Definition parens (b : bool) (ts : list tk) : list tk :=
  if b then fixed LeftParen :: ts ++ [fixed RightParen] else ts.

(** The tokens of an expression where everything that binds more tightly than [p]
    needs no parentheses.  Binary operators associate to the left, assignment to
    the right. *)
Fixpoint toks (p : Z) (e : expr) : list tk :=
  parens (level e <=? p)
    match e with
    | EInt t => [(TInteger, t)]
    | EStr s => [(TString, s)]
    | EBool b => [fixed (if b then TTrue else TFalse)]
    | EVar x => [(TIdentifier, x)]
    | ENeg e => fixed Minus :: toks 11 e
    | EBin o a b => toks (binop_level o - 1) a ++ fixed (binop_token o) :: toks (binop_level o) b
    | EAnd a b => toks 2 a ++ fixed AmpersandAmpersand :: toks 3 b
    | EOr a b => toks 1 a ++ fixed PipePipe :: toks 2 b
    | EAssign x e => (TIdentifier, x) :: fixed Equals :: toks 0 e
    | ECall f args => toks 13 f ++ fixed LeftParen :: atoks args ++ [fixed RightParen]
    end
with atoks (a : exprs) : list tk :=
  match a with
  | ANil => []
  | ACons e ANil => toks 0 e
  | ACons e a => toks 0 e ++ fixed Comma :: atoks a
  end.

Fixpoint params_toks (ps : list name) : list tk :=
  match ps with
  | [] => []
  | [x] => [(TIdentifier, x)]
  | x :: ps => (TIdentifier, x) :: fixed Comma :: params_toks ps
  end.

Fixpoint stoks (s : stmt) : list tk :=
  match s with
  | SLet x e => fixed TLet :: (TIdentifier, x) :: fixed Equals :: toks 0 e ++ [fixed Semicolon]
  | SExpr e => toks 0 e ++ [fixed Semicolon]
  | SBlock b => fixed LeftBrace :: sstoks b ++ [fixed RightBrace]
  | SIf c t => fixed TIf :: toks 0 c ++ fixed LeftBrace :: sstoks t ++ [fixed RightBrace]
  | SIfElse c t e =>
      fixed TIf :: toks 0 c ++ fixed LeftBrace :: sstoks t ++ fixed RightBrace ::
      fixed TElse :: fixed LeftBrace :: sstoks e ++ [fixed RightBrace]
  | SWhile c b => fixed TWhile :: toks 0 c ++ fixed LeftBrace :: sstoks b ++ [fixed RightBrace]
  | SFn f ps b =>
      fixed TFn :: (TIdentifier, f) :: fixed LeftParen :: params_toks ps ++ fixed RightParen ::
      fixed LeftBrace :: sstoks b ++ [fixed RightBrace]
  | SReturn None => [fixed TReturn; fixed Semicolon]
  | SReturn (Some e) => fixed TReturn :: toks 0 e ++ [fixed Semicolon]
  end
with sstoks (ss : stmts) : list tk :=
  match ss with
  | SNil => []
  | SCons s ss => stoks s ++ sstoks ss
  end.

(** ** Code *)

Definition byte (k : nat) : Z := Z.of_nat k mod 256.
Definition jump_code (op : Opcode) (d : Z) : list Z := opcode op :: to_le_bytes 2 d.
Definition len (c : list Z) : Z := Z.of_nat (length c).

Definition binop_opcode (o : binop) : Opcode :=
  match o with
  | BAdd => Add | BSub => Subtract | BMul => Multiply | BDiv => Divide
  | BAnd => BitwiseAnd | BOr => BitwiseOr | BXor => BitwiseXor
  | BEq => Equal | BNe => NotEqual
  | BLt => OLessThan | BLe => OLessEqual | BGt => OGreaterThan | BGe => OGreaterEqual
  end.

(** The last of the names that is [x]. *)
Fixpoint find_name (x : name) (names : list name) (i : nat) : option nat :=
  match names with
  | [] => None
  | y :: names =>
      match find_name x names (S i) with
      | Some j => Some j
      | None => if decide (y = x) then Some i else None
      end
  end.

Definition string_value (s : list Z) : Value := VObj (GinkgoString s).

(** The value of an integer literal. *)
Definition literal (text : list Z) : Z :=
  match token_to_integer_literal text with Val n => as_i64 n | Panic => 0 end.

(** The code of an expression and the constants it adds, after [nc] others; the
    locals in scope are [names]. *)
Fixpoint cexpr (names : list name) (nc : nat) (e : expr) : list Z * list Value :=
  match e with
  | EInt t => ([opcode Constant; byte nc], [VInteger (literal t)])
  | EStr s => ([opcode Constant; byte nc], [string_value s])
  | EBool b => ([opcode (if b then OTrue else OFalse)], [])
  | EVar x =>
      match find_name x names 0 with
      | Some i => ([opcode GetLocal; byte i], [])
      | None => ([opcode GetGlobal; byte nc], [string_value x])
      end
  | ENeg e => let '(c, k) := cexpr names nc e in (c ++ [opcode Negate], k)
  | EBin o a b =>
      let '(ca, ka) := cexpr names nc a in
      let '(cb, kb) := cexpr names (nc + length ka) b in
      (ca ++ cb ++ [opcode (binop_opcode o)], ka ++ kb)
  | EAnd a b =>
      let '(ca, ka) := cexpr names nc a in
      let '(cb, kb) := cexpr names (nc + length ka) b in
      (ca ++ jump_code JumpIfFalse (1 + len cb) ++ opcode Pop :: cb, ka ++ kb)
  | EOr a b =>
      let '(ca, ka) := cexpr names nc a in
      let '(cb, kb) := cexpr names (nc + length ka) b in
      (ca ++ jump_code JumpIfTrue (1 + len cb) ++ opcode Pop :: cb, ka ++ kb)
  | EAssign x e =>
      match find_name x names 0 with
      | Some i => let '(c, k) := cexpr names nc e in (c ++ [opcode SetLocal; byte i], k)
      | None =>
          let '(c, k) := cexpr names (S nc) e in
          (c ++ [opcode SetGlobal; byte nc], string_value x :: k)
      end
  | ECall f args =>
      let '(cf, kf) := cexpr names nc f in
      let '(ca, ka) := cargs names (nc + length kf) args in
      (cf ++ ca ++ [opcode Call; Z.of_nat (alength args)], kf ++ ka)
  end
with cargs (names : list name) (nc : nat) (a : exprs) : list Z * list Value :=
  match a with
  | ANil => ([], [])
  | ACons e a =>
      let '(c, k) := cexpr names nc e in
      let '(ca, ka) := cargs names (nc + length k) a in
      (c ++ ca, k ++ ka)
  end.

Definition pops (n : nat) : list Z := replicate n (opcode Pop).

Definition global_code (k : nat) : list Z := [opcode Constant; byte k; opcode DefineGlobal].

(** The code of a statement, its constants, and the names in scope after it;
    [scoped] says that it is in a block or in a function. *)
Fixpoint cstmt (scoped : bool) (names : list name) (nc : nat) (s : stmt) : list Z * list Value * list name :=
  let cblock nc b :=
    let '(c, k, names') := cstmts true names nc b in
    (c ++ pops (length names' - length names), k) in
  match s with
  | SLet x e =>
      if scoped then let '(c, k) := cexpr (names ++ [x]) nc e in (c, k, names ++ [x])
      else
        let '(c, k) := cexpr names nc e in
        (c ++ global_code (nc + length k), k ++ [string_value x], names)
  | SExpr e => let '(c, k) := cexpr names nc e in (c ++ [opcode Pop], k, names)
  | SBlock b => let '(c, k) := cblock nc b in (c, k, names)
  | SIf c t =>
      let '(cc, kc) := cexpr names nc c in
      let '(ct, kt) := cblock (nc + length kc)%nat t in
      (cc ++ jump_code JumpIfFalse (len ct + 4) ++ opcode Pop :: ct ++
       jump_code Jump 1 ++ [opcode Pop], kc ++ kt, names)
  | SIfElse c t e =>
      let '(cc, kc) := cexpr names nc c in
      let '(ct, kt) := cblock (nc + length kc)%nat t in
      let '(ce, ke) := cblock (nc + length kc + length kt)%nat e in
      (cc ++ jump_code JumpIfFalse (len ct + 4) ++ opcode Pop :: ct ++
       jump_code Jump (len ce + 1) ++ opcode Pop :: ce, kc ++ kt ++ ke, names)
  | SWhile c b =>
      let '(cc, kc) := cexpr names nc c in
      let '(cb, kb) := cblock (nc + length kc)%nat b in
      (cc ++ jump_code JumpIfFalse (len cb + 4) ++ opcode Pop :: cb ++
       jump_code Jump (- (len cc + len cb + 7)), kc ++ kb, names)
  | SFn f ps b =>
      let '(c, k, names') := cstmts true (f :: ps) 0 b in
      let fn := VObj (GinkgoFunction f (Z.of_nat (length ps)) (mkChunk (c ++ pops (length names')) k)) in
      if scoped then ([opcode Constant; byte nc], [fn], names)
      else (opcode Constant :: byte nc :: global_code (S nc), [fn; string_value f], names)
  | SReturn None => ([opcode OUnit; opcode Return], [], names)
  | SReturn (Some e) => let '(c, k) := cexpr names nc e in (c ++ [opcode Return], k, names)
  end
with cstmts (scoped : bool) (names : list name) (nc : nat) (ss : stmts) : list Z * list Value * list name :=
  match ss with
  | SNil => ([], [], names)
  | SCons s ss =>
      let '(c1, k1, names1) := cstmt scoped names nc s in
      let '(c2, k2, names2) := cstmts scoped names1 (nc + length k1) ss in
      (c1 ++ c2, k1 ++ k2, names2)
  end.

(** The chunk of a function, and of a script. *)
Definition compile_fn (f : name) (ps : list name) (b : stmts) : Chunk :=
  let '(c, k, names') := cstmts true (f :: ps) 0 b in mkChunk (c ++ pops (length names')) k.
Definition compile (ss : stmts) : Chunk :=
  let '(c, k, _) := cstmts false [] 0 ss in mkChunk (c ++ [opcode Return]) k.

(** Jumps fit 16 bits and constants are counted in a byte. *)
Definition fits (c : Chunk) : bool :=
  (len (code c) <? 2 ^ 15) && (length (constants c) <=? 256)%nat.

(** ** The programs the virtual machine runs as they are meant *)

(** [x] occurs in the expression. *)
Fixpoint mentions (x : name) (e : expr) : bool :=
  match e with
  | EInt _ | EStr _ | EBool _ => false
  | EVar y => bool_decide (y = x)
  | ENeg e => mentions x e
  | EBin _ a b | EAnd a b | EOr a b => mentions x a || mentions x b
  | EAssign y e => bool_decide (y = x) || mentions x e
  | ECall f a => mentions x f || amentions x a
  end
with amentions (x : name) (a : exprs) : bool :=
  match a with
  | ANil => false
  | ACons e a => mentions x e || amentions x a
  end.

(** Integer literals have a value, calls have at most 255 arguments, and no local
    is assigned to. *)
Fixpoint ok_expr (names : list name) (e : expr) : bool :=
  match e with
  | EInt t => match token_to_integer_literal t with Val _ => true | Panic => false end
  | EStr _ | EBool _ | EVar _ => true
  | ENeg e => ok_expr names e
  | EBin _ a b | EAnd a b | EOr a b => ok_expr names a && ok_expr names b
  | EAssign x e => bool_decide (x ∉ names) && ok_expr names e
  | ECall f a => ok_expr names f && ok_args names a && (alength a <=? 255)%nat
  end
with ok_args (names : list name) (a : exprs) : bool :=
  match a with
  | ANil => true
  | ACons e a => ok_expr names e && ok_args names a
  end.

(** The names in scope after a statement and whether a [while] may have left
    values above the locals, if the statement is supported.  [dirty] says so for
    before it. *)
Fixpoint check_stmt (scoped : bool) (names : list name) (dirty : bool) (s : stmt) : option (list name * bool) :=
  let cond (b : bool) {A} (o : option A) : option A := if b then o else None in
  match s with
  | SLet x e =>
      if scoped then
        cond (ok_expr (names ++ [x]) e && negb (mentions x e) && negb dirty && (length names <? 256)%nat)
          (Some (names ++ [x], false))
      else cond (ok_expr names e) (Some (names, dirty))
  | SExpr e => cond (ok_expr names e) (Some (names, dirty))
  | SBlock b => '(_, d) ← check_stmts true names dirty b; Some (names, d)
  | SIf c t =>
      cond (ok_expr names c) ('(_, d) ← check_stmts true names dirty t; Some (names, d || dirty))
  | SIfElse c t e =>
      cond (ok_expr names c)
        ('(_, d1) ← check_stmts true names dirty t;
         '(_, d2) ← check_stmts true names dirty e;
         Some (names, d1 || d2))
  | SWhile c b =>
      cond (ok_expr names c)
        ('(_, d) ← check_stmts true names dirty b;
         if d : bool then _ ← check_stmts true names true b; Some (names, true)
         else Some (names, true))
  | SFn f ps b =>
      cond (negb scoped && (length ps <=? 255)%nat && fits (compile_fn f ps b))
        (_ ← check_stmts true (f :: ps) false b; Some (names, dirty))
  | SReturn None => Some (names, dirty)
  | SReturn (Some e) => cond (ok_expr names e) (Some (names, dirty))
  end
with check_stmts (scoped : bool) (names : list name) (dirty : bool) (ss : stmts) : option (list name * bool) :=
  match ss with
  | SNil => Some (names, dirty)
  | SCons s ss =>
      '(names', dirty') ← check_stmt scoped names dirty s;
      check_stmts scoped names' dirty' ss
  end.

(** A function, and a whole script that starts with an empty stack. *)
Definition supported_fn (f : name) (ps : list name) (b : stmts) : bool :=
  bool_decide (is_Some (check_stmts true (f :: ps) false b)) && (length ps <=? 255)%nat &&
  fits (compile_fn f ps b).
Definition supported (ss : stmts) : bool :=
  bool_decide (is_Some (check_stmts false [] false ss)) && fits (compile ss).

(** ** Meaning *)

Inductive rvalue :=
  | RUnit
  | RInt (n : Z)
  | RBool (b : bool)
  | RStr (s : list Z)
  | RFun (f : name) (ps : list name) (b : stmts)
  | RNative (f : name) (id : Z).

(** The machine's representation of a value, and back for values without code. *)
Definition conv (v : rvalue) : Value :=
  match v with
  | RUnit => VUnit
  | RInt n => VInteger n
  | RBool b => VBool b
  | RStr s => string_value s
  | RFun f ps b => VObj (GinkgoFunction f (Z.of_nat (length ps)) (compile_fn f ps b))
  | RNative f id => VObj (GinkgoNativeFunction f id)
  end.
Definition unconv (v : Value) : option rvalue :=
  match v with
  | VUnit => Some RUnit
  | VInteger n => Some (RInt n)
  | VBool b => Some (RBool b)
  | VObj (GinkgoString s) => Some (RStr s)
  | VObj (GinkgoFunction _ _ _) => None
  | VObj (GinkgoNativeFunction f id) => Some (RNative f id)
  end.

Definition rtyp (v : rvalue) : ValueType :=
  match v with
  | RUnit => VTUnit
  | RInt _ => VTInteger
  | RBool _ => VTBool
  | RStr _ => VTObj OTString
  | RFun _ _ _ => VTObj OTFunction
  | RNative _ _ => VTObj OTNativeFunction
  end.

Definition is_object (v : rvalue) : bool :=
  match v with RStr _ | RFun _ _ _ | RNative _ _ => true | _ => false end.

(** Equality and ordering: values of different types differ and are not ordered,
    objects are not ordered at all, functions cannot be compared. *)
Definition req (a b : rvalue) : outcome bool :=
  match a, b with
  | RInt x, RInt y => Val (x =? y)
  | RBool x, RBool y => Val (Bool.eqb x y)
  | RStr x, RStr y => Val (bool_decide (x = y))
  | RFun _ _ _, _ | RNative _ _, _ => if is_object b then Panic else Val false
  | _, _ => Val false
  end.
Definition rcompare (a b : rvalue) : outcome (option comparison) :=
  match a, b with
  | RInt x, RInt y => Val (Some (x ?= y))
  | RBool x, RBool y => Val (Some (Bool.compare x y))
  | _, _ => if is_object a && is_object b then Panic else Val None
  end.

(** Binary operators; arithmetic that overflows or on other types has no result. *)
Definition eval_bin (o : binop) (a b : rvalue) : outcome rvalue :=
  let arith (f : Z -> Z -> option Z) :=
    match a, b with
    | RInt x, RInt y =>
        match f x y with
        | Some n => if i64_fits n then Val (RInt n) else Panic
        | None => Panic
        end
    | _, _ => Panic
    end in
  let bits (f : Z -> Z -> Z) :=
    match a, b with RInt x, RInt y => Val (RInt (f x y)) | _, _ => Panic end in
  let test (l : list comparison) :=
    c ← rcompare a b;
    Val (RBool (match c with Some c => bool_decide (c ∈ l) | None => false end)) in
  match o with
  | BAdd => arith (fun x y => Some (x + y))
  | BSub => arith (fun x y => Some (x - y))
  | BMul => arith (fun x y => Some (x * y))
  | BDiv => arith (fun x y => if y =? 0 then None else Some (Z.quot x y))
  | BAnd => bits Z.land
  | BOr => bits Z.lor
  | BXor => bits Z.lxor
  | BEq => b ← req a b; Val (RBool b)
  | BNe => b ← req a b; Val (RBool (negb b))
  | BLt => test [Lt]
  | BLe => test [Lt; Eq]
  | BGt => test [Gt]
  | BGe => test [Gt; Eq]
  end.

Section semantics.
Context `{Natives}.

Record genv := mkGenv { g_globals : gmap name rvalue; g_world : World }.
Abbreviation G := (M genv VmError).

Definition set_global (x : name) (v : rvalue) : G unit :=
  modify (fun s => mkGenv (<[x := v]> (g_globals s)) (g_world s)).

(** The most recent local. *)
Fixpoint lookup_local (x : name) (locals : list (name * rvalue)) : option rvalue :=
  match locals with
  | [] => None
  | (y, v) :: locals =>
      match lookup_local x locals with
      | Some w => Some w
      | None => if decide (y = x) then Some v else None
      end
  end.

(** What a statement ends with: the locals after it, or a return. *)
Inductive flow := Next (locals : list (name * rvalue)) | Returned (v : rvalue).

Definition run_native (id : Z) (vs : list rvalue) : G rvalue :=
  s ← get;
  '(v, w) ← lift (native id (conv <$> vs) (g_world s));
  _ ← put (mkGenv (g_globals s) w);
  lift (unwrap (unconv v)).

(** Evaluation and execution; [infn] says that a function is running.  What has
    no meaning is a panic, as is running out of fuel. *)
Fixpoint eval (n : nat) (infn : bool) (locals : list (name * rvalue)) (e : expr) : G rvalue :=
  match n with
  | O => panic
  | S n =>
      match e with
      | EInt t => mret (RInt (literal t))
      | EStr s => mret (RStr s)
      | EBool b => mret (RBool b)
      | EVar x =>
          match lookup_local x locals with
          | Some v => mret v
          | None =>
              s ← get;
              match g_globals s !! x with
              | Some v => mret v
              | None => fail (NoSuchGlobal x)
              end
          end
      | ENeg e =>
          v ← eval n infn locals e;
          match v with
          | RInt x => if i64_fits (- x) then mret (RInt (- x)) else panic
          | _ => fail (CannotNegateValue (rtyp v))
          end
      | EBin o a b =>
          x ← eval n infn locals a;
          y ← eval n infn locals b;
          lift (eval_bin o x y)
      | EAnd a b =>
          x ← eval n infn locals a;
          match x with
          | RBool true => eval n infn locals b
          | RBool false => mret x
          | _ => fail (WrongTypeForOperation VTBool (rtyp x))
          end
      | EOr a b =>
          x ← eval n infn locals a;
          match x with
          | RBool true => mret x
          | RBool false => eval n infn locals b
          | _ => fail (WrongTypeForOperation VTBool (rtyp x))
          end
      | EAssign x e =>
          v ← eval n infn locals e;
          s ← get;
          match g_globals s !! x with
          | Some _ => _ ← set_global x v; mret v
          | None => fail (AssignToUndefined x)
          end
      | ECall f args =>
          vf ← eval n infn locals f;
          vs ← eval_args n infn locals args;
          match vf with
          | RNative _ id => run_native id vs
          | RFun f ps b =>
              if infn || negb (length ps =? length vs)%nat || negb (supported_fn f ps b) then panic
              else
                r ← exec_list n true true ((f, vf) :: zip ps vs) b;
                match r with
                | Returned v => mret v
                | Next _ => panic
                end
          | _ => fail (ValueNotCallable (rtyp vf))
          end
      end
  end
with eval_args (n : nat) (infn : bool) (locals : list (name * rvalue)) (a : exprs) : G (list rvalue) :=
  match n with
  | O => panic
  | S n =>
      match a with
      | ANil => mret []
      | ACons e a =>
          v ← eval n infn locals e;
          vs ← eval_args n infn locals a;
          mret (v :: vs)
      end
  end
with exec (n : nat) (infn scoped : bool) (locals : list (name * rvalue)) (s : stmt) : G flow :=
  match n with
  | O => panic
  | S n =>
      let block b :=
        r ← exec_list n infn true locals b;
        match r with
        | Returned v => mret (Returned v)
        | Next _ => mret (Next locals)
        end in
      let condition c (t e : G flow) :=
        v ← eval n infn locals c;
        match v with
        | RBool true => t
        | RBool false => e
        | _ => fail (WrongTypeForOperation VTBool (rtyp v))
        end in
      match s with
      | SLet x e =>
          v ← eval n infn locals e;
          if scoped then mret (Next (locals ++ [(x, v)]))
          else _ ← set_global x v; mret (Next locals)
      | SExpr e => _ ← eval n infn locals e; mret (Next locals)
      | SBlock b => block b
      | SIf c t => condition c (block t) (mret (Next locals))
      | SIfElse c t e => condition c (block t) (block e)
      | SWhile c b =>
          condition c
            (r ← exec_list n infn true locals b;
             match r with
             | Returned v => mret (Returned v)
             | Next _ => exec n infn scoped locals (SWhile c b)
             end)
            (mret (Next locals))
      | SFn f ps b => _ ← set_global f (RFun f ps b); mret (Next locals)
      | SReturn None => mret (Returned RUnit)
      | SReturn (Some e) => v ← eval n infn locals e; mret (Returned v)
      end
  end
with exec_list (n : nat) (infn scoped : bool) (locals : list (name * rvalue)) (ss : stmts) : G flow :=
  match n with
  | O => panic
  | S n =>
      match ss with
      | SNil => mret (Next locals)
      | SCons s ss =>
          r ← exec n infn scoped locals s;
          match r with
          | Returned v => mret (Returned v)
          | Next locals => exec_list n infn scoped locals ss
          end
      end
  end.

(** A script: a [return] at its top ends it. *)
Definition run_script (n : nat) (ss : stmts) : G unit :=
  _ ← exec_list n false false [] ss; mret tt.

End semantics.

(** ** Names in scope *)

(** The checker and the compiler agree on the names in scope. *)
Lemma check_names sc ns nc dirty s n1 (dirty1 : bool) c k nm :
  check_stmt sc ns dirty s = Some (n1, dirty1) -> cstmt sc ns nc s = (c, k, nm) -> n1 = nm.
Proof.
  destruct s; cbn [check_stmt cstmt]; intros Hck Hc;
    repeat (case_match; simplify_option_eq; try done).
Qed.

Lemma check_names_list sc ss : forall ns nc dirty n1 (dirty1 : bool) c k nm,
  check_stmts sc ns dirty ss = Some (n1, dirty1) -> cstmts sc ns nc ss = (c, k, nm) -> n1 = nm.
Proof.
  induction ss as [|s ss IH]; cbn [check_stmts cstmts]; intros ns nc dirty n1 dirty1 c k nm Hck Hc;
    [by simplify_eq|].
  destruct (check_stmt sc ns dirty s) as [[n2 d2]|] eqn:E1; simplify_eq/=.
  destruct (cstmt sc ns nc s) as [[c1 k1] n3] eqn:E2.
  rewrite (check_names _ _ _ _ _ _ _ _ _ _ E1 E2) in Hck.
  destruct (cstmts sc n3 (nc + length k1) ss) as [[c2 k2] n4] eqn:E3. simplify_eq. by eapply IH.
Qed.

Lemma find_name_None x ns : x ∉ ns -> forall i, find_name x ns i = None.
Proof.
  induction ns as [|y ns IH]; intros Hx i; [done|]. cbn [find_name].
  rewrite not_elem_of_cons in Hx. destruct Hx as [Hne Hx]. rewrite IH by done.
  by rewrite decide_False by congruence.
Qed.

Lemma find_name_S x ns : forall i, find_name x ns (S i) = S <$> find_name x ns i.
Proof.
  induction ns as [|y ns IH]; intros i; [done|]. cbn [find_name]. rewrite !IH.
  destruct (find_name x ns i); [done|]. by destruct (decide (y = x)).
Qed.

Lemma find_name_lt x ns i : find_name x ns 0 = Some i -> (i < length ns)%nat.
Proof.
  revert i. induction ns as [|y ns IH]; intros i; [done|]. cbn [find_name length]. rewrite find_name_S.
  destruct (find_name x ns 0) as [j|]; simpl.
  - intros [= <-]. specialize (IH j eq_refl). lia.
  - destruct (decide (y = x)); [|done]. intros [= <-]. lia.
Qed.

(** A name that an expression does not mention makes no difference. *)
Lemma find_name_snoc x y ns : forall i, x <> y -> find_name x (ns ++ [y]) i = find_name x ns i.
Proof.
  induction ns as [|z ns IH]; intros i Hne; cbn [app find_name].
  - by rewrite decide_False by congruence.
  - by rewrite IH.
Qed.

Lemma cexpr_fresh y ns :
  (forall e nc, mentions y e = false -> cexpr (ns ++ [y]) nc e = cexpr ns nc e) /\
  (forall a nc, amentions y a = false -> cargs (ns ++ [y]) nc a = cargs ns nc a).
Proof.
  apply expr_exprs_ind; cbn [mentions amentions cexpr cargs]; try done.
  - intros x nc Hx%bool_decide_eq_false. by rewrite find_name_snoc.
  - intros e IH nc Hm. by rewrite IH.
  - intros o a IHa b IHb nc [Ha Hb]%orb_false_iff. rewrite IHa by done. destruct (cexpr ns nc a). by rewrite IHb.
  - intros a IHa b IHb nc [Ha Hb]%orb_false_iff. rewrite IHa by done. destruct (cexpr ns nc a). by rewrite IHb.
  - intros a IHa b IHb nc [Ha Hb]%orb_false_iff. rewrite IHa by done. destruct (cexpr ns nc a). by rewrite IHb.
  - intros x e IH nc [Hx%bool_decide_eq_false He]%orb_false_iff. rewrite find_name_snoc by done. by rewrite !IH.
  - intros f IHf a IHa nc [Hf Ha]%orb_false_iff. rewrite IHf by done. destruct (cexpr ns nc f). by rewrite IHa.
  - intros e IHe a IHa nc [He Ha]%orb_false_iff. rewrite IHe by done. destruct (cexpr ns nc e). by rewrite IHa.
Qed.

Lemma ok_expr_fresh y ns :
  (forall e, ok_expr (ns ++ [y]) e = true -> ok_expr ns e = true) /\
  (forall a, ok_args (ns ++ [y]) a = true -> ok_args ns a = true).
Proof.
  apply expr_exprs_ind; cbn [ok_expr ok_args]; try done; intros; rewrite ?andb_true_iff in *;
    try (by intuition).
  destruct H0 as [Hx%bool_decide_eq_true ?]. split; [|by auto]. apply bool_decide_eq_true.
  intros Hin. apply Hx. apply elem_of_app. by left.
Qed.
