(* ===== verification/GinkgoParseCorrect.v ===== *)
(** * The Ginkgo parser compiles what was written

    On the tokens of a program the parser emits the code the structured compiler
    of [GinkgoSpec] gives for the program, whatever the levels of its operators
    and wherever its parentheses. *)

From stdpp Require Import base tactics option list numbers.
From S2P Require Import Prelude Bytes Crates Effects GinkgoLex GinkgoVm GinkgoParse GinkgoLexCorrect GinkgoParseTotal GinkgoSpec.

(** ** Emitting and patching code *)

(** A parser whose current function has code [C], constants [K], scope depth [d]
    and locals [ls]. *)
Definition pst (l : Lex) (C : list Z) (K : list Value) (d : nat) (ls : list Local) (fs : list Function) : Parser :=
  mkParser l (mkFunction (mkChunk C K) d ls) fs.

Lemma i16_bytes_in d : - 2 ^ 15 <= d < 2 ^ 15 -> i16_bytes d = Val (to_le_bytes 2 d).
Proof. intros Hd. unfold i16_bytes. by replace ((- 2 ^ 15 <=? d) && (d <? 2 ^ 15)) with true by lia. Qed.

Lemma vec_set_mid {A} (x y : A) a b : vec_set (length a) x (a ++ y :: b) = Val (a ++ x :: b).
Proof.
  unfold vec_set. rewrite decide_True by (rewrite length_app; simpl; lia).
  by rewrite insert_app_r_alt, Nat.sub_diag by lia.
Qed.

Lemma length_jump_code op d : length (jump_code op d) = 3%nat.
Proof. done. Qed.

(** Patching the operand of a jump that is followed by [Y]. *)
Lemma patch_jump_ok X b0 b1 Y K :
  len Y < 2 ^ 15 ->
  patch_jump (mkChunk (X ++ b0 :: b1 :: Y) K) (length X) =
    Val (mkChunk (X ++ to_le_bytes 2 (len Y) ++ Y) K).
Proof.
  intros HY. unfold patch_jump, len in *. cbn [code constants].
  replace (Z.of_nat (length (X ++ b0 :: b1 :: Y)) - Z.of_nat (length X) - 2) with (Z.of_nat (length Y))
    by (rewrite length_app; cbn [length]; lia).
  rewrite i16_bytes_in by lia. cbn [mbind outcome_bind to_le_bytes nth app].
  rewrite vec_set_mid. cbn [mbind outcome_bind].
  rewrite (cons_middle _ X), app_assoc.
  replace (length X + 1)%nat with (length (X ++ [Z.of_nat (length Y) mod 256])) by (rewrite length_app; done).
  rewrite vec_set_mid. cbn [mbind outcome_bind]. by rewrite <- app_assoc.
Qed.

Section emission.
Context (l : Lex) (K : list Value) (d : nat) (ls : list Local) (fs : list Function).

Lemma emit_pst C op : emit op (pst l C K d ls fs) = Val (Ok tt, pst l (C ++ [opcode op]) K d ls fs).
Proof. done. Qed.
Lemma emit_raw_pst C b : emit_raw b (pst l C K d ls fs) = Val (Ok tt, pst l (C ++ [b]) K d ls fs).
Proof. done. Qed.
Lemma emit2_pst C op b :
  emit2 op b (pst l C K d ls fs) = Val (Ok tt, pst l (C ++ [opcode op; b]) K d ls fs).
Proof. unfold emit2. by rewrite M_bind_eq, !emit_raw_pst, <- app_assoc. Qed.
Lemma emit_jump_pst C op :
  emit_jump op (pst l C K d ls fs) =
    Val (Ok (length C + 1)%nat, pst l (C ++ [opcode op; 0; 0]) K d ls fs).
Proof.
  unfold emit_jump. rewrite M_bind_eq, emit_pst, M_bind_eq. cbn [get].
  rewrite M_bind_eq, emit_raw_pst, M_bind_eq, emit_raw_pst, <- !app_assoc.
  unfold mret, M_ret, current_offset, pst. simpl. by rewrite length_app.
Qed.
Lemma constant_pst C v :
  constant v (pst l C K d ls fs) = Val (Ok (byte (length K)), pst l C (K ++ [v]) d ls fs).
Proof. done. Qed.
Lemma patch_pst C op b0 b1 Y :
  len Y < 2 ^ 15 ->
  patch (length C + 1)%nat (pst l (C ++ [opcode op; b0; b1] ++ Y) K d ls fs) =
    Val (Ok tt, pst l (C ++ jump_code op (len Y) ++ Y) K d ls fs).
Proof.
  intros HY. unfold patch. rewrite M_bind_eq. cbn [get]. rewrite M_bind_eq. unfold lift.
  unfold pst at 1. cbn [current_function chunk].
  replace (C ++ [opcode op; b0; b1] ++ Y) with ((C ++ [opcode op]) ++ b0 :: b1 :: Y)
    by (rewrite <- app_assoc; done).
  replace (length C + 1)%nat with (length (C ++ [opcode op])) by (rewrite length_app; done).
  rewrite patch_jump_ok by done. unfold put, pst, set_chunk, set_function. simpl. by rewrite <- app_assoc.
Qed.
Lemma emit_jump_to_pst C op target :
  - 2 ^ 15 <= Z.of_nat target - (len C + 3) < 2 ^ 15 ->
  emit_jump_to op target (pst l C K d ls fs) =
    Val (Ok tt, pst l (C ++ jump_code op (Z.of_nat target - (len C + 3))) K d ls fs).
Proof.
  intros Ht. unfold emit_jump_to. rewrite M_bind_eq, emit_pst. rewrite M_bind_eq. cbn [get].
  rewrite M_bind_eq. unfold lift, pst at 1, current_offset. cbn [current_function chunk code].
  replace (Z.of_nat target - (Z.of_nat (length (C ++ [opcode op])) + 2)) with (Z.of_nat target - (len C + 3))
    by (unfold len; rewrite length_app; simpl; lia).
  rewrite i16_bytes_in by done. by rewrite M_bind_eq, !emit_raw_pst, <- !app_assoc.
Qed.
Lemma emit_pops_pst n : forall C, emit_pops n (pst l C K d ls fs) = Val (Ok tt, pst l (C ++ pops n) K d ls fs).
Proof.
  induction n as [|n IH]; intros C; cbn [emit_pops]; [unfold pops; simpl; by rewrite app_nil_r|].
  rewrite M_bind_eq, emit_pst, IH, <- app_assoc. done.
Qed.

End emission.

Lemma find_local_names x ls : forall i, find_local x ls i = find_name x (local_name <$> ls) i.
Proof.
  induction ls as [|y ls IH]; intros i; [done|]. cbn [find_local fmap list_fmap find_name]. by rewrite IH.
Qed.

(** ** The token stream under the parser *)

Section parsing.
Context `{UnicodeXID} `{Float64}.
Context (src : list Z) (Hsrc : is_usize (str_len src)).

(** The lexer of a source has the tokens [ts] left. *)
Definition holds (l : Lex) (ts : list tk) : Prop := lexes l ts /\ source l = src.

Implicit Types (l : Lex) (C : list Z) (K : list Value) (d : nat) (ls : list Local) (fs : list Function).

(** What [token_value] gives for a token with this type and text. *)
Definition text_value (ty : TokenType) (text : list Z) : outcome (option TokenValue) :=
  match ty with
  | TIdentifier => Val (Some (Identifier text))
  | TString => Val (Some (String text))
  | TInteger => n ← token_to_integer_literal text; Val (Some (Integer n))
  | TDecimal => f ← unwrap (parse_f64 text); Val (Some (Decimal f))
  | _ => Val None
  end.

Lemma next_pst l ty text ts C K d ls fs :
  holds l ((ty, text) :: ts) ->
  exists t l', next_token (pst l C K d ls fs) = Val (Ok (Some t), pst l' C K d ls fs) /\
    typ t = ty /\ holds l' ts /\
    forall l2 C2 K2, source l2 = src ->
      value_of t (pst l2 C2 K2 d ls fs) = lift (text_value ty text) (pst l2 C2 K2 d ls fs).
Proof.
  intros [Hl Hs]. destruct (lexes_next _ _ _ _ Hl) as (t & l' & E & Ht & Hl' & Hs' & Htext).
  exists t, l'. unfold next_token, pst. cbn [lexer]. rewrite E. obind. split; [done|]. split; [done|].
  split; [split; [done|congruence]|]. intros l2 C2 K2 Hs2. unfold value_of.
  rewrite M_bind_eq. cbn [get]. unfold token_value, text_value. cbn [lexer].
  rewrite Hs2, <- Hs, Htext. obind. by rewrite Ht.
Qed.

Lemma peek_pst l ty text ts C K d ls fs :
  holds l ((ty, text) :: ts) ->
  exists t l', peek_token (pst l C K d ls fs) = Val (Ok (Some t), pst l' C K d ls fs) /\
    typ t = ty /\ holds l' ((ty, text) :: ts).
Proof.
  intros [Hl Hs]. destruct (lexes_peek _ _ _ _ Hl) as (t & l' & E & Ht & Hl' & Hs').
  exists t, l'. unfold peek_token, pst. cbn [lexer]. rewrite E. obind.
  split; [done|]. split; [done|]. split; [done|congruence].
Qed.

Lemma peek_pst_nil l C K d ls fs :
  holds l [] -> exists l', peek_token (pst l C K d ls fs) = Val (Ok None, pst l' C K d ls fs) /\ holds l' [].
Proof.
  intros [Hl Hs]. destruct (lexes_peek_nil _ Hl) as (l' & E & Hl' & Hs'); [by rewrite Hs|].
  exists l'. unfold peek_token, pst. cbn [lexer]. rewrite E. obind. split; [done|]. split; [done|congruence].
Qed.

Lemma matches_pst l ty text ts ty' C K d ls fs :
  holds l ((ty, text) :: ts) ->
  exists l', matches ty' (pst l C K d ls fs) = Val (Ok (bool_decide (ty = ty')), pst l' C K d ls fs) /\
    holds l' (if bool_decide (ty = ty') then ts else (ty, text) :: ts).
Proof.
  intros Hl. unfold matches. destruct (peek_pst l ty text ts C K d ls fs Hl) as (t & l1 & E & Ht & Hl1).
  rewrite (M_bind_Ok _ _ _ _ _ E), Ht. destruct (decide (ty = ty')) as [He|He].
  - rewrite bool_decide_eq_true_2 by done.
    destruct (next_pst l1 ty text ts C K d ls fs Hl1) as (t2 & l2 & E2 & _ & Hl2 & _).
    rewrite (M_bind_Ok _ _ _ _ _ E2). by exists l2.
  - rewrite bool_decide_eq_false_2 by done. by exists l1.
Qed.

Lemma matches_pst_nil l ty' C K d ls fs :
  holds l [] -> exists l', matches ty' (pst l C K d ls fs) = Val (Ok false, pst l' C K d ls fs) /\ holds l' [].
Proof.
  intros Hl. unfold matches. destruct (peek_pst_nil l C K d ls fs Hl) as (l1 & E & Hl1).
  rewrite (M_bind_Ok _ _ _ _ _ E). by exists l1.
Qed.

(** [matches] a type the next token does not have. *)
Lemma matches_other l ts ty' C K d ls fs :
  holds l ts -> fst <$> head ts <> Some ty' ->
  exists l', matches ty' (pst l C K d ls fs) = Val (Ok false, pst l' C K d ls fs) /\ holds l' ts.
Proof.
  intros Hl Hne. destruct ts as [|[ty text] ts]; [by apply matches_pst_nil|].
  destruct (matches_pst l ty text ts ty' C K d ls fs Hl) as (l' & E & Hl').
  rewrite bool_decide_eq_false_2 in E, Hl' by (intros ->; done). by exists l'.
Qed.
Lemma matches_this l ty text ts C K d ls fs :
  holds l ((ty, text) :: ts) ->
  exists l', matches ty (pst l C K d ls fs) = Val (Ok true, pst l' C K d ls fs) /\ holds l' ts.
Proof.
  intros Hl. destruct (matches_pst l ty text ts ty C K d ls fs Hl) as (l' & E & Hl').
  rewrite bool_decide_eq_true_2 in E, Hl' by done. by exists l'.
Qed.

Lemma consume_pst l ty text ts C K d ls fs :
  holds l ((ty, text) :: ts) ->
  exists t l', consume ty (pst l C K d ls fs) = Val (Ok (Some t), pst l' C K d ls fs) /\ holds l' ts.
Proof.
  intros Hl. unfold consume. destruct (next_pst l ty text ts C K d ls fs Hl) as (t & l' & E & Ht & Hl' & _).
  rewrite (M_bind_Ok _ _ _ _ _ E), decide_True by done. by exists t, l'.
Qed.

Lemma identifier_pst l text ts C K d ls fs :
  holds l ((TIdentifier, text) :: ts) ->
  exists l', identifier (pst l C K d ls fs) = Val (Ok text, pst l' C K d ls fs) /\ holds l' ts.
Proof.
  intros Hl. unfold identifier, consume.
  destruct (next_pst l TIdentifier text ts C K d ls fs Hl) as (t & l' & E & Ht & Hl' & Hv).
  rewrite M_bind_eq, (M_bind_Ok _ _ _ _ _ E), decide_True by done.
  unfold mret, M_ret. rewrite M_bind_eq. cbn [unwrap lift]. rewrite M_bind_eq, Hv by apply Hl'. by exists l'.
Qed.
(** ** Expressions *)

Definition names (ls : list Local) : list name := local_name <$> ls.

(** How tightly the next token binds as an infix operator, if it is one. *)
Definition binds (ts : list tk) : option Z := t ← head ts; precedence_for t.1.

(** No operator in front of [ts] continues an expression parsed at precedence [q]. *)
Definition ends (q : Z) (ts : list tk) : Prop := forall r, binds ts = Some r -> r <= q.
(** The same, or the next operator is the one an expression at level [q] is the
    left operand of. *)
Definition stops (q : Z) (ts : list tk) : Prop :=
  forall r, binds ts = Some r -> r <= q \/ (r = q + 1 /\ 1 <= q).

Lemma stops_ends q q' ts : stops q ts -> q < q' -> ends q' ts.
Proof. intros Hs Hq r Hr. destruct (Hs r Hr); lia. Qed.
Lemma ends_stops q ts : ends q ts -> stops q ts.
Proof. intros He r Hr. left. auto. Qed.

Lemma infix_operators_end l ts p C K d ls fs :
  holds l ts -> ends p ts ->
  exists l', infix_operators p (pst l C K d ls fs) = Val (Ok tt, pst l' C K d ls fs) /\ holds l' ts.
Proof.
  intros Hl He. rewrite infix_operators_eq. destruct ts as [|[ty text] ts].
  - destruct (peek_pst_nil l C K d ls fs Hl) as (l' & E & Hl'). rewrite (M_bind_Ok _ _ _ _ _ E). by exists l'.
  - destruct (peek_pst l ty text ts C K d ls fs Hl) as (t & l' & E & Ht & Hl').
    rewrite (M_bind_Ok _ _ _ _ _ E), Ht. exists l'.
    destruct (precedence_for ty) as [r|] eqn:Er; [|done].
    replace (p <? r) with false by (specialize (He r Er); lia). done.
Qed.

(** An infix operator that binds more tightly than [p]. *)
Lemma infix_operators_step l ty text ts p r i C K d ls fs :
  holds l ((ty, text) :: ts) -> infix_entry ty = Some (r, i) -> p < r ->
  exists t l', typ t = ty /\ holds l' ts /\
    infix_operators p (pst l C K d ls fs) = (_ ← infix i t; infix_operators p) (pst l' C K d ls fs).
Proof.
  intros Hl Hi Hr. rewrite infix_operators_eq.
  destruct (peek_pst l ty text ts C K d ls fs Hl) as (t & l1 & E & Ht & Hl1).
  rewrite (M_bind_Ok _ _ _ _ _ E), Ht. unfold precedence_for. rewrite Hi. cbn [fmap option_fmap option_map fst].
  replace (p <? r) with true by lia.
  destruct (next_pst l1 ty text ts C K d ls fs Hl1) as (t2 & l2 & E2 & Ht2 & Hl2 & _).
  rewrite (M_bind_Ok _ _ _ _ _ E2), M_bind_eq. cbn [unwrap lift].
  unfold infix_for. rewrite Ht2, Hi. exists t2, l2. done.
Qed.

(** The expression [e], written at level [q] in front of [rest], is parsed at any
    precedence up to [q] into its code. *)
Definition parses (q : Z) (e : expr) : Prop := forall p rest l C K d ls fs c k,
  holds l (toks q e ++ rest) -> 0 <= p <= q -> stops q rest -> ok_expr (names ls) e = true ->
  cexpr (names ls) (length K) e = (c, k) -> len C + len c < 2 ^ 15 ->
  exists l', holds l' rest /\
    expression p (pst l C K d ls fs) = infix_operators p (pst l' (C ++ c) (K ++ k) d ls fs).

Lemma parses_ends q e rest l C K d ls fs c k :
  parses q e -> 0 <= q -> holds l (toks q e ++ rest) -> ends q rest -> ok_expr (names ls) e = true ->
  cexpr (names ls) (length K) e = (c, k) -> len C + len c < 2 ^ 15 ->
  exists l', holds l' rest /\
    expression q (pst l C K d ls fs) = Val (Ok tt, pst l' (C ++ c) (K ++ k) d ls fs).
Proof.
  intros He Hq Hl Hends Hok Hc Hlen.
  destruct (He q rest l C K d ls fs c k) as (l1 & Hl1 & ->); [done|lia|by apply ends_stops|done..|].
  destruct (infix_operators_end l1 rest q (C ++ c) (K ++ k) d ls fs Hl1 Hends) as (l2 & -> & Hl2). by exists l2.
Qed.

(** Parentheses. *)
Lemma toks_parens q e : level e <= q -> 0 <= q -> toks q e = fixed LeftParen :: toks 0 e ++ [fixed RightParen].
Proof.
  intros Hq Hq0. assert (0 < level e) as Hl by (destruct e; simpl; try lia; destruct o; simpl; lia).
  destruct e; cbn [toks level] in *;
    rewrite (proj2 (Z.leb_le _ _) Hq), (proj2 (Z.leb_gt _ _) Hl); done.
Qed.

Lemma parses_all e : (forall q, 0 <= q < level e -> parses q e) -> forall q, 0 <= q -> parses q e.
Proof.
  intros He q Hq. destruct (decide (q < level e)) as [|Hge]; [by apply He|].
  assert (0 < level e) as Hlv by (destruct e; simpl; try lia; destruct o; simpl; lia).
  intros p rest l C K d ls fs c k Hl Hp Hst Hok Hc Hlen.
  rewrite toks_parens in Hl by lia. cbn [app] in Hl. rewrite <- app_assoc in Hl. cbn [app] in Hl.
  rewrite expression_eq.
  destruct (next_pst l LeftParen (fixed LeftParen).2 _ C K d ls fs Hl) as (t & l1 & E & Ht & Hl1 & _).
  rewrite (M_bind_Ok _ _ _ _ _ E), Ht. cbn [prefix_for]. rewrite M_bind_eq, prefix_eq.
  destruct (parses_ends 0 e (fixed RightParen :: rest) l1 C K d ls fs c k) as (l2 & Hl2 & E2);
    [apply He; lia|done|done|by intros r [=]|done..|].
  rewrite (M_bind_Ok _ _ _ _ _ E2).
  destruct (consume_pst l2 RightParen (fixed RightParen).2 rest (C ++ c) (K ++ k) d ls fs Hl2) as (t3 & l3 & E3 & Hl3).
  rewrite (M_bind_Ok _ _ _ _ _ E3). by exists l3.
Qed.

(** One token that is an expression: [m] is what its parselet does. *)
Lemma parse_atom l ty text rest p pf C K d ls fs C' K' :
  holds l ((ty, text) :: rest) -> prefix_for ty = Some pf ->
  (forall t l', typ t = ty -> holds l' rest ->
     (forall C2 K2, value_of t (pst l' C2 K2 d ls fs) = lift (text_value ty text) (pst l' C2 K2 d ls fs)) ->
     prefix pf t (pst l' C K d ls fs) = Val (Ok tt, pst l' C' K' d ls fs)) ->
  exists l', holds l' rest /\
    expression p (pst l C K d ls fs) = infix_operators p (pst l' C' K' d ls fs).
Proof.
  intros Hl Hpf Hm. rewrite expression_eq.
  destruct (next_pst l ty text rest C K d ls fs Hl) as (t & l1 & E & Ht & Hl1 & Hv).
  rewrite (M_bind_Ok _ _ _ _ _ E), Ht, Hpf, M_bind_eq. rewrite (Hm t l1 Ht Hl1).
  - by exists l1.
  - intros C2 K2. apply Hv, Hl1.
Qed.

Lemma byte_range k : 0 <= byte k < 256.
Proof. apply Z.mod_pos_bound. lia. Qed.

(** The identifier [x], as a local or as a global. *)
Lemma identifier_parselet_pst x t l C K d ls fs :
  value_of t (pst l C K d ls fs) = lift (text_value TIdentifier x) (pst l C K d ls fs) ->
  identifier_parselet t (pst l C K d ls fs) =
    Val (Ok tt, pst l (C ++ (cexpr (names ls) (length K) (EVar x)).1)
                      (K ++ (cexpr (names ls) (length K) (EVar x)).2) d ls fs).
Proof.
  intros Hv. unfold identifier_parselet. rewrite M_bind_eq, Hv. cbn [text_value lift].
  rewrite M_bind_eq. cbn [get]. unfold pst at 1. cbn [current_function locals].
  rewrite find_local_names. cbn [cexpr]. unfold names. destruct (find_name x _ 0) as [i|]; cbn [fst snd].
  - rewrite emit2_pst, app_nil_r. done.
  - rewrite M_bind_eq, constant_pst, emit2_pst. done.
Qed.

Lemma infix_binop l o rest p C K d ls fs :
  holds l (fixed (binop_token o) :: rest) -> p < binop_level o ->
  exists t l', typ t = binop_token o /\ holds l' rest /\
    infix_operators p (pst l C K d ls fs) =
      (_ ← (_ ← expression (binop_level o); emit (binop_opcode o)); infix_operators p) (pst l' C K d ls fs).
Proof.
  intros Hl Hp.
  destruct (infix_operators_step l (binop_token o) (fixed (binop_token o)).2 rest p (binop_level o) IBinary C K d ls fs)
    as (t & l' & Ht & Hl' & E); [done|by destruct o|done|].
  exists t, l'. split; [done|]. split; [done|]. rewrite E, !M_bind_eq, infix_eq, Ht.
  by destruct o.
Qed.

Lemma take_place_pst l C b K d ls fs :
  take_place (pst l (C ++ [opcode GetGlobal; b]) K d ls fs) = Val (Ok (b, SetGlobal), pst l C K d ls fs).
Proof.
  unfold take_place. rewrite M_bind_eq. cbn [get]. unfold pst at 1, pop_last. cbn [current_function chunk code].
  replace (C ++ [opcode GetGlobal; b]) with ((C ++ [opcode GetGlobal]) ++ [b]) by (by rewrite <- app_assoc).
  rewrite vec_pop_snoc, M_bind_eq. cbn [unwrap lift]. unfold pop_last_op, pop_last. cbn [code].
  rewrite vec_pop_snoc. done.
Qed.

(** The short-circuiting operators. *)
Lemma parse_logical l jump tok q i a b rest p C K d ls fs ca ka cb kb :
  parses (q - 1) a -> parses q b -> 2 <= q ->
  infix_entry tok = Some (q, i) ->
  (forall t s, infix i t s = (j ← emit_jump jump; _ ← emit Pop; _ ← expression q; patch j) s) ->
  holds l (toks (q - 1) a ++ fixed tok :: toks q b ++ rest) -> 0 <= p < q -> ends q rest ->
  ok_expr (names ls) a = true -> ok_expr (names ls) b = true ->
  cexpr (names ls) (length K) a = (ca, ka) -> cexpr (names ls) (length K + length ka) b = (cb, kb) ->
  len C + len (ca ++ jump_code jump (1 + len cb) ++ opcode Pop :: cb) < 2 ^ 15 ->
  exists l', holds l' rest /\
    expression p (pst l C K d ls fs) =
      infix_operators p (pst l' (C ++ ca ++ jump_code jump (1 + len cb) ++ opcode Pop :: cb) (K ++ ka ++ kb) d ls fs).
Proof.
  intros Ha Hb Hq Hi Heq Hl Hp Hends Hoka Hokb Hca Hcb Hlen.
  unfold len in Hlen. rewrite !length_app in Hlen. cbn [length jump_code to_le_bytes] in Hlen.
  destruct (Ha p (fixed tok :: toks q b ++ rest) l C K d ls fs ca ka) as (l1 & Hl1 & ->);
    [done|lia| |done|done|unfold len; lia|].
  { intros r. unfold binds, precedence_for. simpl. rewrite Hi. intros [= <-]. right. lia. }
  destruct (infix_operators_step l1 tok (fixed tok).2 (toks q b ++ rest) p q i (C ++ ca) (K ++ ka) d ls fs)
    as (t & l2 & Ht & Hl2 & ->); [done|done|lia|].
  rewrite M_bind_eq, Heq. rewrite M_bind_eq, emit_jump_pst, M_bind_eq, emit_pst, M_bind_eq.
  destruct (parses_ends q b rest l2 (((C ++ ca) ++ [opcode jump; 0; 0]) ++ [opcode Pop]) (K ++ ka) d ls fs cb kb)
    as (l3 & Hl3 & ->); [done|lia|done..|by rewrite length_app|unfold len; rewrite !length_app; simpl; lia|].
  replace ((((C ++ ca) ++ [opcode jump; 0; 0]) ++ [opcode Pop]) ++ cb)
    with ((C ++ ca) ++ [opcode jump; 0; 0] ++ opcode Pop :: cb) by (rewrite <- !app_assoc; done).
  rewrite patch_pst by (unfold len; cbn [length]; lia).
  exists l3. split; [done|]. rewrite <- !app_assoc.
  replace (len (opcode Pop :: cb)) with (1 + len cb) by (unfold len; cbn [length]; lia). done.
Qed.

(** The arguments of a call up to the closing parenthesis. *)
Definition parses_args (a : exprs) : Prop := forall n rest l C K d ls fs c k,
  holds l (atoks a ++ fixed RightParen :: rest) -> ok_args (names ls) a = true ->
  0 <= n -> n + Z.of_nat (alength a) <= 255 ->
  cargs (names ls) (length K) a = (c, k) -> len C + len c < 2 ^ 15 ->
  exists l', holds l' rest /\
    arguments n (pst l C K d ls fs) =
      Val (Ok (n + Z.of_nat (alength a)), pst l' (C ++ c) (K ++ k) d ls fs).

Lemma toks_head q e : exists ty text ts, toks q e = (ty, text) :: ts /\ is_Some (prefix_for ty).
Proof.
  revert q. induction e using expr_mut with (P0 := fun _ => True); try done; intros q; cbn [toks];
    unfold parens; destruct (_ <=? q); try done; try (by eexists _, _, _).
  - destruct b; by eexists _, _, _.
  - destruct (IHe1 (binop_level o - 1)) as (ty & text & ts & -> & ?). by eexists _, _, _.
  - destruct (IHe1 2) as (ty & text & ts & -> & ?). by eexists _, _, _.
  - destruct (IHe1 1) as (ty & text & ts & -> & ?). by eexists _, _, _.
  - destruct (IHe 13) as (ty & text & ts & -> & ?). by eexists _, _, _.
Qed.

(** No expression starts with a token that has no prefix parselet. *)
Lemma toks_not e ts ty : prefix_for ty = None -> fst <$> head (toks 0 e ++ ts) <> Some ty.
Proof.
  intros Hty. destruct (toks_head 0 e) as (ty' & text & ts' & -> & Hp). simpl. intros [= ->].
  rewrite Hty in Hp. by destruct Hp.
Qed.

Lemma parse_arg e a : (forall q, 0 <= q -> parses q e) -> parses_args a -> parses_args (ACons e a).
Proof.
  intros He Ha n rest l C K d ls fs c k Hl Hok Hn Hn' Hc Hlen.
  cbn [ok_args] in Hok. apply andb_true_iff in Hok as [Hoke Hoka]. cbn [cargs] in Hc.
  destruct (cexpr (names ls) (length K) e) as [ce ke] eqn:Ece.
  destruct (cargs (names ls) (length K + length ke) a) as [ca ka] eqn:Eca. simplify_eq.
  cbn [alength] in Hn' |- *. unfold len in Hlen. rewrite length_app in Hlen.
  assert (exists rest', atoks (ACons e a) ++ fixed RightParen :: rest = toks 0 e ++ rest' /\
            ((rest' = fixed RightParen :: rest /\ a = ANil) \/
             (rest' = fixed Comma :: atoks a ++ fixed RightParen :: rest))) as (rest' & Erest & Hrest).
  { destruct a as [|e' a']; cbn [atoks]; eexists.
    - split; [done|]. by left.
    - rewrite <- app_assoc. cbn [app]. split; [done|]. by right. }
  rewrite Erest in Hl. rewrite arguments_eq.
  destruct (matches_other l (toks 0 e ++ rest') RightParen C K d ls fs) as (l1 & E1 & Hl1);
    [done|by apply toks_not|].
  rewrite (M_bind_Ok _ _ _ _ _ E1).
  destruct (parses_ends 0 e rest' l1 C K d ls fs ce ke) as (l2 & Hl2 & E2);
    [by apply He|done|done| |done|done|unfold len; lia|].
  { by destruct Hrest as [[-> _]| ->]; intros r [=]. }
  rewrite (M_bind_Ok _ _ _ _ _ E2).
  assert (wadd 8 n 1 = Val (n + 1)) as Eadd by (apply wadd_in; unfold is_unsigned; lia).
  assert (exists b l3, matches Comma (pst l2 (C ++ ce) (K ++ ke) d ls fs) =
            Val (Ok b, pst l3 (C ++ ce) (K ++ ke) d ls fs) /\ holds l3 (atoks a ++ fixed RightParen :: rest))
    as (b & l3 & E3 & Hl3).
  { destruct Hrest as [[-> ->]| ->].
    - destruct (matches_other l2 (fixed RightParen :: rest) Comma (C ++ ce) (K ++ ke) d ls fs) as (l3 & ? & ?);
        [done|done|]. by eexists _, l3.
    - destruct (matches_this l2 Comma (fixed Comma).2 (atoks a ++ fixed RightParen :: rest) (C ++ ce) (K ++ ke) d ls fs)
        as (l3 & ? & ?); [done|]. by eexists _, l3. }
  rewrite (M_bind_Ok _ _ _ _ _ E3), M_bind_eq, Eadd. cbn [lift].
  destruct (Ha (n + 1) rest l3 (C ++ ce) (K ++ ke) d ls fs ca ka) as (l4 & Hl4 & ->);
    [done|done|lia|lia|by rewrite length_app|unfold len; rewrite length_app; lia|].
  exists l4. split; [done|]. rewrite <- !app_assoc.
  by replace (n + 1 + Z.of_nat (alength a)) with (n + Z.of_nat (S (alength a))) by lia.
Qed.

(** Every way to write an expression, its parts being parsed. *)
Definition parsed (e : expr) : Prop := forall q, 0 <= q < level e -> parses q e.

Lemma parse_int t : parsed (EInt t).
Proof.
  intros q Hq p rest l C K d ls fs c k Hl Hp Hst Hok Hc Hlen. cbn [toks level] in *.
  rewrite (proj2 (Z.leb_gt _ _)) in Hl by lia. injection Hc as <- <-.
  eapply parse_atom; [exact Hl|done|]. intros tok l' _ _ Hv. rewrite prefix_eq. unfold integer_parselet.
  rewrite M_bind_eq, Hv. cbn [ok_expr text_value] in *. unfold literal.
  destruct (token_to_integer_literal t) as [n|]; [|done]. obind. cbn [lift].
  by rewrite M_bind_eq, constant_pst, emit2_pst.
Qed.

Lemma parse_str t : parsed (EStr t).
Proof.
  intros q Hq p rest l C K d ls fs c k Hl Hp Hst Hok Hc Hlen. cbn [toks level] in *.
  rewrite (proj2 (Z.leb_gt _ _)) in Hl by lia. injection Hc as <- <-.
  eapply parse_atom; [exact Hl|done|]. intros tok l' _ _ Hv. rewrite prefix_eq. unfold string_parselet.
  rewrite M_bind_eq, Hv. cbn [text_value lift]. by rewrite M_bind_eq, constant_pst, emit2_pst.
Qed.

Lemma parse_bool b : parsed (EBool b).
Proof.
  intros q Hq p rest l C K d ls fs c k Hl Hp Hst Hok Hc Hlen. cbn [toks level] in *.
  rewrite (proj2 (Z.leb_gt _ _)) in Hl by lia. injection Hc as <- <-. rewrite app_nil_r.
  destruct b; (eapply parse_atom; [exact Hl|done|]); intros tok l' Ht _ _; rewrite prefix_eq;
    unfold bool_parselet; rewrite Ht; apply emit_pst.
Qed.

Lemma parse_var x : parsed (EVar x).
Proof.
  intros q Hq p rest l C K d ls fs c k Hl Hp Hst Hok Hc Hlen. cbn [toks level] in *.
  rewrite (proj2 (Z.leb_gt _ _)) in Hl by lia.
  eapply parse_atom; [exact Hl|done|]. intros tok l' _ _ Hv. rewrite prefix_eq.
  rewrite (identifier_parselet_pst x) by apply Hv. by rewrite Hc.
Qed.

Lemma parse_neg e : parsed e -> parsed (ENeg e).
Proof.
  intros IH q Hq p rest l C K d ls fs c k Hl Hp Hst Hok Hc Hlen. cbn [toks level ok_expr cexpr] in *.
  rewrite (proj2 (Z.leb_gt _ _)) in Hl by lia. cbn [parens app] in Hl.
  destruct (cexpr (names ls) (length K) e) as [ce ke] eqn:Ece. simplify_eq.
  unfold len in Hlen. rewrite length_app in Hlen. rewrite expression_eq.
  destruct (next_pst l Minus (fixed Minus).2 _ C K d ls fs Hl) as (t & l1 & E & Ht & Hl1 & _).
  rewrite (M_bind_Ok _ _ _ _ _ E), Ht. cbn [prefix_for]. rewrite M_bind_eq, prefix_eq.
  destruct (parses_ends 11 e rest l1 C K d ls fs ce k) as (l2 & Hl2 & E2);
    [by apply parses_all|done|done|by apply (stops_ends q); [|lia]|done|done|unfold len; lia|].
  rewrite (M_bind_Ok _ _ _ _ _ E2), emit_pst, <- app_assoc. by exists l2.
Qed.

Lemma parse_bin o a b : parsed a -> parsed b -> parsed (EBin o a b).
Proof.
  intros IHa IHb q Hq p rest l C K d ls fs c k Hl Hp Hst Hok Hc Hlen. cbn [toks level ok_expr cexpr] in *.
  assert (4 <= binop_level o) as Hlv by (by destruct o).
  rewrite (proj2 (Z.leb_gt _ _)) in Hl by lia. cbn [parens] in Hl. rewrite <- app_assoc in Hl. cbn [app] in Hl.
  apply andb_true_iff in Hok as [Hoka Hokb].
  destruct (cexpr (names ls) (length K) a) as [ca ka] eqn:Eca.
  destruct (cexpr (names ls) (length K + length ka) b) as [cb kb] eqn:Ecb. simplify_eq.
  unfold len in Hlen. rewrite !length_app in Hlen.
  destruct (parses_all a IHa (binop_level o - 1) ltac:(lia) p _ l C K d ls fs ca ka Hl) as (l1 & Hl1 & ->);
    [lia| |done|done|unfold len; lia|].
  { intros r Hr. right. split; [|lia].
    assert (binds (fixed (binop_token o) :: toks (binop_level o) b ++ rest) = Some (binop_level o)) as Hb
      by (by destruct o). rewrite Hb in Hr. simplify_eq. lia. }
  destruct (infix_binop l1 o _ p (C ++ ca) (K ++ ka) d ls fs Hl1) as (t & l2 & _ & Hl2 & ->); [lia|].
  rewrite M_bind_eq.
  destruct (parses_ends (binop_level o) b rest l2 (C ++ ca) (K ++ ka) d ls fs cb kb) as (l3 & Hl3 & E3);
    [apply parses_all; [done|lia]|lia|done|by apply (stops_ends q); [|lia]|done|by rewrite length_app|
     unfold len; rewrite length_app; lia|].
  rewrite (M_bind_Ok _ _ _ _ _ E3), emit_pst, <- !app_assoc. by exists l3.
Qed.

Lemma parse_and a b : parsed a -> parsed b -> parsed (EAnd a b).
Proof.
  intros IHa IHb q Hq p rest l C K d ls fs c k Hl Hp Hst Hok Hc Hlen. cbn [toks level ok_expr cexpr] in *.
  rewrite (proj2 (Z.leb_gt _ _)) in Hl by lia. cbn [parens] in Hl. rewrite <- app_assoc in Hl. cbn [app] in Hl.
  apply andb_true_iff in Hok as [Hoka Hokb].
  destruct (cexpr (names ls) (length K) a) as [ca ka] eqn:Eca.
  destruct (cexpr (names ls) (length K + length ka) b) as [cb kb] eqn:Ecb. simplify_eq.
  eapply (parse_logical l JumpIfFalse AmpersandAmpersand 3 IAnd a b);
    [by apply parses_all|by apply parses_all|lia|done|intros; by rewrite infix_eq|done|lia|
     by apply (stops_ends q); [|lia]|done..].
Qed.

Lemma parse_or a b : parsed a -> parsed b -> parsed (EOr a b).
Proof.
  intros IHa IHb q Hq p rest l C K d ls fs c k Hl Hp Hst Hok Hc Hlen. cbn [toks level ok_expr cexpr] in *.
  rewrite (proj2 (Z.leb_gt _ _)) in Hl by lia. cbn [parens] in Hl. rewrite <- app_assoc in Hl. cbn [app] in Hl.
  apply andb_true_iff in Hok as [Hoka Hokb].
  destruct (cexpr (names ls) (length K) a) as [ca ka] eqn:Eca.
  destruct (cexpr (names ls) (length K + length ka) b) as [cb kb] eqn:Ecb. simplify_eq.
  eapply (parse_logical l JumpIfTrue PipePipe 2 IOr a b);
    [by apply parses_all|by apply parses_all|lia|done|intros; by rewrite infix_eq|done|lia|
     by apply (stops_ends q); [|lia]|done..].
Qed.

Lemma parse_assign x e : parsed e -> parsed (EAssign x e).
Proof.
  intros IH q Hq p rest l C K d ls fs c k Hl Hp Hst Hok Hc Hlen. cbn [toks level ok_expr cexpr] in *.
  assert (q = 0) as -> by lia. assert (p = 0) as -> by lia. cbn [Z.leb Z.compare parens app] in Hl.
  apply andb_true_iff in Hok as [Hx%bool_decide_eq_true Hok]. rewrite (find_name_None x) in Hc by done.
  destruct (cexpr (names ls) (S (length K)) e) as [ce ke] eqn:Ece. simplify_eq.
  unfold len in Hlen. rewrite length_app in Hlen.
  destruct (parse_atom l TIdentifier x (fixed Equals :: toks 0 e ++ rest) 0 PIdentifier C K d ls fs
    (C ++ [opcode GetGlobal; byte (length K)]) (K ++ [string_value x])) as (l1 & Hl1 & ->); [done|done| |].
  { intros tok l' _ _ Hv. rewrite prefix_eq, (identifier_parselet_pst x) by apply Hv. cbn [cexpr].
    by rewrite find_name_None. }
  destruct (infix_operators_step l1 Equals (fixed Equals).2 (toks 0 e ++ rest) 0 1 IAssign
    (C ++ [opcode GetGlobal; byte (length K)]) (K ++ [string_value x]) d ls fs) as (t & l2 & _ & Hl2 & ->); [done..|].
  rewrite M_bind_eq, infix_eq, M_bind_eq, take_place_pst. cbn [PRECEDENCE_ASSIGNMENT Z.sub Z.add Z.opp Z.pos_sub].
  destruct (parses_ends 0 e rest l2 C (K ++ [string_value x]) d ls fs ce ke) as (l3 & Hl3 & E3);
    [by apply parses_all|done|done| |done| |unfold len; lia|].
  { intros r Hr. destruct (Hst r Hr); lia. }
  { by rewrite length_app, Nat.add_comm. }
  rewrite (M_bind_Ok _ _ _ _ _ E3), emit2_pst, <- !app_assoc. by exists l3.
Qed.

Lemma parse_call f a : parsed f -> parses_args a -> parsed (ECall f a).
Proof.
  intros IHf IHa q Hq p rest l C K d ls fs c k Hl Hp Hst Hok Hc Hlen. cbn [toks level ok_expr cexpr] in *.
  rewrite (proj2 (Z.leb_gt _ _)) in Hl by lia. cbn [parens] in Hl. rewrite <- app_assoc in Hl. cbn [app] in Hl.
  rewrite <- app_assoc in Hl. cbn [app] in Hl.
  apply andb_true_iff in Hok as [[Hokf Hoka]%andb_true_iff Hn%Nat.leb_le].
  destruct (cexpr (names ls) (length K) f) as [cf kf] eqn:Ecf.
  destruct (cargs (names ls) (length K + length kf) a) as [ca ka] eqn:Eca. simplify_eq.
  unfold len in Hlen. rewrite !length_app in Hlen.
  destruct (parses_all f IHf 13 ltac:(lia) p _ l C K d ls fs cf kf Hl) as (l1 & Hl1 & ->);
    [lia| |done|done|unfold len; lia|].
  { intros r [= <-]. right. done. }
  destruct (infix_operators_step l1 LeftParen (fixed LeftParen).2 _ p 14 ICall (C ++ cf) (K ++ kf) d ls fs Hl1)
    as (t & l2 & Ht & Hl2 & ->); [done|lia|].
  rewrite M_bind_eq, infix_eq.
  destruct (IHa 0 rest l2 (C ++ cf) (K ++ kf) d ls fs ca ka) as (l3 & Hl3 & E3);
    [done|done|lia|lia|by rewrite length_app|unfold len; rewrite length_app; lia|].
  rewrite (M_bind_Ok _ _ _ _ _ E3), Z.add_0_l, emit2_pst, <- !app_assoc. by exists l3.
Qed.

Lemma parse_no_args : parses_args ANil.
Proof.
  intros n rest l C K d ls fs c k Hl _ Hn Hn' Hc Hlen. cbn [atoks app cargs alength] in *. simplify_eq.
  rewrite arguments_eq.
  destruct (matches_this l RightParen (fixed RightParen).2 rest C K d ls fs Hl) as (l' & E & Hl').
  rewrite (M_bind_Ok _ _ _ _ _ E), Z.add_0_r, !app_nil_r. by exists l'.
Qed.

Lemma expressions_parse : (forall e, parsed e) /\ (forall a, parses_args a).
Proof.
  apply expr_exprs_ind.
  - apply parse_int.
  - apply parse_str.
  - apply parse_bool.
  - apply parse_var.
  - apply parse_neg.
  - intros o a Ha b Hb. by apply parse_bin.
  - intros a Ha b Hb. by apply parse_and.
  - intros a Ha b Hb. by apply parse_or.
  - apply parse_assign.
  - intros f Hf a Ha. by apply parse_call.
  - apply parse_no_args.
  - intros e IHe a IHa. apply parse_arg; [|done]. by apply parses_all.
Qed.

(** A whole expression, followed by a token that is no operator. *)
Lemma parse_expression e rest l C K d ls fs c k :
  holds l (toks 0 e ++ rest) -> binds rest = None -> ok_expr (names ls) e = true ->
  cexpr (names ls) (length K) e = (c, k) -> len C + len c < 2 ^ 15 ->
  exists l', holds l' rest /\
    expression 0 (pst l C K d ls fs) = Val (Ok tt, pst l' (C ++ c) (K ++ k) d ls fs).
Proof.
  intros Hl Hb Hok Hc Hlen. eapply parses_ends; [|done|done| |done..].
  - apply parses_all; [apply expressions_parse|done].
  - intros r. by rewrite Hb.
Qed.

(** ** Statements *)

Definition scoped (d : nat) : bool := bool_decide (0 < d)%nat.

Lemma begin_scope_pst l C K d ls fs :
  begin_scope (pst l C K d ls fs) = Val (Ok tt, pst l C K (S d) ls fs).
Proof. done. Qed.
Lemma push_local_pst l C K d ls fs x :
  push_local x (pst l C K d ls fs) = Val (Ok tt, pst l C K d (ls ++ [mkLocal x d]) fs).
Proof. done. Qed.

Lemma filter_depth_none d ls :
  Forall (fun y => local_depth y <= d)%nat ls -> filter (fun y => d < local_depth y)%nat ls = [].
Proof.
  induction 1 as [|y ls Hy _ IH]; [done|]. rewrite filter_cons_False by lia. done.
Qed.
Lemma filter_depth_all d ls :
  Forall (fun y => local_depth y = S d) ls -> filter (fun y => d < local_depth y)%nat ls = ls.
Proof.
  induction 1 as [|y ls Hy _ IH]; [done|]. rewrite filter_cons_True by lia. by rewrite IH.
Qed.

Lemma end_scope_pst l C K d ls inner fs :
  Forall (fun y => local_depth y <= d)%nat ls -> Forall (fun y => local_depth y = S d) inner ->
  end_scope (pst l C K (S d) (ls ++ inner) fs) = Val (Ok tt, pst l (C ++ pops (length inner)) K d ls fs).
Proof.
  intros Hout Hin. unfold end_scope. rewrite M_bind_eq. cbn [get].
  change (current_function (pst l C K (S d) (ls ++ inner) fs)) with (mkFunction (mkChunk C K) (S d) (ls ++ inner)).
  cbn [scope_depth locals]. rewrite M_bind_eq. cbn [Nat.eqb negb rassert lift].
  rewrite M_bind_eq. unfold put at 1. rewrite M_bind_eq.
  rewrite Nat.sub_succ, Nat.sub_0_r, list.filter_app, filter_depth_none, filter_depth_all by done. cbn [app].
  change (set_depth d _) with (pst l C K d (ls ++ inner) fs).
  rewrite emit_pops_pst. rewrite length_app, Nat.add_sub, take_app_length. done.
Qed.

(** [statement] by its first token. *)
Ltac not_this_by Hl tac :=
  match goal with
  | |- context [(matches ?ty ≫= _) (pst ?l ?C ?K ?d ?ls ?fs)] =>
      let l' := fresh "lx" in let E := fresh "E" in
      destruct (matches_other l _ ty C K d ls fs Hl) as (l' & E & ?Hl'); [tac|];
      rewrite (M_bind_Ok _ _ _ _ _ E); clear E Hl; rename Hl' into Hl
  end.
Ltac not_this Hl := not_this_by Hl ltac:(done).
Ltac this Hl :=
  match goal with
  | |- context [(matches ?ty ≫= _) (pst ?l ?C ?K ?d ?ls ?fs)] =>
      let l' := fresh "lx" in let E := fresh "E" in
      destruct (matches_this l ty _ _ C K d ls fs Hl) as (l' & E & ?Hl');
      rewrite (M_bind_Ok _ _ _ _ _ E); clear E Hl; rename Hl' into Hl
  end.
Ltac consumed Hl :=
  match goal with
  | |- context [(consume ?ty ≫= _) (pst ?l ?C ?K ?d ?ls ?fs)] =>
      let t := fresh "t" in let l' := fresh "lx" in let E := fresh "E" in
      destruct (consume_pst l ty _ _ C K d ls fs Hl) as (t & l' & E & ?Hl');
      rewrite (M_bind_Ok _ _ _ _ _ E); clear E Hl; rename Hl' into Hl
  end.

(** The statement [s] in front of [rest] is compiled. *)
Definition parses_stmt (s : stmt) : Prop := forall rest l C K d ls fs c k nms dirty r,
  holds l (stoks s ++ rest) -> fst <$> head rest <> Some TElse ->
  check_stmt (scoped d) (names ls) dirty s = Some r ->
  cstmt (scoped d) (names ls) (length K) s = (c, k, nms) -> len C + len c < 2 ^ 15 ->
  Forall (fun y => local_depth y <= d)%nat ls ->
  exists l' inner, holds l' rest /\
    statement (pst l C K d ls fs) = Val (Ok tt, pst l' (C ++ c) (K ++ k) d (ls ++ inner) fs) /\
    names (ls ++ inner) = nms /\ Forall (fun y => local_depth y = d) inner.

(** The statements of a block up to its closing brace. *)
Definition parses_block (ss : stmts) : Prop := forall rest l C K d ls fs c k nms dirty r,
  holds l (sstoks ss ++ fixed RightBrace :: rest) ->
  check_stmts (scoped d) (names ls) dirty ss = Some r ->
  cstmts (scoped d) (names ls) (length K) ss = (c, k, nms) -> len C + len c < 2 ^ 15 ->
  Forall (fun y => local_depth y <= d)%nat ls ->
  exists l' inner, holds l' rest /\
    block (pst l C K d ls fs) = Val (Ok tt, pst l' (C ++ c) (K ++ k) d (ls ++ inner) fs) /\
    names (ls ++ inner) = nms /\ Forall (fun y => local_depth y = d) inner.

(** A block in braces: its scope is opened, and closed with its locals popped. *)
Lemma parse_scope b rest l C K d ls fs c k nms dirty r :
  parses_block b -> holds l (sstoks b ++ fixed RightBrace :: rest) ->
  check_stmts true (names ls) dirty b = Some r ->
  cstmts true (names ls) (length K) b = (c, k, nms) ->
  len C + len (c ++ pops (length nms - length (names ls))) < 2 ^ 15 ->
  Forall (fun y => local_depth y <= d)%nat ls ->
  exists l', holds l' rest /\
    (_ ← begin_scope; _ ← block; end_scope) (pst l C K d ls fs) =
      Val (Ok tt, pst l' (C ++ c ++ pops (length nms - length (names ls))) (K ++ k) d ls fs).
Proof.
  intros Hb Hl Hck Hc Hlen Hd. unfold len in Hlen. rewrite length_app in Hlen.
  destruct (Hb rest l C K (S d) ls fs c k nms dirty r) as (l' & inner & Hl' & E & Hn & Hin);
    [done|done|done|unfold len; lia|eapply Forall_impl; [|exact Hd]; simpl; lia|].
  exists l'. split; [done|]. rewrite M_bind_eq, begin_scope_pst, M_bind_eq, E, end_scope_pst by done.
  rewrite <- Hn. unfold names. rewrite fmap_app, length_app, !length_fmap, <- app_assoc.
  by replace (length ls + length inner - length ls)%nat with (length inner) by lia.
Qed.

Lemma scope_then {A} (m : P A) s s' :
  (_ ← begin_scope; _ ← block; end_scope) s = Val (Ok tt, s') ->
  (_ ← begin_scope; _ ← block; _ ← end_scope; m) s = m s'.
Proof.
  rewrite !M_bind_eq. destruct (begin_scope s) as [[[]]|]; try done. rewrite !M_bind_eq.
  destruct (block _) as [[[]]|]; try done. rewrite !M_bind_eq. by intros ->.
Qed.

Lemma parse_let x e : parses_stmt (SLet x e).
Proof.
  intros rest l C K d ls fs c k nms dirty r Hl _ Hck Hc Hlen Hd. cbn [stoks app] in Hl.
  rewrite <- app_assoc in Hl. cbn [app] in Hl. rewrite statement_eq. this Hl. unfold let_statement.
  destruct (identifier_pst _ x _ C K d ls fs Hl) as (l1 & E1 & Hl1). rewrite (M_bind_Ok _ _ _ _ _ E1).
  rewrite M_bind_eq. cbn [get]. unfold pst at 1. cbn [current_function scope_depth].
  unfold scoped in *. destruct d as [|d].
  - rewrite bool_decide_eq_false_2 in Hck, Hc by lia. cbn [check_stmt cstmt] in *.
    destruct (ok_expr (names ls) e) eqn:Hok; [|done].
    destruct (cexpr (names ls) (length K) e) as [ce ke] eqn:Ece. simplify_eq.
    unfold len in Hlen. rewrite length_app in Hlen.
    destruct (decide (0 < 0)%nat); [lia|]. rewrite M_bind_eq. unfold mret at 1, M_ret at 1. consumed Hl1.
    destruct (parse_expression e _ _ C K 0 ls fs ce ke Hl1) as (l2 & Hl2 & E2);
      [done|done|done|unfold len; lia|].
    rewrite (M_bind_Ok _ _ _ _ _ E2). consumed Hl2. rewrite M_bind_eq. cbn [get]. unfold pst at 1.
    cbn [current_function scope_depth]. rewrite decide_True by done. unfold define_global_code.
    rewrite M_bind_eq, constant_pst, M_bind_eq, emit2_pst, emit_pst. eexists _, [].
    rewrite app_nil_r, length_app, <- !app_assoc. done.
  - rewrite bool_decide_eq_true_2 in Hck, Hc by lia. cbn [check_stmt cstmt] in *.
    destruct (ok_expr (names ls ++ [x]) e) eqn:Hok; [|done].
    destruct (cexpr (names ls ++ [x]) (length K) e) as [ce ke] eqn:Ece. simplify_eq.
    destruct (decide (0 < S d)%nat); [|lia]. rewrite M_bind_eq, push_local_pst. consumed Hl1.
    assert (names (ls ++ [mkLocal x (S d)]) = names ls ++ [x]) as En by (unfold names; by rewrite fmap_app).
    destruct (parse_expression e _ _ C K (S d) (ls ++ [mkLocal x (S d)]) fs c k Hl1) as (l2 & Hl2 & E2);
      [done|by rewrite En|by rewrite En|done|].
    rewrite (M_bind_Ok _ _ _ _ _ E2). consumed Hl2. rewrite M_bind_eq. cbn [get]. unfold pst at 1.
    cbn [current_function scope_depth]. destruct (decide (S d = 0)%nat); [lia|].
    eexists _, [mkLocal x (S d)]. split; [done|]. split; [done|]. split; [done|]. by constructor.
Qed.

Lemma parse_expr_stmt e : parses_stmt (SExpr e).
Proof.
  intros rest l C K d ls fs c k nms dirty r Hl _ Hck Hc Hlen Hd. cbn [stoks check_stmt cstmt] in *.
  destruct (ok_expr (names ls) e) eqn:Hok; [|done].
  destruct (cexpr (names ls) (length K) e) as [ce ke] eqn:Ece. simplify_eq.
  unfold len in Hlen. rewrite length_app in Hlen.
  assert (forall ty, prefix_for ty = None -> fst <$> head ((toks 0 e ++ [fixed Semicolon]) ++ rest) <> Some ty) as Hh.
  { intros ty. rewrite <- app_assoc. apply toks_not. }
  rewrite statement_eq.
  do 6 not_this_by Hl ltac:(by apply Hh).
  rewrite <- app_assoc in Hl. unfold expression_statement.
  destruct (parse_expression e _ _ C K d ls fs ce k Hl) as (l2 & Hl2 & E2); [done|done|done|unfold len; lia|].
  rewrite (M_bind_Ok _ _ _ _ _ E2). cbn [app] in Hl2. this Hl2. rewrite emit_pst. eexists _, [].
  rewrite app_nil_r, <- app_assoc. done.
Qed.

Lemma parse_return e : parses_stmt (SReturn e).
Proof.
  intros rest l C K d ls fs c k nms dirty r Hl _ Hck Hc Hlen Hd. cbn [stoks check_stmt cstmt] in *.
  rewrite statement_eq. destruct e as [e|].
  - cbn [app] in Hl. rewrite <- app_assoc in Hl. do 5 not_this Hl. this Hl. unfold return_statement.
    destruct (ok_expr (names ls) e) eqn:Hok; [|done].
    destruct (cexpr (names ls) (length K) e) as [ce ke] eqn:Ece. simplify_eq.
    unfold len in Hlen. rewrite length_app in Hlen.
    destruct (matches_other _ _ Semicolon C K d ls fs Hl) as (l' & E & Hl'); [by apply toks_not|].
    rewrite (M_bind_Ok _ _ _ _ _ E).
    destruct (parse_expression e _ _ C K d ls fs ce k Hl') as (l2 & Hl2 & E2); [done|done|done|unfold len; lia|].
    rewrite (M_bind_Ok _ _ _ _ _ E2). cbn [app] in Hl2. consumed Hl2. rewrite emit_pst. eexists _, [].
    rewrite app_nil_r, <- app_assoc. done.
  - cbn [app] in Hl. do 5 not_this Hl. this Hl. unfold return_statement. this Hl. simplify_eq.
    rewrite M_bind_eq, !emit_pst. eexists _, []. rewrite !app_nil_r, <- app_assoc. done.
Qed.

Lemma parse_block_stmt b : parses_block b -> parses_stmt (SBlock b).
Proof.
  intros Hb rest l C K d ls fs c k nms dirty r Hl _ Hck Hc Hlen Hd. cbn [stoks check_stmt cstmt app] in *.
  rewrite <- app_assoc in Hl. cbn [app] in Hl.
  destruct (check_stmts true (names ls) dirty b) as [[nms' dirty']|] eqn:Eck; [|done].
  destruct (cstmts true (names ls) (length K) b) as [[cb kb] nb] eqn:Ecb. simplify_eq.
  rewrite statement_eq. not_this Hl. this Hl.
  destruct (parse_scope b rest _ C K d ls fs cb k nb dirty _ Hb Hl Eck Ecb Hlen Hd) as (l' & Hl' & ->).
  eexists _, []. rewrite app_nil_r. done.
Qed.

(** The condition and the then branch of an [if], up to the jump over the else
    branch. *)
Lemma parse_then c t rest l C K d ls fs cc kc ct kt nt dirty r :
  parses_block t ->
  holds l (toks 0 c ++ fixed LeftBrace :: sstoks t ++ fixed RightBrace :: rest) ->
  ok_expr (names ls) c = true -> check_stmts true (names ls) dirty t = Some r ->
  cexpr (names ls) (length K) c = (cc, kc) ->
  cstmts true (names ls) (length K + length kc) t = (ct, kt, nt) ->
  Forall (fun y => local_depth y <= d)%nat ls ->
  let ct' := ct ++ pops (length nt - length (names ls)) in
  let head := C ++ cc ++ jump_code JumpIfFalse (len ct' + 4) ++ opcode Pop :: ct' in
  len head + 4 < 2 ^ 15 ->
  exists l', holds l' rest /\
    (_ ← expression 0; then_jump ← emit_jump JumpIfFalse; _ ← emit Pop; _ ← consume LeftBrace;
     _ ← begin_scope; _ ← block; _ ← end_scope;
     else_jump ← emit_jump Jump; _ ← patch then_jump; _ ← emit Pop;
     has_else ← matches TElse;
     _ ← (if has_else : bool then _ ← consume LeftBrace; _ ← begin_scope; _ ← block; end_scope
          else mret tt);
     patch else_jump) (pst l C K d ls fs) =
    (has_else ← matches TElse;
     _ ← (if has_else : bool then _ ← consume LeftBrace; _ ← begin_scope; _ ← block; end_scope
          else mret tt);
     patch (length head + 1)%nat)
    (pst l' (head ++ [opcode Jump; 0; 0] ++ [opcode Pop]) (K ++ kc ++ kt) d ls fs).
Proof.
  intros Ht Hl Hok Hck Hcc Hct Hd ct' head Hlen.
  assert (length head = length (((((C ++ cc) ++ [opcode JumpIfFalse; 0; 0]) ++ [opcode Pop]) ++ ct'))) as Eoff
    by (unfold head; rewrite !length_app; cbn [length jump_code to_le_bytes]; lia).
  rewrite Eoff. unfold head in Hlen |- *. clear Eoff head. unfold len in Hlen. rewrite !length_app in Hlen. cbn [length jump_code to_le_bytes] in Hlen.
  destruct (parse_expression c _ l C K d ls fs cc kc Hl) as (l1 & Hl1 & E1); [done|done|done|unfold len; lia|].
  rewrite (M_bind_Ok _ _ _ _ _ E1), M_bind_eq, emit_jump_pst, M_bind_eq, emit_pst. consumed Hl1.
  destruct (parse_scope t rest _ (((C ++ cc) ++ [opcode JumpIfFalse; 0; 0]) ++ [opcode Pop]) (K ++ kc) d ls fs ct kt nt
    dirty r Ht Hl1 Hck) as (l2 & Hl2 & E2);
    [by rewrite length_app|unfold len; fold ct'; rewrite !length_app; simpl; lia|done|].
  fold ct' in E2. rewrite (scope_then _ _ _ E2), M_bind_eq, emit_jump_pst, M_bind_eq.
  replace (((((C ++ cc) ++ [opcode JumpIfFalse; 0; 0]) ++ [opcode Pop]) ++ ct') ++ [opcode Jump; 0; 0])
    with ((C ++ cc) ++ [opcode JumpIfFalse; 0; 0] ++ (opcode Pop :: ct' ++ [opcode Jump; 0; 0]))
    by (rewrite <- !app_assoc; done).
  rewrite patch_pst by (unfold len; cbn [length]; rewrite length_app; simpl; lia).
  replace (len (opcode Pop :: ct' ++ [opcode Jump; 0; 0])) with (len ct' + 4)
    by (unfold len; cbn [length]; rewrite length_app; simpl; lia).
  rewrite M_bind_eq, emit_pst, <- !app_assoc. cbn [app]. rewrite <- !app_assoc. by exists l2.
Qed.

Lemma parse_if c t : parses_block t -> parses_stmt (SIf c t).
Proof.
  intros Ht rest l C K d ls fs cd k nms dirty r Hl Hels Hck Hc Hlen Hd. cbn [stoks check_stmt cstmt app] in *.
  rewrite <- app_assoc in Hl. cbn [app] in Hl. rewrite <- app_assoc in Hl. cbn [app] in Hl.
  destruct (ok_expr (names ls) c) eqn:Hok; [|done].
  destruct (check_stmts true (names ls) dirty t) as [rt|] eqn:Eck; [|done].
  destruct (cexpr (names ls) (length K) c) as [cc kc] eqn:Ecc.
  destruct (cstmts true (names ls) (length K + length kc) t) as [[ct kt] nt] eqn:Ect. simplify_eq.
  set (ct' := ct ++ pops (length nt - length (names ls))) in *.
  unfold len in Hlen. rewrite !length_app in Hlen. rewrite ?length_jump_code in Hlen.
  cbn [length] in Hlen. rewrite !length_app in Hlen. cbn [length] in Hlen.
  rewrite ?length_jump_code in Hlen.
  rewrite statement_eq. do 2 not_this Hl. this Hl.
  destruct (parse_then c t rest _ C K d ls fs cc kc ct kt nt dirty rt Ht Hl Hok Eck Ecc Ect Hd) as (l1 & Hl1 & ->).
  { fold ct'. unfold len. rewrite !length_app. cbn [length jump_code to_le_bytes]. lia. }
  fold ct'. not_this Hl1. rewrite M_bind_eq. unfold mret at 1, M_ret at 1.
  rewrite patch_pst by (by unfold len).
  eexists _, []. split; [done|]. split; [|by rewrite app_nil_r].
  rewrite app_nil_r, <- !app_assoc. cbn [app]. rewrite <- ?app_assoc. done.
Qed.

Lemma parse_if_else c t e : parses_block t -> parses_block e -> parses_stmt (SIfElse c t e).
Proof.
  intros Ht He rest l C K d ls fs cd k nms dirty r Hl Hels Hck Hc Hlen Hd. cbn [stoks check_stmt cstmt app] in *.
  rewrite <- app_assoc in Hl. cbn [app] in Hl. rewrite <- app_assoc in Hl. cbn [app] in Hl.
  rewrite <- app_assoc in Hl. cbn [app] in Hl.
  destruct (ok_expr (names ls) c) eqn:Hok; [|done].
  destruct (check_stmts true (names ls) dirty t) as [[n1 d1]|] eqn:Eckt; [|done].
  destruct (check_stmts true (names ls) dirty e) as [[n2 d2]|] eqn:Ecke; [|done].
  destruct (cexpr (names ls) (length K) c) as [cc kc] eqn:Ecc.
  destruct (cstmts true (names ls) (length K + length kc) t) as [[ct kt] nt] eqn:Ect.
  destruct (cstmts true (names ls) (length K + length kc + length kt) e) as [[ce ke] ne] eqn:Ece. simplify_eq.
  set (ct' := ct ++ pops (length nt - length (names ls))) in *.
  set (ce' := ce ++ pops (length ne - length (names ls))) in *.
  unfold len in Hlen. rewrite !length_app in Hlen. rewrite ?length_jump_code in Hlen.
  cbn [length] in Hlen. rewrite !length_app in Hlen. cbn [length] in Hlen.
  rewrite ?length_jump_code in Hlen.
  rewrite statement_eq. do 2 not_this Hl. this Hl.
  destruct (parse_then c t _ _ C K d ls fs cc kc ct kt nt dirty _ Ht Hl Hok Eckt Ecc Ect Hd) as (l1 & Hl1 & ->).
  { fold ct'. unfold len. rewrite !length_app. cbn [length jump_code to_le_bytes]. lia. }
  fold ct'. this Hl1. rewrite M_bind_eq. consumed Hl1.
  destruct (parse_scope e rest _ ((C ++ cc ++ jump_code JumpIfFalse (len ct' + 4) ++ opcode Pop :: ct') ++
    [opcode Jump; 0; 0] ++ [opcode Pop]) (K ++ kc ++ kt) d ls fs ce ke ne dirty _ He Hl1 Ecke) as (l2 & Hl2 & ->).
  { by rewrite !length_app, Nat.add_assoc. }
  { fold ce'. unfold len. rewrite !length_app. cbn [length jump_code to_le_bytes app]. lia. }
  { done. }
  fold ce'. rewrite <- (app_assoc _ ([opcode Jump; 0; 0] ++ [opcode Pop])), <- (app_assoc [opcode Jump; 0; 0]).
  rewrite patch_pst by (unfold len; cbn [length app]; lia).
  eexists _, []. split; [done|]. split; [|by rewrite app_nil_r].
  replace (len ([opcode Pop] ++ ce')) with (len ce' + 1) by (unfold len; cbn [length app]; lia).
  rewrite app_nil_r, <- !app_assoc. cbn [app]. rewrite <- ?app_assoc. done.
Qed.

Lemma parse_while c b : parses_block b -> parses_stmt (SWhile c b).
Proof.
  intros Hb rest l C K d ls fs cd k nms dirty r Hl Hels Hck Hc Hlen Hd. cbn [stoks check_stmt cstmt app] in *.
  rewrite <- app_assoc in Hl. cbn [app] in Hl. rewrite <- app_assoc in Hl. cbn [app] in Hl.
  destruct (ok_expr (names ls) c) eqn:Hok; [|done].
  destruct (check_stmts true (names ls) dirty b) as [[n1 d1]|] eqn:Eck; [|done].
  destruct (cexpr (names ls) (length K) c) as [cc kc] eqn:Ecc.
  destruct (cstmts true (names ls) (length K + length kc) b) as [[cb kb] nb] eqn:Ecb. simplify_eq.
  set (cb' := cb ++ pops (length nb - length (names ls))) in *.
  unfold len in Hlen. rewrite !length_app in Hlen. rewrite ?length_jump_code in Hlen.
  cbn [length] in Hlen. rewrite !length_app in Hlen. cbn [length] in Hlen.
  rewrite ?length_jump_code in Hlen.
  rewrite statement_eq. do 3 not_this Hl. this Hl. rewrite M_bind_eq. cbn [get].
  change (current_offset _) with (length C).
  destruct (parse_expression c _ _ C K d ls fs cc kc Hl) as (l1 & Hl1 & E1); [done|done|done|unfold len; lia|].
  rewrite (M_bind_Ok _ _ _ _ _ E1), M_bind_eq, emit_jump_pst, M_bind_eq, emit_pst. consumed Hl1.
  destruct (parse_scope b rest _ (((C ++ cc) ++ [opcode JumpIfFalse; 0; 0]) ++ [opcode Pop]) (K ++ kc) d ls fs cb kb nb
    dirty _ Hb Hl1 Eck) as (l2 & Hl2 & E2);
    [by rewrite length_app|unfold len; fold cb'; rewrite !length_app; simpl; lia|done|].
  fold cb' in E2. rewrite (scope_then _ _ _ E2), M_bind_eq.
  set (X := (((C ++ cc) ++ [opcode JumpIfFalse; 0; 0]) ++ [opcode Pop]) ++ cb').
  assert (Z.of_nat (length C) - (len X + 3) = - (len cc + len cb' + 7)) as Eback.
  { unfold X, len. rewrite !length_app. cbn [length]. lia. }
  rewrite emit_jump_to_pst by (rewrite Eback; unfold len; lia). rewrite Eback. unfold X.
  replace (((((C ++ cc) ++ [opcode JumpIfFalse; 0; 0]) ++ [opcode Pop]) ++ cb') ++
           jump_code Jump (- (len cc + len cb' + 7)))
    with ((C ++ cc) ++ [opcode JumpIfFalse; 0; 0] ++
          (opcode Pop :: cb' ++ jump_code Jump (- (len cc + len cb' + 7))))
    by (rewrite <- !app_assoc; done).
  rewrite patch_pst by (unfold len; cbn [length]; rewrite length_app; simpl; lia).
  replace (len (opcode Pop :: cb' ++ jump_code Jump (- (len cc + len cb' + 7)))) with (len cb' + 4)
    by (unfold len; cbn [length]; rewrite length_app; simpl; lia).
  eexists _, []. split; [done|]. split; [|by rewrite app_nil_r].
  rewrite app_nil_r, <- !app_assoc. done.
Qed.

Lemma parse_params ps : ps <> [] -> forall n rest l C K d ls fs,
  holds l (params_toks ps ++ fixed RightParen :: rest) -> 0 <= n -> n + Z.of_nat (length ps) < 2 ^ 64 ->
  exists l', holds l' (fixed RightParen :: rest) /\
    params_from n (pst l C K d ls fs) =
      Val (Ok (n + Z.of_nat (length ps)), pst l' C K d (ls ++ ((fun x => mkLocal x d) <$> ps)) fs).
Proof.
  induction ps as [|x ps IH]; [done|]. intros _ n rest l C K d ls fs Hl Hn Hlen. cbn [length] in Hlen.
  rewrite params_from_eq.
  assert (uadd n 1 = Val (n + 1)) as Eadd by (apply wadd_in; unfold is_unsigned; lia).
  destruct ps as [|y ps].
  - destruct (identifier_pst l x _ C K d ls fs Hl) as (l1 & E1 & Hl1).
    rewrite (M_bind_Ok _ _ _ _ _ E1), M_bind_eq, Eadd. cbn [lift]. rewrite M_bind_eq, push_local_pst.
    cbn [app] in Hl1. not_this Hl1. eexists. done.
  - cbn [params_toks app] in Hl. destruct (identifier_pst l x _ C K d ls fs Hl) as (l1 & E1 & Hl1).
    rewrite (M_bind_Ok _ _ _ _ _ E1), M_bind_eq, Eadd. cbn [lift]. rewrite M_bind_eq, push_local_pst.
    this Hl1. destruct (IH ltac:(done) (n + 1) rest lx C K d (ls ++ [mkLocal x d]) fs) as (l2 & Hl2 & ->);
      [done|lia|cbn [length] in *; lia|].
    exists l2. split; [done|]. rewrite fmap_cons, <- app_assoc. cbn [length app].
    by replace (n + 1 + Z.of_nat (S (length ps))) with (n + Z.of_nat (S (S (length ps)))) by lia.
Qed.

(** The parameter list of a function, empty or not. *)
Lemma parse_param_list ps rest l C K d ls fs :
  holds l (params_toks ps ++ fixed RightParen :: rest) -> (length ps <= 255)%nat ->
  exists l', holds l' rest /\ forall (A : Type) (m : Z -> P A),
    (no_params ← matches RightParen;
     arity ← (if no_params : bool then mret 0 else arity ← params; _ ← consume RightParen; mret arity);
     m arity) (pst l C K d ls fs) =
    m (Z.of_nat (length ps)) (pst l' C K d (ls ++ ((fun x => mkLocal x d) <$> ps)) fs).
Proof.
  intros Hl Hps. destruct ps as [|x ps].
  - cbn [params_toks app] in Hl. destruct (matches_this l RightParen _ _ C K d ls fs Hl) as (l' & E & Hl').
    exists l'. split; [done|]. intros A m. rewrite (M_bind_Ok _ _ _ _ _ E), M_bind_eq, app_nil_r. done.
  - destruct (matches_other l _ RightParen C K d ls fs Hl) as (l1 & E & Hl1); [by destruct ps|].
    destruct (parse_params (x :: ps) ltac:(done) 0 rest l1 C K d ls fs Hl1) as (l2 & Hl2 & E2); [lia|lia|].
    destruct (consume_pst l2 RightParen _ _ C K d (ls ++ ((fun x => mkLocal x d) <$> x :: ps)) fs Hl2)
      as (t & l3 & E3 & Hl3).
    exists l3. split; [done|]. intros A m. rewrite (M_bind_Ok _ _ _ _ _ E), M_bind_eq.
    change (params ≫= ?f) with (params_from 0 ≫= f).
    rewrite (M_bind_Ok _ _ _ _ _ E2), (M_bind_Ok _ _ _ _ _ E3), Z.add_0_l. done.
Qed.

Lemma leave_function_pst l C K d ls fs F :
  leave_function (pst l C K d ls (fs ++ [F])) = Val (Ok (mkFunction (mkChunk C K) d ls), mkParser l F fs).
Proof.
  unfold leave_function. rewrite M_bind_eq. cbn [get].
  change (func_stack (pst l C K d ls (fs ++ [F]))) with (fs ++ [F]).
  by rewrite vec_pop_snoc, M_bind_eq.
Qed.

Lemma parse_fn f ps b : parses_block b -> parses_stmt (SFn f ps b).
Proof.
  intros Hb rest l C K d ls fs c k nms dirty r Hl Hels Hck Hc Hlen Hd. cbn [stoks check_stmt cstmt app] in *.
  rewrite <- app_assoc in Hl. cbn [app] in Hl. rewrite <- app_assoc in Hl. cbn [app] in Hl.
  destruct (scoped d) eqn:Hsc; [done|]. unfold scoped in Hsc. apply bool_decide_eq_false in Hsc.
  assert (d = 0%nat) as -> by lia. cbn [negb andb] in Hck.
  destruct (_ && _) eqn:Ehyp in Hck; [|done]. apply andb_true_iff in Ehyp as [Hps%Nat.leb_le Hfits].
  destruct (check_stmts true (f :: ps) false b) as [rb|] eqn:Eck; [|done].
  unfold fits, compile_fn in Hfits.
  destruct (cstmts true (f :: ps) 0 b) as [[cb kb] nb] eqn:Ecb. simplify_eq. cbn [code constants] in Hfits.
  apply andb_true_iff in Hfits as [Hcode%Z.ltb_lt _]. unfold len in Hcode. rewrite length_app in Hcode.
  rewrite statement_eq. do 4 not_this Hl. this Hl. rewrite function_eq.
  destruct (identifier_pst _ f _ C K 0 ls fs Hl) as (l1 & E1 & Hl1). rewrite (M_bind_Ok _ _ _ _ _ E1).
  rewrite M_bind_eq. unfold enter_function, modify. cbn [lexer func_stack current_function pst].
  set (F := mkFunction (mkChunk C K) 0 ls).
  change (mkParser l1 Function_new (fs ++ [F])) with (pst l1 [] [] 0 [] (fs ++ [F])).
  rewrite M_bind_eq, begin_scope_pst, M_bind_eq, push_local_pst. consumed Hl1.
  destruct (parse_param_list ps _ _ [] [] 1 ([] ++ [mkLocal f 1]) (fs ++ [F]) Hl1 Hps) as (l2 & Hl2 & E2).
  rewrite E2. consumed Hl2.
  set (lsb := ([] ++ [mkLocal f 1]) ++ ((fun x => mkLocal x 1) <$> ps)).
  assert (names lsb = f :: ps) as Enames.
  { unfold names, lsb. cbn [app fmap list_fmap local_name]. f_equal.
    rewrite <- list_fmap_compose. apply list_fmap_id. }
  assert (Forall (fun y => local_depth y = 1%nat) lsb) as Hlsb.
  { unfold lsb. repeat constructor. apply Forall_fmap. by apply Forall_true. }
  destruct (Hb rest _ [] [] 1%nat lsb (fs ++ [F]) cb kb nb false rb Hl2) as (l3 & inner & Hl3 & E3 & Hn & Hin).
  { by rewrite Enames. }
  { by rewrite Enames. }
  { unfold len. cbn [length]. lia. }
  { eapply Forall_impl; [|exact Hlsb]. simpl. lia. }
  rewrite (M_bind_Ok _ _ _ _ _ E3), M_bind_eq.
  pose proof (end_scope_pst l3 cb kb 0 [] (lsb ++ inner) (fs ++ [F])) as E4. cbn [app] in E4 |- *.
  rewrite E4; [|done|by apply Forall_app].
  rewrite M_bind_eq, leave_function_pst. cbn [chunk].
  change (mkParser l3 F fs) with (pst l3 C K 0 ls fs).
  rewrite M_bind_eq, constant_pst, M_bind_eq, emit2_pst, M_bind_eq. cbn [get]. unfold pst at 1.
  cbn [current_function scope_depth]. rewrite decide_True by done. unfold define_global_code.
  rewrite M_bind_eq, constant_pst, M_bind_eq, emit2_pst, emit_pst.
  eexists _, []. split; [done|]. split; [|by rewrite app_nil_r].
  assert (length nb = length (lsb ++ inner)) as Enb by (rewrite <- Hn; unfold names; by rewrite length_fmap).
  rewrite app_nil_r, length_app, <- !app_assoc, Enb. cbn [length app].
  by rewrite Nat.add_1_r.
Qed.

Lemma stoks_head s ts :
  exists ty text ts', stoks s ++ ts = (ty, text) :: ts' /\ ty <> TElse /\ ty <> RightBrace.
Proof.
  destruct s as [| e | | | | | |[e|]]; cbn [stoks app]; try (by eexists _, _, _).
  rewrite <- app_assoc. destruct (toks_head 0 e) as (ty & text & ts' & -> & [pf Hp]).
  eexists _, _, _. split; [done|]. split; by intros ->.
Qed.

Lemma sstoks_not_else ss ts :
  fst <$> head ts <> Some TElse -> fst <$> head (sstoks ss ++ ts) <> Some TElse.
Proof.
  intros Hts. destruct ss as [|s ss]; [done|]. cbn [sstoks]. rewrite <- app_assoc.
  destruct (stoks_head s (sstoks ss ++ ts)) as (ty & text & ts' & -> & Hne & _). simpl. congruence.
Qed.

Lemma statements_parse : (forall s, parses_stmt s) /\ (forall ss, parses_block ss).
Proof.
  apply stmt_stmts_ind.
  - apply parse_let.
  - apply parse_expr_stmt.
  - apply parse_block_stmt.
  - intros c t Ht. by apply parse_if.
  - intros c t Ht e He. by apply parse_if_else.
  - intros c b Hb. by apply parse_while.
  - intros f ps b Hb. by apply parse_fn.
  - apply parse_return.
  - intros rest l C K d ls fs c k nms dirty r Hl Hck Hc Hlen Hd. cbn [sstoks app cstmts] in *. simplify_eq.
    rewrite block_eq. this Hl. eexists _, []. rewrite !app_nil_r. done.
  - intros s Hs ss Hss rest l C K d ls fs c k nms dirty r Hl Hck Hc Hlen Hd.
    cbn [sstoks check_stmts cstmts] in *. rewrite <- app_assoc in Hl.
    destruct (check_stmt (scoped d) (names ls) dirty s) as [[n1 d1]|] eqn:Eck1; [|done].
    destruct (cstmt (scoped d) (names ls) (length K) s) as [[c1 k1] nm1] eqn:Ec1.
    destruct (cstmts (scoped d) nm1 (length K + length k1) ss) as [[c2 k2] nm2] eqn:Ec2. simplify_eq.
    unfold len in Hlen. rewrite length_app in Hlen. rewrite block_eq.
    destruct (matches_other l _ RightBrace C K d ls fs Hl) as (l1 & E1 & Hl1).
    { destruct (stoks_head s (sstoks ss ++ fixed RightBrace :: rest)) as (ty & text & ts' & -> & _ & Hne).
      simpl. congruence. }
    rewrite (M_bind_Ok _ _ _ _ _ E1).
    destruct (Hs _ l1 C K d ls fs c1 k1 nm1 dirty (n1, d1) Hl1) as (l2 & in1 & Hl2 & E2 & Hn1 & Hin1);
      [by apply sstoks_not_else|done|done|unfold len; lia|done|].
    rewrite (M_bind_Ok _ _ _ _ _ E2).
    assert (n1 = names (ls ++ in1)) as -> by (rewrite Hn1; by eapply check_names).
    destruct (Hss rest l2 (C ++ c1) (K ++ k1) d (ls ++ in1) fs c2 k2 nms d1 r Hl2) as (l3 & in2 & Hl3 & E3 & Hn2 & Hin2);
      [done|rewrite length_app, Hn1; done|unfold len; rewrite length_app; lia| |].
    { apply Forall_app. split; [done|]. eapply Forall_impl; [|exact Hin1]. simpl. lia. }
    exists l3, (in1 ++ in2). rewrite !app_assoc. split; [done|]. split; [done|]. split; [done|].
    by apply Forall_app.
Qed.

(** ** Scripts *)

Lemma parse_top ss : forall l C K ls fs c k nms dirty r,
  holds l (sstoks ss) -> check_stmts false (names ls) dirty ss = Some r ->
  cstmts false (names ls) (length K) ss = (c, k, nms) -> len C + len c < 2 ^ 15 ->
  Forall (fun y => local_depth y <= 0)%nat ls ->
  exists l' inner, parse_statements (pst l C K 0 ls fs) =
    Val (Ok tt, pst l' (C ++ c) (K ++ k) 0 (ls ++ inner) fs).
Proof.
  induction ss as [|s ss IH].
  - intros l C K ls fs c k nms dirty r Hl Hck Hc Hlen Hd. cbn [sstoks cstmts] in *. simplify_eq.
    rewrite parse_statements_eq. destruct (peek_pst_nil l C K 0 ls fs Hl) as (l' & E & _).
    rewrite (M_bind_Ok _ _ _ _ _ E). exists l', []. by rewrite !app_nil_r.
  - intros l C K ls fs c k nms dirty r Hl Hck Hc Hlen Hd. cbn [sstoks check_stmts cstmts] in *.
    destruct (check_stmt false (names ls) dirty s) as [[n1 d1]|] eqn:Eck1; [|done].
    destruct (cstmt false (names ls) (length K) s) as [[c1 k1] nm1] eqn:Ec1.
    destruct (cstmts false nm1 (length K + length k1) ss) as [[c2 k2] nm2] eqn:Ec2. simplify_eq.
    unfold len in Hlen. rewrite length_app in Hlen. rewrite parse_statements_eq.
    destruct (stoks_head s (sstoks ss)) as (ty & text & ts' & Ets & _ & _). rewrite Ets in Hl.
    destruct (peek_pst l ty text ts' C K 0 ls fs Hl) as (t & l1 & E1 & _ & Hl1). rewrite <- Ets in Hl1.
    rewrite (M_bind_Ok _ _ _ _ _ E1).
    destruct (proj1 statements_parse s (sstoks ss) l1 C K 0%nat ls fs c1 k1 nm1 dirty (n1, d1) Hl1)
      as (l2 & in1 & Hl2 & E2 & Hn1 & Hin1); [|done|done|unfold len; lia|done|].
    { rewrite <- (app_nil_r (sstoks ss)). by apply sstoks_not_else. }
    rewrite (M_bind_Ok _ _ _ _ _ E2).
    assert (n1 = names (ls ++ in1)) as -> by (rewrite Hn1; by eapply check_names).
    destruct (IH l2 (C ++ c1) (K ++ k1) (ls ++ in1) fs c2 k2 nms d1 r Hl2) as (l3 & in2 & E3);
      [done|rewrite length_app, Hn1; done|unfold len; rewrite length_app; lia| |].
    { apply Forall_app. split; [done|]. eapply Forall_impl; [|exact Hin1]. simpl. lia. }
    exists l3, (in1 ++ in2). rewrite !app_assoc. done.
Qed.

Lemma parse_compiles ss :
  lexes (Lex_new src) (sstoks ss) -> supported ss = true ->
  exists p, parse (Parser_new src) = Val (Ok (compile ss), p).
Proof.
  intros Hl. unfold supported, fits, compile. rewrite !andb_true_iff. intros [[r Hck]%bool_decide_eq_true [Hcode _]].
  destruct (cstmts false [] 0 ss) as [[c k] nms] eqn:Ec. cbn [code] in Hcode.
  apply Z.ltb_lt in Hcode. unfold len in Hcode. rewrite length_app in Hcode.
  destruct (parse_top ss (Lex_new src) [] [] [] [] c k nms false r) as (l' & inner & E);
    [by split|done|done|unfold len; cbn [length]; lia|done|].
  unfold parse. change (parse_loop _) with (fun p => parse_loop (S (tokens_left (Parser_new src))) p).
  rewrite M_bind_eq.
  change (parse_loop (S (tokens_left (Parser_new src))) (Parser_new src)) with (parse_statements (Parser_new src)).
  change (Parser_new src) with (pst (Lex_new src) [] [] 0 [] []) at 1. rewrite E.
  rewrite M_bind_eq, emit_pst, M_bind_eq. cbn [get]. eexists. done.
Qed.

End parsing.
