(* ===== verification/GinkgoVmCorrect.v ===== *)
(** * The Ginkgo virtual machine runs compiled code as it is meant

    The code [cexpr] and [cstmt] give a program drives the virtual machine through
    the program's reference semantics ([eval], [exec]): the same values, the same
    globals, the same calls of native functions in the same order, and the same
    errors. *)

From stdpp Require Import base tactics option list numbers gmap relations.
From S2P Require Import Prelude Bytes Effects GinkgoLex GinkgoVm GinkgoParse GinkgoSpec.

(** ** Code and constants in place *)

Definition code_at (C : Chunk) (pc : nat) (c : list Z) : Prop :=
  forall i b, c !! i = Some b -> code C !! (pc + i)%nat = Some b.
Definition consts_at (C : Chunk) (nc : nat) (k : list Value) : Prop :=
  forall i v, k !! i = Some v -> constants C !! (nc + i)%nat = Some v.

Lemma code_at_app C pc c1 c2 :
  code_at C pc (c1 ++ c2) <-> code_at C pc c1 /\ code_at C (pc + length c1) c2.
Proof.
  split.
  - intros Hc. split; intros i b Hi.
    + apply Hc. by apply lookup_app_l_Some.
    + rewrite <- Nat.add_assoc. apply Hc. by rewrite lookup_app_r, Nat.add_comm, Nat.add_sub by lia.
  - intros [H1 H2] i b Hi. apply lookup_app_Some in Hi as [Hi|[Hle Hi]]; [by apply H1|].
    replace (pc + i)%nat with (pc + length c1 + (i - length c1))%nat by lia. by apply H2.
Qed.
Lemma code_at_cons C pc b c :
  code_at C pc (b :: c) <-> code C !! pc = Some b /\ code_at C (S pc) c.
Proof.
  rewrite (code_at_app C pc [b] c). rewrite Nat.add_1_r. split; intros [H1 H2]; (split; [|done]).
  - specialize (H1 0%nat b eq_refl). by rewrite Nat.add_0_r in H1.
  - intros [|i] b' Hi; simplify_eq/=. by rewrite Nat.add_0_r.
Qed.
Lemma consts_at_app C nc k1 k2 :
  consts_at C nc (k1 ++ k2) <-> consts_at C nc k1 /\ consts_at C (nc + length k1) k2.
Proof.
  split.
  - intros Hc. split; intros i b Hi.
    + apply Hc. by apply lookup_app_l_Some.
    + rewrite <- Nat.add_assoc. apply Hc. by rewrite lookup_app_r, Nat.add_comm, Nat.add_sub by lia.
  - intros [H1 H2] i b Hi. apply lookup_app_Some in Hi as [Hi|[Hle Hi]]; [by apply H1|].
    replace (nc + i)%nat with (nc + length k1 + (i - length k1))%nat by lia. by apply H2.
Qed.
Lemma consts_at_cons C nc v k :
  consts_at C nc (v :: k) <-> constants C !! nc = Some v /\ consts_at C (S nc) k.
Proof.
  rewrite (consts_at_app C nc [v] k). rewrite Nat.add_1_r. split; intros [H1 H2]; (split; [|done]).
  - specialize (H1 0%nat v eq_refl). by rewrite Nat.add_0_r in H1.
  - intros [|i] b' Hi; simplify_eq/=. by rewrite Nat.add_0_r.
Qed.

(** What fits: positions and jumps, and constants. *)
Lemma code_at_bound C pc c : fits C = true -> code_at C pc c -> c <> [] -> Z.of_nat pc + len c < 2 ^ 15.
Proof.
  unfold fits, len. rewrite andb_true_iff, Z.ltb_lt. intros [Hf _] Hc Hne.
  destruct c as [|b c] using rev_ind; [done|]. specialize (Hc (length c) b).
  rewrite lookup_app_r, Nat.sub_diag in Hc by lia. specialize (Hc eq_refl). apply lookup_lt_Some in Hc.
  rewrite length_app. simpl. lia.
Qed.
Lemma constant_bound C nc v : fits C = true -> constants C !! nc = Some v -> (nc < 256)%nat.
Proof.
  unfold fits. rewrite andb_true_iff, Nat.leb_le. intros [_ Hf] Hv%lookup_lt_Some. lia.
Qed.

Lemma byte_small k : (k < 256)%nat -> byte k = Z.of_nat k.
Proof. intros. unfold byte. apply Z.mod_small. lia. Qed.

Lemma opcode_try_from_opcode op : opcode_try_from (opcode op) = Some op.
Proof. by destruct op. Qed.

(** ** Operators *)

Lemma conv_typ v : value_typ (conv v) = rtyp v.
Proof. by destruct v. Qed.

Lemma unconv_conv v r : unconv v = Some r -> conv r = v.
Proof. destruct v as [| | |[]]; simpl; intros; by simplify_eq. Qed.

Lemma rcompare_ok a b r : rcompare a b = Val r -> partial_cmp (conv a) (conv b) = Val r.
Proof. destruct a, b; simpl; try done. Qed.

Lemma compare_ok (l : list comparison) (p : comparison -> bool) a b r :
  (forall c, p c = bool_decide (c ∈ l)) ->
  (c ← rcompare a b; Val (RBool (match c with Some c => bool_decide (c ∈ l) | None => false end))) = Val r ->
  (b ← compare_with p (conv a) (conv b); Val (VBool b)) = Val (conv r).
Proof.
  intros Hp. rewrite bind_Val. intros (c & Hc%rcompare_ok & [= <-]). unfold compare_with. rewrite Hc.
  simpl. destruct c; simpl; by rewrite ?Hp.
Qed.

Lemma eval_bin_ok o a b v :
  eval_bin o a b = Val v -> binary_op (binop_opcode o) (conv a) (conv b) = Val (conv v).
Proof.
  destruct o; cbn [eval_bin binop_opcode binary_op];
    try (by destruct a, b; cbn; try done; unfold checked_i64; repeat case_match; intros; simplify_eq/=);
    try (by apply compare_ok; intros []).
  destruct a as [|x| | | |], b as [|y| | | |]; try done. cbn. unfold checked_i64.
  destruct (y =? 0); [done|]. destruct (i64_fits _); [|done]. by intros [= <-].
Qed.

Section vm.
Context `{Natives}.

(** ** States and steps *)

(** The machine running [C] at [pc] with the stack [σ], its frame based at [so],
    where the globals and the world are those of [s]. *)
Definition vmst (C : Chunk) (so : nat) (cs : list CallFrame) (pc : nat) (σ : list Value) (s : genv) : Vm :=
  mkVm σ (Some C) pc so cs (conv <$> g_globals s) (g_world s).

Definition vm_step (vm vm' : Vm) : Prop := step vm = Val (Ok true, vm').

Section steps.
Context (C : Chunk) (so : nat) (cs : list CallFrame).
Abbreviation st := (vmst C so cs).
Implicit Types (pc : nat) (σ : list Value) (s : genv).

Lemma next_st pc σ s b : code C !! pc = Some b -> next (st pc σ s) = Val (Ok b, st (S pc) σ s).
Proof.
  intros Hb. unfold next. rewrite M_bind_eq. cbn [get]. rewrite M_bind_eq. cbn [vm_chunk vmst unwrap lift].
  rewrite M_bind_eq. cbn [ip vmst]. by rewrite Hb.
Qed.
Lemma push_st pc σ s v : push v (st pc σ s) = Val (Ok tt, st pc (σ ++ [v]) s).
Proof. done. Qed.
Lemma pop_st pc σ s v : pop (st pc (σ ++ [v]) s) = Val (Ok v, st pc σ s).
Proof.
  unfold pop. rewrite M_bind_eq. cbn [get]. rewrite M_bind_eq. cbn [stack vmst].
  by rewrite vec_pop_snoc.
Qed.
Lemma last_value_st pc σ s v : last_value (st pc (σ ++ [v]) s) = Val (Ok v, st pc (σ ++ [v]) s).
Proof. unfold last_value. rewrite M_bind_eq. cbn [get stack vmst]. by rewrite last_snoc. Qed.

(** Fetching the opcode. *)
Lemma step_st pc σ s op :
  code C !! pc = Some (opcode op) ->
  step (st pc σ s) =
    match op with
    | Return => op_return
    | Constant => index ← next; v ← get_constant index; _ ← push v; mret true
    | OTrue => _ ← push (VBool true); mret true
    | OFalse => _ ← push (VBool false); mret true
    | Negate =>
        v ← pop;
        match v with
        | VInteger n => m ← lift (checked_i64 (- n)); _ ← push (VInteger m); mret true
        | _ => fail (CannotNegateValue (value_typ v))
        end
    | Add | Subtract | Multiply | Divide | BitwiseAnd | BitwiseOr | BitwiseXor | Equal | NotEqual
    | OLessThan | OLessEqual | OGreaterThan | OGreaterEqual => _ ← do_binary_op op; mret true
    | Pop => _ ← pop; mret true
    | DefineGlobal =>
        v ← pop; name ← lift (unwrap (as_string v)); v ← pop; _ ← modify (define_global name v); mret true
    | GetGlobal =>
        index ← next; name ← constant_name index; vm ← get;
        match globals vm !! name with
        | Some v => _ ← push v; mret true
        | None => fail (NoSuchGlobal name)
        end
    | SetGlobal => _ ← op_set_global; mret true
    | GetLocal =>
        slot ← next; vm ← get;
        v ← lift (unwrap (stack vm !! (slot_offset vm + Z.to_nat slot)%nat)); _ ← push v; mret true
    | SetLocal =>
        slot ← next; v ← last_value; vm ← get;
        st ← lift (vec_insert (Z.to_nat slot) v (stack vm)); _ ← put (set_stack st vm); mret true
    | Jump => d ← next_i16; _ ← jump_by d; mret true
    | JumpIfTrue => _ ← jump_if true; mret true
    | JumpIfFalse => _ ← jump_if false; mret true
    | Call => _ ← op_call; mret true
    | OUnit => _ ← push VUnit; mret true
    end (st (S pc) σ s).
Proof.
  intros Hb. unfold step. rewrite (M_bind_Ok _ _ _ _ _ (next_st pc σ s _ Hb)), opcode_try_from_opcode.
  by destruct op.
Qed.

Lemma get_constant_st pc σ s k v :
  fits C = true -> constants C !! k = Some v -> get_constant (byte k) (st pc σ s) = Val (Ok v, st pc σ s).
Proof.
  intros Hf Hv. unfold get_constant. rewrite M_bind_eq. cbn [get]. rewrite M_bind_eq.
  cbn [vm_chunk vmst unwrap lift]. rewrite byte_small by (by eapply constant_bound).
  by rewrite Nat2Z.id, Hv.
Qed.

Lemma step_constant pc σ s k v :
  fits C = true -> code_at C pc [opcode Constant; byte k] -> constants C !! k = Some v ->
  vm_step (st pc σ s) (st (pc + 2) (σ ++ [v]) s).
Proof.
  intros Hf Hc Hv. apply code_at_cons in Hc as [H0 [H1 _]%code_at_cons]. unfold vm_step.
  rewrite (step_st pc σ s Constant) by done. rewrite (M_bind_Ok _ _ _ _ _ (next_st _ _ _ _ H1)).
  rewrite (M_bind_Ok _ _ _ _ _ (get_constant_st _ _ _ _ _ Hf Hv)), M_bind_eq, push_st.
  by replace (pc + 2)%nat with (S (S pc)) by lia.
Qed.

Lemma step_bool pc σ s b :
  code_at C pc [opcode (if b : bool then OTrue else OFalse)] ->
  vm_step (st pc σ s) (st (pc + 1) (σ ++ [VBool b]) s).
Proof.
  intros [H0 _]%code_at_cons. unfold vm_step. rewrite (step_st _ _ _ _ H0), Nat.add_1_r. by destruct b.
Qed.

Lemma step_unit pc σ s : code_at C pc [opcode OUnit] -> vm_step (st pc σ s) (st (pc + 1) (σ ++ [VUnit]) s).
Proof. intros [H0 _]%code_at_cons. unfold vm_step. by rewrite (step_st _ _ _ _ H0), Nat.add_1_r. Qed.

Lemma step_pop pc σ s v : code_at C pc [opcode Pop] -> vm_step (st pc (σ ++ [v]) s) (st (pc + 1) σ s).
Proof.
  intros [H0 _]%code_at_cons. unfold vm_step. rewrite (step_st _ _ _ _ H0), Nat.add_1_r.
  by rewrite M_bind_eq, pop_st.
Qed.

Lemma step_get_local pc σ s i v :
  (i < 256)%nat -> code_at C pc [opcode GetLocal; byte i] -> σ !! (so + i)%nat = Some v ->
  vm_step (st pc σ s) (st (pc + 2) (σ ++ [v]) s).
Proof.
  intros Hi Hc Hv. apply code_at_cons in Hc as [H0 [H1 _]%code_at_cons]. unfold vm_step.
  rewrite (step_st _ _ _ _ H0), (M_bind_Ok _ _ _ _ _ (next_st _ _ _ _ H1)), M_bind_eq. cbn [get].
  rewrite byte_small, Nat2Z.id by done. cbn [stack slot_offset vmst]. rewrite Hv.
  rewrite M_bind_eq. cbn [unwrap lift]. rewrite M_bind_eq, push_st.
  by replace (pc + 2)%nat with (S (S pc)) by lia.
Qed.

Lemma constant_name_st pc σ s k x :
  fits C = true -> constants C !! k = Some (string_value x) ->
  constant_name (byte k) (st pc σ s) = Val (Ok x, st pc σ s).
Proof.
  intros Hf Hk. unfold constant_name. by rewrite (M_bind_Ok _ _ _ _ _ (get_constant_st _ _ _ _ _ Hf Hk)).
Qed.

Lemma step_get_global pc σ s k x :
  fits C = true -> code_at C pc [opcode GetGlobal; byte k] -> constants C !! k = Some (string_value x) ->
  match g_globals s !! x with
  | Some v => vm_step (st pc σ s) (st (pc + 2) (σ ++ [conv v]) s)
  | None => step (st pc σ s) = Val (Err (NoSuchGlobal x), st (pc + 2) σ s)
  end.
Proof.
  intros Hf Hc Hk. apply code_at_cons in Hc as [H0 [H1 _]%code_at_cons]. unfold vm_step.
  replace (pc + 2)%nat with (S (S pc)) by lia.
  rewrite (step_st _ _ _ _ H0), (M_bind_Ok _ _ _ _ _ (next_st _ _ _ _ H1)).
  rewrite (M_bind_Ok _ _ _ _ _ (constant_name_st _ _ _ _ _ Hf Hk)), M_bind_eq. cbn [get globals vmst].
  rewrite lookup_fmap. destruct (g_globals s !! x); simpl; done.
Qed.

Lemma step_set_global pc σ s k x v :
  fits C = true -> code_at C pc [opcode SetGlobal; byte k] -> constants C !! k = Some (string_value x) ->
  match g_globals s !! x with
  | Some _ => vm_step (st pc (σ ++ [conv v]) s)
                (st (pc + 2) (σ ++ [conv v]) (mkGenv (<[x := v]> (g_globals s)) (g_world s)))
  | None => step (st pc (σ ++ [conv v]) s) = Val (Err (AssignToUndefined x), st (pc + 2) (σ ++ [conv v]) s)
  end.
Proof.
  intros Hf Hc Hk. apply code_at_cons in Hc as [H0 [H1 _]%code_at_cons]. unfold vm_step.
  replace (pc + 2)%nat with (S (S pc)) by lia.
  rewrite (step_st _ _ _ _ H0). unfold op_set_global. rewrite M_bind_eq.
  rewrite (M_bind_Ok _ _ _ _ _ (next_st _ _ _ _ H1)), (M_bind_Ok _ _ _ _ _ (pop_st _ _ _ _)).
  rewrite (M_bind_Ok _ _ _ _ _ (constant_name_st _ _ _ _ _ Hf Hk)), (M_bind_Ok _ _ _ _ _ (push_st _ _ _ _)).
  rewrite M_bind_eq. cbn [get]. rewrite M_bind_eq. unfold put. cbn [globals vmst]. rewrite lookup_fmap.
  destruct (g_globals s !! x) as [w|] eqn:Ex; simpl.
  - unfold vmst, set_globals. simpl. by rewrite fmap_insert.
  - unfold vmst, set_globals. simpl.
    rewrite delete_insert_id by (by rewrite lookup_fmap, Ex). done.
Qed.

Lemma step_define_global pc σ s x v :
  code_at C pc [opcode DefineGlobal] ->
  vm_step (st pc (σ ++ [conv v] ++ [string_value x]) s)
    (st (pc + 1) σ (mkGenv (<[x := v]> (g_globals s)) (g_world s))).
Proof.
  intros [H0 _]%code_at_cons. unfold vm_step. rewrite (step_st _ _ _ _ H0), Nat.add_1_r, app_assoc.
  rewrite (M_bind_Ok _ _ _ _ _ (pop_st _ _ _ _)), M_bind_eq. cbn [as_string string_value unwrap lift].
  rewrite (M_bind_Ok _ _ _ _ _ (pop_st _ _ _ _)), M_bind_eq. unfold modify, define_global, vmst, set_globals.
  simpl. by rewrite fmap_insert.
Qed.

Lemma step_negate pc σ s v :
  code_at C pc [opcode Negate] ->
  match v with
  | RInt x => i64_fits (- x) = true -> vm_step (st pc (σ ++ [conv v]) s) (st (pc + 1) (σ ++ [VInteger (- x)]) s)
  | _ => step (st pc (σ ++ [conv v]) s) = Val (Err (CannotNegateValue (rtyp v)), st (pc + 1) σ s)
  end.
Proof.
  intros [H0 _]%code_at_cons. unfold vm_step. rewrite (step_st _ _ _ _ H0), Nat.add_1_r.
  rewrite (M_bind_Ok _ _ _ _ _ (pop_st _ _ _ _)).
  destruct v; try done. cbn [conv]. unfold checked_i64. intros ->. done.
Qed.

Lemma step_binop pc σ s o a b v :
  code_at C pc [opcode (binop_opcode o)] -> eval_bin o a b = Val v ->
  vm_step (st pc (σ ++ [conv a] ++ [conv b]) s) (st (pc + 1) (σ ++ [conv v]) s).
Proof.
  intros [H0 _]%code_at_cons Hv%eval_bin_ok. unfold vm_step. rewrite (step_st _ _ _ _ H0), Nat.add_1_r.
  cut ((_ ← do_binary_op (binop_opcode o); mret true) (st (S pc) (σ ++ [conv a] ++ [conv b]) s) =
    Val (Ok true, st (S pc) (σ ++ [conv v]) s)); [by destruct o|].
  unfold do_binary_op. rewrite app_assoc, M_bind_eq, (M_bind_Ok _ _ _ _ _ (pop_st _ _ _ _)).
  rewrite (M_bind_Ok _ _ _ _ _ (pop_st _ _ _ _)), M_bind_eq. rewrite Hv. done.
Qed.

(** Jumps. *)
Lemma next_i16_st pc σ s op d :
  - 2 ^ 15 <= d < 2 ^ 15 -> code_at C (S pc) (to_le_bytes 2 d) ->
  next_i16 (st (S pc) σ s) = Val (Ok d, st (pc + length (jump_code op d)) σ s).
Proof.
  intros Hd Hc. unfold next_i16. cbn [to_le_bytes] in Hc.
  apply code_at_cons in Hc as [H0 [H1 _]%code_at_cons].
  rewrite (M_bind_Ok _ _ _ _ _ (next_st _ _ _ _ H0)), (M_bind_Ok _ _ _ _ _ (next_st _ _ _ _ H1)).
  change [d mod 256; (d / 256) mod 256] with (to_le_bytes 2 d).
  rewrite from_to_le_bytes, to_signed_mod by (simpl; lia). cbn [length jump_code to_le_bytes].
  by replace (pc + 3)%nat with (S (S (S pc))) by lia.
Qed.

Lemma jump_by_st pc σ s d pc' :
  Z.of_nat pc' = Z.of_nat pc + d -> Z.of_nat pc' < 2 ^ 15 ->
  jump_by d (st pc σ s) = Val (Ok tt, st pc' σ s).
Proof.
  intros Hpc Hlt. unfold jump_by. rewrite M_bind_eq. cbn [get ip vmst]. rewrite <- Hpc.
  rewrite (proj2 (unsigned_fits_spec _ _)) by (unfold is_unsigned; lia).
  rewrite M_bind_eq. cbn [rassert lift]. by rewrite Nat2Z.id.
Qed.

Lemma step_jump pc σ s d pc' :
  - 2 ^ 15 <= d < 2 ^ 15 -> code_at C pc (jump_code Jump d) ->
  Z.of_nat pc' = Z.of_nat pc + 3 + d -> Z.of_nat pc' < 2 ^ 15 ->
  vm_step (st pc σ s) (st pc' σ s).
Proof.
  intros Hd [H0 H1]%code_at_cons Hpc Hlt. unfold vm_step. rewrite (step_st _ _ _ _ H0).
  rewrite (M_bind_Ok _ _ _ _ _ (next_i16_st _ _ _ Jump d Hd H1)), M_bind_eq.
  rewrite (jump_by_st _ _ _ _ pc'); [done|cbn [length jump_code to_le_bytes]; lia|done].
Qed.

(** A conditional jump: it is taken if the value on top is [b]. *)
Lemma step_jump_if pc σ s (b : bool) d pc' v :
  let op := if b then JumpIfTrue else JumpIfFalse in
  - 2 ^ 15 <= d < 2 ^ 15 -> code_at C pc (jump_code op d) ->
  Z.of_nat pc' = Z.of_nat pc + 3 + d -> Z.of_nat pc' < 2 ^ 15 ->
  match v with
  | RBool x => vm_step (st pc (σ ++ [conv v]) s)
                 (st (if Bool.eqb x b then pc' else (pc + 3)%nat) (σ ++ [conv v]) s)
  | _ => step (st pc (σ ++ [conv v]) s) =
           Val (Err (WrongTypeForOperation VTBool (rtyp v)), st (pc + 3) (σ ++ [conv v]) s)
  end.
Proof.
  intros op Hd [H0 H1]%code_at_cons Hpc Hlt. unfold vm_step. rewrite (step_st _ _ _ _ H0).
  assert ((match op with
    | JumpIfTrue => _ ← jump_if true; mret true
    | JumpIfFalse => _ ← jump_if false; mret true
    | _ => panic end) = (_ ← jump_if b; mret true)) as Ej by (by subst op; destruct b).
  cut (match v with
  | RBool x => (_ ← jump_if b; mret true) (st (S pc) (σ ++ [conv v]) s) =
      Val (Ok true, st (if Bool.eqb x b then pc' else (pc + 3)%nat) (σ ++ [conv v]) s)
  | _ => (_ ← jump_if b; mret true) (st (S pc) (σ ++ [conv v]) s) =
           Val (Err (WrongTypeForOperation VTBool (rtyp v)), st (pc + 3) (σ ++ [conv v]) s)
  end); [by subst op; destruct b|].
  assert (jump_if b (st (S pc) (σ ++ [conv v]) s) =
    match conv v with
    | VBool result => (if Bool.eqb result b then jump_by d else mret tt) (st (pc + 3) (σ ++ [conv v]) s)
    | _ => Val (Err (WrongTypeForOperation VTBool (value_typ (conv v))), st (pc + 3) (σ ++ [conv v]) s)
    end) as Eif.
  { unfold jump_if. rewrite (M_bind_Ok _ _ _ _ _ (next_i16_st _ _ _ op d Hd H1)).
    cbn [length jump_code to_le_bytes]. rewrite (M_bind_Ok _ _ _ _ _ (last_value_st _ _ _ _)). by destruct v. }
  destruct v; try (by rewrite M_bind_eq, Eif). rewrite M_bind_eq, Eif. cbn [conv].
  destruct (Bool.eqb _ _); [|done]. by rewrite (jump_by_st _ _ _ _ pc') by lia.
Qed.

(** Calls: the function lies below its arguments. *)
Lemma op_call_st pc σ s vf vs :
  code C !! pc = Some (Z.of_nat (length vs)) ->
  op_call (st pc (σ ++ vf :: vs) s) =
    match vf with
    | VObj (GinkgoFunction _ _ chunk) =>
        Val (Ok tt, vmst chunk (so + length σ) (cs ++ [mkCallFrame C (S pc) so]) 0 (σ ++ vf :: vs) s)
    | VObj (GinkgoNativeFunction _ func) =>
        ('(v, w) ← lift (native func vs (g_world s));
         _ ← put (set_world w (st (S pc) σ s)); push v) (st (S pc) (σ ++ vf :: vs) s)
    | VObj o => Val (Err (ValueNotCallable (VTObj (obj_typ o))), st (S pc) (σ ++ vf :: vs) s)
    | _ => Val (Err (ValueNotCallable (value_typ vf)), st (S pc) (σ ++ vf :: vs) s)
    end.
Proof.
  intros H1. unfold op_call. rewrite (M_bind_Ok _ _ _ _ _ (next_st _ _ _ _ H1)), M_bind_eq. cbn [get].
  cbn [stack vmst slot_offset vm_chunk ip call_stack world]. rewrite Nat2Z.id, length_app. cbn [length].
  rewrite bool_decide_eq_true_2 by lia. rewrite M_bind_eq. cbn [rassert lift].
  replace (length σ + S (length vs) - length vs - 1)%nat with (length σ) by lia.
  replace (length σ + S (length vs) - length vs)%nat with (length (σ ++ [vf])) by (rewrite length_app; simpl; lia).
  rewrite M_bind_eq, lookup_app_r, Nat.sub_diag by lia. cbn [lookup list_lookup unwrap lift].
  destruct vf as [| | |[]]; try done.
  rewrite cons_middle, app_assoc, drop_app_length.
  replace (vec_resize (length σ) VUnit ((σ ++ [_]) ++ vs)) with σ; [done|].
  unfold vec_resize. rewrite <- app_assoc, take_app_length, length_app.
  replace (length σ - _)%nat with 0%nat by lia. by rewrite app_nil_r.
Qed.

Lemma step_call pc σ s vf vs o :
  code_at C pc [opcode Call; Z.of_nat (length vs)] ->
  op_call (st (S pc) (σ ++ vf :: vs) s) = o ->
  step (st pc (σ ++ vf :: vs) s) =
    match o with
    | Val (Ok _, vm) => Val (Ok true, vm)
    | Val (Err e, vm) => Val (Err e, vm)
    | Panic => Panic
    end.
Proof.
  intros [H0 _]%code_at_cons <-. rewrite (step_st _ _ _ _ H0), M_bind_eq. done.
Qed.

Lemma step_return pc base σ s v frame cs' :
  code C !! pc = Some (opcode Return) -> cs = cs' ++ [frame] -> so = length base ->
  vm_step (st pc (base ++ σ ++ [v]) s)
    (vmst (frame_chunk frame) (frame_slot_offset frame) cs' (frame_ip frame) (base ++ [v]) s).
Proof.
  intros H0 Hcs Hso. unfold vm_step. rewrite (step_st _ _ _ _ H0). unfold op_return. rewrite M_bind_eq.
  cbn [get call_stack vmst]. rewrite Hcs, vec_pop_snoc, <- Hcs, app_assoc.
  rewrite (M_bind_Ok _ _ _ _ _ (pop_st _ _ _ _)), M_bind_eq. unfold modify at 1.
  cbn [slot_offset stack vmst].
  replace (vec_resize so VUnit (base ++ σ)) with base; [by destruct frame|].
  rewrite Hso. unfold vec_resize. rewrite take_app_length, length_app.
  replace (length base - _)%nat with 0%nat by lia. by rewrite app_nil_r.
Qed.

Lemma step_return_top pc σ s :
  code C !! pc = Some (opcode Return) -> cs = [] -> step (st pc σ s) = Val (Ok false, st (S pc) σ s).
Proof.
  intros H0 Hcs. rewrite (step_st _ _ _ _ H0). unfold op_return. rewrite M_bind_eq. cbn [get call_stack vmst].
  by rewrite Hcs.
Qed.

(** Leaving a scope. *)
Lemma steps_pops n : forall pc σ s,
  code_at C pc (pops n) -> (n <= length σ)%nat ->
  rtc vm_step (st pc σ s) (st (pc + n) (take (length σ - n) σ) s).
Proof.
  induction n as [|n IH]; intros pc σ s Hc Hn.
  { rewrite Nat.add_0_r, Nat.sub_0_r, firstn_all. done. }
  destruct σ as [|v σ _] using rev_ind; [simpl in Hn; lia|]. rewrite length_app in *. cbn [length] in *.
  unfold pops in Hc. cbn [replicate] in Hc.
  apply (code_at_app C pc [opcode Pop]) in Hc as [H0 H1]. eapply rtc_l; [by apply step_pop|].
  replace (pc + S n)%nat with (pc + 1 + n)%nat by lia.
  replace (length σ + 1 - S n)%nat with (length σ - n)%nat by lia.
  rewrite take_app_le by lia. apply IH; [done|lia].
Qed.

End steps.
End vm.
