(* ===== verification/GinkgoRun.v ===== *)
(** * Running compiled programs

    The simulation of the reference semantics by the virtual machine, by
    induction on the fuel of the semantics: expressions, arguments, statements
    and function calls together. *)

From stdpp Require Import base tactics option list numbers gmap relations.
From S2P Require Import Prelude Bytes Effects GinkgoLex GinkgoVm GinkgoParse GinkgoSpec GinkgoVmCorrect.

Section run.
Context `{Natives}.

(** ** Simulation *)

(** The machine stops with the error [d] in the globals and the world of [s]. *)
Definition fails (vm : Vm) (d : VmError) (s : genv) : Prop :=
  exists vm1 vm2, rtc vm_step vm vm1 /\ step vm1 = Val (Err d, vm2) /\
    globals vm2 = conv <$> g_globals s /\ world vm2 = g_world s.

(** From [vm] the machine follows a computation of the semantics: it reaches a
    state that [Q] relates to the result, or stops with the same error. *)
Definition sim {A} (vm : Vm) (o : outcome (result A VmError * genv)) (Q : A -> genv -> Vm -> Prop) : Prop :=
  match o with
  | Val (Ok a, s) => exists vm', rtc vm_step vm vm' /\ Q a s vm'
  | Val (Err d, s) => fails vm d s
  | Panic => True
  end.

Abbreviation G := (M genv VmError).

Lemma fails_steps vm vm' d s : rtc vm_step vm vm' -> fails vm' d s -> fails vm d s.
Proof. intros H1 (vm1 & vm2 & H2 & ?). exists vm1, vm2. split; [by etrans|done]. Qed.

Lemma sim_steps {A} vm vm' (o : outcome (result A VmError * genv)) Q :
  rtc vm_step vm vm' -> sim vm' o Q -> sim vm o Q.
Proof.
  intros H1. destruct o as [[[a|d] s]|]; simpl; [|by apply fails_steps|done].
  intros (vm2 & ? & ?). exists vm2. split; [by etrans|done].
Qed.
Lemma sim_step {A} vm vm' (o : outcome (result A VmError * genv)) Q :
  vm_step vm vm' -> sim vm' o Q -> sim vm o Q.
Proof. intros H1. by apply sim_steps, rtc_once. Qed.

Lemma sim_bind {A B} vm (m : G A) (f : A -> G B) s Q R :
  sim vm (m s) Q -> (forall a s' vm', Q a s' vm' -> sim vm' (f a s') R) -> sim vm ((m ≫= f) s) R.
Proof.
  intros Hm Hf. rewrite M_bind_eq. destruct (m s) as [[[a|d] s']|]; simpl in *; [|done|done].
  destruct Hm as (vm' & H1 & H2). eapply sim_steps; [done|]. by apply Hf.
Qed.

Lemma sim_ret {A} vm (a : A) s Q : Q a s vm -> sim vm ((mret a : G A) s) Q.
Proof. intros HQ. by exists vm. Qed.

Lemma sim_fail {A} vm d s Q vm2 :
  step vm = Val (Err d, vm2) -> globals vm2 = conv <$> g_globals s -> world vm2 = g_world s ->
  sim vm ((fail d : G A) s) Q.
Proof. intros. exists vm, vm2. by split. Qed.

Lemma sim_weaken {A} vm (o : outcome (result A VmError * genv)) (Q R : A -> genv -> Vm -> Prop) :
  sim vm o Q -> (forall a s vm', Q a s vm' -> R a s vm') -> sim vm o R.
Proof.
  intros Ho HQ. destruct o as [[[a|d] s]|]; simpl in *; [|done|done].
  destruct Ho as (vm' & ? & ?). eauto.
Qed.

#[local] Arguments sim : simpl never.

Lemma length_pops k : length (pops k) = k.
Proof. apply length_replicate. Qed.

(** ** Frames *)

(** The locals are on the stack, from the base of the frame on. *)
Definition env_at (σ : list Value) (so : nat) (locals : list (name * rvalue)) : Prop :=
  forall i y v, locals !! i = Some (y, v) -> σ !! (so + i)%nat = Some (conv v).

Lemma env_at_app σ so locals τ : env_at σ so locals -> env_at (σ ++ τ) so locals.
Proof. intros He i y v Hi. apply lookup_app_l_Some. by eapply He. Qed.

(** Looking a name up in the environment and among the compiler's locals. *)
Lemma lookup_local_find x locals :
  lookup_local x locals = (i ← find_name x locals.*1 0; snd <$> locals !! i).
Proof.
  induction locals as [|[y v] locals IH]; [done|]. cbn [lookup_local fmap list_fmap fst find_name].
  change ((fix go l := match l with [] => [] | x :: l => x.1 :: go l end) locals) with (locals.*1).
  rewrite find_name_S, IH. destruct (find_name x locals.*1 0) as [i|] eqn:Ei; simpl.
  - apply find_name_lt in Ei. rewrite length_fmap in Ei.
    apply lookup_lt_is_Some_2 in Ei as [[z w] Ei]. by rewrite Ei.
  - by destruct (decide (y = x)).
Qed.

(** The code [C] runs in a frame based at [so], on the stack [σ]. *)
Record frame (C : Chunk) (so : nat) (infn : bool) (locals : list (name * rvalue)) (σ : list Value) : Prop := {
  frame_fits : fits C = true;
  frame_top : infn = false -> so = 0%nat;
  frame_small : (length locals <= 256)%nat;
  frame_env : env_at σ so locals;
}.

Lemma frame_app C so infn locals σ τ : frame C so infn locals σ -> frame C so infn locals (σ ++ τ).
Proof. intros []. split; try done. by apply env_at_app. Qed.

Lemma frame_stack C infn locals base junk :
  fits C = true -> (infn = false -> length base = 0%nat) -> (length locals <= 256)%nat ->
  frame C (length base) infn locals (base ++ (conv <$> locals.*2) ++ junk).
Proof.
  intros. split; try done. intros i y v Hi.
  rewrite lookup_app_r by lia. replace (length base + i - length base)%nat with i by lia.
  apply lookup_app_l_Some. by rewrite !list_lookup_fmap, Hi.
Qed.

(** ** What the machine does for each part of a program *)

Definition expr_post C so cs pc σ (v : rvalue) (s : genv) (vm : Vm) : Prop :=
  vm = vmst C so cs pc (σ ++ [conv v]) s.

Definition expr_sim (n : nat) : Prop :=
  forall C so cs infn locals e nc c k pc σ s,
  frame C so infn locals σ -> ok_expr locals.*1 e = true -> cexpr locals.*1 nc e = (c, k) ->
  code_at C pc c -> consts_at C nc k ->
  sim (vmst C so cs pc σ s) (eval n infn locals e s) (expr_post C so cs (pc + length c) σ).

Definition args_sim (n : nat) : Prop :=
  forall C so cs infn locals a nc c k pc σ s,
  frame C so infn locals σ -> ok_args locals.*1 a = true -> cargs locals.*1 nc a = (c, k) ->
  code_at C pc c -> consts_at C nc k ->
  sim (vmst C so cs pc σ s) (eval_args n infn locals a s)
    (fun vs s' vm => length vs = alength a /\ vm = vmst C so cs (pc + length c) (σ ++ (conv <$> vs)) s').

(** A statement leaves its locals on the stack, above them only what a [while]
    may have left; or it stands at a [Return] with the value on top. *)
Definition flow_post C cs base (locals : list (name * rvalue)) (names : list name) (dirty : bool) pc
    (r : flow) (s : genv) (vm : Vm) : Prop :=
  match r with
  | Next locals' =>
      exists inner junk, locals' = locals ++ inner /\ locals'.*1 = names /\ (length locals' <= 256)%nat /\
        (dirty = false -> junk = []) /\
        vm = vmst C (length base) cs pc (base ++ (conv <$> locals'.*2) ++ junk) s
  | Returned v =>
      exists pc' σ, code C !! pc' = Some (opcode Return) /\
        vm = vmst C (length base) cs pc' (base ++ σ ++ [conv v]) s
  end.

Definition stmt_sim (n : nat) : Prop :=
  forall C cs infn sc locals x nc c k names dirty dirty' pc base junk s,
  fits C = true -> (infn = false -> length base = 0%nat) -> (length locals <= 256)%nat ->
  (dirty = false -> junk = []) ->
  check_stmt sc locals.*1 dirty x = Some (names, dirty') -> cstmt sc locals.*1 nc x = (c, k, names) ->
  code_at C pc c -> consts_at C nc k ->
  sim (vmst C (length base) cs pc (base ++ (conv <$> locals.*2) ++ junk) s) (exec n infn sc locals x s)
    (flow_post C cs base locals names dirty' (pc + length c)).

Definition stmts_sim (n : nat) : Prop :=
  forall C cs infn sc locals x nc c k names dirty dirty' pc base junk s,
  fits C = true -> (infn = false -> length base = 0%nat) -> (length locals <= 256)%nat ->
  (dirty = false -> junk = []) ->
  check_stmts sc locals.*1 dirty x = Some (names, dirty') -> cstmts sc locals.*1 nc x = (c, k, names) ->
  code_at C pc c -> consts_at C nc k ->
  sim (vmst C (length base) cs pc (base ++ (conv <$> locals.*2) ++ junk) s) (exec_list n infn sc locals x s)
    (flow_post C cs base locals names dirty' (pc + length c)).

(** ** Expressions *)

Section expressions.
Context (n : nat) (IHe : expr_sim n) (IHa : args_sim n) (IHs : stmts_sim n).
Context (C : Chunk) (so : nat) (cs : list CallFrame) (infn : bool) (locals : list (name * rvalue)).
Context (σ : list Value) (Hfr : frame C so infn locals σ).
Abbreviation st := (vmst C so cs).

Lemma constant_sim pc s nc v :
  code_at C pc [opcode Constant; byte nc] -> consts_at C nc [conv v] ->
  sim (st pc σ s) ((mret v : G rvalue) s) (expr_post C so cs (pc + 2) σ).
Proof.
  intros Hc [Hk _]%consts_at_cons. eapply sim_step; [|by apply sim_ret].
  by apply (step_constant C so cs pc σ s nc); [apply Hfr|..].
Qed.

Lemma var_sim pc s nc x c k :
  cexpr locals.*1 nc (EVar x) = (c, k) -> code_at C pc c -> consts_at C nc k ->
  sim (st pc σ s) (eval (S n) infn locals (EVar x) s) (expr_post C so cs (pc + length c) σ).
Proof.
  cbn [cexpr eval]. intros Hx Hc Hk. rewrite lookup_local_find.
  destruct (find_name x locals.*1 0) as [i|] eqn:Ei; simplify_eq/=.
  - apply find_name_lt in Ei. rewrite length_fmap in Ei.
    destruct (lookup_lt_is_Some_2 _ _ Ei) as [[y v] Hi]. rewrite Hi. simpl.
    eapply sim_step; [|by apply sim_ret]. destruct Hfr as [? _ ? He].
    apply (step_get_local C so cs pc σ s i); [lia|done|]. by eapply He.
  - apply consts_at_cons in Hk as [Hk _]. destruct Hfr as [Hf _ _ _].
    pose proof (step_get_global C so cs pc σ s nc x Hf Hc Hk) as Hg.
    rewrite M_bind_eq. cbn [get]. destruct (g_globals s !! x).
    + eapply sim_step; [done|]. by apply sim_ret.
    + by eapply sim_fail.
Qed.

Lemma neg_sim pc s nc e c k :
  ok_expr locals.*1 e = true -> cexpr locals.*1 nc (ENeg e) = (c, k) -> code_at C pc c -> consts_at C nc k ->
  sim (st pc σ s) (eval (S n) infn locals (ENeg e) s) (expr_post C so cs (pc + length c) σ).
Proof.
  cbn [cexpr eval]. intros Hok Hx Hc Hk. destruct (cexpr locals.*1 nc e) as [ce ke] eqn:Ee. simplify_eq/=.
  apply code_at_app in Hc as [Hce Hc]. rewrite length_app, Nat.add_assoc.
  eapply sim_bind; [by eapply IHe|]. intros v s' vm ->.
  pose proof (step_negate C so cs _ σ s' v Hc) as Hn.
  destruct v as [|x| | | |]; try (by eapply sim_fail). destruct (i64_fits (- x)); [|done].
  eapply sim_step; [by apply Hn|]. by apply sim_ret.
Qed.

Lemma bin_sim pc s nc o a b c k :
  ok_expr locals.*1 (EBin o a b) = true -> cexpr locals.*1 nc (EBin o a b) = (c, k) ->
  code_at C pc c -> consts_at C nc k ->
  sim (st pc σ s) (eval (S n) infn locals (EBin o a b) s) (expr_post C so cs (pc + length c) σ).
Proof.
  cbn [cexpr ok_expr eval]. intros [Ha Hb]%andb_true_iff Hx Hc Hk.
  destruct (cexpr locals.*1 nc a) as [ca ka] eqn:Ea.
  destruct (cexpr locals.*1 (nc + length ka) b) as [cb kb] eqn:Eb. simplify_eq/=.
  apply code_at_app in Hc as [Hca [Hcb Hc]%code_at_app]. apply consts_at_app in Hk as [Hka Hkb].
  rewrite !length_app, !Nat.add_assoc.
  eapply sim_bind; [by eapply IHe|]. intros x s1 vm ->.
  eapply sim_bind; [by eapply IHe; [apply frame_app|..]|]. intros y s2 vm ->.
  destruct (eval_bin o x y) as [v|] eqn:Ev; [|done]. unfold expr_post. rewrite <- app_assoc.
  eapply sim_step; [by eapply step_binop|]. by apply (sim_ret _ v).
Qed.

(** A conditional jump on the value on top. *)
Lemma jump_if_sim {A} (b : bool) pc τ s v d pc' (o : outcome (result A VmError * genv)) Q :
  - 2 ^ 15 <= d < 2 ^ 15 -> code_at C pc (jump_code (if b then JumpIfTrue else JumpIfFalse) d) ->
  Z.of_nat pc' = Z.of_nat pc + 3 + d -> Z.of_nat pc' < 2 ^ 15 ->
  (v = RBool b -> sim (st pc' (τ ++ [conv v]) s) o Q) ->
  (v = RBool (negb b) -> sim (st (pc + 3) (τ ++ [conv v]) s) o Q) ->
  ((forall x, v <> RBool x) -> o = (fail (WrongTypeForOperation VTBool (rtyp v)) : G A) s) ->
  sim (st pc (τ ++ [conv v]) s) o Q.
Proof.
  intros Hd Hc Hpc Hlt Hyes Hno Herr.
  pose proof (step_jump_if C so cs pc τ s b d pc' v Hd Hc Hpc Hlt) as Hj.
  destruct v as [| |x| | |]; try (rewrite Herr by done; by eapply sim_fail).
  eapply sim_step; [exact Hj|]. destruct x, b; simpl; auto.
Qed.

(** [&&] and [||]: the right operand runs if the left one is not [b]. *)
Lemma logic_sim (b : bool) pc s nc x y cx kx cy ky :
  let c := cx ++ jump_code (if b then JumpIfTrue else JumpIfFalse) (1 + len cy) ++ opcode Pop :: cy in
  ok_expr locals.*1 x = true -> ok_expr locals.*1 y = true ->
  cexpr locals.*1 nc x = (cx, kx) -> cexpr locals.*1 (nc + length kx) y = (cy, ky) ->
  code_at C pc c -> consts_at C nc (kx ++ ky) ->
  sim (st pc σ s) (eval (S n) infn locals (if b then EOr x y else EAnd x y) s)
    (expr_post C so cs (pc + length c) σ).
Proof.
  intros c Hx Hy Ex Ey Hc [Hkx Hky]%consts_at_app.
  assert (Z.of_nat pc + len c < 2 ^ 15) as Hb.
  { apply (code_at_bound C); [apply Hfr|done|]. subst c. by destruct cx. }
  assert (length c = length cx + 3 + 1 + length cy)%nat as El.
  { subst c. rewrite !length_app. cbn [length jump_code to_le_bytes]. lia. }
  unfold c in Hc. apply code_at_app in Hc as [Hcx [Hj [Hp Hcy]%(code_at_app C _ [_])]%code_at_app].
  change (length (jump_code _ _)) with 3%nat in Hp, Hcy. change (length [_]) with 1%nat in Hcy.
  unfold len in *. rewrite El in *.
  assert (forall v s1, v = RBool (negb b) ->
    sim (st (pc + length cx + 3) (σ ++ [conv v]) s1) (eval n infn locals y s1)
      (expr_post C so cs (pc + (length cx + 3 + 1 + length cy)) σ)) as Hright.
  { intros v s1 _. eapply sim_step; [by apply step_pop|].
    replace (pc + (length cx + 3 + 1 + length cy))%nat with (pc + length cx + 3 + 1 + length cy)%nat by lia.
    by eapply IHe. }
  assert (forall v s1, v = RBool b ->
    sim (st (pc + length c) (σ ++ [conv v]) s1) ((mret v : G rvalue) s1)
      (expr_post C so cs (pc + (length cx + 3 + 1 + length cy)) σ)) as Hleft.
  { intros v s1 _. rewrite El. by apply sim_ret. }
  assert (- 2 ^ 15 <= 1 + Z.of_nat (length cy) < 2 ^ 15) as Hd by lia.
  pose proof (fun v s1 o Q => jump_if_sim (A:=rvalue) b _ σ s1 v _ (pc + length c) o Q Hd Hj) as Hjump.
  destruct b; cbn [eval]; (eapply sim_bind; [by eapply IHe|]); intros v s1 vm ->;
    (apply Hjump; [lia..| | |]); try (by intros ->; eauto);
    intros Hne; destruct v as [| |z| | |]; try done; by destruct (Hne z).
Qed.

Lemma assign_sim pc s nc x e c k :
  ok_expr locals.*1 (EAssign x e) = true -> cexpr locals.*1 nc (EAssign x e) = (c, k) ->
  code_at C pc c -> consts_at C nc k ->
  sim (st pc σ s) (eval (S n) infn locals (EAssign x e) s) (expr_post C so cs (pc + length c) σ).
Proof.
  cbn [cexpr ok_expr eval]. intros [Hx%bool_decide_eq_true Hok]%andb_true_iff Ex Hc Hk.
  rewrite find_name_None in Ex by done. destruct (cexpr locals.*1 (S nc) e) as [ce ke] eqn:Ee.
  simplify_eq/=. apply code_at_app in Hc as [Hce Hc]. apply consts_at_cons in Hk as [Hx' Hke].
  rewrite length_app, Nat.add_assoc.
  eapply sim_bind; [by eapply IHe|]. intros v s1 vm ->.
  pose proof (step_set_global C so cs _ σ s1 nc x v (frame_fits _ _ _ _ _ Hfr) Hc Hx') as Hg.
  rewrite M_bind_eq. cbn [get]. destruct (g_globals s1 !! x).
  - eapply sim_step; [done|]. by apply (sim_ret _ v (mkGenv _ _)).
  - by eapply sim_fail.
Qed.

Lemma native_sim pc s f id vs :
  code_at C pc [opcode Call; Z.of_nat (length vs)] ->
  sim (st pc (σ ++ conv (RNative f id) :: (conv <$> vs)) s) (run_native id vs s) (expr_post C so cs (pc + 2) σ).
Proof.
  intros Hc. unfold run_native. rewrite M_bind_eq. cbn [get]. rewrite M_bind_eq.
  destruct (native id (conv <$> vs) (g_world s)) as [[v w]|] eqn:En; [|done].
  cbn [lift]. rewrite M_bind_eq. unfold put. destruct (unconv v) as [r|] eqn:Er; [|done].
  apply unconv_conv in Er as <-. eapply sim_step; [|by apply (sim_ret _ r (mkGenv _ w))].
  rewrite <- (length_fmap conv vs) in Hc. unfold vm_step.
  rewrite (step_call C so cs pc σ s _ (conv <$> vs) _ Hc eq_refl).
  rewrite op_call_st by (by apply code_at_cons in Hc as [_ [Hc _]%code_at_cons]). cbn [conv].
  rewrite M_bind_eq, En. cbn [lift]. rewrite M_bind_eq. unfold put. cbn -[Nat.add].
  by replace (pc + 2)%nat with (S (S pc)) by lia.
Qed.

Lemma call_error_sim pc s vf vs :
  code_at C pc [opcode Call; Z.of_nat (length vs)] ->
  match vf with RNative _ _ | RFun _ _ _ => False | _ => True end ->
  sim (st pc (σ ++ conv vf :: (conv <$> vs)) s) ((fail (ValueNotCallable (rtyp vf)) : G rvalue) s)
    (expr_post C so cs (pc + 2) σ).
Proof.
  intros Hc Hvf. rewrite <- (length_fmap conv vs) in Hc.
  assert (code C !! S pc = Some (Z.of_nat (length (conv <$> vs)))) as H1.
  { by apply code_at_cons in Hc as [_ [Hc _]%code_at_cons]. }
  destruct vf; try done;
    (eapply sim_fail; [rewrite (step_call C so cs pc σ s _ (conv <$> vs) _ Hc eq_refl);
      rewrite op_call_st by done; reflexivity|done|done]).
Qed.

(** A call of a function: its frame is based at the function itself. *)
Lemma fun_sim pc s f ps b vs :
  infn = false -> length ps = length vs -> supported_fn f ps b = true ->
  code_at C pc [opcode Call; Z.of_nat (length vs)] ->
  sim (st pc (σ ++ conv (RFun f ps b) :: (conv <$> vs)) s)
    ((r ← exec_list n true true ((f, RFun f ps b) :: zip ps vs) b;
      match r with Returned v => mret v | Next _ => panic end : G rvalue) s)
    (expr_post C so cs (pc + 2) σ).
Proof.
  intros Hinfn Hlen Hs Hc. apply andb_true_iff in Hs as [[Hck Hps%Nat.leb_le]%andb_true_iff Hfits].
  apply bool_decide_eq_true in Hck as [[nm d] Hck]. rewrite <- (length_fmap conv vs) in Hc.
  eapply (sim_step _ (vmst (compile_fn f ps b) (length σ) (cs ++ [mkCallFrame C (pc + 2) so]) 0%nat
    (σ ++ conv (RFun f ps b) :: (conv <$> vs)) s)).
  { unfold vm_step. rewrite (step_call C so cs pc σ s _ (conv <$> vs) _ Hc eq_refl).
    rewrite op_call_st by (by apply code_at_cons in Hc as [_ [Hc _]%code_at_cons]). cbn [conv].
    rewrite (frame_top _ _ _ _ _ Hfr Hinfn). by replace (pc + 2)%nat with (S (S pc)) by lia. }
  assert (compile_fn f ps b = compile_fn f ps b) as Ec by done. unfold compile_fn at 2 in Ec.
  destruct (cstmts true (f :: ps) 0 b) as [[c k] nm'] eqn:Eb.
  pose proof (check_names_list _ _ _ _ _ _ _ _ _ _ Hck Eb) as ->.
  assert (((f, RFun f ps b) :: zip ps vs).*1 = f :: ps) as E1.
  { cbn. f_equal. by apply fst_zip; rewrite Hlen. }
  assert (((f, RFun f ps b) :: zip ps vs).*2 = RFun f ps b :: vs) as E2.
  { cbn. f_equal. by apply snd_zip; rewrite Hlen. }
  eapply sim_bind.
  - pose proof (IHs (compile_fn f ps b) (cs ++ [mkCallFrame C (pc + 2) so]) true true
      ((f, RFun f ps b) :: zip ps vs) b 0%nat c k nm' false d 0%nat σ [] s) as Hb.
    rewrite E1, E2, app_nil_r in Hb. apply Hb; try done.
    + rewrite <- (length_fmap fst), E1. simpl. lia.
    + rewrite Ec. intros i x Hi. by apply lookup_app_l_Some.
    + rewrite Ec. by intros i x Hi.
  - intros [locals'|v] s1 vm; [done|]. intros (pc' & τ & Hret & ->).
    eapply sim_step; [by eapply step_return|]. by apply (sim_ret _ v).
Qed.

Lemma call_sim pc s nc f args c k :
  ok_expr locals.*1 (ECall f args) = true -> cexpr locals.*1 nc (ECall f args) = (c, k) ->
  code_at C pc c -> consts_at C nc k ->
  sim (st pc σ s) (eval (S n) infn locals (ECall f args) s) (expr_post C so cs (pc + length c) σ).
Proof.
  cbn [cexpr ok_expr eval]. intros [[Hf Ha]%andb_true_iff _]%andb_true_iff Ex Hc Hk.
  destruct (cexpr locals.*1 nc f) as [cf kf] eqn:Ef.
  destruct (cargs locals.*1 (nc + length kf) args) as [ca ka] eqn:Ea. simplify_eq/=.
  apply code_at_app in Hc as [Hcf [Hca Hc]%code_at_app]. apply consts_at_app in Hk as [Hkf Hka].
  rewrite !length_app, !Nat.add_assoc.
  eapply sim_bind; [by eapply IHe|]. intros vf s1 vm ->.
  eapply sim_bind; [by eapply IHa; [apply frame_app|..]|]. intros vs s2 vm (Hvs & ->).
  rewrite <- Hvs in Hc. rewrite <- app_assoc. cbn [app].
  destruct vf as [| | | |f' ps b|f' id]; try (by apply call_error_sim); [|by apply native_sim].
  destruct (Bool.bool_dec infn false) as [Ei|Ei%not_false_is_true]; rewrite Ei; [|done]. destruct (length ps =? length vs)%nat eqn:El; [|done].
  apply Nat.eqb_eq in El. destruct (supported_fn f' ps b) eqn:Es; [|done]. simpl.
  by apply fun_sim.
Qed.

End expressions.

Lemma eval_sim n : expr_sim n -> args_sim n -> stmts_sim n -> expr_sim (S n).
Proof.
  intros IHe IHa IHs C so cs infn locals e nc c k pc σ s Hfr Hok Hx Hc Hk. destruct e.
  - simplify_eq/=. by eapply (constant_sim _ _ _ infn locals _ Hfr _ _ _ (RInt _)).
  - simplify_eq/=. by eapply (constant_sim _ _ _ infn locals _ Hfr _ _ _ (RStr _)).
  - simplify_eq/=. eapply sim_step; [by apply step_bool|]. by apply (sim_ret _ (RBool b)).
  - by eapply var_sim.
  - by eapply neg_sim.
  - by eapply bin_sim.
  - cbn [cexpr ok_expr] in *. apply andb_true_iff in Hok as [H1 H2].
    destruct (cexpr locals.*1 nc e1) as [ca ka] eqn:Ea.
    destruct (cexpr locals.*1 (nc + length ka) e2) as [cb kb] eqn:Eb. simplify_eq.
    by eapply (logic_sim _ IHe _ _ _ _ _ _ Hfr false).
  - cbn [cexpr ok_expr] in *. apply andb_true_iff in Hok as [H1 H2].
    destruct (cexpr locals.*1 nc e1) as [ca ka] eqn:Ea.
    destruct (cexpr locals.*1 (nc + length ka) e2) as [cb kb] eqn:Eb. simplify_eq.
    by eapply (logic_sim _ IHe _ _ _ _ _ _ Hfr true).
  - by eapply assign_sim.
  - by eapply call_sim.
Qed.

Lemma eval_args_sim n : expr_sim n -> args_sim n -> args_sim (S n).
Proof.
  intros IHe IHa C so cs infn locals [|e a] nc c k pc σ s Hfr Hok Hx Hc Hk; cbn [eval_args cargs ok_args] in *.
  - simplify_eq. apply (sim_ret _ []). split; [done|]. simpl. by rewrite app_nil_r, Nat.add_0_r.
  - apply andb_true_iff in Hok as [He Ha]. destruct (cexpr locals.*1 nc e) as [ce ke] eqn:Ee.
    destruct (cargs locals.*1 (nc + length ke) a) as [ca ka] eqn:Ea. simplify_eq.
    apply code_at_app in Hc as [Hce Hca]. apply consts_at_app in Hk as [Hke Hka].
    eapply sim_bind; [by eapply IHe|]. intros v s1 vm ->.
    eapply sim_bind; [by eapply IHa; [apply frame_app|..]|]. intros vs s2 vm (Hvs & ->).
    apply (sim_ret _ (v :: vs)). split; [simpl; by rewrite Hvs|].
    rewrite length_app, Nat.add_assoc, <- app_assoc. done.
Qed.

(** ** Statements *)

Ltac code_length := repeat (rewrite ?length_app; cbn [length jump_code to_le_bytes]); lia.

Lemma code_at_end C pc c q :
  fits C = true -> code_at C pc c -> c <> [] -> (pc + length c = q)%nat -> Z.of_nat q < 2 ^ 15.
Proof. intros Hf Hc Hne <-. pose proof (code_at_bound _ _ _ Hf Hc Hne) as Hb. unfold len in Hb. lia. Qed.

(** Code that starts with a condition and a jump over what follows. *)
Lemma condition_code C pc cc op d r :
  code_at C pc (cc ++ jump_code op d ++ opcode Pop :: r) <->
  code_at C pc (cc ++ jump_code op d ++ [opcode Pop]) /\ code_at C (pc + length cc + 4) r.
Proof.
  rewrite !code_at_app, (code_at_cons _ _ _ r), (code_at_cons _ _ _ []).
  change (length (jump_code _ _)) with 3%nat.
  replace (pc + length cc + 4)%nat with (S (pc + length cc + 3)) by lia. split; [by intros (? & ? & ? & ?)|]. by intros ((? & ? & ? & _) & ?).
Qed.

Section statements.
Context (n : nat) (IHe : expr_sim n) (IHx : stmt_sim n) (IHs : stmts_sim n).
Context (C : Chunk) (cs : list CallFrame) (infn : bool) (base : list Value) (locals : list (name * rvalue)).
Context (Hfits : fits C = true) (Hbase : infn = false -> length base = 0%nat).
Context (Hsmall : (length locals <= 256)%nat).
Abbreviation st := (vmst C (length base) cs).
Abbreviation names := (locals.*1).
Abbreviation σ := (base ++ (conv <$> locals.*2)).

Lemma statement_frame junk : frame C (length base) infn locals (base ++ (conv <$> locals.*2) ++ junk).
Proof. by apply frame_stack. Qed.

(** A statement that leaves its locals alone. *)
Lemma flow_same dirty pc junk s :
  (dirty = false -> junk = []) ->
  flow_post C cs base locals names dirty pc (Next locals) s
    (st pc (base ++ (conv <$> locals.*2) ++ junk) s).
Proof. intros Hj. exists [], junk. by rewrite app_nil_r. Qed.

(** A block, and what follows it; the values of its locals are popped. *)
Lemma block_sim dirty d nc b c k nm cb pc junk s (K : G flow) Q :
  (dirty = false -> junk = []) ->
  check_stmts true names dirty b = Some (nm, d) -> cstmts true names nc b = (c, k, nm) ->
  cb = c ++ pops (length nm - length names) -> code_at C pc cb -> consts_at C nc k ->
  (forall junk' s', (d = false -> junk' = []) ->
     sim (st (pc + length cb) (base ++ (conv <$> locals.*2) ++ junk') s') (K s') Q) ->
  (forall v s' vm, flow_post C cs base locals nm d (pc + length c) (Returned v) s' vm -> Q (Returned v) s' vm) ->
  sim (st pc (base ++ (conv <$> locals.*2) ++ junk) s)
    ((r ← exec_list n infn true locals b;
      match r with Returned v => mret (Returned v) | Next _ => K end : G flow) s) Q.
Proof.
  intros Hj Hck Hcs -> [Hc Hp]%code_at_app Hk HK HR. rewrite length_app, Nat.add_assoc in HK.
  eapply sim_bind; [by eapply IHs|]. intros [locals'|v] s1 vm; [|intros Hv; apply sim_ret; by apply HR].
  intros (inner & junk' & -> & <- & Hs & Hj' & ->).
  eapply sim_steps; [apply steps_pops; [done|]|].
  { rewrite !length_app, !length_fmap, length_app. lia. }
  rewrite !fmap_app, <- app_assoc, (app_assoc base), take_app_ge by (rewrite !length_app, !length_fmap, ?length_app; lia).
  rewrite <- app_assoc. rewrite length_pops, fmap_app in HK. apply HK.
  intros Hd. rewrite (Hj' Hd), app_nil_r.
  match goal with |- take ?m _ = _ => replace m with 0%nat; [done|] end.
  rewrite !length_app, !length_fmap. lia.
Qed.

(** The condition of a statement and the jump to what follows if it is false: the
    condition is popped where it holds. *)
Lemma condition_sim c cc kc nc d pc pc' junk s (t e : G flow) Q :
  ok_expr names c = true -> cexpr names nc c = (cc, kc) ->
  code_at C pc (cc ++ jump_code JumpIfFalse d ++ [opcode Pop]) -> consts_at C nc kc ->
  - 2 ^ 15 <= d < 2 ^ 15 -> Z.of_nat pc' = Z.of_nat (pc + length cc) + 3 + d -> Z.of_nat pc' < 2 ^ 15 ->
  (forall s', sim (st (pc + length cc + 4) (base ++ (conv <$> locals.*2) ++ junk) s') (t s') Q) ->
  (forall s', sim (st pc' (base ++ (conv <$> locals.*2) ++ junk ++ [VBool false]) s') (e s') Q) ->
  sim (st pc (base ++ (conv <$> locals.*2) ++ junk) s)
    ((v ← eval n infn locals c;
      match v with
      | RBool true => t
      | RBool false => e
      | _ => fail (WrongTypeForOperation VTBool (rtyp v))
      end : G flow) s) Q.
Proof.
  intros Hok Hcc [Hc [Hj Hp]%code_at_app]%code_at_app Hk Hd Hpc Hlt Ht He.
  change (length (jump_code _ _)) with 3%nat in Hp.
  eapply sim_bind; [by eapply IHe; [apply statement_frame|..]|]. intros v s1 vm ->.
  apply (jump_if_sim _ _ _ false _ _ _ _ _ pc' _ _ Hd Hj); try done.
  - intros ->. rewrite <- !app_assoc. apply He.
  - intros ->. eapply sim_step; [by apply step_pop|].
    replace (pc + length cc + 3 + 1)%nat with (pc + length cc + 4)%nat by lia. apply Ht.
  - intros Hne. destruct v as [| |z| | |]; try done. by destruct (Hne z).
Qed.

(** Defining a global: the value is on top of the stack. *)
Lemma global_sim {A} pc nc x v junk s (m : G A) Q :
  code_at C pc (global_code nc) -> constants C !! nc = Some (string_value x) ->
  (forall s', sim (st (pc + 3) (base ++ (conv <$> locals.*2) ++ junk) s') (m s') Q) ->
  sim (st pc ((base ++ (conv <$> locals.*2) ++ junk) ++ [conv v]) s) ((_ ← set_global x v; m) s) Q.
Proof.
  intros [Hc Hd]%(code_at_app C pc [_; _]) Hk Hm. change (length [_; _]) with 2%nat in Hd.
  eapply sim_step; [by eapply step_constant|]. rewrite <- app_assoc.
  eapply sim_step; [by apply step_define_global|].
  replace (pc + 2 + 1)%nat with (pc + 3)%nat by lia. apply Hm.
Qed.

Lemma let_sim sc x e nc c k nm dirty dirty' pc junk s :
  (dirty = false -> junk = []) ->
  check_stmt sc names dirty (SLet x e) = Some (nm, dirty') -> cstmt sc names nc (SLet x e) = (c, k, nm) ->
  code_at C pc c -> consts_at C nc k ->
  sim (st pc (base ++ (conv <$> locals.*2) ++ junk) s) (exec (S n) infn sc locals (SLet x e) s)
    (flow_post C cs base locals nm dirty' (pc + length c)).
Proof.
  intros Hj. cbn [check_stmt cstmt exec]. destruct sc.
  - destruct (ok_expr (names ++ [x]) e) eqn:Hok; [|done]. destruct (mentions x e) eqn:Hm; [done|].
    destruct dirty; [done|]. destruct (length names <? 256)%nat eqn:Hl; [|done]. apply Nat.ltb_lt in Hl. simpl.
    intros [= <- <-]. rewrite (proj1 (cexpr_fresh x names)) by done. apply ok_expr_fresh in Hok.
    destruct (cexpr names nc e) as [c' k'] eqn:Ee. intros [= -> ->] Hc Hk.
    eapply sim_bind; [by eapply IHe; [apply statement_frame|..]|]. intros v s1 vm ->.
    apply sim_ret. exists [(x, v)], []. rewrite Hj, !app_nil_r, !fmap_app, <- app_assoc by done.
    rewrite length_fmap in Hl. rewrite length_app. simpl. split_and!; try done. lia.
  - destruct (ok_expr names e) eqn:Hok; [|done]. destruct (cexpr names nc e) as [c' k'] eqn:Ee.
    intros [= <- <-] [= <- <-] [Hc Hg]%code_at_app [Hk [Hx _]%consts_at_cons]%consts_at_app.
    eapply sim_bind; [by eapply IHe; [apply statement_frame|..]|]. intros v s1 vm ->.
    eapply global_sim; [done..|]. intros s2. apply sim_ret. rewrite length_app, Nat.add_assoc.
    by apply flow_same.
Qed.

Lemma if_sim sc c t nc code k nm dirty dirty' pc junk s :
  (dirty = false -> junk = []) ->
  check_stmt sc names dirty (SIf c t) = Some (nm, dirty') -> cstmt sc names nc (SIf c t) = (code, k, nm) ->
  code_at C pc code -> consts_at C nc k ->
  sim (st pc (base ++ (conv <$> locals.*2) ++ junk) s) (exec (S n) infn sc locals (SIf c t) s)
    (flow_post C cs base locals nm dirty' (pc + length code)).
Proof.
  intros Hj. cbn [check_stmt cstmt exec]. destruct (ok_expr names c) eqn:Hok; [|done].
  destruct (check_stmts true names dirty t) as [[nt d]|] eqn:Hck; [|done]. intros [= <- <-].
  destruct (cexpr names nc c) as [cc kc] eqn:Ec.
  destruct (cstmts true names (nc + length kc) t) as [[ct kt] nt'] eqn:Et.
  pose proof (check_names_list _ _ _ _ _ _ _ _ _ _ Hck Et) as ->.
  remember (ct ++ pops _) as cb eqn:Ecb. intros [[<- <-]%pair_equal_spec _]%pair_equal_spec Hc [Hkc Hkt]%consts_at_app.
  assert (Z.of_nat (pc + length cc + 3 + length cb + 5) < 2 ^ 15) as Hb.
  { apply (code_at_end _ _ _ _ Hfits Hc); [by destruct cc|]. code_length. }
  apply condition_code in Hc as [Hc [Hcb [Hjump Hpop]%code_at_app]%code_at_app].
  change (length (jump_code _ _)) with 3%nat in Hpop.
  replace (pc + length _)%nat with (pc + length cc + 4 + length cb + 3 + 1)%nat by code_length.
  eapply (condition_sim _ _ _ _ _ _ (pc + length cc + 4 + length cb + 3)); [done..|unfold len; lia|
    unfold len; lia|lia| |].
  - intros s1. eapply block_sim; [done..| |by intros ? ? ? Hv]. intros junk' s2 Hj'.
    eapply sim_step; [apply (step_jump _ _ _ _ _ _ 1 (pc + length cc + 4 + length cb + 3 + 1)); [lia|done|lia..]|].
    apply sim_ret, flow_same.
    by intros [Hd _]%orb_false_iff; auto.
  - intros s1. rewrite !app_assoc. eapply sim_step; [by apply step_pop|]. rewrite <- app_assoc.
    apply sim_ret, flow_same. by intros [_ Hd]%orb_false_iff; auto.
Qed.

Lemma if_else_sim sc c t e nc code k nm dirty dirty' pc junk s :
  (dirty = false -> junk = []) ->
  check_stmt sc names dirty (SIfElse c t e) = Some (nm, dirty') ->
  cstmt sc names nc (SIfElse c t e) = (code, k, nm) ->
  code_at C pc code -> consts_at C nc k ->
  sim (st pc (base ++ (conv <$> locals.*2) ++ junk) s) (exec (S n) infn sc locals (SIfElse c t e) s)
    (flow_post C cs base locals nm dirty' (pc + length code)).
Proof.
  intros Hj. cbn [check_stmt cstmt exec]. destruct (ok_expr names c) eqn:Hok; [|done].
  destruct (check_stmts true names dirty t) as [[nt d1]|] eqn:Hckt; [|done].
  destruct (check_stmts true names dirty e) as [[ne d2]|] eqn:Hcke; [|done]. intros [= <- <-].
  destruct (cexpr names nc c) as [cc kc] eqn:Ec.
  destruct (cstmts true names (nc + length kc) t) as [[ct kt] nt'] eqn:Et.
  destruct (cstmts true names (nc + length kc + length kt) e) as [[ce ke] ne'] eqn:Ee.
  pose proof (check_names_list _ _ _ _ _ _ _ _ _ _ Hckt Et) as ->.
  pose proof (check_names_list _ _ _ _ _ _ _ _ _ _ Hcke Ee) as ->.
  remember (ct ++ pops _) as cb eqn:Ecb. remember (ce ++ pops _) as cb' eqn:Ecb'.
  intros [[<- <-]%pair_equal_spec _]%pair_equal_spec Hc [Hkc [Hkt Hke]%consts_at_app]%consts_at_app.
  assert (Z.of_nat (pc + length cc + 4 + length cb + 3 + 1 + length cb') < 2 ^ 15) as Hb.
  { apply (code_at_end _ _ _ _ Hfits Hc); [by destruct cc|]. code_length. }
  apply condition_code in Hc as [Hc [Hcb [Hjump [Hpop Hcb']%(code_at_app _ _ [_])]%code_at_app]%code_at_app].
  change (length (jump_code _ _)) with 3%nat in Hpop, Hcb'. change (length [_]) with 1%nat in Hcb'.
  replace (pc + length _)%nat with (pc + length cc + 4 + length cb + 3 + 1 + length cb')%nat by code_length.
  eapply (condition_sim _ _ _ _ _ _ (pc + length cc + 4 + length cb + 3)); [done..|unfold len; lia|
    unfold len; lia|lia| |].
  - intros s1. eapply block_sim; [done..| |by intros ? ? ? Hv]. intros junk' s2 Hj'.
    eapply sim_step; [apply (step_jump _ _ _ _ _ _ (len cb' + 1)
      (pc + length cc + 4 + length cb + 3 + 1 + length cb')); unfold len; [lia|done|lia..]|].
    apply sim_ret, flow_same. by intros [Hd _]%orb_false_iff; auto.
  - intros s1. rewrite !app_assoc. eapply sim_step; [by apply step_pop|]. rewrite <- app_assoc.
    eapply block_sim; [done..| |by intros ? ? ? Hv]. intros junk' s2 Hj'.
    apply sim_ret, flow_same. by intros [_ Hd]%orb_false_iff; auto.
Qed.

(** A loop: its iterations run with the stack it may have left values on. *)
Lemma while_sim sc c b nc code k nm dirty dirty' pc junk s :
  (dirty = false -> junk = []) ->
  check_stmt sc names dirty (SWhile c b) = Some (nm, dirty') ->
  cstmt sc names nc (SWhile c b) = (code, k, nm) ->
  code_at C pc code -> consts_at C nc k ->
  sim (st pc (base ++ (conv <$> locals.*2) ++ junk) s) (exec (S n) infn sc locals (SWhile c b) s)
    (flow_post C cs base locals nm dirty' (pc + length code)).
Proof.
  intros Hj Hck0 Hcs0 Hc0 Hk0. pose proof Hck0 as Hck. pose proof Hcs0 as Hcs.
  cbn [exec]. cbn [check_stmt] in Hck. cbn [cstmt] in Hcs. destruct (ok_expr names c) eqn:Hok; [|done].
  destruct (check_stmts true names dirty b) as [[nb d]|] eqn:Hckb; [|done].
  assert (nm = names /\ dirty' = true) as [-> ->] by (simpl in Hck; repeat case_match; by simplify_option_eq).
  destruct (cexpr names nc c) as [cc kc] eqn:Ec.
  destruct (cstmts true names (nc + length kc) b) as [[cb0 kb] nb'] eqn:Eb.
  pose proof (check_names_list _ _ _ _ _ _ _ _ _ _ Hckb Eb) as ->.
  remember (cb0 ++ pops _) as cb eqn:Ecb. apply pair_equal_spec in Hcs as [[Hcode <-]%pair_equal_spec _].
  pose proof Hc0 as Hc. rewrite <- Hcode in Hc. pose proof Hk0 as [Hkc Hkb]%consts_at_app.
  assert (length code = length cc + 4 + length cb + 3)%nat as El by (rewrite <- Hcode; code_length).
  assert (Z.of_nat (pc + length code) < 2 ^ 15) as Hb.
  { apply (code_at_end _ _ _ _ Hfits Hc0); [|done]. intros ->. simpl in El. lia. }
  apply condition_code in Hc as [Hc [Hcb Hjump]%code_at_app].
  eapply (condition_sim _ _ _ _ _ _ (pc + length code)); [done..|unfold len; lia|unfold len; lia|lia| |].
  - intros s1. eapply block_sim; [done..| |by intros ? ? ? Hv]. intros junk' s2 Hj'.
    eapply sim_step; [apply (step_jump _ _ _ _ _ _ (- (len cc + len cb + 7)) pc); unfold len; [lia|done|lia..]|].
    eapply (IHx _ _ _ _ _ (SWhile c b) nc _ _ _ (if d then true else dirty)); [done..| | |exact Hcs0|done|done].
    { by destruct d; auto. }
    destruct d; [|done]. cbn [check_stmt]. rewrite Hok. simpl in Hck |- *.
    by destruct (check_stmts true names true b) as [[? []]|].
  - intros s1. by apply sim_ret, flow_same.
Qed.

Lemma fn_sim sc f ps b nc code k nm dirty dirty' pc junk s :
  (dirty = false -> junk = []) ->
  check_stmt sc names dirty (SFn f ps b) = Some (nm, dirty') ->
  cstmt sc names nc (SFn f ps b) = (code, k, nm) ->
  code_at C pc code -> consts_at C nc k ->
  sim (st pc (base ++ (conv <$> locals.*2) ++ junk) s) (exec (S n) infn sc locals (SFn f ps b) s)
    (flow_post C cs base locals nm dirty' (pc + length code)).
Proof.
  intros Hj. cbn [check_stmt cstmt exec]. destruct sc; [done|].
  cbn [negb andb]. destruct ((length ps <=? 255)%nat && fits (compile_fn f ps b)); [|done].
  destruct (check_stmts true (f :: ps) false b) as [[? d]|]; [|done]. intros [= <- <-].
  assert (conv (RFun f ps b) = VObj (GinkgoFunction f (Z.of_nat (length ps)) (compile_fn f ps b))) as Ev by done.
  unfold compile_fn in Ev. destruct (cstmts true (f :: ps) 0 b) as [[c k'] nb]. rewrite <- Ev.
  intros [[<- <-]%pair_equal_spec _]%pair_equal_spec Hc [Hfn [Hname _]%consts_at_cons]%consts_at_cons.
  apply (code_at_app _ _ [_; _]) in Hc as [Hc Hg].
  eapply sim_step; [by eapply step_constant|]. eapply global_sim; [exact Hg|done|]. intros s1.
  apply sim_ret. replace (pc + length _)%nat with (pc + 2 + 3)%nat by (cbn [length global_code]; lia).
  by apply flow_same.
Qed.

Lemma simple_sim sc x nc code k nm dirty dirty' pc junk s :
  match x with SExpr _ | SBlock _ | SReturn _ => True | _ => False end ->
  (dirty = false -> junk = []) ->
  check_stmt sc names dirty x = Some (nm, dirty') -> cstmt sc names nc x = (code, k, nm) ->
  code_at C pc code -> consts_at C nc k ->
  sim (st pc (base ++ (conv <$> locals.*2) ++ junk) s) (exec (S n) infn sc locals x s)
    (flow_post C cs base locals nm dirty' (pc + length code)).
Proof.
  intros Hx Hj. destruct x as [|e|b| | | | |[e|]]; try done; cbn [check_stmt cstmt exec].
  - destruct (ok_expr names e) eqn:Hok; [|done]. destruct (cexpr names nc e) as [ce ke] eqn:Ee.
    intros [= <- <-] [= <- <-] [Hc Hp]%code_at_app Hk.
    eapply sim_bind; [by eapply IHe; [apply statement_frame|..]|]. intros v s1 vm ->.
    eapply sim_step; [by apply step_pop|]. apply sim_ret. rewrite length_app, Nat.add_assoc.
    by apply flow_same.
  - destruct (check_stmts true names dirty b) as [[nb d]|] eqn:Hck; [|done]. intros [= <- <-].
    destruct (cstmts true names nc b) as [[cb kb] nb'] eqn:Eb.
    pose proof (check_names_list _ _ _ _ _ _ _ _ _ _ Hck Eb) as ->. intros [= <- <-] Hc Hk.
    eapply block_sim; [done..| |by intros ? ? ? Hv]. intros junk' s1 Hj'. by apply sim_ret, flow_same.
  - destruct (ok_expr names e) eqn:Hok; [|done]. destruct (cexpr names nc e) as [ce ke] eqn:Ee.
    intros [= <- <-] [= <- <-] [Hc [Hp _]%code_at_cons]%code_at_app Hk.
    eapply sim_bind; [by eapply IHe; [apply statement_frame|..]|]. intros v s1 vm ->.
    apply sim_ret. exists (pc + length ce)%nat, ((conv <$> locals.*2) ++ junk). by rewrite <- !app_assoc.
  - intros [= <- <-] [= <- <-] [Hu [Hp _]%code_at_cons]%(code_at_app _ _ [_]) Hk.
    eapply sim_step; [by apply step_unit|]. apply (sim_ret _ (Returned RUnit)).
    exists (pc + 1)%nat, ((conv <$> locals.*2) ++ junk). by rewrite <- !app_assoc.
Qed.

End statements.

Lemma exec_sim n : expr_sim n -> stmt_sim n -> stmts_sim n -> stmt_sim (S n).
Proof.
  intros IHe IHx IHs C cs infn sc locals x. intros. destruct x.
  - by eapply let_sim.
  - by eapply simple_sim.
  - by eapply simple_sim.
  - by eapply if_sim.
  - by eapply if_else_sim.
  - by eapply while_sim.
  - by eapply fn_sim.
  - by eapply simple_sim.
Qed.

Lemma exec_list_sim n : stmt_sim n -> stmts_sim n -> stmts_sim (S n).
Proof.
  intros IHx IHs C cs infn sc locals [|x ss] nc c k names dirty dirty' pc base junk s Hf Hb Hs Hj Hck Hcs Hc Hk;
    cbn [check_stmts cstmts exec_list] in *.
  - simplify_eq. apply sim_ret. rewrite Nat.add_0_r. by apply flow_same.
  - destruct (check_stmt sc locals.*1 dirty x) as [[n1 d1]|] eqn:Hck1; simplify_eq/=.
    destruct (cstmt sc locals.*1 nc x) as [[c1 k1] n1'] eqn:Ec1.
    pose proof (check_names _ _ _ _ _ _ _ _ _ _ Hck1 Ec1) as ->.
    destruct (cstmts sc n1' (nc + length k1) ss) as [[c2 k2] n2] eqn:Ec2. simplify_eq.
    apply code_at_app in Hc as [Hc1 Hc2]. apply consts_at_app in Hk as [Hk1 Hk2].
    eapply sim_bind; [by eapply IHx|].
    intros [locals'|v] s1 vm; [|by intros Hv; apply sim_ret].
    intros (inner & junk' & -> & <- & Hs' & Hj' & ->). eapply sim_weaken; [by eapply IHs|].
    rewrite length_app, Nat.add_assoc.
    intros [locals2|v] s2 vm; [|done]. intros (inner2 & junk2 & -> & Hrest).
    exists (inner ++ inner2), junk2. by rewrite app_assoc.
Qed.

Lemma all_sim n : expr_sim n /\ args_sim n /\ stmt_sim n /\ stmts_sim n.
Proof.
  induction n as [|n (IHe & IHa & IHx & IHs)]; [by split_and!; repeat intros ?|].
  split_and!; [by apply eval_sim|by apply eval_args_sim|by apply exec_sim|by apply exec_list_sim].
Qed.

(** ** Scripts *)

Lemma steps_run vm vm' : rtc vm_step vm vm' -> forall o,
  (exists fuel, run fuel vm' = Val o) -> exists fuel, run fuel vm = Val o.
Proof.
  induction 1 as [vm|vm vm1 vm2 Hs _ IH]; intros o Ho; [done|]. apply IH in Ho as [fuel Ho].
  exists (S fuel). cbn [run]. by rewrite (M_bind_Ok _ _ _ _ _ Hs).
Qed.

(** The machine stops with an error, or at a [Return] outside of any call. *)
Lemma run_fails vm d s : fails vm d s ->
  exists fuel vm', run fuel vm = Val (Err d, vm') /\ globals vm' = conv <$> g_globals s /\ world vm' = g_world s.
Proof.
  intros (vm1 & vm2 & Hsteps & Herr & Hs).
  destruct (steps_run _ _ Hsteps (Err d, vm2)) as [fuel Hr].
  { exists 1%nat. cbn [run]. rewrite M_bind_eq. by rewrite Herr. }
  by exists fuel, vm2.
Qed.
Lemma run_stops vm C pc σ s : rtc vm_step vm (vmst C 0 [] pc σ s) -> code C !! pc = Some (opcode Return) ->
  exists fuel vm', run fuel vm = Val (Ok tt, vm') /\ globals vm' = conv <$> g_globals s /\ world vm' = g_world s.
Proof.
  intros Hsteps Hret. destruct (steps_run _ _ Hsteps (Ok tt, vmst C 0 [] (S pc) σ s)) as [fuel Hr].
  { exists 1%nat. cbn [run]. by rewrite M_bind_eq, step_return_top. }
  by exists fuel, (vmst C 0 [] (S pc) σ s).
Qed.

(** The virtual machine runs the code of a supported script, from an empty stack,
    with the effects and the outcome of the script's meaning. *)
Lemma interpret_script n ss s r s' c0 i0 :
  supported ss = true -> run_script n ss s = Val (r, s') ->
  exists fuel vm', interpret fuel (compile ss) (mkVm [] c0 i0 0 [] (conv <$> g_globals s) (g_world s)) =
      Val (match r with Ok _ => Ok VUnit | Err d => Err d end, vm') /\
    globals vm' = conv <$> g_globals s' /\ world vm' = g_world s'.
Proof.
  intros [[[nm d] Hck]%bool_decide_eq_true Hfits]%andb_true_iff Hrun.
  assert (compile ss = compile ss) as Ec by done. unfold compile at 2 in Ec.
  destruct (cstmts false [] 0 ss) as [[c k] nm'] eqn:Es.
  pose proof (check_names_list _ _ _ _ _ _ _ _ _ _ Hck Es) as ->.
  assert (code_at (compile ss) 0 (c ++ [opcode Return])) as [Hc [Hret _]%code_at_cons]%code_at_app.
  { rewrite Ec. by intros i b Hi. }
  assert (consts_at (compile ss) 0 k) as Hk by (rewrite Ec; by intros i b Hi).
  destruct (all_sim n) as (_ & _ & _ & IHs).
  pose proof (IHs (compile ss) [] false false [] ss 0%nat c k nm' false d 0%nat [] [] s Hfits) as Hsim.
  specialize (Hsim (fun _ => eq_refl) ltac:(simpl; lia) (fun _ => eq_refl) Hck Es Hc Hk).
  assert (exists fuel vm', run fuel (vmst (compile ss) 0 [] 0 [] s) = Val (r, vm') /\
    globals vm' = conv <$> g_globals s' /\ world vm' = g_world s') as (fuel & vm' & Hr & Hw).
  { unfold run_script in Hrun. rewrite M_bind_eq in Hrun. unfold sim in Hsim.
    destruct (exec_list n false false [] ss s) as [[[fl|d'] s1]|]; simplify_eq/=; [|by apply run_fails].
    destruct Hsim as (vm' & Hsteps & Hpost). injection Hrun as <- <-. destruct fl as [locals|v].
    - destruct Hpost as (inner & junk & _ & _ & _ & _ & ->). by eapply run_stops.
    - destruct Hpost as (pc' & σ & Hret' & ->). by eapply run_stops. }
  exists fuel, vm'. split; [|done]. unfold interpret. rewrite M_bind_eq. cbn [modify stack slot_offset call_stack globals world].
  rewrite M_bind_eq. unfold vmst in Hr. rewrite Hr. by destruct r as [[]|].
Qed.

End run.
