(* ===== verification/GinkgoCorrect.v ===== *)
(** * Ginkgo, from the text of a script to its effects

    [run_source] is what [ginkgo/src/main.rs] does with a script: parse it and
    interpret the chunk.  A script that is written out, lexed, parsed and run on
    the virtual machine has the effects its reference semantics gives it.  The
    examples at the end are programs outside of [supported] on which the
    implementation goes wrong. *)

From stdpp Require Import base tactics option list numbers gmap.
From Stdlib Require Import (notations) Ascii String.
From S2P Require Import Prelude Bytes Crates Effects GinkgoLex GinkgoVm GinkgoParse.
From S2P Require Import GinkgoLexCorrect GinkgoParseTotal GinkgoSpec GinkgoParseCorrect GinkgoVmCorrect GinkgoRun.

(** What the user is told: nothing, that the script does not parse, or that it
    stopped with an error. *)
Inductive report := Finished | ParseFailed (d : Diagnostic) | RunFailed (d : VmError).

Section main.
Context `{UnicodeXID} `{Float64} `{Natives}.

Definition run_source (fuel : nat) (source : list Z) (vm : Vm) : outcome (report * Vm) :=
  '(parsed, _) ← parse (Parser_new source);
  match parsed with
  | Ok chunk =>
      '(r, vm) ← interpret fuel chunk vm;
      Val (match r with Ok _ => Finished | Err d => RunFailed d end, vm)
  | Err d => Val (ParseFailed d, vm)
  end.

(** A machine between two scripts that left nothing behind. *)
Definition ready (vm : Vm) (s : genv) : Prop :=
  stack vm = [] /\ call_stack vm = [] /\ slot_offset vm = 0%nat /\
  globals vm = conv <$> g_globals s /\ world vm = g_world s.

(** C6: A supported script, written out with any white space between its tokens, is
    parsed and run as it is meant: whenever its reference semantics ends, the
    virtual machine ends, with the same outcome or error, the same globals and the
    same effects of native functions. *)
Theorem ginkgo_script_correct {xid_spec : UnicodeXIDSpec}
    (ss : stmts) (ws : list Z) (ts : list (tk * list Z)) (n : nat) (s s' : genv) (r : result unit VmError) (vm : Vm)
    (Hts : ts.*1 = sstoks ss)
    (Hws : Forall (fun c => whitespace c = true) ws)
    (Hvalid : Forall (fun '(t, sep) => lexed_token t /\ sep <> [] /\ Forall (fun c => whitespace c = true) sep) ts)
    (Hu : is_usize (str_len (ws ++ spell_all ts)))
    (Hsup : supported ss = true) (Hvm : ready vm s) (Hrun : run_script n ss s = Val (r, s')) :
  exists fuel vm', run_source fuel (ws ++ spell_all ts) vm =
      Val (match r with Ok _ => Finished | Err d => RunFailed d end, vm') /\
    globals vm' = conv <$> g_globals s' /\ world vm' = g_world s'.
Proof.
  assert (lexes (Lex_new (ws ++ spell_all ts)) (sstoks ss)) as Hl.
  { rewrite <- Hts. eapply lexes_spelled; [apply between_new|done..]. }
  destruct (parse_compiles _ Hu ss Hl Hsup) as [p Hp].
  destruct vm as [st c0 i0 so cs g w], Hvm as (Hst & Hcs & Hso & Hg & Hw). simpl in *. subst.
  destruct (interpret_script n ss s r s' c0 i0 Hsup Hrun) as (fuel & vm' & Hi & Hg' & Hw').
  exists fuel, vm'. split; [|done]. unfold run_source. rewrite Hp. obind. rewrite Hi. obind. by destruct r.
Qed.

End main.

(** ** Examples *)

Module GinkgoExamples.

#[local] Existing Instance reference_xid.
#[local] Instance no_floats : Float64 := {| f64 := Empty_set; parse_f64 := fun _ => None |}.
(** Native functions note their arguments. *)
#[local] Instance noting : Natives := {|
  World := list (list Value);
  native := fun _ args w => Val (VUnit, w ++ [args]);
|}.

Definition print : name := str "print".
Definition fresh : Vm := define_native_fn print 0 (Vm_new []).

(** What was printed and the report. *)
Definition printed (o : outcome (report * Vm)) : option (report * list (list Value)) :=
  match o with Val (r, vm) => Some (r, world vm) | Panic => None end.

Definition list_stmts (l : list stmt) : stmts := foldr SCons SNil l.
Definition list_exprs (l : list expr) : exprs := foldr ACons ANil l.
Definition int (s : String.string) : expr := EInt (str s).
Definition var (s : String.string) : expr := EVar (str s).
Definition print_of (e : expr) : stmt := SExpr (ECall (EVar print) (list_exprs [e])).

(** A script with a function, a local, a loop and a conditional:
<<
    fn min ( a , b ) { if a < b { return a ; } else { return b ; } }
    let x = 3 ;
    { let y = ( x + 1 ) * - - x ; print ( y ) ; }
    while 1 <= x { print ( x + min ( x , 2 ) ) ; x = x - 1 ; }
    if x < 1 && ( false || true ) { print ( "done" ) ; }
>> *)
Definition script : stmts := list_stmts [
  SFn (str "min") [str "a"; str "b"] (list_stmts [
    SIfElse (EBin BLt (var "a") (var "b"))
      (list_stmts [SReturn (Some (var "a"))]) (list_stmts [SReturn (Some (var "b"))])]);
  SLet (str "x") (int "3");
  SBlock (list_stmts [
    SLet (str "y") (EBin BMul (EBin BAdd (var "x") (int "1")) (ENeg (ENeg (var "x"))));
    print_of (var "y")]);
  SWhile (EBin BLe (int "1") (var "x")) (list_stmts [
    print_of (EBin BAdd (var "x") (ECall (var "min") (list_exprs [var "x"; int "2"])));
    SExpr (EAssign (str "x") (EBin BSub (var "x") (int "1")))]);
  SIf (EAnd (EBin BLt (var "x") (int "1")) (EOr (EBool false) (EBool true)))
    (list_stmts [print_of (EStr (str "done"))])].

Definition script_tokens : list (tk * list Z) := (fun t => (t, [32])) <$> sstoks script.
Definition start : genv := mkGenv {[print := RNative print 0]} [].
Definition output : list (list Value) :=
  [[VInteger 12]; [VInteger 5]; [VInteger 4]; [VInteger 2]; [string_value (str "done")]].

Definition outcome_world (o : outcome (result unit VmError * genv)) : option (result unit VmError * list (list Value)) :=
  match o with Val (r, s) => Some (r, g_world s) | Panic => None end.
Lemma script_meaning : outcome_world (run_script 20 script start) = Some (Ok tt, output).
Proof. vm_compute. reflexivity. Qed.

Lemma forallb_Forall {A} (f : A -> bool) l : forallb f l = true <-> Forall (fun x => f x = true) l.
Proof. induction l as [|x l IH]; simpl; [done|]. by rewrite andb_true_iff, IH, Forall_cons. Qed.

(** Checking that tokens are valid. *)
Definition lexed_token_dec (t : tk) : bool :=
  match t.1 with
  | TIdentifier =>
      match t.2 with
      | c :: w => is_xid_start c && forallb is_xid_continue w && bool_decide (keyword t.2 = TIdentifier)
      | [] => false
      end
  | TString => forallb (fun c => negb (c =? 34)) t.2
  | TInteger => negb (bool_decide (t.2 = [])) && forallb (is_digit 10) t.2
  | TDecimal => false
  | ty => bool_decide (fixed_text ty = Some t.2)
  end.
Lemma lexed_token_dec_ok t : lexed_token_dec t = true -> lexed_token t.
Proof.
  destruct t as [ty text]. unfold lexed_token_dec, lexed_token. simpl.
  destruct ty; try done; try (by rewrite bool_decide_eq_true).
  - destruct text as [|c w]; [done|]. rewrite !andb_true_iff, bool_decide_eq_true. intros [[Hc Hw] Hk].
    split; [|done]. exists c, w. split; [done|]. split; [by left|]. by apply forallb_Forall.
  - intros Hs. apply forallb_Forall in Hs. eapply Forall_impl; [exact Hs|]. simpl. lia.
  - rewrite andb_true_iff, negb_true_iff, bool_decide_eq_false. intros [Ht Hd]. split; [done|].
    by apply forallb_Forall.
Qed.

Lemma script_tokens_valid :
  Forall (fun '(t, sep) => lexed_token t /\ sep <> [] /\ Forall (fun c => whitespace c = true) sep) script_tokens.
Proof.
  assert (forallb lexed_token_dec (sstoks script) = true) as Hv by (vm_compute; reflexivity).
  apply forallb_Forall in Hv. unfold script_tokens. apply Forall_fmap. eapply Forall_impl; [exact Hv|].
  intros t Ht. simpl. split; [by apply lexed_token_dec_ok|]. split; [done|]. by repeat constructor.
Qed.

(** The script's text is lexed, parsed and run. *)
Lemma ginkgo_script_correct_witness : exists fuel vm',
  run_source fuel (spell_all script_tokens) fresh = Val (Finished, vm') /\ world vm' = output.
Proof.
  destruct (run_script 20 script start) as [[r s']|] eqn:Hrun; [|by vm_compute in Hrun].
  pose proof script_meaning as Hm. rewrite Hrun in Hm. injection Hm as -> Hw.
  destruct (ginkgo_script_correct (xid_spec := reference_xid_spec) script [] script_tokens 20 start s' (Ok tt) fresh)
    as (fuel & vm' & Hr & _ & Hw'); [vm_compute; reflexivity|constructor| |vm_compute; split; [discriminate|reflexivity]
    |vm_compute; reflexivity| |exact Hrun|].
  - apply script_tokens_valid.
  - by unfold ready; split_and!.
  - exists fuel, vm'. split; [exact Hr|]. by rewrite Hw'.
Defined.

(** Lexing on its own. *)
Lemma ginkgo_lex_total_witness :
  lex_all 11 (Lex_new (str "let i = 0;")) ⇓ fun rs => (length rs <= 10)%nat /\ spans_ok (str "let i = 0;") 0 rs.
Proof. apply (ginkgo_lex_total (str "let i = 0;")). vm_compute. split; [discriminate|reflexivity]. Defined.


(** ** Programs on which the implementation goes wrong *)

(** The literal [0] has no second character to look at: [chars().next().unwrap()]
    panics while the script is parsed. *)
Lemma zero_literal_panics fuel : run_source fuel (str "let i = 0;") fresh = Panic.
Proof. vm_compute. reflexivity. Qed.

(** Assigning to a local inserts into the stack instead of overwriting: the next
    local reads the old value of the one before. *)
Lemma set_local_inserts :
  printed (run_source 100 (str "{ let a = 1; let b = 2; a = 5; print(a); print(b); }") fresh) =
    Some (Finished, [[VInteger 5]; [VInteger 1]]).
Proof. vm_compute. reflexivity. Qed.

(** A loop leaves its condition on the stack: a local declared after it reads the
    condition. *)
Lemma while_leaves_condition :
  printed (run_source 100 (str "let i = 1; while i < 2 { i = i + 1; } { let x = 7; print(x); }") fresh) =
    Some (Finished, [[VBool false]]).
Proof. vm_compute. reflexivity. Qed.

(** A function that does not end in [return] runs off the end of its code. *)
Lemma missing_return_panics fuel : run_source fuel (str "fn f() {} f();") fresh = Panic.
Proof. do 8 (destruct fuel as [|fuel]; [vm_compute; reflexivity|]). vm_compute. reflexivity. Qed.

(** A call adds to the base of the caller's frame where it should set the base: a
    function called from a function does not find its arguments. *)
Lemma nested_call_panics fuel :
  run_source fuel (str "fn f(x) { return x; } fn g(x) { return f(x); } { let z = 9; print(g(5)); }") fresh = Panic.
Proof. do 30 (destruct fuel as [|fuel]; [vm_compute; reflexivity|]). vm_compute. reflexivity. Qed.

(** After an error inside a function its frame stays on the call stack: the next
    script, when it ends, goes on with the one that failed. *)
Lemma error_leaves_frames :
  (r ← run_source 100 (str "fn f(x) { return -true; } f(1); print(2);") fresh;
   Val (printed (run_source 100 (str "print(7);") r.2))) =
  Val (Some (Finished, [[VInteger 7]; [VInteger 2]])).
Proof. vm_compute. reflexivity. Qed.

(** A local is in scope in its own initialiser, where it has no value yet. *)
Lemma own_initialiser_panics fuel :
  run_source fuel (str "let x = 1; { let x = x; }") fresh = Panic.
Proof. do 8 (destruct fuel as [|fuel]; [vm_compute; reflexivity|]). vm_compute. reflexivity. Qed.

(** The number of arguments is not checked against the function's arity. *)
Lemma arity_unchecked fuel : run_source fuel (str "fn f(x, y) { return y; } f(1);") fresh = Panic.
Proof. do 10 (destruct fuel as [|fuel]; [vm_compute; reflexivity|]). vm_compute. reflexivity. Qed.

(** An unterminated string silently ends the script. *)
Definition open_string : list Z := str "print(1); " ++ [34] ++ str "abc".
Lemma unterminated_string_ignored :
  printed (run_source 100 open_string fresh) = Some (Finished, [[VInteger 1]]).
Proof. vm_compute. reflexivity. Qed.

End GinkgoExamples.
