(* ===== verification/BipQueue.v ===== *)
(** * [lib/mulch/src/bipqueue.rs]: a lock-free queue between two threads

    A [BipQueue] is shared by a producer and a consumer that run concurrently.
    An operation is a program of atomic accesses ([prog]); the two threads'
    accesses interleave in any order ([step]).  The bytes of a granted buffer are
    accessed by its holder at any time between. *)

From stdpp Require Import base tactics option list numbers relations.
From S2P Require Import Prelude.

(** ** The queue *)

Record BipQueue := mkBipQueue {
  (** [N] bytes. *)
  storage : list Z;
  q_read : nat;
  q_write : nat;
  reserve : nat;
  watermark : nat;
  read_granted : bool;
  write_granted : bool;
}.

Inductive Error := AlreadyGranted | NotEnoughSpace | NoBytes.

(** The atomic variables, and the accesses the operations make. *)
Inductive word := Read | Write | Reserve | Watermark.
Inductive flag := ReadGranted | WriteGranted.

Inductive atomic : Type -> Type :=
  | load (x : word) : atomic nat
  | store (x : word) (v : nat) : atomic unit
  | fetch_add (x : word) (v : nat) : atomic nat
  | fetch_sub (x : word) (v : nat) : atomic nat
  | swap (f : flag) (b : bool) : atomic bool
  | set (f : flag) (b : bool) : atomic unit.

Inductive prog (A : Type) : Type :=
  | Ret (a : A)
  | Act {B : Type} (c : atomic B) (k : B -> prog A)
  | Crash.
Arguments Ret {A} a.
Arguments Act {A B} c k.
Arguments Crash {A}.

Fixpoint prog_bind {A B} (p : prog A) (f : A -> prog B) : prog B :=
  match p with
  | Ret a => f a
  | Act c k => Act c (fun b => prog_bind (k b) f)
  | Crash => Crash
  end.
#[global] Instance prog_mret : MRet prog := @Ret.
#[global] Instance prog_mbind : MBind prog := fun A B f p => prog_bind p f.
Definition act {B} (c : atomic B) : prog B := Act c Ret.

Definition get_word (x : word) (q : BipQueue) : nat :=
  match x with Read => q_read q | Write => q_write q | Reserve => reserve q | Watermark => watermark q end.
Definition set_word (x : word) (v : nat) (q : BipQueue) : BipQueue :=
  match x with
  | Read => mkBipQueue (storage q) v (q_write q) (reserve q) (watermark q) (read_granted q) (write_granted q)
  | Write => mkBipQueue (storage q) (q_read q) v (reserve q) (watermark q) (read_granted q) (write_granted q)
  | Reserve => mkBipQueue (storage q) (q_read q) (q_write q) v (watermark q) (read_granted q) (write_granted q)
  | Watermark => mkBipQueue (storage q) (q_read q) (q_write q) (reserve q) v (read_granted q) (write_granted q)
  end.
Definition get_flag (f : flag) (q : BipQueue) : bool :=
  match f with ReadGranted => read_granted q | WriteGranted => write_granted q end.
Definition set_flag (f : flag) (b : bool) (q : BipQueue) : BipQueue :=
  match f with
  | ReadGranted => mkBipQueue (storage q) (q_read q) (q_write q) (reserve q) (watermark q) b (write_granted q)
  | WriteGranted => mkBipQueue (storage q) (q_read q) (q_write q) (reserve q) (watermark q) (read_granted q) b
  end.
Definition set_storage (s : list Z) (q : BipQueue) : BipQueue :=
  mkBipQueue s (q_read q) (q_write q) (reserve q) (watermark q) (read_granted q) (write_granted q).

(** [fetch_add] and [fetch_sub] wrap around. *)
Definition perform {B} (c : atomic B) (q : BipQueue) : B * BipQueue :=
  match c with
  | load x => (get_word x q, q)
  | store x v => (tt, set_word x v q)
  | fetch_add x v => (get_word x q, set_word x (Z.to_nat ((Z.of_nat (get_word x q) + Z.of_nat v) mod 2 ^ 64)) q)
  | fetch_sub x v => (get_word x q, set_word x (Z.to_nat ((Z.of_nat (get_word x q) - Z.of_nat v) mod 2 ^ 64)) q)
  | swap f b => (get_flag f q, set_flag f b q)
  | set f b => (tt, set_flag f b q)
  end.

(** A granted part of the storage: where it starts, and how long it is. *)
Record Grant := mkGrant { g_start : nat; g_length : nat }.

Definition slice (s : list Z) (a b : nat) : list Z := take (b - a) (drop a s).
Definition buffer (q : BipQueue) (g : Grant) : list Z :=
  slice (storage q) (g_start g) (g_start g + g_length g).

Section operations.
Context (N : nat).

Definition BipQueue_new (uninit : list Z) : BipQueue := mkBipQueue uninit 0 0 0 N false false.

(** [usize] addition, with its overflow check. *)
Definition add (a b : nat) : prog nat :=
  if Z.of_nat a + Z.of_nat b <? 2 ^ 64 then mret (a + b)%nat else Crash.

(** [BipQueue::grant]. *)
Definition grant (length : nat) : prog (result Grant Error) :=
  granted ← act (swap WriteGranted true);
  if granted : bool then mret (Err AlreadyGranted)
  else
    read ← act (load Read);
    write ← act (load Write);
    sum ← add write length;
    start ← mret
      (if (write <? read)%nat then
         if (sum <? read)%nat then Some write else None
       else if (sum <=? N)%nat then Some write
       else if (length <? read)%nat then Some 0%nat
       else None);
    match start with
    | Some start =>
        e ← add start length;
        _ ← act (store Reserve e);
        mret (Ok (mkGrant start length))
    | None => _ ← act (set WriteGranted false); mret (Err NotEnoughSpace)
    end.

(** [BipQueue::read]. *)
Definition read_grant : prog (result Grant Error) :=
  granted ← act (swap ReadGranted true);
  if granted : bool then mret (Err AlreadyGranted)
  else
    read ← act (load Read);
    write ← act (load Write);
    watermark ← act (load Watermark);
    _ ← (if (write <? read)%nat && (read =? watermark)%nat then act (store Read 0) else mret tt);
    length ← (if (write <? read)%nat then
                if (read <=? watermark)%nat then mret (watermark - read)%nat else Crash
              else mret (write - read)%nat);
    if (length =? 0)%nat then _ ← act (set ReadGranted false); mret (Err NoBytes)
    else mret (Ok (mkGrant read length)).

(** [WriteGrant::drop], [ReadGrant::drop]. *)
Definition drop_write : prog unit := act (set WriteGranted false).
Definition drop_read : prog unit := act (set ReadGranted false).

(** [WriteGrant::commit], which ends with dropping the grant. *)
Definition commit (g : Grant) (written : nat) : prog unit :=
  let written := Nat.min written (g_length g) in
  write ← act (load Write);
  _ ← act (fetch_sub Reserve (g_length g - written));
  watermark ← act (load Watermark);
  new_write ← act (load Reserve);
  _ ← (if (new_write <? write)%nat && negb (write =? N)%nat then act (store Watermark write)
       else if (watermark <? new_write)%nat then act (store Watermark N)
       else mret tt);
  _ ← act (store Write new_write);
  _ ← act (set WriteGranted false);
  drop_write.

(** [ReadGrant::release], which ends with dropping the grant. *)
Definition release (g : Grant) (read : nat) : prog unit :=
  let read := Nat.min read (g_length g) in
  _ ← act (fetch_add Read read);
  _ ← act (set ReadGranted false);
  drop_read.

(** ** Two threads *)

(** What a thread is doing: nothing, asking for a grant, holding one, or giving it
    back. *)
Inductive thread :=
  | Idle
  | Asking (p : prog (result Grant Error))
  | Holding (g : Grant)
  | Returning (p : prog unit).

(** The queue, its two users, and what these have seen: the bytes committed and
    the bytes released so far. *)
Record system := mkSystem {
  queue : BipQueue;
  producer : thread;
  consumer : thread;
  sent : list Z;
  received : list Z;
}.

Definition start (uninit : list Z) : system := mkSystem (BipQueue_new uninit) Idle Idle [] [].

(** One access of a thread. *)
Inductive accesses : BipQueue -> thread -> BipQueue -> thread -> Prop :=
  | access_asking q B (c : atomic B) k :
      accesses q (Asking (Act c k)) (perform c q).2 (Asking (k (perform c q).1))
  | access_returning q B (c : atomic B) k :
      accesses q (Returning (Act c k)) (perform c q).2 (Returning (k (perform c q).1))
  | granted q g : accesses q (Asking (Ret (Ok g))) q (Holding g)
  | refused q e : accesses q (Asking (Ret (Err e))) q Idle
  | returned q u : accesses q (Returning (Ret u)) q Idle.

(** A step of the system: a thread goes on, or it calls an operation.  The
    producer asks for any length that does not overflow, fills its buffer in any
    order, and commits any number of bytes or none; the consumer releases any
    number of bytes. *)
Inductive step : system -> system -> Prop :=
  | producer_step q t q' t' c s r :
      accesses q t q' t' -> step (mkSystem q t c s r) (mkSystem q' t' c s r)
  | consumer_step q p t q' t' s r :
      accesses q t q' t' -> step (mkSystem q p t s r) (mkSystem q' p t' s r)
  | call_grant q c s r length :
      Z.of_nat N + Z.of_nat length < 2 ^ 64 ->
      step (mkSystem q Idle c s r) (mkSystem q (Asking (grant length)) c s r)
  | fill q g c s r i b :
      (i < g_length g)%nat ->
      step (mkSystem q (Holding g) c s r)
           (mkSystem (set_storage (<[(g_start g + i)%nat := b]> (storage q)) q) (Holding g) c s r)
  | call_commit q g c s r written :
      step (mkSystem q (Holding g) c s r)
           (mkSystem q (Returning (commit g written)) c (s ++ take written (buffer q g)) r)
  | call_drop_write q g c s r :
      step (mkSystem q (Holding g) c s r) (mkSystem q (Returning drop_write) c s r)
  | call_read q p s r :
      step (mkSystem q p Idle s r) (mkSystem q p (Asking read_grant) s r)
  | call_release q p g s r n :
      step (mkSystem q p (Holding g) s r)
           (mkSystem q p (Returning (release g n)) s (r ++ take n (buffer q g)))
  | call_drop_read q p g s r :
      step (mkSystem q p (Holding g) s r) (mkSystem q p (Returning drop_read) s r).

Definition reachable (uninit : list Z) : system -> Prop := rtc step (start uninit).

End operations.

(** ** What the queue holds *)

Definition content (q : BipQueue) : list Z :=
  if (q_write q <? q_read q)%nat
  then slice (storage q) (q_read q) (watermark q) ++ slice (storage q) 0 (q_write q)
  else slice (storage q) (q_read q) (q_write q).

(** Where the region that is read next ends. *)
Definition region_end (q : BipQueue) : nat :=
  if (q_write q <? q_read q)%nat then watermark q else q_write q.

Lemma slice_nil s a b : (b <= a)%nat -> slice s a b = [].
Proof. intros. unfold slice. by replace (b - a)%nat with 0%nat by lia. Qed.
Lemma slice_length s a b : (b <= length s)%nat -> length (slice s a b) = (b - a)%nat.
Proof. intros. unfold slice. rewrite length_take, length_drop. lia. Qed.
Lemma slice_app s a b c : (a <= b <= c)%nat -> slice s a c = slice s a b ++ slice s b c.
Proof.
  intros. unfold slice. replace (c - a)%nat with ((b - a) + (c - b))%nat by lia.
  rewrite <- take_take_drop, drop_drop. by replace (a + (b - a))%nat with b by lia.
Qed.
Lemma slice_take s a b n : take n (slice s a b) = slice s a (Nat.min b (a + n)).
Proof. unfold slice. rewrite take_take. f_equal. lia. Qed.
Lemma slice_insert s a b i x : ~ (a <= i < b)%nat -> slice (<[i := x]> s) a b = slice s a b.
Proof.
  intros Hi. unfold slice. destruct (decide (i < a)%nat).
  - by rewrite drop_insert_lt by lia.
  - rewrite drop_insert_ge by lia. by rewrite take_insert_ge by lia.
Qed.

Lemma add_in a b : Z.of_nat a + Z.of_nat b < 2 ^ 64 -> add a b = Ret (a + b)%nat.
Proof. intros. unfold add. by replace (_ <? _) with true by lia. Qed.

(** ** Programs that run beside others

    [wp R G p φ q pend]: from the queue [q], with the others making changes in
    [R], every access of [p] is allowed by [G] and [p] ends in [φ].  [pend] is what
    the thread has promised to add or to remove and not done yet. *)

Section logic.
Context (R : BipQueue -> BipQueue -> Prop) (G : BipQueue -> list Z -> BipQueue -> list Z -> Prop).

Fixpoint wp {A} (p : prog A) (φ : A -> BipQueue -> list Z -> Prop) (q : BipQueue) (pend : list Z) : Prop :=
  match p with
  | Ret a => forall q1, R q q1 -> φ a q1 pend
  | Act c k => forall q1, R q q1 -> exists pend',
      G q1 pend (perform c q1).2 pend' /\ wp (k (perform c q1).1) φ (perform c q1).2 pend'
  | Crash => False
  end.

Context `{!Transitive R}.

Lemma wp_rely {A} (p : prog A) φ q q1 pend : R q q1 -> wp p φ q pend -> wp p φ q1 pend.
Proof. destruct p; simpl; [..|done]; intros HR H q2 H2; apply H; by etrans. Qed.

Lemma wp_bind {A B} (p : prog A) (f : A -> prog B) φ : forall q pend,
  wp p (fun a q pend => wp (f a) φ q pend) q pend -> (forall q, R q q) -> wp (p ≫= f) φ q pend.
Proof.
  induction p as [a|B' c k IH|]; cbn; intros q pend Hp Hrefl; [|intros q1 H1|done].
  - eapply Hp, Hrefl.
  - destruct (Hp q1 H1) as (pend' & HG & Hk). eauto.
Qed.

End logic.

(** ** The invariant of the queue *)

Section proofs.
Context (N : nat) (HN : Z.of_nat N < 2 ^ 64).

Definition inv (q : BipQueue) : Prop :=
  length (storage q) = N /\ (q_write q <= watermark q)%nat /\ (q_read q <= watermark q)%nat /\
  (watermark q <= N)%nat.

(** What the consumer may do while the producer runs, and the other way round. *)
Definition consumer_moves (q q' : BipQueue) : Prop := inv q ->
  inv q' /\ storage q' = storage q /\ q_write q' = q_write q /\ reserve q' = reserve q /\
  watermark q' = watermark q /\ write_granted q' = write_granted q /\
  ((q_read q <= q_write q)%nat -> (q_read q <= q_read q' <= q_write q)%nat) /\
  ((q_write q < q_read q)%nat -> (q_read q <= q_read q' \/ q_read q' <= q_write q)%nat).

Definition producer_moves (q q' : BipQueue) : Prop := inv q ->
  inv q' /\ q_read q' = q_read q /\ read_granted q' = read_granted q /\
  ((q_write q < q_read q)%nat -> (q_write q' < q_read q)%nat /\ watermark q' = watermark q) /\
  (region_end q <= region_end q')%nat /\ content q `prefix_of` content q'.

(** With what they do to the content: the producer adds what it has pending, the
    consumer removes it. *)
Definition producer_acts (q : BipQueue) (pend : list Z) (q' : BipQueue) (pend' : list Z) : Prop :=
  inv q -> producer_moves q q' /\ content q ++ pend = content q' ++ pend'.
Definition consumer_acts (q : BipQueue) (pend : list Z) (q' : BipQueue) (pend' : list Z) : Prop :=
  inv q -> consumer_moves q q' /\ forall rest, content q = pend ++ rest -> content q' = pend' ++ rest.

#[local] Instance consumer_moves_trans : Transitive consumer_moves.
Proof.
  intros q1 q2 q3 H12 H23 Hi. destruct (H12 Hi) as (Hi2 & ? & ? & ? & ? & ? & H1 & H2).
  destruct (H23 Hi2) as (Hi3 & ? & ? & ? & ? & ? & H1' & H2'). unfold inv in *.
  split_and!; try congruence; lia.
Qed.
#[local] Instance producer_moves_trans : Transitive producer_moves.
Proof.
  intros q1 q2 q3 H12 H23 Hi. destruct (H12 Hi) as (Hi2 & ? & ? & H1 & ? & ?).
  destruct (H23 Hi2) as (Hi3 & ? & ? & H1' & ? & ?).
  split; [done|]. split; [congruence|]. split; [congruence|]. split; [|split; [lia|by etrans]].
  intros Hw. destruct (H1 Hw). destruct H1'; [lia|]. split; [lia|congruence].
Qed.
Lemma consumer_moves_refl q : consumer_moves q q.
Proof. intros Hi. split_and!; try done; lia. Qed.
Lemma producer_moves_refl q : producer_moves q q.
Proof. intros Hi. split_and!; try done; lia. Qed.

(** *** What holding a grant means *)

(** The buffer lies behind [q_write], or at the front with the readable region
    behind it. *)
Definition room (g : Grant) (q : BipQueue) : Prop :=
  g_start g = q_write q /\ (q_write q + g_length g <= N)%nat /\
    ((q_write q < q_read q)%nat -> (q_write q + g_length g < q_read q)%nat) \/
  g_start g = 0%nat /\ (q_read q <= q_write q)%nat /\ (g_length g < q_read q)%nat.
Definition may_write (g : Grant) (q : BipQueue) : Prop :=
  reserve q = (g_start g + g_length g)%nat /\ room g q.

Definition may_read (g : Grant) (q : BipQueue) : Prop :=
  q_read q = g_start g /\ (g_start g + g_length g <= region_end q)%nat.

Lemma room_stable g q q' : inv q -> consumer_moves q q' -> room g q -> room g q'.
Proof.
  intros Hi Hm Hg. destruct (Hm Hi) as (Hi' & ? & Hw & Hres & Hwm & _ & H1 & H2). unfold inv, room in *.
  rewrite Hw. destruct Hg as [(? & ? & ?)|(? & ? & ?)]; [left|right]; lia.
Qed.
Lemma may_write_stable g q q' : inv q -> consumer_moves q q' -> may_write g q -> may_write g q'.
Proof.
  intros Hi Hm (Hr & Hg). split; [|by apply (room_stable g q q')]. by destruct (Hm Hi) as (_ & _ & _ & -> & _).
Qed.
Lemma may_read_stable g q q' : inv q -> producer_moves q q' -> may_read g q -> may_read g q'.
Proof. intros Hi Hm (Hr & Hg). destruct (Hm Hi) as (Hi' & ? & ? & ? & ? & ?). split; [congruence|lia]. Qed.

(** What may be read is the beginning of the content. *)
Lemma may_read_content g q : inv q -> may_read g q -> buffer q g = take (g_length g) (content q).
Proof.
  intros (Hl & ? & ? & ?) (Hr & Hg). unfold buffer, content, region_end in *. rewrite <- Hr in *.
  destruct (q_write q <? q_read q)%nat eqn:E.
  - rewrite (slice_app _ _ (q_read q + g_length g) (watermark q)) by lia. rewrite <- app_assoc.
    rewrite take_app_length'; [done|]. rewrite slice_length; lia.
  - apply Nat.ltb_ge in E. rewrite (slice_app _ _ (q_read q + g_length g) (q_write q)) by lia.
    rewrite take_app_length'; [done|]. rewrite slice_length; lia.
Qed.

(** The buffers of the two threads do not overlap. *)
Lemma grants_disjoint gp gc q i : inv q -> may_write gp q -> may_read gc q ->
  ~ ((g_start gp <= i < g_start gp + g_length gp)%nat /\ (g_start gc <= i < g_start gc + g_length gc)%nat).
Proof.
  intros (? & ? & ? & ?) (_ & Hp) (Hr & Hc). unfold region_end, room in *.
  destruct (Nat.ltb_spec (q_write q) (q_read q)); lia.
Qed.

(** Filling a buffer leaves the content alone. *)
Lemma content_fill g q i b : inv q -> may_write g q -> (i < g_length g)%nat ->
  content (set_storage (<[(g_start g + i)%nat := b]> (storage q)) q) = content q.
Proof.
  intros (? & ? & ? & ?) (_ & Hg) Hi. unfold content, room in *. cbn [storage q_read q_write watermark set_storage].
  destruct (q_write q <? q_read q)%nat eqn:E.
  - apply Nat.ltb_lt in E. by rewrite !slice_insert by lia.
  - apply Nat.ltb_ge in E. by rewrite slice_insert by lia.
Qed.

(** ** The operations keep to this *)

Lemma inv_same q q' :
  storage q' = storage q -> q_read q' = q_read q -> q_write q' = q_write q -> watermark q' = watermark q ->
  inv q -> inv q' /\ content q' = content q /\ region_end q' = region_end q.
Proof. unfold inv, content, region_end. by intros -> -> -> ->. Qed.

Lemma producer_acts_same q q' pend :
  storage q' = storage q -> q_read q' = q_read q -> q_write q' = q_write q -> watermark q' = watermark q ->
  read_granted q' = read_granted q -> producer_acts q pend q' pend.
Proof.
  intros E1 E2 E3 E4 E6 Hi. destruct (inv_same q q' E1 E2 E3 E4 Hi) as (Hi' & Hc & He). split; [|by rewrite Hc].
  intros _. rewrite E2, E3, E4, Hc, He. split_and!; try done; lia.
Qed.
Lemma consumer_acts_same q q' pend :
  storage q' = storage q -> q_read q' = q_read q -> q_write q' = q_write q -> reserve q' = reserve q ->
  watermark q' = watermark q -> write_granted q' = write_granted q -> consumer_acts q pend q' pend.
Proof.
  intros E1 E2 E3 E5 E4 E6 Hi. destruct (inv_same q q' E1 E2 E3 E4 Hi) as (Hi' & Hc & He). split; [|by rewrite Hc].
  intros _. rewrite E2, E3, E4, E5. split_and!; try done; lia.
Qed.

(** One access: the others' changes before it, and that it is allowed. *)
Lemma wp_act {A B} R G (c : atomic B) (k : B -> prog A) φ q pend :
  (forall q1, R q q1 -> exists pend', G q1 pend (perform c q1).2 pend' /\
     wp R G (k (perform c q1).1) φ (perform c q1).2 pend') ->
  wp R G (act c ≫= k) φ q pend.
Proof. done. Qed.

Definition granted_write (r : result Grant Error) (q : BipQueue) (pend : list Z) : Prop :=
  pend = [] /\ match r with Ok g => may_write g q | Err e => e <> AlreadyGranted /\ write_granted q = false end.
Definition granted_read (r : result Grant Error) (q : BipQueue) (pend : list Z) : Prop :=
  pend = [] /\ match r with Ok g => may_read g q | Err e => e <> AlreadyGranted /\ read_granted q = false end.
Definition returned_write {A} (_ : A) (q : BipQueue) (pend : list Z) : Prop := pend = [] /\ write_granted q = false.
Definition returned_read {A} (_ : A) (q : BipQueue) (pend : list Z) : Prop := pend = [] /\ read_granted q = false.

(** A value of [q_read] seen by the producer, after the consumer has gone on. *)
Definition seen_read (rd : nat) (q : BipQueue) : Prop :=
  (rd <= watermark q)%nat /\ ((rd <= q_write q)%nat -> (rd <= q_read q <= q_write q)%nat) /\
  ((q_write q < rd)%nat -> (rd <= q_read q \/ q_read q <= q_write q)%nat).

Lemma seen_read_moves rd q q' : inv q -> consumer_moves q q' -> seen_read rd q -> seen_read rd q'.
Proof.
  intros Hi Hm (H1 & H2 & H3). destruct (Hm Hi) as (Hi' & ? & Hw & ? & Hwm & _ & ? & ?). unfold seen_read, inv in *.
  rewrite Hw, Hwm. lia.
Qed.

(** Where [grant] finds room there is room. *)
Lemma grant_room length rd q start :
  inv q -> seen_read rd q -> 
  (if (q_write q <? rd)%nat then if (q_write q + length <? rd)%nat then Some (q_write q) else None
   else if (q_write q + length <=? N)%nat then Some (q_write q)
   else if (length <? rd)%nat then Some 0%nat else None) = Some start ->
  may_write (mkGrant start length) (set_word Reserve (start + length) q).
Proof.
  intros (? & ? & ? & ?) (Hs1 & Hs2 & Hs3) Hs. unfold may_write, room. simpl.
  destruct (Nat.ltb_spec (q_write q) rd), (Nat.ltb_spec (q_write q + length) rd),
    (Nat.leb_spec (q_write q + length) N), (Nat.ltb_spec length rd); simplify_eq; lia.
Qed.

Lemma grant_wp length q :
  Z.of_nat N + Z.of_nat length < 2 ^ 64 -> inv q -> write_granted q = false ->
  wp consumer_moves producer_acts (grant N length) granted_write q [].
Proof.
  intros Hlen Hi Hfree. unfold grant. apply wp_act. intros q1 HR1. exists []. split; [by apply producer_acts_same|].
  cbn [perform fst snd get_flag set_flag]. set (q1' := mkBipQueue _ _ _ _ _ _ _).
  destruct (HR1 Hi) as (Hi1 & _ & _ & _ & _ & -> & _). assert (inv q1') as Hi1' by done. rewrite Hfree.
  apply wp_act. intros q2 HR2. exists []. split; [by apply producer_acts_same|]. cbn [perform fst snd get_word].
  destruct (HR2 Hi1') as (Hi2 & _).
  assert (seen_read (q_read q2) q2) as Hseen by (destruct Hi2 as (? & ? & ? & ?); unfold seen_read; lia).
  apply wp_act. intros q3 HR3. exists []. split; [by apply producer_acts_same|]. cbn [perform fst snd get_word].
  destruct (HR3 Hi2) as (Hi3 & _). apply (seen_read_moves _ _ q3 Hi2 HR3) in Hseen.
  pose proof Hi3 as (Hl3 & ? & ? & ?). rewrite add_in by lia.
  cbn [mret prog_mret mbind prog_mbind prog_bind].
  destruct (if (q_write q3 <? q_read q2)%nat then _ else _) as [start|] eqn:Es.
  - assert (start <= N)%nat as Hstart by (repeat case_match; simplify_eq; lia).
    rewrite add_in by lia. cbn [mret prog_mret mbind prog_mbind prog_bind].
    intros q4 HR4. exists []. split; [by apply producer_acts_same|]. cbn [perform fst snd].
    destruct (HR4 Hi3) as (Hi4 & _ & Hw4 & _). rewrite <- Hw4 in Es.
    apply (seen_read_moves _ _ q4 Hi3 HR4) in Hseen. pose proof (grant_room _ _ q4 _ Hi4 Hseen Es) as Hg.
    intros q5 HR5. split; [done|]. by eapply may_write_stable; [|exact HR5|].
  - intros q4 HR4. exists []. split; [by apply producer_acts_same|]. destruct (HR4 Hi3) as (Hi4 & _).
    intros q5 HR5. split; [done|]. split; [done|]. by destruct (HR5 Hi4) as (_ & _ & _ & _ & _ & -> & _).
Qed.

(** Committing [w] bytes: [Write] is stored after [Watermark]. *)
Lemma store_write_acts g w q :
  inv q -> room g q -> (w <= g_length g)%nat ->
  (if (g_start g + w <? q_write q)%nat then watermark q = q_write q else (g_start g + w <= watermark q)%nat) ->
  producer_acts q (slice (storage q) (g_start g) (g_start g + w)) (set_word Write (g_start g + w) q) [].
Proof.
  intros Hi Hg Hw Hwm _. unfold producer_moves, inv, content, region_end, room in *. simpl.
  destruct Hi as (Hl & ? & ? & ?).
  destruct Hg as [(Hs & ? & ?)|(Hs & ? & ?)]; rewrite Hs in *.
  - replace (q_write q + w <? q_write q)%nat with false in Hwm by (symmetry; apply Nat.ltb_ge; lia).
    destruct (Nat.ltb_spec (q_write q) (q_read q)), (Nat.ltb_spec (q_write q + w) (q_read q)); try lia.
    + rewrite (slice_app _ 0 (q_write q) (q_write q + w)), !app_nil_r, <- !app_assoc by lia.
      split; [|done]. intros _. split_and!; try done; try lia. rewrite app_assoc. by apply prefix_app_r.
    + rewrite (slice_app _ (q_read q) (q_write q) (q_write q + w)), app_nil_r by lia.
      split; [|done]. intros _. split_and!; try done; try lia. by apply prefix_app_r.
  - replace (0 + w <? q_write q)%nat with true in Hwm by (symmetry; apply Nat.ltb_lt; lia).
    replace (q_write q <? q_read q)%nat with false by (symmetry; apply Nat.ltb_ge; lia).
    replace (0 + w <? q_read q)%nat with true by (symmetry; apply Nat.ltb_lt; lia).
    rewrite Hwm, app_nil_r. split; [|done]. intros _. split_and!; try done; try lia. by apply prefix_app_r.
Qed.

(** Moving the watermark where there is one region changes nothing. *)
Lemma store_watermark_acts q v pend :
  inv q -> (q_read q <= q_write q <= v)%nat -> (v <= N)%nat ->
  producer_acts q pend (set_word Watermark v q) pend /\ inv (set_word Watermark v q).
Proof.
  intros (Hl & ? & ? & ?) Hv HvN. unfold producer_acts, producer_moves, inv, content, region_end. simpl.
  replace (q_write q <? q_read q)%nat with false by (symmetry; apply Nat.ltb_ge; lia).
  split_and!; try done; try lia. intros _. split; [|done]. intros _. split_and!; try done; try lia.
Qed.

Lemma drop_write_wp q : inv q -> wp consumer_moves producer_acts drop_write returned_write q [].
Proof.
  intros Hi q1 HR1. destruct (HR1 Hi) as (Hi1 & _). exists []. split; [by apply producer_acts_same|].
  intros q2 HR2. split; [done|]. by destruct (HR2 Hi1) as (_ & _ & _ & _ & _ & -> & _).
Qed.

Lemma take_buffer q g n : take n (buffer q g) = slice (storage q) (g_start g) (g_start g + Nat.min n (g_length g)).
Proof. unfold buffer. rewrite slice_take. f_equal. lia. Qed.

(** A thread's own variables, after the other thread has gone on. *)
Definition mine (s : list Z) (w r m : nat) (g : Grant) (q : BipQueue) : Prop :=
  inv q /\ room g q /\ storage q = s /\ q_write q = w /\ reserve q = r /\ watermark q = m.
Lemma mine_stable s w r m g q q' : consumer_moves q q' -> mine s w r m g q -> mine s w r m g q'.
Proof.
  intros Hm (Hi & Hg & ? & ? & ? & ?). destruct (Hm Hi) as (Hi' & ? & ? & ? & ? & _).
  split; [done|]. split; [by apply (room_stable g q q')|]. split_and!; congruence.
Qed.

(** The second half of [commit]: publish what was written. *)
Lemma publish_wp g w q s wr m :
  mine s wr (g_start g + w) m g q -> (w <= g_length g)%nat ->
  wp consumer_moves producer_acts
    (_ ← (if (g_start g + w <? wr)%nat && negb (wr =? N)%nat then act (store Watermark wr)
          else if (m <? g_start g + w)%nat then act (store Watermark N) else mret tt);
     _ ← act (store Write (g_start g + w));
     _ ← act (set WriteGranted false);
     drop_write)
    returned_write q (slice s (g_start g) (g_start g + w)).
Proof.
  intros Hm Hw.
  assert (forall q m', mine s wr (g_start g + w) m' g q ->
    (if (g_start g + w <? wr)%nat then m' = wr else (g_start g + w <= m')%nat) ->
    wp consumer_moves producer_acts
      (_ ← act (store Write (g_start g + w)); _ ← act (set WriteGranted false); drop_write)
      returned_write q (slice s (g_start g) (g_start g + w))) as Hrest.
  { intros q1 m' Hm1 Hc. apply wp_act. intros q2 HR2. apply (mine_stable _ _ _ _ _ _ _ HR2) in Hm1.
    destruct Hm1 as (Hi2 & Hg2 & <- & <- & Hr2 & <-). exists []. split; [by apply store_write_acts|].
    destruct (store_write_acts g w q2 Hi2 Hg2 Hw Hc Hi2) as [Hmv _]. destruct (Hmv Hi2) as [Hi3 _].
    apply wp_act. intros q3 HR3. exists []. split; [by apply producer_acts_same|]. apply drop_write_wp.
    by destruct (HR3 Hi3). }
  destruct Hm as (Hi & Hg & Hs & Hwr & Hr & Hmm). pose proof Hi as (Hl & ? & ? & ?).
  destruct (Nat.ltb_spec (g_start g + w) wr) as [Hlt|Hge]; cbn [andb].
  - destruct (Nat.eqb_spec wr N) as [->|Hne]; cbn [negb].
    + replace (m <? g_start g + w)%nat with false by (symmetry; apply Nat.ltb_ge; lia). apply (Hrest q m); [done|lia].
    + apply wp_act. intros q1 HR1. 
      assert (mine s wr (g_start g + w) m g q1) as (Hi1 & Hg1 & ? & ? & ? & ?) by (by eapply mine_stable; [exact HR1|]).
      assert (q_read q1 <= q_write q1)%nat as Hone by (destruct Hg1 as [(? & ? & ?)|(? & ? & ?)]; lia).
      destruct Hi1 as (? & ? & ? & ?).
      destruct (store_watermark_acts q1 wr (slice s (g_start g) (g_start g + w))) as [Ha Hi2]; [done|lia|lia|].
      eexists. split; [done|]. apply (Hrest _ wr); [|done]. split_and!; try done. 
  - destruct (Nat.ltb_spec m (g_start g + w)).
    + apply wp_act. intros q1 HR1. 
      assert (mine s wr (g_start g + w) m g q1) as (Hi1 & Hg1 & ? & ? & ? & ?) by (by eapply mine_stable; [exact HR1|]).
      pose proof Hi1 as (? & ? & ? & ?).
      assert (q_read q1 <= q_write q1)%nat as Hone by (destruct Hg1 as [(? & ? & ?)|(? & ? & ?)]; lia).
      destruct (store_watermark_acts q1 N (slice s (g_start g) (g_start g + w))) as [Ha Hi2]; [done|lia|lia|].
      eexists. split; [done|]. apply (Hrest _ N); [split_and!; try done|].
      destruct Hg1 as [(? & ? & ?)|(? & ? & ?)]; lia.
    + by apply (Hrest q m).
Qed.

Lemma commit_wp g written q :
  inv q -> may_write g q ->
  wp consumer_moves producer_acts (commit N g written) returned_write q (take written (buffer q g)).
Proof.
  intros Hi [Hres Hroom]. rewrite take_buffer. unfold commit. set (w := Nat.min written (g_length g)).
  assert (mine (storage q) (q_write q) (g_start g + g_length g) (watermark q) g q) as Hm by done.
  apply wp_act. intros q1 HR1. apply (mine_stable _ _ _ _ _ _ _ HR1) in Hm.
  eexists. split; [by apply producer_acts_same|]. cbn [perform fst snd get_word].
  replace (q_write q1) with (q_write q) by (symmetry; apply Hm).
  apply wp_act. intros q2 HR2. apply (mine_stable _ _ _ _ _ _ _ HR2) in Hm.
  eexists. split; [by apply producer_acts_same|]. cbn [perform fst snd get_word].
  assert (mine (storage q) (q_write q) (g_start g + w) (watermark q) g
    (set_word Reserve (Z.to_nat ((Z.of_nat (reserve q2) - Z.of_nat (g_length g - w)) mod 2 ^ 64)) q2)) as Hm2.
  { destruct Hm as (Hi2 & Hg2 & ? & ? & Hr & ?). pose proof Hi2 as (? & ? & ? & ?).
    assert (g_start g + g_length g <= N)%nat by (destruct Hg2 as [(? & ? & ?)|(? & ? & ?)]; lia).
    split_and!; try done. simpl. rewrite Hr, Z.mod_small by lia. lia. }
  apply wp_act. intros q3 HR3. apply (mine_stable _ _ _ _ _ _ _ HR3) in Hm2.
  eexists. split; [by apply producer_acts_same|]. cbn [perform fst snd get_word].
  replace (watermark q3) with (watermark q) by (symmetry; apply Hm2).
  apply wp_act. intros q4 HR4. apply (mine_stable _ _ _ _ _ _ _ HR4) in Hm2.
  eexists. split; [by apply producer_acts_same|]. cbn [perform fst snd get_word].
  replace (reserve q4) with (g_start g + w)%nat by (symmetry; apply Hm2).
  apply publish_wp; [done|lia].
Qed.

(** *** The consumer *)

Lemma wrap_acts q :
  inv q -> (q_write q < q_read q)%nat -> q_read q = watermark q ->
  consumer_acts q [] (set_word Read 0 q) [].
Proof.
  intros Hi Hlt He _. destruct Hi as (Hl & ? & ? & ?). split.
  - intros _. unfold inv. simpl. split_and!; try done; lia.
  - intros rest. unfold content. simpl. replace (q_write q <? q_read q)%nat with true by (symmetry; by apply Nat.ltb_lt).
    by rewrite slice_nil by lia.
Qed.

Lemma read_grant_wp q :
  inv q -> read_granted q = false -> wp producer_moves consumer_acts read_grant granted_read q [].
Proof.
  intros Hi Hfree. unfold read_grant. apply wp_act. intros q1 HR1. exists []. split; [by apply consumer_acts_same|].
  cbn [perform fst snd get_flag set_flag]. set (q1' := mkBipQueue _ _ _ _ _ _ _).
  destruct (HR1 Hi) as (Hi1 & _ & -> & _). assert (inv q1') as Hi1' by done. rewrite Hfree.
  apply wp_act. intros q2 HR2. exists []. split; [by apply consumer_acts_same|]. cbn [perform fst snd get_word].
  destruct (HR2 Hi1') as (Hi2 & _).
  apply wp_act. intros q3 HR3. exists []. split; [by apply consumer_acts_same|]. cbn [perform fst snd get_word].
  destruct (HR3 Hi2) as (Hi3 & Hrd & _). rewrite <- Hrd.
  apply wp_act. intros q4 HR4. exists []. split; [by apply consumer_acts_same|]. cbn [perform fst snd get_word].
  destruct (HR4 Hi3) as (Hi4 & Hrd4 & _ & Htwo & Hend & _).
  assert (forall q, inv q -> wp producer_moves consumer_acts
    (_ ← act (set ReadGranted false); mret (Err NoBytes)) granted_read q []) as Hnone.
  { intros q5 Hi5. apply wp_act. intros q6 HR6. destruct (HR6 Hi5) as (Hi6 & _).
    exists []. split; [by apply consumer_acts_same|]. intros q7 HR7. split; [done|]. split; [done|].
    by destruct (HR7 Hi6) as (_ & _ & -> & _). }
  destruct (Nat.ltb_spec (q_write q3) (q_read q3)) as [Hlt|Hge]; cbn [andb].
  - destruct (Htwo Hlt) as [Hlt4 Hwm]. pose proof Hi4 as (? & ? & ? & ?).
    replace (q_read q3 <=? watermark q4)%nat with true by (symmetry; apply Nat.leb_le; lia).
    destruct (Nat.eqb_spec (q_read q3) (watermark q4)) as [He|Hne].
    + apply wp_act. intros q5 HR5. destruct (HR5 Hi4) as (Hi5 & Hrd5 & _ & Htwo5 & _).
      exists []. split; [apply wrap_acts; [done|destruct Htwo5; lia|destruct Htwo5; [lia|congruence]]|].
      cbn [mret prog_mret mbind prog_mbind prog_bind]. rewrite <- He, Nat.sub_diag. apply Hnone.
      pose proof Hi5 as (? & ? & ? & ?). unfold inv. simpl. split_and!; try done; lia.
    + cbn [mret prog_mret mbind prog_mbind prog_bind].
      destruct (Nat.eqb_spec (watermark q4 - q_read q3) 0); [lia|].
      intros q5 HR5. split; [done|]. apply (may_read_stable _ q4); [done..|]. split; [done|]. simpl.
      unfold region_end. replace (q_write q4 <? q_read q4)%nat with true by (symmetry; apply Nat.ltb_lt; lia). lia.
  - cbn [mret prog_mret mbind prog_mbind prog_bind].
    destruct (Nat.eqb_spec (q_write q3 - q_read q3) 0); [by apply Hnone|].
    intros q5 HR5. split; [done|]. apply (may_read_stable _ q4); [done..|]. split; [done|]. simpl.
    unfold region_end in Hend at 1. replace (q_write q3 <? q_read q3)%nat with false in Hend by (symmetry; by apply Nat.ltb_ge).
    lia.
Qed.

Lemma drop_read_wp q : inv q -> wp producer_moves consumer_acts drop_read returned_read q [].
Proof.
  intros Hi q1 HR1. destruct (HR1 Hi) as (Hi1 & _). exists []. split; [by apply consumer_acts_same|].
  intros q2 HR2. split; [done|]. by destruct (HR2 Hi1) as (_ & _ & -> & _).
Qed.

(** Releasing [m] bytes removes them from the front. *)
Lemma fetch_add_acts g m q :
  inv q -> may_read g q -> (m <= g_length g)%nat ->
  consumer_acts q (take m (content q)) (perform (fetch_add Read m) q).2 [].
Proof.
  intros Hi (Hr & Hg) Hm _. pose proof Hi as (Hl & ? & ? & ?).
  assert (region_end q <= watermark q)%nat as Hend by (unfold region_end; destruct (_ <? _)%nat; lia).
  cbn [perform fst snd get_word]. rewrite Z.mod_small, <- Nat2Z.inj_add, Nat2Z.id by lia.
  assert (content q = slice (storage q) (q_read q) (q_read q + m) ++ content (set_word Read (q_read q + m) q)) as Hc.
  { unfold content, region_end in *. simpl.
    destruct (Nat.ltb_spec (q_write q) (q_read q)), (Nat.ltb_spec (q_write q) (q_read q + m)); try lia.
    - rewrite app_assoc, <- slice_app by lia. done.
    - rewrite <- slice_app by lia. done. }
  split.
  - intros _. unfold inv, region_end in *. simpl.
    destruct (Nat.ltb_spec (q_write q) (q_read q)); split_and!; try done; lia.
  - intros rest Hrest. assert (drop m (content q) = rest) as <-.
    { apply (app_inv_head (take m (content q))). by rewrite take_drop. }
    rewrite Hc at 1. rewrite drop_app_length'; [done|]. rewrite slice_length; lia.
Qed.

Lemma release_wp g n q :
  inv q -> may_read g q ->
  wp producer_moves consumer_acts (release g n) returned_read q (take n (buffer q g)).
Proof.
  intros Hi Hg. unfold release. set (m := Nat.min n (g_length g)).
  replace (take n (buffer q g)) with (take m (content q))
    by (rewrite may_read_content, take_take by done; done).
  apply wp_act. intros q1 HR1. destruct (HR1 Hi) as (Hi1 & _ & _ & _ & _ & [more Hpre]).
  apply (may_read_stable _ _ q1 Hi HR1) in Hg as Hg1.
  assert (m <= length (content q))%nat as Hlen.
  { pose proof Hi as (Hl & ? & ? & ?). assert (length (buffer q g) = g_length g) as Hb.
    - unfold buffer. destruct Hg as [Hr He]. unfold region_end in He. rewrite slice_length; destruct (_ <? _)%nat; lia.
    - rewrite may_read_content, length_take in Hb by done. lia. }
  exists []. split.
  { replace (take m (content q)) with (take m (content q1)) by (rewrite Hpre, take_app_le by lia; done).
    apply (fetch_add_acts g); [done..|lia]. }
  destruct (fetch_add_acts g m q1 Hi1 Hg1 ltac:(lia) Hi1) as [Hmv _]. destruct (Hmv Hi1) as [Hi2 _].
  apply wp_act. intros q3 HR3. exists []. split; [by apply consumer_acts_same|]. apply drop_read_wp.
  by destruct (HR3 Hi2).
Qed.

(** ** The system *)

Definition producer_ok (t : thread) (q : BipQueue) (pend : list Z) : Prop :=
  match t with
  | Idle => pend = [] /\ write_granted q = false
  | Asking p => wp consumer_moves producer_acts p granted_write q pend
  | Holding g => pend = [] /\ may_write g q
  | Returning p => wp consumer_moves producer_acts p returned_write q pend
  end.
Definition consumer_ok (t : thread) (q : BipQueue) (pend : list Z) : Prop :=
  match t with
  | Idle => pend = [] /\ read_granted q = false
  | Asking p => wp producer_moves consumer_acts p granted_read q pend
  | Holding g => pend = [] /\ may_read g q
  | Returning p => wp producer_moves consumer_acts p returned_read q pend
  end.

(** What was committed is what was released, what the queue holds beyond what is
    being released, and what is being committed. *)
Definition system_inv (s : system) : Prop :=
  exists adding removing rest,
    inv (queue s) /\ content (queue s) = removing ++ rest /\ sent s = received s ++ rest ++ adding /\
    producer_ok (producer s) (queue s) adding /\ consumer_ok (consumer s) (queue s) removing.

Lemma producer_rely t q q' pend :
  inv q -> consumer_moves q q' -> producer_ok t q pend -> producer_ok t q' pend.
Proof.
  intros Hi Hm. destruct t as [|p|g|p]; simpl.
  - intros [? Hf]. split; [done|]. rewrite <- Hf. by destruct (Hm Hi) as (_ & _ & _ & _ & _ & ? & _).
  - by eapply wp_rely; [typeclasses eauto|].
  - intros [? ?]. split; [done|]. by apply (may_write_stable g q).
  - by eapply wp_rely; [typeclasses eauto|].
Qed.
Lemma consumer_rely t q q' pend :
  inv q -> producer_moves q q' -> consumer_ok t q pend -> consumer_ok t q' pend.
Proof.
  intros Hi Hm. destruct t as [|p|g|p]; simpl.
  - intros [? Hf]. split; [done|]. rewrite <- Hf. by destruct (Hm Hi) as (_ & _ & ? & _).
  - by eapply wp_rely; [typeclasses eauto|].
  - intros [? ?]. split; [done|]. by apply (may_read_stable g q).
  - by eapply wp_rely; [typeclasses eauto|].
Qed.

Lemma producer_access q t q' t' pend :
  inv q -> accesses q t q' t' -> producer_ok t q pend ->
  exists pend', producer_acts q pend q' pend' /\ producer_ok t' q' pend'.
Proof.
  intros Hi [? B c k|? B c k|? g|? e|? u]; simpl; intros Hok.
  - apply (Hok q0), consumer_moves_refl.
  - apply (Hok q0), consumer_moves_refl.
  - exists pend. split; [by apply producer_acts_same|]. apply (Hok q0), consumer_moves_refl.
  - destruct (Hok q0 (consumer_moves_refl q0)) as (-> & _ & ?). exists []. split; [by apply producer_acts_same|done].
  - exists pend. split; [by apply producer_acts_same|]. apply (Hok q0), consumer_moves_refl.
Qed.
Lemma consumer_access q t q' t' pend :
  inv q -> accesses q t q' t' -> consumer_ok t q pend ->
  exists pend', consumer_acts q pend q' pend' /\ consumer_ok t' q' pend'.
Proof.
  intros Hi [? B c k|? B c k|? g|? e|? u]; simpl; intros Hok.
  - apply (Hok q0), producer_moves_refl.
  - apply (Hok q0), producer_moves_refl.
  - exists pend. split; [by apply consumer_acts_same|]. apply (Hok q0), producer_moves_refl.
  - destruct (Hok q0 (producer_moves_refl q0)) as (-> & _ & ?). exists []. split; [by apply consumer_acts_same|done].
  - exists pend. split; [by apply consumer_acts_same|]. apply (Hok q0), producer_moves_refl.
Qed.

Lemma fill_moves g q i b :
  inv q -> may_write g q -> (i < g_length g)%nat ->
  producer_moves q (set_storage (<[(g_start g + i)%nat := b]> (storage q)) q).
Proof.
  intros Hi Hg Hlt _. rewrite (content_fill g) by done. unfold inv in *. simpl. rewrite length_insert.
  split_and!; try done; lia.
Qed.

Lemma step_inv s s' : step N s s' -> system_inv s -> system_inv s'.
Proof.
  intros [q t q' t' c se r Ha|q pr t q' t' se r Ha|q c se r len Hlen|q g c se r i b Hlt|q g c se r w|q g c se r
    |q pr se r|q pr g se r n|q pr g se r] (adding & removing & rest & Hi & Hc & Hs & Hp & Hco); simpl in *;
    unfold system_inv; simpl.
  - destruct (producer_access _ _ _ _ _ Hi Ha Hp) as (adding' & Hact & Hp').
    destruct (Hact Hi) as [Hmv Happ]. destruct (Hmv Hi) as (Hi' & _ & _ & _ & _ & [more Hmore]).
    exists adding', removing, (rest ++ more). rewrite Hmore, Hc, <- app_assoc in *.
    split_and!; try done; [|by apply (consumer_rely _ q)].
    rewrite <- !app_assoc in Happ. do 2 apply app_inv_head in Happ. rewrite Hs, Happ. by rewrite <- !app_assoc.
  - destruct (consumer_access _ _ _ _ _ Hi Ha Hco) as (removing' & Hact & Hco').
    destruct (Hact Hi) as [Hmv Hrest]. destruct (Hmv Hi) as (Hi' & _).
    exists adding, removing', rest. split_and!; try done; [by apply Hrest|by apply (producer_rely _ q)].
  - destruct Hp as [-> Hf]. exists [], removing, rest. split_and!; try done. by apply grant_wp.
  - destruct Hp as [-> Hg]. pose proof (fill_moves g q i b Hi Hg Hlt) as Hmv. destruct (Hmv Hi) as [Hi' _].
    exists [], removing, rest. rewrite (content_fill g) by done. split_and!; try done. by apply (consumer_rely _ q).
  - destruct Hp as [-> Hg]. exists (take w (buffer q g)), removing, rest. split_and!; try done; [|by apply commit_wp].
    rewrite Hs. by rewrite app_nil_r, <- !app_assoc.
  - destruct Hp as [-> Hg]. exists [], removing, rest. split_and!; try done. by apply drop_write_wp.
  - destruct Hco as [-> Hf]. exists adding, [], rest. split_and!; try done. by apply read_grant_wp.
  - destruct Hco as [-> Hg]. simpl in Hc.
    assert (exists m, take n (buffer q g) = take m (content q)) as [m Hm].
    { rewrite (may_read_content g) by done. rewrite take_take. by eexists. }
    exists adding, (take m rest), (drop m rest). rewrite Hm, Hc, take_drop. split_and!; try done.
    + rewrite Hs, <- (take_drop m rest) at 1. by rewrite <- !app_assoc.
    + rewrite <- Hc, <- Hm. by apply release_wp.
  - destruct Hco as [-> Hg]. exists adding, [], rest. split_and!; try done. by apply drop_read_wp.
Qed.

Lemma reachable_inv uninit s : length uninit = N -> reachable N uninit s -> system_inv s.
Proof.
  intros Hl Hr. unfold reachable in Hr. remember (start N uninit) as s0 eqn:E0.
  assert (system_inv s0) as H0.
  { subst s0. exists [], [], []. unfold inv, content. simpl. rewrite slice_nil by lia. split_and!; try done; lia. }
  clear E0. induction Hr as [|s1 s2 s3 Hs _ IH]; [done|]. apply IH. by eapply step_inv.
Qed.

Definition crashed (t : thread) : bool :=
  match t with Asking Crash | Returning Crash => true | _ => false end.

End proofs.

(** C9: However the accesses of the producer and the consumer interleave, the
    consumer sees the bytes the producer committed, in order, each once: what it
    has released is a prefix of what was committed, the buffer of its grant holds
    the bytes that come next, and with both idle the queue holds exactly the rest.
    The buffers of the two never overlap, and no operation panics. *)
Theorem bipqueue_fifo (N : nat) (uninit : list Z) (s : system)
    (HN : Z.of_nat N < 2 ^ 64) (Hl : length uninit = N) (Hs : reachable N uninit s) :
  received s `prefix_of` sent s /\
  (forall g, consumer s = Holding g ->
     (length (received s) + g_length g <= length (sent s))%nat /\
     buffer (queue s) g = take (g_length g) (drop (length (received s)) (sent s))) /\
  (forall gp gc i, producer s = Holding gp -> consumer s = Holding gc ->
     ~ ((g_start gp <= i < g_start gp + g_length gp)%nat /\ (g_start gc <= i < g_start gc + g_length gc)%nat)) /\
  (producer s = Idle -> consumer s = Idle -> sent s = received s ++ content (queue s)) /\
  crashed (producer s) = false /\ crashed (consumer s) = false.
Proof.
  destruct (reachable_inv N HN uninit s Hl Hs) as (adding & removing & rest & Hi & Hc & Hse & Hp & Hco).
  split; [rewrite Hse; by apply prefix_app_r|]. split_and!.
  - intros g Hg. rewrite Hg in Hco. destruct Hco as [-> Hg']. simpl in Hc.
    assert (length (buffer (queue s) g) = g_length g) as Hb.
    { pose proof Hi as (? & ? & ? & ?). destruct Hg' as [_ He]. unfold region_end in He. unfold buffer.
      rewrite slice_length; destruct (_ <? _)%nat; lia. }
    rewrite (may_read_content N), Hc in Hb by done. rewrite (may_read_content N), Hc, Hse by done.
    rewrite length_take in Hb. rewrite drop_app_length, take_app_le, !length_app by lia. split; [lia|done].
  - intros gp gc i Hgp Hgc. rewrite Hgp in Hp. rewrite Hgc in Hco. destruct Hp as [_ Hp], Hco as [_ Hco].
    by eapply grants_disjoint.
  - intros Hpi Hci. rewrite Hpi in Hp. rewrite Hci in Hco. destruct Hp as [-> _], Hco as [-> _].
    by rewrite Hc, Hse, app_nil_r.
  - by destruct (producer s) as [|[]| |[]].
  - by destruct (consumer s) as [|[]| |[]].
Qed.

(** ** Operations that are not interrupted *)

Fixpoint finish {A} (p : prog A) (q : BipQueue) : outcome (A * BipQueue) :=
  match p with
  | Ret a => Val (a, q)
  | Act c k => finish (k (perform c q).1) (perform c q).2
  | Crash => Panic
  end.

Lemma finish_bind {A B} (p : prog A) (f : A -> prog B) : forall q,
  finish (p ≫= f) q = ('(a, q') ← finish p q; finish (f a) q').
Proof. induction p as [a|B' c k IH|]; intros q; simpl; [done| |done]. apply IH. Qed.

(** What the uninterrupted [read] does, by where the reader stands. *)
Lemma finish_read N q :
  inv N q -> read_granted q = false ->
  finish read_grant q =
    if (q_write q <? q_read q)%nat && (q_read q =? watermark q)%nat then
      Val (Err NoBytes, set_word Read 0 q)
    else if (region_end q <=? q_read q)%nat then Val (Err NoBytes, q)
    else Val (Ok (mkGrant (q_read q) (region_end q - q_read q)), set_flag ReadGranted true q).
Proof.
  intros (Hl & ? & ? & ?) Hf. destruct q as [st rd wr re wm rg wg]. simpl in *. subst rg.
  unfold region_end. simpl. destruct (Nat.ltb_spec wr rd) as [Hlt|Hge]; simpl.
  - replace (rd <=? wm)%nat with true by (symmetry; by apply Nat.leb_le).
    destruct (Nat.eqb_spec rd wm) as [->|]; simpl; [by rewrite Nat.sub_diag|].
    destruct (Nat.eqb_spec (wm - rd) 0), (Nat.leb_spec wm rd); try lia; done.
  - destruct (Nat.eqb_spec (wr - rd) 0), (Nat.leb_spec wr rd); try lia; done.
Qed.

Lemma region_content N q : inv N q -> ((region_end q <= q_read q)%nat -> content q = [] \/ (q_write q < q_read q)%nat).
Proof.
  intros (? & ? & ? & ?). unfold region_end, content. destruct (Nat.ltb_spec (q_write q) (q_read q)); [by right|].
  intros. left. apply slice_nil. lia.
Qed.

Lemma finish_grant N q length :
  inv N q -> write_granted q = false -> Z.of_nat N + Z.of_nat length < 2 ^ 64 ->
  finish (grant N length) q ⇓ fun '(r, _) =>
    match r with Ok g => g_length g = length | Err e => e = NotEnoughSpace end /\
    ((exists g, r = Ok g) <->
       if (q_write q <? q_read q)%nat then (q_write q + length < q_read q)%nat
       else (q_write q + length <= N \/ length < q_read q)%nat).
Proof.
  intros (Hl & ? & ? & ?) Hf Hlen. destruct q as [st rd wr re wm rg wg]. simpl in *. subst wg.
  unfold grant. cbn -[add Z.of_nat Nat.ltb Nat.leb returns]. rewrite add_in by lia. cbn -[add Z.of_nat Nat.ltb Nat.leb returns].
  destruct (Nat.ltb_spec wr rd), (Nat.ltb_spec (wr + length) rd), (Nat.leb_spec (wr + length) N),
    (Nat.ltb_spec length rd); cbn -[add Z.of_nat Nat.ltb Nat.leb returns]; rewrite ?add_in by lia; simpl;
    (split; [done|]); split; first [by intros [g [=]] | by intros; eexists | intros; lia | intros; exfalso; lia].
Qed.

(** A region that is not empty is read. *)
Lemma region_buffer N q : inv N q -> (q_read q < region_end q)%nat ->
  let g := mkGrant (q_read q) (region_end q - q_read q) in
  buffer q g <> [] /\ buffer q g = take (g_length g) (content q).
Proof.
  intros Hi Hlt g. assert (may_read g q) as Hg by (split; simpl; [done|lia]).
  split; [|by apply (may_read_content N)]. intros Hb%(f_equal length). pose proof Hi as (? & ? & ? & ?).
  unfold buffer in Hb. rewrite slice_length in Hb; simpl in *; [lia|].
  unfold region_end in *. destruct (_ <? _)%nat; lia.
Qed.

Lemma read_empty N q :
  inv N q -> read_granted q = false -> content q = [] -> finish read_grant q ⇓ fun '(r, _) => r = Err NoBytes.
Proof.
  intros Hi Hf Hc. rewrite (finish_read N) by done. destruct (_ && _); [done|].
  destruct (Nat.leb_spec (region_end q) (q_read q)) as [|Hlt]; [done|].
  destruct (region_buffer N q Hi Hlt) as [Hne Hb]. rewrite Hb, Hc, take_nil in Hne. done.
Qed.

Lemma read_retry N q :
  inv N q -> read_granted q = false -> content q <> [] ->
  finish read_grant q ⇓ fun '(r, q1) =>
    match r with
    | Ok g => buffer q1 g <> [] /\ buffer q1 g `prefix_of` content q
    | Err e => e = NoBytes /\ finish read_grant q1 ⇓ fun '(r, q2) =>
        exists g, r = Ok g /\ buffer q2 g = content q
    end.
Proof.
  intros Hi Hf Hc. rewrite (finish_read N) by done. pose proof Hi as (Hl & ? & ? & ?).
  destruct (Nat.ltb_spec (q_write q) (q_read q)) as [Hlt|Hge]; [destruct (Nat.eqb_spec (q_read q) (watermark q)) as [He|Hne]|];
    cbn [andb].
  - cbn [returns]. split; [done|].
    assert (content (set_word Read 0 q) = content q) as Hsame.
    { unfold content. simpl. replace (q_write q <? q_read q)%nat with true by (symmetry; by apply Nat.ltb_lt).
      by rewrite (slice_nil _ (q_read q)) by lia. }
    assert (inv N (set_word Read 0 q)) as Hi1 by (unfold inv; simpl; split_and!; try done; lia).
    set (q1 := set_word Read 0 q) in *. rewrite (finish_read N) by done.
    assert (region_end q1 = q_write q) as He1 by done. rewrite He1. change (q_read q1) with 0%nat.
    change (q_write q1 <? 0)%nat with false. cbn [andb].
    destruct (Nat.leb_spec (q_write q) 0) as [Hz|Hz]; [|eexists; split; [done|]]; rewrite <- Hsame in *;
      unfold content in *; change (q_write q1 <? q_read q1)%nat with false in *; cbv iota in *.
    + exfalso. apply Hc. apply slice_nil. done.
    + unfold buffer. simpl. by rewrite Nat.sub_0_r.
  - assert (region_end q = watermark q) as He.
    { unfold region_end. by replace (q_write q <? q_read q)%nat with true by (symmetry; by apply Nat.ltb_lt). }
    destruct (Nat.leb_spec (region_end q) (q_read q)) as [|Hr]; [lia|]. destruct (region_buffer N q Hi Hr) as [Hb1 Hb2].
    split; [done|]. change (buffer (set_flag ReadGranted true q)) with (buffer q). rewrite Hb2. apply prefix_take.
  - destruct (Nat.leb_spec (region_end q) (q_read q)) as [Hr|Hr].
    { destruct (region_content N q Hi Hr); [done|lia]. }
    destruct (region_buffer N q Hi Hr) as [Hb1 Hb2].
    split; [done|]. change (buffer (set_flag ReadGranted true q)) with (buffer q). rewrite Hb2. apply prefix_take.
Qed.

(** C29: With no other operation running, a grant is given exactly when its length
    fits behind the last byte or, where it does not and there is one region, in
    front of the first; and a queue that is not empty is read at the latest by the
    second call of [read]: the first may report [NoBytes], where the reader has
    reached the watermark. *)
Theorem bipqueue_progress (N : nat) (uninit : list Z) (s : system)
    (HN : Z.of_nat N < 2 ^ 64) (Hl : length uninit = N) (Hs : reachable N uninit s)
    (Hp : producer s = Idle) (Hc : consumer s = Idle) :
  let q := queue s in
  (forall length, Z.of_nat N + Z.of_nat length < 2 ^ 64 ->
     finish (grant N length) q ⇓ fun '(r, _) =>
       match r with Ok g => g_length g = length | Err e => e = NotEnoughSpace end /\
       ((exists g, r = Ok g) <->
          if (q_write q <? q_read q)%nat then (q_write q + length < q_read q)%nat
          else (q_write q + length <= N \/ length < q_read q)%nat)) /\
  (content q = [] -> finish read_grant q ⇓ fun '(r, _) => r = Err NoBytes) /\
  (content q <> [] -> finish read_grant q ⇓ fun '(r, q1) =>
     match r with
     | Ok g => buffer q1 g <> [] /\ buffer q1 g `prefix_of` content q
     | Err e => e = NoBytes /\ finish read_grant q1 ⇓ fun '(r, q2) =>
         exists g, r = Ok g /\ buffer q2 g = content q
     end).
Proof.
  destruct (reachable_inv N HN uninit s Hl Hs) as (adding & removing & rest & Hi & _ & _ & Hpo & Hco).
  rewrite Hp in Hpo. rewrite Hc in Hco. destruct Hpo as [_ Hwf], Hco as [_ Hrf]. intros q. split_and!.
  - intros len Hlen. by apply finish_grant.
  - by apply (read_empty N).
  - by apply (read_retry N).
Qed.

(** ** Examples *)

Module BipQueueExample.

Section schedules.
Context (N : nat).

(** A thread that runs an operation to its end. *)
Lemma producer_asks p c s r : forall q a q',
  finish p q = Val (a, q') ->
  rtc (step N) (mkSystem q (Asking p) c s r) (mkSystem q' (Asking (Ret a)) c s r).
Proof.
  induction p as [a0|B k f IH|]; intros q a q' Hf; simplify_eq/=; [done|].
  eapply rtc_l; [constructor; apply access_asking|]. by apply IH.
Qed.
Lemma producer_returns p c s r : forall q u q',
  finish p q = Val (u, q') ->
  rtc (step N) (mkSystem q (Returning p) c s r) (mkSystem q' Idle c s r).
Proof.
  induction p as [a0|B k f IH|]; intros q a q' Hf; simplify_eq/=; [apply rtc_once; constructor; constructor|].
  eapply rtc_l; [constructor; apply access_returning|]. by eapply IH.
Qed.
Lemma consumer_asks p pr s r : forall q a q',
  finish p q = Val (a, q') ->
  rtc (step N) (mkSystem q pr (Asking p) s r) (mkSystem q' pr (Asking (Ret a)) s r).
Proof.
  induction p as [a0|B k f IH|]; intros q a q' Hf; simplify_eq/=; [done|].
  eapply rtc_l; [apply consumer_step; apply access_asking|]. by apply IH.
Qed.
End schedules.

Definition empty : BipQueue := BipQueue_new 4 [0; 0; 0; 0].
(** After the bytes 1, 2, 3 have been committed. *)
Definition three : BipQueue := mkBipQueue [1; 2; 3; 0] 0 3 3 4 false false.
(** The consumer has been granted them while the producer holds the last byte. *)
Definition held : system :=
  mkSystem (mkBipQueue [1; 2; 3; 0] 0 3 4 4 true true) (Holding (mkGrant 3 1)) (Holding (mkGrant 0 3)) [1; 2; 3] [].

Lemma three_reachable : reachable 4 [0; 0; 0; 0] (mkSystem three Idle Idle [1; 2; 3] []).
Proof.
  eapply rtc_l; [apply (call_grant 4 _ _ _ _ 3); done|].
  etrans; [by apply producer_asks|]. eapply rtc_l; [apply producer_step, granted|].
  eapply rtc_l; [apply (fill _ _ _ _ _ _ 0 1); simpl; lia|].
  eapply rtc_l; [apply (fill _ _ _ _ _ _ 1 2); simpl; lia|].
  eapply rtc_l; [apply (fill _ _ _ _ _ _ 2 3); simpl; lia|].
  eapply rtc_l; [apply (call_commit _ _ _ _ _ _ 3)|]. by apply (producer_returns 4 _ _ _ _ _ tt).
Qed.

Lemma held_reachable : reachable 4 [0; 0; 0; 0] held.
Proof.
  unfold reachable; etrans; [apply three_reachable|].
  eapply rtc_l; [apply (call_grant 4 _ _ _ _ 1); done|].
  eapply rtc_l; [apply call_read|].
  etrans; [by apply producer_asks|]. eapply rtc_l; [apply producer_step, granted|].
  etrans; [by apply consumer_asks|]. apply rtc_once. apply consumer_step, granted.
Qed.

Lemma bipqueue_fifo_witness :
  reachable 4 [0; 0; 0; 0] held /\ buffer (queue held) (mkGrant 0 3) = [1; 2; 3].
Proof.
  split; [exact held_reachable|].
  destruct (bipqueue_fifo 4 [0; 0; 0; 0] held ltac:(done) eq_refl held_reachable) as (_ & Hb & _).
  destruct (Hb (mkGrant 0 3) eq_refl) as [_ ->]. reflexivity.
Defined.

Lemma bipqueue_progress_witness :
  finish read_grant three ⇓ fun '(r, q1) =>
    match r with
    | Ok g => buffer q1 g <> [] /\ buffer q1 g `prefix_of` [1; 2; 3]
    | Err e => e = NoBytes /\ finish read_grant q1 ⇓ fun '(r, q2) =>
        exists g, r = Ok g /\ buffer q2 g = [1; 2; 3]
    end.
Proof.
  apply (bipqueue_progress 4 [0; 0; 0; 0] (mkSystem three Idle Idle [1; 2; 3] []) ltac:(done) eq_refl
    three_reachable eq_refl eq_refl).
  discriminate.
Defined.

(** Write and read some bytes. *)
Definition put (bs : list Z) (q : BipQueue) : outcome BipQueue :=
  '(r, q) ← finish (grant 4 (length bs)) q;
  match r with
  | Ok g =>
      let st := take (g_start g) (storage q) ++ bs ++ drop (g_start g + length bs) (storage q) in
      '(_, q) ← finish (commit 4 g (length bs)) (set_storage st q); mret q
  | Err _ => Panic
  end.
Definition get (n : nat) (q : BipQueue) : outcome BipQueue :=
  '(r, q) ← finish read_grant q;
  match r with
  | Ok g => '(_, q) ← finish (release g n) q; mret q
  | Err _ => Panic
  end.

(** [read] reports an empty queue although two bytes were committed and nothing
    else runs: it moves its position to the front and goes on with the old one. *)
Lemma read_reports_no_bytes :
  (q ← put [1; 2; 3] empty; q ← get 3 q; q ← put [4; 5] q;
   '(r, _) ← finish read_grant q; Val (content q, r)) = Val ([4; 5], Err NoBytes).
Proof. reflexivity. Qed.

End BipQueueExample.
