(* ===== verification/SeedRegions.v ===== *)
(** * [seed/seed_riscv/src/memory.rs]: the region map of the RISC-V loader

    The loader describes physical memory as a list of regions that it builds from
    the device tree ([MemoryRegions]).  The abstract view of the list is what each
    address is ([covers]); adding a region updates it. *)

From stdpp Require Import base tactics option list numbers sets strings.
From S2P Require Import Prelude Mulch Memory Crates.
Import Mulch.Math Mulch.Ranges.

(** ** Regions *)

Inductive Usage := Firmware | DeviceTree | Seed | Ramdisk | Unknown.

Inductive RegionType := Usable | Reserved (usage : Usage).

#[global] Instance Usage_eq_dec : EqDecision Usage.
Proof. solve_decision. Defined.
#[global] Instance RegionType_eq_dec : EqDecision RegionType.
Proof. solve_decision. Defined.

Record Region := mkRegion { typ : RegionType; address : Z; size : Z }.

Definition Region_new (typ : RegionType) (address size : Z) : outcome Region :=
  r ← urem size (SIZE Size4KiB);
  rassert (r =? 0) ;; mret (mkRegion typ address size).

Definition Region_usable (address size : Z) : outcome Region := Region_new Usable address size.
Definition Region_reserved (usage : Usage) (address size : Z) : outcome Region :=
  Region_new (Reserved usage) address size.

Section regions.
Context `{ArrayVec} (tgt : target).

Definition range (self : Region) : outcome Range :=
  e ← PAddr.add tgt (address self) (size self); mret (mkRange (address self) e).

Definition MAX_REGIONS : nat := 32.

Definition MemoryRegions : Type := list Region.

(** The body of the first loop of [add_region]: the existing region after it,
    and whether it sets [added]. *)
Definition merge_region (region existing : Region) : outcome (Region * bool) :=
  if decide (typ region = typ existing) then
    er ← range existing;
    rr ← range region;
    if encompasses er rr then mret (existing, true)
    else
      re ← PAddr.add tgt (address region) (size region);
      if re =? address existing then
        s ← uadd (size existing) (size region);
        mret (mkRegion (typ existing) (address region) s, true)
      else
        ee ← PAddr.add tgt (address existing) (size existing);
        if ee =? address region then
          s ← uadd (size existing) (size region);
          mret (mkRegion (typ existing) (address existing) s, true)
        else mret (existing, false)
  else mret (existing, false).

Fixpoint merge_regions (region : Region) (rs : MemoryRegions) : outcome (MemoryRegions * bool) :=
  match rs with
  | [] => mret ([], false)
  | existing :: rs =>
      '(existing, b) ← merge_region region existing;
      '(rs, added) ← merge_regions region rs;
      mret (existing :: rs, b || added)
  end.

(** A part of an existing region that the new one leaves. *)
Definition push_part (typ : RegionType) (part : option Range) (new_entries : list Region) : outcome (list Region) :=
  match part with
  | Some part =>
      s ← usub (end_ part) (start part);
      r ← Region_new typ (start part) s;
      array_push 2 new_entries r
  | None => mret new_entries
  end.

(** The closure given to [flat_map]. *)
Definition shrink_region (region existing : Region) : outcome (list Region) :=
  if decide (typ existing = typ region) then array_push 2 [] existing
  else
    er ← range existing;
    rr ← range region;
    let '(before, middle, after) := split er rr in
    match middle with
    | None => array_push 2 [] existing
    | Some _ => es ← push_part (typ existing) before []; push_part (typ existing) after es
    end.

Fixpoint shrink_regions (region : Region) (rs : MemoryRegions) : outcome (list Region) :=
  match rs with
  | [] => mret []
  | existing :: rs =>
      es ← shrink_region region existing;
      rest ← shrink_regions region rs;
      mret (es ++ rest)
  end.

Definition add_region (self : MemoryRegions) (region : Region) : outcome MemoryRegions :=
  '(merged, added) ← merge_regions region self;
  shrunk ← shrink_regions region merged;
  rs ← array_collect MAX_REGIONS shrunk;
  if added : bool then mret rs else array_push MAX_REGIONS rs region.

(** What the loader reads from the device tree with the crate [fdt], and the
    symbols of its linker script. *)
Record MemoryRegion := mkMemoryRegion { starting_address : Z; region_size : option Z }.
Record Reservation := mkReservation { name : string; reg : option (list MemoryRegion) }.
Record Fdt := mkFdt {
  memory_regions : list MemoryRegion;
  (** The children of [/reserved-memory]. *)
  reservations : option (list Reservation);
  total_size : Z;
}.

Definition add_memory (regions : MemoryRegions) (region : MemoryRegion) : outcome MemoryRegions :=
  a ← unwrap (PAddr.new tgt (starting_address region));
  s ← unwrap (region_size region);
  r ← Region_usable a s;
  add_region regions r.

Definition add_reservation (regions : MemoryRegions) (reservation : Reservation) : outcome MemoryRegions :=
  l ← unwrap (reg reservation);
  reg ← unwrap (head l);
  let usage := if String.prefix "mmode_resv" (name reservation) then Firmware else Unknown in
  a ← unwrap (PAddr.new tgt (starting_address reg));
  s ← unwrap (region_size reg);
  r ← Region_reserved usage a s;
  add_region regions r.

Definition MemoryRegions_new (fdt : Fdt) (fdt_address seed_start seed_end : Z) : outcome MemoryRegions :=
  regions ← ofold add_memory [] (memory_regions fdt);
  regions ← match reservations fdt with
            | Some l => ofold add_reservation regions l
            | None => mret regions
            end;
  seed ← unwrap (PAddr.new tgt seed_start);
  len ← usub seed_end seed_start;
  len ← align_up 64 len (SIZE Size4KiB);
  r ← Region_reserved Seed seed len;
  regions ← add_region regions r;
  len ← align_up 64 (total_size fdt) (SIZE Size4KiB);
  r ← Region_reserved DeviceTree fdt_address len;
  add_region regions r.

(** What [seed_main] adds: the ramdisk, where there is one. *)
Definition add_ramdisk (memory_regions : MemoryRegions) (ramdisk : option (Z * Z)) : outcome MemoryRegions :=
  match ramdisk with
  | Some (address, size) =>
      s ← align_up 64 size (SIZE Size4KiB);
      r ← Region_reserved Ramdisk address s;
      add_region memory_regions r
  | None => mret memory_regions
  end.

End regions.

(** ** The region map *)

Definition region_end (r : Region) : Z := address r + size r.
Definition inside (x : Z) (r : Region) : Prop := address r <= x < region_end r.

(** Regions of whole frames, not empty, in the address space. *)
Definition region_ok (tgt : target) (r : Region) : Prop :=
  0 <= address r /\ 0 < size r /\ region_end r < paddr_limit tgt /\ (4096 | address r) /\ (4096 | size r).

Definition apart (r1 r2 : Region) : Prop := region_end r1 <= address r2 \/ region_end r2 <= address r1.

(** Regions of one type do not meet, not even at their ends. *)
Definition clear_of (r1 r2 : Region) : Prop :=
  typ r1 = typ r2 -> region_end r1 < address r2 \/ region_end r2 < address r1.

Definition regions_ok (tgt : target) (rs : MemoryRegions) : Prop :=
  (forall r, r ∈ rs -> region_ok tgt r) /\ pairwise apart rs.

(** The abstract view of a region map: what an address is. *)
Definition covers (rs : MemoryRegions) (t : RegionType) (x : Z) : Prop :=
  exists r, r ∈ rs /\ typ r = t /\ inside x r.

(** A region the new one is merged with. *)
Definition joinable (region existing : Region) : bool :=
  bool_decide (typ region = typ existing) &&
  (((address existing <=? address region) && (region_end region <=? region_end existing)) ||
   (region_end region =? address existing) || (region_end existing =? address region)).

Definition merged (region existing : Region) : Region :=
  if negb (joinable region existing) then existing
  else if (address existing <=? address region) && (region_end region <=? region_end existing) then existing
  else if region_end region =? address existing
  then mkRegion (typ existing) (address region) (size existing + size region)
  else mkRegion (typ existing) (address existing) (size existing + size region).

Definition intersecting (region existing : Region) : bool :=
  (address existing <? region_end region) && (address region <? region_end existing).

Definition cut (region existing : Region) : list Region :=
  if bool_decide (typ existing = typ region) || negb (intersecting region existing) then [existing]
  else
    (if address existing <? address region
     then [mkRegion (typ existing) (address existing) (address region - address existing)] else []) ++
    (if region_end region <? region_end existing
     then [mkRegion (typ existing) (region_end region) (region_end existing - region_end region)] else []).

Section add_region.
Context `{AV : ArrayVec} `{AVS : !ArrayVecSpec} (tgt : target).

Lemma range_val r : region_ok tgt r -> range tgt r = Val (mkRange (address r) (region_end r)).
Proof.
  intros (? & ? & ? & _). unfold range, region_end in *.
  by rewrite paddr_add_in by (unfold paddr_valid; lia).
Qed.

Lemma region_end_val r : region_ok tgt r -> PAddr.add tgt (address r) (size r) = Val (region_end r).
Proof. intros (? & ? & ? & _). unfold region_end in *. rewrite paddr_add_in by (unfold paddr_valid; lia). done. Qed.

Lemma paddr_limit_usize : paddr_limit tgt <= 2 ^ 64.
Proof. destruct tgt; simpl; lia. Qed.

Lemma region_new_val t a s : (4096 | s) -> Region_new t a s = Val (mkRegion t a s).
Proof. intros Hd. unfold Region_new. simpl. by rewrite (proj2 (Z.mod_divide s 4096 ltac:(lia)) Hd). Qed.

Lemma merge_region_val r e :
  region_ok tgt r -> region_ok tgt e -> merge_region tgt r e = Val (merged r e, joinable r e).
Proof.
  intros Hr He. pose proof paddr_limit_usize. unfold merge_region, merged, joinable.
  destruct (decide (typ r = typ e)) as [Ht|Ht]; [|by rewrite bool_decide_false by done].
  rewrite bool_decide_true by done. rewrite !range_val by done. obind. unfold encompasses. cbn [start end_].
  rewrite Z.geb_leb. simpl.
  destruct ((address e <=? address r) && (region_end r <=? region_end e)) eqn:E1; [done|].
  rewrite !region_end_val by done. obind. simpl.
  destruct Hr as (? & ? & ? & _), He as (? & ? & ? & _). unfold region_end in *.
  destruct (Z.eqb_spec (address r + size r) (address e)); simpl.
  { rewrite wadd_in by (unfold is_unsigned; lia). done. }
  destruct (Z.eqb_spec (address e + size e) (address r)); simpl; [|done].
  rewrite wadd_in by (unfold is_unsigned; lia). done.
Qed.

Lemma merge_regions_val r rs :
  region_ok tgt r -> (forall e, e ∈ rs -> region_ok tgt e) ->
  merge_regions tgt r rs = Val (merged r <$> rs, existsb (joinable r) rs).
Proof.
  intros Hr. induction rs as [|e rs IH]; intros Hrs; [done|]. simpl.
  rewrite merge_region_val by set_solver. obind. rewrite IH by set_solver. done.
Qed.

Lemma push_part_val t a b es :
  0 <= a <= b -> b < 2 ^ 64 -> (4096 | a) -> (4096 | b) -> (length es < 2)%nat ->
  push_part t (Some (mkRange a b)) es = Val (es ++ [mkRegion t a (b - a)]).
Proof using AVS.
  intros ? ? ? ? Hl. unfold push_part. cbn [start end_]. rewrite wsub_in by (unfold is_unsigned; lia). obind.
  rewrite region_new_val by (by apply Z.divide_sub_r). obind. by rewrite array_push_in.
Qed.

Lemma push_part_none t es : push_part t None es = Val es.
Proof. done. Qed.

Lemma region_ok_end r : region_ok tgt r -> (4096 | region_end r) /\ 0 <= region_end r < 2 ^ 64.
Proof.
  intros (? & ? & ? & ? & ?). pose proof paddr_limit_usize. unfold region_end in *.
  split; [by apply Z.divide_add_r|lia].
Qed.

Lemma shrink_region_val r e :
  region_ok tgt r -> region_ok tgt e -> shrink_region tgt r e = Val (cut r e).
Proof using AVS.
  intros Hr He. unfold shrink_region, cut.
  destruct (decide (typ e = typ r)) as [Ht|Ht].
  { rewrite bool_decide_true by done. by rewrite array_push_in by (simpl; lia). }
  rewrite bool_decide_false by done. rewrite !range_val by done. obind.
  unfold split, intersection, intersects, intersecting. cbn [start end_ orb]. rewrite Z.geb_leb, Z.gtb_ltb.
  destruct ((address e <? region_end r) && (address r <? region_end e)) eqn:Ei; cbn [negb].
  2:{ by rewrite array_push_in by (simpl; lia). }
  destruct (region_ok_end r Hr) as (? & ? & ?), (region_ok_end e He) as (? & ? & ?).
  destruct Hr as (? & ? & ? & ? & ?), He as (? & ? & ? & ? & ?).
  rewrite !(Z.leb_antisym _ (address _)), !(Z.leb_antisym _ (region_end _)).
  destruct (Z.ltb_spec (address e) (address r)), (Z.ltb_spec (region_end r) (region_end e)); cbn [negb app];
    repeat (first [rewrite push_part_val by (done || (simpl; lia))|rewrite push_part_none]; obind); done.
Qed.

Lemma shrink_regions_val r rs :
  region_ok tgt r -> (forall e, e ∈ rs -> region_ok tgt e) ->
  shrink_regions tgt r rs = Val (rs ≫= cut r).
Proof using AVS.
  intros Hr. induction rs as [|e rs IH]; intros Hrs; [done|]. simpl.
  rewrite shrink_region_val by set_solver. obind. by rewrite IH by set_solver.
Qed.

(** What becomes of an existing region. *)
Definition pieces (r e : Region) : list Region := cut r (merged r e).

Lemma joinable_spec r e :
  joinable r e = true <->
  typ r = typ e /\ (address e <= address r /\ region_end r <= region_end e \/
                    region_end r = address e \/ region_end e = address r).
Proof.
  unfold joinable. rewrite andb_true_iff, bool_decide_eq_true, !orb_true_iff, andb_true_iff, !Z.leb_le, !Z.eqb_eq.
  tauto.
Qed.

Lemma pieces_joined r e : joinable r e = true -> pieces r e = [merged r e].
Proof.
  intros Hj. unfold pieces, cut. rewrite bool_decide_true; [done|].
  apply joinable_spec in Hj as [Ht _]. unfold merged. by repeat case_match.
Qed.

Lemma pieces_cut r e : joinable r e = false -> pieces r e = cut r e.
Proof. intros Hj. unfold pieces, merged. by rewrite Hj. Qed.

Lemma merged_spec r e :
  region_ok tgt r -> region_ok tgt e -> joinable r e = true ->
  region_ok tgt (merged r e) /\ typ (merged r e) = typ e /\
  forall x, inside x (merged r e) <-> inside x e \/ inside x r.
Proof.
  intros (? & ? & ? & ? & ?) (? & ? & ? & ? & ?) Hj. unfold merged. rewrite Hj. simpl.
  apply joinable_spec in Hj as [_ Hj]. unfold inside, region_end, region_ok in *.
  destruct ((address e <=? address r) && (address r + size r <=? address e + size e)) eqn:E.
  { split_and!; try done. intros x. lia. }
  assert ((4096 | size e + size r)) by (by apply Z.divide_add_r).
  destruct (Z.eqb_spec (address r + size r) (address e)); unfold region_end; simpl;
    split_and!; try done; try lia; intros x; lia.
Qed.

Definition before_part (r e : Region) : Region := mkRegion (typ e) (address e) (address r - address e).
Definition after_part (r e : Region) : Region := mkRegion (typ e) (region_end r) (region_end e - region_end r).

Lemma elem_of_cut r e p :
  p ∈ cut r e <->
  if bool_decide (typ e = typ r) || negb (intersecting r e) then p = e
  else address e < address r /\ p = before_part r e \/ region_end r < region_end e /\ p = after_part r e.
Proof.
  unfold cut. destruct (_ || _); [apply list_elem_of_singleton|]. rewrite elem_of_app.
  destruct (Z.ltb_spec (address e) (address r)), (Z.ltb_spec (region_end r) (region_end e));
    rewrite ?list_elem_of_singleton, ?elem_of_nil; unfold before_part, after_part; naive_solver lia.
Qed.

Lemma cut_ok r e p :
  region_ok tgt r -> region_ok tgt e -> p ∈ cut r e -> region_ok tgt p /\ typ p = typ e.
Proof.
  intros Hr He. rewrite elem_of_cut. destruct (region_ok_end r Hr) as [? _], (region_ok_end e He) as [? _].
  destruct (_ || _) eqn:E; [by intros ->|]. apply orb_false_iff in E as [_ Hi].
  apply negb_false_iff in Hi. unfold intersecting in Hi.
  destruct Hr as (? & ? & ? & ? & ?), He as (? & ? & ? & ? & ?).
  assert (forall a b : Z, (4096 | a) -> (4096 | b) -> (4096 | a - b)) as Hd by (intros; by apply Z.divide_sub_r).
  intros [[Hlt ->]|[Hlt ->]]; unfold before_part, after_part, region_ok, region_end in *; simpl;
    split_and!; try done; try lia; by apply Hd.
Qed.

Lemma cut_mem r e x :
  region_ok tgt r -> region_ok tgt e ->
  (exists p, p ∈ cut r e /\ inside x p) <-> inside x e /\ (typ e = typ r \/ ~ inside x r).
Proof.
  intros (? & ? & _) (? & ? & _). setoid_rewrite elem_of_cut. unfold intersecting.
  case_bool_decide as Ht; simpl; [naive_solver|].
  destruct ((address e <? region_end r) && (address r <? region_end e)) eqn:Ei; simpl.
  2:{ unfold inside. split; [intros (p & -> & Hx)|naive_solver]. split; [done|]. right. lia. }
  split.
  - intros (p & [[Hlt ->]|[Hlt ->]] & Hx); unfold inside, before_part, after_part, region_end in *; simpl in *;
      (split; [lia|right; lia]).
  - intros [Hx [?|Hn]]; [done|]. destruct (decide (x < address r)).
    + exists (before_part r e). unfold inside, before_part, region_end in *; simpl. split; [left; split; [lia|done]|lia].
    + exists (after_part r e). unfold inside, after_part, region_end in *; simpl. split; [right; split; [lia|done]|lia].
Qed.

Lemma cut_pairwise r e : region_ok tgt r -> region_ok tgt e -> pairwise apart (cut r e).
Proof.
  intros (? & ? & _) _. unfold cut. destruct (_ || _); [apply pairwise_singleton|].
  destruct (_ <? _), (_ <? _); cbn [app]; try apply pairwise_singleton; [|done].
  split; [|apply pairwise_singleton]. intros b ->%list_elem_of_singleton. unfold apart, region_end; simpl. lia.
Qed.

Lemma pieces_ok r e p :
  region_ok tgt r -> region_ok tgt e -> p ∈ pieces r e -> region_ok tgt p /\ typ p = typ e.
Proof.
  intros Hr He. destruct (joinable r e) eqn:Hj.
  - rewrite pieces_joined by done. intros ->%list_elem_of_singleton.
    by destruct (merged_spec r e Hr He Hj) as (? & ? & _).
  - rewrite pieces_cut by done. by apply cut_ok.
Qed.

Lemma pieces_mem r e x :
  region_ok tgt r -> region_ok tgt e ->
  (exists p, p ∈ pieces r e /\ inside x p) <->
  (inside x e /\ (typ e = typ r \/ ~ inside x r)) \/ (joinable r e = true /\ inside x r).
Proof.
  intros Hr He. destruct (joinable r e) eqn:Hj.
  - rewrite pieces_joined by done. setoid_rewrite list_elem_of_singleton.
    destruct (merged_spec r e Hr He Hj) as (_ & _ & Hm). apply joinable_spec in Hj as [Ht _].
    transitivity (inside x (merged r e)); [naive_solver|]. rewrite Hm. naive_solver.
  - rewrite pieces_cut, cut_mem by done. naive_solver.
Qed.

Lemma apart_inside r1 r2 :
  region_ok tgt r1 -> region_ok tgt r2 -> apart r1 r2 <-> (forall x, inside x r1 -> inside x r2 -> False).
Proof.
  intros (? & ? & _) (? & ? & _). unfold apart, inside, region_end. split; [intros; lia|].
  intros Hx. destruct (decide (address r1 <= address r2)).
  - left. destruct (decide (address r1 + size r1 <= address r2)); [done|]. destruct (Hx (address r2)); lia.
  - right. destruct (decide (address r2 + size r2 <= address r1)); [done|]. destruct (Hx (address r1)); lia.
Qed.

(** A new region that can be added: a region of its type either takes it in or
    does not meet it, and at most one takes it in. *)
Definition addable (rs : MemoryRegions) (r : Region) : Prop :=
  region_ok tgt r /\ (forall e, e ∈ rs -> typ e = typ r -> joinable r e = true \/ apart r e) /\
  pairwise (fun a b => joinable r a && joinable r b = false) rs.

Lemma pieces_apart rs r : regions_ok tgt rs -> addable rs r -> pairwise apart (rs ≫= pieces r).
Proof.
  intros [Hok Hap] (Hr & Hfit & Hone). apply pairwise_bind.
  - intros e He%Hok. destruct (joinable r e) eqn:Hj.
    + rewrite pieces_joined by done. apply pairwise_singleton.
    + rewrite pieces_cut by done. by apply cut_pairwise.
  - eapply pairwise_impl; [|apply (pairwise_and _ _ _ Hap Hone)]. intros e1 e2 H1 H2 [Ha Hj] p q Hp Hq.
    pose proof (Hok e1 H1) as Ho1. pose proof (Hok e2 H2) as Ho2.
    destruct (pieces_ok r e1 p) as [Hp1 _], (pieces_ok r e2 q) as [Hq1 _]; try done.
    apply apart_inside; [done..|]. intros x Hxp Hxq.
    assert (exists p, p ∈ pieces r e1 /\ inside x p) as M1%pieces_mem by eauto; try done.
    assert (exists p, p ∈ pieces r e2 /\ inside x p) as M2%pieces_mem by eauto; try done.
    rewrite (apart_inside e1 e2) in Ha by done.
    assert (forall e, e ∈ rs -> typ e = typ r -> joinable r e = false -> inside x e -> ~ inside x r) as Hno.
    { intros e He Ht Hje Hx Hxr. destruct (Hfit e He Ht) as [?|Hae]; [congruence|].
      rewrite apart_inside in Hae by auto. eauto. }
    destruct (joinable r e1) eqn:J1, (joinable r e2) eqn:J2; try done; naive_solver.
Qed.

Lemma clear_inside r1 r2 :
  region_ok tgt r1 -> region_ok tgt r2 ->
  clear_of r1 r2 <-> (typ r1 = typ r2 -> forall x y, inside x r1 -> inside y r2 -> 1 < Z.abs (x - y)).
Proof.
  intros (? & ? & _) (? & ? & _). unfold clear_of, inside, region_end. split; intros Hx Ht; specialize (Hx Ht).
  - intros. lia.
  - destruct (decide (address r1 <= address r2)).
    + left. destruct (decide (address r1 + size r1 < address r2)); [done|].
      specialize (Hx (Z.min (address r1 + size r1 - 1) (address r2)) (address r2)). lia.
    + right. destruct (decide (address r2 + size r2 < address r1)); [done|].
      specialize (Hx (address r1) (Z.min (address r2 + size r2 - 1) (address r1))). lia.
Qed.

(** A region of its type that the new one is not merged with is clear of it. *)
Lemma addable_clear rs r e :
  addable rs r -> e ∈ rs -> joinable r e = false -> clear_of r e.
Proof.
  intros (_ & Hfit & _) He Hj Ht. destruct (Hfit e He (eq_sym Ht)) as [?|Ha]; [congruence|].
  assert (~ (region_end r = address e \/ region_end e = address r)) as Hn.
  { intros Hn. apply not_true_iff_false in Hj. apply Hj, joinable_spec. tauto. }
  unfold apart in Ha. lia.
Qed.

Lemma cut_clear r e : region_ok tgt r -> pairwise clear_of (cut r e).
Proof.
  intros (? & ? & _). unfold cut. destruct (_ || _); [apply pairwise_singleton|].
  destruct (_ <? _), (_ <? _); cbn [app]; try apply pairwise_singleton; [|done].
  split; [|apply pairwise_singleton]. intros b ->%list_elem_of_singleton _. unfold region_end; simpl. lia.
Qed.

(** Regions of one type stay clear of each other. *)
Lemma pieces_clear rs r :
  regions_ok tgt rs -> addable rs r -> pairwise clear_of rs -> pairwise clear_of (rs ≫= pieces r).
Proof.
  intros [Hok _] Hadd Hcl. pose proof Hadd as (Hr & _ & Hone). apply pairwise_bind.
  - intros e He%Hok. destruct (joinable r e) eqn:Hj.
    + rewrite pieces_joined by done. apply pairwise_singleton.
    + rewrite pieces_cut by done. by apply cut_clear.
  - eapply pairwise_impl; [|apply (pairwise_and _ _ _ Hcl Hone)]. intros e1 e2 H1 H2 [Ha Hj] p q Hp Hq.
    pose proof (Hok e1 H1) as Ho1. pose proof (Hok e2 H2) as Ho2.
    destruct (pieces_ok r e1 p) as [Hp1 Ht1], (pieces_ok r e2 q) as [Hq1 Ht2]; try done.
    apply clear_inside; [done..|]. intros Ht x y Hxp Hyq.
    assert (exists p, p ∈ pieces r e1 /\ inside x p) as M1%pieces_mem by eauto; try done.
    assert (exists p, p ∈ pieces r e2 /\ inside y p) as M2%pieces_mem by eauto; try done.
    rewrite clear_inside in Ha by done. specialize (Ha ltac:(congruence)).
    destruct M1 as [[M1 _]|[J1 M1]], M2 as [[M2 _]|[J2 M2]]; [auto|..].
    + rewrite J2, andb_true_r in Hj. pose proof (addable_clear rs r e1 Hadd H1 Hj) as Hc.
      apply joinable_spec in J2 as [? _]. rewrite clear_inside in Hc by done.
      specialize (Hc ltac:(congruence) y x M2 M1). lia.
    + rewrite J1 in Hj. pose proof (addable_clear rs r e2 Hadd H2 Hj) as Hc.
      apply joinable_spec in J1 as [? _]. rewrite clear_inside in Hc by done. apply Hc; [congruence|done..].
    + by rewrite J1, J2 in Hj.
Qed.

Lemma pieces_length rs r :
  regions_ok tgt rs -> region_ok tgt r -> (length (rs ≫= pieces r) <= length rs + 1)%nat.
Proof.
  intros [Hok Hap] Hr. induction rs as [|e rs IH]; [simpl; lia|]. rewrite bind_cons, length_app. cbn [length].
  destruct Hap as [Ha Hap]. specialize (IH ltac:(set_solver) Hap).
  destruct (decide (length (pieces r e) <= 1)%nat); [lia|].
  assert (length (pieces r e) = 2)%nat as -> by (revert n; unfold pieces, cut; destruct (_ || _); [simpl; lia|]; destruct (_ <? _), (_ <? _); simpl; lia).
  enough (length (rs ≫= pieces r) = length rs) by lia.
  assert (joinable r e = false) as Hj by (by destruct (joinable r e) eqn:?; [rewrite pieces_joined in n by done; simpl in n; lia|]).
  rewrite pieces_cut in n by done.
  assert (address e < address r /\ region_end r < region_end e) as [He1 He2].
  { revert n. unfold cut. destruct (_ || _); simpl; [lia|].
    destruct (Z.ltb_spec (address e) (address r)), (Z.ltb_spec (region_end r) (region_end e)); simpl; lia. }
  apply bind_length_one. intros e' He'. specialize (Ha e' He').
  destruct (joinable r e') eqn:Hj'; [by rewrite pieces_joined|]. rewrite pieces_cut by done.
  unfold cut, intersecting. destruct Hr as (_ & ? & _), (Hok e' ltac:(set_solver)) as (_ & ? & _).
  unfold apart, region_end in *.
  destruct (Z.ltb_spec (address e') (address r + size r)), (Z.ltb_spec (address r) (address e' + size e')); try lia;
    simpl; by rewrite orb_true_r.
Qed.

(** Adding a region makes its addresses what it says and leaves the others. *)
Lemma add_region_spec rs r :
  regions_ok tgt rs -> addable rs r -> (length rs <= 30)%nat ->
  add_region tgt rs r ⇓ fun rs' =>
    regions_ok tgt rs' /\ (length rs' <= length rs + 2)%nat /\
    (pairwise clear_of rs -> pairwise clear_of rs') /\
    (forall t x, covers rs' t x <-> (inside x r /\ t = typ r) \/ (~ inside x r /\ covers rs t x)).
Proof using AVS.
  intros Hrs Hadd Hlen. pose proof Hrs as [Hok Hap]. pose proof Hadd as (Hr & Hfit & _).
  unfold add_region. rewrite merge_regions_val by done. obind.
  assert (forall e, e ∈ merged r <$> rs -> region_ok tgt e) as Hmok.
  { intros e (e0 & -> & He0)%list_elem_of_fmap. destruct (joinable r e0) eqn:Hj.
    - by apply merged_spec; auto.
    - unfold merged. rewrite Hj. auto. }
  rewrite shrink_regions_val by done. obind.
  replace ((merged r <$> rs) ≫= cut r) with (rs ≫= pieces r) by (by rewrite list_fmap_bind).
  pose proof (pieces_length rs r Hrs Hr) as Hpl. pose proof (pieces_apart rs r Hrs Hadd) as Hpa.
  rewrite array_collect_in by (unfold MAX_REGIONS; lia). obind.
  assert (forall p, p ∈ rs ≫= pieces r -> region_ok tgt p) as Hpok.
  { intros p (e & Hp & He)%list_elem_of_bind. by destruct (pieces_ok r e p Hr (Hok e He) Hp). }
  assert (forall t x, covers (rs ≫= pieces r) t x <->
    exists e, e ∈ rs /\ typ e = t /\
      ((inside x e /\ (typ e = typ r \/ ~ inside x r)) \/ (joinable r e = true /\ inside x r))) as Hcov.
  { intros t x. split.
    - intros (p & (e & Hp & He)%list_elem_of_bind & Ht & Hx). destruct (pieces_ok r e p) as [_ Hte]; auto.
      exists e. split_and!; [done|congruence|]. apply pieces_mem; eauto.
    - intros (e & He & Ht & (p & Hp & Hx)%pieces_mem); auto. destruct (pieces_ok r e p) as [_ Hte]; auto.
      exists p. split_and!; [apply list_elem_of_bind; eauto|congruence|done]. }
  destruct (existsb (joinable r) rs) eqn:Hj; simpl.
  - apply existsb_exists in Hj as (e & He%list_elem_of_In & Hj). pose proof Hj as [Ht _]%joinable_spec.
    split_and!; [done|lia|by apply pieces_clear|]. intros t x. rewrite Hcov. split.
    + intros (e' & ? & ? & Hx). destruct (decide (inside x r)) as [Hxr|]; [left|right].
      * split; [done|]. destruct Hx as [[_ [?|?]]|[[? _]%joinable_spec _]]; congruence.
      * split; [done|]. exists e'. naive_solver.
    + intros [[Hx ->]|[Hx (e' & ? & ? & ?)]]; [exists e; naive_solver|exists e'; naive_solver].
  - assert (forall e, e ∈ rs -> joinable r e = false) as Hnj.
    { intros e He. destruct (joinable r e) eqn:E; [|done]. rewrite <- Hj. symmetry. apply existsb_exists. exists e.
      split; [by apply list_elem_of_In|done]. }
    rewrite array_push_in by (unfold MAX_REGIONS; lia). simpl. split_and!.
    + split; [set_solver|]. apply pairwise_app. split_and!; [done|apply pairwise_singleton|].
      intros p ? Hp ->%list_elem_of_singleton. apply apart_inside; [auto..|]. intros x Hxp Hxr.
      apply list_elem_of_bind in Hp as (e & Hp & He).
      assert (exists p, p ∈ pieces r e /\ inside x p) as M%pieces_mem by eauto; auto.
      destruct M as [[Hxe [Ht|?]]|[Hje _]]; [|done|by rewrite Hnj in Hje].
      destruct (Hfit e He Ht) as [Hje|Ha]; [by rewrite Hnj in Hje|]. rewrite apart_inside in Ha by auto. eauto.
    + rewrite length_app. simpl. lia.
    + intros Hcl. apply pairwise_app. split_and!; [by apply pieces_clear|apply pairwise_singleton|].
      intros p ? Hp ->%list_elem_of_singleton. pose proof (Hpok p Hp) as Hpo. apply clear_inside; [auto..|].
      intros Htp x y Hxp Hyr. apply list_elem_of_bind in Hp as (e & Hp & He).
      destruct (pieces_ok r e p Hr (Hok e He) Hp) as [_ Hte].
      assert (exists p, p ∈ pieces r e /\ inside x p) as M%pieces_mem by eauto; auto.
      destruct M as [[Hxe _]|[Hje _]]; [|by rewrite Hnj in Hje].
      pose proof (addable_clear rs r e Hadd He (Hnj e He)) as Hc. rewrite clear_inside in Hc by auto.
      specialize (Hc ltac:(congruence) y x Hyr Hxe). lia.
    + intros t x. transitivity (covers (rs ≫= pieces r) t x \/ (t = typ r /\ inside x r)).
      { unfold covers. setoid_rewrite elem_of_app. setoid_rewrite list_elem_of_singleton. naive_solver. }
      rewrite Hcov. split.
      * intros [(e' & ? & ? & Hx)|[-> ?]]; [|naive_solver].
        destruct Hx as [[Hxe Hx]|[Hje _]]; [|by rewrite Hnj in Hje].
        destruct (decide (inside x r)); [left|right]; [|split; [done|by exists e']]. split; [done|].
        destruct Hx; [congruence|done].
      * intros [[Hx ->]|[Hx (e' & ? & ? & ?)]]; [by right|left; exists e'; naive_solver].
Qed.

End add_region.

(** ** The region map from the device tree *)

(** What the last of the declared regions that contains an address says of it. *)
Definition described (l : list Region) (t : RegionType) (x : Z) : Prop :=
  exists pre r post, l = pre ++ r :: post /\ inside x r /\ typ r = t /\ (forall q, q ∈ post -> ~ inside x q).

Lemma described_snoc l r t x :
  described (l ++ [r]) t x <-> (inside x r /\ t = typ r) \/ (~ inside x r /\ described l t x).
Proof.
  split.
  - intros (pre & q & post & E & Hx & Ht & Hno). destruct post as [|p post _] using rev_ind.
    + apply app_inj_tail in E as [-> ->]. by left.
    + change (q :: post ++ [p]) with ((q :: post) ++ [p]) in E. rewrite app_assoc in E.
      apply app_inj_tail in E as [-> ->]. right. split; [apply Hno; set_solver|].
      exists pre, q, post. split_and!; try done. intros. apply Hno. set_solver.
  - intros [[Hx ->]|[Hx (pre & q & post & -> & ? & ? & Hno)]].
    + exists l, r, []. split_and!; try done. set_solver.
    + exists pre, q, (post ++ [r]). rewrite <- app_assoc. split_and!; try done. set_solver.
Qed.

Section declared.
Context `{AV : ArrayVec} `{AVS : !ArrayVecSpec} (tgt : target).

(** A map that describes the regions declared so far. *)
Definition maps (l : list Region) (rs : MemoryRegions) : Prop :=
  regions_ok tgt rs /\ pairwise clear_of rs /\ (length rs <= 2 * length l)%nat /\
  forall t x, covers rs t x <-> described l t x.

(** A region repeats what is declared, or adds to it without joining two parts: all
    of it is declared to be of its type already, or none of it is and not both of
    the addresses next to it are. *)
Definition extends (l : list Region) (r : Region) : Prop :=
  (forall x, inside x r -> described l (typ r) x) \/
  (forall x, inside x r -> ~ described l (typ r) x) /\
  ~ (described l (typ r) (address r - 1) /\ described l (typ r) (region_end r)).

(** Two regions of one type, clear of each other, do not both reach [x]. *)
Lemma clear_meet e1 e2 x :
  0 < size e1 -> clear_of e1 e2 -> typ e1 = typ e2 -> inside x e1 \/ x = region_end e1 -> inside x e2 -> False.
Proof. intros Hs Hc Ht H1 H2. specialize (Hc Ht). unfold inside, region_end in *. lia. Qed.

Lemma clear_of_sym e1 e2 : clear_of e1 e2 -> clear_of e2 e1.
Proof. intros Hc Ht. destruct (Hc (eq_sym Ht)); auto. Qed.

Lemma clear_cases rs e e' : pairwise clear_of rs -> e ∈ rs -> e' ∈ rs -> e = e' \/ clear_of e e'.
Proof.
  induction rs as [|a rs IH]; [set_solver|]. intros [Ha Hrs] [->|He]%elem_of_cons [->|He']%elem_of_cons; auto.
  right. by apply clear_of_sym, Ha.
Qed.

(** What is declared throughout lies in one region. *)
Lemma maps_contained l rs r :
  maps l rs -> region_ok tgt r -> (forall x, inside x r -> described l (typ r) x) ->
  exists e, e ∈ rs /\ typ e = typ r /\ address e <= address r /\ region_end r <= region_end e.
Proof.
  intros ([Hok _] & Hcl & _ & Hc) (Hr0 & Hr1 & _) Hall. unfold region_end in *.
  destruct (proj2 (Hc (typ r) (address r))) as (e & He & Ht & Hx).
  { apply Hall. unfold inside, region_end. lia. }
  exists e. unfold inside, region_end in Hx. split_and!; [done|done|lia|].
  destruct (decide (address r + size r <= address e + size e)) as [|Hn]; [done|exfalso].
  destruct (proj2 (Hc (typ r) (address e + size e))) as (e' & He' & Ht' & Hx').
  { apply Hall. unfold inside, region_end. lia. }
  destruct (clear_cases rs e e' Hcl He He') as [->|Hce]; [unfold inside, region_end in Hx'; lia|].
  eapply clear_meet; [|exact Hce|congruence| |exact Hx']; [lia|by right].
Qed.

Lemma maps_addable l rs r :
  maps l rs -> region_ok tgt r -> extends l r -> addable tgt rs r.
Proof.
  intros Hm Hr Hex. pose proof Hm as ([Hok _] & Hcl & _ & Hc). pose proof Hr as (Hr0 & Hr1 & _).
  assert (forall e x, e ∈ rs -> typ e = typ r -> inside x e -> described l (typ r) x) as Hdesc
    by (intros e x He Ht Hx; apply Hc; by exists e).
  destruct Hex as [Hall|[Hnone Hbr]].
  - destruct (maps_contained l rs r Hm Hr Hall) as (e & He & Ht & Ha & Hb).
    assert (forall e', e' ∈ rs -> typ e' = typ r -> e' = e \/ clear_of e e') as Hother
      by (intros e' He' _; destruct (clear_cases rs e e' Hcl He He'); auto).
    split_and!; [done| |].
    + intros e' He' Ht'. destruct (Hother e' He' Ht') as [->|Hce]; [left; apply joinable_spec; auto|right].
      specialize (Hce ltac:(congruence)). unfold apart, region_end in *. lia.
    + eapply pairwise_impl; [|exact Hcl]. intros a b Hina Hinb Hab. apply not_true_iff_false.
      rewrite andb_true_iff, !joinable_spec. intros [[Ta Ja] [Tb Jb]].
      specialize (Hab ltac:(congruence)). destruct (Hok a Hina) as (? & ? & _), (Hok b Hinb) as (? & ? & _).
      destruct (Hother a Hina (eq_sym Ta)) as [->|Hca], (Hother b Hinb (eq_sym Tb)) as [->|Hcb];
        [unfold region_end in *; lia|specialize (Hcb ltac:(congruence))|specialize (Hca ltac:(congruence))
        |specialize (Hca ltac:(congruence)); specialize (Hcb ltac:(congruence))]; unfold region_end in *; lia.
  - assert (forall e, e ∈ rs -> typ e = typ r -> apart r e) as Hap.
    { intros e He Ht. apply (apart_inside tgt); [done|by apply Hok|]. intros x Hxr Hxe.
      by eapply Hnone, Hdesc. }
    split_and!; [done|by intros e He Ht; right; apply Hap|].
    eapply pairwise_impl; [|exact Hcl]. intros a b Hina Hinb Hab. apply not_true_iff_false.
    rewrite andb_true_iff, !joinable_spec. intros [[Ta Ja] [Tb Jb]]. apply Hbr.
    specialize (Hab ltac:(congruence)). pose proof (Hap a Hina (eq_sym Ta)) as Pa.
    pose proof (Hap b Hinb (eq_sym Tb)) as Pb. destruct (Hok a Hina) as (? & ? & _), (Hok b Hinb) as (? & ? & _).
    unfold apart, region_end in *.
    destruct (decide (address a < address b)).
    + split; [apply (Hdesc a)|apply (Hdesc b)]; try done; unfold inside, region_end; lia.
    + split; [apply (Hdesc b)|apply (Hdesc a)]; try done; unfold inside, region_end; lia.
Qed.

Lemma maps_add l rs r :
  maps l rs -> region_ok tgt r -> extends l r -> (length l <= 15)%nat ->
  add_region tgt rs r ⇓ maps (l ++ [r]).
Proof using AVS.
  intros Hm Hr Hex Hlen. pose proof Hm as (Hok & Hcl & Hl & Hc). eapply returns_weaken.
  { apply add_region_spec; [done|by eapply maps_addable|lia]. }
  intros rs' (Hok' & Hl' & Hcl' & Hc'). split_and!; [done|auto|rewrite length_app; simpl; lia|].
  intros t x. by rewrite Hc', described_snoc, Hc.
Qed.

(** The regions the device tree, the linker script and the ramdisk declare, in the
    order in which they are added. *)
Definition round_up (n : Z) : Z := (n + 4095) / 4096 * 4096.

Definition declared_memory (m : MemoryRegion) : Region :=
  mkRegion Usable (starting_address m) (default 0 (region_size m)).

Definition declared_reservation (r : Reservation) : list Region :=
  match reg r with
  | Some (m :: _) =>
      [mkRegion (Reserved (if String.prefix "mmode_resv" (name r) then Firmware else Unknown))
         (starting_address m) (default 0 (region_size m))]
  | _ => []
  end.

Definition declared (fdt : Fdt) (fdt_address seed_start seed_end : Z) (ramdisk : option (Z * Z)) : list Region :=
  (declared_memory <$> memory_regions fdt) ++ (default [] (reservations fdt) ≫= declared_reservation) ++
  [mkRegion (Reserved Seed) seed_start (round_up (seed_end - seed_start));
   mkRegion (Reserved DeviceTree) fdt_address (round_up (total_size fdt))] ++
  match ramdisk with Some (a, s) => [mkRegion (Reserved Ramdisk) a (round_up s)] | None => [] end.

(** Every node has the address and the size the loader reads. *)
Definition fdt_ok (fdt : Fdt) : Prop :=
  (forall m, m ∈ memory_regions fdt -> is_Some (region_size m)) /\
  (forall r, r ∈ default [] (reservations fdt) -> exists m l, reg r = Some (m :: l) /\ is_Some (region_size m)) /\
  0 < total_size fdt.

(** The region map that [seed_main] initialises the memory manager with. *)
Definition boot_regions (fdt : Fdt) (fdt_address seed_start seed_end : Z) (ramdisk : option (Z * Z)) :
    outcome MemoryRegions :=
  rs ← MemoryRegions_new tgt fdt fdt_address seed_start seed_end;
  add_ramdisk tgt rs ramdisk.

Lemma add_declared l :
  (forall q, q ∈ l -> region_ok tgt q) -> (forall pre r post, l = pre ++ r :: post -> extends pre r) ->
  (length l <= 16)%nat ->
  ofold (add_region tgt) [] l ⇓ maps l.
Proof using AVS.
  intros Hok Hex Hlen. apply (ofold_invariant _ maps).
  - split_and!; [split; [set_solver|done]|done|done|]. intros t x. split; [intros (? & ? & _); set_solver|].
    intros (pre & r & post & E & _). by destruct pre.
  - intros l1 r l2 rs -> Hm. rewrite length_app in Hlen. simpl in Hlen.
    apply maps_add; [done|set_solver|by eapply Hex|lia].
Qed.

Lemma region_new_ok r : region_ok tgt r -> Region_new (typ r) (address r) (size r) = Val r.
Proof. intros (_ & _ & _ & _ & ?). destruct r. by apply region_new_val. Qed.

Lemma paddr_ok r : region_ok tgt r -> PAddr.new tgt (address r) = Some (address r).
Proof. intros (? & ? & ? & _). apply paddr_new_valid. unfold paddr_valid, region_end in *. lia. Qed.

Lemma align_up_round n : 0 < n -> n + 4096 < 2 ^ 64 -> align_up 64 n (SIZE Size4KiB) = Val (round_up n).
Proof.
  intros. change (SIZE Size4KiB) with (2 ^ 12). rewrite align_up_pow2 by (unfold is_unsigned; lia).
  f_equal. unfold round_up. pose proof (Z.div_mod (n + 4095) 4096). change (2 ^ 12) with 4096.
  replace (n + 4096 - 1) with (n + 4095) by lia. lia.
Qed.

(** The loader adds exactly the declared regions. *)
Lemma add_memory_eq rs m :
  region_ok tgt (declared_memory m) -> is_Some (region_size m) ->
  add_memory tgt rs m = add_region tgt rs (declared_memory m).
Proof.
  intros Hr [s Es]. pose proof (paddr_ok _ Hr) as Hp. pose proof (region_new_ok _ Hr) as Hn.
  unfold add_memory, Region_usable, declared_memory in *. rewrite Es in *. simpl in *. rewrite Hp. simpl. by rewrite Hn.
Qed.

Lemma add_reservation_eq rs v m l :
  (forall r, r ∈ declared_reservation v -> region_ok tgt r) -> reg v = Some (m :: l) -> is_Some (region_size m) ->
  add_reservation tgt rs v = ofold (add_region tgt) rs (declared_reservation v).
Proof.
  unfold add_reservation, declared_reservation, Region_reserved. intros Hr Hg [s Es]. rewrite Hg in *.
  set (u := if String.prefix _ _ then _ else _) in *. clearbody u. simpl in *. rewrite Es in *. simpl in *.
  pose proof (Hr _ ltac:(left)) as Hr0. pose proof (paddr_ok _ Hr0) as Hp. pose proof (region_new_ok _ Hr0) as Hn.
  simpl in *. rewrite Hp. simpl. rewrite Hn. simpl. by destruct (add_region _ _ _).
Qed.

Lemma boot_regions_eq fdt fdt_address seed_start seed_end ramdisk :
  fdt_ok fdt -> 0 < seed_end - seed_start -> total_size fdt + 4096 < 2 ^ 64 -> seed_end + 4096 < 2 ^ 64 ->
  match ramdisk with Some (_, s) => 0 < s /\ s + 4096 < 2 ^ 64 | None => True end ->
  (forall r, r ∈ declared fdt fdt_address seed_start seed_end ramdisk -> region_ok tgt r) ->
  boot_regions fdt fdt_address seed_start seed_end ramdisk =
  ofold (add_region tgt) [] (declared fdt fdt_address seed_start seed_end ramdisk).
Proof.
  intros (Hfm & Hfr & Hts) Hs Ht He Hrd Hok. unfold declared in *. rewrite !ofold_app.
  unfold boot_regions, MemoryRegions_new.
  assert (forall rs, ofold (add_memory tgt) rs (memory_regions fdt) =
    ofold (add_region tgt) rs (declared_memory <$> memory_regions fdt)) as ->.
  { intros rs. erewrite (ofold_bind _ _ (fun m => [declared_memory m])); [by rewrite list_fmap_alt|].
    intros s m Hm. rewrite add_memory_eq; [|apply Hok|by apply Hfm]; [simpl; by destruct (add_region _ _ _)|].
    apply elem_of_app. left. by apply list_elem_of_fmap_2. }
  assert (forall rs, match reservations fdt with
    | Some l => ofold (add_reservation tgt) rs l | None => mret rs end =
    ofold (add_region tgt) rs (default [] (reservations fdt) ≫= declared_reservation)) as Hres.
  { intros rs. transitivity (ofold (add_reservation tgt) rs (default [] (reservations fdt)));
      [by destruct (reservations fdt)|].
    apply ofold_bind. intros s v Hv. destruct (Hfr v Hv) as (m & l & Hm & Hsz).
    apply (add_reservation_eq _ _ m l); [|done..].
    intros r Hr. apply Hok. rewrite !elem_of_app. right. left. apply list_elem_of_bind. eauto. }
  destruct (ofold (add_region tgt) [] _) as [rs1|]; [|done]. obind. rewrite Hres, ofold_app.
  destruct (ofold (add_region tgt) rs1 _) as [rs2|]; [|done]. obind.
  set (r1 := mkRegion (Reserved Seed) _ _) in *. set (r2 := mkRegion (Reserved DeviceTree) _ _) in *.
  assert (region_ok tgt r1) as H1 by (apply Hok; set_solver). assert (region_ok tgt r2) as H2 by (apply Hok; set_solver).
  pose proof H1 as (? & _). simpl in *.
  rewrite (paddr_ok r1 H1 : PAddr.new tgt seed_start = _). simpl.
  rewrite wsub_in by (unfold is_unsigned; lia). obind. rewrite !align_up_round by lia. obind.
  rewrite (region_new_ok r1 H1 : Region_reserved Seed seed_start (round_up (seed_end - seed_start)) = _). obind.
  destruct (add_region tgt rs2 r1) as [rs3|]; [|done]. obind.
  rewrite (region_new_ok r2 H2 : Region_reserved DeviceTree fdt_address (round_up (total_size fdt)) = _). obind.
  destruct (add_region tgt rs3 r2) as [rs4|]; [|done]. obind.
  destruct ramdisk as [[a s]|]; [|done]. unfold add_ramdisk. rewrite align_up_round by lia. obind.
  assert (region_ok tgt (mkRegion (Reserved Ramdisk) a (round_up s))) as H3 by (apply Hok; set_solver).
  rewrite (region_new_ok _ H3 : Region_reserved Ramdisk a (round_up s) = _). obind. simpl. by destruct (add_region _ _ _).
Qed.

End declared.

(** C23: The region map of the loader says of every address what the last region
    declared for it says: memory of the device tree is usable, except where a
    reservation, the loader itself, the device tree or the ramdisk lies.  The
    regions are whole frames, not empty and disjoint, and those of one type do not
    even touch: what is declared in pieces that touch is merged.  This is for up to
    sixteen declared regions of whole frames, each of which repeats what is declared
    or extends it, but neither overlaps a region of its type in part nor closes the
    gap between two of them. *)
Theorem seed_regions_correct `{AV : ArrayVec} `{AVS : !ArrayVecSpec} tgt
    fdt fdt_address seed_start seed_end ramdisk
    (Hfdt : fdt_ok fdt) (Hseed : seed_start < seed_end) (Hsz : total_size fdt + 4096 < 2 ^ 64)
    (Hse : seed_end + 4096 < 2 ^ 64)
    (Hrd : match ramdisk with Some (_, s) => 0 < s /\ s + 4096 < 2 ^ 64 | None => True end) :
  let l := declared fdt fdt_address seed_start seed_end ramdisk in
  (forall r, r ∈ l -> region_ok tgt r) -> (forall pre r post, l = pre ++ r :: post -> extends pre r) ->
  (length l <= 16)%nat ->
  boot_regions tgt fdt fdt_address seed_start seed_end ramdisk ⇓ fun rs =>
    regions_ok tgt rs /\ pairwise clear_of rs /\ (length rs <= MAX_REGIONS)%nat /\
    forall t x, covers rs t x <-> described l t x.
Proof.
  intros l Hok Hcl Hlen. rewrite boot_regions_eq by (done || lia).
  eapply returns_weaken; [by apply add_declared|]. intros rs (? & ? & Hl & ?).
  split_and!; [done|done|unfold MAX_REGIONS, l in *; lia|done].
Qed.

(** ** Examples *)

Module RegionExample.

Definition arrays : ArrayVec := reference_array_vec.
#[local] Existing Instance arrays.

(** One GiB of memory in two halves that touch, with a firmware in two parts, the
    loader, a device tree and a ramdisk. *)
Definition board : Fdt :=
  mkFdt [mkMemoryRegion 0x80000000 (Some 0x20000000); mkMemoryRegion 0xa0000000 (Some 0x20000000)]
        (Some [mkReservation "mmode_resv0@80000000" (Some [mkMemoryRegion 0x80000000 (Some 0x40000)]);
               mkReservation "mmode_resv1@80040000" (Some [mkMemoryRegion 0x80040000 (Some 0x20000)])]) 0x1234.

Definition board_regions : list Region :=
  declared board 0x82200000 0x80200000 0x80234560 (Some (0xb0000000, 0x345678)).

Ltac each_region H := repeat (apply elem_of_cons in H as [->|H]); [..|by apply elem_of_nil in H].

Lemma board_regions_eq : board_regions =
  [mkRegion Usable 0x80000000 0x20000000; mkRegion Usable 0xa0000000 0x20000000;
   mkRegion (Reserved Firmware) 0x80000000 0x40000; mkRegion (Reserved Firmware) 0x80040000 0x20000;
   mkRegion (Reserved Seed) 0x80200000 0x35000; mkRegion (Reserved DeviceTree) 0x82200000 0x2000;
   mkRegion (Reserved Ramdisk) 0xb0000000 0x346000].
Proof. reflexivity. Qed.

(** A region after declared ones that end before it. *)
Lemma extends_after l r :
  (forall q, q ∈ l -> typ q = typ r -> region_end q <= address r) -> 0 < size r -> extends l r.
Proof.
  intros Hq Hr. right.
  assert (forall x, address r <= x -> ~ described l (typ r) x) as Hno.
  { intros x Hx (pre & q & post & -> & Hin & Ht & _). specialize (Hq q ltac:(set_solver) Ht).
    unfold inside in Hin. lia. }
  split; [intros x Hx; apply Hno, Hx|]. intros [_ Hd]. eapply Hno; [|exact Hd]. unfold region_end. lia.
Qed.

Lemma board_ok :
  (forall r, r ∈ board_regions -> region_ok Rv64Virt r) /\
  (forall pre r post, board_regions = pre ++ r :: post -> extends pre r) /\
  (length board_regions <= 16)%nat.
Proof.
  rewrite board_regions_eq. split_and!; [| |simpl; lia].
  - intros r Hr. each_region Hr; unfold region_ok, region_end; simpl;
      split_and!; try lia; apply Z.mod_divide; done.
  - intros pre r post E.
    do 7 (destruct pre as [|? pre]; simplify_list_eq;
      [apply extends_after; [intros q Hq Ht; each_region Hq; unfold region_end; simpl in *; (done || lia)|simpl; lia]|]).
    by destruct pre.
Qed.

Lemma board_fdt_ok : fdt_ok board.
Proof.
  split_and!; [| |done].
  - intros m Hm. each_region Hm; by eexists.
  - intros r Hr. simpl in Hr. each_region Hr; eexists _, _; (split; [done|]); by eexists.
Qed.

Lemma seed_regions_correct_witness :
  boot_regions Rv64Virt board 0x82200000 0x80200000 0x80234560 (Some (0xb0000000, 0x345678)) ⇓ fun rs =>
    regions_ok Rv64Virt rs /\ pairwise clear_of rs /\ (length rs <= MAX_REGIONS)%nat /\
    forall t x, covers rs t x <-> described board_regions t x.
Proof.
  apply (@seed_regions_correct arrays reference_array_vec_spec Rv64Virt board 0x82200000 0x80200000 0x80234560
    (Some (0xb0000000, 0x345678)) board_fdt_ok); [lia|simpl; lia|lia|lia|apply board_ok..].
Defined.

(** Usable memory that overlaps a usable region in part is added as it is. *)
Lemma overlapping_memory_kept :
  ofold (add_region Rv64Virt) [] [mkRegion Usable 0x1000 0x2000; mkRegion Usable 0x2000 0x2000] =
  Val [mkRegion Usable 0x1000 0x2000; mkRegion Usable 0x2000 0x2000].
Proof. vm_compute. reflexivity. Qed.

(** A device tree that is aligned as [seed_main] asserts, but not to a page. *)
Lemma unaligned_device_tree_panics :
  MemoryRegions_new Rv64Virt board 0x82200008 0x80200000 0x80234560 = Panic.
Proof. vm_compute. reflexivity. Qed.

End RegionExample.
