(* ===== verification/SeedMemory.v ===== *)
(** * [seed/seed_riscv/src/memory.rs]: the memory manager of the RISC-V loader

    The loader allocates frames from a list of nodes that it keeps in the free
    memory itself, and finally writes the memory map that the kernel builds its
    own manager from ([BootInfoArea] is in [main.rs]).  The theorems follow memory
    from the region map of [SeedRegions] to the kernel's manager [Pmm]. *)

From stdpp Require Import base tactics option list numbers gmap sets relations.
From S2P Require Import Prelude Memory FrameAllocator Buddy Pmm Crates SeedRegions.

(** ** The memory manager

    [nodes] is the part of physical memory that holds the nodes of the free list,
    by their addresses. *)

Record Node := mkNode { node_size : Z; node_prev : option Z; node_next : option Z }.

Record MemoryManager := mkManager {
  mm_target : target;
  regions : option MemoryRegions;
  usable_head : option Z;
  usable_tail : option Z;
  nodes : gmap Z Node;
}.

Definition MemoryManager_new (tgt : target) (memory : gmap Z Node) : MemoryManager :=
  mkManager tgt None None None memory.

Definition set_nodes (m : MemoryManager) (ns : gmap Z Node) : MemoryManager :=
  mkManager (mm_target m) (regions m) (usable_head m) (usable_tail m) ns.
Definition set_head (m : MemoryManager) (h : option Z) : MemoryManager :=
  mkManager (mm_target m) (regions m) h (usable_tail m) (nodes m).
Definition set_tail (m : MemoryManager) (t : option Z) : MemoryManager :=
  mkManager (mm_target m) (regions m) (usable_head m) t (nodes m).

(** [NonNull::new]. *)
Definition non_null (p : Z) : option Z := if p =? 0 then None else Some p.

Definition init_node (s : MemoryManager * option Z) (region : Region) : outcome (MemoryManager * option Z) :=
  let '(inner, prev) := s in
  let node := mkNode (size region) prev None in
  node_ptr ← unwrap (non_null (address region));
  let inner := set_nodes inner (<[node_ptr := node]> (nodes inner)) in
  match prev with
  | None =>
      rassert (bool_decide (usable_head inner = None)) ;;
      rassert (bool_decide (usable_tail inner = None)) ;;
      mret (set_tail (set_head inner (Some node_ptr)) (Some node_ptr), Some node_ptr)
  | Some p =>
      n ← unwrap (nodes inner !! p);
      let inner := set_nodes inner
        (<[p := mkNode (node_size n) (node_prev n) (Some node_ptr)]> (nodes inner)) in
      mret (set_tail inner (Some node_ptr), Some node_ptr)
  end.

Definition init (self : MemoryManager) (rs : MemoryRegions) : outcome MemoryManager :=
  '(inner, _) ← ofold init_node (self, None) (filter (fun r => typ r = Usable) rs);
  mret (mkManager (mm_target inner) (Some rs) (usable_head inner) (usable_tail inner) (nodes inner)).

(** The loop of [allocate_n].  The list is walked for as many nodes as there are
    in memory. *)
Fixpoint allocate_scan (fuel : nat) (inner : MemoryManager) (n : Z) (current_node : option Z) :
    outcome (Frame Size4KiB * Frame Size4KiB * MemoryManager) :=
  match current_node, fuel with
  | Some node, S fuel =>
      inner_node ← unwrap (nodes inner !! node);
      bytes ← umul n (SIZE Size4KiB);
      if node_size inner_node >=? bytes then
        s ← usub (node_size inner_node) bytes;
        let inner := set_nodes inner
          (<[node := mkNode s (node_prev inner_node) (node_next inner_node)]> (nodes inner)) in
        let inner := if s =? 0 then set_head inner (node_next inner_node) else inner in
        a ← uadd node s;
        a ← unwrap (PAddr.new (mm_target inner) a);
        first ← Frame.starts_with a;
        e ← uadd node s;
        e ← uadd e bytes;
        e ← unwrap (PAddr.new (mm_target inner) e);
        last ← Frame.starts_with e;
        mret (first, last, inner)
      else allocate_scan fuel inner n (node_next inner_node)
  | _, _ => Panic
  end.

Definition mm_allocate_n (self : MemoryManager) (n : Z) :
    outcome (Frame Size4KiB * Frame Size4KiB * MemoryManager) :=
  allocate_scan (Datatypes.S (base.size (nodes self))) self n (usable_head self).

(** The trait is implemented for [Size4KiB] only, and [free_n] is
    [unimplemented!()]. *)
#[global] Instance manager_allocator : FrameAllocator MemoryManager := {
  allocate_n := fun s => match s with Size4KiB => mm_allocate_n | _ => fun _ _ => Panic end;
  free_n := fun _ _ _ _ => Panic;
}.

(** ** The memory map for the kernel *)

(** [BootInfoArea] of [main.rs]: [area] is the memory the entries are written to,
    the [BOOT_INFO_MAX_SIZE] bytes from [boot_info_ptr] on. *)
Definition BOOT_INFO_MAX_SIZE : Z := SIZE Size4KiB.

Record BootInfoArea := mkArea { boot_info_ptr : Z; cursor : Z; area : gmap Z MemoryEntry }.

Definition ENTRY_SIZE : Z := 24.

Definition offset (self : BootInfoArea) : outcome Z :=
  d ← usub (cursor self) (boot_info_ptr self); mret (d mod 2 ^ 16).

(** The bounds are not checked: behind the area a write would go to memory that is
    not its own, which has no defined result. *)
Definition write (self : BootInfoArea) (value : MemoryEntry) : outcome BootInfoArea :=
  rassert (cursor self + ENTRY_SIZE <=? boot_info_ptr self + BOOT_INFO_MAX_SIZE) ;;
  mret (mkArea (boot_info_ptr self) (cursor self + ENTRY_SIZE) (<[cursor self := value]> (area self))).

Definition memory_type (t : RegionType) : option MemoryType :=
  match t with
  | Usable => None
  | Reserved Firmware => Some Pmm.Reserved
  | Reserved DeviceTree => Some Pmm.DeviceTree
  | Reserved Seed => Some Pmm.Usable
  | Reserved Ramdisk => Some Pmm.Usable
  | Reserved Unknown => Some Pmm.Reserved
  end.

Definition write_region (s : BootInfoArea * Z) (region : Region) : outcome (BootInfoArea * Z) :=
  let '(boot_info_area, mem_map_length) := s in
  match memory_type (typ region) with
  | Some typ =>
      n ← wadd 16 mem_map_length 1;
      boot_info_area ← write boot_info_area (mkMemoryEntry (address region) (size region) typ);
      mret (boot_info_area, n)
  | None => mret s
  end.

Fixpoint write_nodes (fuel : nat) (ns : gmap Z Node) (s : BootInfoArea * Z) (current_node : option Z) :
    outcome (BootInfoArea * Z) :=
  match current_node with
  | None => mret s
  | Some node =>
      match fuel with
      | O => Panic
      | Datatypes.S fuel =>
          let '(boot_info_area, mem_map_length) := s in
          inner_node ← unwrap (ns !! node);
          n ← wadd 16 mem_map_length 1;
          boot_info_area ← write boot_info_area (mkMemoryEntry node (node_size inner_node) Pmm.Usable);
          write_nodes fuel ns (boot_info_area, n) (node_next inner_node)
      end
  end.

Definition populate_memory_map (self : MemoryManager) (boot_info_area : BootInfoArea) :
    outcome (Z * Z * BootInfoArea * MemoryManager) :=
  mem_map_offset ← offset boot_info_area;
  rs ← unwrap (regions self);
  s ← ofold write_region (boot_info_area, 0) rs;
  '(boot_info_area, mem_map_length) ←
    write_nodes (Datatypes.S (base.size (nodes self))) (nodes self) s (usable_head self);
  mret (mem_map_offset, mem_map_length, boot_info_area,
        mkManager (mm_target self) (regions self) None None (nodes self)).

(** [BootInfo::memory_map] of the kernel: the slice at an offset. *)
Fixpoint read_entries (memory : gmap Z MemoryEntry) (p : Z) (n : nat) : option (list MemoryEntry) :=
  match n with
  | O => Some []
  | Datatypes.S n => e ← memory !! p; l ← read_entries memory (p + ENTRY_SIZE) n; Some (e :: l)
  end.

Definition memory_map (base : Z) (memory : gmap Z MemoryEntry) (mem_map_offset mem_map_length : Z) :
    option (list MemoryEntry) :=
  read_entries memory (base + mem_map_offset) (Z.to_nat mem_map_length).

(** ** The free list *)

(** The nodes from [head] are those of the free regions [l]. *)
Fixpoint chain (ns : gmap Z Node) (head : option Z) (l : list Region) : Prop :=
  match l with
  | [] => head = None
  | r :: l => head = Some (address r) /\
      exists n, ns !! address r = Some n /\ node_size n = size r /\ chain ns (node_next n) l
  end.

(** The memory a free list holds. *)
Definition held (l : list Region) (x : Z) : Prop := exists r, r ∈ l /\ inside x r.

Definition list_ok (tgt : target) (l : list Region) : Prop :=
  regions_ok tgt l /\ (forall r, r ∈ l -> typ r = Usable) /\ (length l <= MAX_REGIONS)%nat.

Lemma chain_fun ns l1 : forall head l2,
  (forall r, r ∈ l1 -> typ r = Usable) -> (forall r, r ∈ l2 -> typ r = Usable) ->
  chain ns head l1 -> chain ns head l2 -> l1 = l2.
Proof.
  induction l1 as [|r1 l1 IH]; intros head [|r2 l2] H1 H2; simpl; try naive_solver.
  intros (-> & n & Hn & Hs & Hc) ([= E] & n' & Hn' & Hs' & Hc'). rewrite E, Hn' in Hn. simplify_eq.
  assert (r1 = r2) as ->.
  { pose proof (H1 r1 ltac:(left)). pose proof (H2 r2 ltac:(left)). destruct r1, r2; simpl in *. congruence. }
  f_equal. by eapply IH; [set_solver..| |].
Qed.

Lemma chain_change ns ns' l : forall head,
  (forall r, r ∈ l -> ns' !! address r = ns !! address r) -> chain ns head l -> chain ns' head l.
Proof.
  induction l as [|r l IH]; intros head Hs; [done|]. intros (-> & n & Hn & Hsz & Hc). split; [done|].
  exists n. split_and!; [rewrite Hs; [done|left]|done|]. apply IH; [set_solver|done].
Qed.

Lemma apart_address tgt r1 r2 :
  region_ok tgt r1 -> region_ok tgt r2 -> apart r1 r2 -> address r1 <> address r2.
Proof. intros (? & ? & _) (? & ? & _). unfold apart, region_end. lia. Qed.

Lemma chain_length tgt ns head l : regions_ok tgt l -> chain ns head l -> (length l <= base.size ns)%nat.
Proof.
  revert ns head. induction l as [|r l IH]; intros ns head [Hok Hap]; simpl; [lia|].
  destruct Hap as [Ha Hap]. intros (-> & n & Hn & _ & Hc).
  assert (length l <= base.size (delete (address r) ns))%nat.
  { apply (IH _ (node_next n)); [split; [set_solver|done]|]. eapply chain_change; [|done]. intros q Hq.
    apply lookup_delete_ne. apply (apart_address tgt); [apply Hok; left|apply Hok; by right|by apply Ha]. }
  rewrite <- (insert_delete_id ns (address r) n Hn), map_size_insert_None by apply lookup_delete_eq. lia.
Qed.

(** [init] makes a list of the usable regions. *)
Lemma chain_snoc tgt ns l r0 r n : forall head,
  regions_ok tgt (l ++ [r0; r]) -> ns !! address r0 = Some n -> node_next n = None ->
  chain ns head (l ++ [r0]) ->
  chain (<[address r0 := mkNode (node_size n) (node_prev n) (Some (address r))]>
          (<[address r := mkNode (size r) (Some (address r0)) None]> ns)) head (l ++ [r0; r]).
Proof.
  induction l as [|q l IH]; intros head [Hok Hap] Hn Hnx.
  - simpl. intros (-> & n' & Hn' & Hs & Hc). simplify_eq. destruct Hap as [Ha _].
    assert (address r0 <> address r) as Hne by (apply (apart_address tgt); set_solver).
    split; [done|]. eexists. rewrite lookup_insert_eq. split; [done|]. simpl. split; [done|]. split; [done|].
    eexists. rewrite lookup_insert_ne, lookup_insert_eq by done. simpl. done.
  - destruct Hap as [Ha Hap]. simpl. intros (-> & n' & Hn' & Hs & Hc). split; [done|]. exists n'. split_and!.
    + rewrite !lookup_insert_ne; [done|..]; apply not_eq_sym, (apart_address tgt); set_solver.
    + done.
    + apply IH; [split; [set_solver|done]|done..].
Qed.

Lemma init_spec tgt mem rs :
  regions_ok tgt rs -> (length rs <= MAX_REGIONS)%nat -> ~ covers rs Usable 0 ->
  init (MemoryManager_new tgt mem) rs ⇓ fun m =>
    mm_target m = tgt /\ regions m = Some rs /\
    exists l, list_ok tgt l /\ chain (nodes m) (usable_head m) l /\ (forall x, held l x <-> covers rs Usable x).
Proof.
  intros [Hok Hap] Hlen H0. unfold init. set (us := filter _ rs).
  assert (forall r, r ∈ us <-> typ r = Usable /\ r ∈ rs) as Hus by (intros r; unfold us; by rewrite list_elem_of_filter).
  assert (regions_ok tgt us) as Huok by (split; [set_solver|by apply pairwise_filter]).
  eapply returns_bind.
  - apply (ofold_invariant init_node (fun l s =>
      mm_target s.1 = tgt /\ chain (nodes s.1) (usable_head s.1) l /\
      match last l with
      | None => s = (MemoryManager_new tgt mem, None)
      | Some r => s.2 = Some (address r) /\ exists n, nodes s.1 !! address r = Some n /\ node_next n = None
      end)); [done|].
    intros l1 r l2 [m p] El (Ht & Hc & Hl). simpl in *.
    assert (regions_ok tgt (l1 ++ [r])) as Hlok.
    { destruct Huok as [Ho Ha]. rewrite El, cons_middle, app_assoc in Ha. apply pairwise_app in Ha as [? _].
      split; [|done]. intros q Hq. apply Ho. rewrite El. clear -Hq. set_solver. }
    assert (r ∈ us) as [Hru Hrr]%Hus by (rewrite El; clear; set_solver).
    assert (address r <> 0) as Hnz.
    { intros E. apply H0. exists r. split_and!; try done. destruct (Hok r Hrr) as (? & ? & _).
      unfold inside, region_end. lia. }
    unfold non_null. rewrite (proj2 (Z.eqb_neq _ _) Hnz). obind.
    rewrite last_snoc. destruct l1 as [|r0 l1 _] using rev_ind.
    + simpl in *. injection Hl as -> ->. simpl. split; [done|]. split.
      * split; [done|]. eexists. by rewrite lookup_insert_eq.
      * split; [done|]. eexists. by rewrite lookup_insert_eq.
    + rewrite last_snoc in Hl. destruct Hl as (-> & n & Hn & Hnx). rewrite <- app_assoc in Hlok. simpl in Hlok.
      assert (address r0 <> address r) as Hne.
      { destruct Hlok as [Ho Ha]. apply pairwise_app in Ha as (_ & [Ha _] & _).
        apply (apart_address tgt); [apply Ho|apply Ho|apply Ha]; clear; set_solver. }
      simpl. rewrite lookup_insert_ne, Hn by done. simpl. split; [done|]. split.
      * rewrite <- app_assoc. by apply (chain_snoc tgt).
      * split; [done|]. eexists. by rewrite lookup_insert_ne, lookup_insert_eq.
  - intros [m p] (Ht & Hc & _). simpl in *. split_and!; [done..|]. exists us. split_and!.
    + split_and!; [done|set_solver|]. subst us. etransitivity; [apply length_filter|done].
    + done.
    + intros x. unfold held, covers. setoid_rewrite Hus. naive_solver.
Qed.

(** ** Allocation *)

(** The free list after the frames are taken off the end of [r]. *)
Definition without_end (pre : list Region) (r : Region) (post : list Region) (bytes : Z) : list Region :=
  if size r - bytes =? 0 then post else pre ++ mkRegion (typ r) (address r) (size r - bytes) :: post.

Lemma chain_shrink tgt ns pre r post s : forall head,
  regions_ok tgt (pre ++ r :: post) -> chain ns head (pre ++ r :: post) ->
  exists n, ns !! address r = Some n /\ node_size n = size r /\ chain ns (node_next n) post /\
    chain (<[address r := mkNode s (node_prev n) (node_next n)]> ns) (node_next n) post /\
    chain (<[address r := mkNode s (node_prev n) (node_next n)]> ns) head (pre ++ mkRegion (typ r) (address r) s :: post).
Proof.
  induction pre as [|q pre IH]; intros head [Hok Hap]; simpl.
  - intros (-> & n & Hn & Hs & Hc). exists n. destruct Hap as [Ha _].
    assert (chain (<[address r := mkNode s (node_prev n) (node_next n)]> ns) (node_next n) post) as Hc'.
    { eapply chain_change; [|done]. intros q Hq. rewrite lookup_insert_ne; [done|]. apply (apart_address tgt); set_solver. }
    split_and!; try done. eexists. by rewrite lookup_insert_eq.
  - intros (-> & n & Hn & Hs & Hc). destruct Hap as [Ha Hap].
    destruct (IH (node_next n)) as (n0 & Hn0 & Hs0 & Hp & Hp' & Hc'); [split; [set_solver|done]|done|].
    exists n0. split_and!; try done. exists n. split_and!; [|done|done].
    rewrite lookup_insert_ne; [done|]. apply not_eq_sym, (apart_address tgt); set_solver.
Qed.

Lemma frame_val a : (4096 | a) -> Frame.starts_with (s := Size4KiB) a = Val (mkFrame a).
Proof. intros Hd. apply frame_starts_with_in. by apply Z.mod_divide. Qed.

(** The scan finds the first region that is long enough. *)
Lemma allocate_scan_spec m n l : forall pre fuel cur,
  0 <= n * 4096 < 2 ^ 64 -> regions_ok (mm_target m) (pre ++ l) ->
  chain (nodes m) (usable_head m) (pre ++ l) -> chain (nodes m) cur l -> (length l < fuel)%nat ->
  (exists mid r post, l = mid ++ r :: post /\ (forall q, q ∈ mid -> size q < n * 4096) /\ n * 4096 <= size r /\
     exists m', allocate_scan fuel m n cur =
       Val (mkFrame (region_end r - n * 4096), mkFrame (region_end r), m') /\
       mm_target m' = mm_target m /\ regions m' = regions m /\
       chain (nodes m') (usable_head m') (without_end (pre ++ mid) r post (n * 4096))) \/
  ((forall q, q ∈ l -> size q < n * 4096) /\ allocate_scan fuel m n cur = Panic).
Proof.
  induction l as [|r l IH]; intros pre [|fuel] cur Hn Hok Hall Hc Hf; try (simpl in Hf; lia).
  { right. rewrite Hc. split; [set_solver|done]. }
  destruct Hc as (-> & nd & Hnd & Hs & Hc). simpl. rewrite Hnd. simpl.
  rewrite wmul_in by done. obind. rewrite Hs, Z.geb_leb.
  assert (region_ok (mm_target m) r) as Hr by (apply Hok; set_solver).
  destruct (Z.leb_spec (n * 4096) (size r)) as [Hfit|Hno].
  - left. exists [], r, l. split_and!; [done|set_solver|done|].
    pose proof (paddr_limit_usize (mm_target m)). destruct (region_ok_end _ r Hr) as (Hde & ? & ?).
    pose proof Hr as (? & ? & ? & ? & ?). unfold region_end in *.
    rewrite wsub_in by (unfold is_unsigned; lia). obind.
    assert ((4096 | address r + (size r - n * 4096))) as Hd.
    { replace (address r + (size r - n * 4096)) with (address r + size r - n * 4096) by lia.
      apply Z.divide_sub_r; [done|apply Z.divide_factor_r]. }
    rewrite wadd_in by (unfold is_unsigned; lia). obind.
    set (m' := if size r - n * 4096 =? 0 then _ else _).
    assert (mm_target m' = mm_target m /\ regions m' = regions m) as [-> Hreg]
      by (subst m'; by destruct (_ =? 0)).
    rewrite paddr_new_valid by (unfold paddr_valid; lia). obind. rewrite frame_val by done. obind.
    rewrite wadd_in by (unfold is_unsigned; lia). obind.
    rewrite paddr_new_valid by (unfold paddr_valid; lia). obind.
    rewrite frame_val by (by replace (address r + (size r - n * 4096) + n * 4096) with (address r + size r) by lia).
    obind. exists m'. rewrite app_nil_r.
    destruct (chain_shrink _ _ pre r l (size r - n * 4096) _ Hok Hall) as (n0 & Hn0 & _ & _ & Hpost & Hsh).
    simplify_eq. split_and!; [do 3 f_equal; f_equal; lia|subst m'; by destruct (_ =? 0)|done|].
    unfold without_end. subst m'. by destruct (_ =? 0).
  - destruct (IH (pre ++ [r]) fuel (node_next nd)) as [(mid & q & post & -> & Hmid & Hq & m' & HE & Hrest)|[Hq HE]];
      try done; [by rewrite <- app_assoc|by rewrite <- app_assoc|simpl in Hf; lia|..].
    + left. exists (r :: mid), q, post. split_and!; [done|set_solver|done|]. exists m'. rewrite <- app_assoc in Hrest. done.
    + right. split; [set_solver|done].
Qed.

Definition free_list (m : MemoryManager) (l : list Region) : Prop :=
  list_ok (mm_target m) l /\ chain (nodes m) (usable_head m) l.

Lemma free_list_fun m l1 l2 : free_list m l1 -> free_list m l2 -> l1 = l2.
Proof. intros [(_ & ? & _) ?] [(_ & ? & _) ?]. by eapply chain_fun. Qed.

Lemma held_app l1 l2 x : held (l1 ++ l2) x <-> held l1 x \/ held l2 x.
Proof. unfold held. setoid_rewrite elem_of_app. naive_solver. Qed.

Lemma held_cons r l x : held (r :: l) x <-> inside x r \/ held l x.
Proof. unfold held. setoid_rewrite elem_of_cons. naive_solver. Qed.

(** The region from which the frames were taken, without them. *)
Lemma shorter_spec tgt r bytes :
  region_ok tgt r -> 0 <= bytes < size r -> (4096 | bytes) ->
  let r' := mkRegion (typ r) (address r) (size r - bytes) in
  region_ok tgt r' /\ (forall x, inside x r' <-> inside x r /\ x < region_end r - bytes).
Proof.
  intros (? & ? & ? & ? & ?) Hb Hd r'. unfold region_ok, inside, region_end in *; subst r'; simpl. split.
  - split_and!; try done; try lia. by apply Z.divide_sub_r.
  - intros x. lia.
Qed.

Lemma pairwise_held tgt r l x :
  regions_ok tgt (r :: l) -> inside x r -> held l x -> False.
Proof.
  intros [Hok [Ha _]] Hr (q & Hq & Hx). specialize (Ha q Hq). rewrite apart_inside in Ha; [eauto|apply Hok; set_solver..].
Qed.

Lemma regions_ok_middle tgt pre r post :
  regions_ok tgt (pre ++ r :: post) <-> regions_ok tgt (r :: pre ++ post).
Proof.
  unfold regions_ok. simpl. rewrite !pairwise_app. simpl.
  assert (forall a b, apart a b <-> apart b a) as Hsym by (unfold apart; tauto).
  split; intros [Hok Hp]; (split; [set_solver|]).
  - destruct Hp as (H1 & [H2 H4] & H3). split_and!; try done; [|set_solver].
    intros b [Hb|Hb]%elem_of_app; [rewrite Hsym; apply H3; [done|left]|by apply H2].
  - destruct Hp as (H1 & H2 & H4 & H5). split_and!; try done; [intros; apply H1; set_solver|].
    intros a b Ha [->|Hb]%elem_of_cons; [rewrite Hsym; apply H1; set_solver|by apply H5].
Qed.

Lemma without_end_spec tgt pre r post bytes :
  list_ok tgt (pre ++ r :: post) -> 0 <= bytes <= size r -> (4096 | bytes) ->
  list_ok tgt (without_end pre r post bytes) /\
  (forall x, held (without_end pre r post bytes) x <->
     held (pre ++ r :: post) x /\ ~ (region_end r - bytes <= x < region_end r) /\
     (bytes = size r -> held post x)).
Proof.
  intros (Hok & Hty & Hlen) Hb Hd. assert (region_ok tgt r) as Hr by (apply Hok; set_solver).
  pose proof (proj1 (regions_ok_middle _ _ _ _) Hok) as Hmid. unfold without_end.
  destruct (Z.eqb_spec (size r - bytes) 0) as [E|E].
  - split.
    + rewrite length_app in Hlen. simpl in Hlen. destruct Hok as [Ho Hp].
      apply pairwise_app in Hp as (_ & [_ Hp] & _). split_and!; [split; [set_solver|done]|set_solver|lia].
    + intros x. rewrite held_app, held_cons. split; [|naive_solver lia]. intros Hx. split_and!; [tauto| |done].
      intros Hxr. apply (pairwise_held _ _ _ x Hmid); [|apply held_app; by right].
      pose proof Hr as (? & ? & _). unfold inside, region_end in *. lia.
  - destruct (shorter_spec tgt r bytes Hr ltac:(lia) Hd) as [Hr' Hin]. set (r' := mkRegion _ _ _) in *. split.
    + split_and!.
      * apply regions_ok_middle. destruct Hmid as [Ho [Ha Hp]]. split; [set_solver|]. split; [|done].
        intros b Hb'. apply (apart_inside tgt); [done|set_solver|]. intros x [Hx _]%Hin Hxb.
        specialize (Ha b Hb'). rewrite apart_inside in Ha; [eauto|done|set_solver].
      * intros q [Hq|[->|Hq]%elem_of_cons]%elem_of_app; [apply Hty; set_solver|apply (Hty r); set_solver|apply Hty; set_solver].
      * rewrite length_app in *. done.
    + intros x. rewrite !held_app, !held_cons, Hin. pose proof (pairwise_held _ _ _ x Hmid) as Hno.
      rewrite held_app in Hno. pose proof Hr as (? & ? & _). unfold inside, region_end in *.
      split.
      * intros Hx. split_and!; [tauto| |lia]. intros Hxe. destruct Hx as [Hx|[Hx|Hx]]; [|lia|]; apply Hno; auto; lia.
      * intros (Hx & Hxe & _). destruct Hx as [Hx|[Hx|Hx]]; [by left| |by right; right]. right. left. lia.
Qed.

(** [allocate_n] takes frames of the free list, from the first region that is
    long enough, and panics exactly if there is none. *)
Lemma mm_allocate_spec m l n :
  free_list m l -> 0 <= n * 4096 < 2 ^ 64 ->
  (exists f e m' l', mm_allocate_n m n = Val (f, e, m') /\ mm_target m' = mm_target m /\ regions m' = regions m /\
     free_list m' l' /\ (4096 | frame_start f) /\ 0 <= frame_start f /\ frame_start e < paddr_limit (mm_target m) /\
     frame_start e = frame_start f + n * 4096 /\
     (forall x, frame_start f <= x < frame_start e -> held l x /\ ~ held l' x) /\
     (forall x, held l' x -> held l x)) \/
  ((forall q, q ∈ l -> size q < n * 4096) /\ mm_allocate_n m n = Panic).
Proof.
  intros [Hl Hc] Hn. pose proof Hl as (Hok & _ & _). unfold mm_allocate_n.
  destruct (allocate_scan_spec m n l [] (S (base.size (nodes m))) (usable_head m)) as
    [(mid & r & post & -> & Hmid & Hr & m' & HE & Ht & Hreg & Hc')|Hno]; try done; [|left|by right].
  { apply Nat.lt_succ_r. by eapply chain_length. }
  assert (region_ok (mm_target m) r) as Hro by (apply Hok; set_solver).
  destruct (without_end_spec _ mid r post (n * 4096) Hl ltac:(lia) (Z.divide_factor_r _ _)) as [Hl' Hh].
  destruct (region_ok_end _ r Hro) as (Hde & _). pose proof Hro as (? & ? & ? & _).
  eexists _, _, m', (without_end mid r post (n * 4096)). split; [done|]. simpl. split_and!; try done.
  - split; [by rewrite Ht|done].
  - apply Z.divide_sub_r; [done|apply Z.divide_factor_r].
  - unfold region_end. lia.
  - lia.
  - intros x Hx. split; [|rewrite Hh; tauto]. apply held_app. right. apply held_cons. left.
    unfold inside, region_end in *. lia.
  - intros x [? _]%Hh. done.
Qed.

#[global] Program Instance manager_allocator_spec tgt : FrameAllocatorSpec tgt MemoryManager := {
  fa_inv := fun m => mm_target m = tgt /\ exists l, free_list m l;
  fa_owns := fun m x => exists l, free_list m l /\ held l x;
}.
Next Obligation.
  simpl. intros tgt m f e m' [<- [l Hl]] H.
  destruct (mm_allocate_spec m l 1 Hl ltac:(lia)) as [(f0 & e0 & m0 & l' & HE & Ht & Hreg & Hl' & Hd & H0 & Hlim & He & Hx & Hsub)|[_ HE]];
    rewrite HE in H; simplify_eq. change (1 * 4096) with 4096 in *. split_and!; try done; [by exists l'|lia|..].
  - intros x Hxr. destruct (Hx x) as [H1 H2]; [lia|]. split; [by exists l|].
    intros (l2 & Hl2 & Hh). by rewrite (free_list_fun _ _ _ Hl2 Hl') in Hh.
  - intros x (l2 & Hl2 & Hh). rewrite (free_list_fun _ _ _ Hl2 Hl') in Hh. exists l. auto.
Qed.

(** ** The memory map *)

Definition region_entry (r : Region) : option MemoryEntry := mkMemoryEntry (address r) (size r) <$> memory_type (typ r).
Definition node_entry (r : Region) : MemoryEntry := mkMemoryEntry (address r) (size r) Pmm.Usable.

(** The entries written for a region map and a free list. *)
Definition map_entries (rs l : list Region) : list MemoryEntry := omap region_entry rs ++ (node_entry <$> l).

(** The area with an entry, and with room for [n] more. *)
Definition written (a : BootInfoArea) (e : MemoryEntry) : BootInfoArea :=
  mkArea (boot_info_ptr a) (cursor a + ENTRY_SIZE) (<[cursor a := e]> (area a)).

Definition room (a : BootInfoArea) (n : nat) : Prop :=
  cursor a + ENTRY_SIZE * Z.of_nat n <= boot_info_ptr a + BOOT_INFO_MAX_SIZE.

Lemma write_val a e : room a 1 -> write a e = Val (written a e).
Proof. unfold room, write. intros. by replace (_ <=? _) with true by lia. Qed.

Lemma write_unless a e n : (0 < n)%nat -> write a e ⇓{~ room a n} fun a' => a' = written a e.
Proof.
  intros Hn. unfold write. destruct (Z.leb_spec (cursor a + ENTRY_SIZE) (boot_info_ptr a + BOOT_INFO_MAX_SIZE)); [done|].
  change (~ room a n). unfold room, ENTRY_SIZE in *. lia.
Qed.

Lemma room_written a e n : room (written a e) n <-> room a (Datatypes.S n).
Proof. unfold room. cbn [cursor written boot_info_ptr]. unfold ENTRY_SIZE. lia. Qed.

Lemma write_regions_spec rs : forall a n,
  0 <= n -> n + Z.of_nat (length rs) < 2 ^ 16 ->
  ofold write_region (a, n) rs ⇓{~ room a (length (omap region_entry rs))} fun s =>
    s = (foldl written a (omap region_entry rs), n + Z.of_nat (length (omap region_entry rs))).
Proof.
  induction rs as [|r rs IH]; intros a n Hn Hl; [simpl; by rewrite Z.add_0_r|].
  cbn [length ofold omap list_omap write_region] in *.
  assert (region_entry r = mkMemoryEntry (address r) (size r) <$> memory_type (typ r)) as -> by done.
  destruct (memory_type (typ r)); cbn.
  2:{ by apply IH; lia. }
  rewrite wadd_in by (unfold is_unsigned; lia). obind.
  pose proof (write_unless a (mkMemoryEntry (address r) (size r) m) (Datatypes.S (length (omap region_entry rs))) ltac:(lia)) as Hw.
  destruct (write _ _) as [a'|]; [|exact Hw]. simpl in Hw. subst a'. obind.
  eapply returns_unless_weaken; [apply IH; lia|by rewrite room_written|]. intros s' ->. f_equal. lia.
Qed.

Lemma write_nodes_spec ns l : forall fuel a n head,
  chain ns head l -> (length l < fuel)%nat -> 0 <= n -> n + Z.of_nat (length l) < 2 ^ 16 ->
  write_nodes fuel ns (a, n) head ⇓{~ room a (length l)} fun s =>
    s = (foldl written a (node_entry <$> l), n + Z.of_nat (length l)).
Proof.
  induction l as [|r l IH]; intros [|fuel] a n head Hc Hf Hn Hl; simpl in *; try lia.
  { rewrite Hc. simpl. by rewrite Z.add_0_r. }
  destruct Hc as (-> & nd & Hnd & Hs & Hc). rewrite Hnd. simpl. rewrite wadd_in by (unfold is_unsigned; lia). obind.
  eapply returns_unless_bind; [apply (write_unless _ _ (Datatypes.S (length l))); lia|done|].
  intros a' ->. eapply returns_unless_weaken; [apply IH; (done || lia)|by rewrite room_written|].
  intros s' ->. rewrite Hs. f_equal. lia.
Qed.

Lemma write_below es : forall a p, p < cursor a -> area (foldl written a es) !! p = area a !! p.
Proof.
  induction es as [|e es IH]; intros a p Hp; [done|]. simpl. unfold ENTRY_SIZE in *.
  rewrite IH by (simpl; unfold ENTRY_SIZE; lia). simpl. by rewrite lookup_insert_ne by lia.
Qed.

Lemma read_written es : forall a, read_entries (area (foldl written a es)) (cursor a) (length es) = Some es.
Proof.
  induction es as [|e es IH]; intros a; [done|]. simpl. rewrite write_below by (simpl; unfold ENTRY_SIZE; lia).
  simpl. rewrite lookup_insert_eq. simpl. specialize (IH (written a e)). simpl in IH. by rewrite IH.
Qed.

Lemma room_foldl es n : forall a, room (foldl written a es) n <-> room a (length es + n).
Proof.
  induction es as [|e es IH]; intros a; [done|]. simpl. by rewrite IH, room_written.
Qed.

(** The kernel reads from the area what [populate_memory_map] wrote. *)
Lemma populate_spec m rs l a :
  free_list m l -> regions m = Some rs -> (length rs <= MAX_REGIONS)%nat ->
  0 <= boot_info_ptr a -> 0 <= cursor a - boot_info_ptr a < 2 ^ 16 ->
  populate_memory_map m a ⇓{~ room a (2 * MAX_REGIONS)} fun '(off, len, a', m') =>
    memory_map (boot_info_ptr a) (area a') off len = Some (map_entries rs l) /\
    free_list m' [] /\ mm_target m' = mm_target m.
Proof.
  intros [Hl Hc] Hr Hlen Ha Hcur. pose proof Hl as (Hok & _ & Hll). unfold populate_memory_map, offset, MAX_REGIONS in *.
  rewrite wsub_in by (unfold is_unsigned; lia). obind. rewrite Hr. obind.
  pose proof (omap_length region_entry rs) as Hom.
  eapply returns_unless_bind; [apply write_regions_spec; lia|unfold room, ENTRY_SIZE; lia|]. intros s ->.
  eapply returns_unless_bind; [apply (write_nodes_spec _ l); [done| |lia|lia]| |].
  { apply Nat.lt_succ_r. by eapply chain_length. }
  { rewrite room_foldl. unfold room, ENTRY_SIZE. lia. }
  intros s ->. split_and!; [| |done].
  - unfold memory_map. rewrite Z.mod_small, Z.add_0_l by lia.
    replace (boot_info_ptr a + (cursor a - boot_info_ptr a)) with (cursor a) by lia. rewrite <- foldl_app.
    rewrite <- (read_written (map_entries rs l) a). unfold map_entries. f_equal.
    rewrite length_app, length_fmap. lia.
  - split; [|done]. split_and!; [split; [set_solver|done]|set_solver|simpl; lia].
Qed.

Lemma map_disjoint_pairwise es : map_disjoint es <-> pairwise entries_apart es.
Proof. induction es as [|e es IH]; [done|]. simpl. by rewrite IH. Qed.

(** A region map gives an address one type. *)
Lemma covers_fun tgt rs t1 t2 x : regions_ok tgt rs -> covers rs t1 x -> covers rs t2 x -> t1 = t2.
Proof.
  induction rs as [|r rs IH]; [intros _ (? & ? & _); set_solver|].
  intros Hok (r1 & H1 & <- & Hx1) (r2 & H2 & <- & Hx2).
  apply elem_of_cons in H1 as [->|H1], H2 as [->|H2]; [done|..].
  - destruct (pairwise_held tgt r rs x); [done..|by exists r2].
  - destruct (pairwise_held tgt r rs x); [done..|by exists r1].
  - destruct Hok as [Ho [_ Hp]]. apply IH; [split; [set_solver|done]|by exists r1|by exists r2].
Qed.

Lemma region_entry_Some r e :
  region_entry r = Some e -> entry_base e = address r /\ entry_end e = region_end r /\ memory_type (typ r) = Some (entry_typ e).
Proof. unfold region_entry. by intros (t & -> & ->)%fmap_Some. Qed.

Lemma kernel_memory_type t : memory_type t = Some Pmm.Usable <-> t = Reserved Seed \/ t = Reserved Ramdisk.
Proof. destruct t as [|[]]; simpl; naive_solver. Qed.

(** The map is one that the kernel's manager can be built from. *)
Lemma map_entries_ok tgt rs l :
  regions_ok tgt rs -> list_ok tgt l -> (forall x, held l x -> covers rs Usable x) ->
  (forall e, e ∈ map_entries rs l -> entry_ok tgt e) /\ map_disjoint (map_entries rs l) /\
  (forall x, Early.early_owns (map_entries rs l) x <->
     covers rs (Reserved Seed) x \/ covers rs (Reserved Ramdisk) x \/ held l x).
Proof.
  intros Hrs (Hl & Hty & _) Hsub. pose proof Hrs as [Hro Hrp]. pose proof Hl as [Hlo Hlp].
  assert (forall e, e ∈ map_entries rs l <->
    (exists r, r ∈ rs /\ region_entry r = Some e) \/ (exists r, r ∈ l /\ e = node_entry r)) as Hel.
  { intros e. unfold map_entries. rewrite elem_of_app, list_elem_of_omap, list_elem_of_fmap. naive_solver. }
  split_and!.
  - intros e [(r & Hr & He)|(r & Hr & ->)]%Hel Hu.
    + destruct (Hro r Hr) as (? & ? & ? & ? & ?). apply fmap_Some in He as (t & _ & ->).
      unfold entry_end, region_end in *. simpl in *. split_and!; done || lia.
    + destruct (Hlo r Hr) as (? & ? & ? & ? & ?). unfold entry_end, region_end in *. simpl in *. split_and!; done || lia.
  - apply map_disjoint_pairwise, pairwise_app. split_and!.
    + apply pairwise_omap. eapply pairwise_impl; [|done]. intros r1 r2 H1 H2 Ha e1 e2 He1 He2 _ _ x Hx1 Hx2.
      destruct (region_entry_Some _ _ He1) as (E1 & E2 & _), (region_entry_Some _ _ He2) as (E3 & E4 & _).
      unfold apart in Ha. lia.
    + apply pairwise_fmap. eapply pairwise_impl; [|done]. intros r1 r2 H1 H2 Ha _ _ x.
      unfold apart, entry_end, region_end, node_entry in *. simpl. lia.
    + intros e1 e2 (r1 & H1 & He1)%list_elem_of_omap (r2 & -> & H2)%list_elem_of_fmap Hu _ x Hx1 Hx2.
      destruct (region_entry_Some _ _ He1) as (E1 & E2 & Et).
      assert (covers rs Usable x) as Hc1 by (apply Hsub; exists r2; split; [done|]; unfold inside; done).
      assert (covers rs (typ r1) x) as Hc2 by (exists r1; split_and!; try done; unfold inside; lia).
      by rewrite <- (covers_fun _ _ _ _ _ Hrs Hc1 Hc2) in Et.
  - intros x. unfold Early.early_owns. setoid_rewrite Hel. split.
    + intros (e & [(r & Hr & He)|(r & Hr & ->)] & Hu & Hx).
      * destruct (region_entry_Some _ _ He) as (E1 & E2 & Et). rewrite Hu in Et.
        apply kernel_memory_type in Et as [Et|Et]; [left|right; left]; exists r; (split_and!; [done..|unfold inside; lia]).
      * right. right. by exists r.
    + intros [(r & Hr & Ht & Hx)|[(r & Hr & Ht & Hx)|(r & Hr & Hx)]].
      1,2: exists (mkMemoryEntry (address r) (size r) Pmm.Usable); (split; [left; exists r|done]);
           (split; [done|]); unfold region_entry; by rewrite Ht.
      exists (node_entry r). split; [right; by exists r|done].
Qed.

(** ** The loader's run *)

Definition free_memory (m : MemoryManager) (x : Z) : Prop := exists l, free_list m l /\ held l x.

(** The loader allocates frames, and writes to memory that is not free: the nodes
    in free memory stay.  The second component are the frames handed out. *)
Inductive loader_step : MemoryManager * list (Z * Z) -> MemoryManager * list (Z * Z) -> Prop :=
  | loader_allocates m taken n f e m' :
      0 <= n -> mm_allocate_n m n = Val (f, e, m') ->
      loader_step (m, taken) (m', (frame_start f, frame_start e) :: taken)
  | loader_writes m taken ns :
      (forall p, free_memory m p -> ns !! p = nodes m !! p) ->
      loader_step (m, taken) (set_nodes m ns, taken).

Definition within (x : Z) (p : Z * Z) : Prop := p.1 <= x < p.2.
Definition ranges_apart (p q : Z * Z) : Prop := forall x, within x p -> ~ within x q.

Definition loader_inv (tgt : target) (rs : MemoryRegions) (s : MemoryManager * list (Z * Z)) : Prop :=
  mm_target s.1 = tgt /\ regions s.1 = Some rs /\
  (forall p x, p ∈ s.2 -> within x p -> covers rs Usable x) /\ pairwise ranges_apart s.2 /\
  exists l, free_list s.1 l /\ (forall x, held l x -> covers rs Usable x) /\
    (forall p x, p ∈ s.2 -> within x p -> ~ held l x).

Lemma mm_allocate_bytes m n r : mm_allocate_n m n = Val r -> is_usize (n * 4096).
Proof.
  unfold mm_allocate_n. simpl. intros H. destruct (usable_head m); [|done]. outcome_inv. done.
Qed.

Lemma loader_inv_step tgt rs s s' : loader_inv tgt rs s -> loader_step s s' -> loader_inv tgt rs s'.
Proof.
  intros Hi Hstep. revert Hi.
  destruct Hstep as [m taken n f e m' Hn Ha|m taken ns Hns]; intros (Ht & Hr & Hu & Hp & l & Hl & Hsub & Hno); simpl in *.
  - destruct (mm_allocate_spec m l n Hl (mm_allocate_bytes _ _ _ Ha))
      as [(f0 & e0 & m0 & l' & HE & Ht' & Hr' & Hl' & _ & _ & _ & _ & Hx & Hx')|[_ HE]]; [|by rewrite HE in Ha].
    rewrite HE in Ha. simplify_eq. unfold loader_inv. simpl. split_and!; try congruence.
    + intros p x [->|Hpt]%elem_of_cons Hw; [|by eapply Hu]. by apply Hsub, Hx.
    + intros p Hpt x Hw Hw'. apply (Hno p x Hpt Hw'). by apply Hx.
    + exists l'. split_and!; [done|auto|]. intros p x [->|Hpt]%elem_of_cons Hw; [by apply Hx|].
      intros Hh%Hx'. by apply (Hno p x).
  - unfold loader_inv. simpl. split_and!; try done. exists l. split_and!; try done.
    destruct Hl as [Hlo Hc]. split; [done|]. simpl. eapply chain_change; [|done]. intros r Hrl. apply Hns.
    exists l. split; [done|]. exists r. split; [done|]. destruct Hlo as ([Hok _] & _). destruct (Hok r Hrl) as (? & ? & _).
    unfold inside, region_end. lia.
Qed.

(** ** From the loader to the kernel *)

(** C16: From the loader's region map to the kernel's memory manager: the frames the
    loader allocates are usable memory and never overlap, whatever is written to
    them, although the free list lives in the memory it manages; the kernel reads
    from the boot information the map the loader wrote, and builds from it a
    manager that holds the free memory and that of the loader and the ramdisk, and
    never a frame the loader allocated or reserved memory; the loader itself
    cannot allocate any more.  (The map has at most sixty-four entries; if less
    than that is left of the area, it may leave it, which is not checked.) *)
Theorem seed_handover_correct tgt mem rs
    (Hrs : regions_ok tgt rs) (Hlen : (length rs <= MAX_REGIONS)%nat) (H0 : ~ covers rs Usable 0) :
  init (MemoryManager_new tgt mem) rs ⇓ fun m0 =>
    (forall x, free_memory m0 x <-> covers rs Usable x) /\
    forall m taken, rtc loader_step (m0, []) (m, taken) ->
      pairwise ranges_apart taken /\ (forall p x, p ∈ taken -> within x p -> covers rs Usable x) /\
      forall a, 0 <= boot_info_ptr a -> 0 <= cursor a - boot_info_ptr a < 2 ^ 16 ->
        populate_memory_map m a ⇓{~ room a (2 * MAX_REGIONS)} fun '(off, len, a', m') =>
          (forall n, 1 <= n -> mm_allocate_n m' n = Panic) /\
          exists es, memory_map (boot_info_ptr a) (area a') off len = Some es /\
            Pmm.new tgt es ⇓ fun p =>
              Pmm.pmm_wf p /\
              (forall x, Pmm.pmm_free p x <->
                 covers rs (Reserved Seed) x \/ covers rs (Reserved Ramdisk) x \/ free_memory m x) /\
              (forall x q, Pmm.pmm_free p x -> q ∈ taken -> ~ within x q) /\
              (forall x u, covers rs (Reserved u) x -> u <> Seed -> u <> Ramdisk -> ~ Pmm.pmm_free p x).
Proof.
  eapply returns_weaken; [by apply init_spec|]. intros m0 (Ht & Hreg & l0 & Hl0 & Hc0 & Hh0).
  assert (free_list m0 l0) as Hfl by (split; [by rewrite Ht|done]).
  assert (forall m l x, free_list m l -> free_memory m x <-> held l x) as Hfm.
  { intros m l x Hl. split; [|by exists l]. intros (l' & Hl' & Hx). by rewrite (free_list_fun _ _ _ Hl Hl'). }
  split; [intros x; by rewrite (Hfm _ _ _ Hfl)|]. intros m taken Hrun.
  assert (loader_inv tgt rs (m, taken)) as (Htm & Hrm & Hu & Hp & l & Hl & Hsub & Hno).
  { revert Hrun. generalize (m, taken). intros s Hrun. refine (rtc_ind_r _ _ _ _ s Hrun).
    - unfold loader_inv. simpl. split_and!; try done; [set_solver|]. exists l0. split_and!; [done|naive_solver|set_solver].
    - intros s1 s2 _ Hst Hi. by eapply loader_inv_step. }
  simpl in *. split_and!; [done..|]. intros a Ha Hcur.
  eapply returns_unless_weaken; [by apply (populate_spec m rs l)|done|]. intros [[[off len] a'] m'] (Hmap & Hm' & Htm'). split.
  { intros n Hn. unfold mm_allocate_n. destruct Hm' as [_ Hc']. simpl in Hc'. by rewrite Hc'. }
  exists (map_entries rs l). split; [done|]. destruct Hl as [Hlo Hlc]. rewrite Htm in Hlo.
  destruct (map_entries_ok tgt rs l Hrs Hlo Hsub) as (He & Hd & Hown).
  eapply returns_weaken; [by apply pmm_new_correct|]. intros p (_ & Hwf & Hfree).
  assert (forall x, Pmm.pmm_free p x <-> covers rs (Reserved Seed) x \/ covers rs (Reserved Ramdisk) x \/ free_memory m x) as HF.
  { intros x. rewrite Hfree, Hown, (Hfm m l); [done|]. split; [by rewrite Htm|done]. }
  split_and!; [done|done| |].
  - intros x q [Hx|[Hx|(l' & Hl' & Hx)]]%HF Hq Hw.
    + by pose proof (covers_fun _ _ _ _ _ Hrs Hx (Hu q x Hq Hw)).
    + by pose proof (covers_fun _ _ _ _ _ Hrs Hx (Hu q x Hq Hw)).
    + rewrite <- (free_list_fun m l l') in Hx; [by apply (Hno q x)|split; [by rewrite Htm|done]|done].
  - intros x u Hx Hns Hnr [Hf|[Hf|(l' & Hl' & Hf)]]%HF.
    + pose proof (covers_fun _ _ _ _ _ Hrs Hx Hf). congruence.
    + pose proof (covers_fun _ _ _ _ _ Hrs Hx Hf). congruence.
    + rewrite <- (free_list_fun m l l') in Hf; [|split; [by rewrite Htm|done]|done].
      by pose proof (covers_fun _ _ _ _ _ Hrs Hx (Hsub x Hf)).
Qed.

(** ** Examples *)

Module SeedExample.

Definition arrays : ArrayVec := reference_array_vec.
#[local] Existing Instance arrays.

Ltac each_region H := repeat (apply elem_of_cons in H as [->|H]); [..|by apply elem_of_nil in H].

(** Two usable regions around the loader. *)
Definition small_map : MemoryRegions :=
  [mkRegion Usable 0x1000 0x3000; mkRegion (Reserved Seed) 0x4000 0x1000; mkRegion Usable 0x5000 0x2000].

Lemma small_map_ok : regions_ok Rv64Virt small_map.
Proof.
  split.
  - intros r Hr. unfold small_map in Hr. each_region Hr; unfold region_ok, region_end; simpl;
      split_and!; try lia; apply Z.mod_divide; done.
  - simpl. split_and!; try done; intros r Hr; each_region Hr; unfold apart, region_end; simpl; lia.
Qed.

Lemma small_map_zero : ~ covers small_map Usable 0.
Proof. intros (r & Hr & _ & Hx). unfold small_map in Hr. each_region Hr; unfold inside in Hx; simpl in Hx; lia. Qed.

Definition booted : MemoryManager :=
  mkManager Rv64Virt (Some small_map) (Some 0x1000) (Some 0x5000)
    {[0x1000 := mkNode 0x3000 None (Some 0x5000); 0x5000 := mkNode 0x2000 (Some 0x1000) None]}.

Definition after_one : MemoryManager :=
  mkManager Rv64Virt (Some small_map) (Some 0x1000) (Some 0x5000)
    {[0x1000 := mkNode 0x2000 None (Some 0x5000); 0x5000 := mkNode 0x2000 (Some 0x1000) None]}.

Lemma booted_run : rtc loader_step (booted, []) (after_one, [(0x3000, 0x4000)]).
Proof.
  eapply rtc_once. apply (loader_allocates booted [] 1 (mkFrame 0x3000) (mkFrame 0x4000)); [lia|].
  vm_compute. reflexivity.
Qed.

Lemma seed_handover_correct_witness :
  init (MemoryManager_new Rv64Virt ∅) small_map = Val booted /\
  populate_memory_map after_one (mkArea 0x3000 0x3060 ∅) ⇓ fun '(off, len, a', m') =>
    off = 0x60 /\ len = 3 /\
    exists es, memory_map 0x3000 (area a') off len = Some es /\
      Pmm.new Rv64Virt es ⇓ fun p => Pmm.pmm_wf p /\ ~ Pmm.pmm_free p 0x3000.
Proof.
  assert (init (MemoryManager_new Rv64Virt ∅) small_map = Val booted) as Hi by (vm_compute; reflexivity).
  split; [exact Hi|].
  pose proof (seed_handover_correct Rv64Virt ∅ small_map small_map_ok ltac:(vm_compute; lia) small_map_zero) as H.
  rewrite Hi in H. destruct H as [_ H]. destruct (H _ _ booted_run) as (_ & _ & Ha).
  specialize (Ha (mkArea 0x3000 0x3060 ∅) ltac:(simpl; lia) ltac:(simpl; lia)).
  destruct (populate_memory_map after_one (mkArea 0x3000 0x3060 ∅)) as [[[[off len] a'] m']|] eqn:E; [|done].
  destruct Ha as (_ & es & Hes & Hp). vm_compute in E. injection E as <- <- <- <-.
  split; [done|]. split; [done|]. exists es. split; [exact Hes|].
  destruct (Pmm.new Rv64Virt es) as [p|]; [|done]. destruct Hp as (Hw & _ & Hno & _).
  split; [done|]. intros Hf. apply (Hno 0x3000 (0x3000, 0x4000) Hf); [left|unfold within; simpl; lia].
Defined.

(** Usable memory that closes the gap between two usable regions is merged into
    both of them, so that two regions contain it, and the frame at [0x2000] is
    allocated twice. *)
Lemma bridged_memory_allocated_twice :
  (rs ← ofold (add_region Rv64Virt) []
     [mkRegion Usable 0x1000 0x1000; mkRegion Usable 0x3000 0x1000; mkRegion Usable 0x2000 0x1000];
   m ← init (MemoryManager_new Rv64Virt ∅) rs;
   '(f1, _, m) ← mm_allocate_n m 1;
   '(f2, _, m) ← mm_allocate_n m 1;
   '(f3, _, m) ← mm_allocate_n m 1;
   '(f4, _, m) ← mm_allocate_n m 1;
   mret (rs, [frame_start f1; frame_start f2; frame_start f3; frame_start f4])) =
  Val ([mkRegion Usable 0x1000 0x2000; mkRegion Usable 0x2000 0x2000], [0x2000; 0x1000; 0x3000; 0x2000]).
Proof. vm_compute. reflexivity. Qed.

(** Allocating all of a region that is not the first of the list drops the regions
    before it: with three frames free, none can be allocated. *)
Lemma exhausted_region_loses_others :
  (m ← init (MemoryManager_new Rv64Virt ∅) [mkRegion Usable 0x1000 0x3000; mkRegion Usable 0x5000 0x4000];
   '(f, _, m) ← mm_allocate_n m 4;
   mret (frame_start f, usable_head m, mm_allocate_n m 1)) = Val (0x5000, None, Panic).
Proof. vm_compute. reflexivity. Qed.

End SeedExample.
