(* ===== verification/PlatformBus.v ===== *)
(** * [user/platform_bus]: devices and the drivers that claim them

    Bus drivers register devices with the Platform Bus, device drivers register
    filters; the bus asks every driver with a matching filter whether it supports
    an unclaimed device, and hands the device off to the first that does.  A task
    of the service handles one message at a time, without giving up control in
    between, so that a run is a sequence of messages ([event]). *)

From stdpp Require Import base tactics option list numbers strings.
From S2P Require Import Prelude Bytes Effects Ptah PtahCorrect BTree Input.

#[global] Instance uint_eq_dec n : EqDecision (uint n).
Proof. solve_decision. Defined.
#[global] Instance str_eq_dec : EqDecision str.
Proof. solve_decision. Defined.
#[global] Instance Handle_eq_dec : EqDecision Handle.
Proof. solve_decision. Defined.

(** ** Properties ([lib.rs]) *)

Module Property.
Inductive t :=
  | Bool (value : bool)
  | Integer (value : uint 8)
  | String (value : str)
  | Bytes (value : list (uint 1)).

#[global] Instance eq_dec : EqDecision t.
Proof. solve_decision. Defined.

Definition as_bool (self : t) : option bool := match self with Bool value => Some value | _ => None end.
Definition as_integer (self : t) : option (uint 8) := match self with Integer value => Some value | _ => None end.
Definition as_str (self : t) : option str := match self with String value => Some value | _ => None end.
Definition as_bytes (self : t) : option (list (uint 1)) := match self with Bytes value => Some value | _ => None end.
End Property.

Module HandoffProperty.
Inductive t :=
  | Bool (value : bool)
  | Integer (value : uint 8)
  | String (value : str)
  | Bytes (value : list (uint 1))
  | MemoryObject (handle : Handle)
  | Event (handle : Handle)
  | Interrupt (handle : Handle)
  | Channel (handle : Handle).

#[global] Instance eq_dec : EqDecision t.
Proof. solve_decision. Defined.

(** An [Event] and an [Interrupt] of the library wrap the handle. *)
Definition as_bool (self : t) : option bool := match self with Bool value => Some value | _ => None end.
Definition as_integer (self : t) : option (uint 8) := match self with Integer value => Some value | _ => None end.
Definition as_str (self : t) : option str := match self with String value => Some value | _ => None end.
Definition as_bytes (self : t) : option (list (uint 1)) := match self with Bytes value => Some value | _ => None end.
Definition as_memory_object (self : t) : option Handle := match self with MemoryObject value => Some value | _ => None end.
Definition as_event (self : t) : option Handle := match self with Event value => Some value | _ => None end.
Definition as_interrupt (self : t) : option Handle := match self with Interrupt value => Some value | _ => None end.
Definition as_channel (self : t) : option Handle := match self with Channel value => Some value | _ => None end.
End HandoffProperty.

Record DeviceInfo := mkDeviceInfo { info_properties : BTreeMap str Property.t }.
Record HandoffInfo := mkHandoffInfo { handoff_properties : BTreeMap str HandoffProperty.t }.

(** [get_as_bool] and the like of both. *)
Definition info_get {A} (as_type : Property.t -> option A) (self : DeviceInfo) (name : str) : option A :=
  btree_get name (entries (info_properties self)) ≫= as_type.
Definition handoff_get {A} (as_type : HandoffProperty.t -> option A) (self : HandoffInfo) (name : str) : option A :=
  btree_get name (entries (handoff_properties self)) ≫= as_type.

(** ** Filters *)

Inductive Filter :=
  | Matches (name : str) (property : Property.t)
  | All (filters : list Filter).

Fixpoint match_against (self : Filter) (properties : BTreeMap str Property.t) : bool :=
  match self with
  | Matches name property =>
      match btree_get name (entries properties) with
      | Some property_to_match => bool_decide (property = property_to_match)
      | None => false
      end
  | All filters => fold_left (fun matches_so_far filter => matches_so_far && match_against filter properties) filters true
  end.

(** ** Messages *)

Inductive BusDriverMessage :=
  | RegisterDevice (name : str) (device_info : DeviceInfo) (handoff_info : HandoffInfo).

Inductive DeviceDriverMessage :=
  | RegisterInterest (filters : list Filter)
  | CanSupport (name : str) (does_support : bool).

Inductive DeviceDriverRequest :=
  | QuerySupport (name : str) (device_info : DeviceInfo)
  | HandoffDevice (name : str) (device_info : DeviceInfo) (handoff_info : HandoffInfo).

(** ** The service ([main.rs]) *)

Definition KERNEL_DEVICE : Z := 2 ^ 64 - 1.

(** A channel is the handle of its end. *)
Record BusDriver := mkBusDriver { bus_name : str; bus_channel : Z }.
Record DeviceDriver := mkDeviceDriver {
  driver_name : str;
  filters : option (list Filter);
  channel : Z;
}.

Inductive Device :=
  | Unclaimed (bus_driver : Z) (device_info : DeviceInfo) (handoff_info : HandoffInfo)
  | Claimed (bus_driver : Z) (device_info : DeviceInfo) (device_driver : nat).

Definition is_claimed (self : Device) : bool :=
  match self with Unclaimed _ _ _ => false | Claimed _ _ _ => true end.

Record PlatformBus := mkPlatformBus {
  bus_drivers : list BusDriver;
  device_drivers : list DeviceDriver;
  devices : list (str * Device);
}.

(** [append] adds the devices of the buses that the service enumerates itself. *)
Definition PlatformBus_new (enumerated : list (str * Device)) : PlatformBus := mkPlatformBus [] [] enumerated.

Definition register_bus_driver (self : PlatformBus) (name : str) (channel : Z) : PlatformBus * nat :=
  (mkPlatformBus (bus_drivers self ++ [mkBusDriver name channel]) (device_drivers self) (devices self),
   length (bus_drivers self)).

Definition register_device_driver (self : PlatformBus) (name : str) (channel : Z) : PlatformBus * nat :=
  (mkPlatformBus (bus_drivers self) (device_drivers self ++ [mkDeviceDriver name None channel]) (devices self),
   length (device_drivers self)).

Definition register_device (self : PlatformBus) (name : str) (device : Device) : PlatformBus :=
  mkPlatformBus (bus_drivers self) (device_drivers self) (btree_insert name device (devices self)).

(** The messages sent, each with the channel it was sent on. *)
Definition output : Type := Z * DeviceDriverRequest.

Section service.
(** Whether [Channel::send] returns [Ok]. *)
Context (accepted : Z -> DeviceDriverRequest -> bool).

(** [channel.send(&message).unwrap()]. *)
Definition send (sent : list output) (channel : Z) (message : DeviceDriverRequest) : outcome (list output) :=
  rassert (accepted channel message) ;; mret (sent ++ [(channel, message)]).

(** The loop over a driver's filters. *)
Fixpoint matches_filter (fs : list Filter) (info : DeviceInfo) : bool :=
  match fs with
  | [] => false
  | filter :: fs => if match_against filter (info_properties info) then true else matches_filter fs info
  end.

Definition query_driver (name : str) (info : DeviceInfo) (sent : list output) (driver : DeviceDriver) :
    outcome (list output) :=
  match filters driver with
  | Some fs => if matches_filter fs info then send sent (channel driver) (QuerySupport name info) else mret sent
  | None => mret sent
  end.

Definition check_device (drivers : list DeviceDriver) (sent : list output) (entry : str * Device) :
    outcome (list output) :=
  match entry.2 with
  | Claimed _ _ _ => mret sent
  | Unclaimed _ info _ => ofold (query_driver entry.1 info) sent drivers
  end.

Definition check_devices (self : PlatformBus) (sent : list output) : outcome (list output) :=
  ofold (check_device (device_drivers self)) sent (devices self).

(** The task of a bus driver. *)
Definition on_bus_driver_message (self : PlatformBus) (sent : list output) (bus_driver_index : nat)
    (message : BusDriverMessage) : outcome (PlatformBus * list output) :=
  match message with
  | RegisterDevice name device_info handoff_info =>
      let self := register_device self name (Unclaimed (Z.of_nat bus_driver_index) device_info handoff_info) in
      sent ← check_devices self sent;
      mret (self, sent)
  end.

Definition set_filters (driver : DeviceDriver) (fs : list Filter) : DeviceDriver :=
  match filters driver with
  | None => mkDeviceDriver (driver_name driver) (Some fs) (channel driver)
  | Some _ => driver
  end.

(** The task of a device driver. *)
Definition on_device_driver_message (self : PlatformBus) (sent : list output) (device_driver_index : nat)
    (message : DeviceDriverMessage) : outcome (PlatformBus * list output) :=
  match message with
  | RegisterInterest fs =>
      device_driver ← unwrap (device_drivers self !! device_driver_index);
      let self := mkPlatformBus (bus_drivers self)
        (<[device_driver_index := set_filters device_driver fs]> (device_drivers self)) (devices self) in
      sent ← check_devices self sent;
      mret (self, sent)
  | CanSupport device_name does_support =>
      if does_support : bool then
        device_driver ← unwrap (device_drivers self !! device_driver_index);
        device ← unwrap (btree_get device_name (devices self));
        if is_claimed device then mret (self, sent)
        else
          match device with
          | Unclaimed bus_driver device_info handoff_info =>
              let claimed_device := Claimed bus_driver device_info device_driver_index in
              let self := mkPlatformBus (bus_drivers self) (device_drivers self)
                (btree_insert device_name claimed_device (devices self)) in
              sent ← send sent (channel device_driver) (HandoffDevice device_name device_info handoff_info);
              mret (self, sent)
          | Claimed _ _ _ => Panic
          end
      else mret (self, sent)
  end.

Inductive event :=
  | BusDriverSubscribes (name : str) (channel : Z)
  | DeviceDriverSubscribes (name : str) (channel : Z)
  | FromBusDriver (bus_driver_index : nat) (message : BusDriverMessage)
  | FromDeviceDriver (device_driver_index : nat) (message : DeviceDriverMessage).

Definition handle (s : PlatformBus * list output) (e : event) : outcome (PlatformBus * list output) :=
  let '(self, sent) := s in
  match e with
  | BusDriverSubscribes name channel => mret ((register_bus_driver self name channel).1, sent)
  | DeviceDriverSubscribes name channel => mret ((register_device_driver self name channel).1, sent)
  | FromBusDriver i message => on_bus_driver_message self sent i message
  | FromDeviceDriver i message => on_device_driver_message self sent i message
  end.

Definition run (enumerated : list (str * Device)) (es : list event) : outcome (PlatformBus * list output) :=
  ofold handle (PlatformBus_new enumerated, []) es.

End service.

(** ** PCI devices ([service/pci.rs])

    The descriptors come from the kernel, a device's name is the text of its
    address. *)

Inductive Bar :=
  | Memory32 (memory_object : Handle) (size : uint 4)
  | Memory64 (memory_object : Handle) (size : uint 8).

Record PciDescriptor := mkPciDescriptor {
  pci_address : str;
  vendor_id : Z;
  device_id : Z;
  class : Z;
  sub_class : Z;
  interface : Z;
  bars : list (option Bar);
  interrupt : option Handle;
}.

(** A string literal. *)
Definition lit (s : string) : str := Str (Z.of_nat ∘ Ascii.nat_of_ascii <$> String.list_ascii_of_string s).
Definition str_app (s1 s2 : str) : str := Str (str_bytes s1 ++ str_bytes s2).

(** A one-digit number, as [format!] writes it; there are six BARs. *)
Definition digit (i : nat) : str := Str [48 + Z.of_nat i].

Definition pci_info (d : PciDescriptor) : DeviceInfo :=
  let int (v : Z) := Property.Integer (Uint v) in
  mkDeviceInfo (mkBTreeMap
    (btree_insert (lit "pci.interface") (int (interface d))
    (btree_insert (lit "pci.sub_class") (int (sub_class d))
    (btree_insert (lit "pci.class") (int (class d))
    (btree_insert (lit "pci.device_id") (int (device_id d))
    (btree_insert (lit "pci.vendor_id") (int (vendor_id d)) [])))))).

Definition add_bar (properties : list (str * HandoffProperty.t)) (entry : nat * option Bar) :
    list (str * HandoffProperty.t) :=
  let '(i, bar) := entry in
  let handle := str_app (lit "pci.bar") (str_app (digit i) (lit ".handle")) in
  let size_name := str_app (lit "pci.bar") (str_app (digit i) (lit ".size")) in
  match bar with
  | Some (Memory32 memory_object size) =>
      btree_insert size_name (HandoffProperty.Integer (Uint (uint_val size)))
        (btree_insert handle (HandoffProperty.MemoryObject memory_object) properties)
  | Some (Memory64 memory_object size) =>
      btree_insert size_name (HandoffProperty.Integer size)
        (btree_insert handle (HandoffProperty.MemoryObject memory_object) properties)
  | None => properties
  end.

Definition pci_handoff (d : PciDescriptor) : HandoffInfo :=
  let properties := match interrupt d with
                    | Some i => btree_insert (lit "pci.interrupt") (HandoffProperty.Interrupt i) []
                    | None => []
                    end in
  mkHandoffInfo (mkBTreeMap (foldl add_bar properties (imap pair (bars d)))).

Definition enumerate_pci_devices (descriptors : list PciDescriptor) : list (str * Device) :=
  foldl (fun devices d =>
    btree_insert (str_app (lit "pci-") (pci_address d)) (Unclaimed KERNEL_DEVICE (pci_info d) (pci_handoff d)) devices)
    [] descriptors.

(** ** The inspection service *)

Record DeviceInspect := mkDeviceInspect { inspect_name : str; claimed : bool; properties : BTreeMap str Property.t }.

Definition inspect_device (entry : str * Device) : DeviceInspect :=
  match entry.2 with
  | Unclaimed _ device_info _ => mkDeviceInspect entry.1 false (info_properties device_info)
  | Claimed _ device_info _ => mkDeviceInspect entry.1 true (info_properties device_info)
  end.

(** The lists of drivers are empty. *)
Definition inspect (self : PlatformBus) : list DeviceInspect := inspect_device <$> devices self.

(** ** Filters *)

(** The properties a filter asks for. *)
Fixpoint leaves (f : Filter) : list (str * Property.t) :=
  match f with
  | Matches name property => [(name, property)]
  | All fs => concat (map leaves fs)
  end.

Section filter_induction.
Context (P : Filter -> Prop).
Hypothesis (Hm : forall n p, P (Matches n p)) (Ha : forall fs, Forall P fs -> P (All fs)).

Fixpoint filter_induction (f : Filter) : P f :=
  match f with
  | Matches n p => Hm n p
  | All fs => Ha fs ((fix go fs : Forall P fs :=
      match fs with [] => Forall_nil_2 P | f :: fs => Forall_cons_2 P f fs (filter_induction f) (go fs) end) fs)
  end.

End filter_induction.

Lemma fold_and {A} (g : A -> bool) l b : fold_left (fun b x => b && g x) l b = b && forallb g l.
Proof. revert b. induction l as [|x l IH]; intros b; simpl; [by rewrite andb_true_r|]. by rewrite IH, andb_assoc. Qed.

(** A filter matches a device that has all the properties it asks for. *)
Lemma match_against_spec f ps :
  match_against f ps = true <->
  forall n p, (n, p) ∈ leaves f -> btree_get n (entries ps) = Some p.
Proof.
  induction f as [n p|fs IH] using filter_induction; simpl.
  - destruct (btree_get n (entries ps)) as [p'|] eqn:E.
    + rewrite bool_decide_eq_true. split; [intros -> n' ? Hl|intros Hl].
      * apply list_elem_of_singleton in Hl. naive_solver.
      * specialize (Hl n p ltac:(left)). congruence.
    + split; [done|]. intros Hl. specialize (Hl n p ltac:(left)). congruence.
  - rewrite fold_and. simpl. rewrite forallb_forall.
    assert (forall f, f ∈ fs -> match_against f ps = true <->
      forall n p, (n, p) ∈ leaves f -> btree_get n (entries ps) = Some p) as Hfs
      by (intros f Hf; rewrite Forall_forall in IH; by apply IH).
    assert (forall n p, (n, p) ∈ concat (map leaves fs) <-> exists f, f ∈ fs /\ (n, p) ∈ leaves f) as Hc.
    { intros n p. rewrite list_elem_of_In, in_concat. setoid_rewrite in_map_iff. setoid_rewrite list_elem_of_In. naive_solver. }
    setoid_rewrite Hc. setoid_rewrite <- list_elem_of_In. split.
    + intros H n p (f & Hf & Hl). by apply (proj1 (Hfs f Hf) (H f Hf)).
    + intros H f Hf. apply Hfs; [done|]. intros n p Hl. apply H. eauto.
Qed.

Lemma matches_filter_spec fs info :
  matches_filter fs info = true <-> exists f, f ∈ fs /\ match_against f (info_properties info) = true.
Proof.
  induction fs as [|f fs IH]; simpl.
  - split; [done|]. intros (f & Hf & _). by apply elem_of_nil in Hf.
  - setoid_rewrite elem_of_cons. destruct (match_against f (info_properties info)) eqn:E.
    + split; [intros _; exists f; auto|done].
    + rewrite IH. split; [intros (f' & ? & ?); eauto|]. intros (f' & [->|?] & ?); [congruence|eauto].
Qed.

(** ** What is registered, waits, and is handed off *)

Definition registration : Type := str * (DeviceInfo * HandoffInfo).

Definition registers (e : event) : option registration :=
  match e with
  | FromBusDriver _ (RegisterDevice name info handoff) => Some (name, (info, handoff))
  | _ => None
  end.

Definition waiting (entry : str * Device) : option registration :=
  match entry.2 with
  | Unclaimed _ info handoff => Some (entry.1, (info, handoff))
  | Claimed _ _ _ => None
  end.

Definition hands_off (o : output) : option registration :=
  match o.2 with
  | HandoffDevice name info handoff => Some (name, (info, handoff))
  | QuerySupport _ _ => None
  end.

Definition registered (enumerated : list (str * Device)) (es : list event) : list registration :=
  omap waiting enumerated ++ omap registers es.

(** The channels of the device drivers, by their index. *)
Definition driver_channels (es : list event) : list Z :=
  omap (fun e => match e with DeviceDriverSubscribes _ channel => Some channel | _ => None end) es.

(** A driver that registered a filter that matches. *)
Definition interested (driver : DeviceDriver) (info : DeviceInfo) : bool :=
  match filters driver with Some fs => matches_filter fs info | None => false end.

(** The filters a driver registered: those of its first message of that kind. *)
Definition first_interest (es : list event) (j : nat) : option (list Filter) :=
  head (omap (fun e => match e with
    | FromDeviceDriver j' (RegisterInterest fs) => if decide (j' = j) then Some fs else None
    | _ => None end) es).

(** One of the filters the driver registered asks only for properties that the
    device has. *)
Definition wants (es : list event) (j : nat) (info : DeviceInfo) : Prop :=
  exists fs f, first_interest es j = Some fs /\ f ∈ fs /\
    forall n p, (n, p) ∈ leaves f -> btree_get n (entries (info_properties info)) = Some p.

Lemma interested_spec es j d info :
  first_interest es j = filters d -> interested d info = true <-> wants es j info.
Proof.
  intros E. unfold interested, wants. rewrite E. destruct (filters d) as [fs|].
  - rewrite matches_filter_spec. setoid_rewrite match_against_spec. naive_solver.
  - split; [done|]. by intros (? & ? & ? & _).
Qed.

(** A message of a device driver comes from one that subscribed. *)
Definition subscribed (before : list event) (e : event) : Prop :=
  match e with FromDeviceDriver i _ => (i < length (driver_channels before))%nat | _ => True end.

(** A driver claims to support only devices that were registered. *)
Definition known (enumerated : list (str * Device)) (before : list event) (e : event) : Prop :=
  match e with
  | FromDeviceDriver _ (CanSupport name true) => name ∈ (registered enumerated before).*1
  | _ => True
  end.

Definition query (name : str) (info : DeviceInfo) (driver : DeviceDriver) : option output :=
  if interested driver info then Some (channel driver, QuerySupport name info) else None.

Definition queries (drivers : list DeviceDriver) (entry : str * Device) : list output :=
  match entry.2 with
  | Unclaimed _ info _ => omap (query entry.1 info) drivers
  | Claimed _ _ _ => []
  end.

(** What follows holds of a service that panics only if [Q]. *)
Section service.
Context (accepted : Z -> DeviceDriverRequest -> bool) (Q : Prop).

Lemma query_driver_spec n i sent d :
  (forall ch, accepted ch (QuerySupport n i) = true \/ Q) ->
  query_driver accepted n i sent d ⇓{Q} fun sent' => sent' = sent ++ option_list (query n i d).
Proof.
  intros Hacc. unfold query_driver, query, interested, send.
  destruct (filters d) as [fs|]; [|simpl; by rewrite app_nil_r].
  destruct (matches_filter fs i); [|simpl; by rewrite app_nil_r].
  destruct (Hacc (channel d)) as [->|HQ]; [done|]. by destruct (accepted _ _).
Qed.

Lemma check_device_spec drivers sent entry :
  (forall ch info, option_map (fun r => r.2.1) (waiting entry) = Some info ->
     accepted ch (QuerySupport entry.1 info) = true \/ Q) ->
  check_device accepted drivers sent entry ⇓{Q} fun sent' => sent' = sent ++ queries drivers entry.
Proof.
  destruct entry as [n [b i h|b i j]]; unfold check_device, queries; simpl; [|by rewrite app_nil_r].
  intros Hacc. revert sent. induction drivers as [|d ds IH]; intros sent; cbn [ofold]; [by rewrite app_nil_r|].
  eapply returns_unless_bind; [apply query_driver_spec; auto|done|]. intros s' ->.
  eapply returns_unless_weaken; [apply IH|done|]. intros s' ->. rewrite <- app_assoc. cbn. by destruct (query n i d).
Qed.

Lemma check_devices_spec self sent :
  (forall ch n i h, (n, (i, h)) ∈ omap waiting (devices self) -> accepted ch (QuerySupport n i) = true \/ Q) ->
  check_devices accepted self sent ⇓{Q} fun sent' =>
    sent' = sent ++ (devices self ≫= queries (device_drivers self)).
Proof.
  unfold check_devices. generalize (devices self). intros l. revert sent.
  induction l as [|[n d] l IH]; intros sent Hacc; simpl; [by rewrite app_nil_r|].
  eapply returns_unless_bind; [apply check_device_spec|done|].
  2:{ intros s' ->. eapply returns_unless_weaken; [apply IH|done|by intros s' ->; rewrite <- app_assoc].
    intros ch n' i h Hin. apply (Hacc ch n' i h).
    apply list_elem_of_omap in Hin as (e & He & Hw). apply list_elem_of_omap. exists e. split; [by right|done]. }
  - intros ch info Hw. destruct d as [b i h|]; [|done]. injection Hw as <-. apply (Hacc ch n i h).
    apply list_elem_of_omap. exists (n, Unclaimed b i h). split; [left|done].
Qed.

Lemma elem_of_queries drivers ds o :
  o ∈ ds ≫= queries drivers <->
  exists n b i h d, (n, Unclaimed b i h) ∈ ds /\ d ∈ drivers /\ interested d i = true /\ o = (channel d, QuerySupport n i).
Proof.
  rewrite list_elem_of_bind. split.
  - intros ([n [b i h|]] & Ho & Hd); [|by apply elem_of_nil in Ho].
    apply list_elem_of_omap in Ho as (d & Hdd & Hq). unfold query in Hq.
    destruct (interested d i) eqn:E; [|done]. injection Hq as <-. by exists n, b, i, h, d.
  - intros (n & b & i & h & d & Hd & Hdd & Hi & ->). exists (n, Unclaimed b i h). split; [|done].
    apply list_elem_of_omap. exists d. split; [done|]. unfold query. by rewrite Hi.
Qed.

Lemma queries_hand_off drivers ds : omap hands_off (ds ≫= queries drivers) = [].
Proof.
  destruct (omap hands_off (ds ≫= queries drivers)) as [|r l] eqn:E; [done|].
  assert (r ∈ omap hands_off (ds ≫= queries drivers)) as (o & Ho & Hr)%list_elem_of_omap by (rewrite E; left).
  apply elem_of_queries in Ho as (? & ? & ? & ? & ? & _ & _ & _ & ->). done.
Qed.

(** *** The invariant *)

Record bus_inv (enumerated : list (str * Device)) (es : list event) (self : PlatformBus) (sent : list output) : Prop := {
  inv_sorted : keys_sorted (devices self);
  inv_channels : channel <$> device_drivers self = driver_channels es;
  inv_names : forall n, n ∈ (devices self).*1 <-> n ∈ (registered enumerated es).*1;
  inv_conserved : exists lost,
    registered enumerated es ≡ₚ omap hands_off sent ++ omap waiting (devices self) ++ lost /\
    (NoDup (registered enumerated es).*1 -> lost = []);
  inv_offered : forall n b i h d, (n, Unclaimed b i h) ∈ devices self -> d ∈ device_drivers self ->
    interested d i = true -> (channel d, QuerySupport n i) ∈ sent;
  inv_asked : forall ch n i, (ch, QuerySupport n i) ∈ sent ->
    exists d, d ∈ device_drivers self /\ channel d = ch /\ interested d i = true;
  inv_filters : forall j, first_interest es j = device_drivers self !! j ≫= filters;
  inv_claimed : forall n b i j, (n, Claimed b i j) ∈ devices self ->
    exists d h, device_drivers self !! j = Some d /\ (channel d, HandoffDevice n i h) ∈ sent;
}.

Lemma registered_snoc enumerated es e :
  registered enumerated (es ++ [e]) = registered enumerated es ++ option_list (registers e).
Proof. unfold registered. rewrite omap_app, app_assoc. simpl. by destruct (registers e). Qed.

Lemma driver_channels_snoc es e :
  driver_channels (es ++ [e]) =
  driver_channels es ++ match e with DeviceDriverSubscribes _ channel => [channel] | _ => [] end.
Proof. unfold driver_channels. rewrite omap_app. by destruct e. Qed.

Lemma first_interest_snoc es e j :
  first_interest (es ++ [e]) j =
  match first_interest es j with
  | Some fs => Some fs
  | None => match e with
            | FromDeviceDriver j' (RegisterInterest fs) => if decide (j' = j) then Some fs else None
            | _ => None end
  end.
Proof.
  unfold first_interest. rewrite omap_app. destruct (omap _ es); [|done].
  destruct e as [| | |j' [fs|]]; try done. simpl. by destruct (decide (j' = j)).
Qed.

Lemma bus_inv_waiting enumerated es self sent n i h :
  bus_inv enumerated es self sent -> (n, (i, h)) ∈ omap waiting (devices self) -> (n, (i, h)) ∈ registered enumerated es.
Proof. intros Hi Hw. destruct (inv_conserved _ _ _ _ Hi) as (lost & -> & _). rewrite !elem_of_app. auto. Qed.

(** Asking about all devices keeps the invariant, and makes every offer. *)
Lemma bus_inv_check enumerated es self sent :
  (forall ch n i h, (n, (i, h)) ∈ registered enumerated es -> accepted ch (QuerySupport n i) = true \/ Q) ->
  keys_sorted (devices self) -> channel <$> device_drivers self = driver_channels es ->
  (forall n, n ∈ (devices self).*1 <-> n ∈ (registered enumerated es).*1) ->
  (exists lost, registered enumerated es ≡ₚ omap hands_off sent ++ omap waiting (devices self) ++ lost /\
    (NoDup (registered enumerated es).*1 -> lost = [])) ->
  (forall ch n i, (ch, QuerySupport n i) ∈ sent ->
    exists d, d ∈ device_drivers self /\ channel d = ch /\ interested d i = true) ->
  (forall j, first_interest es j = device_drivers self !! j ≫= filters) ->
  (forall n b i j, (n, Claimed b i j) ∈ devices self ->
    exists d h, device_drivers self !! j = Some d /\ (channel d, HandoffDevice n i h) ∈ sent) ->
  check_devices accepted self sent ⇓{Q} bus_inv enumerated es self.
Proof.
  intros Hacc Hs Hc Hn Hp Hq Hf Hcl. destruct Hp as (lost & Hp & Hl).
  eapply returns_unless_weaken; [apply check_devices_spec|done|].
  { intros ch n i h Hin. apply (Hacc ch n i h). rewrite Hp, !elem_of_app. auto. }
  intros s' ->. split; try done.
  - exists lost. split; [|done]. by rewrite omap_app, queries_hand_off, app_nil_r.
  - intros n b i h d Hd Hdd Hi. apply elem_of_app. right. apply elem_of_queries. by exists n, b, i, h, d.
  - intros ch n i [Ho|Ho]%elem_of_app; [by eapply Hq|].
    apply elem_of_queries in Ho as (n' & b & i' & h & d & _ & Hd & Hi & [= -> -> ->]). by exists d.
  - intros n b i j Hd. destruct (Hcl n b i j Hd) as (d & h & ? & ?). exists d, h. split; [done|].
    apply elem_of_app. by left.
Qed.

Lemma handle_bus_driver enumerated es self sent bi name info handoff :
  let e := FromBusDriver bi (RegisterDevice name info handoff) in
  (forall ch n i h, (n, (i, h)) ∈ registered enumerated (es ++ [e]) -> accepted ch (QuerySupport n i) = true \/ Q) ->
  bus_inv enumerated es self sent ->
  handle accepted (self, sent) e ⇓{Q} fun '(self', sent') => bus_inv enumerated (es ++ [e]) self' sent'.
Proof.
  intros e Hacc [Hs Hc Hn (lost & Hp & Hl) Ho Hq Hf Hcl]. simpl.
  eapply returns_unless_bind; [|done|intros s' Hi; exact Hi].
  assert (registered enumerated (es ++ [e]) = registered enumerated es ++ [(name, (info, handoff))]) as Er
    by (by rewrite registered_snoc).
  pose proof (btree_insert_split name (Unclaimed (Z.of_nat bi) info handoff) (devices self) Hs) as (m1 & m2 & Ei & Em).
  apply bus_inv_check; simpl; try done.
  - by apply btree_insert_sorted.
  - by rewrite driver_channels_snoc, app_nil_r.
  - intros n. rewrite keys_btree_insert, Hn, Er, fmap_app, elem_of_app by done. simpl.
    rewrite list_elem_of_singleton. tauto.
  - rewrite Er, Ei, omap_app. cbn [omap list_omap waiting fst snd]. destruct (btree_get name (devices self)) as [[b' i' h'|b' i' j']|] eqn:Eg.
    + exists ((name, (i', h')) :: lost). split.
      * rewrite Hp, Em, omap_app. cbn. rewrite <- !app_assoc. cbn. solve_Permutation.
      * intros Hnd. exfalso. rewrite fmap_app in Hnd. apply NoDup_app in Hnd as (_ & Hnd & _). apply (Hnd name); [|left].
        apply Hn, list_elem_of_fmap. eexists. split; [|apply btree_get_Some; [done|exact Eg]]. done.
    + exists lost. split.
      * rewrite Hp, Em, omap_app. cbn. solve_Permutation.
      * intros Hnd. apply Hl. rewrite fmap_app in Hnd. by apply NoDup_app in Hnd as (? & _).
    + exists lost. split.
      * rewrite Hp, Em, omap_app. cbn. solve_Permutation.
      * intros Hnd. apply Hl. rewrite fmap_app in Hnd. by apply NoDup_app in Hnd as (? & _).
  - intros j. rewrite first_interest_snoc, Hf. by destruct (_ ≫= _).
  - intros n b i j Hin. apply elem_of_btree_insert in Hin as [[=]|[Hin _]]; [|done]. by eapply Hcl.
Qed.

(** Registering filters changes only what the driver is interested in, and only
    once. *)
Lemma set_filters_interested d fs i : interested d i = true -> interested (set_filters d fs) i = true.
Proof using Type. unfold interested, set_filters. by destruct (filters d) eqn:E; [rewrite E|]. Qed.

Lemma set_filters_channel d fs : channel (set_filters d fs) = channel d.
Proof using Type. unfold set_filters. by destruct (filters d). Qed.

Lemma handle_interest enumerated es self sent j fs :
  let e := FromDeviceDriver j (RegisterInterest fs) in
  (forall ch n i h, (n, (i, h)) ∈ registered enumerated es -> accepted ch (QuerySupport n i) = true \/ Q) ->
  bus_inv enumerated es self sent -> subscribed es e ->
  handle accepted (self, sent) e ⇓{Q} fun '(self', sent') => bus_inv enumerated (es ++ [e]) self' sent'.
Proof.
  intros e Hacc [Hs Hc Hn Hp Ho Hq Hf Hcl] Hj. simpl.
  destruct (lookup_lt_is_Some_2 (device_drivers self) j) as [d Hd]; [by rewrite <- (length_fmap channel), Hc|].
  rewrite Hd. simpl. eapply returns_unless_bind; [|done|intros s' Hi; exact Hi].
  assert (registered enumerated (es ++ [e]) = registered enumerated es) as Er
    by (by rewrite registered_snoc, app_nil_r).
  apply bus_inv_check; simpl; rewrite ?Er; try done.
  - rewrite driver_channels_snoc, app_nil_r, <- Hc, list_fmap_insert, set_filters_channel.
    apply list_insert_id. by rewrite list_lookup_fmap, Hd.
  - intros ch n i Hin. destruct (Hq ch n i Hin) as (d' & [k Hk]%list_elem_of_lookup & Hch & Hi).
    destruct (decide (k = j)) as [->|Hne].
    + rewrite Hd in Hk. injection Hk as ->. exists (set_filters d' fs). split_and!.
      * apply list_elem_of_lookup. exists j. apply list_lookup_insert_eq. by eapply lookup_lt_Some.
      * by rewrite set_filters_channel.
      * by apply set_filters_interested.
    + exists d'. split_and!; try done. apply list_elem_of_lookup. exists k. by rewrite list_lookup_insert_ne.
  - intros k. rewrite first_interest_snoc, Hf. unfold e. destruct (decide (j = k)) as [<-|Hne].
    + rewrite list_lookup_insert_eq, Hd by (by eapply lookup_lt_Some). cbn [mbind option_bind].
      unfold set_filters. destruct (filters d) eqn:E; [by rewrite E|done].
    + rewrite list_lookup_insert_ne by done. by destruct (_ ≫= _).
  - intros n b i k Hin. destruct (Hcl n b i k Hin) as (d' & h & Hk & Hh). destruct (decide (k = j)) as [->|Hne].
    + rewrite Hd in Hk. injection Hk as ->. exists (set_filters d' fs), h. rewrite set_filters_channel. split; [|done].
      apply list_lookup_insert_eq. by eapply lookup_lt_Some.
    + exists d', h. by rewrite list_lookup_insert_ne.
Qed.

Lemma handle_support enumerated es self sent j name (b : bool) :
  let e := FromDeviceDriver j (CanSupport name b) in
  (forall ch n i h, (n, (i, h)) ∈ registered enumerated es -> accepted ch (HandoffDevice n i h) = true \/ Q) ->
  bus_inv enumerated es self sent -> subscribed es e -> known enumerated es e \/ Q ->
  handle accepted (self, sent) e ⇓{Q} fun '(self', sent') => bus_inv enumerated (es ++ [e]) self' sent'.
Proof.
  intros e Hacc Hi Hj Hname.
  assert (registered enumerated (es ++ [e]) = registered enumerated es) as Er
    by (by rewrite registered_snoc, app_nil_r).
  assert (driver_channels (es ++ [e]) = driver_channels es) as Ec by (by rewrite driver_channels_snoc, app_nil_r).
  assert (bus_inv enumerated (es ++ [e]) self sent) as Hsame
    by (destruct Hi as [?????? Hf ?]; split; rewrite ?Er, ?Ec; try done;
        intros k; rewrite first_interest_snoc, Hf; by destruct (_ ≫= _)).
  destruct b; [|exact Hsame]. pose proof Hi as [Hs Hc Hn (lost & Hp & Hl) Ho Hq Hf Hcl]. simpl.
  destruct (lookup_lt_is_Some_2 (device_drivers self) j) as [d Hd]; [by rewrite <- (length_fmap channel), Hc|].
  rewrite Hd. simpl. destruct (btree_get name (devices self)) as [dev|] eqn:Eg.
  2:{ destruct Hname as [Hname%Hn|HQ]; [by apply btree_get_None in Eg|exact HQ]. }
  destruct dev as [bd i h|bd i k]; simpl; [|exact Hsame].
  pose proof Eg as Hin. apply btree_get_Some in Hin; [|done].
  assert ((name, (i, h)) ∈ registered enumerated es) as Hreg.
  { eapply bus_inv_waiting; [done|]. apply list_elem_of_omap. by exists (name, Unclaimed bd i h). }
  unfold send. destruct (accepted (channel d) _) eqn:Eacc.
  2:{ destruct (Hacc (channel d) _ _ _ Hreg); [congruence|done]. }
  simpl.
  destruct (btree_insert_split name (Claimed bd i j) (devices self) Hs) as (m1 & m2 & Ei & Em). rewrite Eg in Em.
  split; simpl; rewrite ?Er, ?Ec; try done.
  - by apply btree_insert_sorted.
  - intros n. rewrite keys_btree_insert by done. rewrite <- Hn. split; [|by right].
    intros [->|?]; [|done]. apply list_elem_of_fmap. exists (name, Unclaimed bd i h). by split.
  - exists lost. split; [|done]. rewrite Hp, Ei, omap_app. rewrite Em at 1. rewrite !omap_app. cbn.
    rewrite <- !app_assoc. cbn. solve_Permutation.
  - intros n b' i' h' d' Hin' Hd' Hi'. apply elem_of_btree_insert in Hin' as [[=]|[Hin' _]]; [|done].
    apply elem_of_app. left. by eapply Ho.
  - intros ch n i' [Hin'|Hin']%elem_of_app; [by eapply Hq|]. apply list_elem_of_singleton in Hin'. done.
  - intros k. rewrite first_interest_snoc, Hf. by destruct (_ ≫= _).
  - intros n b' i' k Hin'. apply elem_of_btree_insert in Hin' as [[= -> -> -> ->]|[Hin' _]]; [| |done].
    + exists d, h. split; [done|]. apply elem_of_app. right. left.
    + destruct (Hcl n b' i' k Hin') as (d' & h' & ? & ?). exists d', h'. split; [done|]. apply elem_of_app. by left.
Qed.

Lemma handle_subscribe enumerated es self sent e :
  match e with BusDriverSubscribes _ _ | DeviceDriverSubscribes _ _ => True | _ => False end ->
  bus_inv enumerated es self sent ->
  handle accepted (self, sent) e ⇓{Q} fun '(self', sent') => bus_inv enumerated (es ++ [e]) self' sent'.
Proof.
  intros He [Hs Hc Hn Hp Ho Hq Hf Hcl]. destruct e as [name ch|name ch| |]; try done; simpl;
    (split; simpl; rewrite ?registered_snoc, ?driver_channels_snoc, ?app_nil_r; try done).
  - intros j. rewrite first_interest_snoc, Hf. by destruct (_ ≫= _).
  - rewrite fmap_app, Hc. done.
  - intros n b i h d Hin [Hd|Hd]%elem_of_app Hi; [by eapply Ho|]. by apply list_elem_of_singleton in Hd as ->.
  - intros ch' n i Hin. destruct (Hq ch' n i Hin) as (d & ? & ? & ?). exists d. split_and!; try done.
    apply elem_of_app. by left.
  - intros j. rewrite first_interest_snoc, Hf.
    destruct (lt_eq_lt_dec j (length (device_drivers self))) as [[Hj| ->]|Hj].
    + rewrite lookup_app_l by done. by destruct (_ ≫= _).
    + rewrite list_lookup_middle by done. by rewrite lookup_ge_None_2.
    + rewrite !lookup_ge_None_2; rewrite ?length_app; simpl; (done || lia).
  - intros n b i j Hin. destruct (Hcl n b i j Hin) as (d & h & Hj & ?). exists d, h. split; [|done].
    by apply lookup_app_l_Some.
Qed.

(** The invariant holds after every run. *)
Lemma run_inv enumerated es :
  keys_sorted enumerated -> (forall n d, (n, d) ∈ enumerated -> is_claimed d = false) ->
  (forall ch n i h, (n, (i, h)) ∈ registered enumerated es ->
     (accepted ch (QuerySupport n i) = true \/ Q) /\ (accepted ch (HandoffDevice n i h) = true \/ Q)) ->
  (forall before e after, es = before ++ e :: after -> subscribed before e /\ (known enumerated before e \/ Q)) ->
  run accepted enumerated es ⇓{Q} fun '(self, sent) => bus_inv enumerated es self sent.
Proof.
  intros Hs Hu Hacc Hev. eapply returns_unless_weaken; [|done|].
  - apply (ofold_invariant_unless _ (handle accepted) (fun done_ s => bus_inv enumerated done_ s.1 s.2)).
    + split; simpl; try done; try (intros * Hin; by apply elem_of_nil in Hin).
      * intros n. unfold registered. simpl. rewrite app_nil_r, !list_elem_of_fmap. split.
        { intros ([n' d] & -> & Hin). pose proof (Hu n' d Hin). destruct d as [b i h|]; [|done].
          exists (n', (i, h)). split; [done|]. apply list_elem_of_omap. by exists (n', Unclaimed b i h). }
        { intros ([n' [i h]] & -> & Hin). apply list_elem_of_omap in Hin as ([n'' [b i' h'|]] & Hin & [= -> -> ->]).
          by exists (n', Unclaimed b i h). }
      * exists []. unfold registered. simpl. by rewrite !app_nil_r.
      * intros n b i h d _ Hd. by apply elem_of_nil in Hd.
      * intros n b i j Hin. by pose proof (Hu _ _ Hin).
    + intros done_ e rest [self sent] -> Hi. simpl in *. destruct (Hev done_ e rest eq_refl) as [Hsub Hkn].
      eapply (returns_unless_weaken _ _ _ (fun '(self', sent') => bus_inv enumerated (done_ ++ [e]) self' sent'));
        [|done|by intros [self' sent']].
      assert (forall r, r ∈ registered enumerated (done_ ++ [e]) -> r ∈ registered enumerated (done_ ++ e :: rest)) as Hre.
      { intros r. unfold registered. rewrite !omap_app, !elem_of_app. intros [?|[?|Hr]]; [auto..|]. right. right.
        cbn in *. destruct (registers e); [|by apply elem_of_nil in Hr].
        apply elem_of_cons in Hr as [->|Hr]; [left|by apply elem_of_nil in Hr]. }
      assert (forall r, r ∈ registered enumerated done_ -> r ∈ registered enumerated (done_ ++ [e])) as Hre'.
      { intros r Hr. rewrite registered_snoc. apply elem_of_app. by left. }
      destruct e as [name ch|name ch|bi [name info handoff]|j [fs|name b]].
      * by apply (handle_subscribe enumerated done_ self sent (BusDriverSubscribes name ch)).
      * by apply (handle_subscribe enumerated done_ self sent (DeviceDriverSubscribes name ch)).
      * apply (handle_bus_driver enumerated done_ self sent bi name info handoff); [|done].
        intros ch n i h Hr. by apply (Hacc ch n i h), Hre.
      * apply (handle_interest enumerated done_ self sent j fs); [|done|done].
        intros ch n i h Hr. by apply (Hacc ch n i h), Hre, Hre'.
      * apply (handle_support enumerated done_ self sent j name b); [|done|done|done].
        intros ch n i h Hr. by apply (Hacc ch n i h), Hre, Hre'.
  - by intros [self sent] Hi.
Qed.

End service.

(** ** Theorems *)

Section claims.
Context (accepted : Z -> DeviceDriverRequest -> bool) (enumerated : list (str * Device)) (es : list event).
Context (Hs : keys_sorted enumerated) (Hu : forall n d, (n, d) ∈ enumerated -> is_claimed d = false).
Context (Hev : forall before e after, es = before ++ e :: after -> subscribed before e).

(** Every message about a registered device can be sent, and the drivers name only
    devices that are registered. *)
Definition well_behaved : Prop :=
  (forall ch n i h, (n, (i, h)) ∈ registered enumerated es ->
     accepted ch (QuerySupport n i) = true /\ accepted ch (HandoffDevice n i h) = true) /\
  (forall before e after, es = before ++ e :: after -> known enumerated before e).

#[local] Instance known_dec before e : Decision (known enumerated before e).
Proof. destruct e as [| | |j [fs|name []]]; simpl; apply _. Defined.

Lemma run_well_behaved :
  run accepted enumerated es ⇓{~ well_behaved} fun '(self, sent) => bus_inv enumerated es self sent.
Proof.
  apply run_inv; [done|done| |].
  - intros ch n i h Hin. split.
    + destruct (accepted ch (QuerySupport n i)) eqn:E; [by left|]. right. intros [Hacc _].
      destruct (Hacc ch n i h Hin). congruence.
    + destruct (accepted ch (HandoffDevice n i h)) eqn:E; [by left|]. right. intros [Hacc _].
      destruct (Hacc ch n i h Hin). congruence.
  - intros before e after E. split; [by eapply Hev|].
    destruct (decide (known enumerated before e)); [by left|]. right. intros [_ Hk]. by eapply Hk in E.
Qed.


(** C22: After every run in which the Platform Bus does not panic (see above), each
    driver was asked about each unclaimed device that has all the properties of one
    of the filters the driver registered, and was asked about no device that has
    not; the service knows exactly the registered devices, and each claimed device
    was handed off to the driver recorded with it.  (One of a driver's filters
    suffices, although the documentation of the message asks for all.) *)
Theorem platform_bus_offers_devices :
  run accepted enumerated es ⇓{~ well_behaved} fun '(self, sent) =>
    (forall n b i h j ch, (n, Unclaimed b i h) ∈ devices self -> driver_channels es !! j = Some ch ->
       wants es j i -> (ch, QuerySupport n i) ∈ sent) /\
    (forall ch n i, (ch, QuerySupport n i) ∈ sent ->
       exists j, driver_channels es !! j = Some ch /\ wants es j i) /\
    (forall n, n ∈ (devices self).*1 <-> n ∈ (registered enumerated es).*1) /\
    (forall n b i j, (n, Claimed b i j) ∈ devices self ->
       exists ch h, driver_channels es !! j = Some ch /\ (ch, HandoffDevice n i h) ∈ sent).
Proof.
  eapply returns_unless_weaken; [apply run_well_behaved|done|]. intros [self sent] [_ Hc Hn _ Ho Hq Hf Hcl].
  assert (forall j ch, driver_channels es !! j = Some ch <->
    exists d, device_drivers self !! j = Some d /\ channel d = ch) as Hj.
  { intros j ch. rewrite <- Hc, list_lookup_fmap. destruct (device_drivers self !! j); simpl; naive_solver. }
  assert (forall j d i, device_drivers self !! j = Some d -> interested d i = true <-> wants es j i) as Hw.
  { intros j d i Hd. apply interested_spec. by rewrite Hf, Hd. }
  split_and!; [..|done|].
  - intros n b i h j ch Hd (d & Hjd & <-)%Hj Hi. apply (Ho n b i h d Hd).
    + by eapply list_elem_of_lookup_2.
    + by apply (Hw j).
  - intros ch n i Hin. destruct (Hq ch n i Hin) as (d & [j Hjd]%list_elem_of_lookup & Hch & Hi).
    exists j. split; [apply Hj; eauto|by apply (Hw j d)].
  - intros n b i j Hin. destruct (Hcl n b i j Hin) as (d & h & Hjd & Hh). exists (channel d), h.
    split; [apply Hj; eauto|done].
Qed.

End claims.
