(* ===== verification/PlatformBusWire.v ===== *)
(** * [user/platform_bus]: the messages on the wire, and examples

    The implementations that [ptah_derive] generates for the messages of the
    Platform Bus without filters, whether a request fits into a message of a
    channel, and runs of the service. *)

From stdpp Require Import base tactics option list numbers strings.
From S2P Require Import Prelude Bytes Effects Ptah PtahCorrect BTree Input Kernel PlatformBus.

(** ** The derived implementations *)

Section wire.
Context `{HA : Alloc}.

Definition property_variants : list (SpecVariant Property.t) := [
  variant Property.Bool (fun p => match p with Property.Bool v => Some v | _ => None end);
  variant Property.Integer (fun p => match p with Property.Integer v => Some v | _ => None end);
  variant Property.String (fun p => match p with Property.String v => Some v | _ => None end);
  variant Property.Bytes (fun p => match p with Property.Bytes v => Some v | _ => None end)].

#[export] Instance property_serialize : Serialize Property.t := enum_serialize property_variants.
#[export] Instance property_deserialize : Deserialize Property.t := enum_deserialize property_variants.
#[export] Instance property_spec : PtahSpec Property.t := enum_spec property_variants ltac:(done).

Definition handoff_variants : list (SpecVariant HandoffProperty.t) := [
  variant HandoffProperty.Bool (fun p => match p with HandoffProperty.Bool v => Some v | _ => None end);
  variant HandoffProperty.Integer (fun p => match p with HandoffProperty.Integer v => Some v | _ => None end);
  variant HandoffProperty.String (fun p => match p with HandoffProperty.String v => Some v | _ => None end);
  variant HandoffProperty.Bytes (fun p => match p with HandoffProperty.Bytes v => Some v | _ => None end);
  variant HandoffProperty.MemoryObject (fun p => match p with HandoffProperty.MemoryObject h => Some h | _ => None end);
  variant HandoffProperty.Event (fun p => match p with HandoffProperty.Event h => Some h | _ => None end);
  variant HandoffProperty.Interrupt (fun p => match p with HandoffProperty.Interrupt h => Some h | _ => None end);
  variant HandoffProperty.Channel (fun p => match p with HandoffProperty.Channel h => Some h | _ => None end)].

#[export] Instance handoff_property_serialize : Serialize HandoffProperty.t := enum_serialize handoff_variants.
#[export] Instance handoff_property_deserialize : Deserialize HandoffProperty.t := enum_deserialize handoff_variants.
#[export] Instance handoff_property_spec : PtahSpec HandoffProperty.t := enum_spec handoff_variants ltac:(done).

#[export] Instance device_info_serialize : Serialize DeviceInfo := struct_serialize info_properties.
#[export] Instance device_info_deserialize : Deserialize DeviceInfo := struct_deserialize mkDeviceInfo.
#[export] Instance device_info_spec : PtahSpec DeviceInfo :=
  struct_spec info_properties mkDeviceInfo ltac:(by intros []).

#[export] Instance handoff_info_serialize : Serialize HandoffInfo := struct_serialize handoff_properties.
#[export] Instance handoff_info_deserialize : Deserialize HandoffInfo := struct_deserialize mkHandoffInfo.
#[export] Instance handoff_info_spec : PtahSpec HandoffInfo :=
  struct_spec handoff_properties mkHandoffInfo ltac:(by intros []).

Definition bus_message_variants : list (SpecVariant BusDriverMessage) := [
  variant (fun p : str * DeviceInfo * HandoffInfo => RegisterDevice p.1.1 p.1.2 p.2)
    (fun m => match m with RegisterDevice n i h => Some (n, i, h) end)].

#[export] Instance bus_message_serialize : Serialize BusDriverMessage := enum_serialize bus_message_variants.
#[export] Instance bus_message_deserialize : Deserialize BusDriverMessage := enum_deserialize bus_message_variants.
#[export] Instance bus_message_spec : PtahSpec BusDriverMessage := enum_spec bus_message_variants ltac:(done).

Definition request_variants : list (SpecVariant DeviceDriverRequest) := [
  variant (fun p : str * DeviceInfo => QuerySupport p.1 p.2)
    (fun m => match m with QuerySupport n i => Some (n, i) | _ => None end);
  variant (fun p : str * DeviceInfo * HandoffInfo => HandoffDevice p.1.1 p.1.2 p.2)
    (fun m => match m with HandoffDevice n i h => Some (n, i, h) | _ => None end)].

#[export] Instance request_serialize : Serialize DeviceDriverRequest := enum_serialize request_variants.
#[export] Instance request_deserialize : Deserialize DeviceDriverRequest := enum_deserialize request_variants.
#[export] Instance request_spec : PtahSpec DeviceDriverRequest := enum_spec request_variants ltac:(done).

(** A request that [Channel::send] serialises into a message of the kernel. *)
Definition fits_message (r : DeviceDriverRequest) : bool :=
  match to_wire r ChannelWriter_new with
  | Val (Ok n, _) => n <=? CHANNEL_MAX_NUM_BYTES
  | _ => false
  end.

(** A request fits if it has at most four handles and few enough bytes, and then
    the driver that receives its bytes and handles reads the request itself. *)
Lemma request_fits (r : DeviceDriverRequest) :
  valid r -> addressable (length (encode 0 r)) ->
  (fits_message r = true <->
     (length (handles_of r) <= 4)%nat /\ Z.of_nat (length (encode 0 r)) <= CHANNEL_MAX_NUM_BYTES) /\
  (fits_message r = true ->
     to_wire r ChannelWriter_new ⇓ fun '(_, w) => from_wire (byte_buffer w) (ChannelWriter_handles w) = Val (Ok r)).
Proof.
  intros Hr Ha. unfold fits_message.
  assert (w_view ChannelWriter_new [] []) as Hview by done.
  pose proof (serialize_spec r ChannelWriter_new [] [] Hr Hview ltac:(by right) Ha) as H.
  destruct (to_wire r ChannelWriter_new) as [[[n|e] w]|]; [| |done]; simpl in H.
  - destruct H as ((_ & Hh) & -> & Hb & Hhs & _). rewrite Z.leb_le. split; [tauto|]. intros _. simpl.
    rewrite Hb, Hhs.
    exact (from_wire_encode r (handles_of r) Hr Hh ltac:(done)).
  - split; [|done]. split; [done|]. intros [Hh _]. destruct H. by split.
Qed.

End wire.

(** ** Runs of the service *)

Module PlatformBusExample.

(** Room for every vector. *)
#[local] Instance unlimited : Alloc := fun _ _ => true.

Definition accepts (channel : Z) (r : DeviceDriverRequest) : bool := fits_message r.

(** A controller with one BAR and an interrupt. *)
Definition ehci : PciDescriptor :=
  mkPciDescriptor (lit "00:1d.7") 0x8086 0x293a 0x0c 0x03 0x20
    [Some (Memory32 (mkHandle 11) (Uint 0x1000)); None; None; None; None; None] (Some (mkHandle 12)).

(** A device with five BARs. *)
Definition big : PciDescriptor :=
  mkPciDescriptor (lit "00:02.0") 0x1234 0x1111 0x03 0x00 0x00
    [Some (Memory32 (mkHandle 21) (Uint 0x1000)); Some (Memory32 (mkHandle 22) (Uint 0x1000));
     Some (Memory32 (mkHandle 23) (Uint 0x1000)); Some (Memory32 (mkHandle 24) (Uint 0x1000));
     Some (Memory32 (mkHandle 25) (Uint 0x1000)); None] None.

Definition int (v : Z) : Property.t := Property.Integer (Uint v).
Definition usb_filter : Filter :=
  All [Matches (lit "pci.class") (int 0x0c); Matches (lit "pci.sub_class") (int 0x03)].

Definition boot : list event := [
  DeviceDriverSubscribes (lit "ehci") 5;
  DeviceDriverSubscribes (lit "gpu") 6;
  FromDeviceDriver 0 (RegisterInterest [usb_filter]);
  BusDriverSubscribes (lit "usb") 7;
  FromBusDriver 0 (RegisterDevice (lit "usb-1") (mkDeviceInfo (mkBTreeMap [])) (mkHandoffInfo (mkBTreeMap [])));
  FromDeviceDriver 0 (CanSupport (lit "pci-00:1d.7") true)].

Lemma boot_result :
  match run accepts (enumerate_pci_devices [ehci]) boot with
  | Val (self, sent) =>
      (fun '(n, d) => (n, is_claimed d)) <$> devices self = [(lit "pci-00:1d.7", true); (lit "usb-1", false)] /\
      sent.*1 = [5; 5; 5] /\ length (omap hands_off sent) = 1%nat
  | Panic => False
  end.
Proof. vm_compute. done. Qed.

Lemma boot_registered :
  forall n i h, (n, (i, h)) ∈ registered (enumerate_pci_devices [ehci]) boot ->
    fits_message (QuerySupport n i) = true /\ fits_message (HandoffDevice n i h) = true.
Proof.
  assert (Forall (fun r : registration => fits_message (QuerySupport r.1 r.2.1) &&
    fits_message (HandoffDevice r.1 r.2.1 r.2.2) = true) (registered (enumerate_pci_devices [ehci]) boot)) as H.
  { repeat (constructor; [vm_compute; reflexivity|]). constructor. }
  intros n i h Hin. rewrite Forall_forall in H. by apply andb_true_iff, (H (n, (i, h))).
Qed.

(** A condition on every event of a run and those before it, by evaluation. *)
Fixpoint events_ok (P : list event -> event -> Prop) (before es : list event) : Prop :=
  match es with
  | [] => True
  | e :: es => P before e /\ events_ok P (before ++ [e]) es
  end.

Lemma events_ok_spec P es : forall before, events_ok P before es ->
  forall pre e post, es = pre ++ e :: post -> P (before ++ pre) e.
Proof.
  induction es as [|e' es IH]; intros before Hok [|p pre] e post E; try done; simplify_list_eq.
  - apply Hok.
  - destruct Hok as [_ Hok]. pose proof (IH _ Hok pre e post eq_refl) as H. by rewrite <- app_assoc in H.
Qed.

Lemma boot_subscribed : forall before e after, boot = before ++ e :: after -> subscribed before e.
Proof. apply (events_ok_spec _ boot []). vm_compute. split_and!; (done || lia). Qed.

Lemma boot_behaves : well_behaved accepts (enumerate_pci_devices [ehci]) boot.
Proof.
  split; [intros ch; apply boot_registered|]. apply (events_ok_spec _ boot []). vm_compute. split_and!; try done. left.
Qed.

Lemma boot_devices :
  keys_sorted (enumerate_pci_devices [ehci]) /\
  (forall n d, (n, d) ∈ enumerate_pci_devices [ehci] -> is_claimed d = false).
Proof.
  split; [vm_compute; by repeat constructor|].
  intros n d Hin. apply list_elem_of_singleton in Hin. apply (f_equal snd) in Hin. simpl in Hin. by rewrite Hin.
Qed.


(** The driver of the controller was asked about it. *)
Lemma platform_bus_offers_devices_witness :
  wants boot 0 (pci_info ehci) /\
  run accepts (enumerate_pci_devices [ehci]) boot ⇓ fun '(self, sent) =>
    (5, QuerySupport (lit "pci-00:1d.7") (pci_info ehci)) ∈ sent /\
    (forall n, n ∈ (devices self).*1 <-> n ∈ (registered (enumerate_pci_devices [ehci]) boot).*1) /\
    (forall n b i h j ch, (n, Unclaimed b i h) ∈ devices self -> driver_channels boot !! j = Some ch ->
       wants boot j i -> (ch, QuerySupport n i) ∈ sent).
Proof.
  split.
  { exists [usb_filter], usb_filter. split_and!; [done|left|].
    intros n p Hin. apply elem_of_cons in Hin as [[= -> ->]|Hin]; [by vm_compute|].
    apply list_elem_of_singleton in Hin as [= -> ->]. by vm_compute. }
  assert (run accepts (enumerate_pci_devices [ehci]) boot ⇓ fun '(self, sent) =>
    (5, QuerySupport (lit "pci-00:1d.7") (pci_info ehci)) ∈ sent) as Hask by (vm_compute; left).
  pose proof (platform_bus_offers_devices accepts (enumerate_pci_devices [ehci]) boot
    (proj1 boot_devices) (proj2 boot_devices) boot_subscribed) as Hoff.
  pose proof (returns_unless_returns _ _ _ Hoff boot_behaves) as Hret. clear Hoff.
  destruct (run _ _ _) as [[self sent]|]; [|done]. destruct Hret as (H1 & _ & H3 & _). by split_and!.
Defined.

(** *** Where the service goes wrong *)

(** A device with more handles than a message takes cannot be handed off: the
    service panics when a driver supports it. *)
Lemma five_bars_panic :
  run accepts (enumerate_pci_devices [big])
    [DeviceDriverSubscribes (lit "gpu") 5; FromDeviceDriver 0 (CanSupport (lit "pci-00:02.0") true)] = Panic.
Proof. vm_compute. reflexivity. Qed.

(** A driver that names a device that does not exist panics the service. *)
Lemma unknown_device_panics accepted :
  run accepted [] [DeviceDriverSubscribes (lit "gpu") 5; FromDeviceDriver 0 (CanSupport (lit "disk") true)] = Panic.
Proof. vm_compute. reflexivity. Qed.

(** A driver gets a device that it registered no interest in and was not asked
    about. *)
Lemma unasked_driver_gets_device :
  ('(_, sent) ← run accepts (enumerate_pci_devices [ehci])
    [DeviceDriverSubscribes (lit "gpu") 6; FromDeviceDriver 0 (CanSupport (lit "pci-00:1d.7") true)];
   mret (length sent, length (omap hands_off sent))) = Val (1%nat, 1%nat).
Proof. vm_compute. reflexivity. Qed.

(** One matching filter suffices. *)
Lemma one_filter_suffices info f fs :
  match_against f (info_properties info) = true -> matches_filter (f :: fs) info = true.
Proof. simpl. by intros ->. Qed.

End PlatformBusExample.
