(* ===== verification/UsbHid.v ===== *)
(** * [user/usb_hid/src/main.rs]: from a device to its reports

    What the HID driver does with a device before its report loop ([HidDriver]):
    it answers the platform bus whether it supports the device, and for a device it
    is handed it reads the configuration, announces an input device, fetches the
    report descriptor and opens the endpoint.  The task it spawns for a device is a
    function from the device's answer to the messages it sends. *)

From stdpp Require Import base tactics option list numbers strings.
From S2P Require Import Prelude Bytes Crates Ptah BTree UsbDescriptor HidReport HidItems PlatformBus.

(** ** Talking to the USB bus driver: [lib/usb/src/lib.rs] *)

Inductive EndpointDirection := In | Out.

Inductive DeviceControlMessage :=
  | UseConfiguration (value : Z)
  | UseInterface (num setting : Z)
  | OpenEndpoint (number : Z) (direction : EndpointDirection) (max_packet_size : Z)
  | GetInterfaceDescriptor (typ : DescriptorType) (index length : Z)
  | InterruptTransferIn (endpoint packet_size : Z).

Inductive DeviceResponse :=
  | Data (bytes : list Z)
  | NoData
  | DescriptorResponse (typ : DescriptorType) (index : Z) (bytes : list Z).

(** ** Does the driver support a device? *)

(** [Visitor]: has an interface of the HID class been seen? *)
#[export] Instance hid_visitor : ConfigurationVisitor bool := {
  visit_configuration := fun v _ => mret v;
  visit_interface := fun v d => mret (if interface_class d =? 3 then true else v);
  visit_endpoint := fun v _ => mret v;
  visit_hid := fun v _ => mret v;
  visit_other := fun v _ _ => mret v;
}.

(** [device_info.get_as_bytes("usb.config0").unwrap()]. *)
Definition config_bytes (device_info : DeviceInfo) : outcome (list Z) :=
  bs ← unwrap (info_get Property.as_bytes device_info (lit "usb.config0")); mret (List.map uint_val bs).

Definition query_support (fuel : nat) (device_info : DeviceInfo) : option (outcome bool) :=
  match config_bytes device_info with
  | Panic => Some Panic
  | Val configuration => walk_configuration fuel configuration false
  end.

(** ** Reading the configuration *)

Record ConfigInfo := mkConfigInfo {
  config_value : Z;
  info_interface_num : Z;
  info_interface_protocol : Z;
  interface_setting : Z;
  endpoint_num : Z;
  packet_size : Z;
  hid_report_len : Z;
}.

Definition ConfigInfo_default : ConfigInfo := mkConfigInfo 0 0 0 0 0 0 0.

Section config.
Context `{Bitfield}.

#[export] Instance config_visitor : ConfigurationVisitor ConfigInfo := {
  visit_configuration := fun i d =>
    mret (mkConfigInfo (configuration_value d) (info_interface_num i) (info_interface_protocol i) (interface_setting i)
            (endpoint_num i) (packet_size i) (hid_report_len i));
  visit_interface := fun i d =>
    mret (mkConfigInfo (config_value i) (interface_num d) (interface_protocol d) (alternate_setting d)
            (endpoint_num i) (packet_size i) (hid_report_len i));
  visit_endpoint := fun i d =>
    mret (mkConfigInfo (config_value i) (info_interface_num i) (info_interface_protocol i) (interface_setting i)
            (get_field 0 4 (endpoint_address d)) (max_packet_size d) (hid_report_len i));
  visit_hid := fun i d =>
    rassert (descriptor_typ d =? 34) ;;
    mret (mkConfigInfo (config_value i) (info_interface_num i) (info_interface_protocol i) (interface_setting i)
            (endpoint_num i) (packet_size i) (descriptor_length d));
  visit_other := fun i _ _ => mret i;
}.

Definition config_info (fuel : nat) (device_info : DeviceInfo) : option (outcome ConfigInfo) :=
  match config_bytes device_info with
  | Panic => Some Panic
  | Val bytes => walk_configuration fuel bytes ConfigInfo_default
  end.

End config.

(** The type of input device that is announced. *)
Definition hid_type (protocol : Z) : str :=
  if protocol =? 0 then lit "none"
  else if protocol =? 1 then lit "keyboard"
  else if protocol =? 2 then lit "mouse"
  else lit "reserved".

(** The message that registers the device; [handle] is its end of the channel. *)
Definition announce (info : ConfigInfo) (handle : Handle) : BusDriverMessage :=
  RegisterDevice (lit "usb-hid")
    (mkDeviceInfo (mkBTreeMap [(lit "hid.type", Property.String (hid_type (info_interface_protocol info)))]))
    (mkHandoffInfo (mkBTreeMap [(lit "hid.channel", HandoffProperty.Channel handle)])).

(** ** The task of a device, up to its first transfer *)

Definition request_report (info : ConfigInfo) : DeviceControlMessage :=
  GetInterfaceDescriptor Report 0 (hid_report_len info).

Definition transfer (info : ConfigInfo) : DeviceControlMessage :=
  InterruptTransferIn (endpoint_num info) (packet_size info).

(** The device's answer to [request_report], the parsed report descriptor, and the
    messages that follow. *)
Definition start_device `{BitField} `{BitArray} (info : ConfigInfo) (response : DeviceResponse) : outcome (ReportDescriptor * list DeviceControlMessage) :=
  match response with
  | DescriptorResponse typ index bytes =>
      if decide (typ = Report /\ index = 0) then
        report_desc ← parse bytes;
        mret (report_desc,
          [UseConfiguration (config_value info); OpenEndpoint (endpoint_num info) In (packet_size info); transfer info])
      else Panic
  | _ => Panic
  end.

(** ** Correctness *)

Definition interface_of (d : Descriptor) : option InterfaceDescriptor := match d with Interface i _ => Some i | _ => None end.
Definition endpoint_of (d : Descriptor) : option EndpointDescriptor := match d with Endpoint e _ => Some e | _ => None end.
Definition hid_of (d : Descriptor) : option HidDescriptor := match d with Hid h _ => Some h | _ => None end.

(** The configuration of a device, as the bus registers it. *)
Definition registered_with (device_info : DeviceInfo) (bytes : list Z) : Prop :=
  config_bytes device_info = Val bytes.

Lemma visit_support ds : forall v,
  ofold visit v ds = Val (v || existsb (fun i => interface_class i =? 3) (omap interface_of ds)).
Proof.
  induction ds as [|d ds IH]; intros v; simpl; [by rewrite orb_false_r|].
  destruct d as [i ?|e ?|h ?|t ?]; simpl; rewrite IH; [|done..].
  destruct (interface_class i =? 3), v; done.
Qed.

Section correct.
Context `{Bitfield} `{BitField} `{BitArray}.

(** The last of each kind of descriptor decides. *)
Definition config_ref (info : ConfigInfo) (ds : list Descriptor) : ConfigInfo :=
  let interface := last (omap interface_of ds) in
  let endpoint := last (omap endpoint_of ds) in
  let hid := last (omap hid_of ds) in
  mkConfigInfo (config_value info)
    (from_option interface_num (info_interface_num info) interface)
    (from_option interface_protocol (info_interface_protocol info) interface)
    (from_option alternate_setting (interface_setting info) interface)
    (from_option (fun e => get_field 0 4 (endpoint_address e)) (endpoint_num info) endpoint)
    (from_option max_packet_size (packet_size info) endpoint)
    (from_option descriptor_length (hid_report_len info) hid).

Lemma from_option_last_cons {A B} (f : A -> B) d x l : from_option f d (last (x :: l)) = from_option f (f x) (last l).
Proof. rewrite last_cons. by destruct (last l). Qed.

Lemma visit_config ds : forall info,
  Forall (fun h => descriptor_typ h = 34) (omap hid_of ds) ->
  ofold visit info ds = Val (config_ref info ds).
Proof.
  induction ds as [|d ds IH]; intros info Hh; [by destruct info|].
  destruct d as [i ?|e ?|h ?|t ?]; cbn [ofold visit visit_interface visit_endpoint visit_hid visit_other config_visitor];
    simpl in Hh.
  - obind. rewrite IH by done. unfold config_ref. simpl. by rewrite !from_option_last_cons.
  - obind. rewrite IH by done. unfold config_ref. simpl. by rewrite !from_option_last_cons.
  - apply Forall_cons_1 in Hh as [Ht Hh]. rewrite Ht. simpl. rewrite IH by done. unfold config_ref. simpl.
    by rewrite !from_option_last_cons.
  - obind. by rewrite IH.
Qed.


End correct.

(** ** A keyboard, and one with lights *)

Module UsbHidExample.
Import UsbExample.

#[local] Existing Instance reference_bitfield.
#[local] Existing Instance reference_bit_field.
#[local] Existing Instance reference_bit_array.

Definition device (bytes : list Z) : DeviceInfo :=
  mkDeviceInfo (mkBTreeMap [(lit "usb.config0", Property.Bytes (List.map Uint bytes))]).


(** A second endpoint, for output, behind the first. *)
Definition lights : list Z :=
  [9; 2; 41; 0; 1; 1; 0; 0xa0; 50] ++ [9; 4; 0; 0; 2; 3; 1; 1; 0] ++ [9; 33; 0x11; 0x01; 0; 1; 34; 63; 0] ++
  [7; 5; 0x81; 3; 8; 0; 10] ++ [7; 5; 0x02; 3; 1; 0; 10].

(** The driver polls the output endpoint for input. *)
Lemma output_endpoint_polled :
  config_info 9 (device lights) = Some (Val (mkConfigInfo 1 0 1 0 2 1 63)).
Proof. by vm_compute. Qed.

(** A device can stop the driver for ever. *)
Lemma query_never_ends fuel : query_support fuel (device zero_length) = None.
Proof.
  unfold query_support. change (config_bytes (device zero_length)) with (Val zero_length : outcome (list Z)).
  unfold walk_configuration. cbn -[walk_loop]. apply zero_length_hangs; [done|]. intros b. by exists b.
Qed.

End UsbHidExample.
